(* ===== verification/_CoqProject ===== *)
-Q . S2P
Prelude.v
RaftTypes.v
MemoryStorage.v
RaftNode.v
RaftVotes.v
RaftCluster.v
RaftElection.v
RaftLog.v
RaftReplicate.v
RaftFaults.v
RaftService.v
RaftProperties.v
RaftHistory.v
RaftCompaction.v
RaftReplication.v
RaftMoves.v
RaftInvariant.v
RaftRestart.v
RaftSafety.v
RaftOrigins.v
RaftLeaders.v
RaftAgreement.v
RaftProgress.v
RaftLiveness.v
KVStore.v
KVProperties.v
History.v
Locality.v
KVServer.v
KVServerProperties.v
LogStore.v
ReplicatedStore.v
ReplicatedInvariant.v
ReplicatedProperties.v
ReplicatedHints.v
ReplicatedPlain.v
Linearizability.v
Codec.v
Checksum.v
DiskStorage.v
DiskRecovery.v
DiskContract.v
DiskCrash.v
DiskFaults.v
DiskCluster.v
DiskProperties.v
ShardMap.v
ShardClient.v
ShardedStore.v
GrpcTransport.v
FakeNetwork.v
Harness.v
Bench.v
Supervisor.v
SupervisorProperties.v
GatewayCluster.v
GatewayProperties.v
GatewayChaos.v
GatewayClient.v
GoStrings.v
RateLimit.v
GatewayHttp.v
GatewayStream.v
GatewayHttpProperties.v
CommandLine.v
CommandLineProperties.v
