(* ===== verification/Prelude.v ===== *)
(** * DistKV: a verification development

    DistKV is a replicated key-value store in Go: a Raft implementation
    (src/internal/raft) over a write-ahead log (src/internal/storage), a
    key-value state machine and server (src/internal/kv), sharding
    (src/internal/shard), gRPC transport, a supervisor that crashes and restarts
    nodes, and a web console (src/internal/gateway) in front of all of them.
    This library models these programs function by function and proves what
    makes them correct.

    ** How the code is modelled

    A method that runs under a mutex is one computation on the record of the
    struct's fields, in the error monads of this file ([go], [GoM]); a method
    that releases the mutex on the way is one computation per critical section,
    with what it remembers across the gap as arguments.  A Go run-time panic is
    [Panic], an [error] result is data.  [uint64] is [N] with its wrap-around
    written out ([u64_add], [u64_sub]), [int] is [Z], a Go string is [string], a
    byte slice is [list byte], a map is a [gmap], and a range over a map takes
    the order of the iteration as an argument.  Goroutines, timers, networks and
    failing system calls are the steps and inputs of a transition system, so a
    theorem about all runs is a theorem about all schedules and all failures.

    What is not code under src/ is a parameter: the generated protobuf code
    ([KVCodec], with its round-trip law [KVCodecSpec]), gRPC (the functions
    [dial] and the carrier of GrpcTransport), math/rand ([Rand], with the ranges
    it documents), encoding/json (a decoding function).  Each is instantiated by a
    concrete function in the runs that accompany the theorems.  porcupine, the
    linearizability checker of the test-suite, is represented by the property it
    decides ([History.linearizable]).

    ** Which file models what

    - Prelude: errors, machine integers, the monads, lemmas on lists and options.
    - RaftTypes: raft/types.go; the interface [Storage] as a class, and its two
      contracts as classes, [HardStateSpec] (term and vote) and [StorageSpec]
      (everything durable).  The Raft theorems are proved for every [S] with the
      contract they need; MemoryStorage (raft/memory_storage.go), DiskContract and
      DiskFaults (storage/wal.go) discharge it.  A contract says what an operation
      that succeeds does, and what one that fails, or that the process dies in,
      leaves to the next process ([reopened], [leaves]).
    - RaftNode: every critical section of raft/node.go.
    - RaftVotes, RaftLog, RaftMoves: what one critical section does to term and
      vote, to the log, and to role and progress.  RaftReplicate and RaftService:
      the invariant of one node ([service]) and that it is kept without panics.
      RaftFaults: what a critical section in which storage fails leaves behind.
      RaftProperties: the theorems on one node.
    - RaftCluster and RaftElection: a cluster in which everything but elections is
      arbitrary; one leader per term.
    - RaftReplication: a cluster with all the traffic of replication and of
      snapshots as messages, in which nodes compact their logs.  RaftHistory is the
      abstract history of its logs, RaftCompaction the relation of a compacted log
      to the whole one, RaftInvariant the invariant against both, RaftRestart what
      it says of the storage a process left, RaftSafety its preservation,
      RaftAgreement the theorems.  RaftOrigins: who puts an entry in
      a log, who moves [lastApplied] and where snapshots come from.  RaftLeaders:
      whom nodes take for the leader.  RaftProgress and
      RaftLiveness: schedules in which proposals commit and leaders are elected,
      over storage that does not fail ([ReliableStorage]).
    - KVStore and KVProperties: kv/store.go, and the sequential specification
      [KVModel] of testutil/linearizability.go.
    - History: the recording of histories in testutil/linearizability.go.
    - KVServer and KVServerProperties: kv/server.go, the process around one node.
    - LogStore: the store a log stands for, and stores that started from a
      snapshot.  ReplicatedStore, ReplicatedInvariant, ReplicatedProperties: a
      cluster of such processes over RaftReplication.  ReplicatedHints: whom its
      servers name as leader.  ReplicatedPlain: its runs without snapshots.
      Linearizability: the tests' clients on it.
    - Codec, Checksum, DiskStorage, DiskRecovery, DiskContract, DiskCrash,
      DiskFaults, DiskProperties: storage/wal.go, from the record format to
      recovery.  DiskCluster: the cluster of RaftReplication over such disks.
    - ShardMap: shard/shardmap.go and router.go; ShardClient: shard/client.go.
      Locality: linearizability of several stores with keys of their own.
      ShardedStore: the clients of ShardClient on one cluster of servers per shard,
      whom they reach by names through the resolver.
    - GrpcTransport: transport/grpctransport/transport.go; FakeNetwork:
      transport/fake.go and transport.go; Harness: testutil/cluster.go and
      raft_cluster.go, the clusters the tests build over both; Bench:
      bench/bench.go, the load generator and its statistics.
    - Supervisor and SupervisorProperties: supervisor/supervisor.go, over
      DiskStorage and RaftNode.
    - GatewayCluster and GatewayProperties: gateway/cluster.go; GatewayChaos:
      gateway/chaos.go over an interface to the nodes' Admin services ([AdminNet],
      [AdminSpec]) that Supervisor discharges; GatewayClient: gateway/kvclient.go;
      RateLimit, GatewayHttp, GatewayStream, GatewayHttpProperties: gateway/http.go.
    - GoStrings: the parts of Go's strings and net packages the programs use;
      CommandLine, CommandLineProperties: cmd/distkv-server, cmd/distkv-gateway
      and cmd/distkv-cli.

    ** What the theorems show

    - The whole system: [ShardedStore.sharded_store_linearizable], for all shards
      together, and [Linearizability.replicated_store_linearizable], for one, say that
      the histories clients record are linearizable, whatever the network loses,
      duplicates and reorders, whichever servers die, at any point and with any
      storage error, and restart, compact their logs and restore snapshots, under
      the conditions on snapshots below, which hold of themselves where none are
      taken ([ReplicatedPlain.plain_runs]);
      [ReplicatedProperties.replies_linearize] places each reply in the log, and
      [ReplicatedProperties.servers_agree] refines all servers to one log.
    - Raft: [RaftElection.election_safety], and in RaftAgreement, with log
      compaction and snapshots under way and processes dying at any system call,
      log matching, leader completeness, state machine safety, refinement of one
      append-only log, and that no enabled node of a reachable cluster ever panics.  [RaftLiveness.majority_progress]: the
      cluster never gets stuck, a majority that is up can elect a leader and commit;
      [RaftProgress.proposal_commits]: a leader can bring lagging and diverged peers
      up to date and commit, and stays leader.  For one
      node, in RaftProperties: AppendEntries, the commit rule, the apply loop,
      snapshots and fast backup against reference definitions.
    - Storage: DiskStorage is observably MemoryStorage; every operation is atomic
      under a crash at any system call, but for the two findings proved there;
      recovery keeps the longest valid beginning of arbitrary file contents;
      detection of a corrupted byte.
    - State machine and server: at-most-once execution, equivalence with
      [KVModel], a reply belongs to its request in every interleaving, the apply
      loop is never stuck.
    - Sharding, transport and supervisor: unique routing, an RPC over gRPC is
      [Node.handle], partitions isolate, crash and restart recover.
    - Console and command lines: connected components and the leader of the
      summary, fault injection, routes of requests, the HTTP surface, rate and key
      limits, delivery of events; member lists parse back and a deployment is a
      cluster the Raft theorems speak about.
    Where the code does not do what it says, the theorem shows the run:
    [RaftElection.even_cluster_two_leaders], [RaftProperties] and [DiskProperties]
    on snapshots, [KVServerProperties] on lost replies and writes, [ShardMap] on
    overlapping shards, and others named after what goes wrong.

    ** Bounds and fuel

    Recursion in the code is structural in the model wherever it is a walk over a
    list.  [RaftNode.scan_commit] counts down from the last index to the commit
    index, as the loop does.  [Codec.scan] gets one more than the length of its input as
    fuel and consumes a record, of at least eight bytes, per turn ([scan_records],
    [scan_sound] and the recovery theorems give its result exactly).
    [GatewayCluster.bfs] takes one more than the number of running nodes, which is
    how many it can take off its queue; [connectivity_components] shows that the
    search is complete.
    The retry loops of clients have no bound in the code but the context: they are
    step machines that run over any list of inputs.  Indices and log lengths stay
    below 2^63 where the code converts to [int]; the theorems that need it say so.

    ** Assumptions of the cluster theorems, and what is not modelled

    - A cluster has an odd number of members: the code's majority is not one for
      even sizes ([RaftElection.even_cluster_two_leaders],
      [RaftProperties.even_cluster_commits_alone]).  Its members' configurations agree ([cluster_wf]), which
      [CommandLineProperties.deployment_wf] derives from the command lines.
    - In RaftReplication a snapshot is not delivered to a node whose log has
      another, uncommitted entry at the snapshot's last index ([installable]): the
      code then discards the log in memory but not on disk
      ([RaftProperties.install_snapshot_keeps_stale_tail]).
    - In the cluster of servers (ReplicatedStore) the snapshot loop reads the store
      when it has got to the index it was asked for ([snapshots_caught_up]): the
      code does not wait, and then loses writes
      ([KVServerProperties.early_snapshot_loses_write]).  And no node is given a
      snapshot that covers less than it has applied ([installs_ahead]): the code
      then goes back to it ([RaftProperties.install_snapshot_rolls_back]).  These
      three conditions restrict the runs the theorems speak about, and the runs
      they exclude are ordinary ones.  They always hold where no server takes a
      snapshot, as with [-snapshot-threshold 0] ([ReplicatedPlain.plain_runs],
      [ReplicatedPlain.unsnapped_installable]).
    - A node whose storage reported an error is disabled by the code; the cluster
      theorems speak about enabled nodes.  A disabled node's process can be replaced
      like any other; the next one finds what the failed operation left.
    - A process over DiskStorage that dies between the two renames of SaveSnapshot
      with entries after the snapshot is not restarted ([DiskFaults.wal_follows]):
      the next one would drop them ([DiskProperties.snapshot_crash_loses_tail]).
      Nor does a read error hit the scan of the log when a process starts
      ([DiskProperties.read_error_truncates_log]), and a process that cannot load
      its storage does not come up.
    - In the sharded store the resolver is a parameter: the names the shard map
      lists and the addresses the servers of a shard are given stand for servers of
      that shard ([ShardedStore.resolver_ok]), which is how a deployment is set up.
      A client gets answers of servers whose node is enabled.
    - The clients of the linearizability theorems have one operation under way at a
      time and increasing sequence numbers, as the test-suite's have (shard/client.go
      and the console allow more, see [ShardClient.concurrent_writes_lost] and
      [GatewayClient.console_write_lost]), and no write is left under way when the
      history is read.
    - A crash is the death of a process: what it wrote to a file is there
      afterwards.  Loss of the page cache in a power failure is not modelled.
    - Liveness is stated as the existence of a schedule from every reachable state
      ([RaftLiveness]).  That timers and the network eventually produce such a
      schedule depends on time and is not stated.
    - Latencies, log output, rounding of float64 (in the rate limiter and in the
      benchmark's percentiles), static files (gateway's spaHandler), package flag,
      signals and listeners (parameters of [CommandLine.server_main]), dialling and
      closing of the gateway's connections and generated code (src/proto/distkvpb)
      are not modelled.

    ** Plan

    Left: the deliveries a disabled node still makes to its server. *)
From stdpp Require Export prelude base option list gmap strings fin_maps countable sorting.
From Stdlib Require Export NArith ZArith Lia.
From Stdlib Require Import Strings.Byte.

(** ** Go values *)

Abbreviation NodeID := string.
Abbreviation bytes := (list Byte.byte).

#[export] Instance byte_eq_dec : EqDecision Byte.byte := Byte.byte_eq_dec.

(** [error] is Go's [error]: [fmt.Errorf] with or without a [%w] cause. *)
Inductive error : Type :=
| Errorf (msg : string)
| Wrapf (msg : string) (cause : error).

#[export] Instance error_eq_dec : EqDecision error.
Proof. solve_decision. Defined.

(** ** Machine integers

    [uint64] values are [N] below [2 ^ 64]; the operations wrap. *)
Definition two64 : N := 18446744073709551616.
Definition two63 : N := 9223372036854775808.
Definition u64 (x : N) : N := (x mod two64)%N.
Definition u64_add (x y : N) : N := u64 (x + y).
Definition u64_sub (x y : N) : N := u64 (x + (two64 - u64 y)).

(** [int(x)] for a [uint64] [x] on a 64-bit platform. *)
Definition int_of_u64 (x : N) : Z :=
  if (x <? two63)%N then Z.of_N x else (Z.of_N x - Z.of_N two64)%Z.

Lemma two64_pos : (0 < two64)%N.
Proof. reflexivity. Qed.

Lemma u64_small x : (x < two64)%N → u64 x = x.
Proof. apply N.mod_small. Qed.

Lemma u64_lt x : (u64 x < two64)%N.
Proof. apply N.mod_lt. discriminate. Qed.

Lemma u64_add_small x y : (x + y < two64)%N → u64_add x y = (x + y)%N.
Proof. apply u64_small. Qed.

Lemma u64_sub_small x y : (y ≤ x)%N → (x < two64)%N → u64_sub x y = (x - y)%N.
Proof.
  intros Hle Hlt. unfold u64_sub. rewrite (u64_small y) by lia.
  replace (x + (two64 - y))%N with ((x - y) + 1 * two64)%N by lia.
  unfold u64. rewrite N.Div0.mod_add, N.mod_small; lia.
Qed.

Lemma int_of_u64_small x :
  (x < two63)%N → int_of_u64 x = Z.of_N x.
Proof. intros H. unfold int_of_u64. destruct (N.ltb_spec x two63); lia. Qed.

Lemma two63_lt_two64 : (two63 < two64)%N.
Proof. reflexivity. Qed.

(** ** Computations that may panic

    [go A] is the result of running Go code: a value, or a runtime panic (an
    index or slice out of range).  [GoM St A] is a critical section: a
    computation over a state [St] that may panic. *)
Inductive go (A : Type) : Type :=
| Val (a : A)
| Panic.
Arguments Val {A} a.
Arguments Panic {A}.

Definition GoM (St A : Type) : Type := St → go (A * St).

#[export] Instance GoM_ret {St} : MRet (GoM St) := λ A a s, Val (a, s).
#[export] Instance GoM_bind {St} : MBind (GoM St) := λ A B f m s,
  match m s with
  | Val (a, s') => f a s'
  | Panic => Panic
  end.

Definition get {St} : GoM St St := λ s, Val (s, s).
Definition modify {St} (f : St → St) : GoM St () := λ s, Val ((), f s).
Definition panic {St A} : GoM St A := λ _, Panic.
Definition when {St} (b : bool) (m : GoM St ()) : GoM St () := if b then m else mret ().

(** [lift_go] runs a pure expression that may panic. *)
Definition lift_go {St A} (r : go A) : GoM St A := λ s,
  match r with
  | Val a => Val (a, s)
  | Panic => Panic
  end.

(** [on_field] runs a computation over a component of the state. *)
Definition on_field {St T A} (proj : St → T) (upd : T → St → St)
    (m : GoM T A) : GoM St A := λ s,
  match m (proj s) with
  | Val (a, t) => Val (a, upd t s)
  | Panic => Panic
  end.

(** ** Slices

    Bounds are checked before the index is converted, as the runtime does. *)
Definition slice_get {A} (l : list A) (i : N) : go A :=
  if (i <? N.of_nat (length l))%N
  then match l !! N.to_nat i with Some x => Val x | None => Panic end
  else Panic.

(** [l[i:]] *)
Definition slice_from {A} (l : list A) (i : N) : go (list A) :=
  if (i <=? N.of_nat (length l))%N then Val (drop (N.to_nat i) l) else Panic.

(** [l[:i]]; Go also accepts [len l < i <= cap l], which the callers never
    reach and which is a panic here. *)
Definition slice_to {A} (l : list A) (i : N) : go (list A) :=
  if (i <=? N.of_nat (length l))%N then Val (take (N.to_nat i) l) else Panic.

(** [l[len(l)-1]] *)
Definition slice_last {A} (l : list A) : go A :=
  match last l with Some x => Val x | None => Panic end.

Lemma slice_get_Some {A} (l : list A) i x :
  l !! N.to_nat i = Some x → slice_get l i = Val x.
Proof.
  intros H. unfold slice_get. pose proof (lookup_lt_Some _ _ _ H).
  destruct (N.ltb_spec i (N.of_nat (length l))); [by rewrite H | lia].
Qed.

Lemma slice_get_Val {A} (l : list A) i x :
  slice_get l i = Val x → l !! N.to_nat i = Some x.
Proof. unfold slice_get. repeat case_match; congruence. Qed.

Lemma slice_from_le {A} (l : list A) i :
  (i ≤ N.of_nat (length l))%N → slice_from l i = Val (drop (N.to_nat i) l).
Proof. intros H. unfold slice_from. destruct (N.leb_spec i (N.of_nat (length l))); [done | lia]. Qed.

Lemma slice_to_le {A} (l : list A) i :
  (i ≤ N.of_nat (length l))%N → slice_to l i = Val (take (N.to_nat i) l).
Proof. intros H. unfold slice_to. destruct (N.leb_spec i (N.of_nat (length l))); [done | lia]. Qed.

(** ** Weakest preconditions

    [wp pan m Q s]: running [m] from [s] ends in a value satisfying [Q], or
    panics and [pan] holds.  [pan := False] is total correctness (the code
    never panics), [pan := True] partial correctness. *)
Definition wp {St A} (pan : Prop) (m : GoM St A) (Q : A → St → Prop) (s : St) : Prop :=
  match m s with
  | Val (a, s') => Q a s'
  | Panic => pan
  end.

Arguments wp : simpl never.

Section wp.
Context {St : Type} (pan : Prop).
Implicit Types (s : St).

Lemma wp_ret {A} (a : A) Q s : Q a s → wp pan (mret a) Q s.
Proof. done. Qed.

Lemma wp_bind {A B} (f : A → GoM St B) (m : GoM St A) Q s :
  wp pan m (λ a s', wp pan (f a) Q s') s → wp pan (m ≫= f) Q s.
Proof. unfold wp, mbind, GoM_bind. destruct (m s) as [[??]|]; auto. Qed.

Lemma wp_get Q s : Q s s → wp pan get Q s.
Proof. done. Qed.

Lemma wp_modify f Q s : Q () (f s) → wp pan (modify f) Q s.
Proof. done. Qed.

Lemma wp_panic {A} (Q : A → St → Prop) s : pan → wp pan panic Q s.
Proof. done. Qed.

Lemma wp_when b m Q s :
  (b = true → wp pan m Q s) → (b = false → Q () s) → wp pan (when b m) Q s.
Proof. destruct b; cbn; intros H1 H2; [by apply H1 | by apply H2]. Qed.

Lemma wp_lift_go {A} (r : go A) Q s :
  (∀ a, r = Val a → Q a s) → (r = Panic → pan) → wp pan (lift_go r) Q s.
Proof. unfold wp, lift_go. destruct r; auto. Qed.

Lemma wp_lift_Val {A} (r : go A) a Q s : r = Val a → Q a s → wp pan (lift_go r) Q s.
Proof. by intros ->. Qed.

Lemma wp_on_field {T A} (proj : St → T) upd (m : GoM T A) Q s :
  wp pan m (λ a t, Q a (upd t s)) (proj s) → wp pan (on_field proj upd m) Q s.
Proof. unfold wp, on_field. destruct (m (proj s)) as [[??]|]; auto. Qed.

Lemma wp_mono {A} (m : GoM St A) (Q Q' : A → St → Prop) s :
  (∀ a s', Q a s' → Q' a s') → wp pan m Q s → wp pan m Q' s.
Proof. unfold wp. destruct (m s) as [[??]|]; auto. Qed.

Lemma wp_conj {A} (m : GoM St A) (Q Q' : A → St → Prop) s :
  wp pan m Q s → wp pan m Q' s → wp pan m (λ a s', Q a s' ∧ Q' a s') s.
Proof. unfold wp. destruct (m s) as [[??]|]; auto. Qed.
End wp.

Lemma wp_weaken {St A} (p p' : Prop) (m : GoM St A) Q s :
  (p → p') → wp p m Q s → wp p' m Q s.
Proof. unfold wp. destruct (m s) as [[??]|]; auto. Qed.

Lemma wp_run {St A} p (m : GoM St A) Q s a s' :
  wp p m Q s → m s = Val (a, s') → Q a s'.
Proof. unfold wp. intros H Hm. by rewrite Hm in H. Qed.

Lemma wp_total {St A} (m : GoM St A) Q s :
  wp False m Q s → ∃ a s', m s = Val (a, s') ∧ Q a s'.
Proof. unfold wp. destruct (m s) as [[a s']|]; [eauto | done]. Qed.

(** One step of symbolic execution. *)
Ltac wp_step :=
  lazymatch goal with
  | |- wp _ (mbind _ _) _ _ => apply wp_bind
  | |- wp _ (mret _) _ _ => apply wp_ret
  | |- wp _ get _ _ => apply wp_get
  | |- wp _ (modify _) _ _ => apply wp_modify
  | |- wp _ (when _ _) _ _ => apply wp_when; intros ?
  | |- wp _ (on_field _ _ _) _ _ => apply wp_on_field
  | |- wp _ (if ?b then _ else _) _ _ => destruct b eqn:?
  | |- wp _ (match ?x with _ => _ end) _ _ => destruct x eqn:?
  end.

Ltac wp_steps := repeat (wp_step; cbn beta).

(** Boolean guards of the code, read as propositions. *)
Ltac reflect_guards :=
  repeat match goal with
  | H : (_ <? _)%N = true |- _ => apply N.ltb_lt in H; cbn in H
  | H : (_ <? _)%N = false |- _ => apply N.ltb_ge in H; cbn in H
  | H : (_ <=? _)%N = true |- _ => apply N.leb_le in H; cbn in H
  | H : (_ <=? _)%N = false |- _ => apply N.leb_gt in H; cbn in H
  | H : (_ =? _)%N = true |- _ => apply N.eqb_eq in H; cbn in H
  | H : (_ =? _)%N = false |- _ => apply N.eqb_neq in H; cbn in H
  | H : (_ <=? _)%nat = true |- _ => apply Nat.leb_le in H; cbn in H
  | H : (_ <=? _)%nat = false |- _ => apply Nat.leb_gt in H; cbn in H
  | H : bool_decide _ = true |- _ => apply bool_decide_eq_true in H; cbn in H
  | H : bool_decide _ = false |- _ => apply bool_decide_eq_false in H; cbn in H
  | H : negb _ = true |- _ => apply negb_true_iff in H
  | H : negb _ = false |- _ => apply negb_false_iff in H
  | H : _ && _ = true |- _ => apply andb_true_iff in H as [? ?]
  | H : _ || _ = false |- _ => apply orb_false_iff in H as [? ?]
  end.
