(* ===== verification/RaftTypes.v ===== *)
(** * The data types of internal/raft/types.go

    Roles, log entries, RPC messages, [ApplyMsg], and the [Storage] interface
    with the laws its documentation promises ([StorageSpec]), stated against
    an abstract view of what is durable. *)
From S2P Require Import Prelude.

(** ** Roles *)
Inductive Role : Type := Follower | Candidate | Leader.

#[export] Instance Role_eq_dec : EqDecision Role.
Proof. solve_decision. Defined.

(** [Role.String]. *)
Definition Role_String (r : Role) : string :=
  match r with
  | Follower => "follower"
  | Candidate => "candidate"
  | Leader => "leader"
  end.

(** ** Log entries and persistent state *)
Record LogEntry : Type := MkEntry {
  Term : N;
  Index : N;
  Command : bytes;
}.

#[export] Instance LogEntry_eq_dec : EqDecision LogEntry.
Proof. solve_decision. Defined.

Record PersistentState : Type := MkPersistent {
  CurrentTerm : N;
  VotedFor : NodeID;
  Log : list LogEntry;
  SnapshotData : bytes;
}.

#[export] Instance PersistentState_eq_dec : EqDecision PersistentState.
Proof. solve_decision. Defined.

(** ** RPC messages *)
Record RequestVoteArgs : Type := MkRVArgs {
  rv_Term : N;
  rv_CandidateID : NodeID;
  rv_LastLogIndex : N;
  rv_LastLogTerm : N;
}.

Record RequestVoteReply : Type := MkRVReply {
  rvr_Term : N;
  rvr_VoteGranted : bool;
}.

Record AppendEntriesArgs : Type := MkAEArgs {
  ae_Term : N;
  ae_LeaderID : NodeID;
  ae_PrevLogIndex : N;
  ae_PrevLogTerm : N;
  ae_Entries : list LogEntry;
  ae_LeaderCommit : N;
}.

Record AppendEntriesReply : Type := MkAEReply {
  aer_Term : N;
  aer_Success : bool;
  aer_ConflictTerm : N;
  aer_ConflictIndex : N;
}.

Record InstallSnapshotArgs : Type := MkISArgs {
  is_Term : N;
  is_LeaderID : NodeID;
  is_LastIncludedIndex : N;
  is_LastIncludedTerm : N;
  is_Data : bytes;
}.

Record InstallSnapshotReply : Type := MkISReply { isr_Term : N }.

(** The requests [Node.handle] dispatches on, and their replies. *)
Inductive Request : Type :=
| ReqVote (args : RequestVoteArgs)
| ReqAppend (args : AppendEntriesArgs)
| ReqSnapshot (args : InstallSnapshotArgs).

Inductive Reply : Type :=
| RepVote (reply : RequestVoteReply)
| RepAppend (reply : AppendEntriesReply)
| RepSnapshot (reply : InstallSnapshotReply).

(** ** Apply messages

    Exactly one of [CommandValid] and [SnapshotValid] is true in the Go
    struct, so the two shapes are the two constructors. *)
Inductive ApplyMsg : Type :=
| CommandMsg (Command : bytes) (CommandIndex CommandTerm : N)
| SnapshotMsg (Snapshot : bytes) (SnapshotIndex SnapshotTerm : N).

#[export] Instance ApplyMsg_eq_dec : EqDecision ApplyMsg.
Proof. solve_decision. Defined.

Definition msg_index (m : ApplyMsg) : N :=
  match m with CommandMsg _ i _ | SnapshotMsg _ i _ => i end.

Definition msg_term (m : ApplyMsg) : N :=
  match m with CommandMsg _ _ t | SnapshotMsg _ _ t => t end.

(** ** The Storage interface *)
Class Storage (S : Type) : Type := {
  SaveHardState : N → NodeID → GoM S (option error);
  AppendLog : list LogEntry → GoM S (option error);
  TruncateLog : N → GoM S (option error);
  SaveSnapshot : N → N → bytes → GoM S (option error);
  Load : GoM S (PersistentState + error);
}.

(** The boundary entry of a log: slice position 0. *)
Definition boundary (lii lit : N) : LogEntry := MkEntry lit lii [].

(** Entries numbered consecutively from [i]. *)
Fixpoint contiguous (i : N) (es : list LogEntry) : Prop :=
  match es with
  | [] => True
  | e :: es => Index e = i ∧ contiguous (i + 1) es
  end.

(** A log: a boundary entry followed by the entries after it. *)
Definition log_wf (l : list LogEntry) : Prop :=
  match l with
  | [] => False
  | b :: es => contiguous (Index b + 1) es
  end.

Definition first_index (l : list LogEntry) : N :=
  match l with [] => 0 | b :: _ => Index b end.

(** One past the index of the last entry of a well-formed log. *)
Definition next_index (l : list LogEntry) : N := (first_index l + N.of_nat (length l))%N.

(** *** What each operation does to the durable state *)
Definition ps_save_hard (t : N) (v : NodeID) (ps : PersistentState) : PersistentState :=
  MkPersistent t v (Log ps) (SnapshotData ps).

Definition ps_append (es : list LogEntry) (ps : PersistentState) : PersistentState :=
  MkPersistent (CurrentTerm ps) (VotedFor ps) (Log ps ++ es) (SnapshotData ps).

Definition ps_truncate (from : N) (ps : PersistentState) : PersistentState :=
  MkPersistent (CurrentTerm ps) (VotedFor ps)
    (take (N.to_nat (from - first_index (Log ps))) (Log ps)) (SnapshotData ps).

(** The entries at or before [lii] go, every later one stays. *)
Definition ps_snapshot (lii lit : N) (data : bytes) (ps : PersistentState) : PersistentState :=
  MkPersistent (CurrentTerm ps) (VotedFor ps)
    (boundary lii lit :: drop (N.to_nat (lii - first_index (Log ps)) + 1) (Log ps)) data.

(** *** The contract for the hard state

    [hard_view] is the durable term and vote.  A failed write may or may not
    have taken effect; no other operation touches them. *)
Class HardStateSpec (S : Type) `{Storage S} : Type := {
  hard_view : S → N * NodeID;
  vote_fits : NodeID → Prop;

  vote_fits_none : vote_fits "";
  save_hard_hard s t v :
    (t < two64)%N → vote_fits v →
    wp True (SaveHardState t v) (λ e s',
      match e with
      | None => hard_view s' = (t, v)
      | Some _ => hard_view s' = hard_view s ∨ hard_view s' = (t, v)
      end) s;
  append_hard s es : wp True (AppendLog es) (λ _ s', hard_view s' = hard_view s) s;
  truncate_hard s i : wp True (TruncateLog i) (λ _ s', hard_view s' = hard_view s) s;
  snapshot_hard s i t d : wp True (SaveSnapshot i t d) (λ _ s', hard_view s' = hard_view s) s;
  load_hard s :
    wp True Load (λ r s', hard_view s' = hard_view s ∧
      match r with
      | inl ps => (CurrentTerm ps, VotedFor ps) = hard_view s
      | inr _ => True
      end) s;
}.

(** *** The contract for the whole durable state

    [view] is the durable state a fresh [Load] would report; [sto_ok] says the
    handle is usable (no operation on it has failed), [loads] that a [Load] can
    be attempted.  Log positions are [int]s in the code, so indices stay below
    [2 ^ 63].  After a failure the handle is no longer used: the node disables
    itself.  [reopened s s'] says that a process which died over [s] may find
    [s'] when it is started again: what an operation that failed, or that the
    process died in, has left is the state before it or after it, or, for
    [AppendLog], after some of the entries. *)
Definition leaves_with {S : Type} (reopened : S → S → Prop) (loads : S → Prop) (view : S → PersistentState)
    (Q : PersistentState → Prop) (s : S) : Prop :=
  ∀ s', reopened s s' → loads s' ∧ Q (view s').

Class StorageSpec (S : Type) `{HardStateSpec S} : Type := {
  view : S → PersistentState;
  sto_ok : S → Prop;
  loads : S → Prop;
  reopened : S → S → Prop;
  entry_fits : LogEntry → Prop;
  snapshot_fits : bytes → Prop;

  loads_ok s : sto_ok s → loads s;
  loads_hard s : loads s → hard_view s = (CurrentTerm (view s), VotedFor (view s));
  loads_wf s : loads s → log_wf (Log (view s));

  save_hard_spec s t v :
    sto_ok s → (t < two64)%N → vote_fits v →
    wp False (SaveHardState t v) (λ e s',
      e = None → sto_ok s' ∧ view s' = ps_save_hard t v (view s)) s;

  append_spec s es :
    sto_ok s → contiguous (next_index (Log (view s))) es →
    (next_index (Log (view s)) + N.of_nat (length es) ≤ two63)%N → Forall entry_fits es →
    wp False (AppendLog es) (λ e s',
      e = None → sto_ok s' ∧ view s' = ps_append es (view s)) s;

  truncate_spec s from :
    sto_ok s → (first_index (Log (view s)) < from)%N →
    (from < next_index (Log (view s)))%N → (next_index (Log (view s)) ≤ two63)%N →
    wp False (TruncateLog from) (λ e s',
      e = None → sto_ok s' ∧ view s' = ps_truncate from (view s)) s;

  snapshot_spec s lii lit data :
    sto_ok s → (first_index (Log (view s)) < lii)%N → (lii < two63)%N → (lit < two64)%N →
    (next_index (Log (view s)) ≤ two63)%N → snapshot_fits data →
    wp False (SaveSnapshot lii lit data) (λ e s',
      e = None → sto_ok s' ∧ view s' = ps_snapshot lii lit data (view s)) s;

  load_spec s :
    loads s →
    wp False Load (λ r s',
      ∀ ps, r = inl ps → ps = view s ∧ view s' = view s ∧ sto_ok s') s;

  reopened_dec s s' : Decision (reopened s s');
  reopened_hard s s' : reopened s s' → hard_view s' = hard_view s;
  reopened_ok s : sto_ok s → leaves_with reopened loads view (λ ps, ps = view s) s;

  save_hard_fault s t v :
    sto_ok s → (t < two64)%N → vote_fits v →
    wp True (SaveHardState t v) (λ e s', e ≠ None →
      leaves_with reopened loads view (λ ps, ps = view s ∨ ps = ps_save_hard t v (view s)) s') s;

  append_fault s es :
    sto_ok s → contiguous (next_index (Log (view s))) es →
    (next_index (Log (view s)) + N.of_nat (length es) ≤ two63)%N → Forall entry_fits es →
    wp True (AppendLog es) (λ e s', e ≠ None →
      leaves_with reopened loads view (λ ps, ∃ k, ps = ps_append (take k es) (view s)) s') s;

  truncate_fault s from :
    sto_ok s → (first_index (Log (view s)) < from)%N →
    (from < next_index (Log (view s)))%N → (next_index (Log (view s)) ≤ two63)%N →
    wp True (TruncateLog from) (λ e s', e ≠ None →
      leaves_with reopened loads view (λ ps, ps = view s ∨ ps = ps_truncate from (view s)) s') s;

  snapshot_fault s lii lit data :
    sto_ok s → (first_index (Log (view s)) < lii)%N → (lii < two63)%N → (lit < two64)%N →
    (next_index (Log (view s)) ≤ two63)%N → snapshot_fits data →
    wp True (SaveSnapshot lii lit data) (λ e s', e ≠ None →
      leaves_with reopened loads view (λ ps, ps = view s ∨ ps = ps_snapshot lii lit data (view s)) s') s;
}.

#[export] Existing Instance reopened_dec.

(** What is found after the process over [s] died satisfies [Q]. *)
Definition leaves {S} `{StorageSpec S} : (PersistentState → Prop) → S → Prop := leaves_with reopened loads view.

Lemma leaves_mono {S} `{StorageSpec S} (Q Q' : PersistentState → Prop) s :
  (∀ ps, Q ps → Q' ps) → leaves Q s → leaves Q' s.
Proof. intros HQ Hl s' Hr. destruct (Hl s' Hr) as [Hld Hv]. split; [done|by apply HQ]. Qed.

Lemma view_hard {S} `{StorageSpec S} s : sto_ok s → hard_view s = (CurrentTerm (view s), VotedFor (view s)).
Proof. intros Hok. by apply loads_hard, loads_ok. Qed.

Lemma view_wf {S} `{StorageSpec S} s : sto_ok s → log_wf (Log (view s)).
Proof. intros Hok. by apply loads_wf, loads_ok. Qed.

(** ** Lemmas on contiguous logs *)
Lemma contiguous_lookup i es k e :
  contiguous i es → es !! k = Some e → Index e = (i + N.of_nat k)%N.
Proof.
  revert i k. induction es as [|e' es IH]; intros i k Hc Hk; [done|].
  destruct Hc as [He Hc]. destruct k as [|k]; simplify_eq/=; [lia|].
  rewrite (IH _ _ Hc Hk). lia.
Qed.

Lemma contiguous_app i es1 es2 :
  contiguous i (es1 ++ es2) ↔
  contiguous i es1 ∧ contiguous (i + N.of_nat (length es1)) es2.
Proof.
  revert i. induction es1 as [|e es1 IH]; intros i; cbn [contiguous app length].
  - rewrite N.add_0_r. tauto.
  - rewrite IH. replace (i + N.of_nat (S (length es1)))%N
      with (i + 1 + N.of_nat (length es1))%N by lia. tauto.
Qed.

Lemma contiguous_take i k es : contiguous i es → contiguous i (take k es).
Proof. rewrite <- (take_drop k es) at 1. rewrite contiguous_app. tauto. Qed.

Lemma contiguous_drop i k es :
  contiguous i es → contiguous (i + N.of_nat k) (drop k es).
Proof.
  intros H. destruct (decide (k ≤ length es)) as [Hk|Hk].
  - rewrite <- (take_drop k es), contiguous_app, length_take in H.
    replace (k `min` length es) with k in H by lia. tauto.
  - by rewrite drop_ge by lia.
Qed.

Lemma log_wf_contiguous l :
  log_wf l ↔ l ≠ [] ∧ contiguous (first_index l) l.
Proof. destruct l as [|b es]; cbn; intuition congruence. Qed.

Lemma log_lookup_Index l k e :
  log_wf l → l !! k = Some e → Index e = (first_index l + N.of_nat k)%N.
Proof. intros [_ H]%log_wf_contiguous. by apply contiguous_lookup. Qed.

Lemma log_wf_length l : log_wf l → 0 < length l.
Proof. destruct l; cbn; [done | lia]. Qed.

Lemma log_wf_app l es :
  log_wf l → contiguous (next_index l) es → log_wf (l ++ es).
Proof.
  intros [Hne Hc]%log_wf_contiguous Hes. apply log_wf_contiguous.
  destruct l as [|b l]; [done|]. split; [done|].
  apply (contiguous_app _ (b :: l)). done.
Qed.

Lemma log_wf_take l k : log_wf l → 0 < k → log_wf (take k l).
Proof.
  intros [Hne Hc]%log_wf_contiguous Hk. apply log_wf_contiguous.
  destruct l as [|b l]; [done|]. destruct k as [|k]; [lia|].
  split; [done|]. by apply (contiguous_take _ (S k)) in Hc.
Qed.

Lemma log_wf_drop l k : log_wf l → k < length l → log_wf (drop k l).
Proof.
  intros [Hne Hc]%log_wf_contiguous Hk. apply log_wf_contiguous.
  apply (contiguous_drop _ k) in Hc.
  destruct (drop k l) as [|e r] eqn:E.
  - apply (f_equal length) in E. rewrite length_drop in E. cbn in E. lia.
  - split; [done|]. destruct Hc as [He Hc]. cbn [first_index]. rewrite He. by split.
Qed.

Lemma first_index_app l es : l ≠ [] → first_index (l ++ es) = first_index l.
Proof. by destruct l. Qed.

Lemma first_index_take l k : 0 < k → first_index (take k l) = first_index l.
Proof. intros Hk. destruct k; [lia|]. by destruct l. Qed.

Lemma next_index_app l es :
  l ≠ [] → next_index (l ++ es) = (next_index l + N.of_nat (length es))%N.
Proof. intros H. unfold next_index. rewrite first_index_app by done. rewrite length_app. lia. Qed.

Lemma next_index_take l k :
  0 < k → next_index (take k l) = (first_index l + N.of_nat (k `min` length l))%N.
Proof. intros H. unfold next_index. by rewrite first_index_take, length_take. Qed.

Lemma last_log_Index l e :
  log_wf l → last l = Some e → (Index e + 1)%N = next_index l.
Proof.
  intros Hwf Hl. rewrite last_lookup in Hl.
  rewrite (log_lookup_Index _ _ _ Hwf Hl). pose proof (log_wf_length _ Hwf).
  unfold next_index. lia.
Qed.
