(* ===== verification/MemoryStorage.v ===== *)
(** * internal/raft/memory_storage.go

    [MemoryStorage], the in-memory [Storage], and the proof that it meets the
    interface's contract. *)
From S2P Require Import Prelude RaftTypes.

Record MemoryStorage : Type := MkMemory {
  ms_currentTerm : N;
  ms_votedFor : NodeID;
  ms_log : list LogEntry;
  ms_lastIncludedIndex : N;
  ms_lastIncludedTerm : N;
  ms_snapshotData : bytes;
}.

Definition NewMemoryStorage : MemoryStorage := MkMemory 0 "" [] 0 0 [].

Definition ms_set_log (l : list LogEntry) (m : MemoryStorage) : MemoryStorage :=
  MkMemory (ms_currentTerm m) (ms_votedFor m) l (ms_lastIncludedIndex m)
    (ms_lastIncludedTerm m) (ms_snapshotData m).

Definition ms_SaveHardState (term : N) (votedFor : NodeID)
    : GoM MemoryStorage (option error) :=
  modify (λ m, MkMemory term votedFor (ms_log m) (ms_lastIncludedIndex m)
                 (ms_lastIncludedTerm m) (ms_snapshotData m)) ;;
  mret None.

Definition ms_AppendLog (entries : list LogEntry) : GoM MemoryStorage (option error) :=
  modify (λ m, ms_set_log (ms_log m ++ entries) m) ;;
  mret None.

Definition ms_TruncateLog (fromIndex : N) : GoM MemoryStorage (option error) :=
  m ← get;
  if (fromIndex <=? ms_lastIncludedIndex m)%N
  then mret (Some (Errorf "raft: TruncateLog: fromIndex is at or before the snapshot boundary"))
  else
    let pos := u64_sub (u64_sub fromIndex (ms_lastIncludedIndex m)) 1 in
    (if (int_of_u64 pos <? Z.of_nat (length (ms_log m)))%Z
     then l ← lift_go (slice_to (ms_log m) pos); modify (ms_set_log l)
     else mret ()) ;;
    mret None.

Definition ms_SaveSnapshot (lastIncludedIndex lastIncludedTerm : N) (data : bytes)
    : GoM MemoryStorage (option error) :=
  m ← get;
  l ← (if (ms_lastIncludedIndex m <? lastIncludedIndex)%N &&
          (int_of_u64 (u64_sub lastIncludedIndex (ms_lastIncludedIndex m))
             <=? Z.of_nat (length (ms_log m)))%Z
       then
         let pos := u64_sub lastIncludedIndex (ms_lastIncludedIndex m) in
         lift_go (slice_from (ms_log m) pos)
       else mret []);
  modify (λ m, MkMemory (ms_currentTerm m) (ms_votedFor m) l
                 lastIncludedIndex lastIncludedTerm data) ;;
  mret None.

Definition ms_Load : GoM MemoryStorage (PersistentState + error) :=
  m ← get;
  mret (inl (MkPersistent (ms_currentTerm m) (ms_votedFor m)
    (boundary (ms_lastIncludedIndex m) (ms_lastIncludedTerm m) :: ms_log m)
    (ms_snapshotData m))).

#[export] Instance MemoryStorage_Storage : Storage MemoryStorage := {
  SaveHardState := ms_SaveHardState;
  AppendLog := ms_AppendLog;
  TruncateLog := ms_TruncateLog;
  SaveSnapshot := ms_SaveSnapshot;
  Load := ms_Load;
}.

(** ** The contract *)
Definition ms_view (m : MemoryStorage) : PersistentState :=
  MkPersistent (ms_currentTerm m) (ms_votedFor m)
    (boundary (ms_lastIncludedIndex m) (ms_lastIncludedTerm m) :: ms_log m)
    (ms_snapshotData m).

Definition ms_ok (m : MemoryStorage) : Prop :=
  contiguous (ms_lastIncludedIndex m + 1) (ms_log m).

#[local] Ltac ms_unfold := cbn [SaveHardState AppendLog TruncateLog SaveSnapshot Load MemoryStorage_Storage].

Lemma ms_next_index m :
  next_index (Log (ms_view m)) =
  (ms_lastIncludedIndex m + 1 + N.of_nat (length (ms_log m)))%N.
Proof. unfold next_index. cbn [Log ms_view first_index boundary Index length]. lia. Qed.

Lemma ms_save_hard_spec m t v :
  ms_ok m →
  wp False (SaveHardState t v) (λ e m',
    e = None ∧ ms_ok m' ∧ ms_view m' = ps_save_hard t v (ms_view m)) m.
Proof. done. Qed.

Lemma ms_append_spec m es :
  ms_ok m → contiguous (next_index (Log (ms_view m))) es →
  wp False (AppendLog es) (λ e m',
    e = None ∧ ms_ok m' ∧ ms_view m' = ps_append es (ms_view m)) m.
Proof.
  intros Hok Hes. rewrite ms_next_index in Hes. split; [done|]. split; [|done].
  apply contiguous_app. done.
Qed.

Lemma ms_truncate_spec m from :
  ms_ok m → (ms_lastIncludedIndex m < from)%N →
  (from < next_index (Log (ms_view m)))%N → (next_index (Log (ms_view m)) ≤ two63)%N →
  wp False (TruncateLog from) (λ e m',
    e = None ∧ ms_ok m' ∧ ms_view m' = ps_truncate from (ms_view m)) m.
Proof.
  intros Hok Hlo Hhi Hb. rewrite ms_next_index in *. pose proof two63_lt_two64.
  ms_unfold. unfold ms_TruncateLog. wp_step. wp_step.
  destruct (N.leb_spec from (ms_lastIncludedIndex m)); [lia|]. cbv zeta.
  rewrite !u64_sub_small by (rewrite ?u64_sub_small; lia).
  rewrite int_of_u64_small by lia. wp_step.
  destruct (Z.ltb_spec (Z.of_N (from - ms_lastIncludedIndex m - 1)) (Z.of_nat (length (ms_log m)))); [|lia].
  wp_step. eapply wp_lift_Val; [apply slice_to_le; lia|]. wp_step. wp_step.
  split; [done|]. split; [by apply contiguous_take|].
  unfold ps_truncate, ms_view. cbn [first_index boundary Index Log CurrentTerm VotedFor SnapshotData].
  replace (N.to_nat (from - ms_lastIncludedIndex m))
    with (S (N.to_nat (from - ms_lastIncludedIndex m - 1))) by lia. done.
Qed.

Lemma ms_snapshot_spec m lii lit data :
  ms_ok m → (ms_lastIncludedIndex m < lii)%N → (lii < two63)%N →
  (next_index (Log (ms_view m)) ≤ two63)%N →
  wp False (SaveSnapshot lii lit data) (λ e m',
    e = None ∧ ms_ok m' ∧ ms_view m' = ps_snapshot lii lit data (ms_view m)) m.
Proof.
  intros Hok Hlo Hlii Hb. rewrite ms_next_index in *. pose proof two63_lt_two64.
  ms_unfold. unfold ms_SaveSnapshot. wp_step. wp_step. cbv zeta.
  rewrite u64_sub_small, int_of_u64_small by lia. wp_step.
  destruct (N.ltb_spec (ms_lastIncludedIndex m) lii); [|lia]. cbn [andb].
  assert (Hview : ∀ l, l = drop (N.to_nat (lii - ms_lastIncludedIndex m)) (ms_log m) →
    ms_view (MkMemory (ms_currentTerm m) (ms_votedFor m) l lii lit data) =
    ps_snapshot lii lit data (ms_view m)).
  { intros l ->. unfold ps_snapshot, ms_view. cbn [first_index boundary Index Log CurrentTerm VotedFor].
    by rewrite Nat.add_1_r. }
  destruct (Z.leb_spec (Z.of_N (lii - ms_lastIncludedIndex m)) (Z.of_nat (length (ms_log m)))).
  - eapply wp_lift_Val; [apply slice_from_le; lia|]. wp_step. wp_step. wp_step.
    split; [done|]. split; [|by apply Hview].
    apply (contiguous_drop _ (N.to_nat (lii - ms_lastIncludedIndex m))) in Hok.
    unfold ms_ok. cbn. by replace (lii + 1)%N with
      (ms_lastIncludedIndex m + 1 + N.of_nat (N.to_nat (lii - ms_lastIncludedIndex m)))%N by lia.
  - repeat wp_step. split; [done|]. split; [done|]. apply Hview.
    by rewrite drop_ge by lia.
Qed.

Definition ms_hard (m : MemoryStorage) : N * NodeID := (ms_currentTerm m, ms_votedFor m).

#[export] Program Instance MemoryStorage_Hard : HardStateSpec MemoryStorage := {
  hard_view := ms_hard;
  vote_fits _ := True;
}.
Next Obligation. done. Qed.
Next Obligation. done. Qed.
Next Obligation. done. Qed.
Next Obligation.
  intros m i. ms_unfold. unfold ms_TruncateLog. wp_steps; try done.
  apply wp_lift_go; [|done]. intros l Hl. by repeat wp_step.
Qed.
Next Obligation.
  intros m i t d. ms_unfold. unfold ms_SaveSnapshot. wp_steps; try done.
  apply wp_lift_go; [|done]. intros l Hl. by repeat wp_step.
Qed.
Next Obligation. done. Qed.

#[export] Instance MemoryStorage_eq_dec : EqDecision MemoryStorage.
Proof. solve_decision. Defined.

(** Nothing fails, and the object outlives the node (testutil/raft_cluster.go
    restarts a node over the same one). *)
#[export] Program Instance MemoryStorage_Spec : StorageSpec MemoryStorage := {
  view := ms_view;
  sto_ok := ms_ok;
  loads := ms_ok;
  reopened m m' := m' = m;
  entry_fits _ := True;
  snapshot_fits _ := True;
}.
Next Obligation. done. Qed.
Next Obligation. done. Qed.
Next Obligation. done. Qed.
Next Obligation.
  intros m t v Hok _ _. eapply wp_mono; [|by apply ms_save_hard_spec]. by intros e m' (-> & ?).
Qed.
Next Obligation.
  intros m es Hok Hes _ _. eapply wp_mono; [|by apply ms_append_spec]. by intros e m' (-> & ?).
Qed.
Next Obligation.
  intros m from ????. eapply wp_mono; [|by apply ms_truncate_spec]. by intros e m' (-> & ?).
Qed.
Next Obligation.
  intros m lii lit data Hok Hlo Hlii Hlit Hb _.
  eapply wp_mono; [|by apply ms_snapshot_spec]. by intros e m' (-> & ?).
Qed.
Next Obligation. intros m Hok ps. cbn. intros [= <-]. done. Qed.
Next Obligation. intros m m'. cbn. apply _. Defined.
Next Obligation. by intros m m' ->. Qed.
Next Obligation. by intros m Hok m' ->. Qed.
Next Obligation.
  intros m t v Hok _ _. eapply wp_weaken; [done|]. eapply wp_mono; [|by apply ms_save_hard_spec]. by intros e m' (-> & ?).
Qed.
Next Obligation.
  intros m es Hok Hes _ _. eapply wp_weaken; [done|]. eapply wp_mono; [|by apply ms_append_spec]. by intros e m' (-> & ?).
Qed.
Next Obligation.
  intros m from ????. eapply wp_weaken; [done|]. eapply wp_mono; [|by apply ms_truncate_spec]. by intros e m' (-> & ?).
Qed.
Next Obligation.
  intros m lii lit data Hok Hlo Hlii Hlit Hb _. eapply wp_weaken; [done|].
  eapply wp_mono; [|by apply ms_snapshot_spec]. by intros e m' (-> & ?).
Qed.

#[export] Instance ms_entry_fits_dec e : Decision (entry_fits (S := MemoryStorage) e).
Proof. by left. Defined.

#[export] Instance ms_snapshot_fits_dec data : Decision (snapshot_fits (S := MemoryStorage) data).
Proof. by left. Defined.
