(* ===== verification/RaftNode.v ===== *)
(** * internal/raft/node.go: the consensus node

    Each method of [Node] that runs under [mu] is one [GoM Node] computation;
    a method that releases [mu] in the middle (to send an RPC) is one
    computation per critical section, with the values it captured as
    arguments.  A Go runtime panic (an index outside the log) is [Panic].

    - Clock and randomness: [env] carries [time.Now()] and the value drawn
      from [n.rng] for the critical section.
    - Channels: [applyWake] and [snapshotTriggerCh] are buffered with capacity
      one and written with a non-blocking send, so each is an option/flag of
      the state.  [applyCh] is what [applyLoop] emits. *)
From S2P Require Import Prelude RaftTypes.

(** ** Configuration *)
Record Config : Type := MkConfig {
  c_ID : NodeID;
  c_Peers : list NodeID;
  c_ElectionTimeoutMin : Z;
  c_ElectionTimeoutMax : Z;
  c_HeartbeatInterval : Z;
  c_TickInterval : Z;
  c_RPCTimeout : Z;
  c_SnapshotThreshold : Z;
}.

Definition orDefault (v def : Z) : Z := if (v <=? 0)%Z then def else v.

(** The constants, in nanoseconds. *)
Definition defaultElectionTimeoutMin : Z := 150000000.
Definition defaultElectionTimeoutMax : Z := 300000000.
Definition defaultHeartbeatInterval : Z := 50000000.
Definition defaultTickInterval : Z := 10000000.
Definition defaultRPCTimeout : Z := 75000000.

(** What a critical section reads from outside the node: [time.Now()] and
    [n.rng]. *)
Record Env : Type := MkEnv { now : Z; draw : Z }.

(** [rand.Int63n span]: some value in [0, span). *)
Definition Int63n (e : Env) (span : Z) : Z := (draw e mod span)%Z.

(** The zero [time.Time]. *)
Definition zero_time : Z := 0.

(** ** The fields of Node *)
Section Node.
Context {S : Type} `{!Storage S}.

Record Node : Type := MkNode {
  n_cfg : Config;
  n_storage : S;
  n_role : Role;
  n_currentTerm : N;
  n_votedFor : NodeID;
  n_leaderID : NodeID;
  n_log : list LogEntry;
  n_commitIndex : N;
  n_nextIndex : gmap NodeID N;
  n_matchIndex : gmap NodeID N;
  n_electionDeadline : Z;
  n_nextHeartbeat : Z;
  n_failed : bool;
  n_failErr : option error;
  n_lastIncludedIndex : N;
  n_lastIncludedTerm : N;
  n_snapshotData : bytes;
  n_lastApplied : N;
  n_pendingSnapshot : option ApplyMsg;
  n_applyWake : bool;
  n_snapshotTrigger : option N;
  n_lastSnapshotRequestedAt : N;
}.

Definition set_storage (x : S) (n : Node) : Node :=
  MkNode (n_cfg n) x (n_role n) (n_currentTerm n) (n_votedFor n) (n_leaderID n) (n_log n)
    (n_commitIndex n) (n_nextIndex n) (n_matchIndex n) (n_electionDeadline n)
    (n_nextHeartbeat n) (n_failed n) (n_failErr n) (n_lastIncludedIndex n)
    (n_lastIncludedTerm n) (n_snapshotData n) (n_lastApplied n) (n_pendingSnapshot n)
    (n_applyWake n) (n_snapshotTrigger n) (n_lastSnapshotRequestedAt n).
Definition set_role (x : Role) (n : Node) : Node :=
  MkNode (n_cfg n) (n_storage n) x (n_currentTerm n) (n_votedFor n) (n_leaderID n)
    (n_log n) (n_commitIndex n) (n_nextIndex n) (n_matchIndex n) (n_electionDeadline n)
    (n_nextHeartbeat n) (n_failed n) (n_failErr n) (n_lastIncludedIndex n)
    (n_lastIncludedTerm n) (n_snapshotData n) (n_lastApplied n) (n_pendingSnapshot n)
    (n_applyWake n) (n_snapshotTrigger n) (n_lastSnapshotRequestedAt n).
Definition set_currentTerm (x : N) (n : Node) : Node :=
  MkNode (n_cfg n) (n_storage n) (n_role n) x (n_votedFor n) (n_leaderID n) (n_log n)
    (n_commitIndex n) (n_nextIndex n) (n_matchIndex n) (n_electionDeadline n)
    (n_nextHeartbeat n) (n_failed n) (n_failErr n) (n_lastIncludedIndex n)
    (n_lastIncludedTerm n) (n_snapshotData n) (n_lastApplied n) (n_pendingSnapshot n)
    (n_applyWake n) (n_snapshotTrigger n) (n_lastSnapshotRequestedAt n).
Definition set_votedFor (x : NodeID) (n : Node) : Node :=
  MkNode (n_cfg n) (n_storage n) (n_role n) (n_currentTerm n) x (n_leaderID n) (n_log n)
    (n_commitIndex n) (n_nextIndex n) (n_matchIndex n) (n_electionDeadline n)
    (n_nextHeartbeat n) (n_failed n) (n_failErr n) (n_lastIncludedIndex n)
    (n_lastIncludedTerm n) (n_snapshotData n) (n_lastApplied n) (n_pendingSnapshot n)
    (n_applyWake n) (n_snapshotTrigger n) (n_lastSnapshotRequestedAt n).
Definition set_leaderID (x : NodeID) (n : Node) : Node :=
  MkNode (n_cfg n) (n_storage n) (n_role n) (n_currentTerm n) (n_votedFor n) x (n_log n)
    (n_commitIndex n) (n_nextIndex n) (n_matchIndex n) (n_electionDeadline n)
    (n_nextHeartbeat n) (n_failed n) (n_failErr n) (n_lastIncludedIndex n)
    (n_lastIncludedTerm n) (n_snapshotData n) (n_lastApplied n) (n_pendingSnapshot n)
    (n_applyWake n) (n_snapshotTrigger n) (n_lastSnapshotRequestedAt n).
Definition set_log (x : list LogEntry) (n : Node) : Node :=
  MkNode (n_cfg n) (n_storage n) (n_role n) (n_currentTerm n) (n_votedFor n)
    (n_leaderID n) x (n_commitIndex n) (n_nextIndex n) (n_matchIndex n)
    (n_electionDeadline n) (n_nextHeartbeat n) (n_failed n) (n_failErr n)
    (n_lastIncludedIndex n) (n_lastIncludedTerm n) (n_snapshotData n) (n_lastApplied n)
    (n_pendingSnapshot n) (n_applyWake n) (n_snapshotTrigger n)
    (n_lastSnapshotRequestedAt n).
Definition set_commitIndex (x : N) (n : Node) : Node :=
  MkNode (n_cfg n) (n_storage n) (n_role n) (n_currentTerm n) (n_votedFor n)
    (n_leaderID n) (n_log n) x (n_nextIndex n) (n_matchIndex n) (n_electionDeadline n)
    (n_nextHeartbeat n) (n_failed n) (n_failErr n) (n_lastIncludedIndex n)
    (n_lastIncludedTerm n) (n_snapshotData n) (n_lastApplied n) (n_pendingSnapshot n)
    (n_applyWake n) (n_snapshotTrigger n) (n_lastSnapshotRequestedAt n).
Definition set_nextIndex (x : gmap NodeID N) (n : Node) : Node :=
  MkNode (n_cfg n) (n_storage n) (n_role n) (n_currentTerm n) (n_votedFor n)
    (n_leaderID n) (n_log n) (n_commitIndex n) x (n_matchIndex n) (n_electionDeadline n)
    (n_nextHeartbeat n) (n_failed n) (n_failErr n) (n_lastIncludedIndex n)
    (n_lastIncludedTerm n) (n_snapshotData n) (n_lastApplied n) (n_pendingSnapshot n)
    (n_applyWake n) (n_snapshotTrigger n) (n_lastSnapshotRequestedAt n).
Definition set_matchIndex (x : gmap NodeID N) (n : Node) : Node :=
  MkNode (n_cfg n) (n_storage n) (n_role n) (n_currentTerm n) (n_votedFor n)
    (n_leaderID n) (n_log n) (n_commitIndex n) (n_nextIndex n) x (n_electionDeadline n)
    (n_nextHeartbeat n) (n_failed n) (n_failErr n) (n_lastIncludedIndex n)
    (n_lastIncludedTerm n) (n_snapshotData n) (n_lastApplied n) (n_pendingSnapshot n)
    (n_applyWake n) (n_snapshotTrigger n) (n_lastSnapshotRequestedAt n).
Definition set_electionDeadline (x : Z) (n : Node) : Node :=
  MkNode (n_cfg n) (n_storage n) (n_role n) (n_currentTerm n) (n_votedFor n)
    (n_leaderID n) (n_log n) (n_commitIndex n) (n_nextIndex n) (n_matchIndex n) x
    (n_nextHeartbeat n) (n_failed n) (n_failErr n) (n_lastIncludedIndex n)
    (n_lastIncludedTerm n) (n_snapshotData n) (n_lastApplied n) (n_pendingSnapshot n)
    (n_applyWake n) (n_snapshotTrigger n) (n_lastSnapshotRequestedAt n).
Definition set_nextHeartbeat (x : Z) (n : Node) : Node :=
  MkNode (n_cfg n) (n_storage n) (n_role n) (n_currentTerm n) (n_votedFor n)
    (n_leaderID n) (n_log n) (n_commitIndex n) (n_nextIndex n) (n_matchIndex n)
    (n_electionDeadline n) x (n_failed n) (n_failErr n) (n_lastIncludedIndex n)
    (n_lastIncludedTerm n) (n_snapshotData n) (n_lastApplied n) (n_pendingSnapshot n)
    (n_applyWake n) (n_snapshotTrigger n) (n_lastSnapshotRequestedAt n).
Definition set_failed (x : bool) (n : Node) : Node :=
  MkNode (n_cfg n) (n_storage n) (n_role n) (n_currentTerm n) (n_votedFor n)
    (n_leaderID n) (n_log n) (n_commitIndex n) (n_nextIndex n) (n_matchIndex n)
    (n_electionDeadline n) (n_nextHeartbeat n) x (n_failErr n) (n_lastIncludedIndex n)
    (n_lastIncludedTerm n) (n_snapshotData n) (n_lastApplied n) (n_pendingSnapshot n)
    (n_applyWake n) (n_snapshotTrigger n) (n_lastSnapshotRequestedAt n).
Definition set_failErr (x : option error) (n : Node) : Node :=
  MkNode (n_cfg n) (n_storage n) (n_role n) (n_currentTerm n) (n_votedFor n)
    (n_leaderID n) (n_log n) (n_commitIndex n) (n_nextIndex n) (n_matchIndex n)
    (n_electionDeadline n) (n_nextHeartbeat n) (n_failed n) x (n_lastIncludedIndex n)
    (n_lastIncludedTerm n) (n_snapshotData n) (n_lastApplied n) (n_pendingSnapshot n)
    (n_applyWake n) (n_snapshotTrigger n) (n_lastSnapshotRequestedAt n).
Definition set_lastIncludedIndex (x : N) (n : Node) : Node :=
  MkNode (n_cfg n) (n_storage n) (n_role n) (n_currentTerm n) (n_votedFor n)
    (n_leaderID n) (n_log n) (n_commitIndex n) (n_nextIndex n) (n_matchIndex n)
    (n_electionDeadline n) (n_nextHeartbeat n) (n_failed n) (n_failErr n) x
    (n_lastIncludedTerm n) (n_snapshotData n) (n_lastApplied n) (n_pendingSnapshot n)
    (n_applyWake n) (n_snapshotTrigger n) (n_lastSnapshotRequestedAt n).
Definition set_lastIncludedTerm (x : N) (n : Node) : Node :=
  MkNode (n_cfg n) (n_storage n) (n_role n) (n_currentTerm n) (n_votedFor n)
    (n_leaderID n) (n_log n) (n_commitIndex n) (n_nextIndex n) (n_matchIndex n)
    (n_electionDeadline n) (n_nextHeartbeat n) (n_failed n) (n_failErr n)
    (n_lastIncludedIndex n) x (n_snapshotData n) (n_lastApplied n) (n_pendingSnapshot n)
    (n_applyWake n) (n_snapshotTrigger n) (n_lastSnapshotRequestedAt n).
Definition set_snapshotData (x : bytes) (n : Node) : Node :=
  MkNode (n_cfg n) (n_storage n) (n_role n) (n_currentTerm n) (n_votedFor n)
    (n_leaderID n) (n_log n) (n_commitIndex n) (n_nextIndex n) (n_matchIndex n)
    (n_electionDeadline n) (n_nextHeartbeat n) (n_failed n) (n_failErr n)
    (n_lastIncludedIndex n) (n_lastIncludedTerm n) x (n_lastApplied n)
    (n_pendingSnapshot n) (n_applyWake n) (n_snapshotTrigger n)
    (n_lastSnapshotRequestedAt n).
Definition set_lastApplied (x : N) (n : Node) : Node :=
  MkNode (n_cfg n) (n_storage n) (n_role n) (n_currentTerm n) (n_votedFor n)
    (n_leaderID n) (n_log n) (n_commitIndex n) (n_nextIndex n) (n_matchIndex n)
    (n_electionDeadline n) (n_nextHeartbeat n) (n_failed n) (n_failErr n)
    (n_lastIncludedIndex n) (n_lastIncludedTerm n) (n_snapshotData n) x
    (n_pendingSnapshot n) (n_applyWake n) (n_snapshotTrigger n)
    (n_lastSnapshotRequestedAt n).
Definition set_pendingSnapshot (x : option ApplyMsg) (n : Node) : Node :=
  MkNode (n_cfg n) (n_storage n) (n_role n) (n_currentTerm n) (n_votedFor n)
    (n_leaderID n) (n_log n) (n_commitIndex n) (n_nextIndex n) (n_matchIndex n)
    (n_electionDeadline n) (n_nextHeartbeat n) (n_failed n) (n_failErr n)
    (n_lastIncludedIndex n) (n_lastIncludedTerm n) (n_snapshotData n) (n_lastApplied n) x
    (n_applyWake n) (n_snapshotTrigger n) (n_lastSnapshotRequestedAt n).
Definition set_applyWake (x : bool) (n : Node) : Node :=
  MkNode (n_cfg n) (n_storage n) (n_role n) (n_currentTerm n) (n_votedFor n)
    (n_leaderID n) (n_log n) (n_commitIndex n) (n_nextIndex n) (n_matchIndex n)
    (n_electionDeadline n) (n_nextHeartbeat n) (n_failed n) (n_failErr n)
    (n_lastIncludedIndex n) (n_lastIncludedTerm n) (n_snapshotData n) (n_lastApplied n)
    (n_pendingSnapshot n) x (n_snapshotTrigger n) (n_lastSnapshotRequestedAt n).
Definition set_snapshotTrigger (x : option N) (n : Node) : Node :=
  MkNode (n_cfg n) (n_storage n) (n_role n) (n_currentTerm n) (n_votedFor n)
    (n_leaderID n) (n_log n) (n_commitIndex n) (n_nextIndex n) (n_matchIndex n)
    (n_electionDeadline n) (n_nextHeartbeat n) (n_failed n) (n_failErr n)
    (n_lastIncludedIndex n) (n_lastIncludedTerm n) (n_snapshotData n) (n_lastApplied n)
    (n_pendingSnapshot n) (n_applyWake n) x (n_lastSnapshotRequestedAt n).
Definition set_lastSnapshotRequestedAt (x : N) (n : Node) : Node :=
  MkNode (n_cfg n) (n_storage n) (n_role n) (n_currentTerm n) (n_votedFor n)
    (n_leaderID n) (n_log n) (n_commitIndex n) (n_nextIndex n) (n_matchIndex n)
    (n_electionDeadline n) (n_nextHeartbeat n) (n_failed n) (n_failErr n)
    (n_lastIncludedIndex n) (n_lastIncludedTerm n) (n_snapshotData n) (n_lastApplied n)
    (n_pendingSnapshot n) (n_applyWake n) (n_snapshotTrigger n) x.

Abbreviation M := (GoM Node).

Definition n_id (n : Node) : NodeID := c_ID (n_cfg n).
Definition n_peers (n : Node) : list NodeID := c_Peers (n_cfg n).

(** Run a [Storage] method on [n.storage]. *)
Definition storage_call {A} (m : GoM S A) : M A := on_field n_storage set_storage m.

(** A missing key of a Go map reads as the zero value. *)
Definition map_get (m : gmap NodeID N) (p : NodeID) : N := default 0%N (m !! p).

(** ** Log access *)
Definition lastLogInfoLocked (n : Node) : go (N * N) :=
  match slice_last (n_log n) with
  | Val e => Val (Index e, Term e)
  | Panic => Panic
  end.

Definition lastIndexLocked (n : Node) : go N :=
  match slice_last (n_log n) with
  | Val e => Val (Index e)
  | Panic => Panic
  end.

Definition entryAtLocked (n : Node) (index : N) : go LogEntry :=
  slice_get (n_log n) (u64_sub index (n_lastIncludedIndex n)).

Definition termAtLocked (n : Node) (index : N) : go N :=
  match entryAtLocked n index with
  | Val e => Val (Term e)
  | Panic => Panic
  end.

Definition firstIndexOfTermLocked (n : Node) (term : N) : N :=
  if (term =? 0)%N then 1%N
  else match list_find (λ e, Term e = term) (n_log n) with
       | Some (_, e) => Index e
       | None => u64_add (n_lastIncludedIndex n) 1
       end.

(** The loop of [lastIndexOfTermLocked] over the log read backwards. *)
Fixpoint last_index_of_term (term : N) (rev_log : list LogEntry) : option N :=
  match rev_log with
  | [] => None
  | e :: rest =>
      if (Term e =? term)%N then Some (Index e)
      else if (Term e <? term)%N then None
      else last_index_of_term term rest
  end.

Definition lastIndexOfTermLocked (n : Node) (term : N) : option N :=
  last_index_of_term term (rev (n_log n)).

(** ** Persistence helpers *)
Definition disableLocked (err : error) : M () :=
  modify (set_failed true) ;;
  modify (λ n, set_failErr (Some (Wrapf (n_id n) err)) n).

Definition saveHardStateLocked (term : N) (votedFor : NodeID) : M () :=
  modify (set_currentTerm term) ;;
  modify (set_votedFor votedFor) ;;
  err ← storage_call (SaveHardState term votedFor);
  match err with
  | Some e => disableLocked (Wrapf "persisting hard state" e)
  | None => mret ()
  end.

Definition appendLogLocked (entries : list LogEntry) : M () :=
  modify (λ n, set_log (n_log n ++ entries) n) ;;
  err ← storage_call (AppendLog entries);
  match err with
  | Some e => disableLocked (Wrapf "appending log" e)
  | None => mret ()
  end.

Definition truncateLogLocked (fromIndex : N) : M () :=
  n ← get;
  l ← lift_go (slice_to (n_log n) (u64_sub fromIndex (n_lastIncludedIndex n)));
  modify (set_log l) ;;
  err ← storage_call (TruncateLog fromIndex);
  match err with
  | Some e => disableLocked (Wrapf "truncating log" e)
  | None => mret ()
  end.

(** ** Timers and wake-ups *)
Definition resetElectionDeadlineLocked (e : Env) : M () :=
  modify (λ n,
    let span := (c_ElectionTimeoutMax (n_cfg n) - c_ElectionTimeoutMin (n_cfg n))%Z in
    let extra := if (0 <? span)%Z then Int63n e span else 0%Z in
    set_electionDeadline (now e + (c_ElectionTimeoutMin (n_cfg n) + extra))%Z n).

Definition notifyApply : M () := modify (set_applyWake true).

(** ** Role transitions *)
Definition becomeFollowerLocked (term : N) : M () :=
  modify (set_role Follower) ;;
  n ← get;
  when (n_currentTerm n <? term)%N (saveHardStateLocked term "").

Definition becomeCandidateLocked (e : Env) : M () :=
  modify (set_role Candidate) ;;
  modify (set_leaderID "") ;;
  n ← get;
  saveHardStateLocked (u64_add (n_currentTerm n) 1) (n_id n) ;;
  n ← get;
  if n_failed n then mret () else resetElectionDeadlineLocked e.

Definition becomeLeaderLocked : M () :=
  modify (set_role Leader) ;;
  modify (λ n, set_leaderID (n_id n) n) ;;
  n ← get;
  last ← lift_go (lastIndexLocked n);
  modify (λ n, set_nextIndex
    (foldl (λ m p, <[p := u64_add last 1]> m) ∅ (n_peers n)) n) ;;
  modify (λ n, set_matchIndex (foldl (λ m p, <[p := 0%N]> m) ∅ (n_peers n)) n) ;;
  modify (set_nextHeartbeat zero_time).

(** ** Committing *)

(** [int] arithmetic: [len(n.peers)/2 + 1]. *)
Definition majority_of (peers : list NodeID) : nat := length peers / 2 + 1.

(** The leader itself and every peer whose [matchIndex] reaches [idx]. *)
Definition replica_count (n : Node) (idx : N) : nat :=
  foldl (λ count p, if (idx <=? map_get (n_matchIndex n) p)%N then count + 1 else count)
    1 (n_peers n).

(** The loop [for idx := lastIndex; idx > commitIndex; idx--]; [k] counts
    the remaining iterations, so [idx = commitIndex + k]. *)
Fixpoint scan_commit (n : Node) (k : nat) : go (option N) :=
  match k with
  | O => Val None
  | Datatypes.S k' =>
      let idx := (n_commitIndex n + N.of_nat k)%N in
      match termAtLocked n idx with
      | Panic => Panic
      | Val t =>
          if negb (t =? n_currentTerm n)%N then scan_commit n k'
          else if majority_of (n_peers n) <=? replica_count n idx
          then Val (Some idx)
          else scan_commit n k'
      end
  end%nat.

Definition maybeAdvanceCommitLocked : M () :=
  n ← get;
  if negb (bool_decide (n_role n = Leader)) then mret () else
  last ← lift_go (lastIndexLocked n);
  found ← lift_go (scan_commit n (N.to_nat (last - n_commitIndex n)));
  match found with
  | Some idx => modify (set_commitIndex idx) ;; notifyApply
  | None => mret ()
  end.

(** ** Read-only methods *)
Definition State (n : Node) : N * Role := (n_currentTerm n, n_role n).
Definition Leader_ (n : Node) : NodeID := n_leaderID n.

Record FollowerProgress : Type := MkProgress { fp_NextIndex : N; fp_MatchIndex : N }.

Record Status : Type := MkStatus {
  st_ID : NodeID;
  st_Term : N;
  st_Role : Role;
  st_LeaderID : NodeID;
  st_CommitIndex : N;
  st_LastApplied : N;
  st_LastIncludedIndex : N;
  st_LastIncludedTerm : N;
  st_LogLen : Z;
  st_LastLogIndex : N;
  st_Followers : option (gmap NodeID FollowerProgress);
}.

Definition Node_Status (n : Node) : go Status :=
  let followers :=
    if bool_decide (n_role n = Leader)
    then Some (foldl (λ m p,
           <[p := MkProgress (map_get (n_nextIndex n) p) (map_get (n_matchIndex n) p)]> m)
           ∅ (n_peers n))
    else None in
  match lastIndexLocked n with
  | Panic => Panic
  | Val last => Val (MkStatus (n_id n) (n_currentTerm n) (n_role n) (n_leaderID n)
      (n_commitIndex n) (n_lastApplied n) (n_lastIncludedIndex n) (n_lastIncludedTerm n)
      (Z.of_nat (length (n_log n)) - 1) last followers)
  end.

(** ** Snapshot, Propose *)

(** [l[0].Command = nil] *)
Definition clear_first_command (l : list LogEntry) : go (list LogEntry) :=
  match l with
  | [] => Panic
  | b :: es => Val (MkEntry (Term b) (Index b) [] :: es)
  end.

Definition Snapshot (index : N) (data : bytes) : M (option error) :=
  n ← get;
  if n_failed n then mret (n_failErr n)
  else if (index <=? n_lastIncludedIndex n)%N then mret None
  else if (n_lastApplied n <? index)%N
  then mret (Some (Errorf "raft: Snapshot: index has not been applied yet"))
  else
    term ← lift_go (termAtLocked n index);
    tail ← lift_go (slice_from (n_log n) (u64_sub index (n_lastIncludedIndex n)));
    newLog ← lift_go (clear_first_command tail);
    err ← storage_call (SaveSnapshot index term data);
    match err with
    | Some e =>
        disableLocked (Wrapf "saving snapshot" e) ;;
        n ← get; mret (n_failErr n)
    | None =>
        modify (set_log newLog) ;;
        modify (set_lastIncludedIndex index) ;;
        modify (set_lastIncludedTerm term) ;;
        modify (set_snapshotData data) ;;
        mret None
    end.

(** The critical section of [Propose]; on success the caller then runs
    [replicateToPeers]. *)
Definition Propose (command : bytes) : M (N * N * bool) :=
  n ← get;
  if n_failed n || negb (bool_decide (n_role n = Leader))
  then mret (0%N, 0%N, false)
  else
    last ← lift_go (lastIndexLocked n);
    let index := u64_add last 1 in
    let term := n_currentTerm n in
    appendLogLocked [MkEntry term index command] ;;
    n ← get;
    if n_failed n then mret (0%N, 0%N, false)
    else maybeAdvanceCommitLocked ;; mret (index, term, true).

(** ** RPC handlers

    [inr err] is the Go pair [(nil, err)]. *)
Definition fail_reply {A} : M (A + option error) := n ← get; mret (inr (n_failErr n)).

Definition candidateLogUpToDateLocked (n : Node) (lastLogIndex lastLogTerm : N) : go bool :=
  match lastLogInfoLocked n with
  | Panic => Panic
  | Val (myIndex, myTerm) =>
      Val (if negb (lastLogTerm =? myTerm)%N then (myTerm <? lastLogTerm)%N
           else (myIndex <=? lastLogIndex)%N)
  end.

Definition canVote (n : Node) (candidate : NodeID) : bool :=
  bool_decide (n_votedFor n = "") || bool_decide (n_votedFor n = candidate).

Definition handleRequestVote (e : Env) (args : RequestVoteArgs)
    : M (RequestVoteReply + option error) :=
  n ← get;
  if n_failed n then fail_reply else
  when (n_currentTerm n <? rv_Term args)%N (becomeFollowerLocked (rv_Term args)) ;;
  n ← get;
  if n_failed n then fail_reply else
  if (rv_Term args <? n_currentTerm n)%N
  then mret (inl (MkRVReply (n_currentTerm n) false)) else
  upToDate ← lift_go (candidateLogUpToDateLocked n (rv_LastLogIndex args) (rv_LastLogTerm args));
  if canVote n (rv_CandidateID args) && upToDate
  then
    saveHardStateLocked (n_currentTerm n) (rv_CandidateID args) ;;
    n' ← get;
    if n_failed n' then fail_reply else
    resetElectionDeadlineLocked e ;;
    mret (inl (MkRVReply (n_currentTerm n) true))
  else mret (inl (MkRVReply (n_currentTerm n) false)).

(** The loop over [args.Entries]: [idx] is the absolute index of the head of
    [entries].  The result says whether a storage error disabled the node. *)
Fixpoint append_loop (idx : N) (entries : list LogEntry) : M () :=
  match entries with
  | [] => mret ()
  | e :: rest =>
      n ← get;
      last ← lift_go (lastIndexLocked n);
      if (idx <=? last)%N then
        t ← lift_go (termAtLocked n idx);
        if (t =? Term e)%N then append_loop (u64_add idx 1) rest
        else
          truncateLogLocked idx ;;
          n ← get;
          if n_failed n then mret () else appendLogLocked (e :: rest)
      else appendLogLocked (e :: rest)
  end.

(** Receiver rules 2 to 5, once [PrevLogIndex] is at or after the boundary. *)
Definition appendEntries_checked (args : AppendEntriesArgs)
    : M (AppendEntriesReply + option error) :=
  n ← get;
  last ← lift_go (lastIndexLocked n);
  if (last <? ae_PrevLogIndex args)%N
  then mret (inl (MkAEReply (n_currentTerm n) false 0 (u64_add last 1))) else
  prevTerm ← lift_go (termAtLocked n (ae_PrevLogIndex args));
  if negb (prevTerm =? ae_PrevLogTerm args)%N
  then mret (inl (MkAEReply (n_currentTerm n) false prevTerm (firstIndexOfTermLocked n prevTerm)))
  else
    append_loop (u64_add (ae_PrevLogIndex args) 1) (ae_Entries args) ;;
    n ← get;
    if n_failed n then fail_reply else
    last ← lift_go (lastIndexLocked n);
    when (n_commitIndex n <? ae_LeaderCommit args)%N
      (modify (set_commitIndex (N.min (ae_LeaderCommit args) last)) ;; notifyApply) ;;
    mret (inl (MkAEReply (n_currentTerm n) true 0 0)).

(** Common to both log-carrying RPCs: adopt the term, step down, note the
    leader. *)
Definition observeLeader (e : Env) (term : N) (leader : NodeID) : M () :=
  n ← get;
  (if (n_currentTerm n <? term)%N then becomeFollowerLocked term
   else when (bool_decide (n_role n = Candidate)) (modify (set_role Follower))) ;;
  n ← get;
  if n_failed n then mret () else
  modify (set_leaderID leader) ;;
  resetElectionDeadlineLocked e.

Definition handleAppendEntries (e : Env) (args : AppendEntriesArgs)
    : M (AppendEntriesReply + option error) :=
  n ← get;
  if n_failed n then fail_reply else
  if (ae_Term args <? n_currentTerm n)%N
  then mret (inl (MkAEReply (n_currentTerm n) false 0 0)) else
  observeLeader e (ae_Term args) (ae_LeaderID args) ;;
  n ← get;
  if n_failed n then fail_reply else
  if (ae_PrevLogIndex args <? n_lastIncludedIndex n)%N then
    let skip := u64_sub (n_lastIncludedIndex n) (ae_PrevLogIndex args) in
    if (N.of_nat (length (ae_Entries args)) <=? skip)%N
    then mret (inl (MkAEReply (n_currentTerm n) true 0 0))
    else
      rest ← lift_go (slice_from (ae_Entries args) skip);
      appendEntries_checked (MkAEArgs (ae_Term args) (ae_LeaderID args)
        (n_lastIncludedIndex n) (n_lastIncludedTerm n) rest (ae_LeaderCommit args))
  else appendEntries_checked args.

(** [LastIncludedIndex] is in the log with the snapshot's term. *)
Definition log_has (n : Node) (idx term : N) : go bool :=
  match lastIndexLocked n with
  | Panic => Panic
  | Val last =>
      if (idx <=? last)%N then
        match termAtLocked n idx with
        | Panic => Panic
        | Val t => Val (t =? term)%N
        end
      else Val false
  end.

(** The snapshot is beyond this node's: persist it, cut or replace the log,
    move the indices up and queue it for delivery. *)
Definition installSnapshot_log (args : InstallSnapshotArgs) : M () :=
  n ← get;
  keep ← lift_go (log_has n (is_LastIncludedIndex args) (is_LastIncludedTerm args));
  if (keep : bool) then
    l ← lift_go (slice_from (n_log n)
           (u64_sub (is_LastIncludedIndex args) (n_lastIncludedIndex n)));
    modify (set_log l)
  else modify (set_log [boundary (is_LastIncludedIndex args) (is_LastIncludedTerm args)]).

Definition installSnapshot_checked (args : InstallSnapshotArgs)
    : M (InstallSnapshotReply + option error) :=
  err ← storage_call (SaveSnapshot (is_LastIncludedIndex args) (is_LastIncludedTerm args) (is_Data args));
  match err with
  | Some e =>
      disableLocked (Wrapf "saving installed snapshot" e) ;;
      fail_reply
  | None =>
      installSnapshot_log args ;;
      modify (set_lastIncludedIndex (is_LastIncludedIndex args)) ;;
      modify (set_lastIncludedTerm (is_LastIncludedTerm args)) ;;
      modify (set_snapshotData (is_Data args)) ;;
      modify (λ n, set_commitIndex (N.max (n_commitIndex n) (is_LastIncludedIndex args)) n) ;;
      modify (λ n, set_lastApplied (N.max (n_lastApplied n) (is_LastIncludedIndex args)) n) ;;
      modify (set_pendingSnapshot (Some (SnapshotMsg (is_Data args)
        (is_LastIncludedIndex args) (is_LastIncludedTerm args)))) ;;
      notifyApply ;;
      n ← get;
      mret (inl (MkISReply (n_currentTerm n)))
  end.

Definition handleInstallSnapshot (e : Env) (args : InstallSnapshotArgs)
    : M (InstallSnapshotReply + option error) :=
  n ← get;
  if n_failed n then fail_reply else
  if (is_Term args <? n_currentTerm n)%N
  then mret (inl (MkISReply (n_currentTerm n))) else
  observeLeader e (is_Term args) (is_LeaderID args) ;;
  n ← get;
  if n_failed n then fail_reply else
  if (is_LastIncludedIndex args <=? n_lastIncludedIndex n)%N
  then mret (inl (MkISReply (n_currentTerm n)))
  else installSnapshot_checked args.

(** [Node.handle]: the single entry point for inbound RPCs. *)
Definition wrap_reply {A} (k : A → Reply) (m : M (A + option error)) : M (Reply + option error) :=
  r ← m;
  mret match r with
       | inl a => inl (k a)
       | inr err => inr err
       end.

Definition handle (e : Env) (req : Request) : M (Reply + option error) :=
  match req with
  | ReqVote args => wrap_reply RepVote (handleRequestVote e args)
  | ReqAppend args => wrap_reply RepAppend (handleAppendEntries e args)
  | ReqSnapshot args => wrap_reply RepSnapshot (handleInstallSnapshot e args)
  end.

(** ** The background tick *)
Record TickActions : Type := MkTick {
  ta_startElection : bool;
  ta_sendHeartbeats : bool;
  ta_snapshotRequestIndex : N;
}.

(** [snapshotThreshold > 0], enough applied entries since the last snapshot,
    and not requested for this index already. *)
Definition snapshot_due (n : Node) : bool :=
  (0 <? c_SnapshotThreshold (n_cfg n))%Z &&
  (Z.to_N (c_SnapshotThreshold (n_cfg n)) <=?
     u64_sub (n_lastApplied n) (n_lastIncludedIndex n))%N &&
  (n_lastSnapshotRequestedAt n <? n_lastApplied n)%N.

(** [tick]: [None] when the node is disabled.  The election, the heartbeat
    and the send on [snapshotTriggerCh] happen after [mu] is released. *)
Definition tick (e : Env) : M (option TickActions) :=
  n ← get;
  if n_failed n then mret None else
  let startElection := negb (bool_decide (n_role n = Leader)) && (n_electionDeadline n <? now e)%Z in
  let sendHeartbeats := bool_decide (n_role n = Leader) && (n_nextHeartbeat n <? now e)%Z in
  when sendHeartbeats
    (modify (set_nextHeartbeat (now e + c_HeartbeatInterval (n_cfg n))%Z)) ;;
  (if snapshot_due n
   then modify (set_lastSnapshotRequestedAt (n_lastApplied n)) ;;
        mret (Some (MkTick startElection sendHeartbeats (n_lastApplied n)))
   else mret (Some (MkTick startElection sendHeartbeats 0))).

(** The non-blocking send on the one-element [snapshotTriggerCh]. *)
Definition trigger_snapshot (index : N) : M () :=
  n ← get;
  when (0 <? index)%N
    (match n_snapshotTrigger n with
     | None => modify (set_snapshotTrigger (Some index))
     | Some _ => mret ()
     end).

(** The receive on [snapshotTriggerCh] by its consumer. *)
Definition take_snapshot_trigger : M (option N) :=
  n ← get;
  modify (set_snapshotTrigger None) ;;
  mret (n_snapshotTrigger n).

(** ** Elections *)

(** First critical section of [startElection]: the term it campaigns in and
    the request it sends to every peer. *)
Definition startElection (e : Env) : M (option (N * RequestVoteArgs)) :=
  n ← get;
  if n_failed n then mret None else
  becomeCandidateLocked e ;;
  n ← get;
  if n_failed n then mret None else
  last ← lift_go (lastLogInfoLocked n);
  mret (Some (n_currentTerm n,
              MkRVArgs (n_currentTerm n) (n_id n) last.1 last.2)).

(** Second critical section when the node's own vote is a majority. *)
Definition startElection_solo (term : N) : M () :=
  n ← get;
  if (majority_of (n_peers n) <=? 1)%nat then
    when (bool_decide (n_role n = Candidate) && (n_currentTerm n =? term)%N) becomeLeaderLocked
  else mret ().

(** A goroutine's handling of a vote reply: [votes] is the counter the
    goroutines of one election share, and the result is its new value. *)
Definition onRequestVoteReply (term : N) (votes : nat) (reply : RequestVoteReply) : M nat :=
  n ← get;
  if n_failed n then mret votes else
  if (n_currentTerm n <? rvr_Term reply)%N
  then becomeFollowerLocked (rvr_Term reply) ;; mret votes
  else if negb (bool_decide (n_role n = Candidate)) || negb (n_currentTerm n =? term)%N ||
          negb (rvr_VoteGranted reply)
  then mret votes
  else
    (if (majority_of (n_peers n) <=? votes + 1)%nat then becomeLeaderLocked else mret ()) ;;
    mret (votes + 1)%nat.

(** ** Replication *)
Definition replicateToPeers : M (option (N * list NodeID)) :=
  n ← get;
  if n_failed n || negb (bool_decide (n_role n = Leader)) then mret None
  else mret (Some (n_currentTerm n, n_peers n)).

(** [n.failed || n.role != Leader || n.currentTerm != term]. *)
Definition not_leading (n : Node) (term : N) : bool :=
  n_failed n || negb (bool_decide (n_role n = Leader)) || negb (n_currentTerm n =? term)%N.

Inductive Outgoing : Type :=
| SendNothing
| SendAppend (args : AppendEntriesArgs)
| NeedSnapshot.

Definition replicateToPeer (peer : NodeID) (term : N) : M Outgoing :=
  n ← get;
  if not_leading n term then mret SendNothing else
  let nextIdx := map_get (n_nextIndex n) peer in
  if (nextIdx <=? n_lastIncludedIndex n)%N then mret NeedSnapshot else
  let prevIndex := u64_sub nextIdx 1 in
  prevTerm ← lift_go (termAtLocked n prevIndex);
  entries ← lift_go (slice_from (n_log n) (u64_sub nextIdx (n_lastIncludedIndex n)));
  mret (SendAppend (MkAEArgs term (n_id n) prevIndex prevTerm entries (n_commitIndex n))).

Definition set_next (peer : NodeID) (idx : N) : M () :=
  modify (λ n, set_nextIndex (<[peer := idx]> (n_nextIndex n)) n).

(** Raise [matchIndex]/[nextIndex] for [peer] to cover [newMatch]. *)
Definition advance_progress (peer : NodeID) (newMatch : N) : M () :=
  n ← get;
  when (map_get (n_matchIndex n) peer <? newMatch)%N
    (modify (λ n, set_matchIndex (<[peer := newMatch]> (n_matchIndex n)) n)) ;;
  n ← get;
  when (map_get (n_nextIndex n) peer <? u64_add newMatch 1)%N
    (set_next peer (u64_add newMatch 1)).

(** The reply half of [replicateToPeer]; [args] is what was sent. *)
Definition onAppendReply (peer : NodeID) (term : N) (args : AppendEntriesArgs)
    (reply : AppendEntriesReply) : M () :=
  n ← get;
  if n_failed n then mret () else
  if (n_currentTerm n <? aer_Term reply)%N then becomeFollowerLocked (aer_Term reply)
  else if not_leading n term then mret ()
  else if aer_Success reply then
    advance_progress peer
      (u64_add (ae_PrevLogIndex args) (N.of_nat (length (ae_Entries args)))) ;;
    maybeAdvanceCommitLocked
  else if (aer_ConflictTerm reply =? 0)%N then
    set_next peer (N.max 1 (aer_ConflictIndex reply))
  else match lastIndexOfTermLocked n (aer_ConflictTerm reply) with
       | Some idx => set_next peer (u64_add idx 1)
       | None => set_next peer (N.max 1 (aer_ConflictIndex reply))
       end.

Definition sendInstallSnapshot (term : N) : M (option InstallSnapshotArgs) :=
  n ← get;
  if not_leading n term then mret None
  else mret (Some (MkISArgs term (n_id n) (n_lastIncludedIndex n)
                     (n_lastIncludedTerm n) (n_snapshotData n))).

Definition onSnapshotReply (peer : NodeID) (term : N) (args : InstallSnapshotArgs)
    (reply : InstallSnapshotReply) : M () :=
  n ← get;
  if n_failed n then mret () else
  if (n_currentTerm n <? isr_Term reply)%N then becomeFollowerLocked (isr_Term reply)
  else if not_leading n term then mret ()
  else
    advance_progress peer (is_LastIncludedIndex args) ;;
    maybeAdvanceCommitLocked.

(** ** The apply loop

    [Top]: the head of the outer loop.  [Inner]: the head of the inner loop,
    with [mu] held, no pending snapshot having been seen since the last
    delivery.  [Asleep]: waiting for [applyWake].  One step performs the
    critical section up to the next blocking operation and says what is sent
    on [applyCh]. *)
Inductive ApplyPc : Type := Top | Inner | Asleep.

Definition applyLoop_inner : M (ApplyPc * option ApplyMsg) :=
  n ← get;
  if (n_lastApplied n <? n_commitIndex n)%N then
    let i := u64_add (n_lastApplied n) 1 in
    modify (set_lastApplied i) ;;
    n ← get;
    entry ← lift_go (entryAtLocked n i);
    mret (Inner, Some (CommandMsg (Command entry) (Index entry) (Term entry)))
  else mret (Asleep, None).

Definition applyLoop_step (pc : ApplyPc) : M (ApplyPc * option ApplyMsg) :=
  n ← get;
  match pc with
  | Top =>
      match n_pendingSnapshot n with
      | Some msg => modify (set_pendingSnapshot None) ;; mret (Top, Some msg)
      | None => applyLoop_inner
      end
  | Inner =>
      (* back from the send, with mu re-acquired *)
      match n_pendingSnapshot n with
      | Some _ => mret (Asleep, None)
      | None => applyLoop_inner
      end
  | Asleep =>
      if n_applyWake n then modify (set_applyWake false) ;; mret (Top, None)
      else mret (Asleep, None)
  end.

(** ** Construction *)
Definition apply_defaults (cfg : Config) : Config :=
  MkConfig (c_ID cfg) (c_Peers cfg)
    (orDefault (c_ElectionTimeoutMin cfg) defaultElectionTimeoutMin)
    (orDefault (c_ElectionTimeoutMax cfg) defaultElectionTimeoutMax)
    (orDefault (c_HeartbeatInterval cfg) defaultHeartbeatInterval)
    (orDefault (c_TickInterval cfg) defaultTickInterval)
    (orDefault (c_RPCTimeout cfg) defaultRPCTimeout)
    (c_SnapshotThreshold cfg).

Definition init_node (cfg : Config) (st : S) (ps : PersistentState) (b : LogEntry) : Node :=
  MkNode cfg st Follower (CurrentTerm ps) (VotedFor ps) "" (Log ps) (Index b)
    ∅ ∅ zero_time zero_time false None (Index b) (Term b) (SnapshotData ps) (Index b)
    (if (0 <? Index b)%N then Some (SnapshotMsg (SnapshotData ps) (Index b) (Term b)) else None)
    false None (Index b).

(** [NewNode] over [cfg.Storage]; a nil transport is not modelled. *)
Definition NewNode (cfg : Config) (e : Env) (st : S) : go ((Node + error) * S) :=
  let cfg' := apply_defaults cfg in
  if bool_decide (c_ID cfg = "") then Val (inr (Errorf "raft: Config.ID is required"), st)
  else if (c_ElectionTimeoutMax cfg' <? c_ElectionTimeoutMin cfg')%Z
  then Val (inr (Errorf "raft: ElectionTimeoutMax must be >= ElectionTimeoutMin"), st)
  else match Load st with
       | Panic => Panic
       | Val (inr err, st') => Val (inr (Wrapf "raft: loading persisted state" err), st')
       | Val (inl ps, st') =>
           match slice_get (Log ps) 0 with
           | Panic => Panic
           | Val b =>
               match resetElectionDeadlineLocked e (init_node cfg' st' ps b) with
               | Panic => Panic
               | Val (_, n) => Val (inl n, st')
               end
           end
       end.
End Node.

Arguments Node S : clear implicits.
Arguments MkNode {S}.
