(* ===== verification/RaftVotes.v ===== *)
(** * Terms and votes

    How [currentTerm], [votedFor] and the leader role of one node may evolve
    across the handlers of RaftNode: terms never go back, at most one
    candidate gets the vote of a term, the durable hard state agrees with the
    one in memory unless the node is disabled, and a node leads a term only by
    winning its election. *)
From S2P Require Import Prelude RaftTypes RaftNode.

(** ** Evolution of a hard state *)
Definition hs_le (a b : N * NodeID) : Prop :=
  (a.1 < b.1)%N ∨ (a.1 = b.1 ∧ (a.2 = "" ∨ b.2 = a.2)).

Lemma hs_le_refl a : hs_le a a.
Proof. right. auto. Qed.

Lemma hs_le_trans a b c : hs_le a b → hs_le b c → hs_le a c.
Proof.
  unfold hs_le. intros [Hab|[Hab Hv]] [Hbc|[Hbc Hv']]; [left; lia..|].
  right. split; [congruence|]. destruct Hv as [?|<-]; auto.
Qed.

#[export] Instance hs_le_preorder : PreOrder hs_le.
Proof. split; [exact hs_le_refl | exact hs_le_trans]. Qed.

Section Votes.
Context {S : Type} `{HardStateSpec S}.
Implicit Types (n : Node S).

Definition hard n : N * NodeID := hard_view (n_storage n).

(** Memory and disk agree unless the node is disabled. *)
Definition synced n : Prop :=
  n_failed n = false → hard n = (n_currentTerm n, n_votedFor n).

(** What one critical section, started in [n0], may have done so far. *)
Record evolves n0 n : Prop := {
  ev_cfg : n_cfg n = n_cfg n0;
  ev_hard : hs_le (hard n0) (hard n);
  ev_synced : synced n;
  ev_lead : n_role n = Leader → n_role n0 = Leader ∧ n_currentTerm n = n_currentTerm n0;
}.

Lemma evolves_refl n : synced n → evolves n n.
Proof. intros Hs. split; auto using hs_le_refl. Qed.

(** The fields [evolves] does not look at are free to change, and leading
    may be given up. *)
Lemma evolves_frame n0 n n' :
  evolves n0 n →
  n_cfg n' = n_cfg n → hard n' = hard n → n_failed n' = n_failed n →
  n_currentTerm n' = n_currentTerm n → n_votedFor n' = n_votedFor n →
  (n_role n' = Leader → n_role n = Leader) → evolves n0 n'.
Proof.
  intros [Hc Hh Hs Hl] E1 E2 E3 E4 E5 E6. split.
  - congruence.
  - by rewrite E2.
  - unfold synced in *. rewrite E2, E3, E4, E5. done.
  - intros HL. rewrite E4. auto.
Qed.

(** A disabled node promises nothing about its memory. *)
Lemma evolves_disable n0 n n' :
  evolves n0 n → n_cfg n' = n_cfg n → hard n' = hard n → n_failed n' = true →
  n_currentTerm n' = n_currentTerm n → n_role n' = n_role n → evolves n0 n'.
Proof.
  intros [Hc Hh Hs Hl] E1 E2 E3 E4 E5. split.
  - congruence.
  - by rewrite E2.
  - intros Hf. congruence.
  - rewrite E4, E5. auto.
Qed.

Ltac frame := eapply evolves_frame; [eassumption|reflexivity..|first [done | by auto]].

Lemma disable_evolves n0 n err Q :
  evolves n0 n → (∀ n', evolves n0 n' → Q () n') → wp True (disableLocked err) Q n.
Proof.
  intros He HQ. unfold disableLocked. repeat wp_step. apply HQ.
  by eapply evolves_disable.
Qed.

(** [saveHardStateLocked] is the only place the hard state changes. *)
Lemma saveHardState_evolves n0 n t v :
  evolves n0 n → n_failed n = false → (t < two64)%N → vote_fits v →
  hs_le (n_currentTerm n, n_votedFor n) (t, v) →
  (n_role n = Leader → t = n_currentTerm n) →
  wp True (saveHardStateLocked t v) (λ _ n', evolves n0 n' ∧ n_role n' = n_role n ∧
    n_currentTerm n' = t ∧ n_votedFor n' = v) n.
Proof.
  intros He Hf Ht Hv Hle Hlead. unfold saveHardStateLocked, storage_call. do 6 wp_step.
  eapply wp_mono; [|by apply save_hard_hard]. cbn. intros err st' Hst.
  destruct He as [Hc Hh Hs Hl]. rewrite (Hs Hf) in Hh.
  destruct err as [err|].
  - unfold disableLocked. repeat wp_step. split; [|done]. split; cbn; [done| |done|].
    + unfold hard; cbn. fold (hard n) in Hst. rewrite (Hs Hf) in Hst.
      destruct Hst as [->| ->]; [done|by etrans].
    + intros HL. rewrite (Hlead HL). auto.
  - repeat wp_step. split; [|done]. split; cbn; [done| | |].
    + unfold hard; cbn. rewrite Hst. by etrans.
    + intros _. unfold hard; cbn. done.
    + intros HL. rewrite (Hlead HL). auto.
Qed.

Lemma storage_frame {A} (m : GoM S A) n0 n (k : A → GoM (Node S) ()) Q :
  evolves n0 n →
  (∀ s, wp True m (λ _ s', hard_view s' = hard_view s) s) →
  (∀ a n', evolves n0 n' → n_failed n' = n_failed n → wp True (k a) Q n') →
  wp True (storage_call m ≫= k) Q n.
Proof.
  intros He Hm Hk. unfold storage_call. repeat wp_step.
  eapply wp_mono; [|apply Hm]. cbn. intros a s' Hs. apply Hk; [|done].
  by eapply evolves_frame.
Qed.

Lemma appendLog_evolves n0 n es :
  evolves n0 n → wp True (appendLogLocked es) (λ _ n', evolves n0 n') n.
Proof.
  intros He. unfold appendLogLocked. do 2 wp_step.
  eapply storage_frame; [frame|intros s; apply append_hard|].
  intros [err|] n' He' _; [|done]. by eapply disable_evolves.
Qed.

Lemma truncateLog_evolves n0 n i :
  evolves n0 n → wp True (truncateLogLocked i) (λ _ n', evolves n0 n') n.
Proof.
  intros He. unfold truncateLogLocked. do 2 wp_step. wp_step.
  apply wp_lift_go; [|done]. intros l Hl. do 2 wp_step.
  eapply storage_frame; [frame|intros s; apply truncate_hard|].
  intros [err|] n' He' _; [|done]. by eapply disable_evolves.
Qed.

Lemma becomeFollower_evolves n0 n t :
  evolves n0 n → n_failed n = false → (t < two64)%N →
  wp True (becomeFollowerLocked t) (λ _ n', evolves n0 n' ∧ n_role n' = Follower ∧
    (n_failed n' = false → n_currentTerm n' = N.max (n_currentTerm n) t ∧
      (t ≤ n_currentTerm n → n_votedFor n' = n_votedFor n)%N)) n.
Proof.
  intros He Hf Ht. unfold becomeFollowerLocked. do 4 wp_step.
  assert (He' : evolves n0 (set_role Follower n)) by frame.
  wp_step.
  - reflect_guards. eapply wp_mono; [|apply (saveHardState_evolves n0); try done].
    + intros _ n' (He2 & Hr & Ht2 & Hv2). split; [done|]. split; [done|].
      intros _. rewrite Ht2. split; lia.
    + apply vote_fits_none.
    + left. done.
  - reflect_guards. split; [done|]. split; [done|]. intros _. cbn. split; [lia|done].
Qed.

Lemma resetElection_evolves n0 n e :
  evolves n0 n → wp True (resetElectionDeadlineLocked e) (λ _ n', evolves n0 n' ∧
    n_failed n' = n_failed n ∧ n_role n' = n_role n ∧ n_currentTerm n' = n_currentTerm n ∧
    n_votedFor n' = n_votedFor n ∧ hard n' = hard n ∧ n_log n' = n_log n) n.
Proof. intros He. unfold resetElectionDeadlineLocked. wp_step. split; [frame|done]. Qed.

(** ** The RPC handlers *)
Lemma observeLeader_evolves n e t l :
  synced n → n_failed n = false → (t < two64)%N →
  wp True (observeLeader e t l) (λ _ n', evolves n n') n.
Proof.
  intros Hs Hf Ht. pose proof (evolves_refl _ Hs) as He. unfold observeLeader.
  do 4 wp_step.
  - eapply wp_mono; [|by apply (becomeFollower_evolves n)]. cbn. intros _ n' (He' & _ & _).
    do 3 wp_step; [done|]. do 2 wp_step.
    eapply wp_mono; [|apply (resetElection_evolves n); frame]. by intros _ n2 (? & _).
  - wp_step.
    + wp_step. do 3 wp_step; [frame|]. do 2 wp_step.
      eapply wp_mono; [|apply (resetElection_evolves n); frame]. by intros _ n2 (? & _).
    + do 3 wp_step; [done|]. do 2 wp_step.
      eapply wp_mono; [|apply (resetElection_evolves n); frame]. by intros _ n2 (? & _).
Qed.

(** What a granted vote means. *)
Definition granted n' (args : RequestVoteArgs) (r : RequestVoteReply + option error) : Prop :=
  ∀ rep, r = inl rep → rvr_VoteGranted rep = true →
  rvr_Term rep = rv_Term args ∧ n_failed n' = false ∧
  hard n' = (rv_Term args, rv_CandidateID args).

Lemma granted_error n' args err : granted n' args (inr err).
Proof. by intros rep [=]. Qed.

Lemma granted_refused n' args t : granted n' args (inl (MkRVReply t false)).
Proof. by intros rep [= <-] [=]. Qed.

#[local] Hint Resolve granted_error granted_refused : core.

Lemma handleRequestVote_evolves n e args :
  synced n → (rv_Term args < two64)%N → vote_fits (rv_CandidateID args) →
  wp True (handleRequestVote e args) (λ r n', evolves n n' ∧ granted n' args r) n.
Proof.
  intros Hs Ht Hv. pose proof (evolves_refl _ Hs) as He. unfold handleRequestVote, fail_reply.
  do 2 wp_step. destruct (n_failed n) eqn:Hf; [by repeat wp_step|]. wp_step.
  eapply (wp_mono _ _ (λ _ n1, evolves n n1 ∧
    (n_failed n1 = false → n_currentTerm n1 = N.max (n_currentTerm n) (rv_Term args)))).
  2:{ wp_step.
      - eapply wp_mono; [|by apply (becomeFollower_evolves n)].
        intros _ n1 (? & _ & Hmax). split; [done|]. intros ?. by apply Hmax.
      - reflect_guards. split; [done|]. intros _. lia. }
  cbn. intros _ n1 [He1 Hmax]. do 2 wp_step.
  destruct (n_failed n1) eqn:Hf1; [by repeat wp_step|]. specialize (Hmax eq_refl).
  wp_step; [by repeat wp_step|].
  assert (Hterm : n_currentTerm n1 = rv_Term args).
  { reflect_guards. lia. }
  wp_step. apply wp_lift_go; [|done]. intros up _. cbn.
  wp_step; [|by wp_step]. wp_step.
  eapply wp_mono; [|apply (saveHardState_evolves n); try done].
  - cbn. intros _ n2 (He2 & _ & Ht2 & Hv2). do 3 wp_step; [by repeat wp_step|]. wp_step.
    eapply wp_mono; [|by apply (resetElection_evolves n)].
    cbn. intros _ n3 (He3 & Hf3 & _ & Ht3 & Hv3 & _ & _). wp_step. split; [done|].
    intros rep [= <-] _. split; [done|]. split; [congruence|].
    rewrite (ev_synced _ _ He3) by congruence. congruence.
  - by rewrite Hterm.
  - right. cbn. split; [done|]. unfold canVote in *.
    repeat case_bool_decide; naive_solver.
Qed.

Lemma append_loop_evolves n0 n idx es :
  evolves n0 n → wp True (append_loop idx es) (λ _ n', evolves n0 n') n.
Proof.
  revert idx n. induction es as [|e es IH]; intros idx n He; [done|]. cbn [append_loop].
  do 3 wp_step. apply wp_lift_go; [|done]. intros last _. cbn.
  wp_step; [|by apply appendLog_evolves].
  wp_step. apply wp_lift_go; [|done]. intros t _. cbn. wp_step; [by apply IH|].
  wp_step. eapply wp_mono; [|by apply (truncateLog_evolves n0)]. cbn. intros _ n1 He1.
  do 3 wp_step; [done|]. by apply appendLog_evolves.
Qed.

Lemma appendEntries_checked_evolves n0 n args :
  evolves n0 n → wp True (appendEntries_checked args) (λ _ n', evolves n0 n') n.
Proof.
  intros He. unfold appendEntries_checked, fail_reply, notifyApply.
  do 3 wp_step. apply wp_lift_go; [|done]. intros last _. cbn. wp_step; [done|].
  wp_step. apply wp_lift_go; [|done]. intros pt _. cbn. wp_step; [done|].
  wp_step. eapply wp_mono; [|by apply append_loop_evolves]. cbn. intros _ n1 He1.
  do 3 wp_step; [by repeat wp_step|].
  wp_step. apply wp_lift_go; [|done]. intros last' _. cbn. do 2 wp_step.
  - repeat wp_step. frame.
  - by repeat wp_step.
Qed.

Lemma handleAppendEntries_evolves n e args :
  synced n → (ae_Term args < two64)%N →
  wp True (handleAppendEntries e args) (λ _ n', evolves n n') n.
Proof.
  intros Hs Ht. pose proof (evolves_refl _ Hs) as He. unfold handleAppendEntries, fail_reply.
  do 2 wp_step. destruct (n_failed n) eqn:Hf; [by repeat wp_step|].
  wp_step; [by wp_step|]. wp_step.
  eapply wp_mono; [|by apply observeLeader_evolves]. cbn. intros _ n1 He1.
  do 3 wp_step; [by repeat wp_step|]. wp_step.
  - wp_step; [by wp_step|]. wp_step. apply wp_lift_go; [|done]. intros rest _.
    by apply appendEntries_checked_evolves.
  - by apply appendEntries_checked_evolves.
Qed.

Lemma handleInstallSnapshot_evolves n e args :
  synced n → (is_Term args < two64)%N →
  wp True (handleInstallSnapshot e args) (λ _ n', evolves n n') n.
Proof.
  intros Hs Ht. pose proof (evolves_refl _ Hs) as He.
  unfold handleInstallSnapshot, installSnapshot_checked, installSnapshot_log, fail_reply,
    notifyApply, storage_call.
  do 2 wp_step. destruct (n_failed n) eqn:Hf; [by repeat wp_step|].
  wp_step; [by wp_step|]. wp_step.
  eapply wp_mono; [|by apply observeLeader_evolves]. cbn. intros _ n1 He1.
  do 3 wp_step; [by repeat wp_step|]. wp_step; [done|]. do 2 wp_step.
  eapply wp_mono; [|apply snapshot_hard]. cbn. intros err st Hst.
  assert (He2 : evolves n (set_storage st n1)) by (by eapply evolves_frame).
  destruct err as [err|].
  - wp_step. eapply disable_evolves; [done|]. intros n' He'. by repeat wp_step.
  - do 4 wp_step. apply wp_lift_go; [|done]. intros keep _. cbn.
    destruct keep.
    + wp_step. apply wp_lift_go; [|done]. intros l _. repeat wp_step. frame.
    + repeat wp_step. frame.
Qed.

(** ** Proposing, committing, snapshotting, applying *)
Lemma maybeAdvanceCommit_evolves n0 n :
  evolves n0 n → wp True maybeAdvanceCommitLocked (λ _ n', evolves n0 n') n.
Proof.
  intros He. unfold maybeAdvanceCommitLocked, notifyApply. do 3 wp_step; [done|].
  wp_step. apply wp_lift_go; [|done]. intros last _. wp_step.
  apply wp_lift_go; [|done]. intros found _. cbn. wp_step; [|done].
  repeat wp_step. frame.
Qed.

Lemma Propose_evolves n cmd :
  synced n → wp True (Propose cmd) (λ _ n', evolves n n') n.
Proof.
  intros Hs. pose proof (evolves_refl _ Hs) as He. unfold Propose.
  do 3 wp_step; [done|]. wp_step. apply wp_lift_go; [|done]. intros last _. wp_step.
  eapply wp_mono; [|by apply appendLog_evolves]. cbn. intros _ n1 He1.
  do 3 wp_step; [done|]. wp_step. by apply maybeAdvanceCommit_evolves.
Qed.

Lemma Snapshot_evolves n i data :
  synced n → wp True (Snapshot i data) (λ _ n', evolves n n') n.
Proof.
  intros Hs. pose proof (evolves_refl _ Hs) as He. unfold Snapshot, storage_call.
  do 3 wp_step; [done|]. wp_step; [done|]. wp_step; [done|]. wp_step.
  apply wp_lift_go; [|done]. intros term _. wp_step.
  apply wp_lift_go; [|done]. intros tail _. wp_step.
  apply wp_lift_go; [|done]. intros l _. do 2 wp_step.
  eapply wp_mono; [|apply snapshot_hard]. cbn. intros [err|] st Hst.
  - wp_step. eapply disable_evolves; [by eapply evolves_frame|]. intros n' He'. by repeat wp_step.
  - repeat wp_step. by eapply evolves_frame.
Qed.

Lemma tick_evolves n e : synced n → wp True (tick e) (λ _ n', evolves n n') n.
Proof.
  intros Hs. pose proof (evolves_refl _ Hs) as He. unfold tick.
  repeat (wp_step; cbn zeta); try done; frame.
Qed.

Lemma trigger_evolves n i : synced n → wp True (trigger_snapshot i) (λ _ n', evolves n n') n.
Proof.
  intros Hs. pose proof (evolves_refl _ Hs) as He. unfold trigger_snapshot.
  repeat wp_step; try done; frame.
Qed.

Lemma take_trigger_evolves n :
  synced n → wp True take_snapshot_trigger (λ _ n', evolves n n') n.
Proof.
  intros Hs. pose proof (evolves_refl _ Hs) as He. unfold take_snapshot_trigger.
  repeat wp_step. frame.
Qed.

Lemma applyLoop_inner_evolves n0 n :
  evolves n0 n → wp True applyLoop_inner (λ _ n', evolves n0 n') n.
Proof.
  intros He. unfold applyLoop_inner. do 3 wp_step; [|done]. do 4 wp_step.
  wp_step. apply wp_lift_go; [|done]. intros entry _. wp_step. frame.
Qed.

Lemma applyLoop_evolves n pc :
  synced n → wp True (applyLoop_step pc) (λ _ n', evolves n n') n.
Proof.
  intros Hs. pose proof (evolves_refl _ Hs) as He. unfold applyLoop_step. do 2 wp_step.
  repeat wp_step; try done; try (by apply applyLoop_inner_evolves); frame.
Qed.

(** ** Replication *)
Lemma advance_progress_evolves n0 n p m :
  evolves n0 n → wp True (advance_progress p m) (λ _ n', evolves n0 n') n.
Proof.
  intros He. unfold advance_progress, set_next. repeat wp_step; try done; frame.
Qed.

Lemma set_next_evolves n0 n p i :
  evolves n0 n → wp True (set_next p i) (λ _ n', evolves n0 n') n.
Proof. intros He. unfold set_next. wp_step. frame. Qed.

Lemma onAppendReply_evolves n p t args r :
  synced n → (aer_Term r < two64)%N →
  wp True (onAppendReply p t args r) (λ _ n', evolves n n') n.
Proof.
  intros Hs Ht. pose proof (evolves_refl _ Hs) as He. unfold onAppendReply.
  do 2 wp_step. destruct (n_failed n) eqn:Hf; [done|]. wp_step.
  { eapply wp_mono; [|by apply (becomeFollower_evolves n)]. by intros _ n' (? & _). }
  wp_step; [done|]. wp_step.
  { wp_step. eapply wp_mono; [|by apply advance_progress_evolves]. cbn. intros _ n1 He1.
    by apply maybeAdvanceCommit_evolves. }
  wp_step; [by apply set_next_evolves|]. wp_step; by apply set_next_evolves.
Qed.

Lemma onSnapshotReply_evolves n p t args r :
  synced n → (isr_Term r < two64)%N →
  wp True (onSnapshotReply p t args r) (λ _ n', evolves n n') n.
Proof.
  intros Hs Ht. pose proof (evolves_refl _ Hs) as He. unfold onSnapshotReply.
  do 2 wp_step. destruct (n_failed n) eqn:Hf; [done|]. wp_step.
  { eapply wp_mono; [|by apply (becomeFollower_evolves n)]. by intros _ n' (? & _). }
  wp_step; [done|]. wp_step.
  eapply wp_mono; [|by apply advance_progress_evolves]. cbn. intros _ n1 He1.
  by apply maybeAdvanceCommit_evolves.
Qed.

(** ** Elections *)

(** The candidate votes for itself in a term of its own. *)
Definition campaigns n n' (term : N) (args : RequestVoteArgs) : Prop :=
  term = (n_currentTerm n + 1)%N ∧ rv_Term args = term ∧ rv_CandidateID args = n_id n ∧
  n_failed n' = false ∧ n_currentTerm n' = term ∧ hard n' = (term, n_id n).

Lemma startElection_evolves n e :
  synced n → (n_currentTerm n + 1 < two64)%N → vote_fits (n_id n) →
  wp True (startElection e) (λ r n', evolves n n' ∧
    ∀ term args, r = Some (term, args) → campaigns n n' term args) n.
Proof.
  intros Hs Ht Hv. pose proof (evolves_refl _ Hs) as He.
  unfold startElection, becomeCandidateLocked. do 2 wp_step.
  destruct (n_failed n) eqn:Hf; [by wp_step|]. do 6 wp_step. do 2 wp_step. cbn.
  rewrite u64_add_small by done.
  eapply wp_mono; [|apply (saveHardState_evolves n); try done].
  - cbn. intros _ n1 (He1 & Hr1 & Ht1 & Hv1). do 2 wp_step.
    destruct (n_failed n1) eqn:Hf1.
    + wp_step. do 2 wp_step. rewrite Hf1. by wp_step.
    + eapply wp_mono; [|by apply (resetElection_evolves n)].
      cbn. intros _ n2 (He2 & Hf2 & Hr2 & Ht2 & Hv2 & Hh2 & _). do 2 wp_step.
      rewrite Hf2, Hf1. wp_step. apply wp_lift_go; [|done]. intros last _. wp_step.
      split; [done|]. intros term args [= <- <-]. unfold campaigns. cbn.
      assert (n_id n2 = n_id n) as Hid by (unfold n_id; by rewrite (ev_cfg _ _ He2)).
      rewrite Ht2, Ht1, Hid. repeat split; try done; [congruence|].
      rewrite Hh2, (ev_synced _ _ He1) by done. rewrite Ht1, Hv1. done.
  - left. cbn. lia.
Qed.

(** Becoming leader leaves the hard state alone. *)
Record wins n (term : N) n' : Prop := {
  win_cfg : n_cfg n' = n_cfg n;
  win_hard : hard n' = hard n;
  win_failed : n_failed n' = n_failed n;
  win_term : n_currentTerm n' = term;
  win_vote : n_votedFor n' = n_votedFor n;
  win_was : n_currentTerm n = term ∧ n_role n = Candidate;
}.

Lemma becomeLeader_wins n :
  n_role n = Candidate → wp True becomeLeaderLocked (λ _ n', wins n (n_currentTerm n) n') n.
Proof.
  intros Hr. unfold becomeLeaderLocked. do 6 wp_step. wp_step.
  apply wp_lift_go; [|done]. intros last _. repeat wp_step. done.
Qed.

Lemma startElection_solo_outcome n term :
  synced n → wp True (startElection_solo term) (λ _ n', evolves n n' ∨
    (wins n term n' ∧ majority_of (n_peers n) ≤ 1)%nat) n.
Proof.
  intros Hs. pose proof (evolves_refl _ Hs) as He. unfold startElection_solo.
  do 3 wp_step; [|by left]. wp_step; [|by left]. reflect_guards. subst.
  eapply wp_mono; [|by apply becomeLeader_wins]. auto.
Qed.

Lemma onRequestVoteReply_outcome n term votes r :
  synced n → (rvr_Term r < two64)%N →
  wp True (onRequestVoteReply term votes r) (λ votes' n',
    (evolves n n' ∧ (votes' = votes ∨
       votes' = (votes + 1)%nat ∧ rvr_VoteGranted r = true ∧ rvr_Term r ≤ n_currentTerm n ∧
       n_currentTerm n = term)%N) ∨
    (wins n term n' ∧ votes' = votes + 1 ∧ majority_of (n_peers n) ≤ votes' ∧
     rvr_VoteGranted r = true ∧ (rvr_Term r ≤ n_currentTerm n)%N)%nat) n.
Proof.
  intros Hs Ht. pose proof (evolves_refl _ Hs) as He. unfold onRequestVoteReply.
  do 2 wp_step. destruct (n_failed n) eqn:Hf; [by left; auto|]. wp_step.
  { wp_step. eapply wp_mono; [|by apply (becomeFollower_evolves n)].
    intros _ n' (? & _). cbn. wp_step. left. auto. }
  wp_step; [by left; auto|]. reflect_guards. wp_step. wp_step.
  - reflect_guards. eapply wp_mono; [|by apply becomeLeader_wins].
    cbn. intros _ n' Hw. wp_step. right. subst term. auto.
  - do 2 wp_step. left. split; [done|]. right. auto.
Qed.

(** ** Restart *)
Lemma NewNode_hard cfg e st n st' :
  NewNode cfg e st = Val (inl n, st') →
  synced n ∧ n_failed n = false ∧ hard n = hard_view st ∧ n_role n = Follower ∧
  n_id n = c_ID cfg ∧ n_peers n = c_Peers cfg.
Proof.
  unfold NewNode. case_match; [done|]. case_match; [done|].
  pose proof (load_hard st) as HL. unfold wp in HL.
  destruct (Load st) as [[[ps|err] st1]|]; [|done..].
  destruct (slice_get (Log ps) 0) as [b|]; [|done]. cbn. intros [= <- <-].
  destruct HL as [HL1 HL2]. unfold synced, hard. cbn. rewrite HL1, <- HL2. done.
Qed.

Lemma NewNode_error_hard cfg e st err st' :
  NewNode cfg e st = Val (inr err, st') → hard_view st' = hard_view st.
Proof.
  unfold NewNode. case_match; [congruence|]. case_match; [congruence|].
  pose proof (load_hard st) as HL. unfold wp in HL.
  destruct (Load st) as [[[ps|err'] st1]|]; [| |done].
  - destruct (slice_get (Log ps) 0) as [b|]; done.
  - intros [= <- <-]. tauto.
Qed.
End Votes.
