(* ===== verification/RaftCluster.v ===== *)
(** * A cluster of Raft nodes

    The world is a set of processes (running nodes, or the storage a crashed
    one left behind), the elections in progress with the vote counter their
    goroutines share, and the vote replies in flight.  Requests are delivered
    any number of times, in any order or never; replies are lost, delayed or
    consumed once by the goroutine that waits for them; a node may crash at
    any point, leaving any storage with its durable hard state, and restart
    from it.  Inbound AppendEntries and
    InstallSnapshot requests, their replies, proposals and snapshots are left
    arbitrary: what follows does not depend on who sent them. *)
From S2P Require Import Prelude RaftTypes RaftNode RaftVotes.

(** ** The model *)
Section Cluster.
Context {S : Type} `{!Storage S}.

Inductive Proc : Type :=
| Up (n : Node S)
| Down (st : S).

Definition proc_storage (p : Proc) : S :=
  match p with Up n => n_storage n | Down st => st end.

(** One run of [startElection]: the variables its goroutines captured
    ([term], [args], the shared [votes]) and the peers still to answer. *)
Record Election : Type := MkElection {
  el_cand : NodeID;
  el_term : N;
  el_args : RequestVoteArgs;
  el_votes : nat;
  el_pending : list NodeID;
}.

(** [w_voted] and [w_led] are history: every vote that ever was durable, and
    every leadership that ever was held. *)
Record World : Type := MkWorld {
  w_procs : gmap NodeID Proc;
  w_elections : gmap nat Election;
  w_next : nat;
  w_replies : list (nat * NodeID * RequestVoteReply);
  w_voted : list (NodeID * N * NodeID);
  w_led : list (N * NodeID);
}.

(** What a node does on its own or on receipt of a message, other than
    starting elections and collecting votes. *)
Inductive LocalOp : Type :=
| OpHandle (e : Env) (req : Request)
| OpPropose (command : bytes)
| OpSnapshot (index : N) (data : bytes)
| OpTick (e : Env)
| OpTrigger (index : N)
| OpTakeTrigger
| OpApply (pc : ApplyPc)
| OpAppendReply (peer : NodeID) (term : N) (args : AppendEntriesArgs) (r : AppendEntriesReply)
| OpSnapshotReply (peer : NodeID) (term : N) (args : InstallSnapshotArgs) (r : InstallSnapshotReply).

Definition discard {St A} (m : GoM St A) : GoM St () := m ;; mret ().

Definition run_op (op : LocalOp) : GoM (Node S) () :=
  match op with
  | OpHandle e req => discard (handle e req)
  | OpPropose cmd => discard (Propose cmd)
  | OpSnapshot i data => discard (Snapshot i data)
  | OpTick e => discard (tick e)
  | OpTrigger i => trigger_snapshot i
  | OpTakeTrigger => discard take_snapshot_trigger
  | OpApply pc => discard (applyLoop_step pc)
  | OpAppendReply p t args r => onAppendReply p t args r
  | OpSnapshotReply p t args r => onSnapshotReply p t args r
  end.

(** History bookkeeping for process [p] now running [n]. *)
Definition note_vote (p : NodeID) (hv : N * NodeID) (voted : list (NodeID * N * NodeID)) :=
  if decide (hv.2 = "") then voted else (p, hv.1, hv.2) :: voted.

Definition note_lead (p : NodeID) (n : Node S) (led : list (N * NodeID)) :=
  if decide (n_role n = Leader) then (n_currentTerm n, p) :: led else led.
End Cluster.

Arguments Proc S : clear implicits.
Arguments World S : clear implicits.

Section Steps.
Context {S : Type} `{HardStateSpec S}.
Implicit Types (n : Node S) (w : World S).

(** The members of the cluster and the configuration each is started with. *)
Variable members : list NodeID.
Variable cfg_of : NodeID → Config.

Definition set_proc (p : NodeID) n w : World S :=
  MkWorld (<[p := Up n]> (w_procs w)) (w_elections w) (w_next w) (w_replies w)
    (note_vote p (hard n) (w_voted w)) (note_lead p n (w_led w)).

Definition set_down (p : NodeID) (st : S) w : World S :=
  MkWorld (<[p := Down st]> (w_procs w))
    (filter (λ kv, el_cand kv.2 ≠ p) (w_elections w)) (w_next w) (w_replies w)
    (w_voted w) (w_led w).

Definition add_election (el : Election) w : World S :=
  MkWorld (w_procs w) (<[w_next w := el]> (w_elections w)) (Datatypes.S (w_next w))
    (w_replies w) (w_voted w) (w_led w).

Definition set_election (eid : nat) (el : Election) w : World S :=
  MkWorld (w_procs w) (<[eid := el]> (w_elections w)) (w_next w)
    (w_replies w) (w_voted w) (w_led w).

Definition add_reply (r : nat * NodeID * RequestVoteReply) w : World S :=
  MkWorld (w_procs w) (w_elections w) (w_next w) (r :: w_replies w) (w_voted w) (w_led w).

(** The fields of a message are [uint64]s, and a candidate id fits the
    hard-state record. *)
Definition op_fits (op : LocalOp) : Prop :=
  match op with
  | OpHandle _ (ReqVote a) => (rv_Term a < two64)%N ∧ vote_fits (rv_CandidateID a)
  | OpHandle _ (ReqAppend a) => (ae_Term a < two64)%N
  | OpHandle _ (ReqSnapshot a) => (is_Term a < two64)%N
  | OpAppendReply _ _ _ r => (aer_Term r < two64)%N
  | OpSnapshotReply _ _ _ r => (isr_Term r < two64)%N
  | _ => True
  end.

Definition cast_vote (p : NodeID) (el : Election) (votes : nat) : Election :=
  MkElection (el_cand el) (el_term el) (el_args el) votes
    (filter (λ q, q ≠ p) (el_pending el)).

Inductive step : World S → World S → Prop :=
| step_local w p n op n' :
    w_procs w !! p = Some (Up n) → op_fits op → run_op op n = Val ((), n') →
    step w (set_proc p n' w)
| step_campaign w p n e term args n' :
    w_procs w !! p = Some (Up n) → (n_currentTerm n + 1 < two64)%N →
    startElection e n = Val (Some (term, args), n') →
    step w (add_election (MkElection p term args 1 (n_peers n')) (set_proc p n' w))
| step_campaign_disabled w p n e n' :
    w_procs w !! p = Some (Up n) → (n_currentTerm n + 1 < two64)%N →
    startElection e n = Val (None, n') →
    step w (set_proc p n' w)
| step_solo w eid el n n' :
    w_elections w !! eid = Some el → w_procs w !! el_cand el = Some (Up n) →
    startElection_solo (el_term el) n = Val ((), n') →
    step w (set_proc (el_cand el) n' w)
| step_vote w eid el p n e rep n' :
    w_elections w !! eid = Some el → w_procs w !! p = Some (Up n) →
    handleRequestVote e (el_args el) n = Val (inl rep, n') →
    step w (add_reply (eid, p, rep) (set_proc p n' w))
| step_vote_error w eid el p n e err n' :
    w_elections w !! eid = Some el → w_procs w !! p = Some (Up n) →
    handleRequestVote e (el_args el) n = Val (inr err, n') →
    step w (set_proc p n' w)
| step_vote_reply w eid el p rep n votes' n' :
    w_elections w !! eid = Some el → p ∈ el_pending el → (eid, p, rep) ∈ w_replies w →
    (rvr_Term rep < two64)%N →
    w_procs w !! el_cand el = Some (Up n) →
    onRequestVoteReply (el_term el) (el_votes el) rep n = Val (votes', n') →
    step w (set_election eid (cast_vote p el votes') (set_proc (el_cand el) n' w))
| step_crash w p n st :
    w_procs w !! p = Some (Up n) → hard_view st = hard n → step w (set_down p st w)
| step_restart w p st e n st' :
    w_procs w !! p = Some (Down st) → NewNode (cfg_of p) e st = Val (inl n, st') →
    step w (set_proc p n w)
| step_restart_error w p st e err st' :
    w_procs w !! p = Some (Down st) → NewNode (cfg_of p) e st = Val (inr err, st') →
    step w (set_down p st' w).

(** Every member starts from an empty storage. *)
Definition initial w : Prop :=
  w_elections w = ∅ ∧ w_replies w = [] ∧ w_voted w = [] ∧ w_led w = [] ∧
  ∀ p pr, w_procs w !! p = Some pr →
    p ∈ members ∧ ∃ st, pr = Down st ∧ hard_view st = (0%N, "").

Inductive reachable : World S → Prop :=
| reach_init w : initial w → reachable w
| reach_step w w' : reachable w → step w w' → reachable w'.

(** ** Running a schedule

    [exec] performs the step an event names, so that concrete schedules can
    be evaluated; [None] when the event is not enabled. *)
Inductive Event : Type :=
| EvLocal (p : NodeID) (op : LocalOp)
| EvCampaign (p : NodeID) (e : Env)
| EvSolo (eid : nat)
| EvVote (eid : nat) (p : NodeID) (e : Env)
| EvVoteReply (eid : nat) (p : NodeID) (rep : RequestVoteReply)
| EvCrash (p : NodeID)
| EvRestart (p : NodeID) (e : Env).

Definition up_node w (p : NodeID) : option (Node S) :=
  match w_procs w !! p with Some (Up n) => Some n | _ => None end.

Definition down_storage w (p : NodeID) : option S :=
  match w_procs w !! p with Some (Down st) => Some st | _ => None end.

Definition run_some {A B} (r : go A) (k : A → option B) : option B :=
  match r with Val a => k a | Panic => None end.

#[export] Instance RequestVoteReply_eq_dec : EqDecision RequestVoteReply.
Proof. solve_decision. Defined.

Definition exec (ev : Event) w : option (World S) :=
  match ev with
  | EvLocal p op =>
      n ← up_node w p;
      run_some (run_op op n) (λ r, Some (set_proc p r.2 w))
  | EvCampaign p e =>
      n ← up_node w p;
      if (n_currentTerm n + 1 <? two64)%N then
        run_some (startElection e n) (λ r, Some
          match r.1 with
          | Some (term, args) =>
              add_election (MkElection p term args 1 (n_peers r.2)) (set_proc p r.2 w)
          | None => set_proc p r.2 w
          end)
      else None
  | EvSolo eid =>
      el ← w_elections w !! eid;
      n ← up_node w (el_cand el);
      run_some (startElection_solo (el_term el) n) (λ r, Some (set_proc (el_cand el) r.2 w))
  | EvVote eid p e =>
      el ← w_elections w !! eid;
      n ← up_node w p;
      run_some (handleRequestVote e (el_args el) n) (λ r,
        match r.1 with
        | inl rep => Some (add_reply (eid, p, rep) (set_proc p r.2 w))
        | inr _ => Some (set_proc p r.2 w)
        end)
  | EvVoteReply eid p rep =>
      el ← w_elections w !! eid;
      n ← up_node w (el_cand el);
      if bool_decide (p ∈ el_pending el) && bool_decide ((eid, p, rep) ∈ w_replies w) &&
         (rvr_Term rep <? two64)%N
      then run_some (onRequestVoteReply (el_term el) (el_votes el) rep n) (λ r,
             Some (set_election eid (cast_vote p el r.1) (set_proc (el_cand el) r.2 w)))
      else None
  | EvCrash p =>
      n ← up_node w p;
      Some (set_down p (n_storage n) w)
  | EvRestart p e =>
      st ← down_storage w p;
      run_some (NewNode (cfg_of p) e st) (λ r, Some
        match r.1 with
        | inl n => set_proc p n w
        | inr _ => set_down p r.2 w
        end)
  end.

Definition event_fits (ev : Event) : Prop :=
  match ev with EvLocal _ op => op_fits op | _ => True end.

Fixpoint exec_all (evs : list Event) w : option (World S) :=
  match evs with
  | [] => Some w
  | ev :: evs => w' ← exec ev w; exec_all evs w'
  end.

Lemma up_node_Some w p n : up_node w p = Some n → w_procs w !! p = Some (Up n).
Proof. unfold up_node. repeat case_match; congruence. Qed.

Lemma down_storage_Some w p st : down_storage w p = Some st → w_procs w !! p = Some (Down st).
Proof. unfold down_storage. repeat case_match; congruence. Qed.

Lemma run_some_Some {A B} (r : go A) (k : A → option B) b :
  run_some r k = Some b → ∃ a, r = Val a ∧ k a = Some b.
Proof. destruct r; [by eauto|done]. Qed.

Lemma exec_sound ev w w' : event_fits ev → exec ev w = Some w' → step w w'.
Proof.
  intros Hfit. destruct ev; cbn.
  - intros (n & Hn%up_node_Some & ([[] n'] & Hr & [= <-])%run_some_Some)%bind_Some.
    by eapply step_local.
  - intros (n & Hn%up_node_Some & Hif)%bind_Some. case_match; [|done]. reflect_guards.
    apply run_some_Some in Hif as ([[[term args]|] n'] & Hr & [= <-]);
      [by eapply step_campaign|by eapply step_campaign_disabled].
  - intros (el & Hel & (n & Hn%up_node_Some & ([[] n'] & Hr & [= <-])%run_some_Some)%bind_Some)%bind_Some.
    by eapply step_solo.
  - intros (el & Hel & (n & Hn%up_node_Some & ([[rep|err] n'] & Hr & [= <-])%run_some_Some)%bind_Some)%bind_Some;
      [by eapply step_vote|by eapply step_vote_error].
  - intros (el & Hel & (n & Hn%up_node_Some & Hif)%bind_Some)%bind_Some. case_match; [|done].
    reflect_guards. apply run_some_Some in Hif as ([v n'] & Hr & [= <-]). by eapply step_vote_reply.
  - intros (n & Hn%up_node_Some & [= <-])%bind_Some. by eapply step_crash.
  - intros (st & Hst%down_storage_Some & ([[n|err] st'] & Hr & [= <-])%run_some_Some)%bind_Some;
      [by eapply step_restart|by eapply step_restart_error].
Qed.

Lemma exec_all_reachable evs w w' :
  reachable w → Forall event_fits evs → exec_all evs w = Some w' → reachable w'.
Proof.
  intros Hw Hfit. revert w Hw. induction Hfit as [|ev evs Hev _ IH]; intros w Hw; cbn.
  - by intros [= <-].
  - intros (w1 & Hw1 & Hall)%bind_Some. eapply IH; [|done].
    eapply reach_step; [done|by eapply exec_sound].
Qed.
End Steps.
