(* ===== verification/RaftElection.v ===== *)
(** * Election safety

    The invariant of RaftCluster's worlds: every process votes at most once
    per term for good (crashes included), the vote counter of an election
    counts distinct voters, and a leader holds the votes of a quorum.  On a
    cluster of odd size two quorums meet, so a term has at most one leader. *)
From S2P Require Import Prelude RaftTypes RaftNode RaftVotes RaftCluster MemoryStorage.

(** ** Quorums *)
Definition quorum_size (members : list NodeID) : nat := (length members - 1) / 2 + 1.

Lemma odd_quorum_majority (members : list NodeID) :
  Nat.Odd (length members) → length members < 2 * quorum_size members.
Proof.
  intros [k Hk]. unfold quorum_size. rewrite Hk.
  replace (2 * k + 1 - 1) with (k * 2) by lia. rewrite Nat.div_mul by lia. lia.
Qed.

(** Two duplicate-free lists of members that together outnumber them meet. *)
Lemma quorums_meet (members Q1 Q2 : list NodeID) :
  NoDup Q1 → NoDup Q2 → Q1 ⊆ members → Q2 ⊆ members →
  length members < length Q1 + length Q2 → ∃ q, q ∈ Q1 ∧ q ∈ Q2.
Proof.
  intros N1 N2 S1 S2 Hlen.
  destruct (decide (Exists (λ q, q ∈ Q2) Q1)) as [[q ?]%Exists_exists|Hno]; [by eauto|].
  assert (NoDup (Q1 ++ Q2)) as Hnd.
  { apply NoDup_app. split; [done|]. split; [|done]. intros q Hq1 Hq2.
    apply Hno, Exists_exists. eauto. }
  pose proof (submseteq_length _ _ (NoDup_submseteq _ members Hnd ltac:(by intros x [?|?]%elem_of_app; auto))) as Hle.
  rewrite length_app in Hle. lia.
Qed.

(** ** The invariant *)
Record cluster_wf {S} `{HardStateSpec S} (members : list NodeID) (cfg_of : NodeID → Config) : Prop := {
  cw_nodup : NoDup members;
  cw_id p : p ∈ members → c_ID (cfg_of p) = p ∧ p ≠ "" ∧ vote_fits p;
  cw_peers p : p ∈ members → NoDup (c_Peers (cfg_of p)) ∧ (p ∉ c_Peers (cfg_of p)) ∧
    (c_Peers (cfg_of p) ⊆ members) ∧ (length (c_Peers (cfg_of p)) + 1 = length members);
}.

Section Election.
Context {S : Type} `{HardStateSpec S}.
Implicit Types (n : Node S) (w : World S).
Variable members : list NodeID.
Variable cfg_of : NodeID → Config.
Hypothesis Hwf : cluster_wf (S := S) members cfg_of.

Definition durable w (p : NodeID) : option (N * NodeID) :=
  (λ pr, hard_view (proc_storage pr)) <$> w_procs w !! p.

Definition node_of (p : NodeID) n : Prop :=
  p ∈ members ∧ synced n ∧ n_id n = p ∧ n_peers n = c_Peers (cfg_of p).

Definition quorum (voted : list (NodeID * N * NodeID)) (t : N) (c : NodeID) : Prop :=
  ∃ Q, NoDup Q ∧ Q ⊆ members ∧ quorum_size members ≤ length Q ∧
    ∀ q, q ∈ Q → (q, t, c) ∈ voted.

Record election_ok (voted : list (NodeID * N * NodeID)) (el : Election) : Prop := {
  eo_member : el_cand el ∈ members;
  eo_args : rv_Term (el_args el) = el_term el ∧ rv_CandidateID (el_args el) = el_cand el ∧
    (el_term el < two64)%N;
  eo_pending : el_pending el ⊆ c_Peers (cfg_of (el_cand el));
  eo_granted : ∃ G, NoDup G ∧ el_cand el ∈ G ∧ length G = el_votes el ∧ (G ⊆ members) ∧
    (∀ q, q ∈ G → (q, el_term el, el_cand el) ∈ voted ∧ (q ∉ el_pending el));
}.

(** The votes on record against the durable hard states: each is no newer
    than its voter's term, and there is one per voter and term. *)
Record votes_ok (dur : NodeID → option (N * NodeID)) (voted : list (NodeID * N * NodeID)) : Prop := {
  vo_hist p t c : (p, t, c) ∈ voted →
    ∃ t0 v0, dur p = Some (t0, v0) ∧ (t ≤ t0)%N ∧ (t = t0 → v0 = c);
  vo_cur p t v : dur p = Some (t, v) → v ≠ "" → (p, t, v) ∈ voted;
  vo_nonempty p t c : (p, t, c) ∈ voted → c ≠ "";
  vo_uniq p t c c' : (p, t, c) ∈ voted → (p, t, c') ∈ voted → c = c';
}.

Record Inv w : Prop := {
  inv_votes : votes_ok (durable w) (w_voted w);
  inv_up p n : w_procs w !! p = Some (Up n) → node_of p n;
  inv_down p st : w_procs w !! p = Some (Down st) → p ∈ members;
  inv_lead p n : w_procs w !! p = Some (Up n) → n_role n = Leader →
    (n_currentTerm n, p) ∈ w_led w;
  inv_led t c : (t, c) ∈ w_led w → quorum (w_voted w) t c;
  inv_el eid el : w_elections w !! eid = Some el →
    eid < w_next w ∧ election_ok (w_voted w) el;
  inv_rep eid p rep : (eid, p, rep) ∈ w_replies w → eid < w_next w ∧
    ∀ el, w_elections w !! eid = Some el → rvr_VoteGranted rep = true →
    p ∈ members ∧ (p, el_term el, el_cand el) ∈ w_voted w;
}.

(** *** History only grows *)
Lemma note_vote_incl p hv voted : voted ⊆ note_vote p hv voted.
Proof. unfold note_vote. case_decide; [done|]. intros x. by right. Qed.

Lemma note_vote_new p hv voted : hv.2 ≠ "" → (p, hv.1, hv.2) ∈ note_vote p hv voted.
Proof. intros Hne. unfold note_vote. rewrite decide_False by done. by left. Qed.

Lemma elem_note_vote p hv voted x :
  x ∈ note_vote p hv voted → x ∈ voted ∨ (x = (p, hv.1, hv.2) ∧ hv.2 ≠ "").
Proof. unfold note_vote. case_decide; [by left|]. intros [->|?]%elem_of_cons; auto. Qed.

Lemma note_lead_incl p n led : led ⊆ note_lead p n led.
Proof. unfold note_lead. case_decide; [|done]. intros x. by right. Qed.

Lemma elem_note_lead p n led x :
  x ∈ note_lead p n led → x ∈ led ∨ (x = (n_currentTerm n, p) ∧ n_role n = Leader).
Proof. unfold note_lead. case_decide; [|by left]. intros [->|?]%elem_of_cons; auto. Qed.

Lemma quorum_mono voted voted' t c : voted ⊆ voted' → quorum voted t c → quorum voted' t c.
Proof. intros Hsub (Q & ? & ? & ? & HQ). exists Q. repeat split; auto. Qed.

Lemma election_ok_mono voted voted' el :
  voted ⊆ voted' → election_ok voted el → election_ok voted' el.
Proof.
  intros Hsub [? ? ? (G & ? & ? & ? & ? & HG)]. split; try done. exists G. repeat split; try done.
  - by apply Hsub, HG.
  - by apply HG.
Qed.

Lemma durable_set_proc w p n q :
  durable (set_proc p n w) q = if decide (p = q) then Some (hard n) else durable w q.
Proof.
  unfold durable. cbn. destruct (decide (p = q)) as [->|].
  - by rewrite lookup_insert_eq.
  - by rewrite lookup_insert_ne.
Qed.

(** The votes a process cast before bind the one it casts next. *)
Lemma votes_bind dur voted p hv hv' t c :
  votes_ok dur voted → dur p = Some hv → hs_le hv hv' → (p, t, c) ∈ voted →
  (t ≤ hv'.1)%N ∧ (t = hv'.1 → hv'.2 = c).
Proof.
  intros [Hh _ Hne _] Hdur Hle Hin. destruct (Hh _ _ _ Hin) as (t0 & v0 & Hd & Ht & Hv).
  rewrite Hdur in Hd. injection Hd as ->. specialize (Hne _ _ _ Hin).
  destruct Hle as [Hlt|[Heq [He|He]]]; cbn in *; split; try lia; intros ->.
  - exfalso. apply Hne. by rewrite <- Hv, He.
  - rewrite He. auto.
Qed.

Lemma votes_ok_move dur dur' voted p hv hv' :
  votes_ok dur voted → dur p = Some hv → hs_le hv hv' →
  (∀ q, dur' q = if decide (p = q) then Some hv' else dur q) →
  votes_ok dur' (note_vote p hv' voted).
Proof.
  intros HV Hdur Hle Hd'. destruct (HV) as [Hh Hc Hne Hu].
  pose proof (λ t c, votes_bind _ _ p hv hv' t c HV Hdur Hle) as Hnew. split.
  - intros q t c [Hin|[[= -> -> ->] Hv]]%elem_note_vote; rewrite Hd'.
    + destruct (decide (p = q)) as [<-|]; [|by eauto].
      exists hv'.1, hv'.2. destruct (Hnew _ _ Hin), hv'; auto.
    + rewrite decide_True by done. exists hv'.1, hv'.2. destruct hv'. repeat split; lia || done.
  - intros q t v. rewrite Hd'. destruct (decide (p = q)) as [<-|].
    + intros [= ->] Hv. by apply (note_vote_new p (t, v)).
    + intros Hd Hv. apply note_vote_incl. eauto.
  - intros q t c [Hin|[[= -> -> ->] Hv]]%elem_note_vote; eauto.
  - intros q t c c' [Hin|[E1 _]]%elem_note_vote [Hin'|[E2 _]]%elem_note_vote.
    + eauto.
    + injection E2 as -> -> ->. destruct (Hnew _ _ Hin). symmetry. auto.
    + injection E1 as -> -> ->. destruct (Hnew _ _ Hin'). auto.
    + congruence.
Qed.

(** *** One process moves

    [n'] is the new state of process [p], whose durable hard state was [hv].
    A leader is either one that led already or the winner of an election. *)
Lemma Inv_set_proc w p hv n' :
  Inv w → durable w p = Some hv → hs_le hv (hard n') → node_of p n' →
  (n_role n' = Leader →
    (n_currentTerm n', p) ∈ w_led w ∨ quorum (w_voted w) (n_currentTerm n') p) →
  Inv (set_proc p n' w).
Proof.
  intros HI Hdur Hle Hn Hlead. destruct (HI) as [HV Hup Hdn Hl HL HE HR].
  pose proof (note_vote_incl p (hard n') (w_voted w)) as Hsub.
  split; cbn [set_proc w_voted w_procs w_led w_elections w_replies w_next].
  - by eapply votes_ok_move; [..|apply durable_set_proc].
  - intros q n [[<- [= <-]]|[? ?]]%lookup_insert_Some; eauto.
  - intros q st [[<- [=]]|[? ?]]%lookup_insert_Some; eauto.
  - intros q n [[<- [= <-]]|[? ?]]%lookup_insert_Some Hr.
    + unfold note_lead. rewrite decide_True by done. by left.
    + apply note_lead_incl. eauto.
  - intros t c [Hin|[[= -> ->] Hr]]%elem_note_lead; (eapply quorum_mono; [done|]); [by auto|].
    destruct (Hlead Hr); auto.
  - intros eid el Hel. destruct (HE _ _ Hel). split; [done|]. by eapply election_ok_mono.
  - intros eid q rep Hin. destruct (HR _ _ _ Hin) as [Hlt Hg]. split; [done|].
    intros el Hel Hgr. destruct (Hg _ Hel Hgr). auto.
Qed.

Lemma node_of_evolves p n n' : node_of p n → evolves n n' → node_of p n'.
Proof.
  intros (Hm & Hs & Hi & Hp) [Hc _ Hs' _]. unfold node_of, n_id, n_peers in *.
  by rewrite Hc.
Qed.

Lemma Inv_evolves w p n n' :
  Inv w → w_procs w !! p = Some (Up n) → evolves n n' → Inv (set_proc p n' w).
Proof.
  intros HI Hp He. pose proof (inv_up _ HI _ _ Hp) as Hn.
  eapply (Inv_set_proc w p (hard n)); [done| |apply He|by eapply node_of_evolves|].
  - unfold durable. by rewrite Hp.
  - intros HL. left. destruct (ev_lead _ _ He HL) as [Hr ->]. by eapply inv_lead.
Qed.

Lemma Inv_wins w p n n' term :
  Inv w → w_procs w !! p = Some (Up n) → wins n term n' →
  quorum (w_voted w) term p → Inv (set_proc p n' w).
Proof.
  intros HI Hp [Wc Wh Wf Wt Wv [Wn _]] HQ. destruct (inv_up _ HI _ _ Hp) as (Hm & Hs & Hi & Hpe).
  eapply (Inv_set_proc w p (hard n)); [done| |by rewrite Wh| |].
  - unfold durable. by rewrite Hp.
  - unfold node_of, n_id, n_peers, synced in *. rewrite Wc. repeat split; try done.
    rewrite Wf, Wh, Wt, Wv, <- Wn. done.
  - rewrite Wt. auto.
Qed.

(** *** The other moves *)
Lemma Inv_set_down w p st st' :
  Inv w → proc_storage <$> w_procs w !! p = Some st → hard_view st' = hard_view st →
  Inv (set_down p st' w).
Proof.
  intros [HV Hup Hdn Hl HL HE HR] Hp Hst.
  assert (p ∈ members) as Hm.
  { destruct (w_procs w !! p) as [[n|st0]|] eqn:E; [by apply (Hup _ _ E)|by eapply Hdn|done]. }
  split; cbn [set_down w_voted w_procs w_led w_elections w_replies w_next].
  - destruct HV as [Hh Hc Hne Hu]. assert (∀ q, durable (set_down p st' w) q = durable w q) as Hd.
    { intros q. unfold durable. cbn. destruct (decide (p = q)) as [<-|].
      - rewrite lookup_insert_eq. destruct (w_procs w !! p); [|done]. cbn in *. simplify_eq. by rewrite Hst.
      - by rewrite lookup_insert_ne. }
    split; [|intros q t v; rewrite Hd|..]; eauto. intros q t c. rewrite Hd. eauto.
  - intros q n [[<- [=]]|[? ?]]%lookup_insert_Some; eauto.
  - intros q st0 [[<- [= <-]]|[? ?]]%lookup_insert_Some; eauto.
  - intros q n [[<- [=]]|[? ?]]%lookup_insert_Some; eauto.
  - eauto.
  - intros eid el [Hel _]%map_lookup_filter_Some. eauto.
  - intros eid q rep Hin. destruct (HR _ _ _ Hin) as [Hlt Hg]. split; [done|].
    intros el [Hel _]%map_lookup_filter_Some. eauto.
Qed.

Lemma Inv_add_election w el :
  Inv w → election_ok (w_voted w) el → Inv (add_election el w).
Proof.
  intros [HV Hup Hdn Hl HL HE HR] Hok.
  split; cbn [add_election w_voted w_procs w_led w_elections w_replies w_next]; try done.
  - intros eid el' [[<- <-]|[? Hel]]%lookup_insert_Some; [split; [lia|done]|].
    destruct (HE _ _ Hel). split; [lia|done].
  - intros eid q rep Hin. destruct (HR _ _ _ Hin) as [Hlt Hg]. split; [lia|].
    intros el' [[<- <-]|[? Hel]]%lookup_insert_Some; [lia|]. eauto.
Qed.

Lemma Inv_set_election w eid el el' :
  Inv w → w_elections w !! eid = Some el → el_cand el' = el_cand el →
  el_term el' = el_term el → election_ok (w_voted w) el' → Inv (set_election eid el' w).
Proof.
  intros [HV Hup Hdn Hl HL HE HR] Hel Hc Ht Hok. destruct (HE _ _ Hel) as [Hlt _].
  split; cbn [set_election w_voted w_procs w_led w_elections w_replies w_next]; try done.
  - intros eid2 el2 [[<- <-]|[? Hel2]]%lookup_insert_Some; eauto.
  - intros eid2 q rep Hin. destruct (HR _ _ _ Hin) as [Hlt2 Hg]. split; [done|].
    intros el2 [[<- <-]|[? Hel2]]%lookup_insert_Some; [|by eauto].
    rewrite Hc, Ht. eauto.
Qed.

Lemma Inv_add_reply w eid p rep :
  Inv w → eid < w_next w →
  (∀ el, w_elections w !! eid = Some el → rvr_VoteGranted rep = true →
     p ∈ members ∧ (p, el_term el, el_cand el) ∈ w_voted w) →
  Inv (add_reply (eid, p, rep) w).
Proof.
  intros [HV Hup Hdn Hl HL HE HR] Hlt Hg.
  split; cbn [add_reply w_voted w_procs w_led w_elections w_replies w_next]; try done.
  intros eid' q rep' [[= -> -> ->]|Hin]%elem_of_cons; eauto.
Qed.

(** *** Steps of the cluster *)
Lemma discard_run {A} (m : GoM (Node S) A) n n' :
  discard m n = Val ((), n') → ∃ a, m n = Val (a, n').
Proof.
  unfold discard, mbind, GoM_bind. destruct (m n) as [[a n1]|]; [|done].
  intros [= <-]. eauto.
Qed.

Lemma wrap_reply_wp {A} (k : A → Reply) (m : GoM (Node S) (A + option error)) Q n :
  wp True m (λ _ n', Q n') n → wp True (wrap_reply k m) (λ _ n', Q n') n.
Proof. intros Hm. unfold wrap_reply. wp_step. eapply wp_mono; [|done]. done. Qed.

Lemma run_op_evolves op n n' :
  op_fits op → synced n → run_op op n = Val ((), n') → evolves n n'.
Proof.
  intros Hfit Hs Hrun. destruct op; cbn in Hrun; try apply discard_run in Hrun as [a Hrun];
    (eapply (wp_run True _ (λ _ n', evolves n n')); [|exact Hrun]).
  - destruct req; apply wrap_reply_wp.
    + eapply wp_mono; [|destruct Hfit; by apply handleRequestVote_evolves]. by intros ? ? [? _].
    + by apply handleAppendEntries_evolves.
    + by apply handleInstallSnapshot_evolves.
  - by apply Propose_evolves.
  - by apply Snapshot_evolves.
  - by apply tick_evolves.
  - by apply trigger_evolves.
  - by apply take_trigger_evolves.
  - by apply applyLoop_evolves.
  - by apply onAppendReply_evolves.
  - by apply onSnapshotReply_evolves.
Qed.

Lemma majority_quorum p n :
  node_of p n → majority_of (n_peers n) = quorum_size members.
Proof.
  intros (Hm & _ & _ & Hp). unfold majority_of, quorum_size. rewrite Hp.
  destruct (cw_peers _ _ Hwf _ Hm) as (_ & _ & _ & <-). by rewrite Nat.add_sub.
Qed.

Lemma pending_peer w el p :
  election_ok (w_voted w) el → p ∈ el_pending el → p ∈ members.
Proof.
  intros Hok Hp. destruct (cw_peers _ _ Hwf _ (eo_member _ _ Hok)) as (_ & _ & Hsub & _).
  by apply Hsub, (eo_pending _ _ Hok).
Qed.

Lemma campaign_ok w p n n' e term args :
  Inv w → w_procs w !! p = Some (Up n) → (n_currentTerm n + 1 < two64)%N →
  startElection e n = Val (Some (term, args), n') →
  Inv (set_proc p n' w) ∧
  election_ok (note_vote p (hard n') (w_voted w)) (MkElection p term args 1 (n_peers n')).
Proof.
  intros HI Hp Ht Hrun. destruct (inv_up _ HI _ _ Hp) as (Hm & Hs & Hid & Hpe).
  destruct (cw_id _ _ Hwf _ Hm) as (_ & Hne & Hfit).
  pose proof (wp_run _ _ _ _ _ _ (startElection_evolves n e Hs Ht ltac:(by rewrite Hid)) Hrun)
    as [He Hc].
  specialize (Hc _ _ eq_refl) as (-> & Ha1 & Ha2 & Hf & Ht' & Hh).
  split; [by eapply Inv_evolves|].
  assert (n_peers n' = c_Peers (cfg_of p)) as Hpe'.
  { unfold n_peers in *. by rewrite (ev_cfg _ _ He). }
  split; cbn; [done| | |].
  - rewrite Ha1, Ha2, Hid. auto.
  - by rewrite Hpe'.
  - exists [p]. rewrite Hpe'. destruct (cw_peers _ _ Hwf _ Hm) as (_ & Hnp & _ & _).
    split; [apply NoDup_singleton|]. split; [by left|]. split; [done|].
    split; [by intros q ->%list_elem_of_singleton|].
    intros q ->%list_elem_of_singleton. split; [|done].
    rewrite Hid in Hh. rewrite Hh. by apply (note_vote_new p (_, p)).
Qed.

Lemma vote_evolves w eid el p n e r n' :
  Inv w → w_elections w !! eid = Some el → w_procs w !! p = Some (Up n) →
  handleRequestVote e (el_args el) n = Val (r, n') → evolves n n' ∧ granted n' (el_args el) r.
Proof.
  intros HI Hel Hp Hrun. destruct (inv_up _ HI _ _ Hp) as (Hm & Hs & _ & _).
  destruct (inv_el _ HI _ _ Hel) as [Hlt Hok]. destruct (eo_args _ _ Hok) as (Ha1 & Ha2 & Ha3).
  destruct (cw_id _ _ Hwf _ (eo_member _ _ Hok)) as (_ & Hne & Hfit).
  by apply (wp_run _ _ _ _ _ _ (handleRequestVote_evolves n e (el_args el) Hs
    ltac:(by rewrite Ha1) ltac:(by rewrite Ha2)) Hrun).
Qed.

Lemma vote_ok w eid el p n e rep n' :
  Inv w → w_elections w !! eid = Some el → w_procs w !! p = Some (Up n) →
  handleRequestVote e (el_args el) n = Val (inl rep, n') →
  Inv (add_reply (eid, p, rep) (set_proc p n' w)).
Proof.
  intros HI Hel Hp Hrun. destruct (inv_up _ HI _ _ Hp) as (Hm & Hs & _ & _).
  destruct (inv_el _ HI _ _ Hel) as [Hlt Hok].
  destruct (eo_args _ _ Hok) as (Ha1 & Ha2 & Ha3).
  destruct (cw_id _ _ Hwf _ (eo_member _ _ Hok)) as (_ & Hne & Hfit).
  destruct (vote_evolves _ _ _ _ _ _ _ _ HI Hel Hp Hrun) as [He Hg].
  apply Inv_add_reply; [by eapply Inv_evolves|done|].
  cbn. intros el' Hel' Hgr. replace el' with el by congruence. split; [done|].
  destruct (Hg _ eq_refl Hgr) as (_ & _ & Hh). rewrite Ha1, Ha2 in Hh.
  rewrite Hh. by apply (note_vote_new p (_, el_cand el)).
Qed.

(** Counting a vote keeps the counter equal to the number of voters. *)
Lemma cast_refused voted el p :
  election_ok voted el → election_ok voted (cast_vote p el (el_votes el)).
Proof.
  intros [Hm Ha Hp (G & HG1 & HG2 & HG3 & HG4 & HG5)]. split; cbn; [done|done| |].
  - intros q [_ Hq]%list_elem_of_filter. auto.
  - exists G. repeat split; try done; [by apply HG5|].
    intros [_ Hq]%list_elem_of_filter. by eapply HG5.
Qed.

Lemma cast_granted voted el p :
  election_ok voted el → p ∈ el_pending el → p ∈ members →
  (p, el_term el, el_cand el) ∈ voted →
  election_ok voted (cast_vote p el (el_votes el + 1)).
Proof.
  intros [Hm Ha Hp (G & HG1 & HG2 & HG3 & HG4 & HG5)] Hpp Hpm Hv. split; cbn; [done|done| |].
  - intros q [_ Hq]%list_elem_of_filter. auto.
  - exists (p :: G). split; [constructor; [|done]; intros HpG; by eapply HG5|].
    split; [by right|]. split; [cbn; lia|].
    split; [intros q [->|?]%elem_of_cons; auto|].
    intros q [->|Hq]%elem_of_cons; (split; [by auto || by apply HG5|]).
    + by intros [? _]%list_elem_of_filter.
    + intros [_ Hq']%list_elem_of_filter. by eapply HG5.
Qed.

Lemma election_quorum voted el :
  election_ok voted el → quorum_size members ≤ el_votes el →
  quorum voted (el_term el) (el_cand el).
Proof.
  intros [_ _ _ (G & HG1 & HG2 & HG3 & HG4 & HG5)] Hle. exists G.
  repeat split; try done; [by rewrite HG3|]. intros q Hq. by apply HG5.
Qed.

Lemma vote_reply_move w eid el p rep n votes' n' :
  Inv w → w_elections w !! eid = Some el → p ∈ el_pending el →
  (eid, p, rep) ∈ w_replies w → (rvr_Term rep < two64)%N →
  w_procs w !! el_cand el = Some (Up n) →
  onRequestVoteReply (el_term el) (el_votes el) rep n = Val (votes', n') →
  Inv (set_proc (el_cand el) n' w) ∧ hs_le (hard n) (hard n') ∧
  election_ok (w_voted w) (cast_vote p el votes').
Proof.
  intros HI Hel Hpp Hin Hrt Hp Hrun. pose proof (inv_up _ HI _ _ Hp) as Hn.
  destruct (inv_el _ HI _ _ Hel) as [_ Hok]. pose proof Hn as (Hm & Hs & _ & _).
  destruct (inv_rep _ HI _ _ _ Hin) as [_ Hg]. specialize (Hg _ Hel).
  pose proof (pending_peer _ _ _ Hok Hpp) as Hpm.
  destruct (wp_run _ _ _ _ _ _ (onRequestVoteReply_outcome n (el_term el) (el_votes el) rep Hs Hrt) Hrun)
    as [[He Hv]|(Hw & -> & Hmaj & Hgr & _)].
  - split; [by eapply Inv_evolves|]. split; [apply He|].
    destruct Hv as [->|(-> & Hgr & _)]; [by apply cast_refused|].
    apply cast_granted; try done. by apply Hg.
  - assert (Hok' : election_ok (w_voted w) (cast_vote p el (el_votes el + 1)))
      by (apply cast_granted; try done; by apply Hg).
    rewrite (majority_quorum _ _ Hn) in Hmaj. split; [|split; [|done]].
    + eapply Inv_wins; [done..|]. by apply (election_quorum _ _ Hok').
    + by rewrite (win_hard _ _ _ Hw).
Qed.

Lemma vote_reply_ok w eid el p rep n votes' n' :
  Inv w → w_elections w !! eid = Some el → p ∈ el_pending el →
  (eid, p, rep) ∈ w_replies w → (rvr_Term rep < two64)%N →
  w_procs w !! el_cand el = Some (Up n) →
  onRequestVoteReply (el_term el) (el_votes el) rep n = Val (votes', n') →
  Inv (set_election eid (cast_vote p el votes') (set_proc (el_cand el) n' w)).
Proof.
  intros HI Hel Hpp Hin Hrt Hp Hrun.
  destruct (vote_reply_move w eid el p rep n votes' n') as (HI' & _ & Hok); try done.
  eapply Inv_set_election; [done..|]. eapply election_ok_mono; [apply note_vote_incl|done].
Qed.

Lemma solo_ok w eid el n n' :
  Inv w → w_elections w !! eid = Some el → w_procs w !! el_cand el = Some (Up n) →
  startElection_solo (el_term el) n = Val ((), n') →
  Inv (set_proc (el_cand el) n' w).
Proof.
  intros HI Hel Hp Hrun. pose proof (inv_up _ HI _ _ Hp) as Hn. pose proof Hn as (_ & Hs & _ & _).
  destruct (inv_el _ HI _ _ Hel) as [_ Hok].
  destruct (wp_run _ _ _ _ _ _ (startElection_solo_outcome n (el_term el) Hs) Hrun) as [He|[Hw Hmaj]].
  - by eapply Inv_evolves.
  - eapply Inv_wins; [done..|]. rewrite (majority_quorum _ _ Hn) in Hmaj.
    apply election_quorum; [done|].
    destruct (eo_granted _ _ Hok) as (G & _ & HG & <- & _). destruct G; [by apply not_elem_of_nil in HG|].
    cbn [length]. lia.
Qed.

Lemma Inv_step w w' : Inv w → step cfg_of w w' → Inv w'.
Proof.
  intros HI. destruct 1 as [w p n op n' Hp Hfit Hrun|w p n e term args n' Hp Ht Hrun
    |w p n e n' Hp Ht Hrun|w eid el n n' Hel Hp Hrun|w eid el p n e rep n' Hel Hp Hrun
    |w eid el p n e err n' Hel Hp Hrun
    |w eid el p rep n v n' Hel Hpp Hin Hrt Hp Hrun|w p n st Hp Hst|w p st e n st' Hp Hrun
    |w p st e err st' Hp Hrun].
  - eapply Inv_evolves; [done..|]. eapply run_op_evolves; [done|by eapply inv_up|done].
  - destruct (campaign_ok _ _ _ _ _ _ _ HI Hp Ht Hrun). by apply Inv_add_election.
  - destruct (inv_up _ HI _ _ Hp) as (Hm & Hs & Hid & _).
    eapply Inv_evolves; [done..|].
    by apply (wp_run _ _ _ _ _ _ (startElection_evolves n e Hs Ht
      ltac:(rewrite Hid; by apply (cw_id _ _ Hwf))) Hrun).
  - by eapply solo_ok.
  - by eapply vote_ok.
  - eapply Inv_evolves; [done..|]. by eapply vote_evolves.
  - by eapply vote_reply_ok.
  - eapply (Inv_set_down _ _ (n_storage n)); [done| |done]. by rewrite Hp.
  - apply NewNode_hard in Hrun as (Hs & Hf & Hh & Hr & Hid & Hpe).
    pose proof (inv_down _ HI _ _ Hp) as Hm. eapply (Inv_set_proc w p (hard_view st)).
    + done.
    + unfold durable. by rewrite Hp.
    + by rewrite Hh.
    + destruct (cw_id _ _ Hwf _ Hm) as [Hcid _].
      split; [done|]. split; [done|]. split; congruence.
    + congruence.
  - apply NewNode_error_hard in Hrun. eapply Inv_set_down; [done| |done]. by rewrite Hp.
Qed.

Lemma Inv_initial w : initial members w → Inv w.
Proof.
  intros (Hel & Hrep & Hv & Hl & Hp).
  assert (Hdown : ∀ p n, w_procs w !! p ≠ Some (Up n)).
  { intros p n Hpn. by destruct (Hp _ _ Hpn) as (_ & st & ? & _). }
  split.
  - split; rewrite ?Hv.
    + by intros ??? ?%not_elem_of_nil.
    + intros p t v Hd Hne. unfold durable in Hd. destruct (w_procs w !! p) as [pr|] eqn:E; [|done].
      destruct (Hp _ _ E) as (_ & st & -> & Hst). cbn in Hd. congruence.
    + by intros ??? ?%not_elem_of_nil.
    + by intros ???? ?%not_elem_of_nil.
  - intros p n Hpn. by apply Hdown in Hpn.
  - intros p st Hst. by apply (Hp _ _ Hst).
  - intros p n Hpn. by apply Hdown in Hpn.
  - rewrite Hl. by intros ?? ?%not_elem_of_nil.
  - rewrite Hel. intros ?? ?. by simplify_map_eq.
  - rewrite Hrep. by intros ??? ?%not_elem_of_nil.
Qed.

Lemma Inv_reachable w : reachable members cfg_of w → Inv w.
Proof. induction 1; [by apply Inv_initial|by eapply Inv_step]. Qed.

(** *** Leaders *)
Lemma led_unique w t c c' :
  Nat.Odd (length members) → Inv w → (t, c) ∈ w_led w → (t, c') ∈ w_led w → c = c'.
Proof.
  intros Hodd HI H1 H2. destruct (inv_led _ HI _ _ H1) as (Q1 & N1 & S1 & L1 & V1).
  destruct (inv_led _ HI _ _ H2) as (Q2 & N2 & S2 & L2 & V2).
  pose proof (odd_quorum_majority _ Hodd).
  destruct (quorums_meet members Q1 Q2) as (q & Hq1 & Hq2); try done; [lia|].
  eapply vo_uniq; [apply (inv_votes _ HI)|by apply V1|by apply V2].
Qed.
End Election.

(** ** Concrete clusters over [MemoryStorage] *)
Definition cfg_among (members : list NodeID) (p : NodeID) : Config :=
  MkConfig p (filter (λ q, q ≠ p) members) 0 0 0 0 0 0.

Definition fresh_world (members : list NodeID) : World MemoryStorage :=
  MkWorld (list_to_map ((λ p, (p, Down NewMemoryStorage)) <$> members)) ∅ 0 [] [] [].

Lemma fresh_initial members : initial members (fresh_world members).
Proof.
  split; [done|]. split; [done|]. split; [done|]. split; [done|]. intros p pr Hp. cbn in Hp.
  apply elem_of_list_to_map_2, list_elem_of_fmap in Hp as (q & [= -> ->] & Hq). eauto.
Qed.

Lemma run_reachable members cfg_of evs w :
  Forall event_fits evs → exec_all cfg_of evs (fresh_world members) = Some w →
  reachable members cfg_of w.
Proof. intros Hfit. apply exec_all_reachable; [|done]. apply reach_init, fresh_initial. Qed.

(** [p] runs and leads term [t]. *)
Definition leads (w : World MemoryStorage) (t : N) (p : NodeID) : bool :=
  match up_node w p with
  | Some n => bool_decide (n_role n = Leader) && (n_currentTerm n =? t)%N
  | None => false
  end.

Lemma run_leads members cfg_of evs ps t :
  Forall event_fits evs →
  (match exec_all cfg_of evs (fresh_world members) with
   | Some w => forallb (leads w t) ps | None => false end) = true →
  ∃ w, reachable members cfg_of w ∧
    ∀ p, p ∈ ps → ∃ n, w_procs w !! p = Some (Up n) ∧ n_role n = Leader ∧ n_currentTerm n = t.
Proof.
  intros Hfit. destruct (exec_all _ _ _) as [w|] eqn:E; [|done]. intros Hall.
  exists w. split; [by eapply run_reachable|]. intros p Hp%list_elem_of_In.
  apply (proj1 (forallb_forall _ _) Hall) in Hp. unfold leads in Hp.
  destruct (up_node w p) as [n|] eqn:Hn; [|done]. apply up_node_Some in Hn. reflect_guards. eauto.
Qed.

Definition env0 : Env := MkEnv 1 0.

Definition three : list NodeID := ["a"; "b"; "c"].
Definition two : list NodeID := ["a"; "b"].

Lemma three_wf : cluster_wf (S := MemoryStorage) three (cfg_among three).
Proof.
  split.
  - by apply (bool_decide_unpack (NoDup three)).
  - intros p Hp. repeat (apply elem_of_cons in Hp as [->|Hp]; [by repeat split|]).
    by apply not_elem_of_nil in Hp.
  - intros p Hp. repeat (apply elem_of_cons in Hp as [->|Hp];
      [split; [by apply (bool_decide_unpack (NoDup _))|];
       split; [by apply (bool_decide_unpack (_ ∉ _))|];
       split; [|done]; by intros q [_ ?]%list_elem_of_filter|]).
    by apply not_elem_of_nil in Hp.
Qed.

(** "a" starts, campaigns, and is elected by "b". *)
Definition elect_a : list Event :=
  [EvRestart "a" env0; EvRestart "b" env0; EvCampaign "a" env0; EvVote 0 "b" env0;
   EvVoteReply 0 "b" (MkRVReply 1 true)].

(** C5: a term has at most one leader.  In every reachable world of a cluster
    of odd size, whatever was lost, duplicated, delayed or crashed, two running
    nodes that lead the same term are the same node. *)
Theorem election_safety {S} `{HardStateSpec S} members cfg_of (w : World S) p1 p2 n1 n2 :
  cluster_wf (S := S) members cfg_of → Nat.Odd (length members) →
  reachable members cfg_of w →
  w_procs w !! p1 = Some (Up n1) → w_procs w !! p2 = Some (Up n2) →
  n_role n1 = Leader → n_role n2 = Leader → n_currentTerm n1 = n_currentTerm n2 →
  p1 = p2.
Proof.
  intros Hwf Hodd Hr Hp1 Hp2 HL1 HL2 Ht.
  pose proof (Inv_reachable _ _ Hwf _ Hr) as HI.
  apply (led_unique members cfg_of w (n_currentTerm n1)); [done|done|by eapply inv_lead|].
  rewrite Ht. by eapply inv_lead.
Qed.

Lemma election_safety_witness : ∃ w n,
  reachable (S := MemoryStorage) three (cfg_among three) w ∧
  w_procs w !! "a" = Some (Up n) ∧ n_role n = Leader ∧ n_currentTerm n = 1%N ∧
  (∀ p n', w_procs w !! p = Some (Up n') → n_role n' = Leader → n_currentTerm n' = 1%N → "a" = p).
Proof.
  destruct (run_leads three (cfg_among three) elect_a ["a"] 1) as (w & Hr & HL).
  { by repeat constructor. }
  { by vm_compute. }
  destruct (HL "a" ltac:(by left)) as (n & Hn & Hrole & Ht). exists w, n.
  split; [exact Hr|]. split; [exact Hn|]. split; [exact Hrole|]. split; [exact Ht|].
  intros p n' Hp HL' Ht'.
  apply (election_safety three (cfg_among three) w "a" p n n' three_wf
    (ex_intro _ 1 eq_refl) Hr Hn Hp Hrole HL').
  congruence.
Defined.

(** With an even number of members the rule [len(n.peers)/2 + 1] is not a
    majority.  In a cluster of two, where [peers] has one element, each node
    elects itself at once: both lead term 1. *)
Theorem even_cluster_two_leaders : ∃ (w : World MemoryStorage) n1 n2,
  reachable two (cfg_among two) w ∧
  w_procs w !! "a" = Some (Up n1) ∧ w_procs w !! "b" = Some (Up n2) ∧
  n_role n1 = Leader ∧ n_role n2 = Leader ∧ n_currentTerm n1 = n_currentTerm n2.
Proof.
  destruct (run_leads two (cfg_among two) [EvRestart "a" env0; EvRestart "b" env0;
    EvCampaign "a" env0; EvSolo 0; EvCampaign "b" env0; EvSolo 1] ["a"; "b"] 1) as (w & Hr & HL).
  { by repeat constructor. }
  { by vm_compute. }
  destruct (HL "a" ltac:(by left)) as (n1 & ? & ? & ?).
  destruct (HL "b" ltac:(by right; left)) as (n2 & ? & ? & ?).
  exists w, n1, n2. split; [exact Hr|]. repeat (split; [assumption|]). congruence.
Qed.
