(* ===== verification/RaftLog.v ===== *)
(** * The replicated log of one node

    The consistency invariant of a node's log ([wf]), its agreement with the
    storage ([disk]), and what the log-carrying handlers do to both: the merge
    of received entries, commitment, snapshots, restart.  The handlers are
    shown free of out-of-range accesses on the way ([wp False]). *)
From S2P Require Import Prelude RaftTypes RaftNode RaftVotes.

(** ** Merging received entries

    The reference for receiver rules 3 and 4: [k] is the position in [log]
    where [es] begins; the log is kept as long as terms agree, and replaced
    from the first disagreement on. *)
Fixpoint merge (log : list LogEntry) (k : nat) (es : list LogEntry) : list LogEntry :=
  match es with
  | [] => log
  | e :: rest =>
      match log !! k with
      | Some e' => if (Term e' =? Term e)%N then merge log (S k) rest else take k log ++ e :: rest
      | None => log ++ e :: rest
      end
  end.

(** Position [k + j] of the log agrees with entry [j] as far as both go and
    [k + j < bound]. *)
Definition agree_upto (log : list LogEntry) (k : nat) (es : list LogEntry) (bound : nat) : Prop :=
  ∀ j e e', es !! j = Some e → log !! (k + j) = Some e' → k + j < bound → Term e' = Term e.

Lemma agree_upto_tail log k e es bound :
  agree_upto log k (e :: es) bound → agree_upto log (S k) es bound.
Proof.
  intros H j x x' Hx Hx' Hb. apply (H (S j)); [done| |lia].
  by replace (k + S j) with (S k + j) by lia.
Qed.

(** A log no shorter than [n] keeps its first [n] entries. *)
Lemma merge_take log k es n :
  n ≤ length log → agree_upto log k es n ∨ n ≤ k → take n (merge log k es) = take n log.
Proof.
  revert k. induction es as [|e es IH]; intros k Hn Hag; [done|]. cbn.
  destruct (log !! k) as [e'|] eqn:Hk.
  - destruct (N.eqb_spec (Term e') (Term e)) as [Heq|Hneq].
    + apply IH; [done|]. destruct Hag as [Hag|]; [left|right; lia]. by eapply agree_upto_tail.
    + assert (n ≤ k) as Hnk.
      { destruct Hag as [Hag|]; [|done]. destruct (decide (n ≤ k)) as [|Hlt]; [done|].
        exfalso. apply Hneq. apply (Hag 0); [done| |lia]. by rewrite Nat.add_0_r. }
      apply lookup_lt_Some in Hk. rewrite take_app_le by (rewrite length_take; lia).
      rewrite take_take. f_equal. lia.
  - rewrite take_app_le; done.
Qed.

Lemma merge_prefix log k es : k ≤ length log → take k (merge log k es) = take k log.
Proof. intros H. apply merge_take; auto. Qed.

(** Every received entry is in the merged log, by term. *)
Lemma merge_has log k es j e :
  k ≤ length log → es !! j = Some e →
  ∃ e', merge log k es !! (k + j) = Some e' ∧ Term e' = Term e.
Proof.
  revert k j. induction es as [|e0 es IH]; intros k j Hk Hj; [done|]. cbn.
  destruct (log !! k) as [e'|] eqn:He.
  - pose proof (lookup_lt_Some _ _ _ He) as Hlt.
    destruct (N.eqb_spec (Term e') (Term e0)) as [Heq|Hneq].
    + destruct j as [|j]; simplify_eq/=.
      * exists e'. split; [|done]. rewrite Nat.add_0_r, <- He.
        rewrite <- (lookup_take_lt (merge log (S k) es) (S k)) by lia.
        rewrite merge_prefix by lia. apply lookup_take_lt. lia.
      * destruct (IH (S k) j) as (x & Hx & ?); [lia|done|]. exists x.
        by replace (k + S j) with (S k + j) by lia.
    + exists e. split; [|done].
      rewrite lookup_app_r by (rewrite length_take; lia).
      rewrite length_take. by replace (k + j - k `min` length log) with j by lia.
  - apply lookup_ge_None in He. exists e. split; [|done].
    rewrite lookup_app_r by lia. by replace (k + j - length log) with j by lia.
Qed.

(** When nothing disagrees and nothing is new, the log is unchanged. *)
Lemma merge_same log k es :
  k + length es ≤ length log → agree_upto log k es (k + length es) → merge log k es = log.
Proof.
  revert k. induction es as [|e es IH]; intros k Hlen Hag; [done|]. cbn in *.
  destruct (lookup_lt_is_Some_2 log k ltac:(lia)) as [e' He]. rewrite He.
  rewrite (Hag 0 e e'); [|done|by rewrite Nat.add_0_r|lia].
  rewrite N.eqb_refl. apply IH; [lia|]. eapply agree_upto_tail.
  by replace (S k + length es) with (k + S (length es)) by lia.
Qed.

Lemma merge_length log k es :
  k ≤ length log → merge log k es = log ∧ k + length es ≤ length log ∨
                   length (merge log k es) = k + length es.
Proof.
  revert k. induction es as [|e es IH]; intros k Hk; cbn; [left; split; [done|lia]|].
  destruct (log !! k) as [e'|] eqn:He.
  - apply lookup_lt_Some in He. destruct (N.eqb_spec (Term e') (Term e)).
    + destruct (IH (S k) ltac:(lia)) as [[? ?]|?]; [left; split; [done|lia]|right; lia].
    + right. rewrite length_app, length_take. cbn. lia.
  - apply lookup_ge_None in He. right. rewrite length_app. cbn. lia.
Qed.

(** A duplicated or retried RPC is a no-op. *)
Lemma merge_idemp log k es :
  k ≤ length log → merge (merge log k es) k es = merge log k es.
Proof.
  intros Hk. apply merge_same.
  - destruct (merge_length log k es Hk) as [[-> ?]| ->]; lia.
  - intros j e e' He He' _. destruct (merge_has log k es j e Hk He) as (x & Hx & ?). congruence.
Qed.

Lemma merge_first log k es : log ≠ [] → 0 < k → first_index (merge log k es) = first_index log.
Proof.
  intros Hne Hk. assert (1 ≤ length log) by (destruct log; cbn; [done|lia]).
  rewrite <- (first_index_take (merge log k es) 1) by lia.
  rewrite merge_take; [|done|right; lia]. apply first_index_take. lia.
Qed.

Lemma merge_wf log k es :
  log_wf log → 0 < k ≤ length log →
  contiguous (first_index log + N.of_nat k) es → log_wf (merge log k es).
Proof.
  intros Hwf. revert k. induction es as [|e es IH]; intros k Hk Hc; [done|]. cbn [merge].
  pose proof (log_wf_length _ Hwf). assert (log ≠ []) by (by destruct log).
  destruct (log !! k) as [e'|] eqn:He.
  - apply lookup_lt_Some in He. destruct (N.eqb_spec (Term e') (Term e)).
    + apply IH; [lia|]. destruct Hc as [_ Hc].
      by replace (first_index log + N.of_nat (S k))%N with (first_index log + N.of_nat k + 1)%N by lia.
    + apply log_wf_app; [apply log_wf_take; [done|lia]|].
      rewrite next_index_take by lia. by replace (k `min` length log) with k by lia.
  - apply lookup_ge_None in He. apply log_wf_app; [done|].
    unfold next_index. by replace (length log) with k by lia.
Qed.

Lemma merge_Forall (P : LogEntry → Prop) log k es :
  Forall P log → Forall P es → Forall P (merge log k es).
Proof.
  intros Hl. revert k. induction es as [|e es IH]; intros k Hes; [done|]. cbn.
  inversion Hes; subst. destruct (log !! k); [destruct (_ =? _)%N; [auto|]|];
    apply Forall_app; split; auto; by apply Forall_take.
Qed.

(** ** Node invariants *)
Definition first_term (l : list LogEntry) : N :=
  match l with [] => 0 | b :: _ => Term b end.

(** Two logs that differ at most in the boundary entry's command. *)
Definition same_log (l1 l2 : list LogEntry) : Prop :=
  first_index l1 = first_index l2 ∧ first_term l1 = first_term l2 ∧ tail l1 = tail l2.

Section Log.
Context {S : Type} `{StorageSpec S}.
Implicit Types (n : Node S).

(** The in-memory log and the positions in it are consistent. *)
Record wf n : Prop := {
  wf_log : log_wf (n_log n);
  wf_first : first_index (n_log n) = n_lastIncludedIndex n;
  wf_bterm : first_term (n_log n) = n_lastIncludedTerm n;
  wf_bound : (next_index (n_log n) ≤ two63)%N;
  wf_applied : (n_lastIncludedIndex n ≤ n_lastApplied n)%N;
  wf_committed : (n_lastApplied n ≤ n_commitIndex n)%N;
  wf_commit : (n_commitIndex n < next_index (n_log n))%N;
  wf_term : (n_currentTerm n < two64)%N;
  wf_terms : Forall (λ e, Term e < two64)%N (n_log n);
}.

(** Unless the node is disabled, the storage holds exactly its state. *)
Definition disk n : Prop :=
  n_failed n = false →
  sto_ok (n_storage n) ∧
  CurrentTerm (view (n_storage n)) = n_currentTerm n ∧
  VotedFor (view (n_storage n)) = n_votedFor n ∧
  SnapshotData (view (n_storage n)) = n_snapshotData n ∧
  same_log (Log (view (n_storage n))) (n_log n).

(** Everything but the log, the storage and the failure flag is the same. *)
Record log_frame n n' : Prop := {
  lf_cfg : n_cfg n' = n_cfg n;
  lf_role : n_role n' = n_role n;
  lf_term : n_currentTerm n' = n_currentTerm n;
  lf_vote : n_votedFor n' = n_votedFor n;
  lf_leader : n_leaderID n' = n_leaderID n;
  lf_commit : n_commitIndex n' = n_commitIndex n;
  lf_lii : n_lastIncludedIndex n' = n_lastIncludedIndex n;
  lf_lit : n_lastIncludedTerm n' = n_lastIncludedTerm n;
  lf_snap : n_snapshotData n' = n_snapshotData n;
  lf_applied : n_lastApplied n' = n_lastApplied n;
  lf_pending : n_pendingSnapshot n' = n_pendingSnapshot n;
  lf_next : n_nextIndex n' = n_nextIndex n;
  lf_match : n_matchIndex n' = n_matchIndex n;
}.

Lemma log_frame_refl n : log_frame n n.
Proof. by split. Qed.

Lemma log_frame_trans n1 n2 n3 : log_frame n1 n2 → log_frame n2 n3 → log_frame n1 n3.
Proof. intros [] []. split; congruence. Qed.

Lemma same_log_next (l1 l2 : list LogEntry) :
  same_log l1 l2 → log_wf l1 → log_wf l2 → next_index l1 = next_index l2.
Proof.
  intros (Hf & _ & Ht) W1 W2. unfold next_index. destruct l1, l2; cbn in *; try done.
  subst. lia.
Qed.

Lemma same_log_app (l1 l2 es : list LogEntry) :
  l1 ≠ [] → l2 ≠ [] → same_log l1 l2 → same_log (l1 ++ es) (l2 ++ es).
Proof. destruct l1, l2; try done. intros _ _ (? & ? & Ht). cbn in *. by subst. Qed.

Lemma same_log_take (l1 l2 : list LogEntry) k :
  0 < k → same_log l1 l2 → same_log (take k l1) (take k l2).
Proof.
  intros Hk (Hf & Ht & Htl). destruct k as [|k]; [lia|].
  destruct l1 as [|a l1], l2 as [|b l2]; cbn in *; subst; try done; by rewrite take_nil.
Qed.

Lemma log_ne (l : list LogEntry) : log_wf l → l ≠ [].
Proof. by destruct l. Qed.

(** *** Reading the log *)
Section reads.
Context n (Hwf : log_wf (n_log n))
  (Hfirst : first_index (n_log n) = n_lastIncludedIndex n)
  (Hbound : (next_index (n_log n) ≤ two63)%N).

Lemma lastIndex_val : lastIndexLocked n = Val (next_index (n_log n) - 1)%N.
Proof.
  unfold lastIndexLocked, slice_last.
  destruct (last (n_log n)) as [e|] eqn:E.
  - apply (last_log_Index _ _ Hwf) in E. f_equal. lia.
  - apply last_None in E. by apply log_ne in Hwf.
Qed.

Lemma entryAt_val i :
  (n_lastIncludedIndex n ≤ i < next_index (n_log n))%N →
  ∃ e, n_log n !! N.to_nat (i - n_lastIncludedIndex n) = Some e ∧
    entryAtLocked n i = Val e ∧ Index e = i.
Proof.
  intros Hi. pose proof two63_lt_two64. unfold next_index in *.
  destruct (lookup_lt_is_Some_2 (n_log n) (N.to_nat (i - n_lastIncludedIndex n)) ltac:(lia))
    as [e He]. exists e. split; [done|]. split.
  - unfold entryAtLocked. rewrite u64_sub_small by lia. by apply slice_get_Some.
  - rewrite (log_lookup_Index _ _ _ Hwf He). lia.
Qed.

Lemma termAt_val i :
  (n_lastIncludedIndex n ≤ i < next_index (n_log n))%N →
  ∃ e, n_log n !! N.to_nat (i - n_lastIncludedIndex n) = Some e ∧
    termAtLocked n i = Val (Term e).
Proof.
  intros Hi. destruct (entryAt_val i Hi) as (e & He & Hval & _).
  exists e. split; [done|]. unfold termAtLocked. by rewrite Hval.
Qed.
End reads.

(** *** Writing the log *)

(** The storage's log is the node's, so the storage's preconditions follow
    from the node's invariant. *)
Lemma disk_next n :
  disk n → n_failed n = false → log_wf (n_log n) →
  sto_ok (n_storage n) ∧ log_wf (Log (view (n_storage n))) ∧
  next_index (Log (view (n_storage n))) = next_index (n_log n) ∧
  first_index (Log (view (n_storage n))) = first_index (n_log n).
Proof.
  intros Hd Hf Hw. destruct (Hd Hf) as (Hok & _ & _ & _ & Hsame).
  pose proof (view_wf _ Hok) as Hvw. repeat split; try done.
  - by apply same_log_next.
  - apply Hsame.
Qed.

Lemma disable_spec n err :
  wp False (disableLocked err) (λ _ n', log_frame n n' ∧ n_log n' = n_log n ∧
    n_failed n' = true) n.
Proof. unfold disableLocked. repeat wp_step. split; [by split|done]. Qed.

(** Post-condition of the helpers that change the log. *)
Definition log_becomes n (l : list LogEntry) n' : Prop :=
  log_frame n n' ∧ n_log n' = l ∧ disk n'.

Lemma appendLog_spec n es :
  disk n → n_failed n = false → log_wf (n_log n) →
  contiguous (next_index (n_log n)) es →
  (next_index (n_log n) + N.of_nat (length es) ≤ two63)%N → Forall entry_fits es →
  wp False (appendLogLocked es) (λ _, log_becomes n (n_log n ++ es)) n.
Proof.
  intros Hd Hf Hw Hc Hb Hfit. destruct (disk_next _ Hd Hf Hw) as (Hok & Hvw & Hnx & _).
  unfold appendLogLocked, storage_call. do 4 wp_step.
  eapply wp_mono; [|apply append_spec; cbn [n_storage set_log]; rewrite ?Hnx; done].
  cbn. intros [err|] st Hst.
  - eapply wp_mono; [|apply disable_spec]. cbn. intros _ n' (Hfr & Hl & Hf').
    split; [eapply log_frame_trans; [|done]; by split|]. split; [done|]. by intros ?; congruence.
  - destruct (Hst eq_refl) as [Hok' Hview]. wp_step. split; [by split|]. split; [done|].
    intros _. cbn. destruct (Hd Hf) as (_ & ? & ? & ? & Hsame). rewrite Hview. cbn.
    split; [done|]. split; [done|]. split; [done|]. split; [done|].
    apply same_log_app; by apply log_ne || done.
Qed.

Lemma truncateLog_spec n from :
  disk n → n_failed n = false → log_wf (n_log n) →
  first_index (n_log n) = n_lastIncludedIndex n →
  (n_lastIncludedIndex n < from < next_index (n_log n))%N →
  (next_index (n_log n) ≤ two63)%N →
  wp False (truncateLogLocked from) (λ _, log_becomes n
    (take (N.to_nat (from - n_lastIncludedIndex n)) (n_log n))) n.
Proof.
  intros Hd Hf Hw Hfi Hfrom Hb. destruct (disk_next _ Hd Hf Hw) as (Hok & Hvw & Hnx & Hfx).
  pose proof two63_lt_two64. unfold truncateLogLocked, storage_call. do 3 wp_step.
  eapply wp_lift_Val.
  { rewrite u64_sub_small by lia. apply slice_to_le. unfold next_index in *. lia. }
  cbn. do 4 wp_step. eapply wp_mono; [|apply truncate_spec; cbn [n_storage set_log]; rewrite ?Hnx, ?Hfx; try done; lia].
  cbn. intros [err|] st Hst.
  - eapply wp_mono; [|apply disable_spec]. cbn. intros _ n' (Hfr & Hl & Hf').
    split; [eapply log_frame_trans; [|done]; by split|]. split; [done|]. by intros ?; congruence.
  - destruct (Hst eq_refl) as [Hok' Hview]. wp_step. split; [by split|]. split; [done|].
    intros _. cbn. destruct (Hd Hf) as (_ & ? & ? & ? & Hsame). rewrite Hview. cbn.
    split; [done|]. split; [done|]. split; [done|]. split; [done|].
    rewrite Hfx, Hfi. apply same_log_take; [lia|done].
Qed.

(** *** The entry loop computes [merge] *)
Lemma append_loop_spec n k es :
  disk n → n_failed n = false → log_wf (n_log n) →
  first_index (n_log n) = n_lastIncludedIndex n → (next_index (n_log n) ≤ two63)%N →
  0 < k ≤ length (n_log n) → contiguous (n_lastIncludedIndex n + N.of_nat k) es →
  (n_lastIncludedIndex n + N.of_nat k + N.of_nat (length es) ≤ two63)%N →
  Forall entry_fits es →
  wp False (append_loop (n_lastIncludedIndex n + N.of_nat k) es)
    (λ _ n', log_frame n n' ∧ disk n' ∧
      (n_failed n' = false → n_log n' = merge (n_log n) k es)) n.
Proof.
  intros Hd Hf Hw Hfi Hb. revert k. induction es as [|e es IH]; intros k Hk Hc Hes Hfit.
  { split; [apply log_frame_refl|done]. }
  pose proof two63_lt_two64. cbn [append_loop merge]. do 3 wp_step.
  eapply wp_lift_Val; [by apply lastIndex_val|]. cbn [length] in Hes.
  destruct (N.leb_spec (n_lastIncludedIndex n + N.of_nat k) (next_index (n_log n) - 1)) as [Hle|Hgt].
  - assert (k < length (n_log n)) as Hlt by (unfold next_index in *; lia).
    wp_step. destruct (termAt_val n Hw Hfi Hb (n_lastIncludedIndex n + N.of_nat k)) as (e' & He' & Ht).
    { unfold next_index in *. lia. }
    replace (N.to_nat (n_lastIncludedIndex n + N.of_nat k - n_lastIncludedIndex n))
      with k in He' by lia.
    eapply wp_lift_Val; [exact Ht|]. cbn. rewrite He'.
    destruct (N.eqb_spec (Term e') (Term e)).
    + rewrite u64_add_small by lia.
      replace (n_lastIncludedIndex n + N.of_nat k + 1)%N
        with (n_lastIncludedIndex n + N.of_nat (Datatypes.S k))%N by lia.
      apply IH; [lia| |lia|by inversion Hfit]. destruct Hc as [_ Hc].
      by replace (n_lastIncludedIndex n + N.of_nat (Datatypes.S k))%N
        with (n_lastIncludedIndex n + N.of_nat k + 1)%N by lia.
    + wp_step. eapply wp_mono; [|apply truncateLog_spec; try done; unfold next_index in *; lia].
      replace (N.to_nat (n_lastIncludedIndex n + N.of_nat k - n_lastIncludedIndex n)) with k by lia.
      cbn. intros _ n1 (Hfr1 & Hl1 & Hd1). do 2 wp_step.
      destruct (n_failed n1) eqn:Hf1; [wp_step; by rewrite Hf1|].
      assert (next_index (n_log n1) = n_lastIncludedIndex n + N.of_nat k)%N as Hn1.
      { rewrite Hl1, next_index_take by lia. rewrite Hfi. lia. }
      eapply wp_mono; [|apply appendLog_spec; rewrite ?Hn1; try done].
      * cbn. intros _ n2 (Hfr2 & Hl2 & Hd2). split; [by eapply log_frame_trans|].
        split; [done|]. intros _. by rewrite Hl2, Hl1.
      * rewrite Hl1. apply log_wf_take; [done|lia].
  - assert (k = length (n_log n)) as Hkl by (unfold next_index in *; lia).
    assert (next_index (n_log n) = n_lastIncludedIndex n + N.of_nat k)%N as Hn1
      by (unfold next_index in *; lia).
    rewrite (lookup_ge_None_2 (n_log n) k) by lia.
    eapply wp_mono; [|apply appendLog_spec; rewrite ?Hn1; try done].
    cbn. intros _ n2 (Hfr2 & Hl2 & Hd2). auto.
Qed.

(** ** Hard-state changes leave the log alone *)
Record core_frame n n' : Prop := {
  cf_cfg : n_cfg n' = n_cfg n;
  cf_log : n_log n' = n_log n;
  cf_commit : n_commitIndex n' = n_commitIndex n;
  cf_lii : n_lastIncludedIndex n' = n_lastIncludedIndex n;
  cf_lit : n_lastIncludedTerm n' = n_lastIncludedTerm n;
  cf_snap : n_snapshotData n' = n_snapshotData n;
  cf_applied : n_lastApplied n' = n_lastApplied n;
  cf_pending : n_pendingSnapshot n' = n_pendingSnapshot n;
  cf_next : n_nextIndex n' = n_nextIndex n;
}.

Lemma core_frame_refl n : core_frame n n.
Proof. by split. Qed.

Lemma core_frame_trans n1 n2 n3 : core_frame n1 n2 → core_frame n2 n3 → core_frame n1 n3.
Proof. intros [] []. split; congruence. Qed.

Lemma wf_core n n' : wf n → core_frame n n' → (n_currentTerm n' < two64)%N → wf n'.
Proof. intros [] [Hc Hl Hco Hi Hit Hs Ha Hp Hn] Ht. split; rewrite ?Hl, ?Hco, ?Hi, ?Hit, ?Ha; try done. Qed.

(** A node in service: enabled, consistent, and in agreement with its disk. *)
Definition node_ok n : Prop := n_failed n = false ∧ wf n ∧ disk n.

Lemma saveHardState_spec n t v :
  n_failed n = false → disk n → (t < two64)%N → vote_fits v →
  wp False (saveHardStateLocked t v) (λ _ n', core_frame n n' ∧ disk n' ∧
    n_role n' = n_role n ∧ n_currentTerm n' = t ∧ n_votedFor n' = v) n.
Proof.
  intros Hf Hd Ht Hv. destruct (Hd Hf) as (Hok & _ & _ & Hs & Hl).
  unfold saveHardStateLocked, storage_call. do 6 wp_step.
  eapply wp_mono; [|by apply save_hard_spec]. cbn. intros [err|] st Hst.
  - unfold disableLocked. repeat wp_step. split; [by split|]. split; [by intros ?|done].
  - destruct (Hst eq_refl) as [Hok' Hview]. wp_step. split; [by split|]. split; [|done].
    intros _. cbn. rewrite Hview. done.
Qed.

Lemma becomeFollower_spec n t :
  n_failed n = false → disk n → (t < two64)%N →
  wp False (becomeFollowerLocked t) (λ _ n', core_frame n n' ∧ disk n' ∧
    n_role n' = Follower ∧ n_currentTerm n' = N.max (n_currentTerm n) t) n.
Proof.
  intros Hf Hd Ht. unfold becomeFollowerLocked. do 4 wp_step. wp_step; reflect_guards.
  - eapply wp_mono; [|apply saveHardState_spec; [done|done|done|apply vote_fits_none]].
    cbn. intros _ n' ([] & Hd' & Hr & Ht' & _). split; [by split|].
    split; [done|]. split; [done|]. rewrite Ht'. lia.
  - split; [by split|]. split; [done|]. split; [done|]. cbn. lia.
Qed.

Lemma observeLeader_spec n e t l :
  node_ok n → (t < two64)%N → (n_currentTerm n ≤ t)%N →
  wp False (observeLeader e t l) (λ _ n', core_frame n n' ∧
    (n_failed n' = false → node_ok n' ∧ n_currentTerm n' = t ∧ n_leaderID n' = l)) n.
Proof.
  intros (Hf & Hw & Hd) Ht Hle. unfold observeLeader, resetElectionDeadlineLocked. do 3 wp_step.
  eapply (wp_mono _ _ (λ _ n1, core_frame n n1 ∧ disk n1 ∧ n_currentTerm n1 = t)).
  - cbn. intros _ n1 (Hfr & Hd1 & Ht1). do 2 wp_step.
    destruct (n_failed n1) eqn:Hf1; [wp_step; split; [done|congruence]|].
    repeat wp_step. split; [by eapply core_frame_trans; [|split]|]. intros _.
    split; [|done]. split; [done|]. split; [|done]. eapply wf_core; [done| |cbn; lia].
    by eapply core_frame_trans; [|split].
  - wp_step; reflect_guards.
    + eapply wp_mono; [|by apply becomeFollower_spec]. cbn.
      intros _ n' (? & ? & _ & ->). split; [done|]. split; [done|lia].
    + wp_step; [wp_step|]; (split; [by split|split; [done|cbn; lia]]).
Qed.

(** ** AppendEntries

    The reference semantics: which requests pass the consistency check, and
    what the log is afterwards. *)
Definition ae_skip n (args : AppendEntriesArgs) : nat :=
  N.to_nat (n_lastIncludedIndex n - ae_PrevLogIndex args).

(** Slice position of the first entry that is not dropped. *)
Definition ae_pos n (args : AppendEntriesArgs) : nat :=
  N.to_nat (N.max (ae_PrevLogIndex args) (n_lastIncludedIndex n) - n_lastIncludedIndex n) + 1.

Definition ae_log n (args : AppendEntriesArgs) : list LogEntry :=
  merge (n_log n) (ae_pos n args) (drop (ae_skip n args) (ae_Entries args)).

Definition ae_consistent n (args : AppendEntriesArgs) : bool :=
  if (ae_PrevLogIndex args <? n_lastIncludedIndex n)%N then true
  else match n_log n !! N.to_nat (ae_PrevLogIndex args - n_lastIncludedIndex n) with
       | Some e => (Term e =? ae_PrevLogTerm args)%N
       | None => false
       end.

(** The commit index after a successful request. *)
Definition ae_commit n (args : AppendEntriesArgs) (l : list LogEntry) : N :=
  if (ae_PrevLogIndex args <? n_lastIncludedIndex n)%N &&
     bool_decide (length (ae_Entries args) ≤ ae_skip n args)
  then n_commitIndex n
  else if (n_commitIndex n <? ae_LeaderCommit args)%N
  then N.min (ae_LeaderCommit args) (next_index l - 1)
  else n_commitIndex n.

(** What the receiver may assume of a request: consecutive entries of
    representable size, agreeing with everything it has committed. *)
Record ae_valid n (args : AppendEntriesArgs) : Prop := {
  av_term : (ae_Term args < two64)%N;
  av_terms : Forall (λ e, Term e < two64)%N (ae_Entries args);
  av_contiguous : contiguous (ae_PrevLogIndex args + 1) (ae_Entries args);
  av_bound : (ae_PrevLogIndex args + 1 + N.of_nat (length (ae_Entries args)) ≤ two63)%N;
  av_fits : Forall entry_fits (ae_Entries args);
  av_safe e e' : e ∈ ae_Entries args → e' ∈ n_log n → Index e' = Index e →
    (n_lastIncludedIndex n < Index e ≤ n_commitIndex n)%N → Term e' = Term e;
}.

(** The committed part of the log is a prefix of the merged one. *)
Lemma merge_keeps_committed n (k : nat) es :
  wf n → 0 < k ≤ length (n_log n) →
  contiguous (n_lastIncludedIndex n + N.of_nat k) es →
  (∀ e e', e ∈ es → e' ∈ n_log n → Index e' = Index e →
    (n_lastIncludedIndex n < Index e ≤ n_commitIndex n)%N → Term e' = Term e) →
  let c := N.to_nat (n_commitIndex n - n_lastIncludedIndex n) + 1 in
  take c (merge (n_log n) k es) = take c (n_log n).
Proof.
  intros Hw Hk Hc Hsafe c. pose proof (wf_first _ Hw). pose proof (wf_commit _ Hw).
  pose proof (wf_applied _ Hw). pose proof (wf_committed _ Hw).
  apply merge_take; [unfold c, next_index in *; lia|]. left.
  intros j e e' He He' Hlt.
  pose proof (contiguous_lookup _ _ _ _ Hc He) as HIe.
  pose proof (log_lookup_Index _ _ _ (wf_log _ Hw) He') as HIe'.
  apply Hsafe; [by eapply list_elem_of_lookup_2|by eapply list_elem_of_lookup_2|lia|].
  unfold c in Hlt. lia.
Qed.

(** The fast-backup hint of a refusal. *)
Definition ae_conflict n (args : AppendEntriesArgs) : N * N :=
  match n_log n !! N.to_nat (ae_PrevLogIndex args - n_lastIncludedIndex n) with
  | Some e => (Term e, firstIndexOfTermLocked n (Term e))
  | None => (0%N, next_index (n_log n))
  end.

Definition ae_reply n (args : AppendEntriesArgs) (t : N) : AppendEntriesReply :=
  if ae_consistent n args then MkAEReply t true 0 0
  else MkAEReply t false (ae_conflict n args).1 (ae_conflict n args).2.

(** Outcome of a request the node did not refuse as stale. *)
Definition ae_post n (args : AppendEntriesArgs) (t : N)
    (r : AppendEntriesReply + option error) n' : Prop :=
  match r with
  | inr _ => n_failed n' = true
  | inl rep =>
      node_ok n' ∧ n_currentTerm n' = t ∧ rep = ae_reply n args t ∧
      n_lastIncludedIndex n' = n_lastIncludedIndex n ∧ n_lastApplied n' = n_lastApplied n ∧
      if ae_consistent n args
      then n_log n' = ae_log n args ∧ n_commitIndex n' = ae_commit n args (n_log n')
      else n_log n' = n_log n ∧ n_commitIndex n' = n_commitIndex n
  end.

(** Storing the merged log keeps the node in service. *)
Lemma merged_ok n n' (k : nat) es :
  wf n → log_frame n n' → disk n' → n_failed n' = false → 0 < k ≤ length (n_log n) →
  contiguous (n_lastIncludedIndex n + N.of_nat k) es → Forall (λ e, Term e < two64)%N es →
  (n_lastIncludedIndex n + N.of_nat k + N.of_nat (length es) ≤ two63)%N →
  (∀ e e', e ∈ es → e' ∈ n_log n → Index e' = Index e →
    (n_lastIncludedIndex n < Index e ≤ n_commitIndex n)%N → Term e' = Term e) →
  n_log n' = merge (n_log n) k es → node_ok n'.
Proof.
  intros Hw [] Hd Hf Hk Hc Hte Hb Hsafe Hl. split; [done|]. split; [|done].
  pose proof (merge_keeps_committed n k es Hw Hk Hc Hsafe) as Htake. cbn in Htake.
  destruct Hw as [Wl Wf Wb Wbo Wa Wc Wco Wt Wts]. pose proof (log_ne _ Wl).
  assert (first_index (n_log n') = n_lastIncludedIndex n) as Hfi.
  { rewrite Hl, merge_first; [done|done|lia]. }
  split; rewrite ?lf_lii0, ?lf_lit0, ?lf_applied0, ?lf_commit0, ?lf_term0; try done.
  - rewrite Hl. apply merge_wf; [done|lia|by rewrite Wf].
  - rewrite <- Wb, Hl. apply (f_equal first_term) in Htake. revert Htake.
    rewrite Nat.add_1_r. destruct (merge _ _ _), (n_log n); cbn; congruence.
  - unfold next_index in *. rewrite Hfi, Hl.
    destruct (merge_length (n_log n) k es ltac:(lia)) as [[-> ?]| ->]; lia.
  - apply (f_equal length) in Htake. rewrite !length_take in Htake. rewrite <- Hl in Htake.
    unfold next_index in *. lia.
  - rewrite Hl. by apply merge_Forall.
Qed.

Lemma node_ok_commit n c :
  node_ok n → (n_commitIndex n ≤ c < next_index (n_log n))%N →
  node_ok (set_applyWake true (set_commitIndex c n)).
Proof.
  intros (Hf & [] & Hd) Hc. split; [done|]. split; [|done]. split; cbn; try done; lia.
Qed.

Lemma appendEntries_checked_spec n args :
  node_ok n → ae_valid n args → (n_lastIncludedIndex n ≤ ae_PrevLogIndex args)%N →
  wp False (appendEntries_checked args) (ae_post n args (n_currentTerm n)) n.
Proof.
  intros Hok [Ht Hte Hc Hb Hfit Hsafe] Hle. pose proof Hok as (Hf & Hw & Hd).
  destruct (Hw) as [Wl Wf Wb Wbo Wa Wc Wco Wt Wts]. pose proof two63_lt_two64.
  pose proof (log_wf_length _ Wl) as Hlen.
  unfold appendEntries_checked, ae_post, ae_reply, ae_consistent, ae_conflict. do 3 wp_step.
  eapply wp_lift_Val; [by apply lastIndex_val|].
  destruct (N.ltb_spec (ae_PrevLogIndex args) (n_lastIncludedIndex n)); [lia|].
  destruct (N.ltb_spec (next_index (n_log n) - 1) (ae_PrevLogIndex args)) as [Hgt|Hin].
  { wp_step. rewrite lookup_ge_None_2 by (unfold next_index in *; lia).
    rewrite u64_add_small by (unfold next_index in *; lia).
    replace (next_index (n_log n) - 1 + 1)%N with (next_index (n_log n))
      by (unfold next_index; lia). done. }
  assert (ae_PrevLogIndex args < next_index (n_log n))%N as Hprev by (unfold next_index in *; lia).
  destruct (termAt_val n Wl Wf Wbo (ae_PrevLogIndex args) ltac:(lia)) as (e & He & Hterm).
  wp_step. eapply wp_lift_Val; [exact Hterm|]. rewrite He.
  destruct (N.eqb_spec (Term e) (ae_PrevLogTerm args)) as [Heq|Hneq]; cbn [negb].
  2:{ wp_step. done. }
  wp_step. rewrite u64_add_small by lia.
  assert (ae_pos n args = N.to_nat (ae_PrevLogIndex args + 1 - n_lastIncludedIndex n)) as Hpos
    by (unfold ae_pos; lia).
  assert (ae_PrevLogIndex args + 1 = n_lastIncludedIndex n + N.of_nat (ae_pos n args))%N as Hidx
    by lia.
  assert (ae_log n args = merge (n_log n) (ae_pos n args) (ae_Entries args)) as Hal.
  { unfold ae_log, ae_skip. by replace (N.to_nat _) with 0 by lia. }
  assert (0 < ae_pos n args ≤ length (n_log n)) as Hk by (unfold next_index in *; lia).
  rewrite Hidx in Hc, Hb |- *. eapply wp_mono; [|by apply append_loop_spec].
  cbn. intros _ n1 (Hfr & Hd1 & Hl1). do 2 wp_step.
  destruct (n_failed n1) eqn:Hf1; [unfold fail_reply; by repeat wp_step|].
  assert (node_ok n1) as Hok1 by (by eapply merged_ok; eauto).
  pose proof Hok1 as (_ & [Wl1 Wf1 Wb1 Wbo1 Wa1 Wc1 Wco1 Wt1 Wts1] & _).
  wp_step. eapply wp_lift_Val; [by apply lastIndex_val|]. wp_step.
  destruct Hfr. unfold ae_commit. rewrite (proj2 (N.ltb_ge (ae_PrevLogIndex args) (n_lastIncludedIndex n))) by lia. cbn [andb].
  rewrite <- lf_commit0. unfold notifyApply.
  wp_step; reflect_guards.
  - rewrite (proj2 (N.ltb_lt _ _)) by done. repeat wp_step.
    split; [apply node_ok_commit; [done|lia]|]. cbn. rewrite Hal, lf_term0. auto 10.
  - rewrite (proj2 (N.ltb_ge _ _)) by done. wp_step. rewrite Hal, lf_term0. auto 10.
Qed.

Lemma ae_post_frame n n1 args t r n' :
  core_frame n n1 → ae_post n1 args t r n' → ae_post n args t r n'.
Proof.
  intros [Hc Hl Hco Hi Hit Hs Ha Hp Hn].
  unfold ae_post, ae_reply, ae_conflict, firstIndexOfTermLocked, ae_log, ae_commit, ae_consistent,
    ae_pos, ae_skip. by rewrite Hl, Hco, Hi, Ha.
Qed.

Lemma ae_valid_frame n n1 args : core_frame n n1 → ae_valid n args → ae_valid n1 args.
Proof. intros [] []. split; rewrite ?cf_log0, ?cf_commit0, ?cf_lii0; done. Qed.

(** Dropping what the snapshot covers and anchoring at its boundary is
    equivalent to the original request. *)
Definition reanchor n (args : AppendEntriesArgs) : AppendEntriesArgs :=
  MkAEArgs (ae_Term args) (ae_LeaderID args) (n_lastIncludedIndex n) (n_lastIncludedTerm n)
    (drop (ae_skip n args) (ae_Entries args)) (ae_LeaderCommit args).

Lemma reanchor_valid n args :
  ae_valid n args → (ae_PrevLogIndex args < n_lastIncludedIndex n)%N →
  ae_skip n args < length (ae_Entries args) → ae_valid n (reanchor n args).
Proof.
  intros [Ht Hte Hc Hb Hfit Hsafe] Hlt Hskip. unfold ae_skip in *. split; cbn; try done.
  - by apply Forall_drop.
  - apply (contiguous_drop _ (ae_skip n args)) in Hc. unfold ae_skip in *.
    by replace (n_lastIncludedIndex n + 1)%N with (ae_PrevLogIndex args + 1 +
      N.of_nat (N.to_nat (n_lastIncludedIndex n - ae_PrevLogIndex args)))%N by lia.
  - rewrite length_drop. unfold ae_skip in *. lia.
  - by apply Forall_drop.
  - intros e x He. apply Hsafe. by eapply subseteq_drop.
Qed.

Lemma reanchor_post n args t r n' :
  wf n → (ae_PrevLogIndex args < n_lastIncludedIndex n)%N →
  ae_skip n args < length (ae_Entries args) →
  ae_post n (reanchor n args) t r n' → ae_post n args t r n'.
Proof.
  intros Hw Hlt Hskip.
  assert (ae_consistent n (reanchor n args) = true) as Hc1.
  { unfold ae_consistent. cbn. rewrite N.ltb_irrefl, N.sub_diag.
    rewrite <- (wf_bterm _ Hw). pose proof (wf_log _ Hw).
    destruct (n_log n); [done|]. apply N.eqb_refl. }
  assert (ae_consistent n args = true) as Hc2.
  { unfold ae_consistent. by rewrite (proj2 (N.ltb_lt _ _) Hlt). }
  unfold ae_post, ae_reply. rewrite Hc1, Hc2.
  assert (ae_log n (reanchor n args) = ae_log n args) as ->.
  { unfold ae_log.
    replace (ae_pos n (reanchor n args)) with (ae_pos n args) by (unfold ae_pos; cbn [reanchor ae_PrevLogIndex]; lia).
    by replace (ae_skip n (reanchor n args)) with 0 by (unfold ae_skip; cbn [reanchor ae_PrevLogIndex]; lia). }
  destruct r as [rep|]; [|done].
  assert (ae_commit n (reanchor n args) (n_log n') = ae_commit n args (n_log n')) as ->; [|done].
  unfold ae_commit. cbn [reanchor ae_PrevLogIndex ae_Entries ae_LeaderCommit].
  rewrite N.ltb_irrefl. cbn [andb].
  rewrite (bool_decide_false (length (ae_Entries args) ≤ ae_skip n args)) by lia.
  by rewrite andb_false_r.
Qed.

(** Nothing beyond the boundary was sent. *)
Lemma covered_post n args t :
  node_ok n → (ae_PrevLogIndex args < n_lastIncludedIndex n)%N →
  length (ae_Entries args) ≤ ae_skip n args → n_currentTerm n = t →
  ae_post n args t (inl (MkAEReply t true 0 0)) n.
Proof.
  intros Hok Hlt Hskip Ht. unfold ae_post, ae_reply, ae_consistent, ae_log, ae_commit.
  rewrite (proj2 (N.ltb_lt _ _) Hlt), (drop_ge _ _ Hskip), bool_decide_true by done. done.
Qed.

Lemma handleAppendEntries_spec n e args :
  node_ok n → ae_valid n args →
  wp False (handleAppendEntries e args) (λ r n',
    if (ae_Term args <? n_currentTerm n)%N
    then r = inl (MkAEReply (n_currentTerm n) false 0 0) ∧ n' = n
    else ae_post n args (ae_Term args) r n') n.
Proof.
  intros Hok Hv. pose proof Hok as (Hf & Hw & Hd). pose proof two63_lt_two64.
  unfold handleAppendEntries, fail_reply. do 2 wp_step. rewrite Hf.
  destruct (N.ltb_spec (ae_Term args) (n_currentTerm n)) as [|Hle]; [by wp_step|]. wp_step.
  eapply wp_mono; [|apply observeLeader_spec; [done|apply Hv|done]].
  cbn. intros _ n1 [Hfr Hok1]. do 2 wp_step. destruct (n_failed n1) eqn:Hf1; [by repeat wp_step|].
  destruct (Hok1 eq_refl) as (Hok2 & Ht1 & _). pose proof Hok2 as (_ & Hw1 & _).
  pose proof (ae_valid_frame _ _ _ Hfr Hv) as Hv1.
  eapply wp_mono; [intros r n'; by apply ae_post_frame|].
  destruct (N.ltb_spec (ae_PrevLogIndex args) (n_lastIncludedIndex n1)) as [Hlt|Hge].
  2:{ rewrite <- Ht1. by apply appendEntries_checked_spec. }
  pose proof (wf_commit _ Hw1). pose proof (wf_applied _ Hw1). pose proof (wf_committed _ Hw1).
  pose proof (wf_bound _ Hw1). rewrite u64_sub_small by lia.
  destruct (N.leb_spec (N.of_nat (length (ae_Entries args))) (n_lastIncludedIndex n1 - ae_PrevLogIndex args)).
  - wp_step. rewrite Ht1. apply covered_post; [done|done|unfold ae_skip; lia|done].
  - wp_step. eapply wp_lift_Val; [apply slice_from_le; lia|].
    assert (ae_skip n1 args < length (ae_Entries args)) as Hskip by (unfold ae_skip; lia).
    eapply wp_mono; [intros r n'; by apply reanchor_post|]. rewrite <- Ht1.
    apply (appendEntries_checked_spec n1 (reanchor n1 args)); [done|by apply reanchor_valid|done].
Qed.

(** What the reference merge gives for a request that passes the check. *)
Lemma ae_pos_range n args :
  wf n → ae_consistent n args = true → 0 < ae_pos n args ≤ length (n_log n).
Proof.
  intros Hw. unfold ae_consistent, ae_pos. pose proof (log_wf_length _ (wf_log _ Hw)).
  destruct (N.ltb_spec (ae_PrevLogIndex args) (n_lastIncludedIndex n)); [lia|].
  destruct (n_log n !! _) as [e|] eqn:He; [|done]. apply lookup_lt_Some in He. lia.
Qed.

Lemma ae_dropped_contiguous n args :
  ae_valid n args →
  contiguous (n_lastIncludedIndex n + N.of_nat (ae_pos n args)) (drop (ae_skip n args) (ae_Entries args)).
Proof.
  intros Hv. pose proof (contiguous_drop _ (ae_skip n args) _ (av_contiguous _ _ Hv)) as Hc.
  unfold ae_pos, ae_skip in *.
  by replace (n_lastIncludedIndex n + _)%N with
    (ae_PrevLogIndex args + 1 + N.of_nat (N.to_nat (n_lastIncludedIndex n - ae_PrevLogIndex args)))%N by lia.
Qed.

Lemma ae_merge_facts n args :
  node_ok n → ae_valid n args → ae_consistent n args = true →
  let c := N.to_nat (n_commitIndex n - n_lastIncludedIndex n) + 1 in
  take c (ae_log n args) = take c (n_log n) ∧
  ∀ x, x ∈ ae_Entries args → (n_lastIncludedIndex n < Index x)%N →
    ∃ k y, ae_log n args !! k = Some y ∧ 0 < k ∧ Index y = Index x ∧ Term y = Term x.
Proof.
  intros (_ & Hw & _) Hv Hco c. pose proof (ae_pos_range _ _ Hw Hco) as Hk.
  pose proof (ae_dropped_contiguous _ _ Hv) as Hc. split.
  - apply merge_keeps_committed; [done|done|done|]. intros e e' He. apply (av_safe _ _ Hv).
    by eapply subseteq_drop.
  - intros x (j & Hj)%list_elem_of_lookup Hi.
    pose proof (contiguous_lookup _ _ _ _ (av_contiguous _ _ Hv) Hj) as Hix.
    assert (ae_skip n args ≤ j) as Hsk by (unfold ae_skip; lia).
    assert (drop (ae_skip n args) (ae_Entries args) !! (j - ae_skip n args) = Some x) as Hd.
    { rewrite lookup_drop. by replace (ae_skip n args + (j - ae_skip n args)) with j by lia. }
    destruct (merge_has (n_log n) (ae_pos n args) _ _ _ (proj2 Hk) Hd) as (y & Hy & Ht).
    exists (ae_pos n args + (j - ae_skip n args)), y. split; [exact Hy|]. split; [lia|].
    split; [|done].
    assert (log_wf (ae_log n args)) as Hwf.
    { apply merge_wf; [apply Hw|done|]. by rewrite (wf_first _ Hw). }
    rewrite (log_lookup_Index _ _ _ Hwf Hy). unfold ae_log at 1.
    rewrite merge_first by (by apply log_ne, Hw) || lia.
    rewrite (wf_first _ Hw), Hix. unfold ae_pos, ae_skip in *. lia.
Qed.

(** The same request against the log it produced. *)
Lemma ae_again n n' args :
  node_ok n → node_ok n' → ae_valid n args → ae_consistent n args = true →
  n_lastIncludedIndex n' = n_lastIncludedIndex n → n_log n' = ae_log n args →
  n_commitIndex n' = ae_commit n args (n_log n') →
  ae_valid n' args ∧ ae_consistent n' args = true ∧ ae_log n' args = n_log n' ∧
  ae_commit n' args (n_log n') = n_commitIndex n'.
Proof.
  intros Hok Hok' Hv Hco Hlii Hl Hcm. destruct (ae_merge_facts n args Hok Hv Hco) as [_ Hhas].
  pose proof (proj1 (proj2 Hok)) as Hw. pose proof (proj1 (proj2 Hok')) as Hw'.
  pose proof (ae_pos_range _ _ Hw Hco) as Hk.
  split; [|split; [|split]].
  - destruct Hv as [Ht Hts Hc Hb Hfit _]. split; [done..|].
    intros x y Hx (j & Hy)%list_elem_of_lookup Hi [Hlt _]. rewrite Hlii in Hlt.
    destruct (Hhas x Hx Hlt) as (k & z & Hz & _ & Hiz & Htz). rewrite <- Hl in Hz.
    pose proof (log_lookup_Index _ _ _ (wf_log _ Hw') Hy) as E1.
    pose proof (log_lookup_Index _ _ _ (wf_log _ Hw') Hz) as E2.
    assert (j = k) by lia. congruence.
  - unfold ae_consistent in *. rewrite Hlii.
    destruct (N.ltb_spec (ae_PrevLogIndex args) (n_lastIncludedIndex n)); [done|].
    rewrite Hl. unfold ae_log.
    rewrite <- (lookup_take_lt _ (ae_pos n args)) by (unfold ae_pos; lia).
    rewrite merge_prefix by lia. rewrite lookup_take_lt by (unfold ae_pos; lia). done.
  - unfold ae_log at 1. unfold ae_pos, ae_skip in *. rewrite Hlii, Hl. unfold ae_log, ae_pos, ae_skip.
    apply merge_idemp. lia.
  - rewrite Hcm. unfold ae_commit, ae_skip in *. rewrite Hlii. destruct (_ && _) eqn:E; [done|].
    destruct (N.ltb_spec (n_commitIndex n) (ae_LeaderCommit args));
      destruct (N.ltb_spec (n_commitIndex n') (ae_LeaderCommit args)); lia.
Qed.
End Log.
