(* ===== verification/RaftReplicate.v ===== *)
(** * Replication, commitment, snapshots and restart of one node

    On top of [RaftLog]: what every other operation of a node does to its log
    and to its storage, the commit rule, the apply loop, compaction and
    recovery; and the invariant that ties them together: a node in service
    that is given well-formed messages stays in service or disables itself,
    and never panics. *)
From S2P Require Import Prelude RaftTypes MemoryStorage RaftNode RaftVotes RaftCluster RaftLog.

Section Replicate.
Context {S : Type} `{StorageSpec S}.
Implicit Types (n : Node S).

(** In service, or disabled by a storage error. *)
Definition serves n : Prop := n_failed n = false → node_ok n.

Lemma serves_ok n : node_ok n → serves n.
Proof. by intros ? _. Qed.

Lemma serves_core n n1 :
  wf n → core_frame n n1 → disk n1 → (n_currentTerm n1 < two64)%N → serves n1.
Proof. intros Hw Hfr Hd Ht Hf. split; [done|]. split; [by eapply wf_core|done]. Qed.

Lemma node_ok_core n n1 :
  node_ok n → core_frame n n1 → n_failed n1 = n_failed n → n_storage n1 = n_storage n →
  n_currentTerm n1 = n_currentTerm n → n_votedFor n1 = n_votedFor n → node_ok n1.
Proof.
  intros (Hf & Hw & Hd) Hfr Ef Es Et Ev. pose proof (wf_term _ Hw).
  split; [congruence|]. split; [eapply wf_core; [done|done|congruence]|].
  intros _. rewrite Es, Et, Ev, (cf_snap _ _ Hfr), (cf_log _ _ Hfr). by apply Hd.
Qed.

(** Fields no invariant reads. *)
Lemma node_ok_role n r : node_ok n → node_ok (set_role r n).
Proof. intros Hok. by apply (node_ok_core n). Qed.

(** ** Votes and candidacy *)
Lemma becomeCandidate_spec n e :
  node_ok n → vote_fits (n_id n) →
  wp False (becomeCandidateLocked e) (λ _ n', core_frame n n' ∧ serves n' ∧
    n_role n' = Candidate ∧ n_currentTerm n' = u64_add (n_currentTerm n) 1 ∧
    n_votedFor n' = n_id n) n.
Proof.
  intros (Hf & Hw & Hd) Hv. unfold becomeCandidateLocked. do 7 wp_step.
  set (n1 := set_leaderID "" (set_role Candidate n)).
  eapply wp_mono; [|apply (saveHardState_spec n1); [done|done|apply u64_lt|done]].
  cbn. intros _ n2 (Hfr & Hd2 & Hr & Ht & Hvo). do 2 wp_step.
  assert (core_frame n n2) as Hfr' by (by eapply core_frame_trans; [|exact Hfr]; split).
  assert (serves n2) as Hs.
  { eapply serves_core; [exact Hw|done|done|]. rewrite Ht. apply u64_lt. }
  destruct (n_failed n2) eqn:Hf2; [by wp_step|]. unfold resetElectionDeadlineLocked. wp_step.
  split; [by eapply core_frame_trans; [|split]|]. split; [|done].
  apply serves_ok. by apply (node_ok_core n2 _ (Hs Hf2)).
Qed.

Lemma becomeFollower_serves n t :
  node_ok n → (t < two64)%N →
  wp False (becomeFollowerLocked t) (λ _ n', core_frame n n' ∧ serves n' ∧
    n_role n' = Follower ∧ n_currentTerm n' = N.max (n_currentTerm n) t) n.
Proof.
  intros (Hf & Hw & Hd) Ht. eapply wp_mono; [|by apply becomeFollower_spec].
  cbn. intros _ n' (Hfr & Hd' & Hr & Ht'). split; [done|]. split; [|done].
  eapply serves_core; [done..|]. rewrite Ht'. pose proof (wf_term _ Hw). lia.
Qed.

Lemma lastLogInfo_val n :
  wf n → ∃ e, last (n_log n) = Some e ∧ lastLogInfoLocked n = Val (Index e, Term e).
Proof.
  intros Hw. unfold lastLogInfoLocked, slice_last. destruct (last (n_log n)) as [e|] eqn:E; [eauto|].
  apply last_None in E. pose proof (wf_log _ Hw). by rewrite E in *.
Qed.

(** The voting rule: what is granted and what the log says about it. *)
Definition up_to_date n (args : RequestVoteArgs) : Prop :=
  ∀ e, last (n_log n) = Some e →
    (Term e < rv_LastLogTerm args)%N ∨
    (Term e = rv_LastLogTerm args ∧ (Index e ≤ rv_LastLogIndex args)%N).

Lemma handleRequestVote_spec n e args :
  node_ok n → (rv_Term args < two64)%N → vote_fits (rv_CandidateID args) →
  wp False (handleRequestVote e args) (λ r n', core_frame n n' ∧ serves n' ∧
    match r with
    | inl rep => rvr_Term rep = n_currentTerm n' ∧
        (rvr_VoteGranted rep = true →
           up_to_date n args ∧ n_currentTerm n' = rv_Term args ∧
           n_votedFor n' = rv_CandidateID args ∧ n_failed n' = false)
    | inr _ => n_failed n' = true
    end) n.
Proof.
  intros Hok Ht Hv. pose proof Hok as (Hf & Hw & Hd).
  unfold handleRequestVote, fail_reply. do 2 wp_step. rewrite Hf. wp_step.
  eapply (wp_mono _ _ (λ _ n1, core_frame n n1 ∧ serves n1 ∧ (rv_Term args ≤ n_currentTerm n1)%N)).
  2:{ wp_step; reflect_guards; [|split; [apply core_frame_refl|by split]].
      eapply wp_mono; [|by apply becomeFollower_serves].
      cbn. intros _ n1 (? & ? & _ & ->). split; [done|]. split; [done|lia]. }
  cbn. intros _ n1 (Hfr & Hs & Hle). do 2 wp_step.
  destruct (n_failed n1) eqn:Hf1; [by repeat wp_step|].
  pose proof (Hs Hf1) as Hok1. pose proof Hok1 as (_ & Hw1 & Hd1).
  destruct (N.ltb_spec (rv_Term args) (n_currentTerm n1)); [by repeat wp_step|].
  assert (n_currentTerm n1 = rv_Term args) as Heq by lia.
  destruct (lastLogInfo_val n1 Hw1) as (l & Hl & Hval).
  wp_step. unfold candidateLogUpToDateLocked. rewrite Hval. eapply wp_lift_Val; [done|].
  destruct (canVote n1 _ && _) eqn:Hc; [|by repeat wp_step]. wp_step.
  eapply wp_mono; [|by apply saveHardState_spec; [|done|apply Hw1|]].
  cbn. intros _ n2 (Hfr2 & Hd2 & _ & Ht2 & Hv2). do 2 wp_step.
  assert (core_frame n n2) as Hfr' by (by eapply core_frame_trans).
  assert (serves n2) as Hs2.
  { eapply serves_core; [exact Hw1|done|done|]. rewrite Ht2. apply Hw1. }
  destruct (n_failed n2) eqn:Hf2; [by repeat wp_step|].
  unfold resetElectionDeadlineLocked. repeat wp_step.
  split; [by eapply core_frame_trans; [|split]|].
  split; [by apply serves_ok, (node_ok_core n2 _ (Hs2 Hf2))|]. cbn.
  split; [done|]. intros _. split; [|split; [congruence|done]].
  intros x Hx. rewrite <- (cf_log _ _ Hfr) in Hx. rewrite Hl in Hx. injection Hx as <-.
  apply andb_true_iff in Hc as [_ Hc]. destruct (N.eqb_spec (rv_LastLogTerm args) (Term l)); cbn in Hc;
    reflect_guards; lia.
Qed.

(** ** Commitment *)

(** The commit rule as the code counts: an entry of the current term, after
    the commit index, stored by [len(peers)/2 + 1] processes. *)
Definition may_commit n (i : N) : Prop :=
  (n_commitIndex n < i < next_index (n_log n))%N ∧
  (∃ e, n_log n !! N.to_nat (i - n_lastIncludedIndex n) = Some e ∧ Term e = n_currentTerm n) ∧
  majority_of (n_peers n) ≤
    1 + length (filter (λ p, (i ≤ map_get (n_matchIndex n) p)%N) (n_peers n)).

Lemma replica_count_filter n i :
  replica_count n i =
  1 + length (filter (λ p, (i ≤ map_get (n_matchIndex n) p)%N) (n_peers n)).
Proof.
  unfold replica_count.
  enough (∀ ps c, foldl (λ count p,
      if (i <=? map_get (n_matchIndex n) p)%N then count + 1 else count) c ps =
    c + length (filter (λ p, (i ≤ map_get (n_matchIndex n) p)%N) ps)) as Hg by apply Hg.
  induction ps as [|p ps IH]; intros c; [cbn; lia|]. cbn [foldl]. rewrite filter_cons, IH.
  destruct (N.leb_spec i (map_get (n_matchIndex n) p)).
  - rewrite decide_True by done. cbn [length]. lia.
  - by rewrite decide_False by lia.
Qed.

(** The loop finds the largest index the rule allows. *)
Lemma scan_commit_spec n k :
  wf n → (n_commitIndex n + N.of_nat k < next_index (n_log n))%N →
  match scan_commit n k with
  | Val (Some i) => may_commit n i ∧
      ∀ j, may_commit n j → (j ≤ n_commitIndex n + N.of_nat k)%N → (j ≤ i)%N
  | Val None => ∀ j, may_commit n j → (n_commitIndex n + N.of_nat k < j)%N
  | Panic => False
  end.
Proof.
  intros Hw. pose proof (wf_applied _ Hw). pose proof (wf_committed _ Hw).
  induction k as [|k IH]; intros Hk; [cbn; intros j [? _]; lia|]. cbn [scan_commit].
  set (idx := (n_commitIndex n + N.of_nat (Datatypes.S k))%N) in *.
  destruct (termAt_val n (wf_log _ Hw) (wf_first _ Hw) (wf_bound _ Hw) idx) as (e & He & ->); [lia|].
  specialize (IH ltac:(lia)).
  assert (¬ may_commit n idx → match scan_commit n k with
    | Val (Some i) => may_commit n i ∧ ∀ j, may_commit n j → (j ≤ idx)%N → (j ≤ i)%N
    | Val None => ∀ j, may_commit n j → (idx < j)%N
    | Panic => False end) as Hskip.
  { intros Hno. destruct (scan_commit n k) as [[i|]|]; [|intros j Hj|done].
    - destruct IH as [? IH]. split; [done|]. intros j Hj Hle. apply IH; [done|].
      assert (j ≠ idx) by congruence. lia.
    - specialize (IH j Hj). assert (j ≠ idx) by congruence. lia. }
  destruct (N.eqb_spec (Term e) (n_currentTerm n)) as [Ht|Ht]; cbn [negb].
  2:{ apply Hskip. intros (_ & (e' & He' & Ht') & _). congruence. }
  rewrite replica_count_filter. destruct (Nat.leb_spec (majority_of (n_peers n))
    (1 + length (filter (λ p, (idx ≤ map_get (n_matchIndex n) p)%N) (n_peers n)))) as [Hm|Hm].
  - split; [|by intros]. split; [lia|]. split; [by exists e|done].
  - apply Hskip. intros (_ & _ & ?). lia.
Qed.

Definition commit_outcome n n' : Prop :=
  (n_role n = Leader ∧ ∃ i, may_commit n i ∧ (∀ j, may_commit n j → (j ≤ i)%N) ∧
     n' = set_applyWake true (set_commitIndex i n)) ∨
  ((n_role n = Leader → ∀ j, ¬ may_commit n j) ∧ n' = n).

Lemma maybeAdvanceCommit_spec n :
  wf n → wp False maybeAdvanceCommitLocked (λ _ n', commit_outcome n n') n.
Proof.
  intros Hw. unfold maybeAdvanceCommitLocked, notifyApply, commit_outcome. do 2 wp_step.
  case_bool_decide as Hr; cbn [negb]; [|wp_step; right; by split].
  wp_step. eapply wp_lift_Val; [by apply lastIndex_val; destruct Hw|]. wp_step.
  pose proof (wf_commit _ Hw). set (k := N.to_nat (next_index (n_log n) - 1 - n_commitIndex n)).
  pose proof (scan_commit_spec n k Hw ltac:(lia)) as Hscan.
  destruct (scan_commit n k) as [found|]; [|done]. eapply wp_lift_Val; [done|].
  destruct found as [i|].
  - destruct Hscan as [Hi Hmax]. repeat wp_step. left. split; [done|]. exists i. split; [done|].
    split; [|done]. intros j Hj. apply Hmax; [done|]. destruct Hj. lia.
  - wp_step. right. split; [|done]. intros _ j Hj. specialize (Hscan j Hj). destruct Hj. lia.
Qed.

Lemma commit_outcome_ok n n' : node_ok n → commit_outcome n n' → node_ok n'.
Proof.
  intros Hok [(_ & i & [Hi _] & _ & ->)|[_ ->]]; [|done]. apply node_ok_commit; [done|lia].
Qed.

(** ** Propose *)
Lemma node_ok_append n n' es :
  node_ok n → log_becomes n (n_log n ++ es) n' → n_failed n' = false →
  contiguous (next_index (n_log n)) es → Forall (λ e, Term e < two64)%N es →
  (next_index (n_log n) + N.of_nat (length es) ≤ two63)%N → node_ok n'.
Proof.
  intros (Hf & Hw & Hd) (Hfr & Hl & Hd') Hf' Hc Hte Hb. split; [done|]. split; [|done].
  destruct Hw as [Wl Wf Wb Wbo Wa Wc Wco Wt Wts]. pose proof (log_ne _ Wl).
  assert (first_index (n_log n ++ es) = n_lastIncludedIndex n) by (by rewrite first_index_app).
  split; rewrite ?Hl, ?(lf_lii _ _ Hfr), ?(lf_applied _ _ Hfr), ?(lf_commit _ _ Hfr),
    ?(lf_term _ _ Hfr); try done.
  - by apply log_wf_app.
  - rewrite (lf_lit _ _ Hfr), <- Wb. by destruct (n_log n).
  - by rewrite next_index_app.
  - rewrite next_index_app by done. lia.
  - by apply Forall_app.
Qed.

(** A leader appends its entry, then looks for something to commit. *)
Lemma Propose_steps n command :
  node_ok n → (next_index (n_log n) < two63)%N →
  entry_fits (MkEntry (n_currentTerm n) (next_index (n_log n)) command) →
  wp False (Propose command) (λ r n',
    if decide (n_role n = Leader)
    then ∃ n1, log_becomes n (n_log n ++ [MkEntry (n_currentTerm n) (next_index (n_log n)) command]) n1 ∧
      (n_failed n1 = true ∧ n' = n1 ∧ r = (0%N, 0%N, false) ∨
       node_ok n1 ∧ commit_outcome n1 n' ∧ r = (next_index (n_log n), n_currentTerm n, true))
    else r = (0%N, 0%N, false) ∧ n' = n) n.
Proof.
  intros Hok Hb Hfit. pose proof Hok as (Hf & Hw & Hd). pose proof two63_lt_two64.
  unfold Propose. do 2 wp_step. rewrite Hf. cbn [orb].
  destruct (decide (n_role n = Leader)) as [Hr|Hr].
  2:{ rewrite bool_decide_false by done. by wp_step. }
  rewrite bool_decide_true by done. cbn [negb]. wp_step.
  eapply wp_lift_Val; [by apply lastIndex_val; destruct Hw|]. cbv zeta.
  pose proof (wf_commit _ Hw).
  rewrite u64_add_small by lia. replace (next_index (n_log n) - 1 + 1)%N with (next_index (n_log n)) by lia.
  set (e := MkEntry _ _ _). wp_step.
  eapply wp_mono; [|apply (appendLog_spec n [e]); [done|done|apply Hw|by split|cbn; lia|by constructor]].
  cbn. intros _ n1 Hb1. do 2 wp_step. destruct (n_failed n1) eqn:Hf1.
  - wp_step. exists n1. split; [done|]. by left.
  - assert (node_ok n1) as Hok1 by (eapply node_ok_append; [done|done|done|by split|repeat constructor; apply Hw|cbn; lia]).
    wp_step. eapply wp_mono; [|apply maybeAdvanceCommit_spec, Hok1]. cbn. intros _ n2 Hco. wp_step.
    exists n1. split; [done|]. by right.
Qed.

Lemma Propose_spec n command :
  node_ok n → (next_index (n_log n) < two63)%N →
  entry_fits (MkEntry (n_currentTerm n) (next_index (n_log n)) command) →
  wp False (Propose command) (λ r n',
    if decide (n_role n = Leader)
    then log_frame n (set_applyWake (n_applyWake n) (set_commitIndex (n_commitIndex n) n')) ∧
         (n_failed n' = true ∧ r = (0%N, 0%N, false) ∨
          node_ok n' ∧ r = (next_index (n_log n), n_currentTerm n, true) ∧
          n_log n' = n_log n ++ [MkEntry (n_currentTerm n) (next_index (n_log n)) command] ∧
          (n_commitIndex n ≤ n_commitIndex n')%N)
    else r = (0%N, 0%N, false) ∧ n' = n) n.
Proof.
  intros Hok Hb Hfit. eapply wp_mono; [|by apply Propose_steps]. cbn beta. intros r n' Hr.
  case_decide; [|done]. destruct Hr as (n1 & (Hfr & Hl & _) & [(Hf1 & -> & ->)|(Hok1 & Hco & ->)]).
  - split; [destruct Hfr; by split|]. by left.
  - pose proof (commit_outcome_ok _ _ Hok1 Hco) as Hok2.
    destruct Hfr, Hco as [(_ & i & [Hi _] & _ & ->)|[_ ->]]; (split; [by split|]); right;
      (split; [done|]; split; [done|]; split; [done|]); cbn; rewrite <- lf_commit; lia.
Qed.

(** ** Compaction *)

(** Cutting the log at [i]: both compaction and a snapshot that agrees with
    the log do this; [same_log] abstracts from the boundary's command. *)
Lemma same_log_drop (l1 l2 : list LogEntry) k e lii :
  log_wf l2 → first_index l1 = first_index l2 → same_log l1 l2 → l2 !! k = Some e →
  Index e = lii → 0 < k →
  same_log (boundary lii (Term e) :: drop (k + 1) l1) (drop k l2).
Proof.
  intros Hw _ (_ & _ & Ht) Hk Hi Hpos. rewrite (drop_S _ _ _ Hk). split; [done|]. split; [done|].
  cbn [tail]. rewrite Nat.add_1_r.
  destruct l1 as [|a l1], l2 as [|b l2]; cbn [tail] in Ht; subst; cbn [drop]; by rewrite ?drop_nil.
Qed.

(** The node after its log was cut at [i]. *)
Record cut_at n (i : N) (t : N) (data : bytes) n' : Prop := {
  cut_cfg : n_cfg n' = n_cfg n;
  cut_log : same_log (n_log n') (drop (N.to_nat (i - n_lastIncludedIndex n)) (n_log n));
  cut_lii : n_lastIncludedIndex n' = i;
  cut_lit : n_lastIncludedTerm n' = t;
  cut_data : n_snapshotData n' = data;
  cut_applied : n_lastApplied n' = N.max (n_lastApplied n) i;
  cut_commit : n_commitIndex n' = N.max (n_commitIndex n) i;
  cut_term : n_currentTerm n' = n_currentTerm n;
  cut_vote : n_votedFor n' = n_votedFor n;
  cut_next : n_nextIndex n' = n_nextIndex n;
}.

Lemma same_log_wf (l1 l2 : list LogEntry) :
  same_log l1 l2 → l1 ≠ [] → log_wf l2 → log_wf l1 ∧ next_index l1 = next_index l2.
Proof.
  intros (Hf & _ & Ht) Hne Hw. destruct l1 as [|a l1], l2 as [|b l2]; try done.
  cbn in Hf, Ht. subst l2. unfold next_index. cbn in *. by rewrite Hf.
Qed.

Lemma cut_ok n i e data n' :
  node_ok n → (n_lastIncludedIndex n < i < next_index (n_log n))%N →
  n_log n !! N.to_nat (i - n_lastIncludedIndex n) = Some e →
  cut_at n i (Term e) data n' → n_log n' ≠ [] → n_failed n' = false →
  sto_ok (n_storage n') →
  view (n_storage n') = ps_snapshot i (Term e) data (view (n_storage n)) → node_ok n'.
Proof.
  intros (Hf & Hw & Hd) Hi He [] Hne Hf' Hok' Hview. destruct Hw as [Wl Wf Wb Wbo Wa Wc Wco Wt Wts].
  set (k := N.to_nat (i - n_lastIncludedIndex n)) in *.
  pose proof (lookup_lt_Some _ _ _ He) as Hlt.
  pose proof (log_lookup_Index _ _ _ Wl He) as Hidx.
  pose proof (log_wf_drop _ _ Wl Hlt) as Wd.
  destruct (same_log_wf _ _ cut_log0 Hne Wd) as [Wl' Hnx].
  assert (first_index (drop k (n_log n)) = i) as Hfd.
  { rewrite (drop_S _ _ _ He). cbn. rewrite Hidx, Wf. lia. }
  assert (next_index (drop k (n_log n)) = next_index (n_log n)) as Hnd.
  { unfold next_index. rewrite Hfd, length_drop, Wf. lia. }
  pose proof cut_log0 as (Hs1 & Hs2 & _).
  split; [done|]. split.
  - split; rewrite ?cut_lii0, ?cut_lit0, ?cut_applied0, ?cut_commit0, ?cut_term0, ?Hnx, ?Hnd; try done; try lia.
    + by rewrite Hs2, (drop_S _ _ _ He).
    + pose proof (Forall_drop _ k _ Wts) as Hts. destruct cut_log0 as (_ & _ & Htl).
      destruct (n_log n') as [|b es]; [done|]. rewrite (drop_S _ _ _ He) in *. cbn in *.
      inversion Hts; subst. constructor; [congruence|done].
  - intros _. destruct (Hd Hf) as (Hok & Ht & Hv & Hsd & Hl). split; [done|]. rewrite Hview. cbn.
    split; [congruence|]. split; [congruence|]. split; [done|].
    assert (first_index (Log (view (n_storage n))) = n_lastIncludedIndex n) as ->
      by (rewrite <- Wf; apply Hl).
    fold k. pose proof (same_log_drop (Log (view (n_storage n))) (n_log n) k e i Wl (proj1 Hl) Hl He
      ltac:(rewrite Hidx, Wf; lia) ltac:(lia)) as (E1 & E2 & E3).
    destruct cut_log0 as (F1 & F2 & F3). split; [congruence|]. split; [congruence|congruence].
Qed.

Lemma disk_next' n : node_ok n →
  sto_ok (n_storage n) ∧ next_index (Log (view (n_storage n))) = next_index (n_log n) ∧
  first_index (Log (view (n_storage n))) = n_lastIncludedIndex n.
Proof.
  intros (Hf & Hw & Hd). destruct (disk_next n Hd Hf (wf_log _ Hw)) as (? & _ & ? & Hfi).
  rewrite (wf_first _ Hw) in Hfi. done.
Qed.

Lemma Snapshot_spec n index data :
  node_ok n → snapshot_fits data →
  wp False (Snapshot index data) (λ r n',
    if decide (n_lastIncludedIndex n < index ≤ n_lastApplied n)%N
    then if n_failed n' then r ≠ None
         else r = None ∧ node_ok n' ∧
           ∃ e, n_log n !! N.to_nat (index - n_lastIncludedIndex n) = Some e ∧
                cut_at n index (Term e) data n'
    else n' = n ∧ (r = None ↔ (index ≤ n_lastIncludedIndex n)%N)) n.
Proof.
  intros Hok Hfit. pose proof Hok as (Hf & Hw & Hd). pose proof two63_lt_two64.
  destruct (disk_next' _ Hok) as (Hsto & Hnx & Hfi).
  destruct (Hw) as [Wl Wf Wb Wbo Wa Wc Wco Wt Wts].
  unfold Snapshot, storage_call. do 2 wp_step. rewrite Hf.
  destruct (N.leb_spec index (n_lastIncludedIndex n)).
  { wp_step. rewrite decide_False by lia. done. }
  destruct (N.ltb_spec (n_lastApplied n) index).
  { wp_step. rewrite decide_False by lia. split; [done|]. split; [done|lia]. }
  destruct (termAt_val n Wl Wf Wbo index) as (e & He & Hterm); [lia|].
  pose proof (lookup_lt_Some _ _ _ He) as Hlt.
  wp_step. eapply wp_lift_Val; [exact Hterm|].
  wp_step. rewrite u64_sub_small by lia. eapply wp_lift_Val; [apply slice_from_le; lia|].
  wp_step. rewrite (drop_S _ _ _ He). eapply wp_lift_Val; [done|]. cbn [clear_first_command].
  do 2 wp_step. eapply wp_mono; [|apply snapshot_spec; rewrite ?Hnx, ?Hfi; try done; try lia].
  2:{ apply (Forall_lookup_1 _ _ _ _ Wts He). }
  intros [err|] st Hst; cbn beta iota.
  - unfold disableLocked. repeat wp_step. case_decide; [done|lia].
  - destruct (Hst eq_refl) as [Hok' Hview]. case_decide; [|lia]. repeat wp_step.
    cbn. rewrite Hf. split; [done|].
    assert (cut_at n index (Term e) data (set_snapshotData data (set_lastIncludedTerm (Term e)
      (set_lastIncludedIndex index (set_log (MkEntry (Term e) (Index e) [] ::
        drop (Datatypes.S (N.to_nat (index - n_lastIncludedIndex n))) (n_log n))
        (set_storage st n)))))) as Hcut.
    { split; cbn; try done; [|lia|lia]. by rewrite (drop_S _ _ _ He). }
    split; [|by exists e]. eapply cut_ok; [done| |done|exact Hcut|done|done|done|done]. lia.
Qed.
(** ** InstallSnapshot

    What the receiver may assume: sizes, and that the snapshot's last entry
    agrees with its own log where its log has that index.  (Without the last
    one the log is discarded in memory but not on disk, see
    [install_snapshot_keeps_stale_tail].) *)
Record is_valid n (args : InstallSnapshotArgs) : Prop := {
  iv_term : (is_Term args < two64)%N;
  iv_lit : (is_LastIncludedTerm args < two64)%N;
  iv_lii : (is_LastIncludedIndex args < two63)%N;
  iv_data : (0 < is_LastIncludedIndex args)%N → snapshot_fits (is_Data args);
  iv_agrees e : e ∈ n_log n → Index e = is_LastIncludedIndex args →
    Term e = is_LastIncludedTerm args;
}.

(** The node after installing a snapshot past its own. *)
Record installed n (args : InstallSnapshotArgs) n' : Prop := {
  ins_lii : n_lastIncludedIndex n' = is_LastIncludedIndex args;
  ins_lit : n_lastIncludedTerm n' = is_LastIncludedTerm args;
  ins_data : n_snapshotData n' = is_Data args;
  ins_commit : n_commitIndex n' = N.max (n_commitIndex n) (is_LastIncludedIndex args);
  ins_applied : n_lastApplied n' = N.max (n_lastApplied n) (is_LastIncludedIndex args);
  ins_pending : n_pendingSnapshot n' = Some (SnapshotMsg (is_Data args)
    (is_LastIncludedIndex args) (is_LastIncludedTerm args));
  ins_tail : tail (n_log n') =
    drop (Datatypes.S (N.to_nat (is_LastIncludedIndex args - n_lastIncludedIndex n))) (n_log n);
}.

Lemma log_has_val n idx term :
  wf n → (n_lastIncludedIndex n < idx)%N →
  log_has n idx term = Val match n_log n !! N.to_nat (idx - n_lastIncludedIndex n) with
                           | Some e => (Term e =? term)%N
                           | None => false
                           end.
Proof.
  intros [Wl Wf Wb Wbo Wa Wc Wco Wt Wts] Hlt. unfold log_has. rewrite lastIndex_val by done.
  pose proof (log_wf_length _ Wl). destruct (N.leb_spec idx (next_index (n_log n) - 1)) as [Hle|Hgt].
  - destruct (termAt_val n Wl Wf Wbo idx) as (e & He & ->); [unfold next_index in *; lia|].
    by rewrite He.
  - rewrite lookup_ge_None_2; [done|]. unfold next_index in *. lia.
Qed.

(** A snapshot past the end of the log replaces all of it. *)
Lemma replaced_ok n i t data n' :
  node_ok n → (next_index (n_log n) ≤ i)%N → (i < two63)%N → (t < two64)%N →
  n_log n' = [boundary i t] → n_lastIncludedIndex n' = i → n_lastIncludedTerm n' = t →
  n_snapshotData n' = data → n_lastApplied n' = i → n_commitIndex n' = i →
  n_currentTerm n' = n_currentTerm n → n_votedFor n' = n_votedFor n → n_failed n' = false →
  sto_ok (n_storage n') →
  view (n_storage n') = ps_snapshot i t data (view (n_storage n)) → node_ok n'.
Proof.
  intros Hok Hi Hb Ht Hl Hlii Hlit Hda Hap Hco Hte Hvo Hf' Hok' Hview.
  destruct (disk_next' _ Hok) as (_ & Hnx & Hfi). pose proof Hok as (Hf & Hw & Hd).
  split; [done|]. split.
  - split; rewrite ?Hl, ?Hlii, ?Hlit, ?Hap, ?Hco, ?Hte; unfold next_index; cbn; try done; try lia.
    + apply Hw.
    + by repeat constructor.
  - intros _. destruct (Hd Hf) as (_ & E1 & E2 & E3 & E4). rewrite Hview. cbn.
    split; [done|]. split; [congruence|]. split; [congruence|]. split; [done|]. rewrite Hl.
    split; [done|]. split; [done|]. cbn [tail boundary]. apply drop_ge.
    rewrite Hfi. unfold next_index in *. lia.
Qed.

Lemma installSnapshot_log_spec n args :
  wf n → (n_lastIncludedIndex n < is_LastIncludedIndex args)%N →
  wp False (installSnapshot_log args) (λ _ n',
    n' = set_log
      match n_log n !! N.to_nat (is_LastIncludedIndex args - n_lastIncludedIndex n) with
      | Some e => if (Term e =? is_LastIncludedTerm args)%N
                  then drop (N.to_nat (is_LastIncludedIndex args - n_lastIncludedIndex n)) (n_log n)
                  else [boundary (is_LastIncludedIndex args) (is_LastIncludedTerm args)]
      | None => [boundary (is_LastIncludedIndex args) (is_LastIncludedTerm args)]
      end n) n.
Proof.
  intros Hw Hlt. pose proof (wf_bound _ Hw). pose proof two63_lt_two64.
  pose proof (wf_applied _ Hw). pose proof (wf_committed _ Hw). pose proof (wf_commit _ Hw).
  unfold installSnapshot_log. do 3 wp_step. eapply wp_lift_Val; [by apply log_has_val|].
  destruct (n_log n !! _) as [e|] eqn:He; [|by wp_step].
  destruct (N.eqb_spec (Term e) (is_LastIncludedTerm args)); [|by wp_step].
  apply lookup_lt_Some in He. pose proof (wf_first _ Hw). unfold next_index in *.
  wp_step. rewrite u64_sub_small by lia. eapply wp_lift_Val; [apply slice_from_le; lia|].
  by wp_step.
Qed.

Lemma installSnapshot_checked_spec n args :
  node_ok n → is_valid n args → (n_lastIncludedIndex n < is_LastIncludedIndex args)%N →
  wp False (installSnapshot_checked args) (λ r n',
    match r with
    | inr _ => n_failed n' = true
    | inl rep => isr_Term rep = n_currentTerm n' ∧ n_currentTerm n' = n_currentTerm n ∧
                 node_ok n' ∧ installed n args n'
    end) n.
Proof.
  intros Hok [Ht Hlit Hlii Hda Hag] Hlt. specialize (Hda ltac:(lia)). pose proof Hok as (Hf & Hw & Hd).
  destruct (disk_next' _ Hok) as (Hsto & Hnx & Hfi). pose proof (wf_bound _ Hw).
  pose proof (wf_first _ Hw) as Hfst. pose proof (wf_commit _ Hw). pose proof (wf_committed _ Hw).
  unfold installSnapshot_checked, storage_call, fail_reply. do 2 wp_step.
  eapply wp_mono; [|by apply snapshot_spec; rewrite ?Hnx, ?Hfi].
  intros [err|] st Hst; cbn beta iota; [unfold disableLocked; by repeat wp_step|].
  destruct (Hst eq_refl) as [Hok' Hview]. wp_step.
  assert (wf (set_storage st n)) as Hws by (eapply wf_core; [exact Hw|by split|apply Hw]).
  eapply wp_mono; [|by apply (installSnapshot_log_spec _ _ Hws)].
  cbn. intros _ n1 ->. unfold notifyApply. repeat wp_step. cbn. split; [done|]. split; [done|].
  set (k := N.to_nat (is_LastIncludedIndex args - n_lastIncludedIndex n)).
  destruct (n_log n !! k) as [e|] eqn:He.
  - pose proof (lookup_lt_Some _ _ _ He) as Hk.
    pose proof (log_lookup_Index _ _ _ (wf_log _ Hw) He) as Hidx.
    assert (Term e = is_LastIncludedTerm args) as Hte.
    { apply Hag; [by eapply list_elem_of_lookup_2|]. lia. }
    rewrite (proj2 (N.eqb_eq _ _) Hte). split.
    + eapply (cut_ok n (is_LastIncludedIndex args) e (is_Data args)); [done| |exact He| | |done|done|].
      * unfold next_index. lia.
      * by split.
      * cbn. by rewrite (drop_S _ _ _ He).
      * cbn. by rewrite Hte.
    + split; cbn; try done. by rewrite (drop_S _ _ _ He).
  - apply lookup_ge_None in He. assert (next_index (n_log n) ≤ is_LastIncludedIndex args)%N
      by (unfold next_index; lia). split.
    + eapply (replaced_ok n (is_LastIncludedIndex args) (is_LastIncludedTerm args) (is_Data args));
        cbn; try done; lia.
    + split; cbn; try done. rewrite drop_ge; [done|]. lia.
Qed.

Lemma installed_core n n1 args n' : core_frame n n1 → installed n1 args n' → installed n args n'.
Proof. intros [] []. split; congruence. Qed.

Lemma is_valid_core n n1 args : core_frame n n1 → is_valid n args → is_valid n1 args.
Proof. intros Hfr []. split; try done. by rewrite (cf_log _ _ Hfr). Qed.

Lemma handleInstallSnapshot_spec n e args :
  node_ok n → is_valid n args →
  wp False (handleInstallSnapshot e args) (λ r n',
    if (is_Term args <? n_currentTerm n)%N
    then r = inl (MkISReply (n_currentTerm n)) ∧ n' = n
    else match r with
         | inr _ => n_failed n' = true
         | inl rep => rep = MkISReply (is_Term args) ∧ n_currentTerm n' = is_Term args ∧
             node_ok n' ∧
             if decide (is_LastIncludedIndex args ≤ n_lastIncludedIndex n)%N
             then core_frame n n' else installed n args n'
         end) n.
Proof.
  intros Hok Hv. pose proof Hok as (Hf & Hw & Hd). unfold handleInstallSnapshot, fail_reply.
  do 2 wp_step. rewrite Hf.
  destruct (N.ltb_spec (is_Term args) (n_currentTerm n)); [by wp_step|]. wp_step.
  eapply wp_mono; [|by apply observeLeader_spec; [|apply Hv|]].
  cbn beta. intros _ n1 [Hfr Hok1]. do 2 wp_step. destruct (n_failed n1) eqn:Hf1; [by repeat wp_step|].
  destruct (Hok1 eq_refl) as (Hok2 & Ht1 & _). rewrite (cf_lii _ _ Hfr).
  destruct (N.leb_spec (is_LastIncludedIndex args) (n_lastIncludedIndex n)).
  - wp_step. rewrite Ht1. case_decide; [done|lia].
  - eapply wp_mono; [|apply installSnapshot_checked_spec; [done|by eapply is_valid_core|]].
    + intros [rep|] n2; cbn beta iota; [|done]. intros (Hr & Ht2 & Hok3 & Hins).
      destruct rep as [t]; cbn in Hr. case_decide; [lia|]. split; [congruence|].
      split; [congruence|]. split; [done|]. by eapply installed_core.
    + by rewrite (cf_lii _ _ Hfr).
Qed.
End Replicate.
