(* ===== verification/RaftFaults.v ===== *)
(** * What a node leaves behind when its storage fails

    A failed storage operation disables the node in the middle of a critical
    section; a process that dies in one looks the same to its storage.  Here is
    what the next process may find: the state before the section, or the state
    after the writes that took effect.  [leaves] is the storage's part of the
    contract, the lemmas follow it through every critical section that writes. *)
From S2P Require Import Prelude RaftTypes RaftNode RaftVotes RaftCluster RaftLog RaftReplicate.

Section Faults.
Context {S : Type} `{StorageSpec S}.
Implicit Types (n : Node S).

(** If the node is now disabled, its storage leaves a state in [Q]. *)
Definition faulty (Q : PersistentState → Prop) n : Prop := n_failed n = true → leaves Q (n_storage n).

Lemma faulty_enabled Q n : n_failed n = false → faulty Q n.
Proof. intros Hf ?. congruence. Qed.

Lemma faulty_mono (Q Q' : PersistentState → Prop) n : (∀ ps, Q ps → Q' ps) → faulty Q n → faulty Q' n.
Proof. intros HQ Hf Hn. by eapply leaves_mono, Hf. Qed.

(** The log and the snapshot are [n]'s, the term is not behind [n]'s. *)
Definition kept n (ps : PersistentState) : Prop :=
  same_log (Log ps) (n_log n) ∧ SnapshotData ps = n_snapshotData n ∧ (n_currentTerm n ≤ CurrentTerm ps < two64)%N.

Lemma kept_frame n n1 ps :
  core_frame n n1 → (n_currentTerm n ≤ n_currentTerm n1)%N → kept n1 ps → kept n ps.
Proof. intros Hfr Ht (Hl & Hd & Hte). rewrite (cf_log _ _ Hfr), (cf_snap _ _ Hfr) in *. split; [done|]. split; [done|lia]. Qed.

Lemma faulty_frame n n1 n2 :
  core_frame n n1 → (n_currentTerm n ≤ n_currentTerm n1)%N → faulty (kept n1) n2 → faulty (kept n) n2.
Proof. intros Hfr Ht. apply faulty_mono. intros ps. by apply kept_frame. Qed.

(** ** A storage operation that fails *)
Lemma disable_fault Q err n : leaves Q (n_storage n) → wp True (disableLocked err) (λ _ n', faulty Q n') n.
Proof. intros Hl. unfold disableLocked. repeat wp_step. by intros _. Qed.

Lemma saveHardState_fault n t v :
  n_failed n = false → disk n → (n_currentTerm n ≤ t < two64)%N → vote_fits v →
  wp True (saveHardStateLocked t v) (λ _ n', faulty (kept n) n') n.
Proof.
  intros Hf Hd Ht Hv. destruct (Hd Hf) as (Hok & Et & _ & Es & Hl).
  unfold saveHardStateLocked, storage_call. do 6 wp_step.
  eapply wp_mono; [|apply (save_hard_fault (n_storage n) t v Hok); [lia|done]]. cbn. intros [err|] st Hst; [|wp_step; by apply faulty_enabled].
  apply disable_fault. cbn. eapply leaves_mono; [|by apply Hst]. intros ps [->| ->]; cbn.
  - split; [done|]. split; [done|]. rewrite Et. lia.
  - split; [done|]. split; [done|]. cbn. lia.
Qed.

Lemma becomeFollower_fault n t :
  n_failed n = false → disk n → (t < two64)%N →
  wp True (becomeFollowerLocked t) (λ _ n', faulty (kept n) n') n.
Proof.
  intros Hf Hd Ht. unfold becomeFollowerLocked. do 4 wp_step. wp_step; reflect_guards.
  - eapply wp_mono; [|apply saveHardState_fault; [done|done|cbn; lia|apply vote_fits_none]]. done.
  - by apply faulty_enabled.
Qed.

(** ** Votes *)

(** Both what a section does and what it leaves. *)
Lemma wp_paired {St A} (m : GoM St A) (Q Q' : A → St → Prop) s : wp False m Q s → wp True m Q' s → wp True m (λ a s', Q a s' ∧ Q' a s') s.
Proof. unfold wp. destruct (m s) as [[]|]; [done|done]. Qed.

Lemma startElection_fault n e :
  node_ok n → vote_fits (n_id n) → (n_currentTerm n + 1 < two64)%N →
  wp True (startElection e) (λ _ n', faulty (kept n) n') n.
Proof.
  intros (Hf & Hw & Hd) Hv Ht. unfold startElection, becomeCandidateLocked, resetElectionDeadlineLocked.
  do 3 wp_step; [congruence|]. do 8 wp_step.
  eapply wp_mono; [|apply saveHardState_fault; [done|done|cbn; rewrite u64_add_small by lia; lia|done]].
  cbn. intros _ n1 Hn1. do 2 wp_step. wp_step.
  - do 3 wp_step. wp_step; [by wp_step|]. wp_step. apply wp_lift_go; [|done]. intros last _. by wp_step.
  - do 3 wp_step. wp_step; [by wp_step|]. wp_step. apply wp_lift_go; [|done]. intros last _. by wp_step.
Qed.

Lemma handleRequestVote_fault n e args :
  node_ok n → (rv_Term args < two64)%N → vote_fits (rv_CandidateID args) →
  wp True (handleRequestVote e args) (λ _ n', faulty (kept n) n') n.
Proof.
  intros Hok Ht Hv. pose proof Hok as (Hf & Hw & Hd). pose proof (wf_term _ Hw).
  unfold handleRequestVote, fail_reply. do 2 wp_step. rewrite Hf. wp_step.
  eapply (wp_mono _ _ (λ _ n1, (core_frame n n1 ∧ serves n1 ∧ (n_currentTerm n ≤ n_currentTerm n1)%N) ∧ faulty (kept n) n1)).
  2:{ wp_step; reflect_guards.
      - apply wp_paired; [|by apply becomeFollower_fault]. eapply wp_mono; [|by apply becomeFollower_serves].
        cbn. intros _ n1 (? & ? & _ & ->). split; [done|]. split; [done|lia].
      - split; [|by apply faulty_enabled]. split; [apply core_frame_refl|]. by split. }
  cbn. intros _ n1 [(Hfr & Hs & Hle) Hfa]. do 2 wp_step.
  destruct (n_failed n1) eqn:Hf1; [by repeat wp_step|].
  destruct (Hs Hf1) as (_ & Hw1 & Hd1). pose proof (wf_term _ Hw1).
  destruct (N.ltb_spec (rv_Term args) (n_currentTerm n1)); [by repeat wp_step|].
  wp_step. apply wp_lift_go; [|done]. intros up _. wp_step; [|by wp_step]. wp_step.
  eapply wp_mono; [|by apply (saveHardState_fault n1 (n_currentTerm n1) (rv_CandidateID args))].
  cbn. intros _ n2 Hfa2. apply (faulty_frame _ _ _ Hfr Hle) in Hfa2. do 3 wp_step; [by repeat wp_step|].
  unfold resetElectionDeadlineLocked. by repeat wp_step.
Qed.

Lemma onRequestVoteReply_fault n term votes r :
  node_ok n → (rvr_Term r < two64)%N →
  wp True (onRequestVoteReply term votes r) (λ _ n', faulty (kept n) n') n.
Proof.
  intros (Hf & Hw & Hd) Ht. unfold onRequestVoteReply. do 2 wp_step. rewrite Hf. wp_step.
  - wp_step. eapply wp_mono; [|by apply becomeFollower_fault]. cbn. intros _ n1 H1'. by wp_step.
  - wp_step; [wp_step; by apply faulty_enabled|]. wp_step.
    eapply (wp_mono _ _ (λ _ n1, faulty (kept n) n1)); [intros _ n1 H1'; by wp_step|]. wp_step; [|wp_step; by apply faulty_enabled].
    unfold becomeLeaderLocked. do 6 wp_step. wp_step. apply wp_lift_go; [|done]. intros last _.
    repeat wp_step. by apply faulty_enabled.
Qed.

(** ** The log *)

(** A log while the entries [es] are merged into it at [k]: some of them have
    been stored, or what contradicts the next one has just been removed. *)
Definition partly (log : list LogEntry) (k : nat) (es l : list LogEntry) : Prop :=
  ∃ m, l = merge log k (take m es) ∨
    ∃ c e e', k ≤ c ∧ log !! c = Some e' ∧ Term e' ≠ Term e ∧
      merge log k (take m es) = take c log ++ [e] ∧ l = take c log.

Lemma partly_none log k es : partly log k es log.
Proof. exists 0. by left. Qed.

Lemma partly_next log k e e' es l :
  log !! k = Some e' → Term e' = Term e → partly log (Datatypes.S k) es l → partly log k (e :: es) l.
Proof.
  intros Hk Ht (m & Hl). exists (Datatypes.S m). cbn [take merge]. rewrite Hk, (proj2 (N.eqb_eq _ _) Ht).
  destruct Hl as [?|(c & x & x' & ? & Hl)]; [by left|right]. exists c, x, x'. split; [lia|done].
Qed.

Lemma partly_replaced log k e e' es j :
  log !! k = Some e' → Term e' ≠ Term e → partly log k (e :: es) (take k log ++ take j (e :: es)).
Proof.
  intros Hk Ht. assert (∀ m, merge log k (take (Datatypes.S m) (e :: es)) = take k log ++ e :: take m es) as Hm.
  { intros m. cbn [take merge]. by rewrite Hk, (proj2 (N.eqb_neq _ _) Ht). }
  destruct j as [|j].
  - exists 1. right. exists k, e, e'. rewrite Hm. cbn. by rewrite app_nil_r.
  - exists (Datatypes.S j). left. by rewrite Hm.
Qed.

Lemma partly_appended log es j : partly log (length log) es (log ++ take j es).
Proof.
  exists j. left. destruct (take j es) as [|e l]; cbn; [by rewrite app_nil_r|].
  by rewrite lookup_ge_None_2 by lia.
Qed.

(** The hard state and the snapshot are [n]'s, the log is in [P]. *)
Definition writing n (P : list LogEntry → Prop) (ps : PersistentState) : Prop :=
  CurrentTerm ps = n_currentTerm n ∧ SnapshotData ps = n_snapshotData n ∧ ∃ l, same_log (Log ps) l ∧ P l.

Lemma writing_mono n (P P' : list LogEntry → Prop) ps :
  (∀ l, P l → P' l) → writing n P ps → writing n P' ps.
Proof. intros HP (? & ? & l & ? & ?). split; [done|]. split; [done|]. exists l. auto. Qed.

Lemma writing_frame n n1 P ps : log_frame n n1 → writing n1 P ps → writing n P ps.
Proof. intros Hfr (? & ? & ?). split; [by rewrite <- (lf_term _ _ Hfr)|]. split; [by rewrite <- (lf_snap _ _ Hfr)|done]. Qed.

Lemma appendLog_fault n es :
  disk n → n_failed n = false → log_wf (n_log n) → contiguous (next_index (n_log n)) es →
  (next_index (n_log n) + N.of_nat (length es) ≤ two63)%N → Forall entry_fits es →
  wp True (appendLogLocked es) (λ _ n', faulty (writing n (λ l, ∃ j, l = n_log n ++ take j es)) n') n.
Proof.
  intros Hd Hf Hw Hc Hb Hfit. destruct (disk_next _ Hd Hf Hw) as (Hok & Hvw & Hnx & _).
  destruct (Hd Hf) as (_ & Et & _ & Es & Hl).
  unfold appendLogLocked, storage_call. do 4 wp_step.
  eapply wp_mono; [|apply append_fault; cbn [n_storage set_log]; rewrite ?Hnx; done].
  cbn. intros [err|] st Hst; [|wp_step; by apply faulty_enabled].
  apply disable_fault. cbn. eapply leaves_mono; [|by apply Hst]. intros ps [j ->].
  split; [done|]. split; [done|]. exists (n_log n ++ take j es). split; [|by exists j].
  apply same_log_app; by apply log_ne || done.
Qed.

Lemma truncateLog_fault n from :
  disk n → n_failed n = false → log_wf (n_log n) → first_index (n_log n) = n_lastIncludedIndex n →
  (n_lastIncludedIndex n < from < next_index (n_log n))%N → (next_index (n_log n) ≤ two63)%N →
  wp True (truncateLogLocked from) (λ _ n', faulty (writing n (λ l, l = n_log n ∨
    l = take (N.to_nat (from - n_lastIncludedIndex n)) (n_log n))) n') n.
Proof.
  intros Hd Hf Hw Hfi Hfrom Hb. destruct (disk_next _ Hd Hf Hw) as (Hok & Hvw & Hnx & Hfx).
  destruct (Hd Hf) as (_ & Et & _ & Es & Hl).
  unfold truncateLogLocked, storage_call. do 3 wp_step. apply wp_lift_go; [|done]. intros l' _.
  do 4 wp_step. eapply wp_mono; [|apply truncate_fault; cbn [n_storage set_log]; rewrite ?Hnx, ?Hfx; try done; lia].
  cbn. intros [err|] st Hst; [|wp_step; by apply faulty_enabled].
  apply disable_fault. cbn. eapply leaves_mono; [|by apply Hst]. intros ps [->| ->].
  - split; [done|]. split; [done|]. exists (n_log n). auto.
  - split; [done|]. split; [done|]. eexists. split; [|by right]. cbn. rewrite Hfx, Hfi.
    apply same_log_take; [lia|done].
Qed.
Lemma append_loop_fault n k es :
  disk n → n_failed n = false → log_wf (n_log n) →
  first_index (n_log n) = n_lastIncludedIndex n → (next_index (n_log n) ≤ two63)%N →
  0 < k ≤ length (n_log n) → contiguous (n_lastIncludedIndex n + N.of_nat k) es →
  (n_lastIncludedIndex n + N.of_nat k + N.of_nat (length es) ≤ two63)%N → Forall entry_fits es →
  wp True (append_loop (n_lastIncludedIndex n + N.of_nat k) es)
    (λ _ n', faulty (writing n (partly (n_log n) k es)) n') n.
Proof.
  intros Hd Hf Hw Hfi Hb. revert k. induction es as [|e es IH]; intros k Hk Hc Hes Hfit; [by apply faulty_enabled|].
  pose proof two63_lt_two64. cbn [append_loop]. do 3 wp_step.
  eapply wp_lift_Val; [by apply lastIndex_val|]. cbn [length] in Hes.
  destruct (N.leb_spec (n_lastIncludedIndex n + N.of_nat k) (next_index (n_log n) - 1)) as [Hle|Hgt].
  - assert (k < length (n_log n)) as Hlt by (unfold next_index in *; lia).
    wp_step. destruct (termAt_val n Hw Hfi Hb (n_lastIncludedIndex n + N.of_nat k)) as (e' & He' & Ht); [unfold next_index in *; lia|].
    replace (N.to_nat (n_lastIncludedIndex n + N.of_nat k - n_lastIncludedIndex n)) with k in He' by lia.
    eapply wp_lift_Val; [exact Ht|]. cbn. destruct (N.eqb_spec (Term e') (Term e)) as [Heq|Hneq].
    + rewrite u64_add_small by lia.
      replace (n_lastIncludedIndex n + N.of_nat k + 1)%N with (n_lastIncludedIndex n + N.of_nat (Datatypes.S k))%N by lia.
      eapply wp_mono; [|apply IH; [lia| |lia|by inversion Hfit]].
      * intros ? n'. apply faulty_mono. intros ps. apply writing_mono. intros l. by eapply partly_next.
      * destruct Hc as [_ Hc]. by replace (n_lastIncludedIndex n + N.of_nat (Datatypes.S k))%N
          with (n_lastIncludedIndex n + N.of_nat k + 1)%N by lia.
    + assert (∀ j, partly (n_log n) k (e :: es) (take k (n_log n) ++ take j (e :: es))) as Hrep
        by (intros j; by eapply partly_replaced).
      wp_step. eapply wp_mono; [|apply wp_paired; [apply truncateLog_spec|apply truncateLog_fault];
        try done; unfold next_index in *; lia].
      replace (N.to_nat (n_lastIncludedIndex n + N.of_nat k - n_lastIncludedIndex n)) with k by lia.
      cbn. intros _ n1 [(Hfr1 & Hl1 & Hd1) Hfa]. do 2 wp_step. destruct (n_failed n1) eqn:Hf1.
      * wp_step. eapply faulty_mono; [|exact Hfa]. intros ps. apply writing_mono. intros l [->| ->]; [apply partly_none|].
        specialize (Hrep 0). by rewrite app_nil_r in Hrep.
      * assert (next_index (n_log n1) = n_lastIncludedIndex n + N.of_nat k)%N as Hn1.
        { rewrite Hl1, next_index_take by lia. rewrite Hfi. lia. }
        eapply wp_mono; [|apply appendLog_fault; rewrite ?Hn1; try done; rewrite Hl1; apply log_wf_take; [done|lia]].
        cbn. intros _ n2. apply faulty_mono. intros ps Hps. eapply writing_frame, writing_mono, Hps; [done|].
        intros l [j ->]. by rewrite Hl1.
  - assert (k = length (n_log n)) as Hkl by (unfold next_index in *; lia).
    assert (next_index (n_log n) = n_lastIncludedIndex n + N.of_nat k)%N as Hn1
      by (unfold next_index in *; lia).
    eapply wp_mono; [|apply appendLog_fault; rewrite ?Hn1; try done].
    cbn. intros _ n2. apply faulty_mono. intros ps. apply writing_mono. intros l [j ->]. rewrite Hkl. apply partly_appended.
Qed.

(** ** AppendEntries *)
Definition ae_left n (args : AppendEntriesArgs) (ps : PersistentState) : Prop :=
  kept n ps ∨ (ae_consistent n args = true ∧ CurrentTerm ps = ae_Term args ∧ SnapshotData ps = n_snapshotData n ∧
    ∃ l, same_log (Log ps) l ∧ partly (n_log n) (ae_pos n args) (drop (ae_skip n args) (ae_Entries args)) l).

Lemma observeLeader_fault n e t l :
  node_ok n → (t < two64)%N → wp True (observeLeader e t l) (λ _ n', faulty (kept n) n') n.
Proof.
  intros (Hf & Hw & Hd) Ht. unfold observeLeader, resetElectionDeadlineLocked. do 3 wp_step.
  eapply (wp_mono _ _ (λ _ n1, faulty (kept n) n1)).
  - cbn. intros _ n1 Hfa. do 3 wp_step; [done|]. do 2 wp_step. wp_step. by apply faulty_enabled.
  - wp_step; [by apply becomeFollower_fault|]. wp_step; [wp_step|]; by apply faulty_enabled.
Qed.

Lemma appendEntries_checked_fault n args :
  node_ok n → ae_valid n args → (n_lastIncludedIndex n ≤ ae_PrevLogIndex args)%N →
  wp True (appendEntries_checked args) (λ _ n', faulty (λ ps, ae_consistent n args = true ∧
    writing n (partly (n_log n) (ae_pos n args) (drop (ae_skip n args) (ae_Entries args))) ps) n') n.
Proof.
  intros Hok [Ht Hte Hc Hb Hfit Hsafe] Hle. pose proof Hok as (Hf & Hw & Hd).
  destruct (Hw) as [Wl Wf Wb Wbo Wa Wc Wco Wt Wts]. pose proof two63_lt_two64.
  unfold appendEntries_checked, ae_consistent, fail_reply, notifyApply. do 3 wp_step.
  eapply wp_lift_Val; [by apply lastIndex_val|].
  destruct (N.ltb_spec (ae_PrevLogIndex args) (n_lastIncludedIndex n)); [lia|].
  destruct (N.ltb_spec (next_index (n_log n) - 1) (ae_PrevLogIndex args)) as [Hgt|Hin]; [wp_step; by apply faulty_enabled|].
  destruct (termAt_val n Wl Wf Wbo (ae_PrevLogIndex args)) as (e & He & Hterm); [unfold next_index in *; lia|].
  wp_step. eapply wp_lift_Val; [exact Hterm|]. rewrite He.
  destruct (N.eqb_spec (Term e) (ae_PrevLogTerm args)) as [Heq|Hneq]; cbn [negb]; [|wp_step; by apply faulty_enabled].
  wp_step. rewrite u64_add_small by lia.
  replace (ae_skip n args) with 0 by (unfold ae_skip; lia). rewrite drop_0.
  assert (ae_PrevLogIndex args + 1 = n_lastIncludedIndex n + N.of_nat (ae_pos n args))%N as Hidx by (unfold ae_pos; lia).
  pose proof (lookup_lt_Some _ _ _ He). rewrite Hidx in Hc, Hb |- *.
  eapply wp_mono; [|apply append_loop_fault; try done; unfold ae_pos; lia].
  cbn. intros _ n1 Hfa. apply (faulty_mono _ (λ ps, true = true ∧
    writing n (partly (n_log n) (ae_pos n args) (ae_Entries args)) ps)) in Hfa; [|done].
  do 2 wp_step. destruct (n_failed n1) eqn:Hf1; [by repeat wp_step|].
  wp_step. apply wp_lift_go; [|done]. intros last _. repeat wp_step; by apply faulty_enabled.
Qed.

Lemma handleAppendEntries_fault n e args :
  node_ok n → ae_valid n args → wp True (handleAppendEntries e args) (λ _ n', faulty (ae_left n args) n') n.
Proof.
  intros Hok Hv. pose proof Hok as (Hf & Hw & Hd). pose proof two63_lt_two64. pose proof (av_term _ _ Hv) as Ht.
  unfold handleAppendEntries, fail_reply. do 2 wp_step. rewrite Hf.
  destruct (N.ltb_spec (ae_Term args) (n_currentTerm n)) as [|Hle]; [wp_step; by apply faulty_enabled|]. wp_step.
  eapply wp_mono; [|apply wp_paired; [by apply observeLeader_spec|by apply observeLeader_fault]].
  cbn. intros _ n1 [[Hfr Hok1] Hfa]. do 2 wp_step. destruct (n_failed n1) eqn:Hf1.
  { repeat wp_step. eapply faulty_mono; [|exact Hfa]. by left. }
  destruct (Hok1 eq_refl) as (Hok2 & Ht1 & _). pose proof Hok2 as (_ & Hw1 & _).
  pose proof (ae_valid_frame _ _ _ Hfr Hv) as Hv1.
  assert (∀ ps, ae_consistent n1 args = true ∧
      writing n1 (partly (n_log n1) (ae_pos n1 args) (drop (ae_skip n1 args) (ae_Entries args))) ps → ae_left n args ps) as Hback.
  { intros ps (Hco & Et & Es & Hl). right. unfold ae_consistent, ae_pos, ae_skip in *.
    rewrite (cf_log _ _ Hfr), (cf_lii _ _ Hfr) in *. split; [done|]. split; [congruence|].
    split; [by rewrite <- (cf_snap _ _ Hfr)|done]. }
  eapply wp_mono; [intros r n'; by apply (faulty_mono _ _ _ Hback)|].
  destruct (N.ltb_spec (ae_PrevLogIndex args) (n_lastIncludedIndex n1)) as [Hlt|Hge]; [|by apply appendEntries_checked_fault].
  pose proof (wf_commit _ Hw1). pose proof (wf_applied _ Hw1). pose proof (wf_committed _ Hw1). pose proof (wf_bound _ Hw1).
  rewrite u64_sub_small by lia.
  destruct (N.leb_spec (N.of_nat (length (ae_Entries args))) (n_lastIncludedIndex n1 - ae_PrevLogIndex args)).
  - wp_step. by apply faulty_enabled.
  - wp_step. eapply wp_lift_Val; [apply slice_from_le; lia|].
    assert (ae_skip n1 args < length (ae_Entries args)) as Hskip by (unfold ae_skip; lia).
    eapply wp_mono; [|apply (appendEntries_checked_fault n1 (reanchor n1 args)); [done|by apply reanchor_valid|done]].
    cbn beta. intros r n'. apply faulty_mono. intros ps [_ Hps]. split.
    + unfold ae_consistent. by rewrite (proj2 (N.ltb_lt _ _) Hlt).
    + revert Hps. apply writing_mono. intros l. cbn [reanchor ae_Entries].
      replace (ae_pos n1 (reanchor n1 args)) with (ae_pos n1 args) by (unfold ae_pos; cbn [reanchor ae_PrevLogIndex]; lia).
      replace (ae_skip n1 (reanchor n1 args)) with 0 by (unfold ae_skip; cbn [reanchor ae_PrevLogIndex]; lia). by rewrite drop_0.
Qed.
(** ** Proposals *)
Lemma Propose_fault n command :
  let e := MkEntry (n_currentTerm n) (next_index (n_log n)) command in
  node_ok n → (next_index (n_log n) < two63)%N → entry_fits e →
  wp True (Propose command) (λ _ n', faulty (writing n (λ l, l = n_log n ∨ l = n_log n ++ [e])) n') n.
Proof.
  intros e (Hf & Hw & Hd) Hb Hfit. pose proof two63_lt_two64. unfold Propose. do 2 wp_step. rewrite Hf. cbn [orb].
  wp_step; [wp_step; by apply faulty_enabled|]. wp_step.
  eapply wp_lift_Val; [by apply lastIndex_val; destruct Hw|]. cbv zeta. pose proof (wf_commit _ Hw).
  rewrite u64_add_small by lia. replace (next_index (n_log n) - 1 + 1)%N with (next_index (n_log n)) by lia. wp_step.
  eapply wp_mono; [|apply (appendLog_fault n [e]); [done|done|apply Hw|by split|cbn; lia|by constructor]].
  cbn. intros _ n1 Hfa. do 2 wp_step. destruct (n_failed n1) eqn:Hf1.
  - wp_step. eapply faulty_mono; [|exact Hfa]. intros ps. apply writing_mono.
    intros l [[|j] ->]; [left; by rewrite app_nil_r|right; by rewrite take_ge by (cbn; lia)].
  - wp_step. apply (wp_mono _ _ (λ _ n', n_failed n' = false)); [intros _ n2 ?; wp_step; by apply faulty_enabled|].
    unfold maybeAdvanceCommitLocked, notifyApply. do 3 wp_step; [done|]. wp_step. apply wp_lift_go; [|done]. intros last _.
    wp_step. apply wp_lift_go; [|done]. intros [i|] _; by repeat wp_step.
Qed.

(** Proposing does not touch the hard state. *)
Lemma Propose_hard n command : wp True (Propose command) (λ _ n', hard n' = hard n) n.
Proof.
  unfold Propose, appendLogLocked, storage_call, disableLocked, maybeAdvanceCommitLocked, notifyApply.
  do 3 wp_step; [done|]. wp_step. apply wp_lift_go; [|done]. intros last _. do 5 wp_step.
  eapply wp_mono; [|apply append_hard]. cbn. intros err st Hst.
  apply (wp_mono _ _ (λ _ n', hard n' = hard n)); [|destruct err; by repeat wp_step].
  intros _ n1 Hh. do 3 wp_step; [done|]. wp_step. apply (wp_mono _ _ (λ _ n', hard n' = hard n)); [by intros _ n2 ?; wp_step|].
  do 3 wp_step; [done|]. wp_step. apply wp_lift_go; [|done]. intros l _. wp_step. apply wp_lift_go; [|done].
  intros [i|] _; by repeat wp_step.
Qed.

(** ** Snapshots *)

(** The log is cut at [i] and the snapshot written, at once. *)
Definition snapshotted n (i t : N) (data : bytes) (ps : PersistentState) : Prop :=
  SnapshotData ps = data ∧
  ∃ l, same_log l (n_log n) ∧ Log ps = boundary i t :: drop (N.to_nat (i - n_lastIncludedIndex n) + 1) l.

Lemma snapshot_leaves n i t data :
  node_ok n → (n_lastIncludedIndex n < i)%N → (i < two63)%N → (t < two64)%N → snapshot_fits data →
  wp True (SaveSnapshot i t data) (λ err st, err ≠ None →
    leaves (λ ps, CurrentTerm ps = n_currentTerm n ∧
      (SnapshotData ps = n_snapshotData n ∧ same_log (Log ps) (n_log n) ∨ snapshotted n i t data ps)) st) (n_storage n).
Proof.
  intros Hok Hi Hi2 Ht Hfit. destruct (disk_next' _ Hok) as (Hsto & Hnx & Hfi). destruct Hok as (Hf & Hw & Hd).
  pose proof (wf_bound _ Hw). destruct (Hd Hf) as (_ & Et & _ & Es & Hl).
  eapply wp_mono; [|apply snapshot_fault; rewrite ?Hnx, ?Hfi; done]. cbn. intros err st Hst Hne.
  eapply leaves_mono; [|by apply Hst]. intros ps [->| ->]; (split; [done|]); [by left|right].
  split; [done|]. exists (Log (view (n_storage n))). split; [done|]. cbn. by rewrite Hfi.
Qed.

Lemma Snapshot_fault n i data :
  node_ok n → snapshot_fits data →
  wp True (Snapshot i data) (λ _ n', faulty (λ ps, kept n ps ∨
    ∃ e, (n_lastIncludedIndex n < i ≤ n_lastApplied n)%N ∧ n_log n !! N.to_nat (i - n_lastIncludedIndex n) = Some e ∧
      CurrentTerm ps = n_currentTerm n ∧ snapshotted n i (Term e) data ps) n') n.
Proof.
  intros Hok Hfit. pose proof Hok as (Hf & Hw & Hd). pose proof (wf_term _ Hw).
  pose proof (wf_bound _ Hw). pose proof (wf_committed _ Hw). pose proof (wf_commit _ Hw).
  unfold Snapshot, storage_call. do 2 wp_step. rewrite Hf.
  destruct (N.leb_spec i (n_lastIncludedIndex n)); [wp_step; by apply faulty_enabled|].
  destruct (N.ltb_spec (n_lastApplied n) i); [wp_step; by apply faulty_enabled|].
  destruct (termAt_val n (wf_log _ Hw) (wf_first _ Hw) (wf_bound _ Hw) i) as (e & He & Hterm); [lia|].
  wp_step. eapply wp_lift_Val; [exact Hterm|]. wp_step. apply wp_lift_go; [|done]. intros tl _.
  wp_step. apply wp_lift_go; [|done]. intros l _. do 2 wp_step.
  eapply wp_mono; [|apply (snapshot_leaves n i (Term e) data); [done|lia|lia|apply (Forall_lookup_1 _ _ _ _ (wf_terms _ Hw) He)|done]].
  intros [err|] st Hst; cbn beta iota.
  - wp_step. eapply wp_mono; [|apply disable_fault; eapply leaves_mono; [|by apply Hst]].
    { cbn. intros _ n1 Hfa. repeat wp_step. exact Hfa. }
    cbn. intros ps [Et [[Ed El]|Hc]]; [left|right]; [|by exists e].
    split; [done|]. split; [done|]. lia.
  - repeat wp_step. by apply faulty_enabled.
Qed.

Lemma handleInstallSnapshot_fault n e args :
  node_ok n → is_valid n args →
  wp True (handleInstallSnapshot e args) (λ _ n', faulty (λ ps, kept n ps ∨
    ((n_lastIncludedIndex n < is_LastIncludedIndex args)%N ∧ CurrentTerm ps = is_Term args ∧
     snapshotted n (is_LastIncludedIndex args) (is_LastIncludedTerm args) (is_Data args) ps)) n') n.
Proof.
  intros Hok Hv. pose proof Hok as (Hf & Hw & Hd). unfold handleInstallSnapshot, fail_reply. do 2 wp_step. rewrite Hf.
  destruct (N.ltb_spec (is_Term args) (n_currentTerm n)); [wp_step; by apply faulty_enabled|]. wp_step.
  eapply wp_mono; [|apply wp_paired; [by apply observeLeader_spec; [|apply Hv|]|by apply observeLeader_fault; [|apply Hv]]].
  cbn beta. intros _ n1 [[Hfr Hok1] Hfa]. do 2 wp_step. destruct (n_failed n1) eqn:Hf1.
  { repeat wp_step. eapply faulty_mono; [|exact Hfa]. by left. }
  destruct (Hok1 eq_refl) as (Hok2 & Ht1 & _). rewrite (cf_lii _ _ Hfr).
  destruct (N.leb_spec (is_LastIncludedIndex args) (n_lastIncludedIndex n)); [wp_step; by apply faulty_enabled|].
  destruct Hv as [Ht Hlit Hlii Hda _]. unfold installSnapshot_checked, installSnapshot_log, storage_call, fail_reply, notifyApply.
  do 2 wp_step.
  eapply wp_mono; [|apply (snapshot_leaves n1 (is_LastIncludedIndex args) (is_LastIncludedTerm args) (is_Data args));
    [done|rewrite (cf_lii _ _ Hfr); lia|done|done|apply Hda; lia]].
  intros [err|] st Hst; cbn beta iota.
  - wp_step. eapply wp_mono; [|apply disable_fault; eapply leaves_mono; [|by apply Hst]].
    { cbn. intros _ n2 Hfa2. repeat wp_step. exact Hfa2. }
    cbn. unfold snapshotted. rewrite (cf_log _ _ Hfr), (cf_lii _ _ Hfr), (cf_snap _ _ Hfr), Ht1.
    intros ps [Et [[Ed El]|Hc]]; [left|right; done]. split; [done|]. split; [done|]. lia.
  - wp_step. apply (wp_mono _ _ (λ _ n', n_failed n' = false)).
    { intros _ n2 ?. repeat wp_step. by apply faulty_enabled. }
    do 3 wp_step. apply wp_lift_go; [|done]. intros keep _. wp_step; [|by wp_step].
    wp_step. apply wp_lift_go; [|done]. intros l _. by wp_step.
Qed.

(** ** Replies *)
Lemma reply_enabled n p m :
  n_failed n = false →
  wp True (advance_progress p m ;; maybeAdvanceCommitLocked) (λ _ n', n_failed n' = false) n.
Proof.
  intros Hf. unfold advance_progress, set_next, maybeAdvanceCommitLocked, notifyApply. wp_step.
  apply (wp_mono _ _ (λ _ n', n_failed n' = false)); [|by repeat wp_step].
  intros _ n1 Hf1. do 3 wp_step; [done|]. wp_step. apply wp_lift_go; [|done]. intros last _.
  wp_step. apply wp_lift_go; [|done]. intros [i|] _; by repeat wp_step.
Qed.

Lemma onAppendReply_fault n p t args r :
  node_ok n → (aer_Term r < two64)%N → wp True (onAppendReply p t args r) (λ _ n', faulty (kept n) n') n.
Proof.
  intros (Hf & Hw & Hd) Ht. unfold onAppendReply. do 2 wp_step. rewrite Hf. wp_step; [by apply becomeFollower_fault|].
  wp_step; [by apply faulty_enabled|]. wp_step.
  - eapply wp_mono; [|by apply reply_enabled]. intros ? n1 ?. by apply faulty_enabled.
  - unfold set_next. wp_step; [wp_step; by apply faulty_enabled|]. wp_step; wp_step; by apply faulty_enabled.
Qed.

Lemma onSnapshotReply_fault n p t args r :
  node_ok n → (isr_Term r < two64)%N → wp True (onSnapshotReply p t args r) (λ _ n', faulty (kept n) n') n.
Proof.
  intros (Hf & Hw & Hd) Ht. unfold onSnapshotReply. do 2 wp_step. rewrite Hf. wp_step; [by apply becomeFollower_fault|].
  wp_step; [by apply faulty_enabled|].
  eapply wp_mono; [|by apply reply_enabled]. intros ? n1 ?. by apply faulty_enabled.
Qed.
End Faults.
