(* ===== verification/RaftService.v ===== *)
(** * A node in service

    Every critical section of a node, started from a consistent state
    ([service]) on messages that are what a correct peer sends ([op_safe]),
    ends without a runtime panic in a consistent state again, unless a storage
    error disabled the node.  Leaders moreover send well-formed requests, the
    apply loop delivers the committed entries in order, and a restarted node
    recovers its term, vote, snapshot and log. *)
From S2P Require Import Prelude RaftTypes MemoryStorage RaftNode RaftVotes RaftCluster RaftLog RaftReplicate.

Section Service.
Context {S : Type} `{StorageSpec S}.
Implicit Types (n : Node S).

(** A leader's [nextIndex] never points past the end of its log. *)
Definition prog n : Prop :=
  n_role n = Leader → ∀ p, (map_get (n_nextIndex n) p ≤ next_index (n_log n))%N.

Definition service n : Prop := node_ok n ∧ prog n.

(** After a critical section: consistent, unless disabled. *)
Definition serving n : Prop := n_failed n = false → service n.

Lemma service_serving n : service n → serving n.
Proof. by intros ? _. Qed.

Lemma node_ok_synced n : node_ok n → synced n.
Proof.
  intros (Hf & _ & Hd) _. destruct (Hd Hf) as (Hok & Ht & Hv & _).
  unfold hard. rewrite view_hard by done. by rewrite Ht, Hv.
Qed.

Lemma prog_core n n' :
  prog n → core_frame n n' → (n_role n' = Leader → n_role n = Leader) → prog n'.
Proof. intros Hp Hfr Hr HL p. rewrite (cf_next _ _ Hfr), (cf_log _ _ Hfr). by apply Hp, Hr. Qed.

Lemma serving_core n n' :
  prog n → core_frame n n' → serves n' → evolves n n' → serving n'.
Proof.
  intros Hp Hfr Hs Hev Hf. split; [by apply Hs|]. eapply prog_core; [done|done|].
  intros HL. by apply (ev_lead _ _ Hev).
Qed.

(** Reading off a partial-correctness fact on a run that does not panic. *)
Lemma wp_both {A} (m : GoM (Node S) A) (P Q R : A → Node S → Prop) n :
  wp False m P n → wp True m Q n → (∀ a n', P a n' → Q a n' → R a n') → wp False m R n.
Proof.
  intros HP HQ HR. unfold wp in *. destruct (m n) as [[a n']|]; [by apply HR|done].
Qed.

(** ** Inbound RPCs *)
Lemma handleRequestVote_serving n e args :
  service n → (rv_Term args < two64)%N → vote_fits (rv_CandidateID args) →
  wp False (handleRequestVote e args) (λ _ n', serving n') n.
Proof.
  intros [Hok Hp] Ht Hv. pose proof (node_ok_synced _ Hok).
  eapply wp_both; [by apply handleRequestVote_spec|by apply handleRequestVote_evolves|].
  cbn. intros r n' (Hfr & Hs & _) [Hev _]. by eapply serving_core.
Qed.

(** A request of the leader's own term can only come from the leader. *)
Definition not_own n (term : N) : Prop := n_role n = Leader → term ≠ n_currentTerm n.

Lemma stepped_down n n' term :
  evolves n n' → not_own n term → n_currentTerm n' = term → prog n'.
Proof.
  intros Hev Hno Ht HL. destruct (ev_lead _ _ Hev HL) as [HL' Ht']. exfalso.
  apply (Hno HL'). congruence.
Qed.

Lemma handleAppendEntries_serving n e args :
  service n → ae_valid n args → not_own n (ae_Term args) →
  wp False (handleAppendEntries e args) (λ _ n', serving n') n.
Proof.
  intros [Hok Hp] Hv Hno. pose proof (node_ok_synced _ Hok).
  eapply wp_both; [by apply handleAppendEntries_spec|by apply handleAppendEntries_evolves, Hv|].
  cbn. intros r n' Hr Hev. destruct (_ <? _)%N; [destruct Hr as [_ ->]; by apply service_serving|].
  intros Hf. unfold ae_post in Hr. destruct r as [rep|]; [|congruence].
  destruct Hr as (Hok' & Ht & _). split; [done|]. by eapply stepped_down.
Qed.

Lemma handleInstallSnapshot_serving n e args :
  service n → is_valid n args → not_own n (is_Term args) →
  wp False (handleInstallSnapshot e args) (λ _ n', serving n') n.
Proof.
  intros [Hok Hp] Hv Hno. pose proof (node_ok_synced _ Hok).
  eapply wp_both; [by apply handleInstallSnapshot_spec|by apply handleInstallSnapshot_evolves, Hv|].
  cbn beta. intros r n' Hr Hev. destruct (_ <? _)%N; [destruct Hr as [_ ->]; by apply service_serving|].
  intros Hf. destruct r as [rep|]; [|congruence]. destruct Hr as (_ & Ht & Hok' & _).
  split; [done|]. by eapply stepped_down.
Qed.

Lemma wrap_serving {A} (k : A → Reply) (m : GoM (Node S) (A + option error)) n :
  wp False m (λ _ n', serving n') n → wp False (wrap_reply k m) (λ _ n', serving n') n.
Proof. intros Hm. unfold wrap_reply. wp_step. eapply wp_mono; [|done]. cbn. intros r n' ?. by wp_step. Qed.

(** ** Proposing, snapshots *)
Lemma Propose_serving n cmd :
  service n → (next_index (n_log n) < two63)%N →
  entry_fits (MkEntry (n_currentTerm n) (next_index (n_log n)) cmd) →
  wp False (Propose cmd) (λ _ n', serving n') n.
Proof.
  intros [Hok Hp] Hb Hfit. eapply wp_mono; [|by apply Propose_spec].
  cbn beta. intros r n' Hr. case_decide as HL; [|destruct Hr as [_ ->]; by apply service_serving].
  intros Hf. destruct Hr as [Hfr [[? _]|(Hok' & _ & Hl & _)]]; [congruence|]. split; [done|].
  intros _ p. pose proof (lf_next _ _ Hfr) as Hn. cbn in Hn. rewrite Hn, Hl.
  destruct Hok as (_ & Hw & _). rewrite next_index_app by (by apply log_ne, Hw).
  specialize (Hp HL p). lia.
Qed.

Lemma cut_next_index n i t data n' :
  wf n → (n_lastIncludedIndex n ≤ i < next_index (n_log n))%N → cut_at n i t data n' →
  log_wf (n_log n') → next_index (n_log n') = next_index (n_log n).
Proof.
  intros Hw Hi Hc Hl. pose proof (wf_first _ Hw) as Hfi. unfold next_index in *.
  assert (N.to_nat (i - n_lastIncludedIndex n) < length (n_log n)) as Hk by lia.
  pose proof (log_wf_drop _ _ (wf_log _ Hw) Hk) as Hd.
  destruct (same_log_wf _ _ (cut_log _ _ _ _ _ Hc) (log_ne _ Hl) Hd) as [_ E].
  unfold next_index in E. rewrite E, length_drop.
  destruct (lookup_lt_is_Some_2 _ _ Hk) as [x Hx].
  rewrite (drop_S _ _ _ Hx). cbn [first_index].
  rewrite (log_lookup_Index _ _ _ (wf_log _ Hw) Hx). lia.
Qed.

Lemma Snapshot_serving n i data :
  service n → snapshot_fits data → wp False (Snapshot i data) (λ _ n', serving n') n.
Proof.
  intros [Hok Hp] Hfit. pose proof (node_ok_synced _ Hok).
  eapply wp_both; [by apply Snapshot_spec|by apply Snapshot_evolves|].
  cbn beta. intros r n' Hr Hev. case_decide as Hi; [|destruct Hr as [-> _]; by apply service_serving].
  intros Hf. rewrite Hf in Hr. destruct Hr as (_ & Hok' & e & He & Hc). split; [done|].
  intros HL p. destruct (ev_lead _ _ Hev HL) as [HL' _].
  destruct Hok as (_ & Hw & _), Hok' as (_ & Hw' & _).
  rewrite (cut_next _ _ _ _ _ Hc). erewrite (cut_next_index n i (Term e) data n'); [by apply Hp|done| |done|apply Hw'].
  destruct Hw. lia.
Qed.
(** ** Operations that touch no log, storage or hard state *)

(** [n'] differs from [n] in timers, channels, role and replication progress
    only. *)
Record light n n' : Prop := {
  li_cfg : n_cfg n' = n_cfg n;
  li_storage : n_storage n' = n_storage n;
  li_failed : n_failed n' = n_failed n;
  li_term : n_currentTerm n' = n_currentTerm n;
  li_vote : n_votedFor n' = n_votedFor n;
  li_log : n_log n' = n_log n;
  li_lii : n_lastIncludedIndex n' = n_lastIncludedIndex n;
  li_lit : n_lastIncludedTerm n' = n_lastIncludedTerm n;
  li_data : n_snapshotData n' = n_snapshotData n;
  li_applied : n_lastApplied n' = n_lastApplied n;
  li_commit : n_commitIndex n' = n_commitIndex n;
}.

Lemma node_ok_light n n' : node_ok n → light n n' → node_ok n'.
Proof.
  intros (Hf & Hw & Hd) []. split; [congruence|]. split.
  - destruct Hw. split; rewrite ?li_log0, ?li_lii0, ?li_lit0, ?li_applied0, ?li_commit0, ?li_term0; done.
  - intros _. rewrite li_storage0, li_term0, li_vote0, li_data0, li_log0. by apply Hd.
Qed.

Lemma service_light n n' :
  service n → light n n' → (n_role n' = Leader → n_role n = Leader) →
  n_nextIndex n' = n_nextIndex n → service n'.
Proof.
  intros [Hok Hp] Hl Hr Hn. split; [by eapply node_ok_light|].
  intros HL p. rewrite Hn, (li_log _ _ Hl). by apply Hp, Hr.
Qed.

Lemma tick_serving n e : service n → wp False (tick e) (λ _ n', serving n') n.
Proof.
  intros Hs. unfold tick. repeat (wp_step; cbn zeta); apply service_serving; try done;
    by eapply service_light; [exact Hs|split| |].
Qed.

Lemma trigger_serving n i : service n → wp False (trigger_snapshot i) (λ _ n', serving n') n.
Proof.
  intros Hs. unfold trigger_snapshot. repeat wp_step; apply service_serving; try done;
    by eapply service_light; [exact Hs|split| |].
Qed.

Lemma take_trigger_serving n : service n → wp False take_snapshot_trigger (λ _ n', serving n') n.
Proof.
  intros Hs. unfold take_snapshot_trigger. repeat wp_step; apply service_serving;
    by eapply service_light; [exact Hs|split| |].
Qed.

(** ** Elections *)
Lemma becomeLeader_serving n :
  node_ok n → wp False becomeLeaderLocked (λ _ n', light n n' ∧ service n' ∧
    ∀ p, p ∈ n_peers n → n_nextIndex n' !! p = Some (next_index (n_log n)) ∧
                         n_matchIndex n' !! p = Some 0%N) n.
Proof.
  intros Hok. pose proof Hok as (Hf & Hw & Hd). pose proof two63_lt_two64. pose proof (wf_bound _ Hw).
  pose proof (wf_commit _ Hw).
  unfold becomeLeaderLocked. do 7 wp_step. eapply wp_lift_Val.
  { apply (lastIndex_val (set_leaderID (n_id (set_role Leader n)) (set_role Leader n))); cbn; apply Hw. }
  cbn [n_log set_leaderID set_role]. rewrite u64_add_small by lia.
  replace (next_index (n_log n) - 1 + 1)%N with (next_index (n_log n)) by lia.
  repeat wp_step. split; [by split|]. cbn.
  assert (Hfold : ∀ (x : N) ps (m : gmap NodeID N),
    (∀ p, p ∈ ps → foldl (λ m p, <[p := x]> m) m ps !! p = Some x) ∧
    (∀ p, foldl (λ m p, <[p := x]> m) m ps !! p = Some x ∨
          foldl (λ m p, <[p := x]> m) m ps !! p = m !! p)).
  { intros x. induction ps as [|q ps IH]; intros m; cbn; [split; [by intros ? ?%not_elem_of_nil|auto]|].
    destruct (IH (<[q:=x]> m)) as [IH1 IH2]. split.
    - intros p [->|Hp]%elem_of_cons; [|by apply IH1].
      destruct (IH2 q) as [E|E]; rewrite E; [done|]. by simplify_map_eq.
    - intros p. destruct (IH2 p) as [E|E]; [by left|]. rewrite E.
      destruct (decide (q = p)) as [->|]; simplify_map_eq; auto. }
  split.
  - split; [by eapply node_ok_light; [exact Hok|split]|]. intros _ p. cbn.
    destruct (Hfold (next_index (n_log n)) (n_peers n) ∅) as [_ Hx]. unfold map_get.
    destruct (Hx p) as [E|E]; unfold n_peers in *; cbn in *; rewrite E; cbn; [lia|].
    rewrite lookup_empty. cbn. lia.
  - intros p Hp. split; by apply Hfold.
Qed.

Lemma startElection_serving n e :
  service n → vote_fits (n_id n) → (n_currentTerm n + 1 < two64)%N →
  wp False (startElection e) (λ r n', serving n' ∧ core_frame n n' ∧
    match r with
    | Some (term, args) => term = (n_currentTerm n + 1)%N ∧ n_failed n' = false ∧
        args = MkRVArgs term (n_id n) (next_index (n_log n) - 1)
                 (default 0%N (Term <$> last (n_log n)))
    | None => n_failed n' = true
    end) n.
Proof.
  intros [Hok Hp] Hv Hb. pose proof Hok as (Hf & Hw & Hd). unfold startElection. do 2 wp_step.
  rewrite Hf. wp_step. eapply wp_mono; [|by apply becomeCandidate_spec].
  cbn. intros _ n1 (Hfr & Hs & Hr & Ht & Hvo). do 2 wp_step.
  assert (serving n1) as Hsv.
  { intros Hf1. split; [by apply Hs|]. by intros HL; congruence. }
  destruct (n_failed n1) eqn:Hf1; [by wp_step|]. destruct (Hs Hf1) as (_ & Hw1 & _).
  destruct (lastLogInfo_val n1 Hw1) as (l & Hl & Hval). wp_step. eapply wp_lift_Val; [done|].
  wp_step. split; [done|]. split; [done|]. rewrite Ht, u64_add_small by done.
  split; [done|]. split; [done|]. unfold n_id. rewrite (cf_cfg _ _ Hfr).
  rewrite (cf_log _ _ Hfr) in Hl. rewrite Hl. cbn. f_equal.
  pose proof (last_log_Index _ _ (wf_log _ Hw) Hl). lia.
Qed.

Lemma startElection_solo_serving n term :
  service n → wp False (startElection_solo term) (λ _ n', serving n') n.
Proof.
  intros Hs. unfold startElection_solo. repeat wp_step; try (by apply service_serving).
  eapply wp_mono; [|apply becomeLeader_serving, Hs]. cbn. intros _ n' (_ & ? & _).
  by apply service_serving.
Qed.

Lemma onRequestVoteReply_serving n term votes r :
  service n → (rvr_Term r < two64)%N →
  wp False (onRequestVoteReply term votes r) (λ _ n', serving n') n.
Proof.
  intros Hs Ht. pose proof (service_serving _ Hs). unfold onRequestVoteReply.
  do 3 wp_step; [done|]. destruct Hs as [Hok Hp]. wp_step.
  { wp_step. eapply wp_mono; [|by apply becomeFollower_serves]. cbn.
    intros _ n' (Hfr & Hsv & Hr & _). wp_step. intros Hf. split; [by apply Hsv|].
    by intros HL; congruence. }
  wp_step; [done|]. wp_step. wp_step; [|do 2 wp_step; done].
  eapply wp_mono; [|by apply becomeLeader_serving]. cbn. intros _ n' (_ & ? & _). wp_step.
  by apply service_serving.
Qed.
(** ** Replication *)
Lemma service_next n p i :
  service n → (i ≤ next_index (n_log n))%N →
  service (set_nextIndex (<[p := i]> (n_nextIndex n)) n).
Proof.
  intros [Hok Hp] Hi. split; [by eapply node_ok_light; [exact Hok|split]|].
  intros HL q. cbn. unfold map_get. destruct (decide (p = q)) as [->|]; simplify_map_eq; [done|].
  by apply Hp.
Qed.

Lemma advance_progress_serving n p m :
  service n → (m < next_index (n_log n))%N →
  wp False (advance_progress p m) (λ _ n', service n' ∧ light n n') n.
Proof.
  intros Hs Hm. pose proof (proj1 Hs) as (_ & Hw & _). pose proof (wf_bound _ Hw).
  pose proof two63_lt_two64. unfold advance_progress, set_next. do 3 wp_step.
  eapply (wp_mono _ _ (λ _ n1, service n1 ∧ light n n1)).
  - cbn. intros _ n1 [Hs1 Hl1]. do 2 wp_step. wp_step; [wp_step|done].
    split; [|by destruct Hl1; split].
    apply service_next; [done|]. rewrite (li_log _ _ Hl1), u64_add_small by lia. lia.
  - wp_step; [wp_step|done]. split; [|by split]. by eapply service_light; [exact Hs|split| |].
Qed.

Lemma commit_serving n : service n → wp False maybeAdvanceCommitLocked (λ _ n', serving n') n.
Proof.
  intros [Hok Hp]. eapply wp_mono; [|apply maybeAdvanceCommit_spec, Hok]. cbn.
  intros _ n' Hco. apply service_serving. split; [by eapply commit_outcome_ok|].
  by destruct Hco as [(_ & i & _ & _ & ->)|[_ ->]].
Qed.

Lemma last_index_of_term_bound t l i : last_index_of_term t l = Some i → ∃ e, e ∈ l ∧ Index e = i ∧ Term e = t.
Proof.
  induction l as [|e l IH]; [done|]. cbn. destruct (N.eqb_spec (Term e) t).
  - intros [= <-]. exists e. by repeat split; [left|].
  - destruct (_ <? _)%N; [done|]. intros (x & ? & ?)%IH. exists x. by split; [right|].
Qed.

Lemma log_index_bound n e :
  wf n → e ∈ n_log n → (n_lastIncludedIndex n ≤ Index e < next_index (n_log n))%N.
Proof.
  intros Hw (k & Hk)%list_elem_of_lookup. pose proof (lookup_lt_Some _ _ _ Hk).
  rewrite (log_lookup_Index _ _ _ (wf_log _ Hw) Hk), (wf_first _ Hw). unfold next_index.
  rewrite (wf_first _ Hw). lia.
Qed.

(** What a leader may assume of the answer to a request it sent. *)
Record reply_valid n (term : N) (args : AppendEntriesArgs) (r : AppendEntriesReply) : Prop := {
  rv_fits : (aer_Term r < two64)%N;
  rv_sent : not_leading n term = false →
    (ae_PrevLogIndex args + N.of_nat (length (ae_Entries args)) < next_index (n_log n))%N;
  rv_conflict : not_leading n term = false → aer_Success r = false →
    (aer_ConflictIndex r ≤ next_index (n_log n))%N;
}.

Lemma onAppendReply_serving n p term args r :
  service n → reply_valid n term args r →
  wp False (onAppendReply p term args r) (λ _ n', serving n') n.
Proof.
  intros Hs [Ht Hsent Hconf]. pose proof (service_serving _ Hs). pose proof (proj1 Hs) as Hok.
  pose proof Hok as (_ & Hw & _). pose proof (wf_bound _ Hw). pose proof (wf_commit _ Hw).
  pose proof two63_lt_two64. unfold onAppendReply.
  do 3 wp_step; [done|]. wp_step.
  { eapply wp_mono; [|by apply becomeFollower_serves]. cbn.
    intros _ n' (Hfr & Hsv & Hr & _) Hf. split; [by apply Hsv|]. by intros HL; congruence. }
  destruct (not_leading n term); [by wp_step|]. specialize (Hsent eq_refl). wp_step.
  { wp_step. rewrite u64_add_small by lia. eapply wp_mono; [|by apply advance_progress_serving].
    cbn. intros _ n1 [Hs1 _]. by apply commit_serving. }
  specialize (Hconf eq_refl eq_refl). unfold set_next. wp_step.
  { wp_step. apply service_serving, service_next; [done|]. lia. }
  wp_step; wp_step; apply service_serving, service_next; try done; [|lia].
  apply last_index_of_term_bound in Heqo as (e & He%list_elem_of_In%in_rev%list_elem_of_In & Hi & _).
  pose proof (log_index_bound n e Hw He). rewrite u64_add_small by lia. lia.
Qed.

Lemma onSnapshotReply_serving n p term args r :
  service n → (isr_Term r < two64)%N →
  (not_leading n term = false → is_LastIncludedIndex args < next_index (n_log n))%N →
  wp False (onSnapshotReply p term args r) (λ _ n', serving n') n.
Proof.
  intros Hs Ht Hsent. pose proof (service_serving _ Hs). pose proof (proj1 Hs) as Hok.
  unfold onSnapshotReply. do 3 wp_step; [done|]. wp_step.
  { eapply wp_mono; [|by apply becomeFollower_serves]. cbn.
    intros _ n' (Hfr & Hsv & Hr & _) Hf. split; [by apply Hsv|]. by intros HL; congruence. }
  destruct (not_leading n term); [by wp_step|]. specialize (Hsent eq_refl).
  wp_step. eapply wp_mono; [|by apply advance_progress_serving].
  cbn. intros _ n1 [Hs1 _]. by apply commit_serving.
Qed.

Lemma not_leading_false n term :
  not_leading n term = false ↔ n_failed n = false ∧ n_role n = Leader ∧ n_currentTerm n = term.
Proof.
  unfold not_leading. rewrite !orb_false_iff, !negb_false_iff, bool_decide_eq_true, N.eqb_eq. tauto.
Qed.

(** The leader's reaction to a refusal. *)
Definition backed_up n (r : AppendEntriesReply) : N :=
  if (aer_ConflictTerm r =? 0)%N then N.max 1 (aer_ConflictIndex r)
  else match lastIndexOfTermLocked n (aer_ConflictTerm r) with
       | Some idx => u64_add idx 1
       | None => N.max 1 (aer_ConflictIndex r)
       end.

Lemma onAppendReply_refused n p term args r :
  not_leading n term = false → aer_Success r = false → (aer_Term r ≤ n_currentTerm n)%N →
  onAppendReply p term args r n =
    Val ((), set_nextIndex (<[p := backed_up n r]> (n_nextIndex n)) n).
Proof.
  intros Hnl Hs Ht. pose proof Hnl as (Hf & _ & _)%not_leading_false.
  unfold onAppendReply, mbind, GoM_bind, get, backed_up. rewrite Hf.
  rewrite (proj2 (N.ltb_ge _ _) Ht), Hnl, Hs. destruct (_ =? 0)%N; [done|].
  by destruct (lastIndexOfTermLocked n _).
Qed.

Lemma firstIndexOfTerm_le (f : Node S) t e :
  wf f → e ∈ n_log f → Term e = t → t ≠ 0%N →
  (firstIndexOfTermLocked f t ≤ Index e)%N.
Proof.
  intros Hw (k & Hk)%list_elem_of_lookup Ht Hne. unfold firstIndexOfTermLocked.
  destruct (N.eqb_spec t 0); [done|].
  destruct (list_find _ _) as [[j x]|] eqn:Hfind.
  - apply list_find_Some in Hfind as (Hj & Hx & Hmin).
    rewrite (log_lookup_Index _ _ _ (wf_log _ Hw) Hj), (log_lookup_Index _ _ _ (wf_log _ Hw) Hk).
    destruct (decide (k < j)) as [Hlt|]; [|lia]. by destruct (Hmin k e Hk Hlt).
  - apply list_find_None in Hfind. rewrite Forall_lookup in Hfind. by destruct (Hfind k e Hk).
Qed.

(** A refusal of a request of the current term, seen from outside. *)
Lemma refusal (f : Node S) e args rep f' :
  node_ok f → ae_valid f args → (n_currentTerm f ≤ ae_Term args)%N →
  (0 < ae_PrevLogIndex args)%N →
  handleAppendEntries e args f = Val (inl rep, f') → aer_Success rep = false →
  aer_Term rep = ae_Term args ∧
  ((aer_ConflictTerm rep = 0%N ∧ (aer_ConflictIndex rep ≤ ae_PrevLogIndex args)%N) ∨
   ∃ x, x ∈ n_log f ∧ Index x = ae_PrevLogIndex args ∧ Term x ≠ ae_PrevLogTerm args ∧
     aer_ConflictTerm rep = Term x ∧ Term x ≠ 0%N ∧
     aer_ConflictIndex rep = firstIndexOfTermLocked f (Term x)).
Proof.
  intros Hok Hv Hle Hpos Hrun Hs.
  pose proof (wp_run _ _ _ _ _ _ (handleAppendEntries_spec f e args Hok Hv) Hrun) as HQ.
  cbn beta in HQ. destruct (N.ltb_spec (ae_Term args) (n_currentTerm f)); [lia|].
  destruct HQ as (_ & _ & -> & _). unfold ae_reply, ae_consistent, ae_conflict in *.
  pose proof (proj1 (proj2 Hok)) as Hw.
  destruct (N.ltb_spec (ae_PrevLogIndex args) (n_lastIncludedIndex f)); [done|].
  destruct (n_log f !! _) as [x|] eqn:Hx.
  - destruct (N.eqb_spec (Term x) (ae_PrevLogTerm args)); [done|]. cbn. split; [done|].
    destruct (decide (Term x = 0%N)) as [E|Hne].
    + left. unfold firstIndexOfTermLocked. rewrite E. cbn. split; [done|lia].
    + right. exists x. split; [by eapply list_elem_of_lookup_2|].
      rewrite (log_lookup_Index _ _ _ (wf_log _ Hw) Hx), (wf_first _ Hw).
      split; [lia|]. done.
  - cbn. split; [done|]. left. split; [done|]. apply lookup_ge_None in Hx.
    unfold next_index. rewrite (wf_first _ Hw). lia.
Qed.

(** What [replicateToPeer] sends. *)
Record sent_ok n (term : N) (args : AppendEntriesArgs) : Prop := {
  so_term : ae_Term args = n_currentTerm n ∧ ae_LeaderID args = n_id n;
  so_leading : n_role n = Leader ∧ n_currentTerm n = term;
  so_prev : ∃ e, n_log n !! N.to_nat (ae_PrevLogIndex args - n_lastIncludedIndex n) = Some e ∧
    Index e = ae_PrevLogIndex args ∧ Term e = ae_PrevLogTerm args;
  so_entries : ae_Entries args =
    drop (N.to_nat (ae_PrevLogIndex args + 1 - n_lastIncludedIndex n)) (n_log n);
  so_contiguous : contiguous (ae_PrevLogIndex args + 1) (ae_Entries args);
  so_last : (ae_PrevLogIndex args + 1 + N.of_nat (length (ae_Entries args)) =
             next_index (n_log n))%N;
  so_commit : (ae_LeaderCommit args = n_commitIndex n ∧
    ae_LeaderCommit args ≤ ae_PrevLogIndex args + N.of_nat (length (ae_Entries args)))%N;
}.

Lemma replicateToPeer_spec n p term :
  service n →
  wp False (replicateToPeer p term) (λ r n', n' = n ∧
    match r with
    | SendNothing => not_leading n term = true
    | NeedSnapshot => (map_get (n_nextIndex n) p ≤ n_lastIncludedIndex n)%N
    | SendAppend args => sent_ok n term args ∧
        (ae_PrevLogIndex args + 1 = map_get (n_nextIndex n) p)%N
    end) n.
Proof.
  intros [Hok Hp]. pose proof Hok as (_ & Hw & _). pose proof two63_lt_two64.
  destruct (Hw) as [Wl Wf Wb Wbo Wa Wc Wco Wt Wts].
  unfold replicateToPeer. do 2 wp_step. destruct (not_leading n term) eqn:Hnl; [by wp_step|].
  apply not_leading_false in Hnl as (_ & HL & Ht). specialize (Hp HL p).
  set (i := map_get (n_nextIndex n) p) in *.
  destruct (N.leb_spec i (n_lastIncludedIndex n)); [by wp_step|]. cbv zeta.
  rewrite !u64_sub_small by lia. wp_step.
  destruct (termAt_val n Wl Wf Wbo (i - 1)) as (e & He & Hv); [lia|].
  eapply wp_lift_Val; [done|]. wp_step. eapply wp_lift_Val.
  { apply slice_from_le. unfold next_index in *. lia. }
  wp_step. split; [done|]. cbn. split; [|lia].
  pose proof (log_lookup_Index _ _ _ Wl He) as Hidx.
  assert (N.to_nat (i - 1 + 1 - n_lastIncludedIndex n) = N.to_nat (i - n_lastIncludedIndex n)) as Hk by lia.
  split; cbn; try done.
  - exists e. split; [done|]. split; [rewrite Hidx, Wf; lia|done].
  - by rewrite Hk.
  - apply log_wf_contiguous in Wl as [_ Wl]. apply (contiguous_drop _ (N.to_nat (i - n_lastIncludedIndex n))) in Wl.
    rewrite Wf in Wl. by replace (i - 1 + 1)%N with
      (n_lastIncludedIndex n + N.of_nat (N.to_nat (i - n_lastIncludedIndex n)))%N by lia.
  - rewrite length_drop. unfold next_index in *. lia.
  - split; [done|]. rewrite length_drop. unfold next_index in *. lia.
Qed.
(** ** The apply loop *)
Definition as_msg (e : LogEntry) : ApplyMsg := CommandMsg (Command e) (Index e) (Term e).

(** The committed entries that were not delivered yet. *)
Definition unapplied n : list LogEntry :=
  take (N.to_nat (n_commitIndex n - n_lastApplied n))
    (drop (N.to_nat (n_lastApplied n + 1 - n_lastIncludedIndex n)) (n_log n)).

Definition applied_up n (i : N) : Node S := set_lastApplied i n.

Lemma unapplied_cons n :
  wf n → (n_lastApplied n < n_commitIndex n)%N →
  ∃ e, n_log n !! N.to_nat (n_lastApplied n + 1 - n_lastIncludedIndex n) = Some e ∧
    Index e = (n_lastApplied n + 1)%N ∧
    unapplied n = e :: unapplied (applied_up n (n_lastApplied n + 1)) ∧
    wf (applied_up n (n_lastApplied n + 1)).
Proof.
  intros Hw Hlt. destruct (Hw) as [Wl Wf Wb Wbo Wa Wc Wco Wt Wts].
  destruct (lookup_lt_is_Some_2 (n_log n) (N.to_nat (n_lastApplied n + 1 - n_lastIncludedIndex n)))
    as [e He]; [unfold next_index in *; lia|].
  exists e. split; [done|]. split; [rewrite (log_lookup_Index _ _ _ Wl He), Wf; lia|]. split.
  - unfold unapplied. cbn. rewrite (drop_S _ _ _ He).
    replace (N.to_nat (n_commitIndex n - n_lastApplied n))
      with (Datatypes.S (N.to_nat (n_commitIndex n - (n_lastApplied n + 1)))) by lia.
    cbn [take]. f_equal. f_equal. f_equal. lia.
  - split; cbn; try done; lia.
Qed.

Lemma applyLoop_inner_spec n :
  node_ok n →
  wp False applyLoop_inner (λ r n',
    match unapplied n with
    | [] => r = (Asleep, None) ∧ n' = n
    | e :: _ => r = (Inner, Some (as_msg e)) ∧ Index e = (n_lastApplied n + 1)%N ∧
        n' = applied_up n (Index e) ∧ node_ok n'
    end) n.
Proof.
  intros Hok. pose proof Hok as (Hf & Hw & Hd). pose proof two63_lt_two64.
  pose proof (wf_applied _ Hw). pose proof (wf_commit _ Hw). pose proof (wf_bound _ Hw).
  unfold applyLoop_inner. do 2 wp_step.
  destruct (N.ltb_spec (n_lastApplied n) (n_commitIndex n)) as [Hlt|Hge].
  - destruct (unapplied_cons n Hw Hlt) as (e & He & Hi & -> & Hw').
    rewrite u64_add_small by lia. do 5 wp_step. eapply wp_lift_Val.
    { unfold entryAtLocked. cbn. rewrite u64_sub_small by lia. by apply slice_get_Some. }
    wp_step. unfold as_msg. rewrite Hi. split; [done|]. split; [done|]. split; [done|]. exact (conj Hf (conj Hw' Hd)).
  - wp_step. unfold unapplied. by replace (N.to_nat (n_commitIndex n - n_lastApplied n)) with 0 by lia.
Qed.

Lemma applyLoop_next n pc :
  wp True (applyLoop_step pc) (λ _ n', n_nextIndex n' = n_nextIndex n) n.
Proof.
  assert (Hin : wp True applyLoop_inner (λ _ n', n_nextIndex n' = n_nextIndex n) n).
  { unfold applyLoop_inner. do 3 wp_step; [|by wp_step]. do 5 wp_step.
    apply wp_lift_go; [|done]. intros e _. by wp_step. }
  unfold applyLoop_step. do 2 wp_step. repeat wp_step; done.
Qed.

(** One critical section of the apply loop: nothing is delivered, or the
    pending snapshot is, or the entry after [lastApplied] is. *)
Definition delivers n n' (pc : ApplyPc) (msg : option ApplyMsg) : Prop :=
  (msg = None ∧ n_lastApplied n' = n_lastApplied n) ∨
  (pc = Top ∧ msg = n_pendingSnapshot n ∧ n_pendingSnapshot n' = None ∧
     n_lastApplied n' = n_lastApplied n) ∨
  (∃ e, n_pendingSnapshot n = None ∧ msg = Some (as_msg e) ∧
     n_log n !! N.to_nat (Index e - n_lastIncludedIndex n) = Some e ∧
     Index e = (n_lastApplied n + 1)%N ∧ (Index e ≤ n_commitIndex n)%N ∧
     n_lastApplied n' = Index e).

Lemma applyLoop_spec n pc :
  node_ok n →
  wp False (applyLoop_step pc) (λ r n', node_ok n' ∧ n_log n' = n_log n ∧
    n_commitIndex n' = n_commitIndex n ∧ delivers n n' pc r.2) n.
Proof.
  intros Hok. pose proof Hok as (_ & Hw & _).
  assert (Hin : n_pendingSnapshot n = None → wp False applyLoop_inner (λ r n', node_ok n' ∧
    n_log n' = n_log n ∧ n_commitIndex n' = n_commitIndex n ∧ delivers n n' pc r.2) n).
  { intros Hnone. eapply wp_mono; [|by apply applyLoop_inner_spec]. cbn beta. intros r n'.
    destruct (decide (n_lastApplied n < n_commitIndex n)%N) as [Hlt|].
    - destruct (unapplied_cons n Hw Hlt) as (e & He & Hi & -> & _). intros (-> & _ & -> & Hok').
      split; [done|]. split; [done|]. split; [done|]. right. right. exists e.
      split; [done|]. split; [done|]. split; [by rewrite Hi|]. split; [done|]. split; [lia|done].
    - unfold unapplied. replace (N.to_nat (n_commitIndex n - n_lastApplied n)) with 0 by lia.
      intros [-> ->]. do 3 (split; [done|]). by left. }
  unfold applyLoop_step. do 2 wp_step. destruct pc.
  - destruct (n_pendingSnapshot n) as [m|] eqn:Hp; [|by apply Hin]. repeat wp_step.
    split; [by eapply node_ok_light; [exact Hok|split]|]. do 2 (split; [done|]).
    right. left. by rewrite Hp.
  - destruct (n_pendingSnapshot n) as [m|] eqn:Hp; [|by apply Hin]. wp_step.
    do 3 (split; [done|]). by left.
  - destruct (n_applyWake n); repeat wp_step.
    + split; [by eapply node_ok_light; [exact Hok|split]|]. do 2 (split; [done|]). by left.
    + do 3 (split; [done|]). by left.
Qed.

Lemma applyLoop_serving n pc :
  service n → wp False (applyLoop_step pc) (λ _ n', serving n') n.
Proof.
  intros [Hok Hp]. pose proof (node_ok_synced _ Hok).
  eapply wp_both; [by apply applyLoop_spec|by apply (wp_conj _ _ _ _ _ (applyLoop_evolves n pc ltac:(done)) (applyLoop_next n pc))|].
  cbn. intros r n' (Hok' & Hl & _) [Hev Hn]. apply service_serving. split; [done|].
  intros HL p. rewrite Hl, Hn. by apply Hp, (ev_lead _ _ Hev).
Qed.
(** [k] critical sections of the loop, with what they send on [applyCh]. *)
Fixpoint apply_run (k : nat) (pc : ApplyPc) n : go (list ApplyMsg * ApplyPc * Node S) :=
  match k with
  | O => Val ([], pc, n)
  | Datatypes.S k =>
      match applyLoop_step pc n with
      | Panic => Panic
      | Val ((pc', msg), n') =>
          match apply_run k pc' n' with
          | Panic => Panic
          | Val (msgs, pc'', n'') => Val (option_list msg ++ msgs, pc'', n'')
          end
      end
  end.

Lemma apply_run_S k pc n :
  apply_run (Datatypes.S k) pc n =
  match applyLoop_step pc n with
  | Panic => Panic
  | Val ((pc', msg), n') =>
      match apply_run k pc' n' with
      | Panic => Panic
      | Val (msgs, pc'', n'') => Val (option_list msg ++ msgs, pc'', n'')
      end
  end.
Proof. done. Qed.

Lemma unapplied_length n :
  wf n → length (unapplied n) = N.to_nat (n_commitIndex n - n_lastApplied n).
Proof.
  intros []. unfold unapplied. rewrite length_take, length_drop. unfold next_index in *. lia.
Qed.

Lemma apply_run_drains n pc :
  node_ok n → n_pendingSnapshot n = None → pc ≠ Asleep →
  ∃ n', apply_run (Datatypes.S (length (unapplied n))) pc n =
          Val (as_msg <$> unapplied n, Asleep, n') ∧
        n' = applied_up n (n_commitIndex n) ∧ node_ok n'.
Proof.
  remember (length (unapplied n)) as k eqn:Hk. revert n pc Hk.
  induction k as [|k IH]; intros n pc Hk Hok Hnone Hpc; rewrite apply_run_S;
    (assert (applyLoop_step pc n = applyLoop_inner n) as ->
      by (unfold applyLoop_step, mbind, GoM_bind, get; by destruct pc; rewrite ?Hnone));
    destruct (wp_total _ _ _ (applyLoop_inner_spec n Hok)) as (r & n1 & -> & Hr);
    destruct (unapplied n) as [|e es] eqn:Hu; try done.
  - destruct Hr as [-> ->]. cbn. exists n. split; [done|].
    pose proof (proj1 (proj2 Hok)) as Hw. apply (f_equal length) in Hu.
    rewrite unapplied_length in Hu by done. pose proof (wf_committed _ Hw). cbn in Hu.
    assert (n_commitIndex n = n_lastApplied n) as -> by lia. by destruct n.
  - destruct Hr as (-> & Hi & -> & Hok'). cbn [fmap list_fmap].
    assert (unapplied (applied_up n (Index e)) = es) as Hes.
    { pose proof (proj1 (proj2 Hok)) as Hw.
      assert (n_lastApplied n < n_commitIndex n)%N as Hlt.
      { apply (f_equal length) in Hu. rewrite unapplied_length in Hu by done. cbn in Hu. lia. }
      destruct (unapplied_cons n Hw Hlt) as (e' & _ & Hi' & Hu' & _). rewrite Hi. congruence. }
    injection Hk as Hk.
    destruct (IH (applied_up n (Index e)) Inner) as (n' & Hrun & -> & Hok2); [by rewrite Hes|done|done|done|].
    rewrite Hrun, Hes. exists (applied_up (applied_up n (Index e)) (n_commitIndex n)). done.
Qed.

(** ** Every operation of a node *)
Inductive NodeOp : Type :=
| Local (op : LocalOp)
| Campaign (e : Env)
| Solo (term : N)
| VoteReply (term : N) (votes : nat) (r : RequestVoteReply)
| Replicate (peer : NodeID) (term : N).

Definition run_node_op (op : NodeOp) : GoM (Node S) () :=
  match op with
  | Local op => run_op op
  | Campaign e => discard (startElection e)
  | Solo t => startElection_solo t
  | VoteReply t v r => discard (onRequestVoteReply t v r)
  | Replicate p t => discard (replicateToPeer p t)
  end.

(** What the environment may do: messages of correct peers, values that fit
    the storage's records, indices below [2 ^ 63], terms below [2 ^ 64]. *)
Definition op_safe n (op : NodeOp) : Prop :=
  match op with
  | Local (OpHandle _ (ReqVote a)) => (rv_Term a < two64)%N ∧ vote_fits (rv_CandidateID a)
  | Local (OpHandle _ (ReqAppend a)) => ae_valid n a ∧ not_own n (ae_Term a)
  | Local (OpHandle _ (ReqSnapshot a)) => is_valid n a ∧ not_own n (is_Term a)
  | Local (OpPropose cmd) => (next_index (n_log n) < two63)%N ∧
      entry_fits (MkEntry (n_currentTerm n) (next_index (n_log n)) cmd)
  | Local (OpSnapshot _ data) => snapshot_fits data
  | Local (OpAppendReply _ t args r) => reply_valid n t args r
  | Local (OpSnapshotReply _ t args r) => (isr_Term r < two64)%N ∧
      (not_leading n t = false → is_LastIncludedIndex args < next_index (n_log n))%N
  | Campaign _ => vote_fits (n_id n) ∧ (n_currentTerm n + 1 < two64)%N
  | VoteReply _ _ r => (rvr_Term r < two64)%N
  | _ => True
  end.

Lemma wp_discard {A} pan (m : GoM (Node S) A) (Q : Node S → Prop) n :
  wp pan m (λ _ n', Q n') n → wp pan (discard m) (λ _ n', Q n') n.
Proof. intros Hm. unfold discard. wp_step. eapply wp_mono; [|done]. cbn. intros a n' ?. by wp_step. Qed.

Lemma run_op_serving n op :
  service n → op_safe n (Local op) → wp False (run_op op) (λ _ n', serving n') n.
Proof.
  intros Hs Hop. destruct op as [e [a|a|a]|cmd|i data|e|i| |pc|p t a r|p t a r]; cbn in Hop |- *.
  - apply wp_discard, wrap_serving. apply handleRequestVote_serving; [done|apply Hop..].
  - apply wp_discard, wrap_serving. apply handleAppendEntries_serving; [done|apply Hop..].
  - apply wp_discard, wrap_serving. apply handleInstallSnapshot_serving; [done|apply Hop..].
  - apply wp_discard. apply Propose_serving; [done|apply Hop..].
  - apply wp_discard. by apply Snapshot_serving.
  - apply wp_discard. by apply tick_serving.
  - by apply trigger_serving.
  - apply wp_discard. by apply take_trigger_serving.
  - apply wp_discard. by apply applyLoop_serving.
  - by apply onAppendReply_serving.
  - apply onSnapshotReply_serving; [done|apply Hop..].
Qed.

Lemma run_node_op_serving n op :
  service n → op_safe n op → wp False (run_node_op op) (λ _ n', serving n') n.
Proof.
  intros Hs Hop. destruct op as [op|e|t|t v r|p t]; cbn in Hop |- *.
  - by apply run_op_serving.
  - apply wp_discard. eapply wp_mono; [|apply startElection_serving; [done|apply Hop..]]. by intros r n' (? & _).
  - by apply startElection_solo_serving.
  - apply wp_discard. by apply onRequestVoteReply_serving.
  - apply wp_discard. eapply wp_mono; [|by apply replicateToPeer_spec].
    intros r n' [-> _]. by apply service_serving.
Qed.

(** A schedule, up to the first storage error. *)
Fixpoint run_ops (ops : list NodeOp) n : go (Node S) :=
  match ops with
  | [] => Val n
  | op :: ops =>
      if n_failed n then Val n
      else match run_node_op op n with
           | Val (_, n') => run_ops ops n'
           | Panic => Panic
           end
  end.

Fixpoint ops_safe (ops : list NodeOp) n : Prop :=
  match ops with
  | [] => True
  | op :: ops => op_safe n op ∧ ∀ n', run_node_op op n = Val ((), n') → n_failed n' = false → ops_safe ops n'
  end.

Lemma run_ops_serving ops n :
  serving n → (n_failed n = false → ops_safe ops n) →
  ∃ n', run_ops ops n = Val n' ∧ serving n'.
Proof.
  revert n. induction ops as [|op ops IH]; intros n Hs Hops; cbn; [eauto|].
  destruct (n_failed n) eqn:Hf; [eauto|]. destruct (Hops eq_refl) as [Hop Hrest].
  destruct (wp_total _ _ _ (run_node_op_serving n op (Hs Hf) Hop)) as ([] & n1 & Hrun & Hs1).
  rewrite Hrun. apply IH; [done|]. intros Hf1. by apply Hrest.
Qed.

(** ** Restart *)
Record recovered (cfg : Config) (ps : PersistentState) n : Prop := {
  rec_cfg : n_cfg n = apply_defaults cfg;
  rec_role : n_role n = Follower;
  rec_term : n_currentTerm n = CurrentTerm ps;
  rec_vote : n_votedFor n = VotedFor ps;
  rec_log : n_log n = Log ps;
  rec_data : n_snapshotData n = SnapshotData ps;
  rec_lii : n_lastIncludedIndex n = first_index (Log ps);
  rec_commit : n_commitIndex n = first_index (Log ps);
  rec_applied : n_lastApplied n = first_index (Log ps);
  rec_pending : n_pendingSnapshot n =
    (if (0 <? first_index (Log ps))%N
     then Some (SnapshotMsg (SnapshotData ps) (first_index (Log ps)) (first_term (Log ps)))
     else None);
}.

Definition config_ok (cfg : Config) : Prop :=
  c_ID cfg ≠ "" ∧
  (c_ElectionTimeoutMin (apply_defaults cfg) ≤ c_ElectionTimeoutMax (apply_defaults cfg))%Z.

(** Whatever the storage, a [Load] that succeeds gives a node in service. *)
Lemma NewNode_loads cfg e st ps st' :
  config_ok cfg → Load st = Val (inl ps, st') → sto_ok st' → view st' = ps →
  (next_index (Log ps) ≤ two63)%N → (CurrentTerm ps < two64)%N →
  Forall (λ e, Term e < two64)%N (Log ps) →
  ∃ n, NewNode cfg e st = Val (inl n, st') ∧ service n ∧ recovered cfg ps n ∧ n_storage n = st'.
Proof.
  intros [Hid Hto] Hld Hok' Hv Hb Ht Hts. unfold NewNode. rewrite bool_decide_false by done.
  destruct (Z.ltb_spec (c_ElectionTimeoutMax (apply_defaults cfg))
    (c_ElectionTimeoutMin (apply_defaults cfg))); [lia|].
  rewrite Hld. pose proof (view_wf st' Hok') as Hwf. rewrite Hv in Hwf.
  destruct (Log ps) as [|b es] eqn:Hl; [done|]. rewrite (slice_get_Some (b :: es) 0 b eq_refl).
  cbn. eexists. split; [done|]. split; [|split; [|done]].
  - split; [|done]. split; [done|]. split.
    + split; cbn; rewrite ?Hl; try done; unfold next_index in *; cbn in *; lia.
    + intros _. cbn. by rewrite Hv, Hl.
  - split; cbn; rewrite ?Hl; done.
Qed.

Lemma NewNode_spec cfg e st :
  config_ok cfg → loads st → (next_index (Log (view st)) ≤ two63)%N →
  (CurrentTerm (view st) < two64)%N → Forall (λ e, Term e < two64)%N (Log (view st)) →
  match NewNode cfg e st with
  | Val (inl n, _) => service n ∧ recovered cfg (view st) n
  | Val (inr _, st') => ∃ err, Load st = Val (inr err, st')
  | Panic => False
  end.
Proof.
  intros Hcfg Hok Hb Ht Hts.
  destruct (wp_total _ _ _ (load_spec st Hok)) as ([ps|err] & st' & Hld & Hps).
  - destruct (Hps ps eq_refl) as (-> & Hv & Hok').
    by destruct (NewNode_loads cfg e st _ st' Hcfg Hld Hok' Hv Hb Ht Hts) as (n & -> & ? & ? & _).
  - unfold NewNode. destruct Hcfg as [Hid Hto]. rewrite bool_decide_false by done.
    destruct (Z.ltb_spec (c_ElectionTimeoutMax (apply_defaults cfg))
      (c_ElectionTimeoutMin (apply_defaults cfg))); [lia|]. rewrite Hld. by exists err.
Qed.

(** The storage of a node in service is fit for a restart. *)
Lemma node_ok_storage n :
  node_ok n →
  sto_ok (n_storage n) ∧ (next_index (Log (view (n_storage n))) ≤ two63)%N ∧
  (CurrentTerm (view (n_storage n)) < two64)%N ∧
  Forall (λ e, Term e < two64)%N (Log (view (n_storage n))).
Proof.
  intros Hok. destruct (disk_next' _ Hok) as (Hsto & Hnx & _). destruct Hok as (Hf & Hw & Hd).
  destruct (Hd Hf) as (_ & Ht & _ & _ & Hfi & Hft & Htl). split; [done|].
  split; [rewrite Hnx; apply Hw|]. split; [rewrite Ht; apply Hw|].
  pose proof (wf_terms _ Hw) as Hts. pose proof (log_ne _ (wf_log _ Hw)).
  destruct (Log (view (n_storage n))) as [|b es], (n_log n) as [|b' es']; try done.
  cbn in *. inversion Hts; subst. constructor; [congruence|done].
Qed.
End Service.
