(* ===== verification/RaftProperties.v ===== *)
(** * Properties of one consensus node

    The theorems of [RaftLog], [RaftReplicate] and [RaftService] as properties
    of the handlers, each with a concrete run that meets its hypotheses, and
    two runs in which InstallSnapshot breaks what the code promises. *)
From S2P Require Import Prelude RaftTypes MemoryStorage RaftNode RaftVotes RaftCluster RaftElection RaftLog RaftReplicate RaftService.

(** ** Concrete nodes over [MemoryStorage] *)

(** A node whose storage holds what it has in memory. *)
Definition mem_node (id : NodeID) (role : Role) (term : N) (lii lit : N) (es : list LogEntry)
    (commit applied : N) (next : gmap NodeID N) : Node MemoryStorage :=
  MkNode (cfg_among three id) (MkMemory term "" es lii lit []) role term "" ""
    (boundary lii lit :: es) commit next ∅ 0 0 false None lii lit [] applied None false None lii.

Lemma mem_node_ok id role term lii lit es commit applied next :
  contiguous (lii + 1) es → (lii + 1 + N.of_nat (length es) ≤ two63)%N →
  (lii ≤ applied ≤ commit)%N → (commit < lii + 1 + N.of_nat (length es))%N →
  (term < two64)%N → Forall (λ e, Term e < two64)%N (boundary lii lit :: es) →
  node_ok (mem_node id role term lii lit es commit applied next).
Proof.
  intros Hc Hb Ha Hco Ht Hts. split; [done|]. split; [|by intros _].
  split; unfold next_index in *; cbn in *; try done; lia.
Qed.

Lemma mem_node_service id role term lii lit es commit applied next :
  node_ok (mem_node id role term lii lit es commit applied next) →
  map_Forall (λ _ i, i ≤ lii + 1 + N.of_nat (length es))%N next →
  service (mem_node id role term lii lit es commit applied next).
Proof.
  intros Hok Hn. split; [done|]. intros _ p. cbn. unfold map_get, next_index. cbn.
  destruct (next !! p) as [i|] eqn:E; cbn; [|lia]. specialize (Hn p i E). cbn in Hn. lia.
Qed.

Definition cmd (b : Byte.byte) : bytes := [b].

(** A follower in term 1 that holds two entries of term 1, one committed. *)
Definition follower_b : Node MemoryStorage :=
  mem_node "b" Follower 1 0 0 [MkEntry 1 1 (cmd Byte.x01); MkEntry 1 2 (cmd Byte.x02)] 1 0 ∅.

(** The leader of term 2 replaces the second. *)
Definition append_2 : AppendEntriesArgs :=
  MkAEArgs 2 "a" 1 1 [MkEntry 2 2 (cmd Byte.x03); MkEntry 2 3 (cmd Byte.x04)] 2.

(** The leader of term 1. *)
Definition leader_a : Node MemoryStorage :=
  mem_node "a" Leader 1 0 0 [MkEntry 1 1 (cmd Byte.x01); MkEntry 1 2 (cmd Byte.x02)] 0 0
    (<["b" := 3%N]> (<["c" := 1%N]> ∅)).

Lemma follower_b_ok : node_ok follower_b.
Proof. apply mem_node_ok; cbn; try done; try lia. by repeat constructor. Qed.

Lemma leader_a_service : service leader_a.
Proof.
  apply mem_node_service.
  - apply mem_node_ok; cbn; try done; try lia. by repeat constructor.
  - by apply (bool_decide_unpack (map_Forall _ _)).
Qed.

Lemma append_2_valid : ae_valid follower_b append_2.
Proof.
  split; cbn; try done; [by repeat constructor|by repeat constructor|].
  intros e e' He He' Hi Hle. repeat (apply elem_of_cons in He as [->|He]; [cbn in Hle; lia|]).
  by apply not_elem_of_nil in He.
Qed.

Section Properties.
  Context {S : Type} `{StorageSpec S}.
  Implicit Types (n : Node S).

(** A node in service never panics and stays consistent.  Whatever the
    schedule of operations a correct environment performs on it, every critical
    section runs to its end, and afterwards the log is contiguous, the indices
    are ordered (snapshot, applied, committed, last), a leader's [nextIndex]
    stays inside the log and the storage holds exactly the state in memory,
    up to the first storage error, which disables the node. *)
Theorem node_stays_in_service n ops :
  service n → ops_safe ops n → ∃ n', run_ops ops n = Val n' ∧ (n_failed n' = false → service n').
Proof. intros Hs Hops. apply run_ops_serving; [by apply service_serving|done]. Qed.

(** C13: receiver rules 2 to 5.  A request of the current or a later term is
    answered with success exactly when the entry before the new ones matches;
    the log then is the merge of the old one with the new entries, and the
    commit index follows [min(LeaderCommit, last)]; otherwise log and commit
    index stay and the reply carries the fast-backup hint.  A stale request
    changes nothing. *)
Theorem appendEntries_correct n e args :
  node_ok n → ae_valid n args →
  ∃ r n', handleAppendEntries e args n = Val (r, n') ∧
    if (ae_Term args <? n_currentTerm n)%N
    then r = inl (MkAEReply (n_currentTerm n) false 0 0) ∧ n' = n
    else ae_post n args (ae_Term args) r n'.
Proof. intros Hok Hv. apply wp_total. by apply handleAppendEntries_spec. Qed.

(** An acknowledged AppendEntries keeps every committed entry and makes
    the new ones durable: after a success reply, the log up to the commit index
    is what it was, and every entry of the request after the snapshot boundary
    is in the log and in the storage, at its index and with its term. *)
Theorem appendEntries_durable n e args rep n' :
  node_ok n → ae_valid n args → (n_currentTerm n ≤ ae_Term args)%N →
  handleAppendEntries e args n = Val (inl rep, n') → aer_Success rep = true →
  let c := N.to_nat (n_commitIndex n - n_lastIncludedIndex n) + 1 in
  take c (n_log n') = take c (n_log n) ∧
  ∀ x, x ∈ ae_Entries args → (n_lastIncludedIndex n < Index x)%N →
    ∃ y, y ∈ n_log n' ∧ y ∈ Log (view (n_storage n')) ∧ Index y = Index x ∧ Term y = Term x.
Proof.
  intros Hok Hv Hle Hrun Hs c. pose proof (wp_run _ _ _ _ _ _ (handleAppendEntries_spec n e args Hok Hv) Hrun) as HQ.
  cbn beta in HQ. destruct (N.ltb_spec (ae_Term args) (n_currentTerm n)); [lia|].
  destruct HQ as (Hok' & _ & -> & Hlii & _ & Hc). unfold ae_reply in Hs.
  destruct (ae_consistent n args) eqn:Hco; [|done]. destruct Hc as [Hl _].
  destruct (ae_merge_facts n args Hok Hv Hco) as [Hkeep Hhas]. rewrite Hl. split; [exact Hkeep|].
  intros x Hx Hi. destruct (Hhas x Hx Hi) as (k & y & Hk & Hpos & Hiy & Hty).
  exists y. split; [by eapply list_elem_of_lookup_2|]. split; [|done].
  destruct Hok' as (Hf' & Hw' & Hd'). destruct (Hd' Hf') as (_ & _ & _ & _ & _ & _ & Htl).
  rewrite <- Hl in Hk. destruct (n_log n') as [|b es]; [done|].
  destruct k as [|k]; [lia|]. cbn in Hk, Htl.
  destruct (Log (view (n_storage n'))) as [|b' es']; cbn in Htl; subst; [done|].
  right. by eapply list_elem_of_lookup_2.
Qed.

(** The commit rule of the paper (section 5.4.2): an entry after the commit
    index and of the leader's term, which more than half of the cluster stores,
    that is of the leader, which does, and its peers. *)
Definition majority_stores n (i : N) : Prop :=
  (n_commitIndex n < i < next_index (n_log n))%N ∧
  (∃ e, n_log n !! N.to_nat (i - n_lastIncludedIndex n) = Some e ∧ Term e = n_currentTerm n) ∧
  1 + length (n_peers n) < 2 * (1 + length (filter (λ p, (i ≤ map_get (n_matchIndex n) p)%N) (n_peers n))).

(** In a cluster of odd size the code counts majorities. *)
Lemma may_commit_majority n i : Nat.Odd (1 + length (n_peers n)) → may_commit n i ↔ majority_stores n i.
Proof.
  intros [k Hk]. unfold may_commit, majority_stores, majority_of. assert (length (n_peers n) / 2 = k) as ->.
  { replace (length (n_peers n)) with (k * 2) by lia. by apply Nat.div_mul. }
  split; intros (Hi & He & Hc); (split; [done|split; [done|lia]]).
Qed.

(** C14: the leader commits by the rule of the paper.  In a cluster of odd size,
    after [maybeAdvanceCommitLocked] on a leader the commit index is the largest
    index after the old one that holds an entry of the current term and is
    stored by more than half of the cluster, or the old one when there is none;
    nothing else of the node changes but that the apply loop is woken.  (With an
    even number of members the code is content with half of them, see
    [even_cluster_commits_alone] below.) *)
Theorem commit_rule n :
  wf n → n_role n = Leader → Nat.Odd (1 + length (n_peers n)) →
  ∃ n', maybeAdvanceCommitLocked n = Val ((), n') ∧
    ((∃ i, majority_stores n i ∧ (∀ j, majority_stores n j → (j ≤ i)%N) ∧
        n' = set_applyWake true (set_commitIndex i n)) ∨
     ((∀ j, ¬ majority_stores n j) ∧ n' = n)).
Proof.
  intros Hw HL Hodd. destruct (wp_total _ _ _ (maybeAdvanceCommit_spec n Hw)) as ([] & n' & Hrun & Hco).
  exists n'. split; [done|]. pose proof (λ i, may_commit_majority n i Hodd) as Hm.
  destruct Hco as [(_ & i & Hi & Hmax & ->)|[Hno ->]]; [left; exists i|right; split; [|done]].
  - split; [by apply Hm|]. split; [|done]. intros j Hj. by apply Hmax, Hm.
  - intros j Hj. by apply (Hno HL j), Hm.
Qed.

(** A vote is granted only to a candidate of the node's own term whose log
    is at least as up to date, and it is in memory and on disk when the reply
    leaves; the log is not touched. *)
Theorem vote_rule n e args r n' :
  node_ok n → (rv_Term args < two64)%N → vote_fits (rv_CandidateID args) →
  handleRequestVote e args n = Val (inl r, n') → rvr_VoteGranted r = true →
  up_to_date n args ∧ n_log n' = n_log n ∧
  rvr_Term r = rv_Term args ∧ n_currentTerm n' = rv_Term args ∧
  hard_view (n_storage n') = (rv_Term args, rv_CandidateID args).
Proof.
  intros Hok Ht Hv Hrun Hg.
  pose proof (wp_run _ _ _ _ _ _ (handleRequestVote_spec n e args Hok Ht Hv) Hrun) as (Hfr & Hs & Hr & Hgr).
  destruct (Hgr Hg) as (Hup & Htt & Hvo & Hf'). destruct (Hs Hf') as (_ & _ & Hd).
  destruct (Hd Hf') as (Hsto & Ht' & Hv' & _).
  split; [done|]. split; [by apply Hfr|]. split; [congruence|]. split; [done|].
  rewrite view_hard by done. congruence.
Qed.

(** A proposal on a leader appends the command at the next index with the
    current term, in memory and on disk, and reports that index and term; the
    log only grows.  On any other node, and after a failed write, the caller is
    told it is not talking to the leader. *)
Theorem Propose_appends n command :
  node_ok n → (next_index (n_log n) < two63)%N →
  entry_fits (MkEntry (n_currentTerm n) (next_index (n_log n)) command) →
  ∃ r n', Propose command n = Val (r, n') ∧
    if decide (n_role n = Leader)
    then (n_failed n' = true ∧ r = (0%N, 0%N, false)) ∨
         (r = (next_index (n_log n), n_currentTerm n, true) ∧ node_ok n' ∧
          n_log n' = n_log n ++ [MkEntry (n_currentTerm n) (next_index (n_log n)) command] ∧
          (n_commitIndex n ≤ n_commitIndex n')%N)
    else r = (0%N, 0%N, false) ∧ n' = n.
Proof.
  intros Hok Hb Hfit. destruct (wp_total _ _ _ (Propose_spec n command Hok Hb Hfit)) as (r & n' & Hrun & HQ).
  exists r, n'. split; [done|]. case_decide; [|done]. destruct HQ as [_ [?|(? & ? & ? & ?)]]; auto.
Qed.

(** Compaction.  [Snapshot] at an applied index past the last snapshot
    keeps every later entry and every index but the boundary; at an index at or
    before the last snapshot it is a no-op, and for an index that has not been
    applied an error without effect. *)
Theorem Snapshot_compacts n index data :
  node_ok n → snapshot_fits data →
  ∃ r n', Snapshot index data n = Val (r, n') ∧
    if decide (n_lastIncludedIndex n < index ≤ n_lastApplied n)%N
    then if n_failed n' then r ≠ None
         else r = None ∧ node_ok n' ∧
           ∃ e, n_log n !! N.to_nat (index - n_lastIncludedIndex n) = Some e ∧
                cut_at n index (Term e) data n'
    else n' = n ∧ (r = None ↔ (index ≤ n_lastIncludedIndex n)%N).
Proof. intros Hok Hfit. apply wp_total. by apply Snapshot_spec. Qed.

(** A snapshot that does not conflict with the node's log is installed:
    the boundary, the data and the indices are the snapshot's (the latter never
    go back), the entries after it are kept, and it is queued for the
    application; one that is not beyond the node's own changes nothing but the
    leader and the timer. *)
Theorem InstallSnapshot_installs n e args :
  node_ok n → is_valid n args →
  ∃ r n', handleInstallSnapshot e args n = Val (r, n') ∧
    if (is_Term args <? n_currentTerm n)%N
    then r = inl (MkISReply (n_currentTerm n)) ∧ n' = n
    else match r with
         | inr _ => n_failed n' = true
         | inl rep => rep = MkISReply (is_Term args) ∧ n_currentTerm n' = is_Term args ∧
             node_ok n' ∧
             if decide (is_LastIncludedIndex args ≤ n_lastIncludedIndex n)%N
             then core_frame n n' else installed n args n'
         end.
Proof. intros Hok Hv. apply wp_total. by apply handleInstallSnapshot_spec. Qed.

(** Crash recovery.  A node that stops at any point while in service and
    is started again on its storage comes back (when loading succeeds) as a
    follower in service with the same term, vote, snapshot and log (but for the
    boundary's command), committed and applied up to the snapshot only, and the
    snapshot first in line for the application. *)
Theorem restart_recovers n cfg e :
  node_ok n → config_ok cfg →
  match NewNode cfg e (n_storage n) with
  | Val (inl n', _) =>
      service n' ∧ n_role n' = Follower ∧
      n_currentTerm n' = n_currentTerm n ∧ n_votedFor n' = n_votedFor n ∧
      same_log (n_log n') (n_log n) ∧ n_snapshotData n' = n_snapshotData n ∧
      n_lastIncludedIndex n' = n_lastIncludedIndex n ∧
      n_lastIncludedTerm n' = n_lastIncludedTerm n ∧
      n_commitIndex n' = n_lastIncludedIndex n ∧ n_lastApplied n' = n_lastIncludedIndex n ∧
      n_pendingSnapshot n' =
        (if (0 <? n_lastIncludedIndex n)%N
         then Some (SnapshotMsg (n_snapshotData n) (n_lastIncludedIndex n) (n_lastIncludedTerm n))
         else None)
  | Val (inr _, st') => ∃ err, Load (n_storage n) = Val (inr err, st')
  | Panic => False
  end.
Proof.
  intros Hok Hcfg. destruct (node_ok_storage n Hok) as (Hsto & Hb & Ht & Hts).
  pose proof (NewNode_spec cfg e _ Hcfg (loads_ok _ Hsto) Hb Ht Hts) as Hnew.
  destruct (NewNode cfg e (n_storage n)) as [[[n'|err] st']|]; [|done..].
  destruct Hnew as [Hs' []]. destruct Hok as (Hf & Hw & Hd).
  destruct (Hd Hf) as (_ & Ht' & Hv' & Hsd & Hsame). pose proof Hsame as (Hfi & Hft & _).
  pose proof (proj1 (proj2 (proj1 Hs'))) as Hw'. pose proof (wf_bterm _ Hw') as Hbt.
  rewrite rec_log in Hbt. rewrite (wf_first _ Hw) in Hfi. rewrite (wf_bterm _ Hw) in Hft.
  rewrite rec_term, rec_vote, rec_log, rec_data, rec_lii, rec_commit, rec_applied, rec_pending.
  rewrite <- Hbt, Hfi, Hft, Hsd, Ht', Hv'. auto 12.
Qed.

(** C15: committed entries reach the application in order, once each.  Run from
    an awake state with no snapshot pending, the apply loop delivers exactly the
    entries after [lastApplied] up to [commitIndex], in log order, and then
    sleeps with everything applied. *)
Theorem apply_loop_delivers n pc :
  node_ok n → n_pendingSnapshot n = None → pc ≠ Asleep →
  ∃ n', apply_run (1 + length (unapplied n)) pc n = Val (as_msg <$> unapplied n, Asleep, n') ∧
    n_lastApplied n' = n_commitIndex n ∧ n_log n' = n_log n ∧ node_ok n' ∧
    length (unapplied n) = N.to_nat (n_commitIndex n - n_lastApplied n).
Proof.
  intros Hok Hnone Hpc. destruct (apply_run_drains n pc Hok Hnone Hpc) as (n' & Hrun & -> & Hok').
  exists (applied_up n (n_commitIndex n)). split; [exact Hrun|]. split; [done|]. split; [done|].
  split; [done|]. apply unapplied_length, Hok.
Qed.

(** What a leader sends.  [replicateToPeer] reads the log without a panic
    and sends, unless a snapshot is needed or leadership is lost, the whole
    tail from the peer's [nextIndex] with the index and term of the entry before
    it; the commit index it announces is covered by what it sends. *)
Theorem replicateToPeer_sends n peer term :
  service n →
  ∃ out, replicateToPeer peer term n = Val (out, n) ∧
    match out with
    | SendNothing => not_leading n term = true
    | NeedSnapshot => (map_get (n_nextIndex n) peer ≤ n_lastIncludedIndex n)%N
    | SendAppend args => sent_ok n term args ∧
        (ae_PrevLogIndex args + 1 = map_get (n_nextIndex n) peer)%N
    end.
Proof.
  intros Hs. destruct (wp_total _ _ _ (replicateToPeer_spec n peer term Hs)) as (out & n' & Hrun & -> & HQ).
  by exists out.
Qed.

(** A duplicated AppendEntries is harmless.  Delivering an acknowledged
    request again succeeds again (or a storage error disables the node) and
    leaves the log and the commit index as they are. *)
Theorem appendEntries_idempotent n e e' args rep n' :
  node_ok n → ae_valid n args → (n_currentTerm n ≤ ae_Term args)%N →
  handleAppendEntries e args n = Val (inl rep, n') → aer_Success rep = true →
  ∃ r n'', handleAppendEntries e' args n' = Val (r, n'') ∧
    (n_failed n'' = true ∨
     r = inl rep ∧ n_log n'' = n_log n' ∧ n_commitIndex n'' = n_commitIndex n').
Proof.
  intros Hok Hv Hle Hrun Hs.
  pose proof (wp_run _ _ _ _ _ _ (handleAppendEntries_spec n e args Hok Hv) Hrun) as HQ.
  cbn beta in HQ. destruct (N.ltb_spec (ae_Term args) (n_currentTerm n)); [lia|].
  destruct HQ as (Hok' & Ht' & -> & Hlii & _ & Hc). unfold ae_reply in Hs.
  destruct (ae_consistent n args) eqn:Hco; [|done]. destruct Hc as [Hl Hcm].
  destruct (ae_again n n' args Hok Hok' Hv Hco Hlii Hl Hcm) as (Hv' & Hco' & Hl' & Hcm').
  destruct (wp_total _ _ _ (handleAppendEntries_spec n' e' args Hok' Hv')) as (r & n'' & Hrun' & HQ).
  exists r, n''. split; [done|]. rewrite Ht', N.ltb_irrefl in HQ. destruct r as [rep|]; [|by left].
  right. destruct HQ as (_ & _ & -> & _ & _ & Hc). unfold ae_reply. rewrite Hco, Hco' in *.
  destruct Hc as [Hc1 Hc2]. split; [done|]. split; [congruence|]. rewrite Hc2, Hc1, Hl'. done.
Qed.

(** Fast backup always makes progress.  When a follower refuses a request
    of the leader's term, and the two logs match in the sense of the paper (an
    entry the leader holds at or after [PrevLogIndex] with the term the follower
    has there means the leader has that term there too), the leader's
    [nextIndex] for it drops to [PrevLogIndex] or below, and not below 1. *)
Theorem fast_backup_progress (f : Node S) n peer args e rep f' n' :
  node_ok f → ae_valid f args → (n_currentTerm f ≤ ae_Term args)%N →
  (0 < ae_PrevLogIndex args)%N →
  handleAppendEntries e args f = Val (inl rep, f') → aer_Success rep = false →
  service n → n_role n = Leader → n_currentTerm n = ae_Term args →
  (∀ x y, x ∈ n_log f → Index x = ae_PrevLogIndex args → y ∈ n_log n →
     (ae_PrevLogIndex args ≤ Index y)%N → Term y = Term x → Term x = ae_PrevLogTerm args) →
  onAppendReply peer (ae_Term args) args rep n = Val ((), n') →
  (1 ≤ map_get (n_nextIndex n') peer ≤ ae_PrevLogIndex args)%N.
Proof.
  intros Hok Hv Hle Hpos Hrun Hs Hsv HL Ht Hmatch Hback.
  destruct (refusal f e args rep f' Hok Hv Hle Hpos Hrun Hs) as (Hrt & Hcase).
  rewrite onAppendReply_refused in Hback; [|apply not_leading_false; split; [apply Hsv|done]|done|lia].
  injection Hback as <-. unfold map_get. cbn. rewrite lookup_insert_eq. cbn.
  pose proof (proj1 (proj2 (proj1 Hsv))) as Hwn. pose proof (wf_bound _ Hwn). pose proof two63_lt_two64.
  unfold backed_up. destruct Hcase as [(-> & Hci)|(x & Hx & Hix & Hne & Hct & Hnz & Hci)].
  { rewrite N.eqb_refl. lia. }
  destruct (N.eqb_spec (aer_ConflictTerm rep) 0); [congruence|].
  pose proof (proj1 (proj2 Hok)) as Hwf.
  pose proof (firstIndexOfTerm_le f _ x Hwf Hx eq_refl Hnz).
  assert (aer_ConflictIndex rep ≤ ae_PrevLogIndex args)%N by (rewrite <- Hix; lia).
  destruct (lastIndexOfTermLocked n (aer_ConflictTerm rep)) as [idx|] eqn:Hlast; [|lia].
  apply last_index_of_term_bound in Hlast as (y & Hy%list_elem_of_In%in_rev%list_elem_of_In & Hiy & Hty).
  pose proof (log_index_bound n y Hwn Hy). rewrite u64_add_small by lia.
  destruct (decide (ae_PrevLogIndex args ≤ Index y)%N); [|lia].
  destruct Hne. apply (Hmatch x y); try done. congruence.
Qed.
End Properties.

(** ** Concrete runs *)

(** "a" proposes, sends its log to "b" and hears back. *)
Definition replicate_ops : list NodeOp :=
  [Local (OpPropose (cmd Byte.x03)); Replicate "b" 1;
   Local (OpAppendReply "b" 1 (MkAEArgs 1 "a" 2 1 [MkEntry 1 3 (cmd Byte.x03)] 0) (MkAEReply 1 true 0 0));
   Local (OpApply Top)].

Lemma replicate_ops_safe : ops_safe replicate_ops leader_a.
Proof.
  split; [by split|]. intros n1 Hn1 _. vm_compute in Hn1. injection Hn1 as <-.
  split; [done|]. intros n2 Hn2 _. vm_compute in Hn2. injection Hn2 as <-.
  split; [by split|]. intros n3 Hn3 _. vm_compute in Hn3. injection Hn3 as <-.
  by repeat split.
Qed.

Lemma node_stays_in_service_witness : ∃ n',
  run_ops replicate_ops leader_a = Val n' ∧ n_commitIndex n' = 3%N ∧ n_lastApplied n' = 1%N ∧
  service n'.
Proof.
  destruct (node_stays_in_service leader_a replicate_ops leader_a_service replicate_ops_safe)
    as (n' & Hrun & Hs).
  assert (n_failed n' = false ∧ n_commitIndex n' = 3%N ∧ n_lastApplied n' = 1%N) as (Hf & Hc & Ha).
  { vm_compute in Hrun. injection Hrun as <-. by vm_compute. }
  exists n'. split; [exact Hrun|]. split; [exact Hc|]. split; [exact Ha|]. exact (Hs Hf).
Defined.

Lemma appendEntries_correct_witness : ∃ r n',
  handleAppendEntries env0 append_2 follower_b = Val (r, n') ∧
  ae_post follower_b append_2 2 r n' ∧ r = inl (MkAEReply 2 true 0 0) ∧ n_commitIndex n' = 2%N.
Proof.
  destruct (appendEntries_correct follower_b env0 append_2 follower_b_ok append_2_valid)
    as (r & n' & Hrun & HQ).
  exists r, n'. split; [exact Hrun|]. split; [exact HQ|].
  vm_compute in Hrun. injection Hrun as <- <-. split; vm_compute; reflexivity.
Defined.

Definition after_append_2 : Node MemoryStorage :=
  match handleAppendEntries env0 append_2 follower_b with Val (_, n) => n | Panic => follower_b end.

Lemma append_2_runs :
  handleAppendEntries env0 append_2 follower_b = Val (inl (MkAEReply 2 true 0 0), after_append_2).
Proof. vm_compute. reflexivity. Qed.

Lemma appendEntries_durable_witness :
  take 2 (n_log after_append_2) = take 2 (n_log follower_b) ∧
  ∃ y, y ∈ n_log after_append_2 ∧ y ∈ Log (view (n_storage after_append_2)) ∧
    Index y = 3%N ∧ Term y = 2%N.
Proof.
  destruct (appendEntries_durable follower_b env0 append_2 _ _ follower_b_ok append_2_valid
    (N.lt_le_incl 1 2 eq_refl) append_2_runs eq_refl) as [Hkeep Hall].
  split; [exact Hkeep|]. apply (Hall (MkEntry 2 3 (cmd Byte.x04))); [|reflexivity].
  right. left.
Defined.

Lemma appendEntries_idempotent_witness : ∃ r n'',
  handleAppendEntries env0 append_2 after_append_2 = Val (r, n'') ∧
  (n_failed n'' = true ∨
   r = inl (MkAEReply 2 true 0 0) ∧ n_log n'' = n_log after_append_2 ∧
   n_commitIndex n'' = n_commitIndex after_append_2).
Proof.
  exact (appendEntries_idempotent follower_b env0 env0 append_2 _ _ follower_b_ok append_2_valid
    (N.lt_le_incl 1 2 eq_refl) append_2_runs eq_refl).
Defined.

Lemma leader_a_ok : node_ok leader_a.
Proof. apply leader_a_service. Qed.

(** "b" holds both entries: the second commits. *)
Definition leader_b_acked : Node MemoryStorage := set_matchIndex (<["b" := 2%N]> ∅) leader_a.

Lemma leader_b_acked_wf : wf leader_b_acked.
Proof. apply (wf_core leader_a); [apply leader_a_ok|by split|done]. Qed.

Lemma commit_rule_witness : ∃ n',
  maybeAdvanceCommitLocked leader_b_acked = Val ((), n') ∧ n_commitIndex n' = 2%N ∧
  ∀ j, majority_stores leader_b_acked j → (j ≤ 2)%N.
Proof.
  destruct (commit_rule leader_b_acked leader_b_acked_wf eq_refl (ex_intro _ 1 eq_refl)) as (n' & Hrun & HQ).
  exists n'. split; [exact Hrun|]. vm_compute in Hrun. injection Hrun as Hn'.
  assert (n_commitIndex n' = 2%N) as Hc by (by rewrite <- Hn').
  split; [exact Hc|]. destruct HQ as [(i & _ & Hmax & ->)|[_ ->]]; [|done].
  cbn in Hc. subst i. exact Hmax.
Defined.

(** With two members it does not: a leader commits what it alone stores. *)
Definition leader_of_two : Node MemoryStorage :=
  MkNode (cfg_among two "a") (MkMemory 1 "a" [MkEntry 1 1 (cmd Byte.x01)] 0 0 []) Leader 1 "a" "a"
    [boundary 0 0; MkEntry 1 1 (cmd Byte.x01)] 0 (<["b" := 1%N]> ∅) ∅ 0 0 false None 0 0 [] 0 None false None 0.

Lemma even_cluster_commits_alone :
  ∃ n', maybeAdvanceCommitLocked leader_of_two = Val ((), n') ∧ n_commitIndex n' = 1%N ∧
    ∀ i, ¬ majority_stores leader_of_two i.
Proof.
  eexists. split; [by vm_compute|]. split; [done|]. intros i ([Hlo _] & _ & Hc). change (n_peers leader_of_two) with ["b" : NodeID] in Hc.
  assert (map_get (n_matchIndex leader_of_two) "b" = 0%N) as E by done.
  rewrite filter_cons, E, decide_False in Hc by (cbn in Hlo; lia). cbn in Hc. lia.
Qed.

Definition vote_for_a : RequestVoteArgs := MkRVArgs 2 "a" 2 1.
Definition after_vote : Node MemoryStorage :=
  match handleRequestVote env0 vote_for_a follower_b with Val (_, n) => n | Panic => follower_b end.

Lemma vote_rule_witness :
  up_to_date follower_b vote_for_a ∧ n_currentTerm after_vote = 2%N ∧
  hard_view (n_storage after_vote) = (2%N, "a").
Proof.
  destruct (vote_rule follower_b env0 vote_for_a (MkRVReply 2 true) after_vote follower_b_ok eq_refl I
    ltac:(vm_compute; reflexivity) eq_refl) as (Hup & _ & _ & Ht & Hh).
  split; [exact Hup|]. split; [exact Ht|exact Hh].
Defined.

Lemma Propose_appends_witness : ∃ n',
  Propose (cmd Byte.x03) leader_a = Val ((3%N, 1%N, true), n') ∧ node_ok n' ∧
  n_log n' = n_log leader_a ++ [MkEntry 1 3 (cmd Byte.x03)].
Proof.
  destruct (Propose_appends leader_a (cmd Byte.x03) leader_a_ok eq_refl I) as (r & n' & Hrun & HQ).
  destruct (decide _) as [_|Hno]; [|by destruct Hno].
  destruct HQ as [[Hf _]|(-> & Hok & Hl & _)].
  - exfalso. vm_compute in Hrun. injection Hrun as _ <-. discriminate Hf.
  - exists n'. split; [exact Hrun|]. split; [exact Hok|exact Hl].
Defined.

(** Two entries applied, compacted at the first. *)
Definition applied_b : Node MemoryStorage :=
  mem_node "b" Follower 1 0 0 [MkEntry 1 1 (cmd Byte.x01); MkEntry 1 2 (cmd Byte.x02)] 2 2 ∅.

Lemma applied_b_ok : node_ok applied_b.
Proof. apply mem_node_ok; cbn; try done; try lia. by repeat constructor. Qed.

Lemma Snapshot_compacts_witness : ∃ n',
  Snapshot 1 (cmd Byte.xff) applied_b = Val (None, n') ∧ node_ok n' ∧
  n_lastIncludedIndex n' = 1%N ∧ tail (n_log n') = [MkEntry 1 2 (cmd Byte.x02)].
Proof.
  destruct (Snapshot_compacts applied_b 1 (cmd Byte.xff) applied_b_ok I) as (r & n' & Hrun & HQ).
  destruct (decide _) as [_|Hno]; [|by destruct Hno].
  assert (n_failed n' = false) as Hf by (vm_compute in Hrun; by injection Hrun as _ <-).
  rewrite Hf in HQ. destruct HQ as (-> & Hok & e & _ & Hc).
  exists n'. split; [exact Hrun|]. split; [exact Hok|]. split; [apply Hc|].
  destruct (cut_log _ _ _ _ _ Hc) as (_ & _ & Htl). exact Htl.
Defined.

Definition install_2 : InstallSnapshotArgs := MkISArgs 1 "a" 2 1 (cmd Byte.xff).

Lemma install_2_valid : is_valid follower_b install_2.
Proof.
  split; cbn; try done. intros e He Hi.
  repeat (apply elem_of_cons in He as [->|He]; [by cbn in Hi|]).
  by apply not_elem_of_nil in He.
Qed.

Lemma InstallSnapshot_installs_witness : ∃ n',
  handleInstallSnapshot env0 install_2 follower_b = Val (inl (MkISReply 1), n') ∧ node_ok n' ∧
  n_lastIncludedIndex n' = 2%N ∧ n_commitIndex n' = 2%N ∧ n_snapshotData n' = cmd Byte.xff.
Proof.
  destruct (InstallSnapshot_installs follower_b env0 install_2 follower_b_ok install_2_valid)
    as (r & n' & Hrun & HQ).
  destruct (_ <? _)%N eqn:E in HQ; [discriminate E|]. destruct r as [rep|err].
  - destruct HQ as (-> & _ & Hok & HQ). destruct (decide _) as [Hle|_] in HQ; [by destruct Hle|].
    exists n'. split; [exact Hrun|]. split; [exact Hok|]. split; [apply HQ|].
    split; [apply (ins_commit _ _ _ HQ)|apply HQ].
  - exfalso. vm_compute in Hrun. discriminate Hrun.
Defined.

Lemma three_config_ok p : p ≠ "" → config_ok (cfg_among three p).
Proof. by intros. Qed.

Lemma restart_recovers_witness : ∃ n' st',
  NewNode (cfg_among three "b") env0 (n_storage after_append_2) = Val (inl n', st') ∧
  n_currentTerm n' = 2%N ∧ same_log (n_log n') (n_log after_append_2) ∧ n_commitIndex n' = 0%N.
Proof.
  assert (node_ok after_append_2) as Hok.
  { destruct (wp_total _ _ _ (handleAppendEntries_spec follower_b env0 append_2 follower_b_ok
      append_2_valid)) as (r & n' & Hrun & HQ).
    rewrite append_2_runs in Hrun. injection Hrun as <- <-. exact (proj1 HQ). }
  pose proof (restart_recovers after_append_2 (cfg_among three "b") env0 Hok
    (three_config_ok "b" ltac:(discriminate))) as HQ.
  destruct (NewNode _ _ _) as [[[n'|err] st']|] eqn:Hrun.
  - destruct HQ as (_ & _ & Ht & _ & Hl & _ & _ & _ & Hc & _).
    exists n', st'. split; [reflexivity|]. split; [exact Ht|]. split; [exact Hl|exact Hc].
  - destruct HQ as [e HQ]. discriminate HQ.
  - destruct HQ.
Defined.

Lemma apply_loop_delivers_witness : ∃ n',
  apply_run 2 Top follower_b = Val ([CommandMsg (cmd Byte.x01) 1 1], Asleep, n') ∧
  n_lastApplied n' = 1%N.
Proof.
  destruct (apply_loop_delivers follower_b Top follower_b_ok eq_refl ltac:(discriminate))
    as (n' & Hrun & Ha & _). exists n'. split; [exact Hrun|exact Ha].
Defined.

Lemma replicateToPeer_sends_witness : ∃ args,
  replicateToPeer "c" 1 leader_a = Val (SendAppend args, leader_a) ∧ sent_ok leader_a 1 args ∧
  ae_PrevLogIndex args = 0%N.
Proof.
  destruct (replicateToPeer_sends leader_a "c" 1 leader_a_service) as ([|args|] & Hrun & HQ).
  - discriminate HQ.
  - exists args. split; [exact Hrun|]. split; [exact (proj1 HQ)|].
    vm_compute in Hrun. by injection Hrun as <-.
  - vm_compute in HQ. by destruct HQ.
Defined.

(** "b" has one entry only; the leader assumed two. *)
Definition short_b : Node MemoryStorage :=
  mem_node "b" Follower 1 0 0 [MkEntry 1 1 (cmd Byte.x01)] 0 0 ∅.
Definition append_after_2 : AppendEntriesArgs := MkAEArgs 1 "a" 2 1 [] 0.
Definition after_refusal : Node MemoryStorage :=
  match handleAppendEntries env0 append_after_2 short_b with Val (_, n) => n | Panic => short_b end.

Lemma fast_backup_progress_witness :
  handleAppendEntries env0 append_after_2 short_b =
    Val (inl (MkAEReply 1 false 0 2), after_refusal) ∧
  ∃ n', onAppendReply "b" 1 append_after_2 (MkAEReply 1 false 0 2) leader_a = Val ((), n') ∧
    (1 ≤ map_get (n_nextIndex n') "b" ≤ 2)%N.
Proof.
  assert (node_ok short_b) as Hok.
  { apply mem_node_ok; cbn; try done; try lia. by repeat constructor. }
  assert (ae_valid short_b append_after_2) as Hv.
  { split; cbn; try done. by intros e e' ?%not_elem_of_nil. }
  split; [vm_compute; reflexivity|].
  eexists. split; [vm_compute; reflexivity|].
  apply (fast_backup_progress short_b leader_a "b" append_after_2 env0 (MkAEReply 1 false 0 2)
    after_refusal _ Hok Hv (N.le_refl 1) eq_refl ltac:(vm_compute; reflexivity) eq_refl
    leader_a_service eq_refl eq_refl); [|vm_compute; reflexivity].
  intros x y Hx Hi _ _ _. exfalso.
  repeat (apply elem_of_cons in Hx as [->|Hx]; [by cbn in Hi|]). by apply not_elem_of_nil in Hx.
Defined.

(** ** Two defects of InstallSnapshot *)

(** "b" in term 1 with three entries of term 1, the first committed. *)
Definition tail_b : Node MemoryStorage :=
  mem_node "b" Follower 1 0 0
    [MkEntry 1 1 (cmd Byte.x01); MkEntry 1 2 (cmd Byte.x02); MkEntry 1 3 (cmd Byte.x03)] 1 1 ∅.

(** The leader of term 2 compacted up to its own entry 2, then appends 3. *)
Definition conflicting_snapshot : InstallSnapshotArgs := MkISArgs 2 "a" 2 2 (cmd Byte.xff).
Definition append_3 : AppendEntriesArgs := MkAEArgs 2 "a" 2 2 [MkEntry 2 3 (cmd Byte.x04)] 3.

(** A snapshot that conflicts with the log is not installed durably.  The
    node discards its log in memory, but [SaveSnapshot] keeps the persisted
    entries after the boundary; an entry it then acknowledges lands behind them,
    and after a restart index 3 holds the discarded entry again. *)
Theorem install_snapshot_keeps_stale_tail : ∃ n1 n2 n3 st,
  node_ok tail_b ∧
  handleInstallSnapshot env0 conflicting_snapshot tail_b = Val (inl (MkISReply 2), n1) ∧
  handleAppendEntries env0 append_3 n1 = Val (inl (MkAEReply 2 true 0 0), n2) ∧
  entryAtLocked n2 3 = Val (MkEntry 2 3 (cmd Byte.x04)) ∧
  NewNode (cfg_among three "b") env0 (n_storage n2) = Val (inl n3, st) ∧
  entryAtLocked n3 3 = Val (MkEntry 1 3 (cmd Byte.x03)) ∧ ¬ log_wf (n_log n3).
Proof.
  do 4 eexists. split; [apply mem_node_ok; cbn; try done; try lia; by repeat constructor|].
  split; [vm_compute; reflexivity|]. split; [vm_compute; reflexivity|].
  split; [vm_compute; reflexivity|]. split; [vm_compute; reflexivity|].
  split; [vm_compute; reflexivity|]. vm_compute. by intros (_ & ? & _).
Qed.

(** "b" applied everything up to index 3. *)
Definition ahead_b : Node MemoryStorage :=
  mem_node "b" Follower 1 0 0
    [MkEntry 1 1 (cmd Byte.x01); MkEntry 1 2 (cmd Byte.x02); MkEntry 1 3 (cmd Byte.x03)] 3 3 ∅.
Definition late_snapshot : InstallSnapshotArgs := MkISArgs 1 "a" 2 1 (cmd Byte.xff).
Definition append_4 : AppendEntriesArgs := MkAEArgs 1 "a" 3 1 [MkEntry 1 4 (cmd Byte.x04)] 4.

(** A late snapshot takes the application back.  A node in service that has
    applied index 3 and receives a (valid) snapshot up to index 2 delivers that
    snapshot, which replaces the application's state, and goes on with index 4:
    entry 3 is never applied again. *)
Theorem install_snapshot_rolls_back : ∃ n1 n2 n3 pc,
  node_ok ahead_b ∧ is_valid ahead_b late_snapshot ∧ n_lastApplied ahead_b = 3%N ∧
  handleInstallSnapshot env0 late_snapshot ahead_b = Val (inl (MkISReply 1), n1) ∧
  handleAppendEntries env0 append_4 n1 = Val (inl (MkAEReply 1 true 0 0), n2) ∧
  apply_run 3 Top n2 =
    Val ([SnapshotMsg (cmd Byte.xff) 2 1; CommandMsg (cmd Byte.x04) 4 1], pc, n3).
Proof.
  do 4 eexists. split; [apply mem_node_ok; cbn; try done; try lia; by repeat constructor|]. split.
  - split; cbn; try done. intros e He Hi.
    repeat (apply elem_of_cons in He as [->|He]; [by cbn in Hi|]).
    by apply not_elem_of_nil in He.
  - split; [reflexivity|]. split; [vm_compute; reflexivity|].
    split; [vm_compute; reflexivity|]. vm_compute. reflexivity.
Qed.
