(* ===== verification/RaftHistory.v ===== *)
(** * The history of a cluster's logs

    What the safety argument of Raft remembers of a run: the log each term's
    leader has written so far and the one it was elected with, and which prefix of which leader's log each node has ever
    stored.  This file is about such histories alone; RaftReplication relates
    them to running nodes.  A log is the list of its entries, the one with
    index [k + 1] at position [k]. *)
From S2P Require Import Prelude RaftTypes RaftNode RaftVotes RaftCluster RaftElection RaftLog.

Abbreviation Entries := (list LogEntry).

Record Hist : Type := MkHist {
  h_lead : gmap N Entries;                  (* the log of the leader of a term *)
  h_init : gmap N Entries;                  (* what it was elected with *)
  h_acks : list (NodeID * N * nat);         (* prefixes of a leader's log a node has stored *)
}.

Definition last_term (L : Entries) : N := default 0%N (Term <$> last L).

(** Every entry carries the term of a leader, and the log up to it is that
    leader's. *)
Definition consistent (h : Hist) (L : Entries) : Prop :=
  ∀ k e, L !! k = Some e →
    ∃ G, h_lead h !! Term e = Some G ∧ take (S k) L = take (S k) G.

(** The leader's log begins with what it was elected with, of earlier terms,
    and goes on with entries of its own. *)
Record lead_ok (h : Hist) (t : N) (G : Entries) : Prop := {
  lo_init : ∃ I, h_init h !! t = Some I ∧ I `prefix_of` G ∧
    (∀ k e, G !! k = Some e → length I ≤ k → Term e = t) ∧ (∀ e, e ∈ I → (Term e < t)%N);
  lo_consistent : consistent h G;
}.

Record hist_ok (h : Hist) : Prop := {
  ho_lead t G : h_lead h !! t = Some G → lead_ok h t G;
  ho_init t I : h_init h !! t = Some I → is_Some (h_lead h !! t);
  ho_acks q t j : (q, t, j) ∈ h_acks h → ∃ G, h_lead h !! t = Some G ∧ j ≤ length G;
}.

Definition acked (h : Hist) (q : NodeID) (t : N) (i : nat) : Prop :=
  ∃ j, i ≤ j ∧ (q, t, j) ∈ h_acks h.

(** The leader of [t'] was elected without the first [i] entries of term [t]'s
    leader. *)
Definition missed (h : Hist) (t : N) (i : nat) (t' : N) : Prop :=
  ∃ G I, h_lead h !! t = Some G ∧ i ≤ length G ∧ h_init h !! t' = Some I ∧
    ¬ take i G `prefix_of` I.

Definition missed_between (h : Hist) (t : N) (i : nat) (lo hi : N) : Prop :=
  ∃ t', (lo < t' ∧ t' < hi)%N ∧ missed h t i t'.

(** A log of [len] entries, the last of term [lt], wins the comparison of the
    voting rule against one that ends with entry [i] of term [t]'s leader. *)
Definition covers (h : Hist) (t : N) (i : nat) (lt : N) (len : nat) : Prop :=
  ∃ G e, h_lead h !! t = Some G ∧ G !! (i - 1) = Some e ∧
    ((Term e < lt)%N ∨ (Term e = lt ∧ i ≤ len)).

(** What the vote of [q] for a candidate of term [t'] with such a log is worth. *)
Definition vote_sound (h : Hist) (q : NodeID) (t' lt : N) (len : nat) : Prop :=
  ∀ t i, (t < t')%N → 0 < i → acked h q t i → missed_between h t i t t' ∨ covers h t i lt len.

Section Completeness.
Variable members : list NodeID.

Definition a_quorum (Q : list NodeID) : Prop :=
  NoDup Q ∧ Q ⊆ members ∧ quorum_size members ≤ length Q.

Definition elected (h : Hist) (t : N) (I : Entries) : Prop :=
  ∃ Q, a_quorum Q ∧ ∀ q, q ∈ Q → vote_sound h q t (last_term I) (length I).

(** Entry [i] of term [t]'s leader is of that term and stored by a quorum. *)
Definition committed (h : Hist) (t : N) (i : nat) : Prop :=
  0 < i ∧ (∃ G e, h_lead h !! t = Some G ∧ G !! (i - 1) = Some e ∧ Term e = t) ∧
  ∃ Q, a_quorum Q ∧ ∀ q, q ∈ Q → acked h q t i.

(** ** Consistent logs *)
Lemma consistent_nil h : consistent h [].
Proof. intros k e. by rewrite lookup_nil. Qed.

Lemma consistent_take h L k : consistent h L → consistent h (take k L).
Proof.
  intros HL j e Hj. destruct (decide (j < k)) as [Hlt|Hge].
  - rewrite lookup_take_lt in Hj by done. destruct (HL _ _ Hj) as (G & HG & Heq).
    exists G. split; [done|]. rewrite take_take, <- Heq. f_equal. lia.
  - by rewrite lookup_take_ge in Hj by lia.
Qed.

(** Log matching: two entries with the same index and term have the same log
    before them. *)
Lemma log_matching_take h L1 L2 k e1 e2 :
  consistent h L1 → consistent h L2 → L1 !! k = Some e1 → L2 !! k = Some e2 →
  Term e1 = Term e2 → take (S k) L1 = take (S k) L2.
Proof.
  intros H1 H2 He1 He2 Ht. destruct (H1 _ _ He1) as (G1 & HG1 & ->), (H2 _ _ He2) as (G2 & HG2 & ->).
  rewrite Ht in HG1. congruence.
Qed.

Lemma log_matching_lookup h L1 L2 k e1 e2 :
  consistent h L1 → consistent h L2 → L1 !! k = Some e1 → L2 !! k = Some e2 →
  Term e1 = Term e2 → e1 = e2.
Proof.
  intros H1 H2 He1 He2 Ht. pose proof (log_matching_take _ _ _ _ _ _ H1 H2 He1 He2 Ht) as Heq.
  apply (f_equal (λ l, l !! k)) in Heq. rewrite !lookup_take_lt in Heq by lia. congruence.
Qed.

Lemma lead_terms h t G k e :
  lead_ok h t G → G !! k = Some e → (Term e ≤ t)%N.
Proof.
  intros [(I & HI & Hp & Hown & Hold) _] He. destruct (decide (length I ≤ k)) as [Hle|Hlt].
  - by rewrite (Hown _ _ He Hle).
  - assert (I !! k = Some e) as HIe.
    { destruct Hp as [R ->]. rewrite lookup_app_l in He by lia. done. }
    apply list_elem_of_lookup_2 in HIe. specialize (Hold _ HIe). lia.
Qed.

(** Terms never decrease along a consistent log. *)
Lemma terms_sorted h L j k e1 e2 :
  hist_ok h → consistent h L → L !! j = Some e1 → L !! k = Some e2 → j ≤ k → (Term e1 ≤ Term e2)%N.
Proof.
  intros Hh HL H1 H2 Hle. destruct (HL _ _ H2) as (G & HG & Heq).
  apply (lead_terms h _ G j); [by apply ho_lead|].
  apply (f_equal (λ l, l !! j)) in Heq. rewrite !lookup_take_lt in Heq by lia. congruence.
Qed.

Lemma last_term_ge h L k e :
  hist_ok h → consistent h L → L !! k = Some e → (Term e ≤ last_term L)%N.
Proof.
  intros Hh HL He. pose proof (lookup_lt_Some _ _ _ He). unfold last_term. rewrite last_lookup.
  destruct (lookup_lt_is_Some_2 L (pred (length L))) as [x Hx]; [lia|]. rewrite Hx. cbn.
  eapply terms_sorted; [done|done|exact He|exact Hx|lia].
Qed.

Lemma last_term_lookup L :
  L ≠ [] → ∃ e, L !! (length L - 1) = Some e ∧ Term e = last_term L.
Proof.
  intros Hne. destruct L as [|x L] using rev_ind; [done|]. exists x.
  unfold last_term. rewrite last_snoc, length_app. cbn.
  rewrite lookup_app_r by lia. by replace (length L + 1 - 1 - length L) with 0 by lia.
Qed.

Lemma init_prefix h t I G :
  hist_ok h → h_init h !! t = Some I → h_lead h !! t = Some G → I `prefix_of` G.
Proof.
  intros Hh HI HG. destruct (ho_lead _ Hh _ _ HG) as [(I' & HI' & Hp & _) _]. congruence.
Qed.

Lemma take_prefix_eq {A} (l1 l2 : list A) i :
  l1 `prefix_of` l2 → i ≤ length l1 → take i l2 = take i l1.
Proof. intros [r ->] Hi. by rewrite take_app_le. Qed.

Lemma prefix_of_take {A} i (l1 l2 : list A) :
  i ≤ length l2 → take i l2 = take i l1 → take i l1 `prefix_of` l2.
Proof. intros _ <-. exists (drop i l2). by rewrite take_drop. Qed.

Lemma take_of_take {A} (l1 l2 : list A) n i : l1 = take n l2 → i ≤ n → take i l1 = take i l2.
Proof. intros -> Hi. rewrite take_take. f_equal. lia. Qed.

Lemma take_of_take_eq {A} i n (l1 l2 : list A) : take n l1 = take n l2 → i ≤ n → take i l1 = take i l2.
Proof.
  intros Heq Hi. apply (f_equal (take i)) in Heq. rewrite !take_take in Heq.
  by rewrite Nat.min_l in Heq by done.
Qed.

(** ** Leader completeness *)
Theorem completeness h t i G :
  Nat.Odd (length members) → hist_ok h →
  (∀ t' I, h_init h !! t' = Some I → elected h t' I ∧ consistent h I) →
  committed h t i → h_lead h !! t = Some G →
  ∀ t' I, (t < t')%N → h_init h !! t' = Some I → take i G `prefix_of` I.
Proof.
  intros Hodd Hh Hel (Hi & (G' & e & HG' & He & Hte) & Q & (HQ1 & HQ2 & HQ3) & HQ) HG.
  replace G' with G in * by congruence. clear HG'.
  pose proof (lookup_lt_Some _ _ _ He) as Hlen.
  induction t' as [t' IH] using (well_founded_induction N.lt_wf_0). intros I Hlt HI.
  destruct (Hel _ _ HI) as [(Q' & (HQ1' & HQ2' & HQ3') & HQ') HIc].
  pose proof (odd_quorum_majority _ Hodd).
  destruct (quorums_meet members Q Q') as (q & Hq & Hq'); try done; [lia|].
  destruct (HQ' q Hq' t i Hlt Hi (HQ q Hq)) as [(t2 & [Ht2 Ht2'] & G2 & I2 & HG2 & _ & HI2 & Hno)|Hcov].
  - replace G2 with G in * by congruence. destruct Hno. by eapply (IH t2).
  - destruct Hcov as (G2 & e2 & HG2 & He2 & Hcmp).
    replace G2 with G in * by congruence. replace e2 with e in * by congruence. rewrite Hte in Hcmp.
    assert (I ≠ []) as Hne.
    { intros ->. unfold last_term in Hcmp. cbn in Hcmp. lia. }
    destruct (last_term_lookup I Hne) as (x & Hx & Htx).
    destruct (HIc _ _ Hx) as (Gx & HGx & Heqx).
    pose proof (lookup_lt_Some _ _ _ Hx) as Hlx. replace (S (length I - 1)) with (length I) in Heqx by lia.
    rewrite take_ge in Heqx by lia.
    destruct Hcmp as [Hgt|[Heq Hle]].
    + assert (Term x < t')%N as Hxt.
      { destruct (ho_init _ Hh _ _ HI) as [Gt HGt].
        destruct (ho_lead _ Hh _ _ HGt) as [(It & HIt & _ & _ & Hold) _].
        replace It with I in * by congruence. apply Hold. by eapply list_elem_of_lookup_2. }
      destruct (ho_lead _ Hh _ _ HGx) as [(Ix & HIx & Hpx & Hown & Hold) _].
      pose proof (IH (Term x) Hxt Ix ltac:(lia) HIx) as Hpre.
      assert (i ≤ length Ix) as HiIx.
      { apply prefix_length in Hpre. rewrite length_take in Hpre. lia. }
      assert (length Ix ≤ length I - 1) as Hpos.
      { destruct (decide (length Ix ≤ length I - 1)) as [|Hno]; [done|].
        assert (Ix !! (length I - 1) = Some x) as HxI.
        { assert (Gx !! (length I - 1) = Some x) as Hgx.
          { rewrite <- (lookup_take_lt Gx (length I)) by lia. by rewrite <- Heqx. }
          destruct Hpx as [r ->]. by rewrite lookup_app_l in Hgx by lia. }
        apply list_elem_of_lookup_2, Hold in HxI. lia. }
      apply (prefix_of_take i); [lia|]. rewrite (take_of_take _ _ _ i Heqx) by lia.
      rewrite (take_prefix_eq Ix Gx) by done. destruct Hpre as [r ->].
      rewrite take_app_le by (rewrite length_take; lia). by rewrite take_take, Nat.min_id.
    + rewrite Htx, <- Heq in HGx. replace Gx with G in * by congruence.
      apply (prefix_of_take i); [lia|]. by apply (take_of_take _ _ _ i Heqx).
Qed.

(** Committed prefixes of different terms agree. *)
Corollary committed_agree h t1 i1 G1 t2 G2 c :
  Nat.Odd (length members) → hist_ok h →
  (∀ t' I, h_init h !! t' = Some I → elected h t' I ∧ consistent h I) →
  committed h t1 i1 → h_lead h !! t1 = Some G1 → c ≤ i1 →
  h_lead h !! t2 = Some G2 → (t1 ≤ t2)%N →
  take c G1 = take c G2.
Proof.
  intros Hodd Hh Hel Hc HG1 Hci HG2 Hle. destruct (decide (t1 = t2)) as [->|Hne]; [congruence|].
  destruct (ho_lead _ Hh _ _ HG2) as [(I & HI & Hp & _) _].
  pose proof (completeness h t1 i1 G1 Hodd Hh Hel Hc HG1 t2 I ltac:(lia) HI) as Hpre.
  destruct Hc as (_ & (G & e & HG & He & _) & _). replace G with G1 in * by congruence.
  apply lookup_lt_Some in He.
  assert (take i1 G1 `prefix_of` G2) as Hp2 by (by etrans).
  apply (take_prefix_eq _ _ c) in Hp2; [|rewrite length_take; lia].
  rewrite Hp2, take_take. f_equal. lia.
Qed.
End Completeness.

(** ** Histories grow *)
Record hist_le (h h' : Hist) : Prop := {
  hl_lead t G : h_lead h !! t = Some G → ∃ G', h_lead h' !! t = Some G' ∧ G `prefix_of` G';
  hl_init t I : h_init h !! t = Some I → h_init h' !! t = Some I;
  hl_acks : h_acks h ⊆ h_acks h';
}.

Lemma hist_le_refl h : hist_le h h.
Proof. split; eauto. Qed.

#[export] Hint Resolve hist_le_refl : core.

Lemma hist_le_trans h1 h2 h3 : hist_le h1 h2 → hist_le h2 h3 → hist_le h1 h3.
Proof.
  intros [L1 I1 A1] [L2 I2 A2]. split; [|by auto|by etrans]. intros t G HG.
  destruct (L1 _ _ HG) as (G1 & HG1 & ?), (L2 _ _ HG1) as (G2 & HG2 & ?). exists G2. split; [done|by etrans].
Qed.

Section Growth.
Context (h h' : Hist) (Hle : hist_le h h').

Lemma lead_take_mono t G i :
  h_lead h !! t = Some G → i ≤ length G →
  ∃ G', h_lead h' !! t = Some G' ∧ take i G' = take i G ∧ i ≤ length G'.
Proof.
  intros HG Hi. destruct (hl_lead _ _ Hle _ _ HG) as (G' & HG' & Hp). exists G'.
  split; [done|]. split; [by apply take_prefix_eq|]. apply prefix_length in Hp. lia.
Qed.

Lemma lead_lookup_mono t G k e :
  h_lead h !! t = Some G → G !! k = Some e → ∃ G', h_lead h' !! t = Some G' ∧ G' !! k = Some e.
Proof.
  intros HG Hk. destruct (hl_lead _ _ Hle _ _ HG) as (G' & HG' & r & ->). exists (G ++ r).
  split; [done|]. rewrite lookup_app_l; [done|]. by eapply lookup_lt_Some.
Qed.

Lemma consistent_mono L : consistent h L → consistent h' L.
Proof.
  intros HL k e Hk. destruct (HL _ _ Hk) as (G & HG & Heq).
  assert (S k ≤ length G) as Hlen.
  { pose proof (lookup_lt_Some _ _ _ Hk). apply (f_equal length) in Heq. rewrite !length_take in Heq. lia. }
  destruct (lead_take_mono _ _ _ HG Hlen) as (G' & HG' & Ht & _). exists G'. by rewrite Ht.
Qed.

Lemma acked_mono q t i : acked h q t i → acked h' q t i.
Proof. intros (j & ? & Hj). exists j. split; [done|]. by apply (hl_acks _ _ Hle). Qed.

Lemma missed_mono t i t' : missed h t i t' → missed h' t i t'.
Proof.
  intros (G & I & HG & Hi & HI & Hno). destruct (lead_take_mono _ _ _ HG Hi) as (G' & HG' & Ht & Hi').
  exists G', I. rewrite Ht. split; [done|]. split; [done|]. split; [by apply (hl_init _ _ Hle)|done].
Qed.

Lemma missed_between_mono t i lo hi hi' :
  (hi ≤ hi')%N → missed_between h t i lo hi → missed_between h' t i lo hi'.
Proof. intros ? (t' & [? ?] & Hm). exists t'. split; [lia|]. by apply missed_mono. Qed.

Lemma covers_mono t i lt len : covers h t i lt len → covers h' t i lt len.
Proof.
  intros (G & e & HG & He & Hc). destruct (lead_lookup_mono _ _ _ _ HG He) as (G' & HG' & He').
  by exists G', e.
Qed.

(** A vote stays sound as long as the voter stores nothing more of the terms
    before it. *)
Lemma vote_sound_mono q t' lt len :
  (∀ t j, (t < t')%N → (q, t, j) ∈ h_acks h' → (q, t, j) ∈ h_acks h) →
  vote_sound h q t' lt len → vote_sound h' q t' lt len.
Proof.
  intros Hq Hv t i Hlt Hi (j & Hj & Hin).
  destruct (Hv t i Hlt Hi) as [Hm|Hc]; [by exists j; split; [|apply Hq]|left|right].
  - by eapply missed_between_mono.
  - by apply covers_mono.
Qed.

Lemma committed_mono members t i : committed members h t i → committed members h' t i.
Proof.
  intros (Hi & (G & e & HG & He & Ht) & Q & HQ & Ha). split; [done|]. split.
  - destruct (lead_lookup_mono _ _ _ _ HG He) as (G' & HG' & He'). by exists G', e.
  - exists Q. split; [done|]. intros q Hq. by apply acked_mono, Ha.
Qed.
End Growth.

(** *** A node stores, is elected, writes *)
Definition h_store (q : NodeID) (t : N) (j : nat) (h : Hist) : Hist :=
  MkHist (h_lead h) (h_init h) ((q, t, j) :: h_acks h).

Definition h_elect (t : N) (p : NodeID) (L : Entries) (h : Hist) : Hist :=
  MkHist (<[t := L]> (h_lead h)) (<[t := L]> (h_init h)) ((p, t, length L) :: h_acks h).

(** What a leader has written counts from when its storage may hold it. *)
Definition h_extend (t : N) (L : Entries) (h : Hist) : Hist :=
  MkHist (<[t := L]> (h_lead h)) (h_init h) (h_acks h).

Definition h_write (t : N) (p : NodeID) (L : Entries) (h : Hist) : Hist :=
  h_store p t (length L) (h_extend t L h).

Lemma h_store_le q t j h : hist_le h (h_store q t j h).
Proof. split; cbn; eauto. by apply list_subseteq_cons. Qed.

Lemma h_elect_le t p L h : h_lead h !! t = None → h_init h !! t = None → hist_le h (h_elect t p L h).
Proof.
  intros H1 H2. split; cbn; [| |by apply list_subseteq_cons].
  - intros t0 G HG. exists G. split; [|done]. rewrite lookup_insert_ne; [done|]. congruence.
  - intros t0 I HI. rewrite lookup_insert_ne; [done|]. congruence.
Qed.

Lemma h_extend_le t G e h : h_lead h !! t = Some G → hist_le h (h_extend t (G ++ [e]) h).
Proof.
  intros HG. split; cbn; [|done|done].
  intros t0 G0 HG0. destruct (decide (t = t0)) as [<-|].
  - exists (G ++ [e]). rewrite lookup_insert_eq. split; [done|]. replace G0 with G by congruence.
    by apply prefix_app_r.
  - exists G0. by rewrite lookup_insert_ne.
Qed.

Lemma h_write_le t p G e h : h_lead h !! t = Some G → hist_le h (h_write t p (G ++ [e]) h).
Proof. intros HG. eapply hist_le_trans; [by apply h_extend_le|apply h_store_le]. Qed.

Lemma lead_ok_mono h h' t G :
  hist_le h h' → lead_ok h t G → lead_ok h' t G.
Proof.
  intros Hle [(I & HI & Hr) Hc]. split; [|by eapply consistent_mono].
  exists I. split; [by apply (hl_init _ _ Hle)|done].
Qed.

Lemma hist_ok_store q t j G h :
  hist_ok h → h_lead h !! t = Some G → j ≤ length G → hist_ok (h_store q t j h).
Proof.
  intros [H1 H2 H3] HG Hj. split; cbn; [|done|].
  - intros t0 G0 HG0. eapply lead_ok_mono; [apply h_store_le|by apply H1].
  - intros q0 t0 j0 [[= -> -> ->]|Hin]%elem_of_cons; eauto.
Qed.

Lemma hist_ok_elect t p L h :
  hist_ok h → h_lead h !! t = None → h_init h !! t = None → consistent h L →
  (∀ e, e ∈ L → (Term e < t)%N) → hist_ok (h_elect t p L h).
Proof.
  intros Hh HL HI Hc Ht. pose proof (h_elect_le t p L h HL HI) as Hle. destruct Hh as [H1 H2 H3]. split; cbn.
  - intros t0 G0 [[<- <-]|[Hne HG0]]%lookup_insert_Some.
    + split; [|by eapply consistent_mono]. exists L. cbn. rewrite lookup_insert_eq. split; [done|].
      split; [done|]. split; [|done]. intros k e Hk%lookup_lt_Some ?. lia.
    + eapply lead_ok_mono; [done|by apply H1].
  - intros t0 I0 [[<- <-]|[Hne HI0]]%lookup_insert_Some; [by rewrite lookup_insert_eq|].
    rewrite lookup_insert_ne by done. by eapply H2.
  - intros q t0 j [[= -> -> ->]|Hin]%elem_of_cons; [exists L; by rewrite lookup_insert_eq|].
    destruct (H3 _ _ _ Hin) as (G & HG & Hj). exists G. rewrite lookup_insert_ne; [done|]. congruence.
Qed.

Lemma hist_ok_extend t G e h :
  hist_ok h → h_lead h !! t = Some G → Term e = t → hist_ok (h_extend t (G ++ [e]) h).
Proof.
  intros Hh HG He. pose proof (h_extend_le t G e h HG) as Hle. destruct Hh as [H1 H2 H3]. split; cbn.
  - intros t0 G0 [[<- <-]|[Hne HG0]]%lookup_insert_Some; [|eapply lead_ok_mono; [done|by apply H1]].
    destruct (H1 _ _ HG) as [(I & HI & Hp & Hown & Hold) Hc]. pose proof (prefix_length _ _ Hp) as HIG. split.
    + exists I. cbn. split; [done|]. split; [by apply prefix_app_r|]. split; [|done].
      intros k x [Hk|[Hlen Hk]]%lookup_app_Some Hge; [by eapply Hown|].
      apply list_lookup_singleton_Some in Hk as [_ <-]. done.
    + intros k x [Hk|[Hlen Hk]]%lookup_app_Some.
      * destruct (consistent_mono _ _ Hle _ Hc _ _ Hk) as (Gx & HGx & Heq). exists Gx. split; [done|].
        rewrite take_app_le; [done|]. apply lookup_lt_Some in Hk. lia.
      * apply list_lookup_singleton_Some in Hk as [Hk <-]. exists (G ++ [e]). cbn.
        by rewrite He, lookup_insert_eq.
  - intros t0 I0 HI0. destruct (decide (t = t0)) as [<-|]; [by rewrite lookup_insert_eq|].
    rewrite lookup_insert_ne by done. by eapply H2.
  - intros q t0 j Hin. destruct (H3 _ _ _ Hin) as (G0 & HG0 & Hj). destruct (hl_lead _ _ Hle _ _ HG0) as (G' & HG' & Hp).
    exists G'. split; [done|]. apply prefix_length in Hp. lia.
Qed.

Lemma hist_ok_write t p G e h :
  hist_ok h → h_lead h !! t = Some G → Term e = t → hist_ok (h_write t p (G ++ [e]) h).
Proof.
  intros Hh HG He. eapply (hist_ok_store _ _ _ (G ++ [e])); [by apply hist_ok_extend|apply lookup_insert_eq|done].
Qed.

(** ** Merging a leader's entries *)

(** [merge] on a log without its boundary entry. *)
Lemma merge_cons b L k es : merge (b :: L) (S k) es = b :: merge L k es.
Proof.
  revert L k. induction es as [|e es IH]; intros L k; [done|]. cbn.
  destruct (L !! k) as [x|]; [|done]. destruct (_ =? _)%N; [by apply IH|done].
Qed.

(** Merging entries [k] to [m] of a leader's log into a log that agrees with it
    up to [k]: nothing changes, or everything from the first difference on is
    the leader's. *)
Lemma merge_lead h L G k n :
  consistent h L → consistent h G → take k L = take k G → k ≤ length L → k ≤ length G → k + n ≤ length G →
  let L' := merge L k (take n (drop k G)) in
  (L' = L ∧ take (k + n) L = take (k + n) G) ∨
  (L' = take (k + n) G ∧ ∃ c, k ≤ c < k + n ∧ take c L = take c G ∧ L !! c ≠ G !! c ∧ c ≤ length L).
Proof.
  intros HL HG. revert k. induction n as [|n IH]; intros k Heq HkL HkG Hn; cbv zeta.
  { cbn. left. by rewrite Nat.add_0_r. }
  destruct (lookup_lt_is_Some_2 G k) as [g Hg]; [lia|].
  rewrite (drop_S _ _ _ Hg). cbn [take merge].
  destruct (L !! k) as [x|] eqn:Hx.
  - destruct (N.eqb_spec (Term x) (Term g)) as [Ht|Ht].
    + pose proof (log_matching_take _ _ _ _ _ _ HL HG Hx Hg Ht) as Heq'.
      destruct (IH (S k) Heq') as [[H1 H2]|(H1 & c & H2 & H3 & H4 & H5)]; rewrite ?Nat.add_succ_comm in *.
      * by apply lookup_lt_Some in Hx.
      * lia.
      * lia.
      * by left.
      * right. split; [done|]. exists c. split; [lia|done].
    + right. split.
      * rewrite Heq. change (g :: take n (drop (S k) G)) with (take (S n) (g :: drop (S k) G)).
        rewrite <- (drop_S _ _ _ Hg). by rewrite <- take_take_drop.
      * exists k. split; [lia|]. split; [done|]. split; [congruence|lia].
  - right. apply lookup_ge_None in Hx. split.
    + replace L with (take k L) by (by rewrite take_ge by lia). rewrite Heq.
      change (g :: take n (drop (S k) G)) with (take (S n) (g :: drop (S k) G)).
      rewrite <- (drop_S _ _ _ Hg). by rewrite <- take_take_drop.
    + exists k. split; [lia|]. split; [done|]. split; [rewrite lookup_ge_None_2 by lia; congruence|lia].
Qed.

(** What the log shared with the leader beforehand, it shares afterwards. *)
Lemma merge_keeps h L G k n i :
  consistent h L → consistent h G → take k L = take k G → k ≤ length L → k ≤ length G → k + n ≤ length G →
  i ≤ length L → take i L = take i G →
  let L' := merge L k (take n (drop k G)) in take i L' = take i L ∧ i ≤ length L'.
Proof.
  intros HL HG Heq HkL HkG Hn Hi Hti. cbv zeta.
  destruct (merge_lead h L G k n) as [[-> _]|(-> & c & Hc & _ & Hne & Hcl)]; try done.
  assert (i ≤ c) as Hic.
  { destruct (decide (i ≤ c)) as [|Hgt]; [done|]. destruct Hne.
    by rewrite <- (lookup_take_lt L i), <- (lookup_take_lt G i), Hti by lia. }
  rewrite take_take, length_take. split; [rewrite Hti; f_equal; lia|].
  apply (f_equal length) in Hti. rewrite !length_take in Hti. lia.
Qed.

(** Where the log has entry [k] with the leader's term, it has the leader's
    first [k] entries ([b] is the boundary before the log). *)
Lemma prev_matches h b L G k e :
  consistent h L → consistent h G → k ≤ length G → Term b = 0%N →
  (b :: L) !! k = Some e → Term e = last_term (take k G) → take k L = take k G ∧ k ≤ length L.
Proof.
  intros HL HG Hk Hb He Ht. destruct k as [|k]; [split; [done|lia]|]. cbn in He.
  destruct (lookup_lt_is_Some_2 G k) as [g Hg]; [lia|].
  rewrite (take_S_r _ _ _ Hg) in Ht. unfold last_term in Ht. rewrite last_snoc in Ht. cbn in Ht.
  split; [by eapply log_matching_take|]. by eapply lookup_lt_Some.
Qed.

Lemma merge_consistent h L G k n :
  consistent h L → consistent h G → take k L = take k G → k ≤ length L → k ≤ length G → k + n ≤ length G →
  consistent h (merge L k (take n (drop k G))).
Proof.
  intros HL HG Heq HkL HkG Hn. destruct (merge_lead h L G k n) as [[-> _]|[-> _]]; try done.
  by apply consistent_take.
Qed.

(** Everything sent is in the merged log. *)
Lemma merge_stores h L G k n :
  consistent h L → consistent h G → take k L = take k G → k ≤ length L → k ≤ length G → k + n ≤ length G →
  let L' := merge L k (take n (drop k G)) in take (k + n) L' = take (k + n) G ∧ k + n ≤ length L'.
Proof.
  intros HL HG Heq HkL HkG Hn. cbv zeta. destruct (merge_lead h L G k n) as [[-> Htk]|[-> _]]; try done.
  - split; [done|]. apply (f_equal length) in Htk. rewrite !length_take in Htk. lia.
  - rewrite take_take, Nat.min_id, length_take. split; [done|lia].
Qed.

(** ** What a node keeps *)

(** Of the first [j] entries of term [t]'s leader, the log [L] of a node of
    term [T] has a prefix, and an election since went without the rest. *)
Definition keeps (h : Hist) (t : N) (j : nat) (T : N) (L : Entries) : Prop :=
  ∀ G i, h_lead h !! t = Some G → 0 < i ≤ j →
    (i ≤ length L ∧ take i L = take i G) ∨ missed_between h t i t (T + 1).

Lemma keeps_merge h q t j T0 T L G k n :
  hist_ok h → consistent h L → h_lead h !! T = Some G → (q, t, j) ∈ h_acks h → (t ≤ T)%N → (T0 ≤ T)%N →
  take k L = take k G → k ≤ length L → k ≤ length G → k + n ≤ length G →
  keeps h t j T0 L → keeps h t j T (merge L k (take n (drop k G))).
Proof.
  intros Hh HL HG Hin Ht HT0 Heq HkL HkG Hn Hk Gt i HGt Hi.
  destruct (Hk Gt i HGt Hi) as [[HiL Hti]|Hm].
  2:{ right. eapply (missed_between_mono h h); [done| |done]. lia. }
  destruct (ho_lead _ Hh _ _ HG) as [(I & HI & Hp & _) HGc].
  destruct (decide (take i L = take i G)) as [Hsame|Hdiff].
  - left. destruct (merge_keeps h L G k n i) as [-> ?]; done.
  - right. assert (t ≠ T) as Hne by (intros ->; congruence). exists T. split; [lia|].
    destruct (ho_acks _ Hh _ _ _ Hin) as (G' & HG' & Hj). replace G' with Gt in * by congruence.
    exists Gt, I. split; [done|]. split; [lia|]. split; [done|]. intros HpI. apply Hdiff.
    assert (take i Gt `prefix_of` G) as HpG by (by etrans).
    apply (take_prefix_eq _ _ i) in HpG; [|rewrite length_take; lia].
    rewrite take_take, Nat.min_id in HpG. congruence.
Qed.

Lemma keeps_app h t j T L es : keeps h t j T L → keeps h t j T (L ++ es).
Proof.
  intros Hk G i HG Hi. destruct (Hk G i HG Hi) as [[Hl Ht]|?]; [left|by right].
  rewrite length_app, take_app_le by done. split; [lia|done].
Qed.

(** A log that was cut before an entry that was to be replaced. *)
Lemma keeps_cut h t j T T' L c e e' :
  (T ≤ T')%N → L !! c = Some e' → Term e' ≠ Term e →
  keeps h t j T L → keeps h t j T' (take c L ++ [e]) → keeps h t j T' (take c L).
Proof.
  intros HT Hc Hne Hk1 Hk2 G i HG Hi. pose proof (lookup_lt_Some _ _ _ Hc) as Hlen.
  destruct (Hk2 G i HG Hi) as [[Hi2 Htk2]|?]; [|by right].
  destruct (Hk1 G i HG Hi) as [[Hi1 Htk1]|Hm]; [|right; eapply (missed_between_mono h h); [done| |done]; lia].
  rewrite length_app, length_take in Hi2. cbn in Hi2. rewrite length_take, take_take.
  destruct (decide (i ≤ c)) as [Hic|Hic]; [left; split; [lia|]; by rewrite Nat.min_l by done|].
  replace i with (S c) in * by lia. destruct Hne. f_equal.
  rewrite <- Htk1 in Htk2. apply (f_equal (λ l, l !! c)) in Htk2. rewrite !lookup_take_lt in Htk2 by lia.
  rewrite lookup_app_r in Htk2 by (rewrite length_take; lia). rewrite length_take, Nat.min_l, Nat.sub_diag in Htk2 by lia.
  cbn in Htk2. congruence.
Qed.

(** What a node knows about a candidate when it votes for it. *)
Lemma vote_from_keeps h q T L t' lt len :
  hist_ok h → consistent h L → (∀ t j, (q, t, j) ∈ h_acks h → keeps h t j T L) → (T ≤ t')%N →
  h_init h !! t' = None → ((last_term L < lt)%N ∨ (last_term L = lt ∧ length L ≤ len)) →
  vote_sound h q t' lt len.
Proof.
  intros Hh HL Hk HT Hnone Hcmp t i Hlt Hi (j & Hj & Hin).
  destruct (ho_acks _ Hh _ _ _ Hin) as (G & HG & HjG).
  destruct (Hk t j Hin G i HG ltac:(lia)) as [[HiL Hti]|(t2 & Ht2 & Hm)].
  - right. destruct (lookup_lt_is_Some_2 L (i - 1)) as [e He]; [lia|]. exists G, e. split; [done|].
    split; [rewrite <- (lookup_take_lt G i), <- Hti, lookup_take_lt by lia; done|].
    pose proof (last_term_ge _ _ _ _ Hh HL He). destruct Hcmp as [?|[? ?]]; [left; lia|].
    destruct (decide (Term e < lt)%N); [by left|right]. split; lia.
  - left. exists t2. split; [|done]. split; [lia|].
    assert (t2 ≠ t'); [|lia]. intros ->. destruct Hm as (? & I & _ & _ & HI & _). congruence.
Qed.
