(* ===== verification/RaftCompaction.v ===== *)
(** * Logs with a compacted beginning

    A node's log starts with the boundary entry of its last snapshot.  [whole log
    L] says that [log] is what compaction left of the list of entries [L]: it
    continues after the boundary, and the boundary has the term of the last
    entry cut off.  The safety argument is about whole logs; this file relates
    them to what a node keeps. *)
From S2P Require Import Prelude RaftTypes RaftLog RaftReplicate RaftFaults RaftHistory.

Record whole (log : list LogEntry) (L : Entries) : Prop := {
  wh_ne : log ≠ [];
  wh_len : N.to_nat (first_index log) ≤ length L;
  wh_tail : tail log = drop (N.to_nat (first_index log)) L;
  wh_term : first_term log = last_term (take (N.to_nat (first_index log)) L);
}.

Lemma whole_cons log L :
  whole log L → ∃ b, log = b :: drop (N.to_nat (Index b)) L ∧ N.to_nat (Index b) ≤ length L ∧
    Term b = last_term (take (N.to_nat (Index b)) L).
Proof. intros [Hne Hl Ht Hb]. destruct log as [|b es]; [done|]. cbn in *. exists b. by rewrite <- Ht. Qed.

Lemma whole_next log L : whole log L → next_index log = (N.of_nat (length L) + 1)%N.
Proof.
  intros (b & -> & Hl & _)%whole_cons. unfold next_index. cbn. rewrite length_drop. lia.
Qed.

Lemma last_term_snoc L e : last_term (L ++ [e]) = Term e.
Proof. unfold last_term. by rewrite last_snoc. Qed.

Lemma whole_last log L : whole log L → default 0%N (Term <$> last log) = last_term L.
Proof.
  intros (b & -> & Hl & Hb)%whole_cons. set (i := N.to_nat (Index b)) in *.
  destruct (decide (i = length L)) as [E|Hne].
  - rewrite drop_ge by lia. cbn. by rewrite Hb, take_ge by lia.
  - assert (L ≠ []) as HL by (intros ->; cbn in *; lia).
    destruct L as [|x L _] using rev_ind; [done|]. rewrite length_app in *. cbn in *.
    rewrite drop_app_le by lia. by rewrite app_comm_cons, last_snoc, last_term_snoc.
Qed.

(** The code's positions, counted from the boundary. *)
Lemma whole_lookup log L k e :
  whole log L → 0 < k → log !! k = Some e → L !! (N.to_nat (first_index log) + k - 1) = Some e.
Proof.
  intros (b & -> & Hl & _)%whole_cons Hk He. cbn. destruct k as [|k]; [lia|].
  change (drop (N.to_nat (Index b)) L !! k = Some e) in He.
  rewrite lookup_drop in He. by replace (N.to_nat (Index b) + S k - 1) with (N.to_nat (Index b) + k) by lia.
Qed.

(** The term at a position, the boundary's included. *)
Lemma whole_term log L k e :
  whole log L → log !! k = Some e → Term e = last_term (take (N.to_nat (first_index log) + k) L).
Proof.
  intros Hw He. destruct k as [|k].
  - rewrite Nat.add_0_r, <- (wh_term _ _ Hw). destruct log; [done|]. by injection He as ->.
  - pose proof (whole_lookup _ _ (S k) _ Hw ltac:(lia) He) as Hlk.
    replace (N.to_nat (first_index log) + S k - 1) with (N.to_nat (first_index log) + k) in Hlk by lia.
    rewrite Nat.add_succ_r, (take_S_r _ _ _ Hlk). by rewrite last_term_snoc.
Qed.

Lemma whole_zero log L : whole log L → first_index log = 0%N → tail log = L.
Proof. intros Hw E. by rewrite (wh_tail _ _ Hw), E. Qed.

Lemma whole_uncompacted log : log ≠ [] → first_index log = 0%N → first_term log = 0%N → whole log (tail log).
Proof. intros Hne Hi Ht. split; rewrite ?Hi; [done|cbn; lia|done|]. by rewrite take_0. Qed.

Lemma whole_same log log' L : same_log log log' → log ≠ [] → whole log' L → whole log L.
Proof. intros (E1 & E2 & E3) Hne [_ Hl Ht Hb]. split; rewrite ?E1, ?E2, ?E3; done. Qed.

Lemma whole_app log L es : whole log L → whole (log ++ es) (L ++ es).
Proof.
  intros (b & -> & Hl & Hb)%whole_cons. split; cbn; [done|rewrite length_app; lia| |].
  - by rewrite drop_app_le.
  - by rewrite take_app_le.
Qed.

(** Compaction at an entry of the log. *)
Lemma whole_cut log L k e :
  whole log L → log !! k = Some e → N.to_nat (Index e) = N.to_nat (first_index log) + k → whole (drop k log) L.
Proof.
  intros Hw He Hi. pose proof (whole_term _ _ _ _ Hw He) as Ht. rewrite (drop_S _ _ _ He).
  pose proof (lookup_lt_Some _ _ _ He) as Hlt. pose proof (whole_next _ _ Hw) as Hn. unfold next_index in Hn.
  split; cbn; rewrite ?Hi; [done|lia| |done].
  destruct (whole_cons _ _ Hw) as (b & -> & _). cbn. by rewrite drop_drop.
Qed.

(** A snapshot in place of everything up to its last entry. *)
Lemma whole_boundary i G :
  N.to_nat i ≤ length G → whole [boundary i (last_term (take (N.to_nat i) G))] (take (N.to_nat i) G).
Proof.
  intros Hi. split; cbn; [done|rewrite length_take; lia| |].
  - by rewrite drop_ge by (rewrite length_take; lia).
  - by rewrite take_take, Nat.min_id.
Qed.

(** ** Merging *)
Lemma merge_drop i L k es : i ≤ length L → merge (drop i L) k es = drop i (merge L (i + k) es).
Proof.
  intros Hi. revert k. induction es as [|e es IH]; intros k; [done|]. cbn. rewrite lookup_drop.
  destruct (L !! (i + k)) as [x|] eqn:Hx; [|by rewrite drop_app_le].
  destruct (_ =? _)%N; [rewrite IH; by rewrite Nat.add_succ_r|]. apply lookup_lt_Some in Hx.
  rewrite drop_app_le by (rewrite length_take; lia). by rewrite <- take_drop_commute.
Qed.

Lemma merge_below L k es i : i ≤ k → i ≤ length L → take i (merge L k es) = take i L ∧ i ≤ length (merge L k es).
Proof.
  revert k. induction es as [|e es IH]; intros k Hk Hi; [done|]. cbn.
  destruct (L !! k) as [x|] eqn:Hx.
  - destruct (_ =? _)%N; [apply IH; lia|]. apply lookup_lt_Some in Hx.
    rewrite take_app_le, take_take, length_app, length_take by (rewrite length_take; lia).
    split; [f_equal; lia|lia].
  - rewrite take_app_le, length_app by lia. split; [done|lia].
Qed.

Lemma whole_merge log L k es :
  whole log L → 0 < k → whole (merge log k es) (merge L (N.to_nat (first_index log) + k - 1) es).
Proof.
  intros (b & -> & Hl & Hb)%whole_cons Hk. cbn [first_index]. destruct k as [|k]; [lia|].
  replace (N.to_nat (Index b) + S k - 1) with (N.to_nat (Index b) + k) by lia.
  rewrite merge_cons, merge_drop by done.
  destruct (merge_below L (N.to_nat (Index b) + k) es (N.to_nat (Index b))) as [Htk Hlen]; [lia|done|].
  split; cbn; [done|done|done|]. by rewrite Htk.
Qed.

Lemma whole_take log L k : whole log L → 0 < k → whole (take k log) (take (N.to_nat (first_index log) + k - 1) L).
Proof.
  intros (b & -> & Hl & Hb)%whole_cons Hk. destruct k as [|k]; [lia|]. cbn [first_index take].
  replace (N.to_nat (Index b) + S k - 1) with (N.to_nat (Index b) + k) by lia.
  split; cbn; [done|rewrite length_take; lia| |].
  - by rewrite take_drop_commute.
  - by rewrite take_take, Nat.min_l by lia.
Qed.

Lemma whole_unique log L1 L2 :
  whole log L1 → whole log L2 → take (N.to_nat (first_index log)) L1 = take (N.to_nat (first_index log)) L2 → L1 = L2.
Proof.
  intros [_ _ H1 _] [_ _ H2 _] Htk. rewrite <- (take_drop (N.to_nat (first_index log)) L1), <- (take_drop (N.to_nat (first_index log)) L2).
  by rewrite Htk, <- H1, <- H2.
Qed.

(** A merge that was interrupted. *)
Lemma whole_partly log L k es l :
  whole log L → 0 < k → partly log k es l →
  ∃ L', partly L (N.to_nat (first_index log) + k - 1) es L' ∧ whole l L' ∧ first_index l = first_index log.
Proof.
  intros Hw Hk (m & [->|(c & e & e' & Hc & He' & Hne & Hm & ->)]).
  { eexists. split; [exists m; by left|]. split; [by apply whole_merge|]. apply merge_first; [apply Hw|done]. }
  set (i := N.to_nat (first_index log)) in *. exists (take (i + c - 1) L).
  split; [|split; [apply whole_take; [done|lia]|apply first_index_take; lia]].
  exists m. right. exists (i + c - 1), e, e'. split; [lia|]. split; [apply whole_lookup; [done|lia|done]|].
  split; [done|]. split; [|done]. pose proof (whole_merge log L k (take m es) Hw Hk) as W1. rewrite Hm in W1.
  assert (whole (take c log) (take (i + c - 1) L)) as Wt by (apply whole_take; [done|lia]).
  apply (whole_unique _ _ _ W1); [by apply whole_app|]. rewrite first_index_app by (apply (wh_ne _ _ Wt)).
  rewrite first_index_take by lia. fold i. pose proof (wh_len _ _ Hw) as Hlen. fold i in Hlen.
  destruct (merge_below L (i + k - 1) (take m es) i) as [-> _]; [lia|done|].
  rewrite take_app_le by (rewrite length_take; lia). rewrite take_take. f_equal. lia.
Qed.

Lemma partly_below L k es L' i : partly L k es L' → i ≤ k → k ≤ length L → take i L' = take i L ∧ i ≤ length L'.
Proof.
  intros (m & [->|(c & e & e' & Hc & He' & _ & _ & ->)]) Hi Hk; [apply merge_below; lia|].
  apply lookup_lt_Some in He'. rewrite take_take, length_take. split; [f_equal; lia|lia].
Qed.

(** Entries a log already agrees with change nothing. *)
Lemma merge_agreed h L G k n :
  consistent h L → consistent h G → k ≤ length L → k ≤ length G → k + n ≤ length G →
  take (k + n) L = take (k + n) G → merge L k (take n (drop k G)) = L.
Proof.
  intros HL HG HkL HkG Hn Heq.
  destruct (merge_lead h L G k n) as [[-> _]|(_ & c & Hc & _ & Hne & _)]; try done.
  { by apply (take_of_take_eq _ (k + n)); [|lia]. }
  exfalso. apply Hne. apply (f_equal (λ l, l !! c)) in Heq. by rewrite !lookup_take_lt in Heq by lia.
Qed.
