(* ===== verification/RaftReplication.v ===== *)
(** * A cluster that replicates its log

    RaftCluster's world with the traffic of replication: the AppendEntries and
    InstallSnapshot requests in flight, each delivered to its addressee any
    number of times, in any order or never, and the replies, likewise.
    Processes campaign, vote, propose, replicate, commit, apply, compact their
    logs, send and install snapshots, crash and restart from their storage.  A
    process that crashes between two critical sections leaves its storage as it
    is.  One that dies inside, or whose storage failed, which disables it, leaves
    whatever the storage's contract allows ([reopened]).  A snapshot is not
    delivered to a node whose log has another, uncommitted entry at the snapshot's
    last index ([installable]): what the node has on disk afterwards is
    [install_snapshot_keeps_stale_tail] of RaftProperties.  When a leader sends a snapshot is left open: the code does so after
    [replicateToPeer] has answered [NeedSnapshot]. *)
From S2P Require Import Prelude RaftTypes RaftNode RaftVotes RaftCluster RaftLog RaftService.

#[export] Instance AppendEntriesArgs_eq_dec : EqDecision AppendEntriesArgs.
Proof. solve_decision. Defined.
#[export] Instance AppendEntriesReply_eq_dec : EqDecision AppendEntriesReply.
Proof. solve_decision. Defined.
#[export] Instance InstallSnapshotArgs_eq_dec : EqDecision InstallSnapshotArgs.
Proof. solve_decision. Defined.
#[export] Instance InstallSnapshotReply_eq_dec : EqDecision InstallSnapshotReply.
Proof. solve_decision. Defined.

Section Model.
Context {S : Type} `{StorageSpec S}.
Implicit Types (n : Node S) (w : World S).

Variable members : list NodeID.
Variable cfg_of : NodeID → Config.

Record RWorld : Type := MkRWorld {
  rw_world : World S;
  rw_requests : list (NodeID * AppendEntriesArgs);
  rw_answers : list (NodeID * AppendEntriesArgs * AppendEntriesReply);
  rw_snapshots : list (NodeID * InstallSnapshotArgs);
  rw_installs : list (NodeID * InstallSnapshotArgs * InstallSnapshotReply);
}.

(** Events of RaftCluster that replication leaves as they are. *)
Definition event_ok w (ev : Event) : Prop :=
  match ev with
  | EvLocal p (OpPropose cmd) => ∀ n, w_procs w !! p = Some (Up n) →
      (next_index (n_log n) < two63)%N ∧
      entry_fits (MkEntry (n_currentTerm n) (next_index (n_log n)) cmd)
  | EvLocal _ (OpSnapshot _ data) => snapshot_fits data
  | EvLocal _ (OpTick _) | EvLocal _ (OpTrigger _) | EvLocal _ OpTakeTrigger | EvLocal _ (OpApply _) => True
  | EvLocal _ _ => False
  | EvSolo eid => ∀ el n, w_elections w !! eid = Some el →
      w_procs w !! el_cand el = Some (Up n) → n_failed n = false
  | EvCrash p => ∀ n, w_procs w !! p = Some (Up n) → n_failed n = false
  | EvRestart p e => ∀ st, w_procs w !! p = Some (Down st) →
      ∃ n st', NewNode (cfg_of p) e st = Val (inl n, st')
  | _ => True
  end.

(** The log of [n] has no uncommitted entry of another term at the snapshot's
    last index. *)
Definition installable n (args : InstallSnapshotArgs) : Prop :=
  Forall (λ e, Index e = is_LastIncludedIndex args → (n_commitIndex n < Index e)%N →
    Term e = is_LastIncludedTerm args) (n_log n).

#[global] Instance installable_dec n args : Decision (installable n args).
Proof. apply Forall_dec. intros e. solve_decision. Defined.

Definition on_world (f : World S → World S) (R : RWorld) : RWorld :=
  MkRWorld (f (rw_world R)) (rw_requests R) (rw_answers R) (rw_snapshots R) (rw_installs R).

Definition add_request (x : NodeID * AppendEntriesArgs) (R : RWorld) : RWorld :=
  MkRWorld (rw_world R) (x :: rw_requests R) (rw_answers R) (rw_snapshots R) (rw_installs R).

(** The answer of [q], if it sent one. *)
Definition add_answer (q : NodeID) (args : AppendEntriesArgs) (r : AppendEntriesReply + option error) (R : RWorld) : RWorld :=
  match r with
  | inl rep => MkRWorld (rw_world R) (rw_requests R) ((q, args, rep) :: rw_answers R) (rw_snapshots R) (rw_installs R)
  | inr _ => R
  end.

Definition add_snapshot (x : NodeID * InstallSnapshotArgs) (R : RWorld) : RWorld :=
  MkRWorld (rw_world R) (rw_requests R) (rw_answers R) (x :: rw_snapshots R) (rw_installs R).

Definition add_install (q : NodeID) (args : InstallSnapshotArgs) (r : InstallSnapshotReply + option error) (R : RWorld) : RWorld :=
  match r with
  | inl rep => MkRWorld (rw_world R) (rw_requests R) (rw_answers R) (rw_snapshots R) ((q, args, rep) :: rw_installs R)
  | inr _ => R
  end.

Inductive rstep : RWorld → RWorld → Prop :=
| rs_event R ev w' :
    event_ok (rw_world R) ev → exec cfg_of ev (rw_world R) = Some w' →
    rstep R (on_world (λ _, w') R)
| rs_send R p n q term args n' :
    w_procs (rw_world R) !! p = Some (Up n) → q ∈ n_peers n →
    replicateToPeer q term n = Val (SendAppend args, n') →
    rstep R (add_request (q, args) R)
| rs_append R q args n e r n' :
    (q, args) ∈ rw_requests R → w_procs (rw_world R) !! q = Some (Up n) →
    handleAppendEntries e args n = Val (r, n') →
    rstep R (add_answer q args r (on_world (set_proc q n') R))
| rs_answer R q args rep n n' :
    (q, args, rep) ∈ rw_answers R → w_procs (rw_world R) !! ae_LeaderID args = Some (Up n) →
    onAppendReply q (ae_Term args) args rep n = Val ((), n') →
    rstep R (on_world (set_proc (ae_LeaderID args) n') R)
| rs_snapshot R p n q term args n' :
    w_procs (rw_world R) !! p = Some (Up n) → q ∈ n_peers n →
    sendInstallSnapshot term n = Val (Some args, n') →
    rstep R (add_snapshot (q, args) R)
| rs_install R q args n e r n' :
    (q, args) ∈ rw_snapshots R → w_procs (rw_world R) !! q = Some (Up n) → installable n args →
    handleInstallSnapshot e args n = Val (r, n') →
    rstep R (add_install q args r (on_world (set_proc q n') R))
| rs_installed R q args rep n n' :
    (q, args, rep) ∈ rw_installs R → w_procs (rw_world R) !! is_LeaderID args = Some (Up n) →
    onSnapshotReply q (is_Term args) args rep n = Val ((), n') →
    rstep R (on_world (set_proc (is_LeaderID args) n') R)
| rs_reopen R p n st :
    w_procs (rw_world R) !! p = Some (Up n) → reopened (n_storage n) st →
    rstep R (on_world (set_down p st) R).

(** Every member starts from an empty storage. *)
Definition empty_state : PersistentState := MkPersistent 0 "" [boundary 0 0] [].

Definition rinitial R : Prop :=
  initial members (rw_world R) ∧ rw_requests R = [] ∧ rw_answers R = [] ∧ rw_snapshots R = [] ∧ rw_installs R = [] ∧
  ∀ p st, w_procs (rw_world R) !! p = Some (Down st) → sto_ok st ∧ view st = empty_state.

Inductive rreachable : RWorld → Prop :=
| rreach_init R : rinitial R → rreachable R
| rreach_step R R' : rreachable R → rstep R R' → rreachable R'.

Lemma rreachable_rtc R R' : rreachable R → rtc rstep R R' → rreachable R'.
Proof. intros HR Hst. induction Hst as [R|R R1 R2 Hs _ IH]; [done|]. apply IH. by eapply rreach_step. Qed.

(** ** The cluster behind it *)
Lemma rstep_append_step q args n e r n' w :
  w_procs w !! q = Some (Up n) → (ae_Term args < two64)%N →
  handleAppendEntries e args n = Val (r, n') → step cfg_of w (set_proc q n' w).
Proof.
  intros Hq Ht Hrun. eapply (step_local _ _ _ _ (OpHandle e (ReqAppend args))); [done|done|].
  cbn. unfold discard, wrap_reply, mbind, GoM_bind. by rewrite Hrun.
Qed.

Lemma rstep_answer_step q args rep n n' w :
  w_procs w !! ae_LeaderID args = Some (Up n) → (aer_Term rep < two64)%N →
  onAppendReply q (ae_Term args) args rep n = Val ((), n') → step cfg_of w (set_proc (ae_LeaderID args) n' w).
Proof. intros Hq Ht Hrun. by eapply (step_local _ _ _ _ (OpAppendReply q (ae_Term args) args rep)). Qed.

Lemma rstep_event_step w ev w' : event_ok w ev → exec cfg_of ev w = Some w' → step cfg_of w w'.
Proof.
  intros Hok. apply exec_sound. destruct ev as [p op| | | | | |]; cbn; try done. destruct op as [?[]| | | | | | | |]; done.
Qed.

Lemma rstep_install_step q args n e r n' w :
  w_procs w !! q = Some (Up n) → (is_Term args < two64)%N →
  handleInstallSnapshot e args n = Val (r, n') → step cfg_of w (set_proc q n' w).
Proof.
  intros Hq Ht Hrun. eapply (step_local _ _ _ _ (OpHandle e (ReqSnapshot args))); [done|done|].
  cbn. unfold discard, wrap_reply, mbind, GoM_bind. by rewrite Hrun.
Qed.

Lemma rstep_installed_step q args rep n n' w :
  w_procs w !! is_LeaderID args = Some (Up n) → (isr_Term rep < two64)%N →
  onSnapshotReply q (is_Term args) args rep n = Val ((), n') → step cfg_of w (set_proc (is_LeaderID args) n' w).
Proof. intros Hq Ht Hrun. by eapply (step_local _ _ _ _ (OpSnapshotReply q (is_Term args) args rep)). Qed.

Lemma rstep_reopen_step p n st w :
  w_procs w !! p = Some (Up n) → reopened (n_storage n) st → step cfg_of w (set_down p st w).
Proof. intros Hp Hr. eapply step_crash; [done|by apply reopened_hard]. Qed.

(** ** Running a schedule *)
Inductive REvent : Type :=
| REvent_base (ev : Event)
| REvent_send (p q : NodeID) (term : N)
| REvent_append (q : NodeID) (args : AppendEntriesArgs) (e : Env)
| REvent_answer (q : NodeID) (args : AppendEntriesArgs) (rep : AppendEntriesReply)
| REvent_snapshot (p q : NodeID) (term : N)
| REvent_install (q : NodeID) (args : InstallSnapshotArgs) (e : Env)
| REvent_installed (q : NodeID) (args : InstallSnapshotArgs) (rep : InstallSnapshotReply)
| REvent_reopen (p : NodeID) (st : S).

Definition rexec (ev : REvent) R : option RWorld :=
  match ev with
  | REvent_base ev => (λ w', on_world (λ _, w') R) <$> exec cfg_of ev (rw_world R)
  | REvent_send p q term =>
      n ← up_node (rw_world R) p;
      if bool_decide (q ∈ n_peers n) then
        run_some (replicateToPeer q term n) (λ r,
          match r.1 with SendAppend args => Some (add_request (q, args) R) | _ => None end)
      else None
  | REvent_append q args e =>
      n ← up_node (rw_world R) q;
      if bool_decide ((q, args) ∈ rw_requests R) then
        run_some (handleAppendEntries e args n) (λ r, Some (add_answer q args r.1 (on_world (set_proc q r.2) R)))
      else None
  | REvent_answer q args rep =>
      n ← up_node (rw_world R) (ae_LeaderID args);
      if bool_decide ((q, args, rep) ∈ rw_answers R) then
        run_some (onAppendReply q (ae_Term args) args rep n) (λ r, Some (on_world (set_proc (ae_LeaderID args) r.2) R))
      else None
  | REvent_snapshot p q term =>
      n ← up_node (rw_world R) p;
      if bool_decide (q ∈ n_peers n) then
        run_some (sendInstallSnapshot term n) (λ r,
          match r.1 with Some args => Some (add_snapshot (q, args) R) | None => None end)
      else None
  | REvent_install q args e =>
      n ← up_node (rw_world R) q;
      if bool_decide ((q, args) ∈ rw_snapshots R ∧ installable n args) then
        run_some (handleInstallSnapshot e args n) (λ r, Some (add_install q args r.1 (on_world (set_proc q r.2) R)))
      else None
  | REvent_installed q args rep =>
      n ← up_node (rw_world R) (is_LeaderID args);
      if bool_decide ((q, args, rep) ∈ rw_installs R) then
        run_some (onSnapshotReply q (is_Term args) args rep n) (λ r, Some (on_world (set_proc (is_LeaderID args) r.2) R))
      else None
  | REvent_reopen p st =>
      n ← up_node (rw_world R) p;
      if bool_decide (reopened (n_storage n) st) then Some (on_world (set_down p st) R) else None
  end.

Fixpoint revents_ok (evs : list REvent) R : Prop :=
  match evs with
  | [] => True
  | ev :: evs =>
      match ev with REvent_base ev => event_ok (rw_world R) ev | _ => True end ∧
      match rexec ev R with Some R' => revents_ok evs R' | None => True end
  end.

Fixpoint rexec_all (evs : list REvent) R : option RWorld :=
  match evs with
  | [] => Some R
  | ev :: evs => R' ← rexec ev R; rexec_all evs R'
  end.

Lemma rexec_sound ev R R' :
  match ev with REvent_base ev => event_ok (rw_world R) ev | _ => True end →
  rexec ev R = Some R' → rstep R R'.
Proof.
  destruct ev as [ev|p q t|q args e|q args rep|p q t|q args e|q args rep|p st]; cbn; intros Hok.
  - intros (w' & Hw & ->)%fmap_Some. by eapply rs_event.
  - intros (n & Hn%up_node_Some & Hif)%bind_Some. case_bool_decide; [|done].
    apply run_some_Some in Hif as ([[|args|] n'] & Hr & [= <-]). by eapply rs_send.
  - intros (n & Hn%up_node_Some & Hif)%bind_Some. case_bool_decide; [|done].
    apply run_some_Some in Hif as ([r n'] & Hr & [= <-]). by eapply rs_append.
  - intros (n & Hn%up_node_Some & Hif)%bind_Some. case_bool_decide; [|done].
    apply run_some_Some in Hif as ([[] n'] & Hr & [= <-]). by eapply rs_answer.
  - intros (n & Hn%up_node_Some & Hif)%bind_Some. case_bool_decide; [|done].
    apply run_some_Some in Hif as ([[args|] n'] & Hr & Hk); [|done]. injection Hk as <-. by eapply rs_snapshot.
  - intros (n & Hn%up_node_Some & Hif)%bind_Some. case_bool_decide as Hin; [|done]. destruct Hin.
    apply run_some_Some in Hif as ([r n'] & Hr & [= <-]). by eapply rs_install.
  - intros (n & Hn%up_node_Some & Hif)%bind_Some. case_bool_decide; [|done].
    apply run_some_Some in Hif as ([[] n'] & Hr & [= <-]). by eapply rs_installed.
  - intros (n & Hn%up_node_Some & Hif)%bind_Some. case_bool_decide; [|done]. injection Hif as <-. by eapply rs_reopen.
Qed.

(** Every step is the execution of an event. *)
Lemma rexec_complete R R' :
  rstep R R' → ∃ ev, match ev with REvent_base ev => event_ok (rw_world R) ev | _ => True end ∧ rexec ev R = Some R'.
Proof.
  intros Hst. destruct Hst as [R ev w' Hok Hx|R p n q term args n' Hp Hq Hrun|R q args n e r n' Hin Hp Hrun
    |R q args rep n n' Hin Hp Hrun|R p n q term args n' Hp Hq Hrun|R q args n e r n' Hin Hp Hinst Hrun|R q args rep n n' Hin Hp Hrun|R p n st Hp Hre].
  - exists (REvent_base ev). split; [done|]. cbn. by rewrite Hx.
  - exists (REvent_send p q term). split; [done|]. cbn. unfold up_node. rewrite Hp. cbn. by rewrite bool_decide_true, Hrun by done.
  - exists (REvent_append q args e). split; [done|]. cbn. unfold up_node. rewrite Hp. cbn. by rewrite bool_decide_true, Hrun by done.
  - exists (REvent_answer q args rep). split; [done|]. cbn. unfold up_node. rewrite Hp. cbn. by rewrite bool_decide_true, Hrun by done.
  - exists (REvent_snapshot p q term). split; [done|]. cbn. unfold up_node. rewrite Hp. cbn. by rewrite bool_decide_true, Hrun by done.
  - exists (REvent_install q args e). split; [done|]. cbn. unfold up_node. rewrite Hp. cbn. by rewrite bool_decide_true, Hrun by done.
  - exists (REvent_installed q args rep). split; [done|]. cbn. unfold up_node. rewrite Hp. cbn. by rewrite bool_decide_true, Hrun by done.
  - exists (REvent_reopen p st). split; [done|]. cbn. unfold up_node. rewrite Hp. cbn. by rewrite bool_decide_true by done.
Qed.

Lemma rexec_all_reachable evs R R' :
  rreachable R → revents_ok evs R → rexec_all evs R = Some R' → rreachable R'.
Proof.
  revert R. induction evs as [|ev evs IH]; intros R HR; cbn; [by intros _ [= <-]|].
  intros [Hev Hevs] (R1 & HR1 & Hall)%bind_Some. rewrite HR1 in Hevs.
  eapply IH; [|done|done]. eapply rreach_step; [done|by apply (rexec_sound ev)].
Qed.
End Model.

Arguments REvent S : clear implicits.
Arguments RWorld S : clear implicits.
Arguments MkRWorld {S}.
