(* ===== verification/RaftMoves.v ===== *)
(** * What each critical section does to a node's log, role and progress

    RaftReplicate and RaftService show that a node stays in service; here is
    what the safety of the whole cluster needs besides: a critical section
    either leaves the log alone and keeps or loses its role ([rests]), or is
    one of the few moves that do more: a candidacy, a victory, a proposal, an
    accepted AppendEntries, an acknowledgement counted. *)
From S2P Require Import Prelude RaftTypes RaftNode RaftVotes RaftCluster RaftElection RaftLog RaftReplicate RaftService.

Section Moves.
Context {S : Type} `{StorageSpec S}.
Implicit Types (n : Node S).

Lemma wp_any {St A} (m : GoM St A) s : wp True m (λ _ _, True) s.
Proof. unfold wp. by destruct (m s) as [[]|]. Qed.

(** ** Keeping or losing the role *)
Record calm n0 n : Prop := {
  ca_match : n_matchIndex n = n_matchIndex n0;
  ca_role : n_role n = Follower ∨ (n_role n = n_role n0 ∧ n_currentTerm n = n_currentTerm n0);
  ca_pending : n_pendingSnapshot n = n_pendingSnapshot n0 ∨ n_pendingSnapshot n = None;
  ca_data : n_snapshotData n = n_snapshotData n0;
}.

Lemma calm_refl n : calm n n.
Proof. split; auto. Qed.

Lemma calm_frame n0 n n' :
  calm n0 n → n_matchIndex n' = n_matchIndex n → (n_role n' = n_role n ∨ n_role n' = Follower) →
  n_currentTerm n' = n_currentTerm n →
  (n_pendingSnapshot n' = n_pendingSnapshot n ∨ n_pendingSnapshot n' = None) →
  n_snapshotData n' = n_snapshotData n → calm n0 n'.
Proof. intros [Hm Hr Hp Hd] E1 [E2|E2] E3 [E4|E4] E5; split; rewrite ?E1, ?E2, ?E3, ?E4, ?E5; auto. Qed.

Ltac calm_tac := eapply calm_frame; [eassumption|reflexivity|by auto|reflexivity|by auto|reflexivity].

Lemma disable_calm n0 n err : calm n0 n → wp True (disableLocked err) (λ _ n', calm n0 n') n.
Proof. intros Hc. unfold disableLocked. repeat wp_step. calm_tac. Qed.

Lemma storage_calm {A} (m : GoM S A) n0 n (k : A → GoM (Node S) ()) :
  calm n0 n → (∀ a n', calm n0 n' → wp True (k a) (λ _ n', calm n0 n') n') →
  wp True (storage_call m ≫= k) (λ _ n', calm n0 n') n.
Proof.
  intros Hc Hk. unfold storage_call. do 2 wp_step. eapply wp_mono; [|apply wp_any].
  cbn. intros a s' _. apply Hk. calm_tac.
Qed.

Lemma saveHardState_calm n0 n t v :
  calm n0 n → (n_role n = Follower ∨ t = n_currentTerm n) →
  wp True (saveHardStateLocked t v) (λ _ n', calm n0 n') n.
Proof.
  intros [Hm Hr Hp Hda] Ht. unfold saveHardStateLocked. do 4 wp_step. apply storage_calm.
  - split; cbn; [done| |done..]. destruct Ht as [->| ->]; [by left|done].
  - intros [err|] n' Hc; [by apply disable_calm|by wp_step].
Qed.

Lemma becomeFollower_calm n0 n t :
  calm n0 n → wp True (becomeFollowerLocked t) (λ _ n', calm n0 n') n.
Proof.
  intros Hc. unfold becomeFollowerLocked. do 4 wp_step. wp_step; [|calm_tac].
  apply saveHardState_calm; [calm_tac|by left].
Qed.

Lemma resetElection_calm n0 n e : calm n0 n → wp True (resetElectionDeadlineLocked e) (λ _ n', calm n0 n') n.
Proof. intros Hc. unfold resetElectionDeadlineLocked. wp_step. calm_tac. Qed.

Lemma observeLeader_calm n0 n e t l : calm n0 n → wp True (observeLeader e t l) (λ _ n', calm n0 n') n.
Proof.
  intros Hc. unfold observeLeader. do 3 wp_step.
  eapply (wp_mono _ _ (λ _ n', calm n0 n')).
  - intros _ n1 Hc1. do 3 wp_step; [done|]. do 2 wp_step. apply resetElection_calm. calm_tac.
  - wp_step; [by apply becomeFollower_calm|]. wp_step; [wp_step; calm_tac|done].
Qed.

Lemma appendLog_calm n0 n es : calm n0 n → wp True (appendLogLocked es) (λ _ n', calm n0 n') n.
Proof.
  intros Hc. unfold appendLogLocked. do 2 wp_step. apply storage_calm; [calm_tac|].
  intros [err|] n' Hc'; [by apply disable_calm|by wp_step].
Qed.

Lemma truncateLog_calm n0 n i : calm n0 n → wp True (truncateLogLocked i) (λ _ n', calm n0 n') n.
Proof.
  intros Hc. unfold truncateLogLocked. do 3 wp_step. apply wp_lift_go; [|done]. intros l _. do 2 wp_step.
  apply storage_calm; [calm_tac|]. intros [err|] n' Hc'; [by apply disable_calm|by wp_step].
Qed.

Lemma append_loop_calm n0 n idx es : calm n0 n → wp True (append_loop idx es) (λ _ n', calm n0 n') n.
Proof.
  revert idx n. induction es as [|e es IH]; intros idx n Hc; [done|]. cbn [append_loop].
  do 3 wp_step. apply wp_lift_go; [|done]. intros last _. cbn.
  wp_step; [|by apply appendLog_calm].
  wp_step. apply wp_lift_go; [|done]. intros t _. cbn. wp_step; [by apply IH|].
  wp_step. eapply wp_mono; [|by apply truncateLog_calm]. cbn. intros _ n1 Hc1.
  do 3 wp_step; [done|]. by apply appendLog_calm.
Qed.

Lemma appendEntries_checked_calm n0 n args :
  calm n0 n → wp True (appendEntries_checked args) (λ _ n', calm n0 n') n.
Proof.
  intros Hc. unfold appendEntries_checked, fail_reply, notifyApply.
  do 3 wp_step. apply wp_lift_go; [|done]. intros last _. cbn. wp_step; [done|].
  wp_step. apply wp_lift_go; [|done]. intros pt _. cbn. wp_step; [done|].
  wp_step. eapply wp_mono; [|by apply append_loop_calm]. cbn. intros _ n1 Hc1.
  do 3 wp_step; [by repeat wp_step|].
  wp_step. apply wp_lift_go; [|done]. intros last' _. cbn. do 2 wp_step; repeat wp_step; [calm_tac|done].
Qed.

Lemma handleAppendEntries_calm n e args : wp True (handleAppendEntries e args) (λ _ n', calm n n') n.
Proof.
  pose proof (calm_refl n) as Hc. unfold handleAppendEntries, fail_reply.
  do 3 wp_step; [by repeat wp_step|]. wp_step; [by wp_step|]. wp_step.
  eapply wp_mono; [|by apply observeLeader_calm]. cbn. intros _ n1 Hc1.
  do 3 wp_step; [by repeat wp_step|]. wp_step.
  - wp_step; [by wp_step|]. wp_step. apply wp_lift_go; [|done]. intros rest _.
    by apply appendEntries_checked_calm.
  - by apply appendEntries_checked_calm.
Qed.

Lemma handleRequestVote_calm n e args : wp True (handleRequestVote e args) (λ _ n', calm n n') n.
Proof.
  pose proof (calm_refl n) as Hc. unfold handleRequestVote, fail_reply.
  do 3 wp_step; [by repeat wp_step|]. wp_step.
  eapply (wp_mono _ _ (λ _ n', calm n n')); [|wp_step; [by apply becomeFollower_calm|done]].
  cbn. intros _ n1 Hc1. do 3 wp_step; [by repeat wp_step|]. wp_step; [by wp_step|]. wp_step.
  apply wp_lift_go; [|done]. intros up _. wp_step; [|by wp_step]. wp_step.
  eapply wp_mono; [|apply saveHardState_calm; [done|by right]]. cbn. intros _ n2 Hc2.
  do 3 wp_step; [by repeat wp_step|]. wp_step.
  eapply wp_mono; [|by apply resetElection_calm]. cbn. intros _ n3 Hc3. by wp_step.
Qed.

Lemma tick_calm n e : wp True (tick e) (λ _ n', calm n n') n.
Proof.
  pose proof (calm_refl n) as Hc. unfold tick. repeat (wp_step; cbn zeta); try done; calm_tac.
Qed.

Lemma trigger_calm n i : wp True (trigger_snapshot i) (λ _ n', calm n n') n.
Proof. pose proof (calm_refl n) as Hc. unfold trigger_snapshot. repeat wp_step; try done; calm_tac. Qed.

Lemma take_trigger_calm n : wp True take_snapshot_trigger (λ _ n', calm n n') n.
Proof. pose proof (calm_refl n) as Hc. unfold take_snapshot_trigger. repeat wp_step; calm_tac. Qed.

Lemma applyLoop_calm n pc : wp True (applyLoop_step pc) (λ _ n', calm n n') n.
Proof.
  pose proof (calm_refl n) as Hc.
  assert (wp True applyLoop_inner (λ _ n', calm n n') n) as Hin.
  { unfold applyLoop_inner. do 3 wp_step; [|done]. do 5 wp_step.
    apply wp_lift_go; [|done]. intros entry _. wp_step. calm_tac. }
  unfold applyLoop_step. do 2 wp_step. repeat wp_step; try done; calm_tac.
Qed.

(** ** Moves that leave the log alone *)
Record rests n n' : Prop := {
  re_cfg : n_cfg n' = n_cfg n;
  re_log : n_log n' = n_log n;
  re_lii : n_lastIncludedIndex n' = n_lastIncludedIndex n;
  re_commit : n_commitIndex n' = n_commitIndex n;
  re_term : (n_currentTerm n ≤ n_currentTerm n')%N;
  re_calm : calm n n';
}.

Lemma evolves_term n n' :
  service n → evolves n n' → n_failed n' = false → (n_currentTerm n ≤ n_currentTerm n')%N.
Proof.
  intros [Hok _] [_ Hh Hs _] Hf. rewrite (Hs Hf), (node_ok_synced _ Hok) in Hh by apply Hok.
  destruct Hh as [?|[? _]]; cbn in *; lia.
Qed.

Lemma core_rests n n' :
  service n → core_frame n n' → evolves n n' → calm n n' → n_failed n' = false → rests n n'.
Proof. intros Hs Hfr Hev Hc Hf. destruct Hfr. split; try done. by apply evolves_term. Qed.

(** *** Timers, the snapshot trigger, the apply loop *)
Record quiet n n' : Prop := {
  qu_cfg : n_cfg n' = n_cfg n;
  qu_log : n_log n' = n_log n;
  qu_lii : n_lastIncludedIndex n' = n_lastIncludedIndex n;
  qu_commit : n_commitIndex n' = n_commitIndex n;
}.

Lemma tick_quiet n e : wp True (tick e) (λ _ n', quiet n n') n.
Proof. unfold tick. repeat (wp_step; cbn zeta); by split. Qed.

Lemma trigger_quiet n i : wp True (trigger_snapshot i) (λ _ n', quiet n n') n.
Proof. unfold trigger_snapshot. repeat wp_step; by split. Qed.

Lemma take_trigger_quiet n : wp True take_snapshot_trigger (λ _ n', quiet n n') n.
Proof. unfold take_snapshot_trigger. repeat wp_step; by split. Qed.

Lemma applyLoop_quiet n pc : wp True (applyLoop_step pc) (λ _ n', quiet n n') n.
Proof.
  assert (wp True applyLoop_inner (λ _ n', quiet n n') n) as Hin.
  { unfold applyLoop_inner. do 3 wp_step; [|by split]. do 5 wp_step.
    apply wp_lift_go; [|done]. intros entry _. wp_step. by split. }
  unfold applyLoop_step. do 2 wp_step. repeat wp_step; try done; by split.
Qed.

Definition quiet_op (op : LocalOp) : Prop :=
  match op with OpTick _ | OpTrigger _ | OpTakeTrigger | OpApply _ => True | _ => False end.

Lemma quiet_op_rests n op n' :
  quiet_op op → service n → run_op op n = Val ((), n') →
  serving n' ∧ evolves n n' ∧ (n_failed n' = false → rests n n').
Proof.
  intros Hop Hs Hrun. pose proof (node_ok_synced _ (proj1 Hs)) as Hsy.
  assert (evolves n n') as Hev by (eapply run_op_evolves; [|done|done]; by destruct op).
  assert (serving n') as Hsv.
  { eapply (wp_run False _ (λ _ n', serving n')); [apply run_op_serving; [done|]|exact Hrun]. by destruct op. }
  assert (wp True (run_op op) (λ _ n', quiet n n' ∧ calm n n') n) as Hwp.
  { destruct op; try done; cbn; try apply wp_discard; apply wp_conj;
      auto using tick_quiet, tick_calm, trigger_quiet, trigger_calm, take_trigger_quiet,
        take_trigger_calm, applyLoop_quiet, applyLoop_calm. }
  destruct (wp_run _ _ _ _ _ _ Hwp Hrun) as [[] Hc].
  split; [done|]. split; [done|]. intros Hf. split; try done. by apply evolves_term.
Qed.

(** *** Votes *)
Lemma vote_rests n e args r n' :
  service n → (rv_Term args < two64)%N → vote_fits (rv_CandidateID args) →
  handleRequestVote e args n = Val (r, n') →
  serving n' ∧ (n_failed n' = false → rests n n') ∧
  ∀ rep, r = inl rep → rvr_VoteGranted rep = true →
    up_to_date n args ∧ n_currentTerm n' = rv_Term args ∧ n_failed n' = false.
Proof.
  intros Hs Ht Hv Hrun. pose proof (node_ok_synced _ (proj1 Hs)) as Hsy.
  destruct (wp_run _ _ _ _ _ _ (handleRequestVote_spec n e args (proj1 Hs) Ht Hv) Hrun) as (Hfr & Hsv & Hr).
  destruct (wp_run _ _ _ _ _ _ (handleRequestVote_evolves n e args Hsy Ht Hv) Hrun) as [Hev _].
  pose proof (wp_run _ _ _ _ _ _ (handleRequestVote_calm n e args) Hrun) as Hc.
  split; [by eapply serving_core; [apply Hs|..]|]. split; [by apply core_rests|].
  intros rep -> Hg. destruct Hr as [_ Hr]. destruct (Hr Hg) as (? & ? & _ & ?). done.
Qed.

Lemma follower_rests n t n' :
  service n → (t < two64)%N → becomeFollowerLocked t n = Val ((), n') → rests n n'.
Proof.
  intros Hs Ht Hrun.
  destruct (wp_run _ _ _ _ _ _ (becomeFollower_serves n t (proj1 Hs) Ht) Hrun) as (Hfr & _ & _ & Hm).
  pose proof (wp_run _ _ _ _ _ _ (becomeFollower_calm n n t (calm_refl n)) Hrun) as Hc.
  destruct Hfr. split; try done. lia.
Qed.

(** *** Winning an election *)
Record takes_office n n' : Prop := {
  to_light : light n n';
  to_role : n_role n' = Leader;
  to_match p : map_get (n_matchIndex n') p = 0%N;
  to_pending : n_pendingSnapshot n' = n_pendingSnapshot n;
}.

Lemma becomeLeader_takes_office n :
  wp True becomeLeaderLocked (λ _ n', takes_office n n') n.
Proof.
  unfold becomeLeaderLocked. do 6 wp_step. wp_step. apply wp_lift_go; [|done]. intros last _.
  repeat wp_step. split; [by split|done| |done]. intros p. cbn.
  assert (∀ ps (m : gmap NodeID N), map_get m p = 0%N →
    map_get (foldl (λ m p, <[p := 0%N]> m) m ps) p = 0%N) as Hfold.
  { induction ps as [|q ps IH]; intros m Hm; [done|]. cbn. apply IH. unfold map_get in *.
    destruct (decide (q = p)) as [->|]; by simplify_map_eq. }
  by apply Hfold.
Qed.

(** The outcome of a vote reply and of the check for a cluster of one. *)
Definition counted n n' (term : N) (votes : nat) : Prop :=
  rests n n' ∨
  (n_role n = Candidate ∧ n_currentTerm n = term ∧ majority_of (n_peers n) ≤ votes ∧ takes_office n n').

Lemma rests_refl n : rests n n.
Proof. split; try done. apply calm_refl. Qed.

Lemma voteReply_counted n term votes r votes' n' :
  service n → (rvr_Term r < two64)%N →
  onRequestVoteReply term votes r n = Val (votes', n') →
  counted n n' term votes' ∧ (votes' = votes ∨ votes' = votes + 1 ∧ rvr_VoteGranted r = true).
Proof.
  intros Hs Ht. pose proof (proj1 (proj1 Hs)) as Hf. unfold onRequestVoteReply, mbind, GoM_bind, get.
  rewrite Hf. destruct (_ <? _)%N.
  { destruct (becomeFollowerLocked _ n) as [[[] n1]|] eqn:Hrun; [|done]. intros [= <- <-].
    split; [|by left]. left. by eapply follower_rests. }
  destruct (_ || _) eqn:Hg; [intros [= <- <-]; split; [left; apply rests_refl|by left]|].
  apply orb_false_iff in Hg as [[Hr Htm]%orb_false_iff Hv].
  apply negb_false_iff, bool_decide_eq_true in Hr. apply negb_false_iff, N.eqb_eq in Htm.
  apply negb_false_iff in Hv. destruct (Nat.leb_spec (majority_of (n_peers n)) (votes + 1)).
  - destruct (becomeLeaderLocked n) as [[[] n1]|] eqn:Hrun; [|done]. intros [= <- <-].
    split; [|by right]. right. split; [done|]. split; [done|]. split; [done|].
    by apply (wp_run _ _ _ _ _ _ (becomeLeader_takes_office n) Hrun).
  - intros [= <- <-]. split; [|by right]. left. apply rests_refl.
Qed.

Lemma solo_counted n term n' :
  service n → startElection_solo term n = Val ((), n') →
  counted n n' term 1.
Proof.
  intros Hs. unfold startElection_solo, mbind, GoM_bind, get.
  destruct (Nat.leb_spec (majority_of (n_peers n)) 1);
    [|intros [= <-]; left; apply rests_refl].
  unfold when. destruct (_ && _) eqn:Hg; [|intros [= <-]; left; apply rests_refl].
  apply andb_true_iff in Hg as [Hr%bool_decide_eq_true Ht%N.eqb_eq]. intros Hrun.
  right. split; [done|]. split; [done|]. split; [done|].
  by apply (wp_run _ _ _ _ _ _ (becomeLeader_takes_office n) Hrun).
Qed.
(** ** Campaigning *)
Lemma saveHardState_role n t v :
  wp True (saveHardStateLocked t v) (λ _ n', n_role n' = n_role n) n.
Proof.
  unfold saveHardStateLocked, storage_call. do 6 wp_step. eapply wp_mono; [|apply wp_any].
  cbn. intros [err|] st _; unfold disableLocked; repeat wp_step; done.
Qed.

Lemma startElection_candidate n e :
  wp True (startElection e) (λ r n', is_Some r → n_role n' = Candidate) n.
Proof.
  unfold startElection, becomeCandidateLocked, resetElectionDeadlineLocked.
  do 3 wp_step; [by intros [? ?]|]. do 8 wp_step.
  eapply wp_mono; [|apply saveHardState_role]. cbn. intros _ n1 Hr.
  wp_step. wp_step. wp_step.
  - wp_step. do 3 wp_step; [by intros [? ?]|congruence].
  - wp_step. do 3 wp_step; [by intros [? ?]|]. wp_step. apply wp_lift_go; [|done]. intros last _. by wp_step.
Qed.

Lemma campaign_moves n e r n' :
  service n → vote_fits (n_id n) → (n_currentTerm n + 1 < two64)%N →
  startElection e n = Val (r, n') →
  serving n' ∧ core_frame n n' ∧
  match r with
  | Some (term, args) => n_failed n' = false ∧ n_role n' = Candidate ∧ n_currentTerm n' = term ∧
      term = (n_currentTerm n + 1)%N ∧
      args = MkRVArgs term (n_id n) (next_index (n_log n) - 1) (default 0%N (Term <$> last (n_log n)))
  | None => n_failed n' = true
  end.
Proof.
  intros Hs Hv Ht Hrun. pose proof (node_ok_synced _ (proj1 Hs)) as Hsy.
  destruct (wp_run _ _ _ _ _ _ (startElection_serving n e Hs Hv Ht) Hrun) as (Hsv & Hfr & Hr).
  destruct (wp_run _ _ _ _ _ _ (startElection_evolves n e Hsy Ht Hv) Hrun) as [_ Hc].
  pose proof (wp_run _ _ _ _ _ _ (startElection_candidate n e) Hrun) as Hca.
  split; [done|]. split; [done|]. destruct r as [[term args]|]; [|done].
  destruct (Hc _ _ eq_refl) as (_ & _ & _ & _ & Hct & _). destruct Hr as (? & ? & ->).
  split; [done|]. split; [by apply Hca|done].
Qed.

(** ** AppendEntries *)
Lemma becomeFollower_role n t : wp True (becomeFollowerLocked t) (λ _ n', n_role n' = Follower) n.
Proof.
  unfold becomeFollowerLocked. do 4 wp_step. wp_step; [|done].
  eapply wp_mono; [|apply saveHardState_role]. done.
Qed.

Lemma observeLeader_role n e t l : wp True (observeLeader e t l) (λ _ n', n_role n' ≠ Candidate) n.
Proof.
  unfold observeLeader. do 3 wp_step.
  eapply (wp_mono _ _ (λ _ n', n_role n' ≠ Candidate)).
  - intros _ n1 Hr. unfold resetElectionDeadlineLocked. repeat wp_step; done.
  - wp_step; [eapply wp_mono; [|apply becomeFollower_role]; cbn; by intros _ n' ->|].
    wp_step; [by wp_step|]. by reflect_guards.
Qed.

Lemma handleAppendEntries_role n e args :
  n_failed n = false → (n_currentTerm n ≤ ae_Term args)%N →
  wp True (handleAppendEntries e args) (λ r n', is_Some (match r with inl x => Some x | inr _ => None end) →
    n_role n' ≠ Candidate) n.
Proof.
  intros Hf Ht. unfold handleAppendEntries, fail_reply. do 2 wp_step. rewrite Hf.
  destruct (N.ltb_spec (ae_Term args) (n_currentTerm n)); [lia|]. wp_step.
  eapply wp_mono; [|apply observeLeader_role]. cbn. intros _ n1 Hr.
  assert (∀ args, wp True (appendEntries_checked args) (λ _ n', n_role n' ≠ Candidate) n1) as Hc.
  { intros a. eapply wp_mono; [|apply appendEntries_checked_calm, calm_refl].
    cbn. intros _ n' [_ [->|[-> _]] _ _]; [done|done]. }
  do 3 wp_step; [do 2 wp_step; by intros [? ?]|]. wp_step.
  - wp_step; [by wp_step|]. wp_step. apply wp_lift_go; [|done]. intros rest _.
    eapply wp_mono; [|apply Hc]. done.
  - eapply wp_mono; [|apply Hc]. done.
Qed.

Lemma append_stale n e args :
  n_failed n = false → (ae_Term args < n_currentTerm n)%N →
  handleAppendEntries e args n = Val (inl (MkAEReply (n_currentTerm n) false 0 0), n).
Proof.
  intros Hf Ht. unfold handleAppendEntries, mbind, GoM_bind, get. rewrite Hf.
  by rewrite (proj2 (N.ltb_lt _ _) Ht).
Qed.

Lemma append_moves n e args r n' :
  service n → ae_valid n args → not_own n (ae_Term args) → (n_currentTerm n ≤ ae_Term args)%N →
  handleAppendEntries e args n = Val (r, n') →
  serving n' ∧ ae_post n args (ae_Term args) r n' ∧ (n_failed n' = false → n_role n' = Follower) ∧
  n_matchIndex n' = n_matchIndex n ∧ n_cfg n' = n_cfg n ∧
  (n_pendingSnapshot n' = n_pendingSnapshot n ∨ n_pendingSnapshot n' = None) ∧ n_snapshotData n' = n_snapshotData n.
Proof.
  intros Hs Hv Hno Ht Hrun. pose proof (node_ok_synced _ (proj1 Hs)) as Hsy.
  pose proof (wp_run _ _ _ _ _ _ (handleAppendEntries_serving n e args Hs Hv Hno) Hrun) as Hsv.
  pose proof (wp_run _ _ _ _ _ _ (handleAppendEntries_spec n e args (proj1 Hs) Hv) Hrun) as Hp.
  cbn beta in Hp. destruct (N.ltb_spec (ae_Term args) (n_currentTerm n)); [lia|].
  pose proof (wp_run _ _ _ _ _ _ (handleAppendEntries_evolves n e args Hsy (av_term _ _ Hv)) Hrun) as Hev.
  pose proof (wp_run _ _ _ _ _ _ (handleAppendEntries_calm n e args) Hrun) as Hc.
  pose proof (wp_run _ _ _ _ _ _ (handleAppendEntries_role n e args (proj1 (proj1 Hs)) Ht) Hrun) as Hr.
  split; [done|]. split; [done|]. split; [|split; [apply Hc|split; [apply Hev|split; apply Hc]]].
  intros Hf. destruct r as [rep|]; [|cbn in Hp; congruence]. destruct Hp as (_ & Hct & _).
  destruct (n_role n') eqn:Er; [done|by destruct Hr|]. destruct (ev_lead _ _ Hev Er) as [HL Hte].
  destruct (Hno HL). congruence.
Qed.

(** ** Acknowledgements *)
Record progressed n (q : NodeID) (m : N) n1 : Prop := {
  pg_light : light n n1;
  pg_role : n_role n1 = n_role n;
  pg_match p : map_get (n_matchIndex n1) p = map_get (n_matchIndex n) p ∨
    (p = q ∧ map_get (n_matchIndex n1) p = m);
  pg_pending : n_pendingSnapshot n1 = n_pendingSnapshot n;
}.

Lemma advance_progress_progressed n q m :
  wp True (advance_progress q m) (λ _ n', progressed n q m n') n.
Proof.
  unfold advance_progress, set_next. do 3 wp_step.
  eapply (wp_mono _ _ (λ _ n', progressed n q m n')).
  - cbn. intros _ n1 Hp. do 2 wp_step. wp_step; [|done]. wp_step. destruct Hp as [[] Hr Hm Hpe]. by split; [split|..].
  - wp_step; [wp_step|split; [by split|done|by left|done]]. split; [by split|done| |done]. intros p. cbn. unfold map_get.
    destruct (decide (q = p)) as [->|]; simplify_map_eq; auto.
Qed.

Lemma set_next_rests n q i : rests n (set_nextIndex (<[q := i]> (n_nextIndex n)) n).
Proof. split; try done. split; auto. Qed.

Lemma appendReply_moves n q args rep n' :
  service n → reply_valid n (ae_Term args) args rep →
  onAppendReply q (ae_Term args) args rep n = Val ((), n') →
  serving n' ∧ (rests n n' ∨
    (not_leading n (ae_Term args) = false ∧ aer_Success rep = true ∧
     ∃ n1, progressed n q (ae_PrevLogIndex args + N.of_nat (length (ae_Entries args))) n1 ∧
       service n1 ∧ commit_outcome n1 n')).
Proof.
  intros Hs Hv Hrun. pose proof (wp_run _ _ _ _ _ _ (onAppendReply_serving n q _ args rep Hs Hv) Hrun) as Hsv.
  split; [done|]. pose proof (proj1 Hs) as Hok. destruct Hv as [Ht Hsent Hconf].
  pose proof (proj1 Hok) as Hf. pose proof (wf_bound _ (proj1 (proj2 Hok))). pose proof two63_lt_two64.
  revert Hrun. unfold onAppendReply, mbind, GoM_bind, get. rewrite Hf. destruct (_ <? _)%N.
  { intros Hrun. left. exact (follower_rests _ _ _ Hs Ht Hrun). }
  destruct (not_leading n (ae_Term args)); [intros [= <-]; left; apply rests_refl|].
  specialize (Hsent eq_refl). destruct (aer_Success rep).
  - rewrite u64_add_small by lia. set (m := (_ + _)%N) in *.
    destruct (advance_progress q m n) as [[[] n1]|] eqn:Ha; [|done]. intros Hrun. right.
    split; [done|]. split; [done|]. exists n1.
    pose proof (wp_run _ _ _ _ _ _ (advance_progress_progressed n q m) Ha) as Hp.
    destruct (wp_run _ _ _ _ _ _ (advance_progress_serving n q m Hs ltac:(lia)) Ha) as [Hs1 _].
    split; [done|]. split; [done|].
    by apply (wp_run _ _ _ _ _ _ (maybeAdvanceCommit_spec n1 (proj1 (proj2 (proj1 Hs1)))) Hrun).
  - intros Hrun. left. destruct (_ =? _)%N; [injection Hrun as <-; apply set_next_rests|].
    destruct (lastIndexOfTermLocked n _); injection Hrun as <-; apply set_next_rests.
Qed.

(** ** Proposing *)
Lemma Propose_moves n cmd n' :
  service n → (next_index (n_log n) < two63)%N →
  entry_fits (MkEntry (n_currentTerm n) (next_index (n_log n)) cmd) →
  run_op (OpPropose cmd) n = Val ((), n') →
  serving n' ∧ (n' = n ∨ (n_role n = Leader ∧ ∃ n1,
    log_becomes n (n_log n ++ [MkEntry (n_currentTerm n) (next_index (n_log n)) cmd]) n1 ∧
    (n_failed n1 = true ∧ n' = n1 ∨ node_ok n1 ∧ commit_outcome n1 n'))).
Proof.
  intros Hs Hb Hfit Hrun. cbn in Hrun. apply discard_run in Hrun as [r Hrun].
  pose proof (wp_run _ _ _ _ _ _ (Propose_serving n cmd Hs Hb Hfit) Hrun) as Hsv.
  pose proof (wp_run _ _ _ _ _ _ (Propose_steps n cmd (proj1 Hs) Hb Hfit) Hrun) as Hst.
  cbn beta in Hst. split; [done|]. case_decide; [|left; tauto]. right. split; [done|].
  destruct Hst as (n1 & Hl & Hst). exists n1. split; [done|]. tauto.
Qed.

(** ** Compaction *)
Record cuts n i n' : Prop := {
  cu_range : (n_lastIncludedIndex n < i ≤ n_lastApplied n)%N;
  cu_cut : ∃ e, n_log n !! N.to_nat (i - n_lastIncludedIndex n) = Some e ∧
    cut_at n i (Term e) (n_snapshotData n') n';
  cu_role : n_role n' = n_role n;
  cu_match : n_matchIndex n' = n_matchIndex n;
  cu_pending : n_pendingSnapshot n' = n_pendingSnapshot n;
}.

Lemma Snapshot_role n i data :
  wp True (Snapshot i data) (λ _ n', n_role n' = n_role n ∧ n_matchIndex n' = n_matchIndex n ∧
    n_pendingSnapshot n' = n_pendingSnapshot n) n.
Proof.
  unfold Snapshot, storage_call, disableLocked. do 3 wp_step; [by wp_step|]. wp_step; [by wp_step|].
  wp_step; [by wp_step|]. wp_step. apply wp_lift_go; [|done]. intros t _. wp_step.
  apply wp_lift_go; [|done]. intros tl _. wp_step. apply wp_lift_go; [|done]. intros l _. do 2 wp_step.
  eapply wp_mono; [|apply wp_any]. cbn. intros [err|] st _; by repeat wp_step.
Qed.

Lemma Snapshot_moves n i data n' :
  service n → snapshot_fits data → run_op (OpSnapshot i data) n = Val ((), n') →
  serving n' ∧ (n_failed n' = false → n' = n ∨ (cuts n i n' ∧ n_snapshotData n' = data)).
Proof.
  intros Hs Hfit Hrun. cbn in Hrun. apply discard_run in Hrun as [r Hrun].
  pose proof (wp_run _ _ _ _ _ _ (Snapshot_serving n i data Hs Hfit) Hrun) as Hsv.
  pose proof (wp_run _ _ _ _ _ _ (Snapshot_spec n i data (proj1 Hs) Hfit) Hrun) as Hsp. cbn beta in Hsp.
  destruct (wp_run _ _ _ _ _ _ (Snapshot_role n i data) Hrun) as (Hr & Hm & Hpn).
  split; [done|]. intros Hf. rewrite Hf in Hsp. case_decide as Hi; [|left; apply Hsp]. right.
  destruct Hsp as (_ & _ & e & He & Hcut). pose proof (cut_data _ _ _ _ _ Hcut) as Hd.
  split; [|done]. split; [done| |done..]. exists e. by rewrite Hd.
Qed.

(** ** InstallSnapshot *)
Lemma installSnapshot_role n e args :
  n_failed n = false → (n_currentTerm n ≤ is_Term args)%N →
  wp True (handleInstallSnapshot e args) (λ r n', n_role n' ≠ Candidate) n.
Proof.
  intros Hf Ht. unfold handleInstallSnapshot, fail_reply. do 2 wp_step. rewrite Hf.
  destruct (N.ltb_spec (is_Term args) (n_currentTerm n)); [lia|]. wp_step.
  eapply wp_mono; [|apply observeLeader_role]. cbn. intros _ n1 Hr.
  do 3 wp_step; [do 2 wp_step; done|]. wp_step; [by wp_step|].
  unfold installSnapshot_checked, installSnapshot_log, storage_call, disableLocked, fail_reply, notifyApply.
  do 2 wp_step. eapply wp_mono; [|apply wp_any]. cbn. intros [err|] st _; [by repeat wp_step|].
  wp_step. eapply (wp_mono _ _ (λ _ n', n_role n' ≠ Candidate)); [intros _ n2 Hr2; by repeat wp_step|].
  do 3 wp_step. apply wp_lift_go; [|done]. intros keep _. wp_step; [|by wp_step].
  wp_step. apply wp_lift_go; [|done]. intros l _. by wp_step.
Qed.

Lemma install_stale n e args :
  n_failed n = false → (is_Term args < n_currentTerm n)%N →
  handleInstallSnapshot e args n = Val (inl (MkISReply (n_currentTerm n)), n).
Proof.
  intros Hf Ht. unfold handleInstallSnapshot, mbind, GoM_bind, get. rewrite Hf.
  by rewrite (proj2 (N.ltb_lt _ _) Ht).
Qed.

Lemma install_moves n e args r n' :
  service n → is_valid n args → not_own n (is_Term args) → (n_currentTerm n ≤ is_Term args)%N →
  handleInstallSnapshot e args n = Val (r, n') →
  serving n' ∧ (n_failed n' = false → n_role n' = Follower) ∧
  match r with
  | inr _ => n_failed n' = true
  | inl rep => rep = MkISReply (is_Term args) ∧ n_currentTerm n' = is_Term args ∧ node_ok n' ∧
      if decide (is_LastIncludedIndex args ≤ n_lastIncludedIndex n)%N
      then core_frame n n' else installed n args n'
  end.
Proof.
  intros Hs Hv Hno Ht Hrun. pose proof (node_ok_synced _ (proj1 Hs)) as Hsy.
  pose proof (wp_run _ _ _ _ _ _ (handleInstallSnapshot_serving n e args Hs Hv Hno) Hrun) as Hsv.
  pose proof (wp_run _ _ _ _ _ _ (handleInstallSnapshot_spec n e args (proj1 Hs) Hv) Hrun) as Hp.
  cbn beta in Hp. destruct (N.ltb_spec (is_Term args) (n_currentTerm n)); [lia|].
  pose proof (wp_run _ _ _ _ _ _ (handleInstallSnapshot_evolves n e args Hsy (iv_term _ _ Hv)) Hrun) as Hev.
  pose proof (wp_run _ _ _ _ _ _ (installSnapshot_role n e args (proj1 (proj1 Hs)) Ht) Hrun) as Hr.
  split; [done|]. split; [|done]. intros Hf. destruct r as [rep|]; [|congruence]. destruct Hp as (_ & Hct & _).
  destruct (n_role n') eqn:Er; [done|done|]. destruct (ev_lead _ _ Hev Er) as [HL Hte].
  destruct (Hno HL). congruence.
Qed.

Lemma sendInstall_sent n term args n' :
  sendInstallSnapshot term n = Val (Some args, n') →
  n' = n ∧ not_leading n term = false ∧
  args = MkISArgs term (n_id n) (n_lastIncludedIndex n) (n_lastIncludedTerm n) (n_snapshotData n).
Proof.
  unfold sendInstallSnapshot, mbind, GoM_bind, get. destruct (not_leading n term); [done|]. by intros [= <- <-].
Qed.

Lemma snapshotReply_moves n q args rep n' :
  service n → (isr_Term rep < two64)%N →
  (not_leading n (is_Term args) = false → is_LastIncludedIndex args < next_index (n_log n))%N →
  onSnapshotReply q (is_Term args) args rep n = Val ((), n') →
  serving n' ∧ (rests n n' ∨
    (not_leading n (is_Term args) = false ∧ (isr_Term rep ≤ n_currentTerm n)%N ∧
     ∃ n1, progressed n q (is_LastIncludedIndex args) n1 ∧ service n1 ∧ commit_outcome n1 n')).
Proof.
  intros Hs Ht Hsent Hrun. pose proof (wp_run _ _ _ _ _ _ (onSnapshotReply_serving n q _ args rep Hs Ht Hsent) Hrun) as Hsv.
  split; [done|]. revert Hrun. unfold onSnapshotReply, mbind, GoM_bind, get. rewrite (proj1 (proj1 Hs)).
  destruct (N.ltb_spec (n_currentTerm n) (isr_Term rep)) as [Hlt|Hge].
  { intros Hrun. left. exact (follower_rests _ _ _ Hs Ht Hrun). }
  destruct (not_leading n (is_Term args)); [intros [= <-]; left; apply rests_refl|]. specialize (Hsent eq_refl).
  destruct (advance_progress q _ n) as [[[] n1]|] eqn:Ha; [|done]. intros Hrun. right.
  split; [done|]. split; [done|]. exists n1.
  pose proof (wp_run _ _ _ _ _ _ (advance_progress_progressed n q _) Ha) as Hp.
  destruct (wp_run _ _ _ _ _ _ (advance_progress_serving n q _ Hs Hsent) Ha) as [Hs1 _].
  split; [done|]. split; [done|].
  by apply (wp_run _ _ _ _ _ _ (maybeAdvanceCommit_spec n1 (proj1 (proj2 (proj1 Hs1)))) Hrun).
Qed.

(** ** Sections that do not write *)
Lemma startElection_solo_enabled n term :
  n_failed n = false → wp True (startElection_solo term) (λ _ n', n_failed n' = false) n.
Proof.
  intros Hf. unfold startElection_solo. do 3 wp_step; [|done]. wp_step; [|done].
  unfold becomeLeaderLocked. do 6 wp_step. wp_step. apply wp_lift_go; [|done]. intros last _. by repeat wp_step.
Qed.

(** ** Disabled nodes stay disabled *)
Lemma quiet_op_failed n op n' :
  quiet_op op → run_op op n = Val ((), n') → n_failed n' = n_failed n ∧ n_storage n' = n_storage n.
Proof.
  intros Hop Hrun. refine (wp_run True _ (λ _ n', n_failed n' = n_failed n ∧ n_storage n' = n_storage n) _ _ _ _ Hrun).
  assert (wp True applyLoop_inner (λ _ n', n_failed n' = n_failed n ∧ n_storage n' = n_storage n) n) as Hin.
  { unfold applyLoop_inner. do 3 wp_step; [|done]. do 5 wp_step.
    apply wp_lift_go; [|done]. intros entry _. by wp_step. }
  destruct op; try done; cbn; try apply wp_discard.
  all: unfold tick, trigger_snapshot, take_snapshot_trigger, applyLoop_step;
    repeat (wp_step; cbn zeta); done.
Qed.

Section Disabled.
Context n (Hf : n_failed n = true).
Ltac skips := unfold mbind, GoM_bind, get; rewrite Hf.

Lemma failed_propose cmd : Propose cmd n = Val ((0%N, 0%N, false), n).
Proof. unfold Propose. by skips. Qed.

Lemma failed_campaign e : startElection e n = Val (None, n).
Proof. unfold startElection. by skips. Qed.

Lemma failed_vote e args : handleRequestVote e args n = Val (inr (n_failErr n), n).
Proof. unfold handleRequestVote, fail_reply. by skips. Qed.

Lemma failed_append e args : handleAppendEntries e args n = Val (inr (n_failErr n), n).
Proof. unfold handleAppendEntries, fail_reply. by skips. Qed.

Lemma failed_vote_reply t v r : onRequestVoteReply t v r n = Val (v, n).
Proof. unfold onRequestVoteReply. by skips. Qed.

Lemma failed_append_reply q t args r : onAppendReply q t args r n = Val ((), n).
Proof. unfold onAppendReply. by skips. Qed.

Lemma failed_snapshot i data : Snapshot i data n = Val (n_failErr n, n).
Proof. unfold Snapshot. by skips. Qed.

Lemma failed_install e args : handleInstallSnapshot e args n = Val (inr (n_failErr n), n).
Proof. unfold handleInstallSnapshot, fail_reply. by skips. Qed.

Lemma failed_snapshot_reply q t args r : onSnapshotReply q t args r n = Val ((), n).
Proof. unfold onSnapshotReply. by skips. Qed.
End Disabled.
End Moves.
