(* ===== verification/RaftInvariant.v ===== *)
(** * The invariant of replication

    What a reachable world of RaftReplication looks like, against a history of
    RaftHistory: every node's log is what compaction left of a whole log, which
    is made of prefixes of leaders' logs, what a
    node once stored it still has or an election since went without it, a vote
    in hand says how the candidate's log compares to what the voter has stored,
    and what counts as committed is.  This file defines the invariant and shows
    how it survives the move of one process, whatever the move. *)
From S2P Require Import Prelude RaftTypes RaftNode RaftVotes RaftCluster RaftElection RaftLog RaftReplicate RaftService RaftHistory RaftCompaction RaftReplication RaftMoves.

Section Invariant.
Context {S : Type} `{StorageSpec S}.
Implicit Types (n : Node S) (w : World S) (R : RWorld S).

Variable members : list NodeID.
Variable cfg_of : NodeID → Config.
Hypothesis Hwf : cluster_wf (S := S) members cfg_of.
Hypothesis Hodd : Nat.Odd (length members).

(** ** One process *)

(** The log (boundary first) of a process of term [T], and the whole log it is
    the end of. *)
Record plog_ok (h : Hist) (T : N) (log : list LogEntry) (L : Entries) : Prop := {
  pl_whole : whole log L;
  pl_cons : consistent h L;
  pl_terms e : e ∈ L → (Term e ≤ T)%N;
  pl_fits : Forall entry_fits L;
}.

(** The first [c] entries of [L] are those of a leader of term [T] or before
    that committed them. *)
Definition commits (h : Hist) (T : N) (L : Entries) (c : nat) : Prop :=
  c = 0 ∨ ∃ t i G, (t ≤ T)%N ∧ c ≤ i ∧ c ≤ length L ∧ committed members h t i ∧
    h_lead h !! t = Some G ∧ take c L = take c G.

(** A snapshot that waits for the apply loop stands for committed entries. *)
Definition pending_ok n (L : Entries) : Prop :=
  ∀ m, n_pendingSnapshot n = Some m →
    ∃ data i t, m = SnapshotMsg data i t ∧ (i ≤ n_commitIndex n)%N ∧ t = last_term (take (N.to_nat i) L).

Lemma pending_ok_next n n' L L' :
  n_pendingSnapshot n' = n_pendingSnapshot n ∨ n_pendingSnapshot n' = None →
  (n_commitIndex n ≤ n_commitIndex n')%N →
  take (N.to_nat (n_commitIndex n)) L' = take (N.to_nat (n_commitIndex n)) L →
  pending_ok n L → pending_ok n' L'.
Proof.
  intros [E|E] Hc Htk Hp m; rewrite E; [|done]. intros (data & i & t & -> & ? & ->)%Hp.
  do 3 eexists. split; [done|]. split; [lia|]. f_equal. symmetry. eapply take_of_take_eq; [done|lia].
Qed.

Record node_inv (h : Hist) (p : NodeID) n (L : Entries) : Prop := {
  ni_service : service n;
  ni_log : plog_ok h (n_currentTerm n) (n_log n) L;
  ni_commit : commits h (n_currentTerm n) L (N.to_nat (n_commitIndex n));
  ni_lead : n_role n = Leader → h_lead h !! n_currentTerm n = Some L ∧
    acked h p (n_currentTerm n) (length L) ∧
    ∀ q, (0 < map_get (n_matchIndex n) q)%N →
      acked h q (n_currentTerm n) (N.to_nat (map_get (n_matchIndex n) q));
  ni_cand : n_role n = Candidate → ∀ j, (p, n_currentTerm n, j) ∉ h_acks h;
  ni_keeps t j : (p, t, j) ∈ h_acks h → keeps h t j (n_currentTerm n) L;
  ni_data : (0 < n_lastIncludedIndex n)%N → snapshot_fits (n_snapshotData n);
  ni_pending : pending_ok n L;
}.

Record store_inv (h : Hist) (p : NodeID) (st : S) (L : Entries) : Prop := {
  si_ok : loads st;
  si_bound : (next_index (Log (view st)) ≤ two63)%N;
  si_term : (CurrentTerm (view st) < two64)%N;
  si_terms : Forall (λ e, Term e < two64)%N (Log (view st));
  si_log : plog_ok h (CurrentTerm (view st)) (Log (view st)) L;
  si_commit : commits h (CurrentTerm (view st)) L (N.to_nat (first_index (Log (view st))));
  si_keeps t j : (p, t, j) ∈ h_acks h → keeps h t j (CurrentTerm (view st)) L;
  si_data : (0 < first_index (Log (view st)))%N → snapshot_fits (SnapshotData (view st));
}.

(** Whatever the process finds when it is started again. *)
Definition left_inv (h : Hist) (p : NodeID) (st : S) : Prop :=
  ∀ st', reopened st st' → ∃ L, store_inv h p st' L.

Definition proc_inv (h : Hist) (p : NodeID) (pr : Proc S) : Prop :=
  match pr with
  | Up n => (n_failed n = false → ∃ L, node_inv h p n L) ∧ (n_failed n = true → left_inv h p (n_storage n))
  | Down st => ∃ L, store_inv h p st L
  end.

(** ** Elections *)

(** The request carries the end of [n]'s log. *)
Definition log_end n (args : RequestVoteArgs) : Prop :=
  rv_LastLogTerm args = default 0%N (Term <$> last (n_log n)) ∧
  rv_LastLogIndex args = (next_index (n_log n) - 1)%N.

(** [q] voted in [el], and as long as nobody won the term, knowing what it had
    stored. *)
Definition vote_counts (h : Hist) (voted : list (NodeID * N * NodeID)) (q : NodeID) (el : Election) : Prop :=
  (q, el_term el, el_cand el) ∈ voted ∧
  (h_init h !! el_term el = None →
    vote_sound h q (el_term el) (rv_LastLogTerm (el_args el)) (N.to_nat (rv_LastLogIndex (el_args el)))).

Record election_inv (h : Hist) (voted : list (NodeID * N * NodeID)) (procs : gmap NodeID (Proc S)) (el : Election) : Prop := {
  ei_granted : ∃ Q, NoDup Q ∧ el_cand el ∈ Q ∧ length Q = el_votes el ∧ Q ⊆ members ∧
    ∀ q, q ∈ Q → (q ∉ el_pending el) ∧ vote_counts h voted q el;
  ei_log n : procs !! el_cand el = Some (Up n) → n_failed n = false →
    n_role n = Candidate → n_currentTerm n = el_term el → log_end n (el_args el);
}.

Definition won (h : Hist) (voted : list (NodeID * N * NodeID)) (t : N) (I : Entries) : Prop :=
  consistent h I ∧ ∃ c Q, a_quorum members Q ∧
    ∀ q, q ∈ Q → (q, t, c) ∈ voted ∧ vote_sound h q t (last_term I) (length I).

(** ** Messages *)
Record req_ok (h : Hist) (led : list (N * NodeID)) (q : NodeID) (args : AppendEntriesArgs) : Prop := {
  rq_led : (ae_Term args, ae_LeaderID args) ∈ led;
  rq_to : ae_LeaderID args ∈ members ∧ q ∈ c_Peers (cfg_of (ae_LeaderID args));
  rq_term : (ae_Term args < two64)%N;
  rq_bound : (ae_PrevLogIndex args + 1 + N.of_nat (length (ae_Entries args)) ≤ two63)%N;
  rq_contiguous : contiguous (ae_PrevLogIndex args + 1) (ae_Entries args);
  rq_fits : Forall entry_fits (ae_Entries args);
  rq_log : ∃ G, h_lead h !! ae_Term args = Some G ∧
    N.to_nat (ae_PrevLogIndex args) + length (ae_Entries args) ≤ length G ∧
    ae_PrevLogTerm args = last_term (take (N.to_nat (ae_PrevLogIndex args)) G) ∧
    ae_Entries args = take (length (ae_Entries args)) (drop (N.to_nat (ae_PrevLogIndex args)) G) ∧
    N.to_nat (ae_LeaderCommit args) ≤ N.to_nat (ae_PrevLogIndex args) + length (ae_Entries args) ∧
    commits h (ae_Term args) G (N.to_nat (ae_LeaderCommit args));
}.

Record ans_ok (h : Hist) (led : list (N * NodeID)) (q : NodeID) (args : AppendEntriesArgs) (rep : AppendEntriesReply) : Prop := {
  as_req : req_ok h led q args;
  as_term : (aer_Term rep < two64)%N;
  as_success : aer_Success rep = true →
    acked h q (ae_Term args) (N.to_nat (ae_PrevLogIndex args) + length (ae_Entries args));
  as_conflict : aer_Success rep = false → (aer_ConflictIndex rep ≤ ae_PrevLogIndex args + 1)%N;
}.

Record snap_ok (h : Hist) (led : list (N * NodeID)) (q : NodeID) (args : InstallSnapshotArgs) : Prop := {
  sq_led : (is_Term args, is_LeaderID args) ∈ led;
  sq_to : is_LeaderID args ∈ members ∧ q ∈ c_Peers (cfg_of (is_LeaderID args));
  sq_term : (is_Term args < two64)%N;
  sq_lit : (is_LastIncludedTerm args < two64)%N;
  sq_lii : (is_LastIncludedIndex args < two63)%N;
  sq_data : (0 < is_LastIncludedIndex args)%N → snapshot_fits (is_Data args);
  sq_log : ∃ G, h_lead h !! is_Term args = Some G ∧ N.to_nat (is_LastIncludedIndex args) ≤ length G ∧
    is_LastIncludedTerm args = last_term (take (N.to_nat (is_LastIncludedIndex args)) G) ∧
    commits h (is_Term args) G (N.to_nat (is_LastIncludedIndex args)) ∧
    Forall entry_fits (take (N.to_nat (is_LastIncludedIndex args)) G);
}.

Record inst_ok (h : Hist) (led : list (N * NodeID)) (q : NodeID) (args : InstallSnapshotArgs) (rep : InstallSnapshotReply) : Prop := {
  in_req : snap_ok h led q args;
  in_term : (isr_Term rep < two64)%N;
  in_done : (isr_Term rep ≤ is_Term args)%N →
    acked h q (is_Term args) (N.to_nat (is_LastIncludedIndex args));
}.

(** ** The world *)
Record RInv (h : Hist) R : Prop := {
  ri_inv : Inv members cfg_of (rw_world R);
  ri_hist : hist_ok h;
  ri_won t I : h_init h !! t = Some I → won h (w_voted (rw_world R)) t I;
  ri_lead t G : h_lead h !! t = Some G → ∃ c j, (t, c) ∈ w_led (rw_world R) ∧ (c, t, j) ∈ h_acks h;
  ri_acks q t j : (q, t, j) ∈ h_acks h →
    ∃ T v, durable (rw_world R) q = Some (T, v) ∧ (t ≤ T)%N;
  ri_proc p pr : w_procs (rw_world R) !! p = Some pr → proc_inv h p pr;
  ri_el eid el : w_elections (rw_world R) !! eid = Some el → election_inv h (w_voted (rw_world R)) (w_procs (rw_world R)) el;
  ri_rep eid q rep el : (eid, q, rep) ∈ w_replies (rw_world R) → rvr_VoteGranted rep = true →
    w_elections (rw_world R) !! eid = Some el → vote_counts h (w_voted (rw_world R)) q el;
  ri_req q args : (q, args) ∈ rw_requests R → req_ok h (w_led (rw_world R)) q args;
  ri_ans q args rep : (q, args, rep) ∈ rw_answers R → ans_ok h (w_led (rw_world R)) q args rep;
  ri_snap q args : (q, args) ∈ rw_snapshots R → snap_ok h (w_led (rw_world R)) q args;
  ri_inst q args rep : (q, args, rep) ∈ rw_installs R → inst_ok h (w_led (rw_world R)) q args rep;
}.

Lemma elected_won h voted t I : won h voted t I → elected members h t I ∧ consistent h I.
Proof.
  intros [Hc (c & Q & HQ & Hv)]. split; [|done]. exists Q. split; [done|]. intros q Hq. by apply Hv.
Qed.

(** ** The invariant survives growth of the history

    Process [p] adds to what it stored, or to what term [T]'s leader wrote, and
    nothing else changes. *)
Record grows (p : NodeID) (T : N) (h h' : Hist) : Prop := {
  gr_le : hist_le h h';
  gr_acks q t j : (q, t, j) ∈ h_acks h' → (q, t, j) ∈ h_acks h ∨ (q = p ∧ t = T);
  gr_lead t : t ≠ T → h_lead h' !! t = h_lead h !! t;
}.

Lemma grows_refl p T h : grows p T h h.
Proof. split; auto. Qed.

Lemma plog_ok_mono h h' T T' log L :
  hist_le h h' → (T ≤ T')%N → plog_ok h T log L → plog_ok h' T' log L.
Proof.
  intros Hle HT [? ? Ht ?]. split; try done; [by eapply consistent_mono|].
  intros e He. specialize (Ht e He). lia.
Qed.

Lemma commits_mono h h' T T' L L' c :
  hist_le h h' → (T ≤ T')%N → c ≤ length L' → take c L' = take c L →
  commits h T L c → commits h' T' L' c.
Proof.
  intros Hle HT Hc Htk [->|(t & i & G & Ht & Hi & Hl & Hcm & HG & Heq)]; [by left|]. right.
  assert (c ≤ length G) as HcG.
  { apply (f_equal length) in Heq. rewrite !length_take in Heq. lia. }
  destruct (lead_take_mono _ _ Hle _ _ _ HG HcG) as (G' & HG' & Htk' & _).
  exists t, i, G'. split; [lia|]. split; [done|]. split; [done|].
  split; [by eapply committed_mono|]. split; [done|]. congruence.
Qed.

Lemma commits_grow h h' T T' L c :
  hist_le h h' → (T ≤ T')%N → c ≤ length L → commits h T L c → commits h' T' L c.
Proof. intros. by eapply commits_mono. Qed.

Lemma commits_below h T L c c' : c' ≤ c → commits h T L c → commits h T L c'.
Proof.
  intros Hle [?|(t & i & G & ? & ? & ? & Hcm & HG & Heq)]; [left; lia|right].
  exists t, i, G. split; [done|]. split; [lia|]. split; [lia|]. split; [done|]. split; [done|].
  by eapply take_of_take_eq.
Qed.

Lemma keeps_mono h h' q t j T T' L :
  hist_le h h' → hist_ok h → (q, t, j) ∈ h_acks h → (T ≤ T')%N →
  keeps h t j T L → keeps h' t j T' L.
Proof.
  intros Hle Hh Hin HT Hk G' i HG' Hi. destruct (ho_acks _ Hh _ _ _ Hin) as (G & HG & Hj).
  destruct (lead_take_mono _ _ Hle _ _ i HG ltac:(lia)) as (G2 & HG2 & Htk & _).
  replace G2 with G' in * by congruence. destruct (Hk G i HG Hi) as [[? ?]|Hm].
  - left. split; [done|]. congruence.
  - right. eapply (missed_between_mono _ _ Hle); [|done]. lia.
Qed.

Lemma init_mono h h' t : hist_le h h' → h_init h' !! t = None → h_init h !! t = None.
Proof. intros Hle Hn. apply eq_None_not_Some. intros [I HI%(hl_init _ _ Hle)]. congruence. Qed.

Lemma vote_counts_mono h h' voted voted' q el :
  hist_le h h' → voted ⊆ voted' →
  (∀ t j, (q, el_term el, el_cand el) ∈ voted → (t < el_term el)%N →
    (q, t, j) ∈ h_acks h' → (q, t, j) ∈ h_acks h) →
  vote_counts h voted q el → vote_counts h' voted' q el.
Proof.
  intros Hle Hsub Ha [Hv Hs]. split; [by apply Hsub|]. intros Hn%(init_mono _ _ _ Hle).
  eapply vote_sound_mono; [done| |by apply Hs]. auto.
Qed.

Lemma req_ok_mono h h' led led' q args :
  hist_le h h' → led ⊆ led' → req_ok h led q args → req_ok h' led' q args.
Proof.
  intros Hle Hsub [Hl ? ? ? ? ? (G & HG & Hlen & Hpt & Hes & Hlc & Hcm)]. split; try done; [by apply Hsub|].
  destruct (hl_lead _ _ Hle _ _ HG) as (G' & HG' & Hp). exists G'. split; [done|].
  pose proof (prefix_length _ _ Hp).
  assert (∀ i, i ≤ length G → take i G' = take i G) as Htk by (intros; by apply take_prefix_eq).
  split; [lia|]. split; [rewrite Htk by lia; done|]. split; [|split; [done|]].
  - rewrite take_drop_commute, Htk, <- take_drop_commute by lia. exact Hes.
  - eapply commits_mono; [done|reflexivity| | |done]; [|apply Htk]; lia.
Qed.

Lemma ans_ok_mono h h' led led' q args rep :
  hist_le h h' → led ⊆ led' → ans_ok h led q args rep → ans_ok h' led' q args rep.
Proof.
  intros Hle Hsub [? ? Ha ?]. split; try done; [by eapply req_ok_mono|].
  intros Hs. by apply (acked_mono _ _ Hle), Ha.
Qed.

Lemma snap_ok_mono h h' led led' q args :
  hist_le h h' → led ⊆ led' → snap_ok h led q args → snap_ok h' led' q args.
Proof.
  intros Hle Hsub [Hl ? ? ? ? ? (G & HG & Hlen & Hlt & Hcm & Hfit)]. split; try done; [by apply Hsub|].
  destruct (hl_lead _ _ Hle _ _ HG) as (G' & HG' & Hp). exists G'. split; [done|].
  pose proof (prefix_length _ _ Hp). rewrite (take_prefix_eq _ _ _ Hp) by done. split; [lia|]. split; [done|].
  split; [|done]. eapply commits_mono; [done|reflexivity| | |done]; [lia|]. by apply take_prefix_eq.
Qed.

Lemma inst_ok_mono h h' led led' q args rep :
  hist_le h h' → led ⊆ led' → inst_ok h led q args rep → inst_ok h' led' q args rep.
Proof.
  intros Hle Hsub [? ? Ha]. split; [by eapply snap_ok_mono|done|].
  intros Hs. by apply (acked_mono _ _ Hle), Ha.
Qed.

(** Positions: the end of the log, and the committed part of it. *)
Lemma node_bounds h p n L :
  node_inv h p n L → next_index (n_log n) = (N.of_nat (length L) + 1)%N ∧
  N.to_nat (n_lastIncludedIndex n) ≤ N.to_nat (n_commitIndex n) ≤ length L.
Proof.
  intros Hn. pose proof (proj1 (proj2 (proj1 (ni_service _ _ _ _ Hn)))) as Hw.
  pose proof (whole_next _ _ (pl_whole _ _ _ _ (ni_log _ _ _ _ Hn))) as Hnx. split; [done|].
  destruct Hw. lia.
Qed.

(** What one process knows survives the growth of another. *)
Lemma node_inv_mono h h' p T q n L :
  grows p T h h' → hist_ok h → q ≠ p →
  (n_role n = Leader → n_currentTerm n = T → h_lead h' !! T = h_lead h !! T) →
  node_inv h q n L → node_inv h' q n L.
Proof.
  intros [Hle Ha Hl] Hh Hne HT Hn. destruct (node_bounds _ _ _ _ Hn) as [_ Hb].
  destruct Hn as [Hs Hlog Hc Hlead Hcand Hk Hda Hpe].
  assert (∀ t j, (q, t, j) ∈ h_acks h' → (q, t, j) ∈ h_acks h) as Hold.
  { intros t j [?|[? _]]%Ha; [done|congruence]. }
  split; [done|by eapply plog_ok_mono| | | | |done..].
  - eapply commits_grow; [done|reflexivity|lia|done].
  - intros HL. destruct (Hlead HL) as (H1' & H2' & H3'). split; [|split].
    + destruct (decide (n_currentTerm n = T)) as [E|E]; [rewrite E, HT, <- E; done|by rewrite Hl].
    + by apply (acked_mono _ _ Hle).
    + intros q' Hq'. by apply (acked_mono _ _ Hle), H3'.
  - intros HC j Hin%Hold. by eapply Hcand.
  - intros t j Hin%Hold. eapply keeps_mono; [done..|reflexivity|by apply Hk].
Qed.

Lemma store_inv_mono h h' p T q st L :
  grows p T h h' → hist_ok h → q ≠ p → store_inv h q st L → store_inv h' q st L.
Proof.
  intros [Hle Ha _] Hh Hne [? ? ? ? Hlog ? Hk ?]. split; try done; [by eapply plog_ok_mono| |].
  { eapply commits_grow; [done|reflexivity|apply (pl_whole _ _ _ _ Hlog)|done]. }
  intros t j [Hin|[? _]]%Ha; [|congruence]. eapply keeps_mono; [done..|reflexivity|by apply Hk].
Qed.

Lemma proc_inv_mono h h' p T q pr :
  grows p T h h' → hist_ok h → q ≠ p →
  (∀ n, pr = Up n → n_failed n = false → n_role n = Leader → n_currentTerm n = T → h_lead h' !! T = h_lead h !! T) →
  proc_inv h q pr → proc_inv h' q pr.
Proof.
  intros Hg Hh Hne HT. destruct pr as [n|st]; cbn.
  - intros [Hup Hdn]. split.
    + intros Hf. destruct (Hup Hf) as [L HL]. exists L. eapply node_inv_mono; [done..|by apply HT|done].
    + intros Hf st' Hr. destruct (Hdn Hf st' Hr) as [L HL]. exists L. by eapply store_inv_mono.
  - intros [L HL]. exists L. by eapply store_inv_mono.
Qed.

Lemma won_mono h h' voted voted' t I :
  hist_le h h' → voted ⊆ voted' →
  (∀ q c t' j, (q, t, c) ∈ voted → (t' < t)%N → (q, t', j) ∈ h_acks h' → (q, t', j) ∈ h_acks h) →
  won h voted t I → won h' voted' t I.
Proof.
  intros Hle Hsub Ha (Hc & c & Q & HQ & Hv). split; [by eapply consistent_mono|].
  exists c, Q. split; [done|]. intros q Hq. destruct (Hv q Hq) as [Hvq Hs]. split; [by apply Hsub|].
  eapply vote_sound_mono; [done| |done]. intros t' j. by apply (Ha q c).
Qed.
(** ** One process moves *)
Lemma set_proc_lookup w p n q pr :
  w_procs (set_proc p n w) !! q = Some pr → (p = q ∧ Up n = pr) ∨ (p ≠ q ∧ w_procs w !! q = Some pr).
Proof. apply lookup_insert_Some. Qed.

Lemma set_down_lookup w p st q pr :
  w_procs (set_down p st w) !! q = Some pr → (p = q ∧ Down st = pr) ∨ (p ≠ q ∧ w_procs w !! q = Some pr).
Proof. apply lookup_insert_Some. Qed.

Lemma add_election_lookup w el eid el' :
  w_elections (add_election el w) !! eid = Some el' →
  (w_next w = eid ∧ el = el') ∨ (w_next w ≠ eid ∧ w_elections w !! eid = Some el').
Proof. apply lookup_insert_Some. Qed.

Lemma set_election_lookup w eid el eid' el' :
  w_elections (set_election eid el w) !! eid' = Some el' →
  (eid = eid' ∧ el = el') ∨ (eid ≠ eid' ∧ w_elections w !! eid' = Some el').
Proof. apply lookup_insert_Some. Qed.

Lemma set_down_elections w p st eid el :
  w_elections (set_down p st w) !! eid = Some el → w_elections w !! eid = Some el ∧ el_cand el ≠ p.
Proof. intros Hel. by apply map_lookup_filter_Some in Hel. Qed.

Definition same_candidate w (p : NodeID) n' : Prop :=
  ∀ eid el, w_elections w !! eid = Some el → el_cand el = p → n_failed n' = false →
    n_role n' = Candidate → n_currentTerm n' = el_term el → log_end n' (el_args el).

Section Move.
Context (h h' : Hist) (R : RWorld S) (p : NodeID) (hv : N * NodeID) (n' : Node S).
Context (HR : RInv h R) (Hdur : durable (rw_world R) p = Some hv)
  (HI : Inv members cfg_of (set_proc p n' (rw_world R)))
  (Hhs : hs_le hv (hard n')) (Hgr : grows p (hard n').1 h h') (Hh' : hist_ok h').
Let w := rw_world R.
Let w' := set_proc p n' w.

Lemma hs_le_term : (hv.1 ≤ (hard n').1)%N.
Proof. destruct Hhs as [?|[? _]]; lia. Qed.

(** Whoever voted in a term stores nothing more of the terms before. *)
Lemma acks_late q t' c t j :
  (q, t', c) ∈ w_voted w → (t < t')%N → (q, t, j) ∈ h_acks h' → (q, t, j) ∈ h_acks h.
Proof.
  intros Hv Hlt [?|[-> ->]]%(gr_acks _ _ _ _ Hgr); [done|].
  destruct (vo_hist _ _ (inv_votes _ _ _ (ri_inv _ _ HR)) _ _ _ Hv) as (t0 & v0 & Hd & Ht & _).
  rewrite Hdur in Hd. pose proof hs_le_term. destruct hv. simplify_eq. cbn in *. lia.
Qed.

Lemma counts_move q el : vote_counts h (w_voted w) q el → vote_counts h' (w_voted w') q el.
Proof.
  apply vote_counts_mono; [apply Hgr|apply note_vote_incl|].
  intros t j Hv Hlt. by apply (acks_late q _ _ t j Hv).
Qed.

Context
  (Hothers : ∀ q nq, q ≠ p → w_procs w !! q = Some (Up nq) → n_failed nq = false → n_role nq = Leader →
    n_currentTerm nq = (hard n').1 → h_lead h' !! (hard n').1 = h_lead h !! (hard n').1)
  (Hwon : ∀ t I, h_init h' !! t = Some I → h_init h !! t = Some I ∨ won h' (w_voted w') t I)
  (Hlead : ∀ G, h_lead h' !! (hard n').1 = Some G → is_Some (h_lead h !! (hard n').1) ∨
    ((hard n').1, p) ∈ w_led w' ∧ ∃ j, (p, (hard n').1, j) ∈ h_acks h')
  (Hproc : proc_inv h' p (Up n')) (Hcand : same_candidate w p n').

Lemma RInv_move : RInv h' (on_world (set_proc p n') R).
Proof.
  pose proof (gr_le _ _ _ _ Hgr) as Hle. destruct HR as [_ Hh Hw Hl Ha Hp He Hrp Hrq Han Hsq Hin'].
  pose proof (note_lead_incl p n' (w_led w)) as Hled. pose proof (note_vote_incl p (hard n') (w_voted w)) as Hvot.
  split; cbn [on_world rw_world rw_requests rw_answers rw_snapshots rw_installs]; [done|done| | | | | | | | | |].
  - intros t I [HIo|?]%Hwon; [|done]. eapply won_mono; [done|exact Hvot| |by apply Hw].
    intros q c t' j Hv Hlt. by apply (acks_late q t c t' j Hv).
  - intros t G HG. destruct (decide (t = (hard n').1)) as [->|Hne].
    + destruct (Hlead _ HG) as [[G0 HG0]|[? [j ?]]]; [|by exists p, j].
      destruct (Hl _ _ HG0) as (c & j & ? & ?). exists c, j. split; [by apply Hled|by apply (hl_acks _ _ Hle)].
    + rewrite (gr_lead _ _ _ _ Hgr) in HG by done. destruct (Hl _ _ HG) as (c & j & ? & ?).
      exists c, j. split; [by apply Hled|by apply (hl_acks _ _ Hle)].
  - intros q t j Hin. rewrite durable_set_proc. pose proof hs_le_term as Hhv.
    destruct (decide (p = q)) as [<-|Hne].
    + exists (hard n').1, (hard n').2. split; [by destruct (hard n')|].
      destruct (gr_acks _ _ _ _ Hgr _ _ _ Hin) as [Ho|[_ ->]]; [|done].
      destruct (Ha _ _ _ Ho) as (T & v & Hd & ?). rewrite Hdur in Hd. simplify_eq. cbn in *. lia.
    + destruct (gr_acks _ _ _ _ Hgr _ _ _ Hin) as [Ho|[? _]]; [by eapply Ha|congruence].
  - intros q pr [[<- <-]|[Hne Hq]]%set_proc_lookup; [done|].
    eapply proc_inv_mono; [done..| |by apply Hp]. intros nq ->. by eapply Hothers.
  - intros eid el Hel. destruct (He _ _ Hel) as [(Q & ? & ? & ? & ? & HQ) Hlog]. split.
    + exists Q. do 4 (split; [done|]). intros q Hq. destruct (HQ q Hq). split; [done|]. by apply counts_move.
    + intros n [[? [= <-]]|[Hne Hn]]%set_proc_lookup; [by eapply Hcand|by apply Hlog].
  - intros eid q rep el Hin Hg Hel. apply counts_move. by eapply Hrp.
  - intros q args Hin. eapply req_ok_mono; [done|exact Hled|by apply Hrq].
  - intros q args rep Hin. eapply ans_ok_mono; [done|exact Hled|by apply Han].
  - intros q args Hin. eapply snap_ok_mono; [done|exact Hled|by apply Hsq].
  - intros q args rep Hin. eapply inst_ok_mono; [done|exact Hled|by apply Hin'].
Qed.
End Move.

(** The process moves and the history stays. *)
Lemma RInv_stay h R p hv n' :
  RInv h R → durable (rw_world R) p = Some hv → Inv members cfg_of (set_proc p n' (rw_world R)) →
  hs_le hv (hard n') → proc_inv h p (Up n') → same_candidate (rw_world R) p n' →
  RInv h (on_world (set_proc p n') R).
Proof.
  intros HR Hd HI Hhs Hp Hc. eapply RInv_move; eauto using grows_refl; apply HR.
Qed.

(** ** The other parts of the world *)
Lemma RInv_set_down h R p st :
  RInv h R → Inv members cfg_of (set_down p st (rw_world R)) →
  (∀ q, durable (set_down p st (rw_world R)) q = durable (rw_world R) q) → (∃ L, store_inv h p st L) →
  RInv h (on_world (set_down p st) R).
Proof.
  intros [HI0 Hh Hw Hl Ha Hp He Hrp Hrq Han Hsq Hin'] HI Hdur Hst.
  split; cbn [on_world rw_world rw_requests rw_answers rw_snapshots rw_installs];
    [done|done|exact Hw|exact Hl| | | | |exact Hrq|exact Han|exact Hsq|exact Hin'].
  - intros q t j Hin. rewrite Hdur. by eapply Ha.
  - intros q pr [[<- <-]|[Hne Hq]]%set_down_lookup; [done|by apply Hp].
  - intros eid el [Hel Hne]%set_down_elections. destruct (He _ _ Hel) as [Hg Hlog]. split; [exact Hg|].
    intros n Hn. apply set_down_lookup in Hn as [[? _]|[_ ?]]; [congruence|by apply Hlog].
  - intros eid q rep el Hin Hg [Hel _]%set_down_elections. by eapply Hrp.
Qed.

Lemma RInv_add_election h R el :
  RInv h R → Inv members cfg_of (add_election el (rw_world R)) → election_inv h (w_voted (rw_world R)) (w_procs (rw_world R)) el →
  (∀ eid q rep, (eid, q, rep) ∈ w_replies (rw_world R) → eid < w_next (rw_world R)) →
  RInv h (on_world (add_election el) R).
Proof.
  intros [HI0 Hh Hw Hl Ha Hp He Hrp Hrq Han Hsq Hin'] HI Hel Hfresh.
  split; cbn [on_world rw_world rw_requests rw_answers rw_snapshots rw_installs]; try done.
  - intros eid el' [[<- <-]|[Hne Hq]]%add_election_lookup; [exact Hel|by apply (He eid)].
  - intros eid q rep el' Hin Hg [[<- <-]|[Hne Hq]]%add_election_lookup; [|by eapply Hrp].
    specialize (Hfresh _ _ _ Hin). lia.
Qed.

Lemma RInv_set_election h R eid el el' :
  RInv h R → Inv members cfg_of (set_election eid el' (rw_world R)) →
  w_elections (rw_world R) !! eid = Some el → el_cand el' = el_cand el → el_term el' = el_term el →
  el_args el' = el_args el → election_inv h (w_voted (rw_world R)) (w_procs (rw_world R)) el' →
  RInv h (on_world (set_election eid el') R).
Proof.
  intros [HI0 Hh Hw Hl Ha Hp He Hrp Hrq Han Hsq Hin'] HI Hel Hc Ht Har Hel'.
  split; cbn [on_world rw_world rw_requests rw_answers rw_snapshots rw_installs]; try done.
  - intros eid2 el2 [[<- <-]|[Hne Hq]]%set_election_lookup; [exact Hel'|by apply (He eid2)].
  - intros eid2 q rep el2 Hin Hg [[<- <-]|[Hne Hq]]%set_election_lookup; [|by eapply Hrp].
    unfold vote_counts. rewrite Hc, Ht, Har. by eapply Hrp.
Qed.

Lemma RInv_add_reply h R eid q rep :
  RInv h R → Inv members cfg_of (add_reply (eid, q, rep) (rw_world R)) →
  (∀ el, rvr_VoteGranted rep = true → w_elections (rw_world R) !! eid = Some el → vote_counts h (w_voted (rw_world R)) q el) →
  RInv h (on_world (add_reply (eid, q, rep)) R).
Proof.
  intros [HI0 Hh Hw Hl Ha Hp He Hrp Hrq Han Hsq Hin'] HI Hv.
  split; cbn [on_world rw_world rw_requests rw_answers rw_snapshots rw_installs]; try done.
  intros eid2 q2 rep2 el [[= -> -> ->]|Hin]%elem_of_cons Hg Hel; [by apply Hv|by eapply Hrp].
Qed.

Lemma RInv_add_request h R q args :
  RInv h R → req_ok h (w_led (rw_world R)) q args → RInv h (add_request (q, args) R).
Proof.
  intros [HI0 Hh Hw Hl Ha Hp He Hrp Hrq Han Hsq Hin'] Hok. split; cbn; try done.
  intros q' args' [[= -> ->]|Hin]%elem_of_cons; [done|by apply Hrq].
Qed.

Lemma RInv_add_answer h R q args r :
  RInv h R → (∀ rep, r = inl rep → ans_ok h (w_led (rw_world R)) q args rep) → RInv h (add_answer q args r R).
Proof.
  intros [HI0 Hh Hw Hl Ha Hp He Hrp Hrq Han Hsq Hin'] Hok. destruct r as [rep|]; [|done]. split; cbn; try done.
  intros q' args' rep' [[= -> -> ->]|Hin]%elem_of_cons; [by apply Hok|by apply Han].
Qed.

Lemma RInv_add_snapshot h R q args :
  RInv h R → snap_ok h (w_led (rw_world R)) q args → RInv h (add_snapshot (q, args) R).
Proof.
  intros [HI0 Hh Hw Hl Ha Hp He Hrp Hrq Han Hsq Hin'] Hok. split; cbn; try done.
  intros q' args' [[= -> ->]|Hin]%elem_of_cons; [done|by apply Hsq].
Qed.

Lemma RInv_add_install h R q args r :
  RInv h R → (∀ rep, r = inl rep → inst_ok h (w_led (rw_world R)) q args rep) → RInv h (add_install q args r R).
Proof.
  intros [HI0 Hh Hw Hl Ha Hp He Hrp Hrq Han Hsq Hin'] Hok. destruct r as [rep|]; [|done]. split; cbn; try done.
  intros q' args' rep' [[= -> -> ->]|Hin]%elem_of_cons; [by apply Hok|by apply Hin'].
Qed.
End Invariant.
