(* ===== verification/RaftRestart.v ===== *)
(** * What a process finds when it is started again

    The invariant of RaftInvariant for the storage a process left behind: when
    it crashed between two critical sections, when one of its storage
    operations failed, or when it died inside a critical section.  RaftFaults
    says what the storage may hold; here every possibility is a log the safety
    argument accounts for. *)
From S2P Require Import Prelude RaftTypes RaftNode RaftVotes RaftCluster RaftElection RaftLog RaftReplicate RaftFaults RaftService RaftHistory RaftCompaction RaftReplication RaftMoves RaftInvariant.

Section Restart.
Context {S : Type} `{StorageSpec S}.
Implicit Types (n : Node S) (st : S) (h : Hist).
Variable members : list NodeID.

Abbreviation node_inv := (node_inv members).
Abbreviation store_inv := (store_inv members).
Abbreviation left_inv := (left_inv members).

Lemma plog_terms h T log L : plog_ok h T log L → (T < two64)%N → Forall (λ e, Term e < two64)%N log.
Proof.
  intros [Hw _ Ht _] HT. apply Forall_lookup. intros k e He. pose proof (whole_term _ _ _ _ Hw He) as Hte.
  destruct (take _ L) as [|x l _] eqn:E using rev_ind; [rewrite Hte; cbn; pose proof two63_lt_two64; lia|].
  rewrite last_term_snoc in Hte. rewrite Hte. assert (x ∈ L) as Hx.
  { assert (x ∈ take (N.to_nat (first_index log) + k) L) as Hx by (rewrite E; apply elem_of_app; right; by left).
    by apply (subseteq_take (N.to_nat (first_index log) + k) L). }
  specialize (Ht x Hx). lia.
Qed.

(** A storage whose log is [l], up to the boundary's command. *)
Lemma store_intro h p st l L :
  loads st → same_log (Log (view st)) l → (CurrentTerm (view st) < two64)%N → (N.of_nat (length L) < two63)%N →
  plog_ok h (CurrentTerm (view st)) l L → commits members h (CurrentTerm (view st)) L (N.to_nat (first_index l)) →
  (∀ t j, (p, t, j) ∈ h_acks h → keeps h t j (CurrentTerm (view st)) L) →
  ((0 < first_index l)%N → snapshot_fits (SnapshotData (view st))) → store_inv h p st L.
Proof.
  intros Hld Hsl Ht Hlen Hlog Hc Hk Hda. pose proof (loads_wf _ Hld) as Hw.
  assert (plog_ok h (CurrentTerm (view st)) (Log (view st)) L) as Hlog'.
  { destruct Hlog. split; try done. eapply whole_same; [done|by apply log_ne|done]. }
  split; rewrite ?(proj1 Hsl); try done.
  - rewrite (whole_next _ _ (pl_whole _ _ _ _ Hlog')). lia.
  - by eapply plog_terms.
Qed.

(** What is known of a storage by what it leaves. *)
Lemma left_intro h p st (Q : PersistentState → Prop) :
  leaves Q st → (∀ st', loads st' → Q (view st') → ∃ L, store_inv h p st' L) → left_inv h p st.
Proof. intros Hl HQ st' Hr. destruct (Hl _ Hr). by apply HQ. Qed.

Lemma node_length h p n L : node_inv h p n L → (N.of_nat (length L) < two63)%N.
Proof.
  intros Hn. destruct (node_bounds _ _ _ _ _ Hn) as [Hnx _].
  pose proof (wf_bound _ (proj1 (proj2 (proj1 (ni_service _ _ _ _ _ Hn))))). lia.
Qed.

(** ** The node's own log *)
Lemma kept_store h p n L st :
  hist_ok h → node_inv h p n L → loads st → kept n (view st) → store_inv h p st L.
Proof.
  intros Hh Hn Hld (Hsl & Hd & Ht). pose proof (proj1 (proj2 (proj1 (ni_service _ _ _ _ _ Hn)))) as Hw.
  destruct (node_bounds _ _ _ _ _ Hn) as [_ Hb]. pose proof (ni_log _ _ _ _ _ Hn) as Hlog.
  eapply store_intro; [done|done|lia|by eapply node_length|..]; rewrite ?(wf_first _ Hw), ?Hd.
  - eapply plog_ok_mono; [done|apply Ht|done].
  - eapply commits_grow; [done|apply Ht|lia|]. eapply commits_below; [apply Hb|apply (ni_commit _ _ _ _ _ Hn)].
  - intros t j Hin. eapply keeps_mono; [done|exact Hh|done|apply Ht|by apply (ni_keeps _ _ _ _ _ Hn)].
  - apply (ni_data _ _ _ _ _ Hn).
Qed.

Lemma kept_left h p n L st : hist_ok h → node_inv h p n L → leaves (kept n) st → left_inv h p st.
Proof. intros Hh Hn Hl. eapply left_intro; [exact Hl|]. intros st' Hld Hk. exists L. by eapply kept_store. Qed.

Lemma disk_kept n : node_ok n → sto_ok (n_storage n) ∧ kept n (view (n_storage n)).
Proof.
  intros (Hf & Hw & Hd). destruct (Hd Hf) as (Hok & Et & _ & Es & Hsl). split; [done|].
  split; [done|]. split; [done|]. pose proof (wf_term _ Hw). lia.
Qed.

(** A process that dies between two critical sections. *)
Lemma node_left h p n L : hist_ok h → node_inv h p n L → left_inv h p (n_storage n).
Proof.
  intros Hh Hn. destruct (disk_kept n (proj1 (ni_service _ _ _ _ _ Hn))) as [Hok Hk].
  eapply kept_left; [done..|]. eapply leaves_mono; [|by apply reopened_ok]. by intros ps ->.
Qed.

(** ** A leader's entry, written or not *)
Lemma written_left h p n L e st :
  hist_ok h → node_inv h p n L → h_lead h !! n_currentTerm n = Some L → Term e = n_currentTerm n → entry_fits e →
  (next_index (n_log n) < two63)%N →
  leaves (writing n (λ l, l = n_log n ∨ l = n_log n ++ [e])) st →
  left_inv (h_extend (n_currentTerm n) (L ++ [e]) h) p st.
Proof.
  intros Hh Hn HG He Hfit Hb Hl. pose proof (h_extend_le _ L e h HG) as Hle.
  pose proof (hist_ok_extend _ L e h Hh HG He) as Hh'. set (h' := h_extend _ _ _) in *.
  assert (h_lead h' !! n_currentTerm n = Some (L ++ [e])) as HG' by apply lookup_insert_eq.
  pose proof (proj1 (proj2 (proj1 (ni_service _ _ _ _ _ Hn)))) as Hw. pose proof (wf_term _ Hw).
  destruct (node_bounds _ _ _ _ _ Hn) as [Hnx Hcb]. pose proof (ni_log _ _ _ _ _ Hn) as Hlog.
  eapply left_intro; [exact Hl|]. intros st' Hld (Et & Es & l & Hsl & [->| ->]).
  - exists L. eapply store_intro; [done|done|by rewrite Et|lia|..]; rewrite ?(wf_first _ Hw), ?Et, ?Es.
    + by eapply plog_ok_mono.
    + eapply commits_grow; [done|done|lia|]. eapply commits_below; [apply Hcb|apply (ni_commit _ _ _ _ _ Hn)].
    + intros t j Hin. eapply keeps_mono; [done..|by apply (ni_keeps _ _ _ _ _ Hn)].
    + apply (ni_data _ _ _ _ _ Hn).
  - assert (first_index (n_log n ++ [e]) = n_lastIncludedIndex n) as Hfi
      by (rewrite first_index_app by apply (log_ne _ (wf_log _ Hw)); apply (wf_first _ Hw)).
    exists (L ++ [e]). eapply store_intro; [done|done|by rewrite Et|rewrite length_app; cbn; lia|..]; rewrite ?Hfi, ?Et, ?Es.
    + destruct Hlog as [Hwh _ Hts Hfs]. split; [by apply whole_app|apply (ho_lead _ Hh' _ _ HG')| |apply Forall_app; by repeat constructor].
      intros x [Hx|Hx]%elem_of_app; [by apply Hts|]. apply list_elem_of_singleton in Hx as ->. lia.
    + eapply commits_mono; [done|done| | |eapply commits_below; [apply Hcb|apply (ni_commit _ _ _ _ _ Hn)]].
      * rewrite length_app. lia.
      * by rewrite take_app_le by lia.
    + intros t j Hin. apply keeps_app. eapply keeps_mono; [done..|by apply (ni_keeps _ _ _ _ _ Hn)].
    + apply (ni_data _ _ _ _ _ Hn).
Qed.
(** ** A compacted log *)
Lemma snapshotted_store h p n L i e data st :
  hist_ok h → node_inv h p n L → loads st → (n_lastIncludedIndex n < i ≤ n_lastApplied n)%N →
  n_log n !! N.to_nat (i - n_lastIncludedIndex n) = Some e → CurrentTerm (view st) = n_currentTerm n →
  snapshotted n i (Term e) data (view st) → snapshot_fits data → store_inv h p st L.
Proof.
  intros Hh Hn Hld Hi He Et (Es & l & Hsl & El) Hfit. pose proof (proj1 (proj2 (proj1 (ni_service _ _ _ _ _ Hn)))) as Hw.
  destruct (node_bounds _ _ _ _ _ Hn) as [_ Hb]. pose proof (ni_log _ _ _ _ _ Hn) as [Hwh ???].
  pose proof (log_lookup_Index _ _ _ (wf_log _ Hw) He) as Hix. rewrite (wf_first _ Hw) in Hix.
  pose proof (wf_term _ Hw). pose proof (wf_committed _ Hw).
  pose proof (same_log_drop _ _ _ _ i (wf_log _ Hw) (proj1 Hsl) Hsl He ltac:(lia) ltac:(lia)) as Hsl'. rewrite <- El in Hsl'.
  assert (whole (drop (N.to_nat (i - n_lastIncludedIndex n)) (n_log n)) L) as Hwd
    by (eapply whole_cut; [done|done|rewrite (wf_first _ Hw); lia]).
  assert (first_index (drop (N.to_nat (i - n_lastIncludedIndex n)) (n_log n)) = i) as Hfd
    by (rewrite (drop_S _ _ _ He); cbn; lia).
  eapply store_intro; [done|exact Hsl'|by rewrite Et|by eapply node_length|..]; rewrite ?Et, ?Es, ?Hfd; try done.
  - eapply commits_below; [|apply (ni_commit _ _ _ _ _ Hn)]. lia.
  - apply (ni_keeps _ _ _ _ _ Hn).
Qed.

Lemma compaction_left h p n L i data st :
  hist_ok h → node_inv h p n L → snapshot_fits data →
  leaves (λ ps, kept n ps ∨ ∃ e, (n_lastIncludedIndex n < i ≤ n_lastApplied n)%N ∧
    n_log n !! N.to_nat (i - n_lastIncludedIndex n) = Some e ∧
    CurrentTerm ps = n_currentTerm n ∧ snapshotted n i (Term e) data ps) st → left_inv h p st.
Proof.
  intros Hh Hn Hfit Hl. eapply left_intro; [exact Hl|]. intros st' Hld [Hk|(e & Hi & He & Et & Hc)]; exists L.
  - by eapply kept_store.
  - by eapply snapshotted_store.
Qed.

(** ** A leader's entries, some of them stored *)
Section Received.
Context (h : Hist) (q : NodeID) (n : Node S) (L G : Entries) (T : N) (k m : nat).
Context (Hh : hist_ok h) (Hn : node_inv h q n L) (HG : h_lead h !! T = Some G) (HnT : (n_currentTerm n ≤ T)%N)
  (HT : (T < two64)%N) (Hacks : ∀ t j, (q, t, j) ∈ h_acks h → (t ≤ T)%N)
  (Heq : take k L = take k G) (HkL : k ≤ length L) (HkG : k + m ≤ length G)
  (Hfit : Forall entry_fits (take m (drop k G))).

(** The merge that stops after [m'] entries. *)
Lemma merged_some m' :
  let L' := merge L k (take m' (take m (drop k G))) in
  consistent h L' ∧ (∀ e, e ∈ L' → (Term e ≤ T)%N) ∧ Forall entry_fits L' ∧
  length L' ≤ length L `max` (k + m) ∧ ∀ t j, (q, t, j) ∈ h_acks h → keeps h t j T L'.
Proof.
  cbv zeta. rewrite take_take. set (r := m' `min` m).
  destruct (ni_log _ _ _ _ _ Hn) as [_ HLc HLt HLf]. pose proof (ho_lead _ Hh _ _ HG) as HGok.
  pose proof (lo_consistent _ _ _ HGok) as HGc.
  split; [by apply merge_consistent; try done; lia|]. split; [|split; [|split]].
  - intros x Hx. destruct (merge_lead h L G k r) as [[E _]|[E _]]; try done; try lia; rewrite E in Hx.
    + specialize (HLt x Hx). lia.
    + apply elem_of_take in Hx as (j & Hj & _). by eapply lead_terms.
  - apply merge_Forall; [done|]. unfold r. rewrite <- take_take. by apply Forall_take.
  - destruct (merge_length L k (take r (drop k G)) HkL) as [[-> _]| ->]; [lia|]. rewrite length_take. lia.
  - intros t j Hin. eapply keeps_merge; try done; [by eapply Hacks|lia|lia|]. by apply (ni_keeps _ _ _ _ _ Hn).
Qed.

Lemma merged_partly L' :
  partly L k (take m (drop k G)) L' →
  consistent h L' ∧ (∀ e, e ∈ L' → (Term e ≤ T)%N) ∧ Forall entry_fits L' ∧
  length L' ≤ length L `max` (k + m) ∧ ∀ t j, (q, t, j) ∈ h_acks h → keeps h t j T L'.
Proof.
  intros (m' & [->|(c & e & e' & Hc & He' & Hne & Hm & ->)]); [apply merged_some|].
  destruct (merged_some m') as (_ & _ & _ & _ & Hk). rewrite Hm in Hk.
  destruct (ni_log _ _ _ _ _ Hn) as [_ HLc HLt HLf].
  split; [by apply consistent_take|]. split; [|split; [by apply Forall_take|split; [rewrite length_take; lia|]]].
  - intros x Hx%(subseteq_take c L). specialize (HLt x Hx). lia.
  - intros t j Hin. eapply keeps_cut; [exact HnT|done|done|by apply (ni_keeps _ _ _ _ _ Hn)|by apply Hk].
Qed.

Lemma partly_store l L' st :
  (N.of_nat (k + m) < two63)%N → partly L k (take m (drop k G)) L' → whole l L' → loads st →
  same_log (Log (view st)) l → CurrentTerm (view st) = T →
  commits members h T L' (N.to_nat (first_index l)) →
  ((0 < first_index l)%N → snapshot_fits (SnapshotData (view st))) → store_inv h q st L'.
Proof.
  intros Hb Hpt Hwh Hld Hsl Et Hc Hda. destruct (merged_partly _ Hpt) as (Hcons & Hts & Hfs & Hlen & Hk).
  pose proof (node_length _ _ _ _ Hn).
  eapply store_intro; [done|done|by rewrite Et|lia|..]; rewrite ?Et; try done.
Qed.

(** The node's snapshot covers only what every part of the merge keeps. *)
Lemma partly_commits l L' :
  first_index l = n_lastIncludedIndex n → N.to_nat (n_lastIncludedIndex n) ≤ k →
  partly L k (take m (drop k G)) L' → commits members h T L' (N.to_nat (first_index l)).
Proof.
  intros -> Hk Hpt. destruct (node_bounds _ _ _ _ _ Hn) as [_ Hb].
  destruct (partly_below _ _ _ _ _ Hpt Hk HkL) as [Htk Hlen].
  eapply commits_mono; [done|exact HnT|done|exact Htk|].
  eapply commits_below; [apply Hb|apply (ni_commit _ _ _ _ _ Hn)].
Qed.
End Received.
End Restart.
