(* ===== verification/RaftSafety.v ===== *)
(** * State machine safety

    Every step of RaftReplication's cluster keeps the invariant of
    RaftInvariant, against a history that only grows.  So committed entries
    are never lost: what any two nodes count as committed agrees, now and at
    any later time, and no two nodes ever apply different commands at the same
    index.  On the way every request a node receives is one RaftService allows,
    so that the cluster as a whole never panics. *)
From S2P Require Import Prelude RaftTypes RaftNode RaftVotes RaftCluster RaftElection RaftLog RaftReplicate RaftFaults RaftService RaftHistory RaftCompaction RaftReplication RaftMoves RaftInvariant RaftRestart.

Section Safety.
Context {S : Type} `{StorageSpec S}.
Implicit Types (n : Node S) (w : World S) (R : RWorld S) (h : Hist).

(** A running node that no storage error has disabled. *)
Definition enabled R (p : NodeID) n : Prop :=
  w_procs (rw_world R) !! p = Some (Up n) ∧ n_failed n = false.

Variable members : list NodeID.
Variable cfg_of : NodeID → Config.
Hypothesis Hwf : cluster_wf (S := S) members cfg_of.
Hypothesis Hodd : Nat.Odd (length members).

Abbreviation RInv := (RInv members cfg_of).
Abbreviation node_inv := (node_inv members).
Abbreviation proc_inv := (proc_inv members).
Abbreviation left_inv := (left_inv members).

(** What a step leaves: the invariant against a longer history. *)
Definition preserved h R' : Prop := ∃ h', hist_le h h' ∧ RInv h' R'.

Lemma preserved_same h R' : RInv h R' → preserved h R'.
Proof. intros HR. by exists h. Qed.

(** ** Reading the invariant *)
Lemma RInv_node h R p n :
  RInv h R → w_procs (rw_world R) !! p = Some (Up n) → n_failed n = false → ∃ L, node_inv h p n L.
Proof. intros HR Hp. by apply (ri_proc _ _ _ _ HR _ _ Hp). Qed.

Lemma enabled_inv h R p n : RInv h R → enabled R p n → ∃ L, node_inv h p n L.
Proof. intros HR [Hp Hf]. by eapply RInv_node. Qed.

Lemma RInv_synced h R p n :
  RInv h R → w_procs (rw_world R) !! p = Some (Up n) → synced n.
Proof. intros HR Hp. by apply (inv_up _ _ _ (ri_inv _ _ _ _ HR) _ _ Hp). Qed.

Lemma RInv_durable h R p n :
  RInv h R → w_procs (rw_world R) !! p = Some (Up n) → durable (rw_world R) p = Some (hard n).
Proof. intros _ Hp. unfold durable. by rewrite Hp. Qed.

Lemma RInv_won h R t I :
  RInv h R → h_init h !! t = Some I → elected members h t I ∧ consistent h I.
Proof. intros HR HI. by eapply elected_won, (ri_won _ _ _ _ HR). Qed.

(** What a section leaves that does not touch the log, and that does nothing
    once the node is disabled. *)
Definition leaves_log n n' : Prop := if n_failed n then n_storage n' = n_storage n else faulty (kept n) n'.

Lemma leaves_log_left h R p n n' :
  RInv h R → w_procs (rw_world R) !! p = Some (Up n) → leaves_log n n' → n_failed n' = true → left_inv h p (n_storage n').
Proof.
  unfold leaves_log. intros HR Hp Hl Hf'. destruct (n_failed n) eqn:Hf.
  - rewrite Hl. by apply (ri_proc _ _ _ _ HR _ _ Hp).
  - destruct (RInv_node _ _ _ _ HR Hp Hf) as [L Hn]. eapply kept_left; [apply HR|exact Hn|by apply Hl].
Qed.

Lemma leaves_failed n : n_failed n = true → leaves_log n n.
Proof. unfold leaves_log. by intros ->. Qed.

Lemma leaves_enabled n n' : n_failed n = false → n_failed n' = false → leaves_log n n'.
Proof. unfold leaves_log. intros -> Hf. by apply faulty_enabled. Qed.

Lemma leaves_faulty n n' : n_failed n = false → faulty (kept n) n' → leaves_log n n'.
Proof. unfold leaves_log. by intros ->. Qed.

(** ** Moves that leave the log alone *)
Lemma node_inv_rests h p n n' L :
  node_inv h p n L → serving n' → n_failed n' = false → rests n n' → node_inv h p n' L.
Proof.
  intros Hn Hsv Hf [Ecfg El Ei Ec Et [Em Er Ep Ed]]. destruct (node_bounds _ _ _ _ _ Hn) as [_ Hb].
  destruct Hn as [Hs Hlog Hc Hl Hca Hk Hda Hpe]. split; rewrite ?El, ?Ec, ?Ei, ?Ed; try done.
  - by apply Hsv.
  - by eapply plog_ok_mono.
  - eapply commits_grow; [done|exact Et|lia|done].
  - intros HL. destruct Er as [?|[Er ->]]; [congruence|]. rewrite Em. apply Hl. congruence.
  - intros HC. destruct Er as [?|[Er ->]]; [congruence|]. apply Hca. congruence.
  - intros t j Hin G i HG Hi. destruct (Hk t j Hin G i HG Hi) as [?|Hm]; [by left|right].
    eapply (missed_between_mono h h); [done| |done]. lia.
  - eapply pending_ok_next; [exact Ep|by rewrite Ec|done|done].
Qed.

Lemma rests_candidate h R p n n' :
  RInv h R → w_procs (rw_world R) !! p = Some (Up n) → n_failed n = false → rests n n' →
  same_candidate (rw_world R) p n'.
Proof.
  intros HR Hp Hf [_ El _ _ _ [_ Er _ _]] eid el Hel Hc _ HC Ht. unfold log_end. rewrite El.
  destruct Er as [?|[Er Et]]; [congruence|].
  apply (ei_log _ _ _ _ _ (ri_el _ _ _ _ HR _ _ Hel) n); congruence.
Qed.

Lemma failed_candidate w p n' : n_failed n' = true → same_candidate w p n'.
Proof. intros Hf eid el _ _ ?. congruence. Qed.

(** A move that keeps the log of a node in service, or disables it. *)
Lemma stay_left h R p n n' :
  RInv h R → w_procs (rw_world R) !! p = Some (Up n) →
  Inv members cfg_of (set_proc p n' (rw_world R)) → hs_le (hard n) (hard n') →
  (n_failed n' = false → n_failed n = false ∧ serving n' ∧ rests n n') →
  (n_failed n' = true → left_inv h p (n_storage n')) →
  RInv h (on_world (set_proc p n') R).
Proof.
  intros HR Hp HI Hhs Hm Hl. eapply RInv_stay; [done|by eapply RInv_durable|done|done| |].
  - split; [|exact Hl]. intros Hf. destruct (Hm Hf) as (Hf0 & Hsv & Hre). destruct (RInv_node _ _ _ _ HR Hp Hf0) as [L HL].
    exists L. by eapply node_inv_rests.
  - destruct (n_failed n') eqn:Hf; [by apply failed_candidate|].
    destruct (Hm eq_refl) as (Hf0 & _ & Hre). by eapply rests_candidate.
Qed.

Lemma stay_rests h R p n n' :
  RInv h R → w_procs (rw_world R) !! p = Some (Up n) →
  Inv members cfg_of (set_proc p n' (rw_world R)) → hs_le (hard n) (hard n') →
  (n_failed n' = false → n_failed n = false ∧ serving n' ∧ rests n n') → leaves_log n n' →
  RInv h (on_world (set_proc p n') R).
Proof. intros HR Hp HI Hhs Hm Hl. eapply stay_left; [done..|]. by eapply leaves_log_left. Qed.

(** A disabled node that did nothing. *)
Lemma stay_failed h R p n :
  RInv h R → w_procs (rw_world R) !! p = Some (Up n) → n_failed n = true →
  Inv members cfg_of (set_proc p n (rw_world R)) → RInv h (on_world (set_proc p n) R).
Proof.
  intros HR Hp Hf HI. eapply stay_rests; [done|done|done|apply hs_le_refl|congruence|by apply leaves_failed].
Qed.

(** *** Timers, triggers, the apply loop *)
Lemma quiet_case h R p n op n' :
  RInv h R → w_procs (rw_world R) !! p = Some (Up n) → quiet_op op → run_op op n = Val ((), n') →
  RInv h (on_world (set_proc p n') R).
Proof.
  intros HR Hp Hop Hrun. pose proof (RInv_synced _ _ _ _ HR Hp) as Hsy.
  assert (evolves n n') as Hev by (eapply run_op_evolves; [|done|done]; by destruct op).
  destruct (quiet_op_failed _ _ _ Hop Hrun) as [Hff Hss].
  eapply stay_rests; [done|done|eapply Inv_evolves; [apply HR|done|done]|apply Hev| |].
  - intros Hf. rewrite Hff in Hf. split; [done|].
    destruct (RInv_node _ _ _ _ HR Hp Hf) as [L Hn].
    destruct (quiet_op_rests _ _ _ Hop (ni_service _ _ _ _ _ Hn) Hrun) as (Hsv & _ & Hre).
    split; [done|]. apply Hre. by rewrite Hff.
  - unfold leaves_log. destruct (n_failed n) eqn:Hf; [done|]. by apply faulty_enabled.
Qed.

(** *** Votes *)
Lemma up_to_date_whole h p n args L :
  node_inv h p n L → up_to_date n args →
  (last_term L < rv_LastLogTerm args)%N ∨
  (last_term L = rv_LastLogTerm args ∧ length L ≤ N.to_nat (rv_LastLogIndex args)).
Proof.
  intros Hn Hup. pose proof (proj1 (proj2 (proj1 (ni_service _ _ _ _ _ Hn)))) as Hw.
  destruct (lastLogInfo_val n Hw) as (e & He & _). destruct (node_bounds _ _ _ _ _ Hn) as [Hnx _].
  pose proof (whole_last _ _ (pl_whole _ _ _ _ (ni_log _ _ _ _ _ Hn))) as Hlt.
  rewrite He in Hlt. cbn in Hlt. rewrite <- Hlt.
  pose proof (last_log_Index _ _ (wf_log _ Hw) He) as Hix.
  destruct (Hup e He) as [?|[? ?]]; [by left|right; split; [done|lia]].
Qed.

Lemma vote_moves h R eid el p n e r n' L :
  RInv h R → w_elections (rw_world R) !! eid = Some el → w_procs (rw_world R) !! p = Some (Up n) →
  handleRequestVote e (el_args el) n = Val (r, n') → node_inv h p n L →
  RInv h (on_world (set_proc p n') R) ∧ (n_failed n' = false → rests n n') ∧
  ∀ rep, r = inl rep → rvr_VoteGranted rep = true →
    up_to_date n (el_args el) ∧ n_currentTerm n' = rv_Term (el_args el) ∧ n_failed n' = false.
Proof.
  intros HR Hel Hp Hrun Hn. pose proof (ri_inv _ _ _ _ HR) as HI.
  destruct (inv_el _ _ _ HI _ _ Hel) as [_ Hok]. destruct (eo_args _ _ _ _ Hok) as (Ha1 & Ha2 & Ha3).
  destruct (cw_id _ _ Hwf _ (eo_member _ _ _ _ Hok)) as (_ & Hne & Hfit). rewrite <- Ha1 in Ha3. rewrite <- Ha2 in Hfit.
  pose proof (proj1 (ni_service _ _ _ _ _ Hn)) as Hnok.
  destruct (vote_rests n e _ _ _ (ni_service _ _ _ _ _ Hn) Ha3 Hfit Hrun) as (Hsv & Hre & Hg).
  destruct (vote_evolves members cfg_of Hwf _ _ _ _ _ _ _ _ HI Hel Hp Hrun) as [Hev _].
  split; [|done]. eapply stay_rests; [done|done|by eapply Inv_evolves|apply Hev| |].
  - intros Hf'. split; [apply Hnok|auto].
  - apply leaves_faulty; [apply Hnok|].
    by apply (wp_run _ _ _ _ _ _ (handleRequestVote_fault n e (el_args el) Hnok Ha3 Hfit) Hrun).
Qed.

Lemma vote_case h R eid el p n e rep n' :
  RInv h R → w_elections (rw_world R) !! eid = Some el → w_procs (rw_world R) !! p = Some (Up n) →
  handleRequestVote e (el_args el) n = Val (inl rep, n') →
  RInv h (on_world (add_reply (eid, p, rep)) (on_world (set_proc p n') R)).
Proof.
  intros HR Hel Hp Hrun. pose proof (ri_inv _ _ _ _ HR) as HI.
  destruct (n_failed n) eqn:Hf; [by rewrite (failed_vote n Hf) in Hrun|].
  destruct (RInv_node _ _ _ _ HR Hp Hf) as [L Hn].
  destruct (inv_el _ _ _ HI _ _ Hel) as [_ Hok]. destruct (eo_args _ _ _ _ Hok) as (Ha1 & Ha2 & Ha3).
  destruct (cw_id _ _ Hwf _ (eo_member _ _ _ _ Hok)) as (_ & Hne & Hfit).
  destruct (vote_moves _ _ _ _ _ _ _ _ _ _ HR Hel Hp Hrun Hn) as (HR1 & Hre & Hg).
  destruct (vote_evolves members cfg_of Hwf _ _ _ _ _ _ _ _ HI Hel Hp Hrun) as [_ Hgr].
  pose proof (vote_ok members cfg_of Hwf _ _ _ _ _ _ _ _ HI Hel Hp Hrun) as HI'.
  apply RInv_add_reply; [exact HR1|exact HI'|]. intros el' Hgt Hel'. cbn in Hel'. replace el' with el by congruence.
  destruct (Hg _ eq_refl Hgt) as (Hup & Ht' & Hf').
  destruct (Hgr _ eq_refl Hgt) as (_ & _ & Hh). rewrite Ha1, Ha2 in Hh. split.
  - cbn. rewrite Hh. by apply (note_vote_new p (_, el_cand el)).
  - intros Hnone. eapply vote_from_keeps; [apply HR|apply (ni_log _ _ _ _ _ Hn)| | |done|by eapply up_to_date_whole].
    + intros t j Hin. by apply (ni_keeps _ _ _ _ _ Hn).
    + pose proof (re_term _ _ (Hre Hf')). lia.
Qed.

Lemma vote_error_case h R eid el p n e err n' :
  RInv h R → w_elections (rw_world R) !! eid = Some el → w_procs (rw_world R) !! p = Some (Up n) →
  handleRequestVote e (el_args el) n = Val (inr err, n') → RInv h (on_world (set_proc p n') R).
Proof.
  intros HR Hel Hp Hrun. destruct (n_failed n) eqn:Hf.
  - destruct (vote_evolves members cfg_of Hwf _ _ _ _ _ _ _ _ (ri_inv _ _ _ _ HR) Hel Hp Hrun) as [Hev _].
    pose proof (Inv_evolves _ cfg_of _ _ _ _ (ri_inv _ _ _ _ HR) Hp Hev) as HI1.
    rewrite (failed_vote n Hf) in Hrun. injection Hrun as _ <-. by apply stay_failed.
  - destruct (RInv_node _ _ _ _ HR Hp Hf) as [L Hn]. by eapply vote_moves.
Qed.

(** *** Candidacies *)
Lemma hard_term h R p n :
  RInv h R → w_procs (rw_world R) !! p = Some (Up n) → n_failed n = false →
  durable (rw_world R) p = Some (n_currentTerm n, n_votedFor n).
Proof.
  intros HR Hp Hf. rewrite (RInv_durable _ _ _ _ HR Hp). f_equal. by apply (RInv_synced _ _ _ _ HR Hp).
Qed.

Lemma campaign_node h R p n n' L :
  RInv h R → w_procs (rw_world R) !! p = Some (Up n) → n_failed n = false → node_inv h p n L →
  serving n' → n_failed n' = false → core_frame n n' → n_role n' = Candidate →
  n_currentTerm n' = (n_currentTerm n + 1)%N → node_inv h p n' L.
Proof.
  intros HR Hp Hf Hn Hsv Hf' Hfr Hrole Ht. destruct (node_bounds _ _ _ _ _ Hn) as [_ Hb].
  destruct Hn as [Hs Hlog Hc Hl Hca Hk Hda Hpe].
  split; rewrite ?(cf_log _ _ Hfr), ?(cf_commit _ _ Hfr), ?(cf_lii _ _ Hfr), ?(cf_snap _ _ Hfr), ?Ht; try done.
  - by apply Hsv.
  - eapply plog_ok_mono; [done| |done]. lia.
  - eapply commits_grow; [done| |lia|done]. lia.
  - congruence.
  - intros _ j Hin. destruct (ri_acks _ _ _ _ HR _ _ _ Hin) as (T & v & Hd & Hle).
    rewrite (hard_term _ _ _ _ HR Hp Hf) in Hd. simplify_eq. lia.
  - intros t j Hin. eapply keeps_mono; [done|apply HR|done| |by apply Hk]. lia.
  - eapply pending_ok_next; [left; apply Hfr|by rewrite (cf_commit _ _ Hfr)|done|done].
Qed.

Lemma campaign_case h R p n e term args n' :
  RInv h R → w_procs (rw_world R) !! p = Some (Up n) → (n_currentTerm n + 1 < two64)%N →
  startElection e n = Val (Some (term, args), n') →
  RInv h (on_world (add_election (MkElection p term args 1 (n_peers n'))) (on_world (set_proc p n') R)).
Proof.
  intros HR Hp Ht Hrun. pose proof (ri_inv _ _ _ _ HR) as HI.
  destruct (n_failed n) eqn:Hf; [by rewrite (failed_campaign n Hf) in Hrun|].
  destruct (RInv_node _ _ _ _ HR Hp Hf) as [L Hn]. pose proof (RInv_synced _ _ _ _ HR Hp) as Hsy.
  destruct (inv_up _ _ _ HI _ _ Hp) as (Hm & _ & Hid & Hpe).
  destruct (cw_id _ _ Hwf _ Hm) as (_ & Hne & Hfit). rewrite <- Hid in Hfit.
  destruct (campaign_moves n e _ _ (ni_service _ _ _ _ _ Hn) Hfit Ht Hrun)
    as (Hsv & Hfr & Hf' & Hrole & Ht' & -> & ->).
  destruct (wp_run _ _ _ _ _ _ (startElection_evolves n e Hsy Ht Hfit) Hrun) as [Hev _].
  destruct (campaign_ok members cfg_of Hwf _ _ _ _ _ _ _ HI Hp Ht Hrun) as [HI1 Hok].
  destruct (node_bounds _ _ _ _ _ Hn) as [Hnx _].
  pose proof (whole_last _ _ (pl_whole _ _ _ _ (ni_log _ _ _ _ _ Hn))) as Hlt.
  apply RInv_add_election.
  - eapply RInv_stay; [done|by eapply RInv_durable|done|apply Hev| |].
    + split; [|congruence]. intros _. exists L. by eapply campaign_node.
    + intros eid el Hel Hc _ _ Hte. exfalso. destruct (inv_el _ _ _ HI _ _ Hel) as [_ Hoke].
      destruct (eo_granted _ _ _ _ Hoke) as (G & _ & HG & _ & _ & Hvo). destruct (Hvo _ HG) as [Hv _].
      destruct (vo_hist _ _ (inv_votes _ _ _ HI) _ _ _ Hv) as (t0 & v0 & Hd & Hle & _).
      rewrite Hc, (hard_term _ _ _ _ HR Hp Hf) in Hd. simplify_eq. lia.
  - eapply Inv_add_election; [exact HI1|exact Hok].
  - destruct (eo_granted _ _ _ _ Hok) as (G & HG1 & HG2 & HG3 & HG4 & HG5). split.
    + exists G. do 4 (split; [done|]). intros q Hq. destruct (HG5 q Hq) as [Hv Hnp]. split; [done|].
      split; [exact Hv|]. cbn in *. intros Hnone.
      assert (q = p) as ->.
      { destruct G as [|x [|y G]]; [done| |done]. apply list_elem_of_singleton in Hq, HG2. congruence. }
      rewrite Hlt. eapply vote_from_keeps; [apply HR|apply (ni_log _ _ _ _ _ Hn)| | |done|].
      * intros t j Hin. by apply (ni_keeps _ _ _ _ _ Hn).
      * lia.
      * right. split; [done|]. lia.
    + cbn. intros n2 [[_ [= <-]]|[? _]]%set_proc_lookup _ _ _; [|done].
      unfold log_end. by rewrite (cf_log _ _ Hfr).
  - intros eid q rep Hin. by apply (inv_rep _ _ _ HI _ _ _ Hin).
Qed.

Lemma campaign_disabled_case h R p n e n' :
  RInv h R → w_procs (rw_world R) !! p = Some (Up n) → (n_currentTerm n + 1 < two64)%N →
  startElection e n = Val (None, n') → RInv h (on_world (set_proc p n') R).
Proof.
  intros HR Hp Ht Hrun. pose proof (ri_inv _ _ _ _ HR) as HI.
  pose proof (RInv_synced _ _ _ _ HR Hp) as Hsy. destruct (inv_up _ _ _ HI _ _ Hp) as (Hm & _ & Hid & Hpe).
  destruct (cw_id _ _ Hwf _ Hm) as (_ & Hne & Hfit). rewrite <- Hid in Hfit.
  destruct (wp_run _ _ _ _ _ _ (startElection_evolves n e Hsy Ht Hfit) Hrun) as [Hev _].
  pose proof (Inv_evolves _ cfg_of _ _ _ _ HI Hp Hev) as HI1. destruct (n_failed n) eqn:Hf.
  { rewrite (failed_campaign n Hf) in Hrun. injection Hrun as <-. by apply stay_failed. }
  destruct (RInv_node _ _ _ _ HR Hp Hf) as [L Hn]. pose proof (ni_service _ _ _ _ _ Hn) as Hsn.
  eapply stay_rests; [done|done|done|apply Hev| |].
  - intros Hf'. destruct (campaign_moves n e _ _ Hsn Hfit Ht Hrun) as (_ & _ & ?). congruence.
  - apply leaves_faulty; [done|]. by apply (wp_run _ _ _ _ _ _ (startElection_fault n e (proj1 Hsn) Hfit Ht) Hrun).
Qed.

(** *** Victories *)

(** What a quorum of votes in hand is worth to the candidate they are for. *)
Lemma votes_win h R eid el n Q L :
  RInv h R → w_elections (rw_world R) !! eid = Some el →
  w_procs (rw_world R) !! el_cand el = Some (Up n) → n_failed n = false → node_inv h (el_cand el) n L →
  n_role n = Candidate → n_currentTerm n = el_term el → h_init h !! el_term el = None →
  a_quorum members Q → (∀ q, q ∈ Q → vote_counts h (w_voted (rw_world R)) q el) →
  won members h (w_voted (rw_world R)) (el_term el) L.
Proof.
  intros HR Hel Hp Hf Hn Hr Ht Hnone HQ Hv. split; [apply (ni_log _ _ _ _ _ Hn)|].
  exists (el_cand el), Q. split; [done|]. intros q Hq. destruct (Hv q Hq) as [Hvo Hs]. split; [done|].
  destruct (ei_log _ _ _ _ _ (ri_el _ _ _ _ HR _ _ Hel) n Hp Hf Hr Ht) as [E1 E2].
  destruct (node_bounds _ _ _ _ _ Hn) as [Hnx _].
  pose proof (whole_last _ _ (pl_whole _ _ _ _ (ni_log _ _ _ _ _ Hn))) as Hlt.
  specialize (Hs Hnone). rewrite E1, E2, Hlt, Hnx in Hs.
  by replace (N.to_nat (N.of_nat (length L) + 1 - 1)) with (length L) in Hs by lia.
Qed.

(** Nobody led the term of a candidate that is about to. *)
Lemma candidate_first h R p n n' :
  RInv h R → w_procs (rw_world R) !! p = Some (Up n) → n_failed n = false → n_role n = Candidate →
  Inv members cfg_of (set_proc p n' (rw_world R)) → n_role n' = Leader →
  n_currentTerm n' = n_currentTerm n → h_lead h !! n_currentTerm n = None.
Proof.
  intros HR Hp Hf Hr HI HL Ht. apply eq_None_not_Some. intros [G HG].
  destruct (ri_lead _ _ _ _ HR _ _ HG) as (c & j & Hc & Hj).
  assert (c = p) as ->.
  { eapply (led_unique members cfg_of); [done|exact HI|by apply note_lead_incl|].
    rewrite <- Ht. by eapply (inv_lead _ _ _ HI p n'); [apply lookup_insert_eq|]. }
  destruct (RInv_node _ _ _ _ HR Hp Hf) as [L Hn]. by destruct (ni_cand _ _ _ _ _ Hn Hr j).
Qed.

Lemma init_none h t : hist_ok h → h_lead h !! t = None → h_init h !! t = None.
Proof. intros Hh Hn. apply eq_None_not_Some. intros [I [G HG]%(ho_init _ Hh)]. congruence. Qed.

(** The new leader, against the history in which it leads. *)
Lemma leader_node h p n n' L :
  hist_ok h → node_inv h p n L → takes_office n n' → service n' →
  h_lead h !! n_currentTerm n = None → h_init h !! n_currentTerm n = None →
  node_inv (h_elect (n_currentTerm n) p L h) p n' L.
Proof.
  intros Hh Hn [Hli Hr Hm Hpk] Hs' HL HI. destruct (node_bounds _ _ _ _ _ Hn) as [_ Hb].
  destruct Hn as [Hs Hlog Hc Hl Hca Hk Hda Hpe]. pose proof (h_elect_le _ p L _ HL HI) as Hle.
  split; rewrite ?(li_log _ _ Hli), ?(li_term _ _ Hli), ?(li_commit _ _ Hli), ?(li_lii _ _ Hli), ?(li_data _ _ Hli); try done.
  - by eapply plog_ok_mono.
  - eapply commits_grow; [done|done|lia|done].
  - intros _. cbn. rewrite lookup_insert_eq. split; [done|]. split.
    + exists (length L). split; [done|]. by left.
    + intros q. rewrite Hm. lia.
  - congruence.
  - intros t j [[= -> ->]|Hin]%elem_of_cons.
    + intros G i HG Hi. cbn in HG. rewrite lookup_insert_eq in HG. simplify_eq. left. split; [lia|done].
    + eapply keeps_mono; [done..| |by apply Hk]. done.
  - eapply (pending_ok_next n); [by left|by rewrite (li_commit _ _ Hli)|done|done].
Qed.

Lemma elect_move h R eid el n n' Q :
  RInv h R → w_elections (rw_world R) !! eid = Some el →
  w_procs (rw_world R) !! el_cand el = Some (Up n) → n_failed n = false →
  n_role n = Candidate → n_currentTerm n = el_term el → takes_office n n' → serving n' →
  Inv members cfg_of (set_proc (el_cand el) n' (rw_world R)) →
  a_quorum members Q → (∀ q, q ∈ Q → vote_counts h (w_voted (rw_world R)) q el) →
  preserved h (on_world (set_proc (el_cand el) n') R).
Proof.
  intros HR Hel Hp Hf Hr Ht Hto Hsv HI HQ Hv. destruct (RInv_node _ _ _ _ HR Hp Hf) as [L Hn].
  pose proof Hto as [Hli HrL Hm _].
  assert (n_failed n' = false) as Hf' by (by rewrite (li_failed _ _ Hli)).
  pose proof (candidate_first _ _ _ _ _ HR Hp Hf Hr HI HrL (li_term _ _ Hli)) as HL0.
  pose proof (init_none _ _ (ri_hist _ _ _ _ HR) HL0) as HI0.
  set (T := n_currentTerm n) in *.
  pose proof (h_elect_le T (el_cand el) L h HL0 HI0) as Hle.
  assert (hard n' = (T, n_votedFor n)) as Hh'.
  { unfold hard. rewrite (li_storage _ _ Hli). by apply (RInv_synced _ _ _ _ HR Hp). }
  exists (h_elect T (el_cand el) L h). split; [done|].
  eapply (RInv_move members cfg_of h _ R (el_cand el) (hard n)); rewrite ?Hh'; cbn [fst].
  - done.
  - by eapply RInv_durable.
  - done.
  - rewrite (RInv_synced _ _ _ _ HR Hp Hf). apply hs_le_refl.
  - split; [done| |].
    + intros q t j [[= -> -> ->]|?]%elem_of_cons; auto.
    + intros t Hne. cbn. by rewrite lookup_insert_ne.
  - destruct (ni_log _ _ _ _ _ Hn) as [_ Hcons Hterms _].
    apply hist_ok_elect; [apply HR|done|done|done|]. intros x Hx. specialize (Hterms x Hx).
    assert (Term x ≠ T); [|lia]. intros E. apply list_elem_of_lookup in Hx as [k Hx].
    destruct (Hcons _ _ Hx) as (G & HG & _). congruence.
  - intros q nq _ Hq Hfq Hrq Htq. destruct (RInv_node _ _ _ _ HR Hq Hfq) as [Lq Hnq].
    destruct (ni_lead _ _ _ _ _ Hnq Hrq) as [HGq _]. congruence.
  - intros t I HIt. cbn [h_elect h_init] in HIt.
    apply lookup_insert_Some in HIt as [[<- <-]|[Hne HIt]]; [right|by left].
    eapply (won_mono members h _ (w_voted (rw_world R))); [done|apply note_vote_incl| |].
    + intros q c t' j _ Hlt [[= -> -> ->]|?]%elem_of_cons; [lia|done].
    + rewrite Ht. eapply votes_win; try done. congruence.
  - intros G _. right. cbn. split.
    + unfold note_lead. rewrite decide_True by done. rewrite (li_term _ _ Hli). by left.
    + exists (length L). by left.
  - split; [|congruence]. intros _. exists L. apply leader_node; try done; [apply HR|by apply Hsv].
  - intros eid2 el2 _ _ _ HC. congruence.
Qed.

(** Counting a vote changes nothing but the counter. *)
Lemma cast_inv h R eid el p rep votes' :
  RInv h R → w_elections (rw_world R) !! eid = Some el → p ∈ el_pending el →
  (eid, p, rep) ∈ w_replies (rw_world R) →
  votes' = el_votes el ∨ (votes' = el_votes el + 1 ∧ rvr_VoteGranted rep = true) →
  election_inv members h (w_voted (rw_world R)) (w_procs (rw_world R)) (cast_vote p el votes').
Proof.
  intros HR Hel Hpp Hin Hv. pose proof (ri_inv _ _ _ _ HR) as HI.
  destruct (ri_el _ _ _ _ HR _ _ Hel) as [(Q & HQ1 & HQ2 & HQ3 & HQ4 & HQ5) Hlog]. split; [|exact Hlog].
  destruct Hv as [->|[-> Hg]].
  - exists Q. do 4 (split; [done|]). intros q Hq. destruct (HQ5 q Hq) as [Hnp Hc]. split; [|exact Hc].
    intros [_ ?]%list_elem_of_filter. done.
  - destruct (inv_el _ _ _ HI _ _ Hel) as [_ Hok].
    pose proof (pending_peer members cfg_of Hwf _ _ _ Hok Hpp) as Hpm.
    exists (p :: Q). split; [constructor; [|done]; intros HpQ; by destruct (HQ5 p HpQ)|].
    split; [by right|]. split; [cbn; lia|].
    split; [intros q [->|?]%elem_of_cons; auto|].
    intros q [->|Hq]%elem_of_cons.
    + split; [by intros [? _]%list_elem_of_filter|]. exact (ri_rep _ _ _ _ HR _ _ _ _ Hin Hg Hel).
    + destruct (HQ5 q Hq) as [Hnp Hc]. split; [|exact Hc]. intros [_ ?]%list_elem_of_filter. done.
Qed.

Lemma election_quorum_of h voted (procs : gmap NodeID (Proc S)) el (n : Node S) p :
  election_inv members h voted procs el → node_of members cfg_of p n →
  majority_of (n_peers n) ≤ el_votes el →
  ∃ Q, a_quorum members Q ∧ ∀ q, q ∈ Q → vote_counts h voted q el.
Proof.
  intros [(Q & HQ1 & HQ2 & HQ3 & HQ4 & HQ5) _] Hn Hmaj.
  rewrite (majority_quorum members cfg_of Hwf _ _ Hn) in Hmaj.
  exists Q. split; [split; [done|]; split; [done|lia]|]. intros q Hq. by apply HQ5.
Qed.

(** A counted vote, or the check for a cluster of one, moves the candidate. *)
Lemma counted_move h R eid el el' n n' :
  RInv h R → w_elections (rw_world R) !! eid = Some el →
  w_procs (rw_world R) !! el_cand el = Some (Up n) → n_failed n = false →
  counted n n' (el_term el) (el_votes el') → serving n' → hs_le (hard n) (hard n') → leaves_log n n' →
  Inv members cfg_of (set_proc (el_cand el) n' (rw_world R)) →
  election_inv members h (w_voted (rw_world R)) (w_procs (rw_world R)) el' →
  el_term el' = el_term el → el_cand el' = el_cand el → el_args el' = el_args el →
  preserved h (on_world (set_proc (el_cand el) n') R).
Proof.
  intros HR Hel Hp Hf Hco Hsv Hhs Hlv HI Hel' E1 E2 E3.
  destruct Hco as [Hre|(Hr & Ht & Hmaj & Hto)].
  - apply preserved_same. eapply stay_rests; done || auto.
  - pose proof (inv_up _ _ _ (ri_inv _ _ _ _ HR) _ _ Hp) as Hn.
    destruct (election_quorum_of _ _ _ _ _ _ Hel' Hn Hmaj) as (Q & HQ & Hv).
    eapply elect_move; try done. intros q Hq. specialize (Hv q Hq).
    unfold vote_counts in *. by rewrite E1, E2, E3 in Hv.
Qed.

Lemma vote_reply_case h R eid el p rep n votes' n' :
  RInv h R → w_elections (rw_world R) !! eid = Some el → p ∈ el_pending el →
  (eid, p, rep) ∈ w_replies (rw_world R) → (rvr_Term rep < two64)%N →
  w_procs (rw_world R) !! el_cand el = Some (Up n) →
  onRequestVoteReply (el_term el) (el_votes el) rep n = Val (votes', n') →
  preserved h (on_world (set_election eid (cast_vote p el votes')) (on_world (set_proc (el_cand el) n') R)).
Proof.
  intros HR Hel Hpp Hin Hrt Hp Hrun. pose proof (ri_inv _ _ _ _ HR) as HI.
  destruct (vote_reply_move members cfg_of Hwf _ _ _ _ _ _ _ _ HI Hel Hpp Hin Hrt Hp Hrun) as (HI1 & Hhs & Hok).
  assert ((votes' = el_votes el ∨ (votes' = el_votes el + 1 ∧ rvr_VoteGranted rep = true)) ∧
    preserved h (on_world (set_proc (el_cand el) n') R)) as [Hv (h' & Hle & HR1)].
  { destruct (n_failed n) eqn:Hf.
    - rewrite (failed_vote_reply n Hf) in Hrun. injection Hrun as <- <-. split; [by left|].
      apply preserved_same. by apply stay_failed.
    - destruct (RInv_node _ _ _ _ HR Hp Hf) as [L Hn].
      destruct (voteReply_counted _ _ _ _ _ _ (ni_service _ _ _ _ _ Hn) Hrt Hrun) as [Hco Hv].
      split; [done|]. eapply (counted_move h R eid el (cast_vote p el votes')); try done.
      + eapply (wp_run False _ (λ _ n', serving n')); [apply onRequestVoteReply_serving|exact Hrun];
          [apply (ni_service _ _ _ _ _ Hn)|done].
      + apply leaves_faulty; [done|]. by apply (wp_run _ _ _ _ _ _ (onRequestVoteReply_fault n _ _ rep
          (proj1 (ni_service _ _ _ _ _ Hn)) Hrt) Hrun).
      + by eapply cast_inv. }
  exists h'. split; [done|]. eapply RInv_set_election; [done| |exact Hel|done..|].
  - eapply Inv_set_election; [exact HI1|exact Hel|done..|].
    eapply election_ok_mono; [apply note_vote_incl|done].
  - by eapply (cast_inv h').
Qed.

Lemma solo_case h R eid el n n' :
  RInv h R → w_elections (rw_world R) !! eid = Some el →
  w_procs (rw_world R) !! el_cand el = Some (Up n) → n_failed n = false →
  startElection_solo (el_term el) n = Val ((), n') →
  preserved h (on_world (set_proc (el_cand el) n') R).
Proof.
  intros HR Hel Hp Hf Hrun. pose proof (ri_inv _ _ _ _ HR) as HI.
  pose proof (solo_ok members cfg_of Hwf _ _ _ _ _ HI Hel Hp Hrun) as HI1.
  destruct (RInv_node _ _ _ _ HR Hp Hf) as [L Hn]. pose proof (RInv_synced _ _ _ _ HR Hp) as Hsy.
  pose proof (ri_el _ _ _ _ HR _ _ Hel) as Hei.
  assert (1 ≤ el_votes el) as H1v.
  { destruct (ei_granted _ _ _ _ _ Hei) as (Q & _ & HQ & <- & _). destruct Q; [by apply not_elem_of_nil in HQ|cbn; lia]. }
  eapply (counted_move h R eid el el n n'); try done.
  - destruct (solo_counted _ _ _ (ni_service _ _ _ _ _ Hn) Hrun) as [Hre|(? & ? & ? & ?)].
    + by left.
    + right. split; [done|]. split; [done|]. split; [lia|done].
  - eapply (wp_run False _ (λ _ n', serving n')); [apply startElection_solo_serving|exact Hrun].
    apply (ni_service _ _ _ _ _ Hn).
  - destruct (wp_run _ _ _ _ _ _ (startElection_solo_outcome n (el_term el) Hsy) Hrun) as [He|[Hw _]].
    + apply He.
    + rewrite (win_hard _ _ _ Hw). apply hs_le_refl.
  - apply leaves_enabled; [done|]. by apply (wp_run _ _ _ _ _ _ (startElection_solo_enabled n (el_term el) Hf) Hrun).
Qed.

(** ** Committing *)
Lemma node_lii_log h p n L : node_inv h p n L → first_index (n_log n) = n_lastIncludedIndex n.
Proof. intros Hn. apply (proj1 (proj2 (proj1 (ni_service _ _ _ _ _ Hn)))). Qed.

Lemma entry_whole h p n L i e :
  node_inv h p n L → (n_lastIncludedIndex n < i)%N → n_log n !! N.to_nat (i - n_lastIncludedIndex n) = Some e →
  L !! (N.to_nat i - 1) = Some e.
Proof.
  intros Hn Hi He. pose proof (whole_lookup _ _ (N.to_nat (i - n_lastIncludedIndex n)) _ (pl_whole _ _ _ _ (ni_log _ _ _ _ _ Hn)) ltac:(lia) He) as Hlk.
  rewrite (node_lii_log _ _ _ _ Hn) in Hlk.
  by replace (N.to_nat i - 1) with (N.to_nat (n_lastIncludedIndex n) + N.to_nat (i - n_lastIncludedIndex n) - 1) by lia.
Qed.

(** The rule of section 5.4.2 finds entries that are committed. *)
Lemma may_commit_committed h p n i L :
  node_inv h p n L → node_of members cfg_of p n → n_role n = Leader → may_commit n i →
  committed members h (n_currentTerm n) (N.to_nat i).
Proof.
  intros Hn (Hm & _ & _ & Hpe) HL (Hi & (e & He & Hte) & Hmaj).
  destruct (ni_lead _ _ _ _ _ Hn HL) as (HG & Hown & Hmatch). destruct (node_bounds _ _ _ _ _ Hn) as [Hnx Hlc].
  destruct (cw_peers _ _ Hwf _ Hm) as (Hnd & Hnp & Hsub & Hlen). rewrite <- Hpe in *.
  split; [lia|]. split.
  - exists L, e. split; [done|]. split; [|done]. eapply entry_whole; [done|lia|done].
  - exists (p :: filter (λ q, (i ≤ map_get (n_matchIndex n) q)%N) (n_peers n)). split; [split; [|split]|].
    + constructor; [by intros [_ ?]%list_elem_of_filter|by apply NoDup_filter].
    + intros q [->|[_ Hq]%list_elem_of_filter]%elem_of_cons; [done|by apply Hsub].
    + unfold quorum_size. rewrite <- Hlen, Nat.add_sub. exact Hmaj.
    + intros q [->|[Hq _]%list_elem_of_filter]%elem_of_cons.
      * destruct Hown as (j & Hj & Hin). exists j. split; [lia|done].
      * destruct (Hmatch q ltac:(lia)) as (j & Hj & Hin). exists j. split; [lia|done].
Qed.

Lemma commit_node h p n n' L :
  node_inv h p n L → node_of members cfg_of p n → commit_outcome n n' → node_inv h p n' L.
Proof.
  intros Hn Hof [(HL & i & Hi & _ & ->)|[_ ->]]; [|done].
  pose proof (may_commit_committed _ _ _ _ _ Hn Hof HL Hi) as Hcm.
  destruct (node_bounds _ _ _ _ _ Hn) as [Hnx _]. destruct (Hi) as [Hib _].
  destruct (Hn) as [[Hok Hpr] Hlog Hc Hl Hca Hk Hda Hpe].
  split; cbn; try done.
  - split; [apply node_ok_commit; [done|lia]|done].
  - right. exists (n_currentTerm n), (N.to_nat i), L.
    split; [done|]. split; [done|]. split; [lia|]. split; [done|]. split; [by apply Hl|done].
  - eapply (pending_ok_next n); [by left|cbn; lia|done|done].
Qed.

(** *** Proposals *)
Lemma written_node h p n cmd n1 L :
  let e := MkEntry (n_currentTerm n) (next_index (n_log n)) cmd in
  hist_ok h → node_inv h p n L → n_role n = Leader → entry_fits e →
  log_becomes n (n_log n ++ [e]) n1 → node_ok n1 →
  node_inv (h_write (n_currentTerm n) p (L ++ [e]) h) p n1 (L ++ [e]).
Proof.
  intros e Hh Hn HL Hfit (Hfr & Hl1 & _) Hok1. destruct (node_bounds _ _ _ _ _ Hn) as [Hnx Hcb].
  destruct (Hn) as [Hs Hlog Hc Hl Hca Hk Hda Hpe]. destruct (Hl HL) as (HG & Hown & Hmatch).
  pose proof (h_write_le _ p _ e h HG) as Hle.
  pose proof (hist_ok_write _ p _ e h Hh HG eq_refl) as Hh'.
  assert (h_lead (h_write (n_currentTerm n) p (L ++ [e]) h) !! n_currentTerm n = Some (L ++ [e])) as HG'
    by apply lookup_insert_eq.
  destruct Hfr. split; rewrite ?Hl1, ?lf_term, ?lf_role, ?lf_match, ?lf_commit, ?lf_lii, ?lf_snap; try done.
  - split; [done|]. intros _ q. rewrite lf_next, Hl1. destruct Hs as [Hok Hp].
    rewrite next_index_app by (apply log_ne, Hok). specialize (Hp HL q). lia.
  - destruct Hlog as [Hw _ Hts Hfs]. split.
    + by apply whole_app.
    + apply (ho_lead _ Hh' _ _ HG').
    + intros x [Hx|Hx]%elem_of_app; [by apply Hts|]. apply list_elem_of_singleton in Hx as ->. done.
    + apply Forall_app. split; [done|by constructor].
  - eapply commits_mono; [done|done| | |done]; [rewrite length_app; lia|by rewrite take_app_le by lia].
  - intros _. split; [done|]. split.
    + exists (length (L ++ [e])). split; [done|by left].
    + intros q Hq. by apply (acked_mono _ _ Hle), Hmatch.
  - congruence.
  - intros t j [[= -> ->]|Hin]%elem_of_cons.
    + intros G i HG2 Hi. left. replace G with (L ++ [e]) by congruence. split; [lia|done].
    + apply keeps_app. eapply keeps_mono; [done..| |by apply Hk]. done.
  - eapply (pending_ok_next n); [by left|by rewrite lf_commit| |done]. by rewrite take_app_le by lia.
Qed.

(** The history when the leader's log grows, and [p] leads its term. *)
Lemma grown_move h R p n n' h' G e :
  RInv h R → w_procs (rw_world R) !! p = Some (Up n) → n_failed n = false → n_role n = Leader →
  h_lead h !! n_currentTerm n = Some G → Term e = n_currentTerm n →
  h' = h_extend (n_currentTerm n) (G ++ [e]) h ∨ h' = h_write (n_currentTerm n) p (G ++ [e]) h →
  Inv members cfg_of (set_proc p n' (rw_world R)) → hs_le (hard n) (hard n') → (hard n').1 = n_currentTerm n →
  proc_inv h' p (Up n') → (n_failed n' = false → n_role n' = Leader) →
  preserved h (on_world (set_proc p n') R).
Proof.
  intros HR Hp Hf HL HG He Heq HI1 Hhs Ht Hpr Hr'. pose proof (ri_inv _ _ _ _ HR) as HI.
  assert (hist_le h h' ∧ hist_ok h' ∧ grows p (n_currentTerm n) h h') as (Hle & Hh' & Hgr).
  { destruct Heq as [->| ->].
    - pose proof (h_extend_le _ G e h HG). split; [done|]. split; [by apply hist_ok_extend; [apply HR| |]|].
      split; [done|by left|]. intros t Hne. cbn. by rewrite lookup_insert_ne.
    - pose proof (h_write_le _ p G e h HG). split; [done|]. split; [by apply hist_ok_write; [apply HR| |]|].
      split; [done| |intros t Hne; cbn; by rewrite lookup_insert_ne].
      intros q t j [[= -> -> ->]|?]%elem_of_cons; auto. }
  assert (h_init h' = h_init h) as Hin by (destruct Heq as [->| ->]; done).
  exists h'. split; [done|]. eapply (RInv_move members cfg_of h h' R p (hard n)); rewrite ?Ht; try done.
  - by eapply RInv_durable.
  - intros q nq Hne Hq _ Hrq Htq. exfalso. apply Hne.
    eapply (led_unique members cfg_of _ (n_currentTerm n)); [done|exact HI| |].
    + rewrite <- Htq. by eapply (inv_lead _ _ _ HI).
    + by eapply (inv_lead _ _ _ HI).
  - intros t I HIt. left. by rewrite <- Hin.
  - intros G' _. left. by exists G.
  - intros eid el _ _ Hf' HC. rewrite (Hr' Hf') in HC. done.
Qed.

(** The entry may be on disk, and nobody has been told. *)
Lemma propose_failed_case h R p n cmd n' L :
  let e := MkEntry (n_currentTerm n) (next_index (n_log n)) cmd in
  RInv h R → w_procs (rw_world R) !! p = Some (Up n) → n_failed n = false → n_role n = Leader → node_inv h p n L →
  h_lead h !! n_currentTerm n = Some L → (next_index (n_log n) < two63)%N → entry_fits e →
  Inv members cfg_of (set_proc p n' (rw_world R)) → evolves n n' → n_failed n' = true → hard n' = hard n →
  faulty (writing n (λ l, l = n_log n ∨ l = n_log n ++ [e])) n' →
  preserved h (on_world (set_proc p n') R).
Proof.
  intros e HR Hp Hf HL Hn HG Hb Hfit HI1 Hev Hf' Hh Hfa.
  eapply (grown_move h R p n n' _ L e); [done..|by left|done|apply Hev| | |congruence].
  - rewrite Hh. by rewrite (RInv_synced _ _ _ _ HR Hp Hf).
  - split; [congruence|]. intros _. eapply written_left; [apply HR|done..|by apply Hfa].
Qed.

Lemma propose_case h R p n cmd n' :
  RInv h R → w_procs (rw_world R) !! p = Some (Up n) →
  (next_index (n_log n) < two63)%N → entry_fits (MkEntry (n_currentTerm n) (next_index (n_log n)) cmd) →
  run_op (OpPropose cmd) n = Val ((), n') →
  preserved h (on_world (set_proc p n') R).
Proof.
  intros HR Hp Hb Hfit Hrun. pose proof (ri_inv _ _ _ _ HR) as HI.
  pose proof (RInv_synced _ _ _ _ HR Hp) as Hsy.
  assert (evolves n n') as Hev by (by eapply run_op_evolves; [|done|done]).
  pose proof (Inv_evolves _ cfg_of _ _ _ _ HI Hp Hev) as HI1.
  destruct (n_failed n) eqn:Hf.
  { apply discard_run in Hrun as [r Hrun]. rewrite (failed_propose n Hf) in Hrun. injection Hrun as _ <-.
    apply preserved_same. by apply stay_failed. }
  destruct (RInv_node _ _ _ _ HR Hp Hf) as [L Hn].
  destruct (Propose_moves n cmd n' (ni_service _ _ _ _ _ Hn) Hb Hfit Hrun) as (Hsv & [->|(HL & n1 & Hbe & Hst)]).
  { apply preserved_same. eapply stay_rests; [done..|apply Hev| |by apply leaves_enabled]. intros _. split; [done|].
    split; [done|apply rests_refl]. }
  destruct (ni_lead _ _ _ _ _ Hn HL) as (HG & _ & _). destruct Hst as [[Hf1 ->]|[Hok1 Hco]].
  { apply discard_run in Hrun as [r Hrun]. eapply propose_failed_case; try done.
    - exact (wp_run _ _ _ _ _ _ (Propose_hard n cmd) Hrun).
    - exact (wp_run _ _ _ _ _ _ (Propose_fault n cmd (proj1 (ni_service _ _ _ _ _ Hn)) Hb Hfit) Hrun). }
  set (e := MkEntry _ _ _) in *.
  pose proof (written_node h p n cmd n1 L (ri_hist _ _ _ _ HR) Hn HL Hfit Hbe Hok1) as Hn1. cbn zeta in Hn1. fold e in Hn1.
  destruct (inv_up _ _ _ HI _ _ Hp) as (Hm & _ & Hid & Hpe). destruct Hbe as (Hfr & _ & _).
  assert (node_of members cfg_of p n1) as Hof1.
  { split; [done|]. split; [by apply node_ok_synced|]. unfold n_id, n_peers in *. by rewrite (lf_cfg _ _ Hfr). }
  pose proof (commit_node _ _ _ _ _ Hn1 Hof1 Hco) as Hn'.
  assert (n_role n' = Leader ∧ n_currentTerm n' = n_currentTerm n ∧ n_failed n' = false) as (Hr' & Ht' & Hf').
  { rewrite <- HL, <- (lf_role _ _ Hfr), <- (lf_term _ _ Hfr), <- (proj1 Hok1).
    destruct Hco as [(_ & i & _ & _ & ->)|[_ ->]]; done. }
  assert (hard n' = (n_currentTerm n, n_votedFor n')) as Hh'.
  { rewrite <- Ht'. by apply (ev_synced _ _ Hev). }
  eapply (grown_move h R p n n' _ L e); try done; [by right|apply Hev|by rewrite Hh'|].
  split; [|congruence]. intros _. by exists (L ++ [e]).
Qed.

(** ** Crash and restart *)
Lemma down_case h R p n st :
  RInv h R → w_procs (rw_world R) !! p = Some (Up n) → hard_view st = hard n → (∃ L, store_inv members h p st L) →
  RInv h (on_world (set_down p st) R).
Proof.
  intros HR Hp Hh Hst. apply RInv_set_down; [done| | |done].
  - eapply (Inv_set_down _ _ _ _ (n_storage n)); [apply HR|by rewrite Hp|done].
  - intros q. unfold durable. cbn. destruct (decide (p = q)) as [<-|].
    + rewrite lookup_insert_eq, Hp. cbn. by rewrite Hh.
    + by rewrite lookup_insert_ne.
Qed.

Lemma crash_case h R p n :
  RInv h R → w_procs (rw_world R) !! p = Some (Up n) → n_failed n = false →
  RInv h (on_world (set_down p (n_storage n)) R).
Proof.
  intros HR Hp Hf. destruct (RInv_node _ _ _ _ HR Hp Hf) as [L Hn]. eapply down_case; [done..|]. exists L.
  destruct (disk_kept n (proj1 (ni_service _ _ _ _ _ Hn))) as [Hok Hk].
  eapply kept_store; [apply HR|exact Hn|by apply loads_ok|done].
Qed.

(** A process that dies inside a critical section, or after its storage failed. *)
Lemma reopen_case h R p n st :
  RInv h R → w_procs (rw_world R) !! p = Some (Up n) → reopened (n_storage n) st →
  RInv h (on_world (set_down p st) R).
Proof.
  intros HR Hp Hre. eapply down_case; [done|done|by apply reopened_hard|].
  destruct (ri_proc _ _ _ _ HR _ _ Hp) as [Hup Hdn]. destruct (n_failed n); [by apply Hdn|].
  destruct (Hup eq_refl) as [L Hn]. by eapply node_left; [apply HR|..].
Qed.

Lemma NewNode_config cfg e (st : S) n st' : NewNode cfg e st = Val (inl n, st') → config_ok cfg.
Proof.
  unfold NewNode. case_bool_decide; [done|].
  destruct (Z.ltb_spec (c_ElectionTimeoutMax (apply_defaults cfg)) (c_ElectionTimeoutMin (apply_defaults cfg)));
    [done|]. intros _. by split.
Qed.

Lemma restart_case h R p st e n st' :
  RInv h R → w_procs (rw_world R) !! p = Some (Down st) → NewNode (cfg_of p) e st = Val (inl n, st') →
  RInv h (on_world (set_proc p n) R).
Proof.
  intros HR Hp Hrun. pose proof (ri_inv _ _ _ _ HR) as HI.
  destruct (ri_proc _ _ _ _ HR _ _ Hp) as [L [Hok Hb Ht Hts Hlog Hcm Hk Hda]].
  pose proof (NewNode_spec (cfg_of p) e st (NewNode_config _ _ _ _ _ Hrun) Hok Hb Ht Hts) as Hsp.
  rewrite Hrun in Hsp. destruct Hsp as [Hs []].
  destruct (NewNode_hard _ _ _ _ _ Hrun) as (_ & Hf & Hh & _).
  eapply (RInv_stay _ _ _ _ _ (hard_view st)).
  - done.
  - unfold durable. by rewrite Hp.
  - eapply (Inv_step members cfg_of Hwf); [exact HI|]. by eapply step_restart.
  - rewrite Hh. apply hs_le_refl.
  - split; [|congruence]. intros _. exists L. split; rewrite ?rec_log, ?rec_term, ?rec_commit, ?rec_lii, ?rec_data; try done; try congruence.
    intros m. rewrite rec_pending, rec_commit. destruct (_ <? _)%N; [|done]. intros [= <-].
    do 3 eexists. split; [done|]. split; [done|apply (pl_whole _ _ _ _ Hlog)].
  - intros eid el _ _ _ HC. congruence.
Qed.

(** ** Sending *)
Lemma send_case h R p n q term args n' :
  RInv h R → w_procs (rw_world R) !! p = Some (Up n) → q ∈ n_peers n →
  replicateToPeer q term n = Val (SendAppend args, n') →
  RInv h (add_request (q, args) R).
Proof.
  intros HR Hp Hq Hrun. pose proof (ri_inv _ _ _ _ HR) as HI. apply RInv_add_request; [done|].
  destruct (n_failed n) eqn:Hf.
  { unfold replicateToPeer, mbind, GoM_bind, get, not_leading in Hrun. by rewrite Hf in Hrun. }
  destruct (RInv_node _ _ _ _ HR Hp Hf) as [L Hn].
  destruct (wp_run _ _ _ _ _ _ (replicateToPeer_spec n q term (ni_service _ _ _ _ _ Hn)) Hrun) as (_ & Hso & _).
  destruct Hso as [[Et Eid] [HL _] (e & He & Hei & Het) Ees Hcont Hlast [Elc Hlc]].
  destruct (inv_up _ _ _ HI _ _ Hp) as (Hm & _ & Hid & Hpe). rewrite Hid in Eid.
  destruct (node_bounds _ _ _ _ _ Hn) as [Hnx _]. destruct (ni_lead _ _ _ _ _ Hn HL) as (HG & _ & _).
  pose proof (proj1 (proj2 (proj1 (ni_service _ _ _ _ _ Hn)))) as Hw.
  pose proof (pl_whole _ _ _ _ (ni_log _ _ _ _ _ Hn)) as Hwh.
  pose proof (log_lookup_Index _ _ _ (wf_log _ Hw) He) as Hix. rewrite (wf_first _ Hw) in Hix.
  pose proof (whole_term _ _ _ _ Hwh He) as Hpt. rewrite (wf_first _ Hw), Het in Hpt.
  replace (N.to_nat (n_lastIncludedIndex n) + N.to_nat (ae_PrevLogIndex args - n_lastIncludedIndex n))
    with (N.to_nat (ae_PrevLogIndex args)) in Hpt by lia.
  assert (ae_Entries args = drop (N.to_nat (ae_PrevLogIndex args)) L) as Hes.
  { rewrite Ees. destruct (whole_cons _ _ Hwh) as (b & Hl & _). rewrite <- (wf_first _ Hw), Hl in *. cbn [first_index] in *.
    replace (N.to_nat (ae_PrevLogIndex args + 1 - Index b))
      with (Datatypes.S (N.to_nat (ae_PrevLogIndex args) - N.to_nat (Index b))) by lia.
    cbn. rewrite drop_drop. f_equal. lia. }
  split; rewrite ?Et, ?Eid.
  - by eapply (inv_lead _ _ _ HI).
  - split; [done|]. by rewrite <- Hpe.
  - apply (wf_term _ Hw).
  - rewrite Hlast. apply (wf_bound _ Hw).
  - done.
  - rewrite Hes. apply Forall_drop, (pl_fits _ _ _ _ (ni_log _ _ _ _ _ Hn)).
  - exists L. split; [done|]. split; [lia|]. split; [done|]. split; [|split].
    + rewrite <- Hes. by rewrite take_ge.
    + lia.
    + rewrite Elc. apply (ni_commit _ _ _ _ _ Hn).
Qed.

Lemma send_snapshot_case h R p n q term args n' :
  RInv h R → w_procs (rw_world R) !! p = Some (Up n) → q ∈ n_peers n →
  sendInstallSnapshot term n = Val (Some args, n') → RInv h (add_snapshot (q, args) R).
Proof.
  intros HR Hp Hq Hrun. pose proof (ri_inv _ _ _ _ HR) as HI. apply RInv_add_snapshot; [done|].
  apply sendInstall_sent in Hrun as (_ & (Hf & HL & Ht)%not_leading_false & ->).
  destruct (RInv_node _ _ _ _ HR Hp Hf) as [L Hn]. destruct (inv_up _ _ _ HI _ _ Hp) as (Hm & _ & Hid & Hpe).
  pose proof (proj1 (proj2 (proj1 (ni_service _ _ _ _ _ Hn)))) as Hw.
  destruct (node_bounds _ _ _ _ _ Hn) as [Hnx Hb]. destruct (ni_lead _ _ _ _ _ Hn HL) as (HG & _ & _).
  pose proof (pl_whole _ _ _ _ (ni_log _ _ _ _ _ Hn)) as Hwh. rewrite Hid. subst term.
  split; cbn [is_Term is_LeaderID is_LastIncludedIndex is_LastIncludedTerm is_Data].
  - rewrite <- Hid. rewrite Hid. by eapply (inv_lead _ _ _ HI).
  - split; [done|]. by rewrite <- Hpe.
  - apply (wf_term _ Hw).
  - pose proof (wf_terms _ Hw) as Hts. rewrite <- (wf_bterm _ Hw). destruct (whole_cons _ _ Hwh) as (b & E & _).
    rewrite E in *. by inversion Hts.
  - pose proof (wf_bound _ Hw). lia.
  - apply (ni_data _ _ _ _ _ Hn).
  - exists L. split; [done|]. split; [lia|]. rewrite <- (wf_first _ Hw), <- (wf_bterm _ Hw).
    split; [apply (wh_term _ _ Hwh)|]. rewrite (wf_first _ Hw).
    split; [eapply commits_below; [|apply (ni_commit _ _ _ _ _ Hn)]; lia|].
    apply Forall_take, (pl_fits _ _ _ _ (ni_log _ _ _ _ _ Hn)).
Qed.

(** ** Receiving *)
Lemma commits_agree h R T L c t G :
  RInv h R → commits members h T L c → (T ≤ t)%N → h_lead h !! t = Some G → take c L = take c G.
Proof.
  intros HR [->|(t1 & i & G1 & Ht & Hi & Hl & Hcm & HG1 & Heq)] HTt HG; [done|]. rewrite Heq.
  eapply committed_agree; [done|apply HR|intros t' I HI; by apply (RInv_won _ _ _ _ HR)|done|done|done|done|lia].
Qed.

(** A node gets no request of a term it leads. *)
Lemma led_not_own h R q c t n :
  RInv h R → (t, c) ∈ w_led (rw_world R) → c ∈ members → q ∈ c_Peers (cfg_of c) →
  w_procs (rw_world R) !! q = Some (Up n) → not_own n t.
Proof.
  intros HR Hled Hm Hq Hp HL Ht. pose proof (ri_inv _ _ _ _ HR) as HI.
  assert (c = q) as ->.
  { eapply (led_unique members cfg_of _ t); [done|exact HI|done|]. rewrite Ht. by eapply (inv_lead _ _ _ HI). }
  by apply (cw_peers _ _ Hwf _ Hm).
Qed.

Lemma req_not_own h R q args n :
  RInv h R → req_ok members cfg_of h (w_led (rw_world R)) q args →
  w_procs (rw_world R) !! q = Some (Up n) → not_own n (ae_Term args).
Proof. intros HR [Hled [Hm Hq] _ _ _ _ _] Hp. by eapply led_not_own. Qed.

Lemma snap_not_own h R q args n :
  RInv h R → snap_ok members cfg_of h (w_led (rw_world R)) q args →
  w_procs (rw_world R) !! q = Some (Up n) → not_own n (is_Term args).
Proof. intros HR [Hled [Hm Hq] _ _ _ _ _] Hp. by eapply led_not_own. Qed.

(** Requests in flight are valid for whoever receives them in time. *)
Lemma req_valid h R q args n L :
  RInv h R → req_ok members cfg_of h (w_led (rw_world R)) q args → node_inv h q n L →
  (n_currentTerm n ≤ ae_Term args)%N → ae_valid n args.
Proof.
  intros HR [Hled Hto Ht Hb Hc Hfit (G & HG & Hlen & Hpt & Hes & Hlc & Hcm)] Hn Hle.
  pose proof (proj1 (proj2 (proj1 (ni_service _ _ _ _ _ Hn)))) as Hw.
  assert (∀ j x, ae_Entries args !! j = Some x → G !! (N.to_nat (ae_PrevLogIndex args) + j) = Some x) as HesG.
  { intros j x Hj. rewrite Hes in Hj. pose proof (lookup_lt_Some _ _ _ Hj) as Hlt. rewrite length_take in Hlt.
    rewrite lookup_take_lt, lookup_drop in Hj by lia. done. }
  split; [done| |done|done|done|].
  - apply Forall_lookup. intros j x Hj%HesG.
    pose proof (lead_terms h _ _ _ _ (ho_lead _ (ri_hist _ _ _ _ HR) _ _ HG) Hj). lia.
  - intros x y (j & Hx)%list_elem_of_lookup (k & Hy)%list_elem_of_lookup Hxy [Hlo Hhi].
    pose proof (contiguous_lookup _ _ _ _ Hc Hx) as Hix. apply HesG in Hx.
    pose proof (log_lookup_Index _ _ _ (wf_log _ Hw) Hy) as Hiy. rewrite (wf_first _ Hw) in Hiy.
    replace k with (N.to_nat (Index y - n_lastIncludedIndex n)) in Hy by lia.
    apply (entry_whole _ _ _ _ _ _ Hn) in Hy; [|lia].
    pose proof (commits_agree _ _ _ _ _ _ _ HR (ni_commit _ _ _ _ _ Hn) Hle HG) as Heq.
    apply (f_equal (λ l, l !! (N.to_nat (Index y) - 1))) in Heq. rewrite !lookup_take_lt in Heq by lia.
    replace (N.to_nat (ae_PrevLogIndex args) + j) with (N.to_nat (Index y) - 1) in Hx by lia. congruence.
Qed.

(** Nodes agree with a leader of their term or later on what they committed. *)
Lemma committed_with_leader h R q n L T G c :
  RInv h R → node_inv h q n L → (n_currentTerm n ≤ T)%N → h_lead h !! T = Some G →
  c ≤ N.to_nat (n_commitIndex n) → take c L = take c G ∧ c ≤ length L ∧ c ≤ length G.
Proof.
  intros HR Hn Hle HG Hc. destruct (node_bounds _ _ _ _ _ Hn) as [_ Hb].
  pose proof (commits_agree _ _ _ _ _ _ _ HR (commits_below _ _ _ _ _ _ Hc (ni_commit _ _ _ _ _ Hn)) Hle HG) as Heq.
  split; [done|]. split; [lia|]. apply (f_equal length) in Heq. rewrite !length_take in Heq. lia.
Qed.

Lemma snap_valid h R q args n L :
  RInv h R → snap_ok members cfg_of h (w_led (rw_world R)) q args → node_inv h q n L →
  (n_currentTerm n ≤ is_Term args)%N → installable n args → is_valid n args.
Proof.
  intros HR [Hled Hto Ht Hlt Hli Hda (G & HG & Hlen & Hpt & Hcm & Hfit)] Hn Hle Hin. split; [done..|].
  intros e He Hi. destruct (N.lt_ge_cases (n_commitIndex n) (Index e)) as [Hlo|Hhi].
  { unfold installable in Hin. rewrite Forall_forall in Hin. by apply Hin. }
  pose proof (proj1 (proj2 (proj1 (ni_service _ _ _ _ _ Hn)))) as Hw.
  apply list_elem_of_lookup in He as [k He].
  pose proof (whole_term _ _ _ _ (pl_whole _ _ _ _ (ni_log _ _ _ _ _ Hn)) He) as Hte.
  pose proof (log_lookup_Index _ _ _ (wf_log _ Hw) He) as Hix.
  rewrite Hte, Hpt, <- Hi. destruct (committed_with_leader h R q n L _ G (N.to_nat (Index e)) HR Hn Hle HG) as [<- _]; [lia|].
  f_equal. f_equal. lia.
Qed.

(** A node that stored entries [k] to [k + m] of a leader's log. *)
Lemma stored_node h R q n T G k m L n' :
  let L' := merge L k (take m (drop k G)) in
  RInv h R → h_lead h !! T = Some G → node_inv h q n L →
  (n_currentTerm n ≤ T)%N → (∀ t j, (q, t, j) ∈ h_acks h → (t ≤ T)%N) →
  take k L = take k G → k ≤ length L → k + m ≤ length G → Forall entry_fits (take m (drop k G)) →
  service n' → n_role n' = Follower → n_currentTerm n' = T → whole (n_log n') L' → (n_commitIndex n ≤ n_commitIndex n')%N →
  (n_commitIndex n' = n_commitIndex n ∨
   N.to_nat (n_commitIndex n') ≤ k + m ∧ commits members h T G (N.to_nat (n_commitIndex n'))) →
  ((0 < n_lastIncludedIndex n')%N → snapshot_fits (n_snapshotData n')) →
  (n_pendingSnapshot n' = n_pendingSnapshot n ∨ n_pendingSnapshot n' = None ∨
   ∃ data i, n_pendingSnapshot n' = Some (SnapshotMsg data i (last_term (take (N.to_nat i) G))) ∧
     N.to_nat i ≤ k + m ∧ (i ≤ n_commitIndex n')%N) →
  node_inv (h_store q T (k + m) h) q n' L'.
Proof.
  intros L' HR HG Hn Hle Hacks Heq HkL HmG Hfit Hs' Hr' Ht' Hwh' Hcc Hc' Hda' Hpe'.
  pose proof (ri_hist _ _ _ _ HR) as Hh. pose proof (ho_lead _ Hh _ _ HG) as HGok. pose proof (lo_consistent _ _ _ HGok) as HGc.
  destruct (ni_log _ _ _ _ _ Hn) as [_ HLc HLt HLf]. destruct (node_bounds _ _ _ _ _ Hn) as [_ Hcb].
  destruct (merge_stores h L G k m) as [HstT HstL]; [done..|lia|done|]. fold L' in HstT, HstL.
  pose proof (h_store_le q T (k + m) h) as Hst.
  assert (consistent h L') as HL'c by (apply merge_consistent; done || lia).
  assert (∀ i, i ≤ k + m → take i L' = take i G) as Htk by (intros; by eapply take_of_take_eq).
  destruct (committed_with_leader _ _ _ _ _ _ _ _ HR Hn Hle HG (reflexivity _)) as (Hagr & _ & _).
  destruct (merge_keeps h L G k m (N.to_nat (n_commitIndex n))) as [Hk1 Hk2]; try done; [lia..|]. fold L' in Hk1, Hk2.
  split; rewrite ?Ht'; [done| | | | | |done|].
  - split; [done|by eapply consistent_mono| |by apply merge_Forall].
    intros x Hx. destruct (merge_lead h L G k m) as [[E _]|[E _]]; try done; try lia; fold L' in E; rewrite E in Hx.
    + specialize (HLt x Hx). lia.
    + apply elem_of_take in Hx as (j & Hj & _). by eapply lead_terms.
  - destruct Hc' as [->|[Hck Hcm]].
    + eapply commits_mono; [done|exact Hle|exact Hk2|exact Hk1|apply (ni_commit _ _ _ _ _ Hn)].
    + eapply commits_mono; [done|reflexivity| | |exact Hcm]; [lia|]. by apply Htk.
  - congruence.
  - congruence.
  - intros t j [[= -> ->]|Hin]%elem_of_cons.
    + intros G2 i HG2 Hi. left. cbn in HG2. replace G2 with G by congruence. split; [lia|]. apply Htk. lia.
    + eapply keeps_mono; [done..|reflexivity|]. eapply keeps_merge; try done; [by eapply Hacks|lia|].
      by apply (ni_keeps _ _ _ _ _ Hn).
  - destruct Hpe' as [E|[E|(data & i & E & Hi & Hic)]].
    + eapply (pending_ok_next n); [by left|done|exact Hk1|apply (ni_pending _ _ _ _ _ Hn)].
    + by eapply (pending_ok_next n); [right|..|apply (ni_pending _ _ _ _ _ Hn)].
    + intros msg. rewrite E. intros [= <-]. do 3 eexists. split; [done|]. split; [done|]. by rewrite Htk.
Qed.

(** Logs that end with entries of one term at one place are the same. *)
Lemma same_end h L G k :
  consistent h L → consistent h G → k ≤ length L → k ≤ length G →
  last_term (take k L) = last_term (take k G) → take k L = take k G.
Proof.
  intros HL HG HkL HkG Ht. destruct k as [|k]; [done|].
  destruct (lookup_lt_is_Some_2 L k) as [x Hx]; [lia|]. destruct (lookup_lt_is_Some_2 G k) as [y Hy]; [lia|].
  eapply log_matching_take; [done..|]. by rewrite (take_S_r _ _ _ Hx), (take_S_r _ _ _ Hy), !last_term_snoc in Ht.
Qed.

(** The part of an accepted request that is new to a node with a compacted log,
    and the merge seen from its whole log. *)
Lemma accepted_part h R q args n L G :
  RInv h R → node_inv h q n L → (n_currentTerm n ≤ ae_Term args)%N → h_lead h !! ae_Term args = Some G →
  N.to_nat (ae_PrevLogIndex args) + length (ae_Entries args) ≤ length G →
  ae_PrevLogTerm args = last_term (take (N.to_nat (ae_PrevLogIndex args)) G) →
  ae_Entries args = take (length (ae_Entries args)) (drop (N.to_nat (ae_PrevLogIndex args)) G) →
  ae_consistent n args = true →
  ∃ k m, k = N.to_nat (n_lastIncludedIndex n) + ae_pos n args - 1 ∧
    take k L = take k G ∧ k ≤ length L ∧ k + m ≤ length G ∧
    N.to_nat (ae_PrevLogIndex args) + length (ae_Entries args) ≤ k + m ∧
    k + m ≤ length L `max` (N.to_nat (ae_PrevLogIndex args) + length (ae_Entries args)) ∧
    take m (drop k G) = drop (ae_skip n args) (ae_Entries args) ∧
    whole (ae_log n args) (merge L k (take m (drop k G))).
Proof.
  intros HR Hn Hle HG Hlen Hpt Hes Hco. pose proof (pl_whole _ _ _ _ (ni_log _ _ _ _ _ Hn)) as Hwh.
  pose proof (node_lii_log _ _ _ _ Hn) as Hfi. destruct (node_bounds _ _ _ _ _ Hn) as [Hnx Hb].
  unfold ae_log, ae_pos, ae_skip, ae_consistent in *. set (prev := ae_PrevLogIndex args) in *. set (es := ae_Entries args) in *.
  pose proof (whole_merge _ _ (N.to_nat (N.max prev (n_lastIncludedIndex n) - n_lastIncludedIndex n) + 1)
    (drop (N.to_nat (n_lastIncludedIndex n - prev)) es) Hwh ltac:(lia)) as Hm. rewrite Hfi in Hm.
  replace (N.to_nat (n_lastIncludedIndex n) + _ - 1) with (N.to_nat (N.max prev (n_lastIncludedIndex n))) in Hm by lia.
  destruct (N.ltb_spec prev (n_lastIncludedIndex n)) as [Hlt|Hge].
  - set (skip := N.to_nat (n_lastIncludedIndex n - prev)) in *.
    destruct (committed_with_leader h R q n L _ G (N.to_nat (n_lastIncludedIndex n)) HR Hn Hle HG) as (E & E1 & E2); [lia|].
    exists (N.to_nat (n_lastIncludedIndex n)), (length es - skip).
    assert (take (length es - skip) (drop (N.to_nat (n_lastIncludedIndex n)) G) = drop skip es) as Hd.
    { rewrite Hes at 2. rewrite skipn_firstn_comm, drop_drop. f_equal. f_equal. lia. }
    rewrite Hd. split_and!; try done; try lia. rewrite N.max_r in Hm |- * by lia. exact Hm.
  - replace (N.to_nat (n_lastIncludedIndex n - prev)) with 0 in * by lia. rewrite drop_0 in *.
    rewrite N.max_l in Hm |- * by lia. exists (N.to_nat prev), (length es). rewrite <- Hes.
    destruct (n_log n !! _) as [e|] eqn:He; [|done]. apply N.eqb_eq in Hco.
    pose proof (whole_term _ _ _ _ Hwh He) as Hte. rewrite Hfi in Hte.
    replace (N.to_nat (n_lastIncludedIndex n) + _) with (N.to_nat prev) in Hte by lia.
    pose proof (lookup_lt_Some _ _ _ He) as Hlt. unfold next_index in Hnx. rewrite Hfi in Hnx.
    assert (N.to_nat prev ≤ length L) by lia. split_and!; try done; try lia.
    eapply same_end; [apply (ni_log _ _ _ _ _ Hn)|apply (ho_lead _ (ri_hist _ _ _ _ HR) _ _ HG)|done|lia|congruence].
Qed.

(** A node that accepted a request. *)
Lemma accepted_node h R q n args n' L :
  RInv h R → req_ok members cfg_of h (w_led (rw_world R)) q args → node_inv h q n L →
  (n_currentTerm n ≤ ae_Term args)%N → (∀ t j, (q, t, j) ∈ h_acks h → (t ≤ ae_Term args)%N) →
  ae_consistent n args = true → service n' → n_role n' = Follower → n_currentTerm n' = ae_Term args →
  n_log n' = ae_log n args → n_commitIndex n' = ae_commit n args (n_log n') →
  n_lastIncludedIndex n' = n_lastIncludedIndex n → n_snapshotData n' = n_snapshotData n →
  (n_pendingSnapshot n' = n_pendingSnapshot n ∨ n_pendingSnapshot n' = None) →
  ∃ G j L', h_lead h !! ae_Term args = Some G ∧ j ≤ length G ∧
    N.to_nat (ae_PrevLogIndex args) + length (ae_Entries args) ≤ j ∧ node_inv (h_store q (ae_Term args) j h) q n' L'.
Proof.
  intros HR [_ _ _ _ _ Hfit (G & HG & Hlen & Hpt & Hes & Hlc & Hcm)] Hn Hle Hacks Hco Hs' Hr' Ht' Hl' Hc' Hi' Hd' Hpn'.
  destruct (accepted_part h R q args n L G HR Hn Hle HG Hlen Hpt Hes Hco) as (k & m & _ & Heq & HkL & HmG & Hj & _ & Htd & Hwh).
  destruct (merge_stores h L G k m) as [_ HstL]; try done; [apply (ni_log _ _ _ _ _ Hn)| |lia|].
  { apply (ho_lead _ (ri_hist _ _ _ _ HR) _ _ HG). }
  exists G, (k + m), (merge L k (take m (drop k G))). split; [done|]. split; [done|]. split; [done|].
  eapply stored_node; try done.
  - rewrite Htd. by apply Forall_drop.
  - by rewrite Hl'.
  - rewrite Hc'. unfold ae_commit. rewrite Hl', (whole_next _ _ Hwh), N.min_l by lia. repeat case_match; reflect_guards; lia.
  - rewrite Hc'. unfold ae_commit. rewrite Hl', (whole_next _ _ Hwh), N.min_l by lia.
    destruct (_ && _); [by left|]. destruct (_ <? _)%N; [right|by left]. split; [lia|done].
  - rewrite Hi', Hd'. apply (ni_data _ _ _ _ _ Hn).
  - destruct Hpn'; auto.
Qed.

(** What a node leaves that did not get through a request. *)
Lemma received_left h R q n args L st :
  RInv h R → req_ok members cfg_of h (w_led (rw_world R)) q args → node_inv h q n L →
  (n_currentTerm n ≤ ae_Term args)%N → (∀ t j, (q, t, j) ∈ h_acks h → (t ≤ ae_Term args)%N) →
  leaves (ae_left n args) st → left_inv h q st.
Proof.
  intros HR [_ _ Ht Hb _ Hfit (G & HG & Hlen & Hpt & Hes & Hlc & Hcm)] Hn Hle Hacks Hl.
  pose proof (ri_hist _ _ _ _ HR) as Hh. pose proof (node_length _ _ _ _ _ Hn). pose proof (node_lii_log _ _ _ _ Hn) as Hfi.
  pose proof (proj1 (proj2 (proj1 (ni_service _ _ _ _ _ Hn)))) as Hw.
  eapply left_intro; [exact Hl|]. intros st' Hld [Hk|(Hco & Et & Es & l & Hsl & Hl')]; [exists L; by eapply kept_store|].
  destruct (accepted_part h R q args n L G HR Hn Hle HG Hlen Hpt Hes Hco) as (k & m & Hkp & Heq & HkL & HmG & _ & Hkm & Htd & _).
  destruct (whole_partly _ _ _ _ _ (pl_whole _ _ _ _ (ni_log _ _ _ _ _ Hn)) (proj1 (ae_pos_range _ _ Hw Hco)) Hl') as (L' & Hpt' & Hwl & Hfl).
  rewrite Hfi, <- Hkp, <- Htd in Hpt'. rewrite Hfi in Hfl.
  assert (Forall entry_fits (take m (drop k G))) as Hfit' by (rewrite Htd; by apply Forall_drop).
  assert (N.to_nat (n_lastIncludedIndex n) ≤ k) as Hik by (rewrite Hkp; unfold ae_pos; lia).
  exists L'. eapply (partly_store members h q n L G (ae_Term args) k m); try done; [lia|by eapply partly_commits|].
  rewrite Hfl, Es. apply (ni_data _ _ _ _ _ Hn).
Qed.

Lemma conflict_bound h q n args L :
  node_inv h q n L → ae_consistent n args = false → ((ae_conflict n args).2 ≤ ae_PrevLogIndex args + 1)%N.
Proof.
  intros Hn. pose proof (proj1 (proj2 (proj1 (ni_service _ _ _ _ _ Hn)))) as Hw.
  unfold ae_consistent, ae_conflict. destruct (N.ltb_spec (ae_PrevLogIndex args) (n_lastIncludedIndex n)); [done|].
  destruct (n_log n !! _) as [e|] eqn:He; cbn; intros _.
  - destruct (decide (Term e = 0%N)) as [E|E]; [unfold firstIndexOfTermLocked; rewrite E; cbn; lia|].
    pose proof (firstIndexOfTerm_le n (Term e) e Hw (list_elem_of_lookup_2 _ _ _ He) eq_refl E) as Hle.
    rewrite (log_lookup_Index _ _ _ (wf_log _ Hw) He), (wf_first _ Hw) in Hle. lia.
  - apply lookup_ge_None in He. unfold next_index. rewrite (wf_first _ Hw). lia.
Qed.

(** What a node acknowledged is of its terms. *)
Lemma acks_bounded h R q n T :
  RInv h R → w_procs (rw_world R) !! q = Some (Up n) → n_failed n = false → (n_currentTerm n ≤ T)%N →
  ∀ t j, (q, t, j) ∈ h_acks h → (t ≤ T)%N.
Proof.
  intros HR Hp Hf Hle t i Hi. destruct (ri_acks _ _ _ _ HR _ _ _ Hi) as (T' & v & Hd & Ht).
  rewrite (hard_term _ _ _ _ HR Hp Hf) in Hd. simplify_eq. lia.
Qed.

(** The cluster when a follower has stored the first [j] entries of a leader. *)
Lemma stored_move h R q n n' T G j L' :
  RInv h R → w_procs (rw_world R) !! q = Some (Up n) → Inv members cfg_of (set_proc q n' (rw_world R)) →
  evolves n n' → n_failed n' = false → n_role n' = Follower → n_currentTerm n' = T →
  h_lead h !! T = Some G → j ≤ length G → node_inv (h_store q T j h) q n' L' →
  RInv (h_store q T j h) (on_world (set_proc q n') R).
Proof.
  intros HR Hp HI1 Hev Hf' Hr' Ht' HG Hj Hn'.
  assert (hard n' = (T, n_votedFor n')) as Hh' by (rewrite <- Ht'; by apply (ev_synced _ _ Hev)).
  eapply (RInv_move members cfg_of h _ R q (hard n)); rewrite ?Hh'; cbn [fst].
  - done.
  - by eapply RInv_durable.
  - done.
  - rewrite <- Hh'. apply Hev.
  - split; [apply h_store_le| |done]. intros q' t i [[= -> -> ->]|?]%elem_of_cons; auto.
  - eapply hist_ok_store; [apply HR|exact HG|done].
  - done.
  - intros t I HIt. by left.
  - intros G' HG'. left. by exists G'.
  - split; [|congruence]. intros _. by exists L'.
  - intros eid el _ _ _ HC. congruence.
Qed.

(** The process part of an accepted or refused AppendEntries. *)
Lemma received_move h R q args n e rep n' :
  RInv h R → (q, args) ∈ rw_requests R → w_procs (rw_world R) !! q = Some (Up n) → n_failed n = false →
  (n_currentTerm n ≤ ae_Term args)%N → handleAppendEntries e args n = Val (inl rep, n') →
  Inv members cfg_of (set_proc q n' (rw_world R)) →
  ∃ h', hist_le h h' ∧ RInv h' (on_world (set_proc q n') R) ∧
    (aer_Term rep < two64)%N ∧ (aer_ConflictIndex rep ≤ ae_PrevLogIndex args + 1)%N ∧
    (aer_Success rep = true → acked h' q (ae_Term args) (N.to_nat (ae_PrevLogIndex args) + length (ae_Entries args))).
Proof.
  intros HR Hin Hp Hf Hle Hrun HI1. pose proof (ri_req _ _ _ _ HR _ _ Hin) as Hreq.
  destruct (RInv_node _ _ _ _ HR Hp Hf) as [L Hn]. pose proof (RInv_synced _ _ _ _ HR Hp) as Hsy.
  pose proof (req_valid _ _ _ _ _ _ HR Hreq Hn Hle) as Hv.
  destruct (append_moves n e args _ n' (ni_service _ _ _ _ _ Hn) Hv (req_not_own _ _ _ _ _ HR Hreq Hp) Hle Hrun)
    as (Hsv & (Hok' & Ht' & -> & Hlii & _ & Hpost) & Hr' & Hm' & Hcfg & Hpe' & Hda').
  pose proof (wp_run _ _ _ _ _ _ (handleAppendEntries_evolves n e args Hsy (av_term _ _ Hv)) Hrun) as Hev.
  pose proof (proj1 Hok') as Hf'. specialize (Hr' Hf').
  unfold ae_reply. destruct (ae_consistent n args) eqn:Hco; cbn.
  - destruct Hpost as [Hl' Hc']. pose proof (acks_bounded _ _ _ _ _ HR Hp Hf Hle) as Hacks.
    destruct (accepted_node h R q n args n' L HR Hreq Hn Hle Hacks Hco (Hsv Hf') Hr' Ht' Hl' Hc' Hlii Hda' Hpe')
      as (G & j & L' & HG & HjG & Hj & Hn').
    exists (h_store q (ae_Term args) j h). split; [apply h_store_le|].
    split; [|split; [apply Hv|split; [lia|intros _; exists j; split; [done|by left]]]].
    by eapply (stored_move _ _ _ _ _ _ G).
  - destruct Hpost as [Hl' Hc']. exists h. split; [done|].
    split; [|split; [apply Hv|split; [by eapply conflict_bound|done]]].
    eapply stay_rests; [done|done|done|apply Hev| |by apply leaves_enabled]. intros _. split; [done|]. split; [done|].
    split; try done; [lia|]. split; [done|by left|done|done].
Qed.

Lemma append_case h R q args n e r n' :
  RInv h R → (q, args) ∈ rw_requests R → w_procs (rw_world R) !! q = Some (Up n) →
  handleAppendEntries e args n = Val (r, n') →
  preserved h (add_answer q args r (on_world (set_proc q n') R)).
Proof.
  intros HR Hin Hp Hrun. pose proof (ri_inv _ _ _ _ HR) as HI. pose proof (ri_req _ _ _ _ HR _ _ Hin) as Hreq.
  pose proof (RInv_synced _ _ _ _ HR Hp) as Hsy. pose proof (rq_term _ _ _ _ _ _ Hreq) as Ht.
  pose proof (wp_run _ _ _ _ _ _ (handleAppendEntries_evolves n e args Hsy Ht) Hrun) as Hev.
  pose proof (Inv_evolves _ cfg_of _ _ _ _ HI Hp Hev) as HI1.
  pose proof (note_lead_incl q n' (w_led (rw_world R))) as Hled.
  destruct (n_failed n) eqn:Hf.
  { rewrite (failed_append n Hf) in Hrun. injection Hrun as <- <-. apply preserved_same. by apply stay_failed. }
  destruct (decide (ae_Term args < n_currentTerm n)%N) as [Hst|Hle].
  - rewrite (append_stale n e args Hf Hst) in Hrun. injection Hrun as <- <-. apply preserved_same.
    destruct (RInv_node _ _ _ _ HR Hp Hf) as [L Hn].
    apply RInv_add_answer.
    + eapply stay_rests; [done..|apply Hev| |by apply leaves_enabled]. intros _. split; [done|].
      split; [apply service_serving, (ni_service _ _ _ _ _ Hn)|apply rests_refl].
    + intros rep [= <-]. split; cbn; [by eapply req_ok_mono| |done|lia].
      apply (wf_term _ (proj1 (proj2 (proj1 (ni_service _ _ _ _ _ Hn))))).
  - destruct r as [rep|err].
    + destruct (received_move _ _ _ _ _ _ _ _ HR Hin Hp Hf ltac:(lia) Hrun HI1) as (h' & Hhle & HR1 & H1' & H2' & H3').
      exists h'. split; [done|]. apply RInv_add_answer; [done|]. intros rep' [= <-].
      split; [by eapply req_ok_mono|done|done|done].
    + apply preserved_same. cbn. destruct (RInv_node _ _ _ _ HR Hp Hf) as [L Hn].
      pose proof (req_valid _ _ _ _ _ _ HR Hreq Hn ltac:(lia)) as Hv. eapply stay_left; [done..|apply Hev| |].
      * intros Hf'. destruct (append_moves n e args _ n' (ni_service _ _ _ _ _ Hn) Hv
          (req_not_own _ _ _ _ _ HR Hreq Hp) ltac:(lia) Hrun) as (_ & Hpost & _). cbn in Hpost. congruence.
      * intros Hf'. eapply received_left; [done..|lia|eapply acks_bounded; [done..|lia]|].
        by apply (wp_run _ _ _ _ _ _ (handleAppendEntries_fault n e args (proj1 (ni_service _ _ _ _ _ Hn)) Hv) Hrun).
Qed.

(** ** Acknowledgements *)
Lemma progressed_node h p n q m n1 L :
  node_inv h p n L → n_role n = Leader → progressed n q m n1 → service n1 →
  acked h q (n_currentTerm n) (N.to_nat m) → node_inv h p n1 L.
Proof.
  intros [Hs Hlog Hc Hl Hca Hk Hda Hpe] HL [[] Hr Hm Hpk] Hs1 Hack.
  split; rewrite ?li_term, ?li_log, ?li_commit, ?li_lii, ?li_data, ?Hr; try done.
  - intros _. destruct (Hl HL) as (HG & Hown & Hmt). split; [done|]. split; [done|].
    intros q' Hq'. destruct (Hm q') as [E|[-> E]]; rewrite E in *; [by apply Hmt|done].
  - eapply (pending_ok_next n); [by left|by rewrite li_commit|done|done].
Qed.

(** The leader after counting an acknowledgement. *)
Lemma counted_ack h R p q n m n1 n' :
  RInv h R → w_procs (rw_world R) !! p = Some (Up n) → n_failed n = false → n_role n = Leader →
  Inv members cfg_of (set_proc p n' (rw_world R)) → evolves n n' →
  acked h q (n_currentTerm n) (N.to_nat m) → progressed n q m n1 → service n1 → commit_outcome n1 n' →
  RInv h (on_world (set_proc p n') R).
Proof.
  intros HR Hp Hf HL HI1 Hev Hack Hpg Hs1 Hco. destruct (RInv_node _ _ _ _ HR Hp Hf) as [L Hn].
  pose proof (progressed_node _ _ _ _ _ _ _ Hn HL Hpg Hs1 Hack) as Hn1.
  pose proof Hpg as [Hli Hr1 _ _]. pose proof (inv_up _ _ _ (ri_inv _ _ _ _ HR) _ _ Hp) as (Hm & _ & Hid & Hpe).
  assert (node_of members cfg_of p n1) as Hof1.
  { split; [done|]. split; [apply node_ok_synced, Hs1|]. unfold n_id, n_peers in *. by rewrite (li_cfg _ _ Hli). }
  assert (n_failed n' = false) as Hf'.
  { rewrite <- (proj1 (proj1 Hs1)). destruct Hco as [(_ & i & _ & _ & ->)|[_ ->]]; done. }
  eapply RInv_stay; [done|by eapply RInv_durable|done|apply Hev| |].
  - split; [|congruence]. intros _. exists L. by eapply commit_node.
  - intros eid el _ _ _ HC. exfalso. revert HC.
    destruct Hco as [(_ & i & _ & _ & ->)|[_ ->]]; cbn; rewrite Hr1, HL; done.
Qed.

Lemma answer_valid h R q args rep n :
  RInv h R → ans_ok members cfg_of h (w_led (rw_world R)) q args rep →
  w_procs (rw_world R) !! ae_LeaderID args = Some (Up n) → n_failed n = false →
  reply_valid n (ae_Term args) args rep.
Proof.
  intros HR [Hreq Ht Hs Hc] Hp Hf. destruct (RInv_node _ _ _ _ HR Hp Hf) as [L Hn].
  destruct (node_bounds _ _ _ _ _ Hn) as [Hnx _].
  assert (not_leading n (ae_Term args) = false →
    (ae_PrevLogIndex args + N.of_nat (length (ae_Entries args)) < next_index (n_log n))%N) as Hsent.
  { intros (_ & HL & Hte)%not_leading_false. destruct (rq_log _ _ _ _ _ _ Hreq) as (G & HG & Hlen & _).
    destruct (ni_lead _ _ _ _ _ Hn HL) as (HG2 & _). rewrite Hte in HG2. simplify_eq. lia. }
  split; [done|done|]. intros Hnl Hsu. specialize (Hc Hsu). specialize (Hsent Hnl). lia.
Qed.

Lemma answer_case h R q args rep n n' :
  RInv h R → (q, args, rep) ∈ rw_answers R → w_procs (rw_world R) !! ae_LeaderID args = Some (Up n) →
  onAppendReply q (ae_Term args) args rep n = Val ((), n') →
  RInv h (on_world (set_proc (ae_LeaderID args) n') R).
Proof.
  intros HR Hin Hp Hrun. pose proof (ri_inv _ _ _ _ HR) as HI. pose proof (ri_ans _ _ _ _ HR _ _ _ Hin) as Hans.
  pose proof (RInv_synced _ _ _ _ HR Hp) as Hsy. set (p := ae_LeaderID args) in *.
  pose proof (wp_run _ _ _ _ _ _ (onAppendReply_evolves n q (ae_Term args) args rep Hsy (as_term _ _ _ _ _ _ _ Hans)) Hrun) as Hev.
  pose proof (Inv_evolves _ cfg_of _ _ _ _ HI Hp Hev) as HI1.
  destruct (n_failed n) eqn:Hf.
  { rewrite (failed_append_reply n Hf) in Hrun. injection Hrun as <-. by apply stay_failed. }
  destruct (RInv_node _ _ _ _ HR Hp Hf) as [L Hn].
  destruct (appendReply_moves n q args rep n' (ni_service _ _ _ _ _ Hn) (answer_valid _ _ _ _ _ _ HR Hans Hp Hf) Hrun)
    as (Hsv & [Hre|(Hnl & Hsu & n1 & Hpg & Hs1 & Hco)]).
  { eapply stay_rests; [done..|apply Hev|auto|]. apply leaves_faulty; [done|].
    by apply (wp_run _ _ _ _ _ _ (onAppendReply_fault n q _ args rep (proj1 (ni_service _ _ _ _ _ Hn))
      (as_term _ _ _ _ _ _ _ Hans)) Hrun). }
  apply not_leading_false in Hnl as (_ & HL & Ht).
  pose proof (as_success _ _ _ _ _ _ _ Hans Hsu) as Hack. rewrite <- Ht in Hack.
  eapply counted_ack; [done..| |done|done|done].
  by replace (N.to_nat _) with (N.to_nat (ae_PrevLogIndex args) + length (ae_Entries args)) by lia.
Qed.

(** ** Compaction *)
Lemma log_end_same n n' args L :
  whole (n_log n) L → whole (n_log n') L → log_end n args → log_end n' args.
Proof.
  intros Hw Hw' [E1 E2]. unfold log_end. rewrite (whole_last _ _ Hw'), (whole_next _ _ Hw').
  by rewrite E1, E2, (whole_last _ _ Hw), (whole_next _ _ Hw).
Qed.

Lemma cut_node h p n i n' L :
  node_inv h p n L → cuts n i n' → service n' → snapshot_fits (n_snapshotData n') → node_inv h p n' L.
Proof.
  intros [Hs Hlog Hc Hl Hca Hk Hda Hpe] [Hi (e & He & Hcut) Hr Hm Hpn] Hs' Hfit.
  pose proof (proj1 (proj2 (proj1 Hs))) as Hw. destruct Hcut.
  pose proof (log_lookup_Index _ _ _ (wf_log _ Hw) He) as Hix.
  split; rewrite ?cut_term, ?cut_commit, ?Hr, ?Hm; try done.
  - destruct Hlog as [Hwh ???]. split; try done. eapply whole_same; [done|apply log_ne, Hs'|].
    eapply whole_cut; [done|done|lia].
  - rewrite N.max_l; [done|]. pose proof (wf_committed _ Hw). lia.
  - eapply (pending_ok_next n); [by left|lia|done|done].
Qed.

Lemma snapshot_case h R p n i data n' :
  RInv h R → w_procs (rw_world R) !! p = Some (Up n) → snapshot_fits data →
  run_op (OpSnapshot i data) n = Val ((), n') → RInv h (on_world (set_proc p n') R).
Proof.
  intros HR Hp Hfit Hrun. pose proof (ri_inv _ _ _ _ HR) as HI. pose proof (RInv_synced _ _ _ _ HR Hp) as Hsy.
  assert (evolves n n') as Hev by (by eapply run_op_evolves; [|done|done]).
  pose proof (Inv_evolves _ cfg_of _ _ _ _ HI Hp Hev) as HI1.
  destruct (n_failed n) eqn:Hf.
  { apply discard_run in Hrun as [r Hrun]. rewrite (failed_snapshot n Hf) in Hrun. injection Hrun as _ <-.
    by apply stay_failed. }
  destruct (RInv_node _ _ _ _ HR Hp Hf) as [L Hn].
  destruct (Snapshot_moves n i data n' (ni_service _ _ _ _ _ Hn) Hfit Hrun) as [Hsv Hm].
  eapply RInv_stay; [done|by eapply RInv_durable|done|apply Hev| |].
  - split; intros Hf'.
    + exists L. destruct (Hm Hf') as [->|[Hcut <-]]; [done|]. eapply cut_node; [done|done| |done]. by apply Hsv.
    + apply discard_run in Hrun as [r Hrun]. eapply compaction_left; [apply HR|exact Hn|exact Hfit|].
      by apply (wp_run _ _ _ _ _ _ (Snapshot_fault n i data (proj1 (ni_service _ _ _ _ _ Hn)) Hfit) Hrun).
  - intros eid el Hel Hc Hf' HC Ht. pose proof (ei_log _ _ _ _ _ (ri_el _ _ _ _ HR _ _ Hel) n) as Hle.
    rewrite Hc in Hle. destruct (Hm Hf') as [->|[Hcut <-]]; [by apply Hle|].
    pose proof (cut_node _ _ _ _ _ _ Hn Hcut (Hsv Hf') Hfit) as Hn'. destruct Hcut as [_ (e & _ & []) Hr _ _].
    eapply log_end_same; [apply (ni_log _ _ _ _ _ Hn)|apply (ni_log _ _ _ _ _ Hn')|]. apply Hle; congruence.
Qed.

(** ** Installing a snapshot *)

(** What the node's log is the end of, when it has installed the snapshot. *)
Lemma installed_whole h R q n args log L G :
  let i := N.to_nat (is_LastIncludedIndex args) in
  RInv h R → node_inv h q n L → is_valid n args → h_lead h !! is_Term args = Some G → i ≤ length G →
  is_LastIncludedTerm args = last_term (take i G) → (n_lastIncludedIndex n < is_LastIncludedIndex args)%N →
  log ≠ [] → first_index log = is_LastIncludedIndex args → first_term log = is_LastIncludedTerm args →
  tail log = drop (Datatypes.S (N.to_nat (is_LastIncludedIndex args - n_lastIncludedIndex n))) (n_log n) →
  whole log (merge L 0 (take i (drop 0 G))).
Proof.
  intros i HR Hn Hv HG HiG Hlt Hi Hne Elii Elit Etl.
  pose proof (proj1 (proj2 (proj1 (ni_service _ _ _ _ _ Hn)))) as Hw. destruct (node_bounds _ _ _ _ _ Hn) as [Hnx _].
  pose proof (pl_whole _ _ _ _ (ni_log _ _ _ _ _ Hn)) as Hwh.
  pose proof (pl_cons _ _ _ _ (ni_log _ _ _ _ _ Hn)) as HLc.
  pose proof (lo_consistent _ _ _ (ho_lead _ (ri_hist _ _ _ _ HR) _ _ HG)) as HGc.
  set (k := N.to_nat (is_LastIncludedIndex args - n_lastIncludedIndex n)) in *.
  destruct (n_log n !! k) as [e|] eqn:He.
  - pose proof (log_lookup_Index _ _ _ (wf_log _ Hw) He) as Hix. pose proof (wf_first _ Hw) as Hfi.
    assert (Term e = is_LastIncludedTerm args) as Hte.
    { apply (iv_agrees _ _ Hv); [by eapply list_elem_of_lookup_2|lia]. }
    pose proof (lookup_lt_Some _ _ _ He) as Hk. unfold next_index in Hnx.
    pose proof (whole_term _ _ _ _ Hwh He) as Hwt. replace (N.to_nat (first_index (n_log n)) + k) with i in Hwt by lia.
    assert (take i L = take i G) as Heq by (eapply same_end; [exact HLc|exact HGc|lia|lia|congruence]).
    rewrite (merge_agreed h) by (done || lia).
    eapply whole_same; [|done|eapply whole_cut; [done|exact He|lia]].
    rewrite (drop_S _ _ _ He). split; [rewrite Elii; cbn; lia|].
    split; [rewrite Elit; cbn; congruence|]. by rewrite Etl.
  - apply lookup_ge_None in He. unfold next_index in Hnx. rewrite (wf_first _ Hw) in Hnx.
    destruct (merge_lead h L G 0 i) as [[_ Htk]|[-> _]]; try done; try lia.
    { apply (f_equal length) in Htk. rewrite !length_take in Htk. lia. }
    eapply whole_same; [|done|by apply whole_boundary]. split; [done|].
    split; [rewrite Elit; exact Hlt|]. by rewrite Etl, drop_ge by lia.
Qed.

Lemma installed_node h R q n args n' L :
  RInv h R → snap_ok members cfg_of h (w_led (rw_world R)) q args → node_inv h q n L → is_valid n args →
  (n_currentTerm n ≤ is_Term args)%N → (∀ t j, (q, t, j) ∈ h_acks h → (t ≤ is_Term args)%N) →
  service n' → n_role n' = Follower → n_currentTerm n' = is_Term args →
  (if decide (is_LastIncludedIndex args ≤ n_lastIncludedIndex n)%N then core_frame n n' else installed n args n') →
  ∃ G L', h_lead h !! is_Term args = Some G ∧ N.to_nat (is_LastIncludedIndex args) ≤ length G ∧
    node_inv (h_store q (is_Term args) (N.to_nat (is_LastIncludedIndex args)) h) q n' L'.
Proof.
  intros HR [_ _ _ _ _ Hda (G & HG & Hlen & Hlt & Hcm & Hfit)] Hn Hv Hle Hacks Hs' Hr' Ht' Hpost.
  set (i := N.to_nat (is_LastIncludedIndex args)) in *. destruct (node_bounds _ _ _ _ _ Hn) as [_ Hcb].
  exists G, (merge L 0 (take i (drop 0 G))). split; [done|]. split; [done|].
  eapply (stored_node h R q n _ G 0 i); try done; [lia|..].
  - case_decide as Hi.
    + destruct (committed_with_leader h R q n L _ G i HR Hn Hle HG) as (E & ? & _); [lia|].
      rewrite (merge_agreed h); try done; try lia; [|apply (ni_log _ _ _ _ _ Hn)|apply (ho_lead _ (ri_hist _ _ _ _ HR) _ _ HG)].
      rewrite (cf_log _ _ Hpost). apply (ni_log _ _ _ _ _ Hn).
    + pose proof (proj1 (proj2 (proj1 Hs'))) as Hw'. destruct Hpost.
      eapply installed_whole; try done; [lia|by apply log_ne, Hw'|rewrite (wf_first _ Hw'); done|rewrite (wf_bterm _ Hw'); done].
  - case_decide; [by rewrite (cf_commit _ _ Hpost)|]. rewrite (ins_commit _ _ _ Hpost). lia.
  - case_decide; [left; apply Hpost|]. rewrite (ins_commit _ _ _ Hpost).
    destruct (N.max_spec (n_commitIndex n) (is_LastIncludedIndex args)) as [[_ ->]|[_ ->]]; [right|by left].
    split; [lia|done].
  - case_decide as Hi; [rewrite (cf_lii _ _ Hpost), (cf_snap _ _ Hpost); apply (ni_data _ _ _ _ _ Hn)|].
    by rewrite (ins_lii _ _ _ Hpost), (ins_data _ _ _ Hpost).
  - case_decide; [left; apply Hpost|right; right]. exists (is_Data args), (is_LastIncludedIndex args).
    fold i. rewrite <- Hlt, (ins_commit _ _ _ Hpost). split; [apply Hpost|]. split; lia.
Qed.

(** What a node leaves that did not get through the installation. *)
Lemma installed_left h R q n args L st :
  RInv h R → snap_ok members cfg_of h (w_led (rw_world R)) q args → node_inv h q n L → is_valid n args →
  (n_currentTerm n ≤ is_Term args)%N → (∀ t j, (q, t, j) ∈ h_acks h → (t ≤ is_Term args)%N) →
  leaves (λ ps, kept n ps ∨ ((n_lastIncludedIndex n < is_LastIncludedIndex args)%N ∧ CurrentTerm ps = is_Term args ∧
    snapshotted n (is_LastIncludedIndex args) (is_LastIncludedTerm args) (is_Data args) ps)) st → left_inv h q st.
Proof.
  intros HR [_ _ Ht _ Hlii Hda (G & HG & Hlen & Hlt & Hcm & Hfit)] Hn Hv Hle Hacks Hl.
  pose proof (ri_hist _ _ _ _ HR) as Hh. pose proof (proj1 (proj2 (proj1 (ni_service _ _ _ _ _ Hn)))) as Hw.
  eapply left_intro; [exact Hl|]. intros st' Hld [Hk|(Hi & Et & Es & l & Hsl & El)]; [exists L; by eapply kept_store|].
  set (i := N.to_nat (is_LastIncludedIndex args)) in *. set (log := Log (view st')) in *.
  assert (whole log (merge L 0 (take i (drop 0 G)))) as Hwh.
  { eapply installed_whole; try done; rewrite El; [done..|]. cbn [tail boundary].
    destruct Hsl as (_ & _ & Htl). rewrite Nat.add_1_r.
    destruct l as [|a l], (n_log n) as [|b l'] eqn:En; cbn [tail drop] in *; subst; try done; by rewrite drop_nil. }
  destruct (merge_stores h L G 0 i) as [Htk Hll]; try done; try lia; [apply (ni_log _ _ _ _ _ Hn)|apply (ho_lead _ Hh _ _ HG)|].
  exists (merge L 0 (take i (drop 0 G))).
  eapply (partly_store members h q n L G (is_Term args) 0 i) with (l := log); try done; try lia.
  - exists i. left. by rewrite take_take, Nat.min_id.
  - rewrite El. cbn [first_index boundary Index]. fold i. eapply commits_mono; [done|reflexivity|exact Hll|exact Htk|exact Hcm].
  - rewrite El, Es. exact Hda.
Qed.

Lemma install_case h R q args n e r n' :
  RInv h R → (q, args) ∈ rw_snapshots R → w_procs (rw_world R) !! q = Some (Up n) → installable n args →
  handleInstallSnapshot e args n = Val (r, n') →
  preserved h (add_install q args r (on_world (set_proc q n') R)).
Proof.
  intros HR Hin Hp Hinst Hrun. pose proof (ri_inv _ _ _ _ HR) as HI. pose proof (ri_snap _ _ _ _ HR _ _ Hin) as Hsq.
  pose proof (RInv_synced _ _ _ _ HR Hp) as Hsy. pose proof (sq_term _ _ _ _ _ _ Hsq) as Ht.
  pose proof (wp_run _ _ _ _ _ _ (handleInstallSnapshot_evolves n e args Hsy Ht) Hrun) as Hev.
  pose proof (Inv_evolves _ cfg_of _ _ _ _ HI Hp Hev) as HI1.
  pose proof (note_lead_incl q n' (w_led (rw_world R))) as Hled.
  destruct (n_failed n) eqn:Hf.
  { rewrite (failed_install n Hf) in Hrun. injection Hrun as <- <-. apply preserved_same. by apply stay_failed. }
  destruct (RInv_node _ _ _ _ HR Hp Hf) as [L Hn]. pose proof (ni_service _ _ _ _ _ Hn) as Hsn.
  destruct (decide (is_Term args < n_currentTerm n)%N) as [Hst|Hle].
  { rewrite (install_stale n e args Hf Hst) in Hrun. injection Hrun as <- <-. apply preserved_same.
    apply RInv_add_install.
    - eapply stay_rests; [done..|apply Hev| |by apply leaves_enabled]. intros _. split; [done|].
      split; [by apply service_serving|apply rests_refl].
    - intros rep [= <-]. split; cbn; [by eapply snap_ok_mono|apply (wf_term _ (proj1 (proj2 (proj1 Hsn))))|lia]. }
  pose proof (snap_valid _ _ _ _ _ _ HR Hsq Hn ltac:(lia) Hinst) as Hv.
  destruct (install_moves n e args r n' Hsn Hv (snap_not_own _ _ _ _ _ HR Hsq Hp) ltac:(lia) Hrun) as (Hsv & Hr' & Hpost).
  destruct r as [rep|err].
  - destruct Hpost as (-> & Ht' & Hok' & Hpost). pose proof (proj1 Hok') as Hf'.
    pose proof (acks_bounded _ _ _ _ (is_Term args) HR Hp Hf ltac:(lia)) as Hacks.
    destruct (installed_node h R q n args n' L HR Hsq Hn Hv ltac:(lia) Hacks (Hsv Hf') (Hr' Hf') Ht' Hpost)
      as (G & L' & HG & HiG & Hn').
    eexists. split; [apply h_store_le|]. apply RInv_add_install.
    + by eapply (stored_move _ _ _ _ _ _ G); [..|exact Hn']; auto.
    + intros rep [= <-]. split; cbn; [eapply snap_ok_mono; [apply h_store_le|done|done]|done|].
      intros _. eexists. split; [|by left]. done.
  - apply preserved_same. cbn. eapply stay_left; [done..|apply Hev|congruence|]. intros Hf'.
    eapply installed_left; [done..|lia|eapply acks_bounded; [done..|lia]|].
    by apply (wp_run _ _ _ _ _ _ (handleInstallSnapshot_fault n e args (proj1 Hsn) Hv) Hrun).
Qed.

(** The leader's log reaches at least as far as its snapshots. *)
Lemma snap_sent h R q args p n L :
  snap_ok members cfg_of h (w_led (rw_world R)) q args → node_inv h p n L →
  not_leading n (is_Term args) = false → (is_LastIncludedIndex args < next_index (n_log n))%N.
Proof.
  intros Hsq Hn (_ & HL & Hte)%not_leading_false. destruct (node_bounds _ _ _ _ _ Hn) as [Hnx _].
  destruct (sq_log _ _ _ _ _ _ Hsq) as (G & HG & Hlen & _).
  destruct (ni_lead _ _ _ _ _ Hn HL) as (HG2 & _). rewrite Hte in HG2. simplify_eq. lia.
Qed.

Lemma installed_case h R q args rep n n' :
  RInv h R → (q, args, rep) ∈ rw_installs R → w_procs (rw_world R) !! is_LeaderID args = Some (Up n) →
  onSnapshotReply q (is_Term args) args rep n = Val ((), n') →
  RInv h (on_world (set_proc (is_LeaderID args) n') R).
Proof.
  intros HR Hin Hp Hrun. pose proof (ri_inv _ _ _ _ HR) as HI. destruct (ri_inst _ _ _ _ HR _ _ _ Hin) as [Hsq Hrt Hack].
  pose proof (RInv_synced _ _ _ _ HR Hp) as Hsy. set (p := is_LeaderID args) in *.
  pose proof (wp_run _ _ _ _ _ _ (onSnapshotReply_evolves n q (is_Term args) args rep Hsy Hrt) Hrun) as Hev.
  pose proof (Inv_evolves _ cfg_of _ _ _ _ HI Hp Hev) as HI1.
  destruct (n_failed n) eqn:Hf.
  { rewrite (failed_snapshot_reply n Hf) in Hrun. injection Hrun as <-. by apply stay_failed. }
  destruct (RInv_node _ _ _ _ HR Hp Hf) as [L Hn]. pose proof (snap_sent _ _ _ _ _ _ _ Hsq Hn) as Hsent.
  destruct (snapshotReply_moves n q args rep n' (ni_service _ _ _ _ _ Hn) Hrt Hsent Hrun)
    as (Hsv & [Hre|(Hnl & Hle & n1 & Hpg & Hs1 & Hco)]).
  { eapply stay_rests; [done..|apply Hev|auto|]. apply leaves_faulty; [done|].
    by apply (wp_run _ _ _ _ _ _ (onSnapshotReply_fault n q _ args rep (proj1 (ni_service _ _ _ _ _ Hn)) Hrt) Hrun). }
  apply not_leading_false in Hnl as (_ & HL & Ht). rewrite Ht in Hle. specialize (Hack Hle). rewrite <- Ht in Hack.
  by eapply counted_ack.
Qed.

(** ** Every step *)
Lemma RInv_event h R ev w' :
  RInv h R → event_ok cfg_of (rw_world R) ev → exec cfg_of ev (rw_world R) = Some w' →
  preserved h (on_world (λ _, w') R).
Proof.
  intros HR Hok. destruct ev as [p op|p e|eid|eid p e|eid p rep|p|p e]; cbn.
  - intros (n & Hn%up_node_Some & ([[] n'] & Hr & [= <-])%run_some_Some)%bind_Some.
    destruct op as [?[]|cmd|i data| | | | | |]; try done;
      [| |refine (preserved_same _ _ (quiet_case _ _ _ n _ _ HR Hn _ Hr)); exact I..].
    + destruct (Hok n Hn). by eapply propose_case.
    + apply preserved_same. by eapply snapshot_case.
  - intros (n & Hn%up_node_Some & Hif)%bind_Some. case_match; [|done]. reflect_guards. apply preserved_same.
    apply run_some_Some in Hif as ([[[term args]|] n'] & Hr & [= <-]);
      [by eapply campaign_case|by eapply campaign_disabled_case].
  - intros (el & Hel & (n & Hn%up_node_Some & ([[] n'] & Hr & [= <-])%run_some_Some)%bind_Some)%bind_Some.
    eapply solo_case; try done. by eapply Hok.
  - intros (el & Hel & (n & Hn%up_node_Some & ([[rep|err] n'] & Hr & [= <-])%run_some_Some)%bind_Some)%bind_Some;
      apply preserved_same; [by eapply vote_case|by eapply vote_error_case].
  - intros (el & Hel & (n & Hn%up_node_Some & Hif)%bind_Some)%bind_Some. case_match; [|done].
    reflect_guards. apply run_some_Some in Hif as ([v n'] & Hr & [= <-]). by eapply vote_reply_case.
  - intros (n & Hn%up_node_Some & [= <-])%bind_Some. apply preserved_same. eapply crash_case; [done..|]. by apply Hok.
  - intros (st & Hst%down_storage_Some & ([r st'] & Hr & [= <-])%run_some_Some)%bind_Some.
    destruct (Hok st Hst) as (n & st2 & Hn). rewrite Hn in Hr. injection Hr as <- <-.
    apply preserved_same. by eapply restart_case.
Qed.

Lemma RInv_step h R R' : RInv h R → rstep cfg_of R R' → preserved h R'.
Proof.
  intros HR. destruct 1.
  - by eapply RInv_event.
  - apply preserved_same. by eapply send_case.
  - by eapply append_case.
  - apply preserved_same. by eapply answer_case.
  - apply preserved_same. by eapply send_snapshot_case.
  - by eapply install_case.
  - apply preserved_same. by eapply installed_case.
  - apply preserved_same. by eapply reopen_case.
Qed.

Definition no_history : Hist := MkHist ∅ ∅ [].

Lemma RInv_initial R : rinitial members R → RInv no_history R.
Proof.
  intros (Hi & Hrq & Han & Hsn & Hin & Hst). pose proof Hi as (Hel & Hrep & Hv & Hl & Hp).
  split; rewrite ?Hrq, ?Han, ?Hsn, ?Hin.
  - by apply Inv_initial.
  - split; cbn; [intros ?? ?; by simplify_map_eq..|]. by intros ??? ?%not_elem_of_nil.
  - intros ?? ?; cbn in *; by simplify_map_eq.
  - intros ?? ?; cbn in *; by simplify_map_eq.
  - by intros ??? ?%not_elem_of_nil.
  - intros p pr Hpr. destruct (Hp _ _ Hpr) as (_ & st & -> & _). destruct (Hst _ _ Hpr) as [Hok Hview].
    exists []. split; rewrite ?Hview; cbn; try done; [by apply loads_ok| |..].
    + by repeat constructor.
    + split; cbn; [by apply (whole_uncompacted [boundary 0 0])|apply consistent_nil|by intros ? ?%not_elem_of_nil|by constructor].
    + by left.
  - rewrite Hel. intros ?? ?. by simplify_map_eq.
  - rewrite Hrep. by intros ???? ?%not_elem_of_nil.
  - by intros ?? ?%not_elem_of_nil.
  - by intros ??? ?%not_elem_of_nil.
  - by intros ?? ?%not_elem_of_nil.
  - by intros ??? ?%not_elem_of_nil.
Qed.

Lemma RInv_reachable R : rreachable members cfg_of R → ∃ h, RInv h R.
Proof.
  induction 1 as [R Hi|R R' _ [h HR] Hst]; [by exists no_history; apply RInv_initial|].
  destruct (RInv_step _ _ _ HR Hst) as (h' & _ & HR'). by exists h'.
Qed.

Lemma RInv_later h R R' : RInv h R → rtc (rstep cfg_of) R R' → preserved h R'.
Proof.
  intros HR Hst. revert h HR. induction Hst as [R|R R1 R2 Hs _ IH]; intros h HR; [by apply preserved_same|].
  destruct (RInv_step _ _ _ HR Hs) as (h1 & Hle1 & HR1). destruct (IH _ HR1) as (h2 & Hle2 & HR2).
  exists h2. split; [|done]. by eapply hist_le_trans.
Qed.
End Safety.
