(* ===== verification/RaftOrigins.v ===== *)
(** * Where log entries and snapshots come from, and who moves lastApplied

    Across a step of RaftReplication's cluster other than a proposal, a turn of
    an apply loop, a snapshot taken or installed, a crash or a restart, an
    enabled node was enabled before, has the same [lastApplied] and the same
    snapshot, and logs only entries it had or was sent; a node that the step
    disables leaves that snapshot and such entries.  The data of every
    snapshot was handed to a node by its application. *)
From S2P Require Import Prelude RaftTypes RaftNode RaftVotes RaftCluster RaftElection RaftLog RaftReplicate RaftFaults RaftService RaftHistory RaftCompaction RaftReplication RaftMoves RaftInvariant RaftRestart RaftSafety.

(** The events that are neither calls of the application, deliveries to it,
    crashes nor restarts ... *)
Definition raft_event {S} (ev : REvent S) : bool :=
  match ev with
  | REvent_base (EvLocal _ (OpTick _ | OpTrigger _)) => true
  | REvent_base (EvLocal _ _ | EvCrash _ | EvRestart _ _) | REvent_reopen _ _ => false
  | _ => true
  end.

(** ... and those among them that install no snapshot. *)
Definition installs_none {S} (ev : REvent S) : bool :=
  match ev with REvent_install _ _ _ => false | _ => true end.

Section Origins.
Context {S : Type} `{StorageSpec S}.
Implicit Types (n : Node S) (w : World S) (R : RWorld S).

(** The storage that [p] left behind, or would leave if it died now that it is
    disabled. *)
Definition found R (p : NodeID) (st : S) : Prop :=
  w_procs (rw_world R) !! p = Some (Down st) ∨
  ∃ n, w_procs (rw_world R) !! p = Some (Up n) ∧ n_failed n = true ∧ reopened (n_storage n) st.

(** ** What the apply loop goes by

    How far it is, the snapshot that waits for it and the one the log starts
    with. *)
Definition delivery n : N * option ApplyMsg * N * bytes :=
  (n_lastApplied n, n_pendingSnapshot n, n_lastIncludedIndex n, n_snapshotData n).

Definition same_applied n n' : Prop := delivery n' = delivery n.

Lemma same_applied_inv n n' :
  same_applied n n' → n_lastApplied n' = n_lastApplied n ∧ n_pendingSnapshot n' = n_pendingSnapshot n ∧
    n_lastIncludedIndex n' = n_lastIncludedIndex n ∧ n_snapshotData n' = n_snapshotData n.
Proof. unfold same_applied, delivery. by intros [= -> -> -> ->]. Qed.

Lemma same_applied_eq n n' :
  n_lastApplied n' = n_lastApplied n → n_pendingSnapshot n' = n_pendingSnapshot n →
  n_lastIncludedIndex n' = n_lastIncludedIndex n → n_snapshotData n' = n_snapshotData n → same_applied n n'.
Proof. unfold same_applied, delivery. congruence. Qed.

Lemma same_applied_trans n1 n2 n3 : same_applied n1 n2 → same_applied n2 n3 → same_applied n1 n3.
Proof. unfold same_applied. congruence. Qed.

Lemma core_applied n n' : core_frame n n' → same_applied n n'.
Proof. intros []. by apply same_applied_eq. Qed.

Lemma log_frame_applied n n' : log_frame n n' → same_applied n n'.
Proof. intros []. by apply same_applied_eq. Qed.

Lemma applied_storage {A} (m : GoM S A) n0 n (k : A → GoM (Node S) ()) :
  same_applied n0 n → (∀ a n', same_applied n0 n' → wp True (k a) (λ _ n', same_applied n0 n') n') →
  wp True (storage_call m ≫= k) (λ _ n', same_applied n0 n') n.
Proof.
  intros Hs Hk. unfold storage_call. do 2 wp_step. eapply wp_mono; [|apply wp_any].
  cbn. intros a s' _. by apply Hk.
Qed.

Lemma applied_follower n0 n t : same_applied n0 n → wp True (becomeFollowerLocked t) (λ _ n', same_applied n0 n') n.
Proof.
  intros Hs. unfold becomeFollowerLocked, saveHardStateLocked. do 4 wp_step. wp_step; [|done].
  do 4 wp_step. apply applied_storage; [done|]. intros [err|] n' Hn'; unfold disableLocked; by repeat wp_step.
Qed.

Lemma applied_leader n : wp True becomeLeaderLocked (λ _ n', same_applied n n') n.
Proof. eapply wp_mono; [|apply becomeLeader_takes_office]. intros _ n' [[] _ _ ?]. by apply same_applied_eq. Qed.

Lemma applied_vote_reply n t v r : wp True (onRequestVoteReply t v r) (λ _ n', same_applied n n') n.
Proof.
  unfold onRequestVoteReply. do 3 wp_step; [by wp_step|]. wp_step.
  - wp_step. eapply wp_mono; [|by apply applied_follower]. cbn. intros. by wp_step.
  - wp_step; [by wp_step|]. wp_step. eapply (wp_mono _ _ (λ _ n', same_applied n n')).
    + cbn. intros. by wp_step.
    + wp_step; [apply applied_leader|by wp_step].
Qed.

Lemma applied_solo n t : wp True (startElection_solo t) (λ _ n', same_applied n n') n.
Proof. unfold startElection_solo. do 3 wp_step; [|by wp_step]. wp_step; [apply applied_leader|done]. Qed.

Lemma applied_commit n0 n : same_applied n0 n → wp True maybeAdvanceCommitLocked (λ _ n', same_applied n0 n') n.
Proof.
  intros Hs. unfold maybeAdvanceCommitLocked, notifyApply. do 3 wp_step; [by wp_step|]. wp_step.
  apply wp_lift_go; [|done]. intros last _. wp_step. apply wp_lift_go; [|done]. intros [i|] _; by repeat wp_step.
Qed.

Lemma applied_append_reply n q t args r : wp True (onAppendReply q t args r) (λ _ n', same_applied n n') n.
Proof.
  unfold onAppendReply. do 3 wp_step; [by wp_step|]. wp_step; [by apply applied_follower|].
  wp_step; [by wp_step|]. wp_step.
  - wp_step. eapply wp_mono; [|apply advance_progress_progressed]. cbn. intros _ n1 [[] _ _ ?].
    by apply applied_commit, same_applied_eq.
  - unfold set_next. wp_step; [by wp_step|]. destruct (lastIndexOfTermLocked n _); by wp_step.
Qed.

Lemma applied_snapshot_reply n q t args r : wp True (onSnapshotReply q t args r) (λ _ n', same_applied n n') n.
Proof.
  unfold onSnapshotReply. do 3 wp_step; [by wp_step|]. wp_step; [by apply applied_follower|].
  wp_step; [by wp_step|]. wp_step. eapply wp_mono; [|apply advance_progress_progressed]. cbn. intros _ n1 [[] _ _ ?].
  by apply applied_commit, same_applied_eq.
Qed.

Lemma applied_observe n e t l : wp True (observeLeader e t l) (λ _ n', same_applied n n') n.
Proof.
  unfold observeLeader, resetElectionDeadlineLocked. do 3 wp_step.
  eapply (wp_mono _ _ (λ _ n', same_applied n n')).
  - intros _ n1 Hn1. do 3 wp_step; [done|]. do 2 wp_step. by wp_step.
  - wp_step; [by apply applied_follower|]. wp_step; [by wp_step|done].
Qed.

Lemma applied_append_log n0 n es : same_applied n0 n → wp True (appendLogLocked es) (λ _ n', same_applied n0 n') n.
Proof.
  intros Hs. unfold appendLogLocked. do 2 wp_step. apply applied_storage; [done|].
  intros [err|] n' Hn'; unfold disableLocked; by repeat wp_step.
Qed.

Lemma applied_append_loop n0 n idx es : same_applied n0 n → wp True (append_loop idx es) (λ _ n', same_applied n0 n') n.
Proof.
  revert idx n. induction es as [|e es IH]; intros idx n Hs; [done|]. cbn [append_loop].
  do 3 wp_step. apply wp_lift_go; [|done]. intros last _. cbn. wp_step; [|by apply applied_append_log].
  wp_step. apply wp_lift_go; [|done]. intros t _. cbn. wp_step; [by apply IH|]. wp_step.
  apply (wp_mono _ _ (λ _ n', same_applied n0 n')).
  - intros _ n1 Hn1. do 3 wp_step; [done|]. by apply applied_append_log.
  - unfold truncateLogLocked. do 3 wp_step. apply wp_lift_go; [|done]. intros l _. do 2 wp_step.
    apply applied_storage; [done|]. intros [err|] n' Hn'; unfold disableLocked; by repeat wp_step.
Qed.

Lemma applied_append n e args : wp True (handleAppendEntries e args) (λ _ n', same_applied n n') n.
Proof.
  assert (∀ n1 a, same_applied n n1 → wp True (appendEntries_checked a) (λ _ n', same_applied n n') n1) as Hchecked.
  { intros n1 a Hn1. unfold appendEntries_checked, fail_reply, notifyApply.
    do 3 wp_step. apply wp_lift_go; [|done]. intros last _. cbn. wp_step; [done|].
    wp_step. apply wp_lift_go; [|done]. intros pt _. cbn. wp_step; [done|].
    wp_step. eapply wp_mono; [|by apply applied_append_loop]. cbn. intros _ n2 Hn2.
    do 3 wp_step; [by repeat wp_step|]. wp_step. apply wp_lift_go; [|done]. intros last' _. cbn.
    do 2 wp_step; by repeat wp_step. }
  unfold handleAppendEntries, fail_reply. do 3 wp_step; [by repeat wp_step|]. wp_step; [by wp_step|]. wp_step.
  eapply wp_mono; [|apply applied_observe]. cbn. intros _ n1 Hn1. do 3 wp_step; [by repeat wp_step|].
  wp_step; [|by apply Hchecked]. wp_step; [by wp_step|]. wp_step. apply wp_lift_go; [|done].
  intros rest _. cbn. by apply Hchecked.
Qed.

(** ** One node *)
Lemma merge_origin L k es x : x ∈ merge L k es → x ∈ L ∨ x ∈ es.
Proof.
  revert k. induction es as [|e es IH]; intros k; cbn; [by left|].
  destruct (L !! k) as [e'|]; [destruct (_ =? _)%N|].
  - intros [?|?]%IH; [by left|right; by right].
  - intros [?%subseteq_take|Hx]%elem_of_app; [by left|by right].
  - intros [?|Hx]%elem_of_app; [by left|by right].
Qed.

Section Step.
Variable members : list NodeID.
Variable cfg_of : NodeID → Config.
Hypothesis Hwf : cluster_wf (S := S) members cfg_of.
Hypothesis Hodd : Nat.Odd (length members).
(** What new entries are like. *)
Variable P : LogEntry → Prop.

Record advances n n' : Prop := {
  ad_failed : n_failed n = false;
  ad_applied : same_applied n n';
  ad_log e : e ∈ tail (n_log n') → e ∈ tail (n_log n) ∨ P e;
}.

(** A storage with the snapshot of [n], its entries and new ones. *)
Record left_by n (ps : PersistentState) : Prop := {
  lb_first : first_index (Log ps) = n_lastIncludedIndex n;
  lb_data : SnapshotData ps = n_snapshotData n;
  lb_log e : e ∈ tail (Log ps) → e ∈ tail (n_log n) ∨ P e;
}.

Definition dies n n' : Prop := if n_failed n then n_storage n' = n_storage n else faulty (left_by n) n'.

Definition moves n n' : Prop := (n_failed n' = false → advances n n') ∧ dies n n'.

(** The entries a node leaves, when nothing is said of its snapshot. *)
Definition sheds n n' : Prop :=
  if n_failed n then n_storage n' = n_storage n
  else faulty (λ ps, ∀ e, e ∈ tail (Log ps) → e ∈ tail (n_log n) ∨ P e) n'.

Lemma dies_sheds n n' : dies n n' → sheds n n'.
Proof. unfold dies, sheds. destruct (n_failed n); [done|]. apply faulty_mono. by intros ps []. Qed.

Lemma kept_tail n ps e : kept n ps → e ∈ tail (Log ps) → e ∈ tail (n_log n).
Proof. by intros ((_ & _ & ->) & _). Qed.

Lemma snapshotted_tail n i t data ps e : snapshotted n i t data ps → e ∈ tail (Log ps) → e ∈ tail (n_log n).
Proof.
  intros (_ & l & (_ & _ & Htl) & ->). cbn. rewrite <- Htl, Nat.add_1_r. destruct l; cbn; [done|]. apply subseteq_drop.
Qed.

Lemma moves_refl n : moves n n.
Proof.
  split; [split; [done..|by left]|]. unfold dies. destruct (n_failed n) eqn:Hf; [done|]. by apply faulty_enabled.
Qed.

Lemma kept_left_by n ps : wf n → kept n ps → left_by n ps.
Proof.
  intros Hw (Hsl & Hd & _). split; [rewrite <- (wf_first _ Hw); apply Hsl|done|]. intros e.
  destruct Hsl as (_ & _ & ->). by left.
Qed.

Lemma service_wf n : service n → wf n.
Proof. intros Hs. apply Hs. Qed.

Lemma moves_kept n n' : service n → (n_failed n' = false → advances n n') → faulty (kept n) n' → moves n n'.
Proof.
  intros Hs Ha Hfa. split; [done|]. unfold dies. rewrite (proj1 (proj1 Hs)). eapply faulty_mono; [|exact Hfa].
  intros ps. by apply kept_left_by, service_wf.
Qed.

Lemma moves_same_log n n' :
  service n → (n_failed n' = false → n_log n' = n_log n) → same_applied n n' → faulty (kept n) n' → moves n n'.
Proof.
  intros Hs Hl Ha. apply moves_kept; [done|]. intros Hf'. split; [apply Hs|done|]. intros e. rewrite Hl by done. by left.
Qed.

Lemma counted_moves n n' t v : service n → counted n n' t v → same_applied n n' → faulty (kept n) n' → moves n n'.
Proof.
  intros Hs Hc Ha. apply moves_same_log; [done| |done]. intros _. by destruct Hc as [[]|(_ & _ & _ & [[] _ _ _])].
Qed.

(** Ticks and the snapshot trigger. *)
Definition idle_op (op : LocalOp) : Prop :=
  match op with OpTick _ | OpTrigger _ | OpTakeTrigger => True | _ => False end.

Lemma idle_keeps n op :
  idle_op op → wp True (run_op op) (λ _ n', n_failed n' = n_failed n ∧ n_storage n' = n_storage n ∧
    same_applied n n' ∧ n_log n' = n_log n) n.
Proof.
  destruct op; try done; intros _; cbn; try apply wp_discard;
    unfold tick, trigger_snapshot, take_snapshot_trigger; repeat (wp_step; cbn zeta); done.
Qed.

Lemma idle_moves n op n' : idle_op op → run_op op n = Val ((), n') → moves n n'.
Proof.
  intros Hop Hrun. destruct (wp_run _ _ _ _ _ _ (idle_keeps n op Hop) Hrun) as (Hf & Hst & Ha & Hl).
  split; [intros Hf'; split; [congruence|done|]; rewrite Hl; by left|].
  unfold dies. destruct (n_failed n); [done|]. by apply faulty_enabled.
Qed.

Lemma propose_moves n cmd n' :
  service n → (next_index (n_log n) < two63)%N →
  entry_fits (MkEntry (n_currentTerm n) (next_index (n_log n)) cmd) →
  (∀ t i, P (MkEntry t i cmd)) → run_op (OpPropose cmd) n = Val ((), n') → moves n n'.
Proof.
  intros Hs Hb Hfit HP Hrun. pose proof (log_ne _ (wf_log _ (service_wf _ Hs))) as Hne.
  set (e := MkEntry (n_currentTerm n) (next_index (n_log n)) cmd) in *.
  assert (∀ x, x ∈ tail (n_log n ++ [e]) → x ∈ tail (n_log n) ∨ P x) as Hlog.
  { intros x. destruct (n_log n); [done|]. cbn.
    intros [?| ->%list_elem_of_singleton]%elem_of_app; [by left|right]. apply HP. }
  destruct (Propose_moves n cmd n' Hs Hb Hfit Hrun) as [_ Hm]. apply discard_run in Hrun as [r Hrun]. split.
  - destruct Hm as [->|(_ & n1 & (Hfr & Hl1 & _) & Hor)]; [apply moves_refl|].
    destruct Hor as [[Hf ->]|[_ Hc]]; [congruence|]. intros _. pose proof (log_frame_applied _ _ Hfr) as Ha.
    destruct Hc as [(_ & i & _ & _ & ->)|[_ ->]]; (split; [apply Hs|exact Ha|]); cbn; rewrite Hl1; exact Hlog.
  - unfold dies. rewrite (proj1 (proj1 Hs)). eapply faulty_mono; [|exact (wp_run _ _ _ _ _ _
      (Propose_fault n cmd (proj1 Hs) Hb Hfit) Hrun)].
    intros ps (_ & Ed & l & Hsl & Hl). split; [|done|].
    + rewrite <- (wf_first _ (service_wf _ Hs)), (proj1 Hsl). destruct Hl as [->| ->]; [done|by apply first_index_app].
    + intros x. rewrite (proj2 (proj2 Hsl)). destruct Hl as [->| ->]; [by left|apply Hlog].
Qed.

(** What an interrupted merge has of the log and of the request. *)
Lemma partly_origin L k es l x : partly L (Datatypes.S k) es l → x ∈ tail l → x ∈ tail L ∨ x ∈ es.
Proof.
  destruct L as [|b L]; intros (m & [->|(c & e & e' & Hc & He' & _ & _ & ->)]); [|done| |].
  - cbn. destruct (take m es) as [|y ys] eqn:E; [by intros ?%not_elem_of_nil|]. cbn. intros Hx. right.
    apply (subseteq_take m es). rewrite E. by right.
  - rewrite merge_cons. cbn. intros [?|Hx]%merge_origin; [by left|right]. by eapply subseteq_take.
  - destruct c as [|c]; cbn; [by intros ?%not_elem_of_nil|]. intros Hx%subseteq_take. by left.
Qed.

Lemma append_entries_move h R q args n e r n' :
  RInv members cfg_of h R → (q, args) ∈ rw_requests R → w_procs (rw_world R) !! q = Some (Up n) →
  Forall P (ae_Entries args) → handleAppendEntries e args n = Val (r, n') → moves n n'.
Proof.
  intros HR Hin Hp HP Hrun. pose proof (ri_req _ _ _ _ HR _ _ Hin) as Hreq.
  destruct (n_failed n) eqn:Hf; [rewrite (failed_append n Hf) in Hrun; injection Hrun as _ <-; apply moves_refl|].
  destruct (RInv_node _ _ _ _ _ _ HR Hp Hf) as [L Hn]. pose proof (ni_service _ _ _ _ _ Hn) as Hs.
  destruct (N.lt_ge_cases (ae_Term args) (n_currentTerm n)) as [Hlt|Hge].
  { rewrite (append_stale n e args Hf Hlt) in Hrun. injection Hrun as _ <-. apply moves_refl. }
  pose proof (req_valid members cfg_of Hodd _ _ _ _ _ _ HR Hreq Hn Hge) as Hval.
  pose proof (req_not_own members cfg_of Hwf Hodd _ _ _ _ _ HR Hreq Hp) as Hno.
  assert (∀ l x, partly (n_log n) (ae_pos n args) (drop (ae_skip n args) (ae_Entries args)) l →
    x ∈ tail l → x ∈ tail (n_log n) ∨ P x) as Hor.
  { intros l x. unfold ae_pos. rewrite Nat.add_1_r. intros Hl [?|Hx%subseteq_drop]%(partly_origin _ _ _ _ _ Hl); [by left|right].
    by eapply Forall_forall. }
  split.
  - destruct (append_moves n e args r n' Hs Hval Hno Hge Hrun) as (_ & Hpost & _).
    destruct r as [rep|]; [|cbn in Hpost; congruence]. destruct Hpost as (_ & _ & _ & _ & _ & Hl). intros _.
    split; [done|exact (wp_run _ _ _ _ _ _ (applied_append n e args) Hrun)|].
    destruct (ae_consistent n args); destruct Hl as [-> _]; [|by left]. intros x. apply Hor.
    exists (length (drop (ae_skip n args) (ae_Entries args))). left. by rewrite take_ge.
  - unfold dies. rewrite Hf. eapply faulty_mono; [|exact (wp_run _ _ _ _ _ _
      (handleAppendEntries_fault n e args (proj1 Hs) Hval) Hrun)].
    intros ps [Hk|(Hco & _ & Ed & l & Hsl & Hl)]; [by apply kept_left_by; [apply service_wf|]|]. split; [|done|].
    + destruct (whole_partly _ _ _ _ _ (pl_whole _ _ _ _ (ni_log _ _ _ _ _ Hn)) (proj1 (ae_pos_range _ _ (service_wf _ Hs) Hco)) Hl)
        as (_ & _ & _ & Hfl). rewrite (proj1 Hsl), Hfl. by apply wf_first, service_wf.
    + intros x. rewrite (proj2 (proj2 Hsl)). by apply Hor.
Qed.

(** ** One step of the cluster *)

(** What a step of these kinds does. *)
Record plain_step R R' : Prop := {
  ps_up p n' : w_procs (rw_world R') !! p = Some (Up n') →
    ∃ n, w_procs (rw_world R) !! p = Some (Up n) ∧ moves n n';
  ps_down p st : found R' p st → found R p st ∨ ∃ n, enabled R p n ∧ left_by n (view st);
  ps_stays p n : w_procs (rw_world R) !! p = Some (Up n) → ∃ n', w_procs (rw_world R') !! p = Some (Up n');
  ps_requests q args : (q, args) ∈ rw_requests R' → (q, args) ∈ rw_requests R ∨
    ∃ p n, enabled R p n ∧ ae_Entries args ⊆ tail (n_log n);
  ps_snapshots q args : (q, args) ∈ rw_snapshots R' → (q, args) ∈ rw_snapshots R ∨
    ∃ p n, enabled R p n ∧ is_LastIncludedIndex args = n_lastIncludedIndex n ∧ is_Data args = n_snapshotData n;
}.

Lemma plain_proc R R' p n n' :
  w_procs (rw_world R) !! p = Some (Up n) → moves n n' →
  w_procs (rw_world R') = <[p := Up n']> (w_procs (rw_world R)) → rw_requests R' = rw_requests R →
  rw_snapshots R' = rw_snapshots R → plain_step R R'.
Proof.
  intros Hp Hm Hw Hrq Hsn. split; rewrite ?Hw, ?Hrq, ?Hsn; [| | |by left|by left].
  - intros q nq [[<- [= <-]]|[_ Hq]]%lookup_insert_Some; [by exists n|]. exists nq. split; [done|apply moves_refl].
  - intros q st. unfold found. rewrite Hw. intros [[[_ ?]|[_ Hq]]%lookup_insert_Some|(nq & Hq & Hf & Hre)]; [done|by left; left|].
    apply lookup_insert_Some in Hq as [[<- [= <-]]|[_ Hq]]; [|left; right; by exists nq].
    destruct Hm as [_ Hd]. unfold dies in Hd. destruct (n_failed n) eqn:Hf0.
    + left. right. exists n. rewrite <- Hd. done.
    + right. exists n. split; [done|]. by apply (Hd Hf).
  - intros q nq Hq. destruct (decide (p = q)) as [<-|Hne]; [exists n'; by rewrite lookup_insert_eq|].
    exists nq. by rewrite lookup_insert_ne.
Qed.

Lemma idle_step R p n op n' :
  w_procs (rw_world R) !! p = Some (Up n) → idle_op op → run_op op n = Val ((), n') →
  plain_step R (on_world (set_proc p n') R).
Proof. intros Hp Hop Hrun. eapply plain_proc; [done|by eapply idle_moves|done..]. Qed.

Lemma plain_event h R ev w' :
  RInv members cfg_of h R → event_ok cfg_of (rw_world R) ev →
  raft_event (S := S) (REvent_base ev) = true →
  exec cfg_of ev (rw_world R) = Some w' → plain_step R (on_world (λ _, w') R).
Proof.
  intros HR Hok Hpl. pose proof (ri_inv _ _ _ _ HR) as HI. destruct ev as [p op|p e|eid|eid p e|eid p rep|p|p e]; cbn; try done.
  - intros (n & Hn%up_node_Some & ([[] n'] & Hr & [= <-])%run_some_Some)%bind_Some.
    eapply idle_step; [done| |done]. by destruct op.
  - intros (n & Hn%up_node_Some & Hif)%bind_Some. case_match; [|done]. reflect_guards.
    apply run_some_Some in Hif as ([r n'] & Hr & [= <-]).
    assert (moves n n') as Hm; [|destruct r as [[term args]|]; by eapply plain_proc].
    destruct (n_failed n) eqn:Hf; [rewrite (failed_campaign n Hf) in Hr; injection Hr as _ <-; apply moves_refl|].
    destruct (RInv_node _ _ _ _ _ _ HR Hn Hf) as [L Hni]. destruct (inv_up _ _ _ HI _ _ Hn) as (Hm & _ & Hid & _).
    destruct (cw_id _ _ Hwf _ Hm) as (_ & _ & Hfit). rewrite <- Hid in Hfit.
    pose proof (ni_service _ _ _ _ _ Hni) as Hs.
    destruct (campaign_moves n e _ _ Hs Hfit ltac:(done) Hr) as (_ & Hfr & _).
    apply moves_same_log; [done|intros _; apply Hfr|by apply core_applied|].
    by apply (wp_run _ _ _ _ _ _ (startElection_fault n e (proj1 Hs) Hfit ltac:(done)) Hr).
  - intros (el & Hel & (n & Hn%up_node_Some & ([[] n'] & Hr & [= <-])%run_some_Some)%bind_Some)%bind_Some.
    pose proof (Hok _ _ Hel Hn) as Hf. destruct (RInv_node _ _ _ _ _ _ HR Hn Hf) as [L Hni].
    eapply plain_proc; [done| |done..]. pose proof (ni_service _ _ _ _ _ Hni) as Hs.
    eapply counted_moves; [done|by apply solo_counted|exact (wp_run _ _ _ _ _ _ (applied_solo n _) Hr)|].
    apply faulty_enabled. exact (wp_run _ _ _ _ _ _ (startElection_solo_enabled n _ Hf) Hr).
  - intros (el & Hel & (n & Hn%up_node_Some & ([r n'] & Hr & Hk)%run_some_Some)%bind_Some)%bind_Some. cbn in Hr.
    assert (moves n n') as Hm; [|destruct r; injection Hk as <-; by eapply plain_proc].
    destruct (n_failed n) eqn:Hf; [rewrite (failed_vote n Hf) in Hr; injection Hr as _ <-; apply moves_refl|].
    destruct (RInv_node _ _ _ _ _ _ HR Hn Hf) as [L Hni]. pose proof (ni_service _ _ _ _ _ Hni) as Hs.
    destruct (inv_el _ _ _ HI _ _ Hel) as [_ Heo]. destruct (eo_args _ _ _ _ Heo) as (Ha1 & Ha2 & Ha3).
    destruct (cw_id _ _ Hwf _ (eo_member _ _ _ _ Heo)) as (_ & _ & Hfit). rewrite <- Ha1 in Ha3. rewrite <- Ha2 in Hfit.
    destruct (wp_run _ _ _ _ _ _ (handleRequestVote_spec n e (el_args el) (proj1 Hs) Ha3 Hfit) Hr) as (Hfr & _).
    apply moves_same_log; [done|intros _; apply Hfr|by apply core_applied|].
    by apply (wp_run _ _ _ _ _ _ (handleRequestVote_fault n e (el_args el) (proj1 Hs) Ha3 Hfit) Hr).
  - intros (el & Hel & (n & Hn%up_node_Some & Hif)%bind_Some)%bind_Some. case_match; [|done].
    reflect_guards. apply run_some_Some in Hif as ([v n'] & Hr & [= <-]). eapply plain_proc; [done| |done..].
    destruct (n_failed n) eqn:Hf; [rewrite (failed_vote_reply n Hf) in Hr; injection Hr as _ <-; apply moves_refl|].
    destruct (RInv_node _ _ _ _ _ _ HR Hn Hf) as [L Hni].
    pose proof (ni_service _ _ _ _ _ Hni) as Hs.
    eapply counted_moves; [done|by eapply voteReply_counted|exact (wp_run _ _ _ _ _ _ (applied_vote_reply n _ _ _) Hr)|].
    by apply (wp_run _ _ _ _ _ _ (onRequestVoteReply_fault n _ _ rep (proj1 Hs) ltac:(done)) Hr).
Qed.

Lemma plain_send h R p n q term args n' :
  RInv members cfg_of h R → w_procs (rw_world R) !! p = Some (Up n) →
  replicateToPeer q term n = Val (SendAppend args, n') → plain_step R (add_request (q, args) R).
Proof.
  intros HR Hp Hrun. split; cbn; [| | | |by left].
  - intros p' n1 Hp'. exists n1. split; [done|apply moves_refl].
  - by left.
  - eauto.
  - intros q' args' [[= -> ->]|?]%elem_of_cons; [right|by left]. exists p, n.
    destruct (n_failed n) eqn:Hf.
    { unfold replicateToPeer, mbind, GoM_bind, get, not_leading in Hrun. by rewrite Hf in Hrun. }
    split; [done|]. destruct (RInv_node _ _ _ _ _ _ HR Hp Hf) as [L Hn]. pose proof (ni_service _ _ _ _ _ Hn) as Hs.
    destruct (wp_run _ _ _ _ _ _ (replicateToPeer_spec n q term Hs) Hrun) as (_ & Hso & _).
    pose proof (proj1 (proj2 (proj1 Hs))) as Hw. destruct (so_prev _ _ _ Hso) as (e & He & Hi & _).
    pose proof (log_lookup_Index _ _ _ (wf_log _ Hw) He) as Hix. rewrite (wf_first _ Hw) in Hix.
    rewrite (so_entries _ _ _ Hso). intros x Hx. destruct (n_log n) as [|b l]; [by rewrite drop_nil in Hx|].
    replace (N.to_nat (ae_PrevLogIndex args + 1 - n_lastIncludedIndex n))
      with (Datatypes.S (N.to_nat (ae_PrevLogIndex args - n_lastIncludedIndex n))) in Hx by lia.
    cbn in *. by apply subseteq_drop in Hx.
Qed.

Lemma plain_append h R q args e n r n' :
  RInv members cfg_of h R → (q, args) ∈ rw_requests R → w_procs (rw_world R) !! q = Some (Up n) →
  Forall P (ae_Entries args) → handleAppendEntries e args n = Val (r, n') →
  plain_step R (add_answer q args r (on_world (set_proc q n') R)).
Proof. intros HR Hin Hp HP Hrun. eapply plain_proc; [done|by eapply append_entries_move|by destruct r..]. Qed.

Lemma plain_answer h R q args rep n n' :
  RInv members cfg_of h R → (q, args, rep) ∈ rw_answers R → w_procs (rw_world R) !! ae_LeaderID args = Some (Up n) →
  onAppendReply q (ae_Term args) args rep n = Val ((), n') →
  plain_step R (on_world (set_proc (ae_LeaderID args) n') R).
Proof.
  intros HR Hin Hp Hrun. eapply plain_proc; [done| |done..].
  destruct (n_failed n) eqn:Hf; [rewrite (failed_append_reply n Hf) in Hrun; injection Hrun as <-; apply moves_refl|].
  pose proof (answer_valid _ _ _ _ _ _ _ _ HR (ri_ans _ _ _ _ HR _ _ _ Hin) Hp Hf) as Hval.
  destruct (RInv_node _ _ _ _ _ _ HR Hp Hf) as [L Hn]. pose proof (ni_service _ _ _ _ _ Hn) as Hs.
  destruct (appendReply_moves n q args rep n' Hs Hval Hrun) as (_ & Hor).
  apply moves_same_log; [done| |by apply (wp_run _ _ _ _ _ _ (applied_append_reply n _ _ _ _) Hrun)|
    by apply (wp_run _ _ _ _ _ _ (onAppendReply_fault n q _ args rep (proj1 Hs) (rv_fits _ _ _ _ Hval)) Hrun)]. intros _.
  destruct Hor as [[]|(_ & _ & n1 & [[] _ _ ?] & _ & Hco)]; [done|].
  by destruct Hco as [(_ & i & _ & _ & ->)|[_ ->]].
Qed.

Lemma plain_send_snapshot R p n q term args n' :
  w_procs (rw_world R) !! p = Some (Up n) → sendInstallSnapshot term n = Val (Some args, n') →
  plain_step R (add_snapshot (q, args) R).
Proof.
  intros Hp Hrun. apply sendInstall_sent in Hrun as (_ & (Hf & _)%not_leading_false & ->). split; cbn; [|by left|eauto|by left|].
  - intros p' n1 Hp'. exists n1. split; [done|apply moves_refl].
  - intros q' args' [[= -> ->]|?]%elem_of_cons; [right|by left]. by exists p, n.
Qed.

Lemma plain_installed h R q args rep n n' :
  RInv members cfg_of h R → (q, args, rep) ∈ rw_installs R → w_procs (rw_world R) !! is_LeaderID args = Some (Up n) →
  onSnapshotReply q (is_Term args) args rep n = Val ((), n') →
  plain_step R (on_world (set_proc (is_LeaderID args) n') R).
Proof.
  intros HR Hin Hp Hrun. eapply plain_proc; [done| |done..]. destruct (ri_inst _ _ _ _ HR _ _ _ Hin) as [Hsq Hrt _].
  destruct (n_failed n) eqn:Hf; [rewrite (failed_snapshot_reply n Hf) in Hrun; injection Hrun as <-; apply moves_refl|].
  destruct (RInv_node _ _ _ _ _ _ HR Hp Hf) as [L Hn]. pose proof (ni_service _ _ _ _ _ Hn) as Hs.
  apply moves_same_log; [done| |by apply (wp_run _ _ _ _ _ _ (applied_snapshot_reply n _ _ _ _) Hrun)|
    by apply (wp_run _ _ _ _ _ _ (onSnapshotReply_fault n q _ args rep (proj1 Hs) Hrt) Hrun)]. intros _.
  destruct (snapshotReply_moves n q args rep n' Hs Hrt (snap_sent members cfg_of _ _ _ _ _ _ _ Hsq Hn) Hrun)
    as (_ & [[]|(_ & _ & n1 & [[] _ _ _] & _ & [(_ & i & _ & _ & ->)|[_ ->]])]); done.
Qed.

Lemma plain_raft h R ev R' :
  RInv members cfg_of h R → raft_event ev = true → installs_none ev = true →
  match ev with REvent_base ev => event_ok cfg_of (rw_world R) ev | _ => True end →
  (∀ q args, (q, args) ∈ rw_requests R → Forall P (ae_Entries args)) →
  rexec cfg_of ev R = Some R' → plain_step R R'.
Proof.
  intros HR Hev Hni Hok HP. destruct ev as [ev|p q t|q args e|q args rep|p q t|q args e|q args rep|p st]; cbn; [| | | | |done| |done].
  - intros (w' & Hw & ->)%fmap_Some. by eapply plain_event.
  - intros (n & Hn%up_node_Some & Hif)%bind_Some. case_bool_decide; [|done].
    apply run_some_Some in Hif as ([[|args|] n'] & Hr & [= <-]). by eapply plain_send.
  - intros (n & Hn%up_node_Some & Hif)%bind_Some. case_bool_decide; [|done].
    apply run_some_Some in Hif as ([r n'] & Hr & [= <-]). eapply plain_append; try done. by eapply HP.
  - intros (n & Hn%up_node_Some & Hif)%bind_Some. case_bool_decide; [|done].
    apply run_some_Some in Hif as ([[] n'] & Hr & [= <-]). by eapply plain_answer.
  - intros (n & Hn%up_node_Some & Hif)%bind_Some. case_bool_decide; [|done].
    apply run_some_Some in Hif as ([[args|] n'] & Hr & Hk); [|done]. injection Hk as <-. by eapply plain_send_snapshot.
  - intros (n & Hn%up_node_Some & Hif)%bind_Some. case_bool_decide; [|done].
    apply run_some_Some in Hif as ([[] n'] & Hr & [= <-]). by eapply plain_installed.
Qed.

(** ** Crash and restart *)
Lemma crash_world R p R' :
  rexec cfg_of (REvent_base (EvCrash p)) R = Some R' → ∃ n, w_procs (rw_world R) !! p = Some (Up n) ∧
    w_procs (rw_world R') = <[p := Down (n_storage n)]> (w_procs (rw_world R)) ∧ rw_requests R' = rw_requests R ∧
    rw_snapshots R' = rw_snapshots R.
Proof. cbn. intros (w' & (n & Hn%up_node_Some & [= <-])%bind_Some & ->)%fmap_Some. by exists n. Qed.

Lemma reopen_world R p st R' :
  rexec cfg_of (REvent_reopen p st) R = Some R' → ∃ n, w_procs (rw_world R) !! p = Some (Up n) ∧
    reopened (n_storage n) st ∧ w_procs (rw_world R') = <[p := Down st]> (w_procs (rw_world R)) ∧
    rw_requests R' = rw_requests R ∧ rw_snapshots R' = rw_snapshots R.
Proof.
  cbn. intros (n & Hn%up_node_Some & Hif)%bind_Some. case_bool_decide; [|done]. injection Hif as <-. by exists n.
Qed.

Lemma stored_left n : service n → left_by n (view (n_storage n)).
Proof. intros Hs. apply kept_left_by; [by apply service_wf|]. apply disk_kept, Hs. Qed.

(** A process that dies, at whatever point. *)
Lemma reopened_found R p n st :
  (n_failed n = false → service n) → w_procs (rw_world R) !! p = Some (Up n) → reopened (n_storage n) st →
  found R p st ∨ (enabled R p n ∧ left_by n (view st)).
Proof.
  intros Hs Hn Hre. destruct (n_failed n) eqn:Hf; [left; right; by exists n|right]. split; [done|].
  destruct (disk_kept n (proj1 (Hs eq_refl))) as [Hok _]. destruct (reopened_ok _ Hok _ Hre) as [_ ->]. by apply stored_left, Hs.
Qed.

Lemma restart_world h R p env R' :
  RInv members cfg_of h R → event_ok cfg_of (rw_world R) (EvRestart p env) →
  rexec cfg_of (REvent_base (EvRestart p env)) R = Some R' → ∃ st n,
    w_procs (rw_world R) !! p = Some (Down st) ∧ n_failed n = false ∧ recovered (cfg_of p) (view st) n ∧
    w_procs (rw_world R') = <[p := Up n]> (w_procs (rw_world R)) ∧ rw_requests R' = rw_requests R ∧
    rw_snapshots R' = rw_snapshots R.
Proof.
  intros HR Hok. cbn. intros (w' & (st & Hst%down_storage_Some & ([r st'] & Hr & [= <-])%run_some_Some)%bind_Some & ->)%fmap_Some.
  destruct (Hok st Hst) as (n & st2 & Hn). rewrite Hn in Hr. injection Hr as <- <-.
  destruct (ri_proc _ _ _ _ HR _ _ Hst) as [L [Hsto Hb Ht Hts _ _ _ _]].
  pose proof (NewNode_spec (cfg_of p) env st (NewNode_config _ _ _ _ _ Hn) Hsto Hb Ht Hts) as Hsp.
  rewrite Hn in Hsp. destruct Hsp as [[[Hf _] _] Hrec]. by exists st, n.
Qed.

(** A snapshot is ignored or installed. *)
Lemma install_outcome h R q args n e r n' :
  RInv members cfg_of h R → (q, args) ∈ rw_snapshots R → w_procs (rw_world R) !! q = Some (Up n) →
  installable n args → handleInstallSnapshot e args n = Val (r, n') → n_failed n' = false →
  n_failed n = false ∧
  (core_frame n n' ∨ (n_lastIncludedIndex n < is_LastIncludedIndex args)%N ∧ installed n args n').
Proof.
  intros HR Hin Hp Hinst Hrun Hf'. pose proof (ri_snap _ _ _ _ HR _ _ Hin) as Hsq.
  destruct (n_failed n) eqn:Hf; [rewrite (failed_install n Hf) in Hrun; congruence|]. split; [done|].
  destruct (RInv_node _ _ _ _ _ _ HR Hp Hf) as [L Hn]. pose proof (ni_service _ _ _ _ _ Hn) as Hs.
  destruct (N.lt_ge_cases (is_Term args) (n_currentTerm n)) as [Hlt|Hge].
  { rewrite (install_stale n e args Hf Hlt) in Hrun. injection Hrun as _ <-. left. apply core_frame_refl. }
  pose proof (snap_valid members cfg_of Hodd _ _ _ _ _ _ HR Hsq Hn Hge Hinst) as Hv.
  pose proof (snap_not_own members cfg_of Hwf Hodd _ _ _ _ _ HR Hsq Hp) as Hno.
  destruct (install_moves n e args r n' Hs Hv Hno Hge Hrun) as (_ & _ & Hpost).
  destruct r as [rep|]; [|congruence]. destruct Hpost as (_ & _ & _ & Hpost).
  case_decide; [by left|right]. split; [lia|done].
Qed.
End Step.

(** ** What snapshots are

    [Q i data] for the index and the data of every snapshot that is held, stored
    or on its way. *)
Record snapshots (Q : N → bytes → Prop) R : Prop := {
  sn_up p n : enabled R p n → (0 < n_lastIncludedIndex n)%N → Q (n_lastIncludedIndex n) (n_snapshotData n);
  sn_down p st : found R p st → (0 < first_index (Log (view st)))%N →
    Q (first_index (Log (view st))) (SnapshotData (view st));
  sn_sent q args : (q, args) ∈ rw_snapshots R → (0 < is_LastIncludedIndex args)%N →
    Q (is_LastIncludedIndex args) (is_Data args);
}.

Lemma snapshots_mono (Q Q' : N → bytes → Prop) R :
  (∀ i data, Q i data → Q' i data) → snapshots Q R → snapshots Q' R.
Proof. intros HQ [Hu Hd Hs]. split; eauto. Qed.

Lemma snapshots_initial members Q R : rinitial members R → snapshots Q R.
Proof.
  intros (Hini & _ & _ & Hsn & _ & Hst). destruct Hini as (_ & _ & _ & _ & Hprocs). split.
  - intros p n [Hpn _]. by destruct (Hprocs _ _ Hpn) as (_ & st & ? & _).
  - intros p st [Hp|(n & Hp & _)]; [destruct (Hst _ _ Hp) as [_ ->]; cbn; lia|].
    by destruct (Hprocs _ _ Hp) as (_ & st' & ? & _).
  - intros q args. rewrite Hsn. by intros ?%not_elem_of_nil.
Qed.

Section Snapshots.
Variable Q : N → bytes → Prop.

Lemma snapshots_plain (P : LogEntry → Prop) R R' : plain_step P R R' → snapshots Q R → snapshots Q R'.
Proof.
  intros [Hup Hdn _ _ Hsn] [Hu Hd Hs]. split.
  - intros p n' [Hp Hf]. destruct (Hup _ _ Hp) as (n & Hn & Hm).
    destruct (proj1 Hm Hf) as [Hf0 (_ & _ & -> & ->)%same_applied_inv _]. by apply (Hu p).
  - intros p st [Hp|(n & Hn & [-> -> _])]%Hdn; [by apply (Hd p)|by apply (Hu p)].
  - intros q args [?|(p & n & Hn & -> & ->)]%Hsn; [by eapply Hs|by apply (Hu p)].
Qed.

Definition stores (ps : PersistentState) : Prop := (0 < first_index (Log ps))%N → Q (first_index (Log ps)) (SnapshotData ps).

Lemma found_proc R R' p pr q st :
  w_procs (rw_world R') = <[p := pr]> (w_procs (rw_world R)) → found R' q st →
  found R q st ∨ pr = Down st ∨ ∃ n, pr = Up n ∧ n_failed n = true ∧ reopened (n_storage n) st.
Proof.
  intros Hw. unfold found. rewrite Hw. intros [[[<- ->]|[_ ?]]%lookup_insert_Some|(n & Hq & Hf & Hre)]; [by right; left|by left; left|].
  apply lookup_insert_Some in Hq as [[_ ->]|[_ Hq]]; [right; right; by exists n|left; right; by exists n].
Qed.

(** The process [p] moves. *)
Lemma snapshots_proc R R' p pr :
  snapshots Q R → w_procs (rw_world R') = <[p := pr]> (w_procs (rw_world R)) → rw_snapshots R' = rw_snapshots R →
  match pr with
  | Up n' => (n_failed n' = false → (0 < n_lastIncludedIndex n')%N → Q (n_lastIncludedIndex n') (n_snapshotData n')) ∧
      (n_failed n' = true → ∀ st, reopened (n_storage n') st → stores (view st))
  | Down st => stores (view st)
  end → snapshots Q R'.
Proof.
  intros [Hu Hd Hs] Hw Hsn Hpr. split; [| |by rewrite Hsn].
  - unfold enabled. rewrite Hw. intros q n [[[<- ->]|[_ Hq]]%lookup_insert_Some Hf]; [by apply Hpr|by apply (Hu q)].
  - intros q st [?|[->|(n & -> & Hf & Hre)]]%(found_proc _ _ _ _ _ _ Hw); [by apply (Hd q)|done|by apply Hpr].
Qed.

(** What [n] leaves is what was found before, or what it had, or of [Q] anyway. *)
Lemma snapshots_dies R p n n' :
  snapshots Q R → w_procs (rw_world R) !! p = Some (Up n) →
  (if n_failed n then n_storage n' = n_storage n else faulty (λ ps, stores ps ∨ left_by (λ _, True) n ps) n') →
  n_failed n' = true → ∀ st, reopened (n_storage n') st → stores (view st).
Proof.
  intros HQ Hp Hd Hf' st Hre. destruct (n_failed n) eqn:Hf.
  - intros ?. apply (sn_down _ _ HQ p); [|done]. right. exists n. by rewrite <- Hd.
  - destruct (Hd Hf' st Hre) as [_ [?|[E1 E2 _]]]; [done|]. unfold stores. rewrite E1, E2. by apply (sn_up _ _ HQ p).
Qed.
End Snapshots.

Section Steps.
Variable members : list NodeID.
Variable cfg_of : NodeID → Config.
Hypothesis Hwf : cluster_wf (S := S) members cfg_of.
Hypothesis Hodd : Nat.Odd (length members).
Variable Q : N → bytes → Prop.

(** What the application hands over for an index the node would compact to. *)
Definition offers_only (ev : REvent S) R : Prop :=
  match ev with
  | REvent_base (EvLocal p (OpSnapshot i data)) => ∀ n, enabled R p n →
      (n_lastIncludedIndex n < i ≤ n_lastApplied n)%N → Q i data
  | _ => True
  end.

(** A local operation on a disabled node leaves it disabled. *)
Lemma local_failed R p n op n' :
  event_ok cfg_of (rw_world R) (EvLocal p op) → n_failed n = true → run_op op n = Val ((), n') →
  n_failed n' = true ∧ n_storage n' = n_storage n.
Proof.
  intros Hok Hf Hrun. destruct op as [?[]|cmd|i data|e|i| |pc| |]; try done.
  - apply discard_run in Hrun as [r Hrun]. rewrite (failed_propose n Hf) in Hrun. by injection Hrun as _ <-.
  - apply discard_run in Hrun as [r Hrun]. rewrite (failed_snapshot n Hf) in Hrun. by injection Hrun as _ <-.
  - by destruct (quiet_op_failed n (OpTick e) n' I Hrun) as [-> ->].
  - by destruct (quiet_op_failed n (OpTrigger i) n' I Hrun) as [-> ->].
  - by destruct (quiet_op_failed n OpTakeTrigger n' I Hrun) as [-> ->].
  - by destruct (quiet_op_failed n (OpApply pc) n' I Hrun) as [-> ->].
Qed.

Lemma local_dies h R p n op n' :
  RInv members cfg_of h R → event_ok cfg_of (rw_world R) (EvLocal p op) →
  offers_only (REvent_base (EvLocal p op)) R → w_procs (rw_world R) !! p = Some (Up n) →
  run_op op n = Val ((), n') →
  if n_failed n then n_storage n' = n_storage n else faulty (λ ps, stores Q ps ∨ left_by (λ _, True) n ps) n'.
Proof.
  intros HR Hok Hof Hp Hrun. destruct (n_failed n) eqn:Hf; [by eapply local_failed|].
  destruct (RInv_node _ _ _ _ _ _ HR Hp Hf) as [L Hn]. pose proof (ni_service _ _ _ _ _ Hn) as Hs.
  assert (quiet_op op → faulty (λ ps, stores Q ps ∨ left_by (λ _, True) n ps) n') as Hq.
  { intros Hqo. apply faulty_enabled. rewrite <- Hf. by eapply quiet_op_failed. }
  destruct op as [?[]|cmd|i data| | | | | |]; try done; try (by apply Hq).
  - destruct (Hok n Hp) as [Hb Hfit]. destruct (propose_moves (λ _, True) n cmd n' Hs Hb Hfit ltac:(done) Hrun) as [_ Hd].
    unfold dies in Hd. rewrite Hf in Hd. eapply faulty_mono; [|exact Hd]. by right.
  - apply discard_run in Hrun as [r Hrun].
    pose proof (wp_run _ _ _ _ _ _ (Snapshot_fault n i data (proj1 Hs) Hok) Hrun) as Hfa. eapply faulty_mono; [|exact Hfa].
    intros ps [Hk|(e & Hi & _ & _ & Ed & l & _ & El)]; [right; by apply kept_left_by; [apply service_wf|]|left].
    unfold stores. rewrite Ed, El. intros _. by apply (Hof n).
Qed.

Lemma snapshot_sheds (P : LogEntry → Prop) n i data n' :
  service n → snapshot_fits data → run_op (OpSnapshot i data) n = Val ((), n') → sheds P n n'.
Proof.
  intros Hs Hfit Hrun. apply discard_run in Hrun as [r Hrun]. unfold sheds. rewrite (proj1 (proj1 Hs)).
  eapply faulty_mono; [|exact (wp_run _ _ _ _ _ _ (Snapshot_fault n i data (proj1 Hs) Hfit) Hrun)].
  intros ps [Hk|(e & _ & _ & _ & Hc)] x Hx; left; [by eapply kept_tail|by eapply snapshotted_tail].
Qed.

Lemma snapshots_local h R p n op n' :
  RInv members cfg_of h R → snapshots Q R → event_ok cfg_of (rw_world R) (EvLocal p op) →
  offers_only (REvent_base (EvLocal p op)) R → w_procs (rw_world R) !! p = Some (Up n) →
  run_op op n = Val ((), n') → snapshots Q (on_world (set_proc p n') R).
Proof.
  intros HR HQ Hok Hof Hp Hrun. eapply snapshots_proc; [done..|]. cbn.
  split; [|by eapply snapshots_dies, local_dies]. intros Hf'.
  destruct (n_failed n) eqn:Hf; [by destruct (local_failed _ _ _ _ _ Hok Hf Hrun); congruence|].
  assert (enabled R p n) as Hen by done. pose proof (sn_up _ _ HQ _ _ Hen) as Hli.
  destruct (RInv_node _ _ _ _ _ _ HR Hp Hf) as [L Hn]. pose proof (ni_service _ _ _ _ _ Hn) as Hs.
  assert (quiet_op op → (0 < n_lastIncludedIndex n')%N → Q (n_lastIncludedIndex n') (n_snapshotData n')) as Hq.
  { intros Hqo. destruct (quiet_op_rests n op n' Hqo Hs Hrun) as (_ & _ & [_ _ -> _ _ []]%(λ m, m Hf')).
    by rewrite ca_data. }
  destruct op as [?[]|cmd|i data| | | | | |]; try done; try (by apply Hq).
  - destruct (Hok n Hp) as [Hb Hfit]. destruct (propose_moves (λ _, True) n cmd n' Hs Hb Hfit ltac:(done) Hrun) as [Hm _].
    by destruct (Hm Hf') as [_ (_ & _ & -> & ->)%same_applied_inv _].
  - destruct (Snapshot_moves n i data n' Hs Hok Hrun) as [_ [->|[[Hi (e & _ & []) _ _ _] ->]]%(λ m, m Hf')]; [done|].
    rewrite cut_lii. intros _. by apply (Hof n).
Qed.

Lemma install_leaves h R q args n e r n' :
  RInv members cfg_of h R → (q, args) ∈ rw_snapshots R → w_procs (rw_world R) !! q = Some (Up n) →
  installable n args → handleInstallSnapshot e args n = Val (r, n') →
  if n_failed n then n_storage n' = n_storage n
  else wf n ∧ faulty (λ ps, kept n ps ∨ snapshotted n (is_LastIncludedIndex args) (is_LastIncludedTerm args) (is_Data args) ps) n'.
Proof.
  intros HR Hin Hp Hinst Hrun. pose proof (ri_snap _ _ _ _ HR _ _ Hin) as Hsq.
  destruct (n_failed n) eqn:Hf; [rewrite (failed_install n Hf) in Hrun; by injection Hrun as _ <-|].
  destruct (RInv_node _ _ _ _ _ _ HR Hp Hf) as [L Hn]. pose proof (ni_service _ _ _ _ _ Hn) as Hs.
  split; [by apply service_wf|]. destruct (N.lt_ge_cases (is_Term args) (n_currentTerm n)) as [Hlt|Hge].
  { rewrite (install_stale n e args Hf Hlt) in Hrun. injection Hrun as _ <-. by apply faulty_enabled. }
  pose proof (snap_valid members cfg_of Hodd _ _ _ _ _ _ HR Hsq Hn Hge Hinst) as Hv.
  eapply faulty_mono; [|exact (wp_run _ _ _ _ _ _ (handleInstallSnapshot_fault n e args (proj1 Hs) Hv) Hrun)].
  intros ps [Hk|(_ & _ & Hc)]; [by left|by right].
Qed.

Lemma install_dies h R q args n e r n' :
  RInv members cfg_of h R → snapshots Q R → (q, args) ∈ rw_snapshots R → w_procs (rw_world R) !! q = Some (Up n) →
  installable n args → handleInstallSnapshot e args n = Val (r, n') →
  if n_failed n then n_storage n' = n_storage n else faulty (λ ps, stores Q ps ∨ left_by (λ _, True) n ps) n'.
Proof.
  intros HR HQ Hin Hp Hinst Hrun. pose proof (install_leaves _ _ _ _ _ _ _ _ HR Hin Hp Hinst Hrun) as Hl.
  destruct (n_failed n); [done|]. destruct Hl as [Hw Hl]. eapply faulty_mono; [|exact Hl].
  intros ps [Hk|(Ed & l & _ & El)]; [right; by apply kept_left_by|left].
  unfold stores. rewrite Ed, El. cbn. intros ?. by apply (sn_sent _ _ HQ q).
Qed.

Lemma install_sheds (P : LogEntry → Prop) h R q args n e r n' :
  RInv members cfg_of h R → (q, args) ∈ rw_snapshots R → w_procs (rw_world R) !! q = Some (Up n) →
  installable n args → handleInstallSnapshot e args n = Val (r, n') → sheds P n n'.
Proof.
  intros HR Hin Hp Hinst Hrun. pose proof (install_leaves _ _ _ _ _ _ _ _ HR Hin Hp Hinst Hrun) as Hl.
  unfold sheds. destruct (n_failed n); [done|]. destruct Hl as [_ Hl]. eapply faulty_mono; [|exact Hl].
  intros ps [Hk|Hc] x Hx; left; [by eapply kept_tail|by eapply snapshotted_tail].
Qed.

(** Snapshots come from applications: a step keeps [Q] if what it is handed is [Q]. *)
Lemma snapshots_step h R ev R' :
  RInv members cfg_of h R → match ev with REvent_base ev => event_ok cfg_of (rw_world R) ev | _ => True end →
  offers_only ev R → rexec cfg_of ev R = Some R' → snapshots Q R → snapshots Q R'.
Proof.
  intros HR Hok Hof Hx HQ. destruct (raft_event ev && installs_none ev) eqn:Hpl.
  { apply andb_true_iff in Hpl as [Hev Hni]. eapply snapshots_plain; [|done].
    eapply (plain_raft members cfg_of Hwf Hodd (λ _, True)); try done. intros. by apply Forall_forall. }
  destruct ev as [ev|p q t|q args e|q args rep|p q t|q args e|q args rep|p st]; try done.
  - destruct ev as [p op| | | | |p|p e]; try done.
    + cbn in Hx. apply fmap_Some in Hx as (w' & (n & Hn%up_node_Some & ([[] n'] & Hr & [= <-])%run_some_Some)%bind_Some & ->).
      by eapply snapshots_local.
    + destruct (crash_world _ _ _ _ Hx) as (n & Hn & Hw & _ & Hsn). eapply snapshots_proc; [done..|]. cbn.
      pose proof (Hok n Hn) as Hf. destruct (RInv_node _ _ _ _ _ _ HR Hn Hf) as [L Hni].
      destruct (stored_left (λ _, True) n (ni_service _ _ _ _ _ Hni)) as [E1 E2 _]. unfold stores. rewrite E1, E2.
      by apply (sn_up _ _ HQ p).
    + destruct (restart_world members cfg_of h R p e _ HR Hok Hx) as (st & n & Hd & Hf & Hrec & Hw & _ & Hsn).
      eapply snapshots_proc; [done..|]. cbn. split; [|congruence]. intros _. rewrite (rec_lii _ _ _ Hrec), (rec_data _ _ _ Hrec).
      apply (sn_down _ _ HQ p). by left.
  - cbn in Hx. apply bind_Some in Hx as (n & Hn%up_node_Some & Hif). case_bool_decide as Hg; [|done]. destruct Hg as [Hin Hinst].
    apply run_some_Some in Hif as ([r n'] & Hr & [= <-]).
    eapply (snapshots_proc _ R _ q (Up n')); [done|by destruct r..|]. cbn.
    split; [|eapply snapshots_dies; [done..|by eapply install_dies]]. intros Hf'.
    destruct (install_outcome members cfg_of Hwf Hodd _ _ _ _ _ _ _ _ HR Hin Hn Hinst Hr Hf') as [Hf [Hco|[_ []]]].
    + destruct (same_applied_inv _ _ (core_applied _ _ Hco)) as (_ & _ & -> & ->). by apply (sn_up _ _ HQ q).
    + rewrite ins_lii, ins_data. by apply (sn_sent _ _ HQ q).
  - destruct (reopen_world _ _ _ _ _ Hx) as (n & Hn & Hre & Hw & _ & Hsn). eapply snapshots_proc; [done..|]. cbn.
    destruct (reopened_found (λ _, True) R p n st) as [Hfo|[Hen [E1 E2 _]]]; [|done|done|by intros ?; apply (sn_down _ _ HQ p)|].
    + intros Hf. destruct (RInv_node _ _ _ _ _ _ HR Hn Hf) as [L Hni]. apply (ni_service _ _ _ _ _ Hni).
    + unfold stores. rewrite E1, E2. by apply (sn_up _ _ HQ p).
Qed.
End Steps.

(** ** Nothing is compacted that is not committed

    Snapshots stand for indices up to [c]. *)
Definition compacted R (c : N) : Prop := snapshots (λ i _, (i ≤ c)%N) R.

Lemma cp_up R c p n : compacted R c → enabled R p n → (n_lastIncludedIndex n ≤ c)%N.
Proof. intros HC Hn. destruct (N.eq_0_gt_0_cases (n_lastIncludedIndex n)) as [->|?]; [lia|by apply (sn_up _ _ HC p)]. Qed.

Lemma compacted_le R c c' : (c ≤ c')%N → compacted R c → compacted R c'.
Proof. intros Hc. apply snapshots_mono. lia. Qed.

(** A step compacts nothing beyond what nodes have committed before it. *)
Lemma compacted_step members cfg_of h R R' c :
  cluster_wf (S := S) members cfg_of → Nat.Odd (length members) →
  RInv members cfg_of h R → rstep cfg_of R R' → (∀ p n, enabled R p n → (n_commitIndex n ≤ c)%N) →
  compacted R c → compacted R' c.
Proof.
  intros Hwf Hodd HR (ev & Hok & Hx)%rexec_complete Hc HC.
  eapply (snapshots_step members cfg_of Hwf Hodd); try done. destruct ev as [[p []| | | | | |]| | | | | | |]; try done.
  intros n Hen [_ Hi]. specialize (Hc _ _ Hen). destruct (enabled_inv members cfg_of _ _ _ _ HR Hen) as [L Hn].
  pose proof (wf_committed _ (proj1 (proj2 (proj1 (ni_service _ _ _ _ _ Hn))))). lia.
Qed.
End Origins.
