(* ===== verification/RaftLeaders.v ===== *)
(** * Whom a node takes for the leader

    [n_leaderID], which [Leader_] returns and the server hands out as a hint, is
    empty or names a member of the cluster: a node sets it to its own identifier
    or to that of the sender of a request, and requests come from members. *)
From S2P Require Import Prelude RaftTypes RaftNode RaftVotes RaftCluster RaftElection RaftLog RaftReplicate RaftFaults RaftService RaftHistory RaftCompaction RaftReplication RaftMoves RaftInvariant RaftRestart RaftSafety RaftOrigins.

Section Keeps.
Context {S : Type} `{!Storage S}.
Implicit Types (n : Node S).

(** The configuration is [cfg], and the leader's name is in [X]. *)
Definition leader_in (cfg : Config) (X : list NodeID) n : Prop := n_cfg n = cfg ∧ n_leaderID n ∈ X.

(** A property that every run of [m] leaves true. *)
Definition keeps {A} (P : Node S → Prop) (m : GoM (Node S) A) : Prop := ∀ n, P n → wp True m (λ _, P) n.

Section Rules.
Context (P : Node S → Prop).

Lemma node_keeps_ret {A} (a : A) : keeps P (mret a).
Proof. intros n Hn. by apply wp_ret. Qed.

Lemma node_keeps_bind {A B} (m : GoM (Node S) A) (f : A → GoM (Node S) B) : keeps P m → (∀ a, keeps P (f a)) → keeps P (m ≫= f).
Proof. intros Hm Hf n Hn. apply wp_bind. eapply wp_mono; [|by apply Hm]. intros a n' Hn'. by apply Hf. Qed.

Lemma node_keeps_get : keeps P get.
Proof. intros n Hn. by apply wp_get. Qed.

Lemma node_keeps_modify f : (∀ n, P n → P (f n)) → keeps P (modify f).
Proof. intros Hf n Hn. apply wp_modify. by apply Hf. Qed.

Lemma node_keeps_panic {A} : keeps P (panic : GoM (Node S) A).
Proof. intros n Hn. by apply wp_panic. Qed.

Lemma node_keeps_when b m : (b = true → keeps P m) → keeps P (when b m).
Proof. intros Hm n Hn. apply wp_when; [intros Hb; by apply Hm|done]. Qed.

Lemma node_keeps_lift_go {A} (r : go A) : keeps P (lift_go r).
Proof. intros n Hn. by apply wp_lift_go. Qed.
End Rules.

Lemma node_keeps_storage {A} cfg X (m : GoM S A) : keeps (leader_in cfg X) (storage_call m).
Proof. intros n Hn. unfold storage_call. apply wp_on_field. unfold wp. by destruct (m (n_storage n)) as [[? ?]|]. Qed.
End Keeps.

(** Walk through an operation; what is left are the places that set the leader. *)
Ltac keeps_step :=
  match goal with
  | |- keeps _ (mbind _ _) => apply node_keeps_bind; [|intros ?]
  | |- keeps _ (mret _) => apply node_keeps_ret
  | |- keeps _ get => apply node_keeps_get
  | |- keeps _ panic => apply node_keeps_panic
  | |- keeps _ (modify _) => apply node_keeps_modify; let n := fresh "n" in let Hc := fresh "Hc" in let Hl := fresh "Hl" in
      intros n [Hc Hl]; split; [exact Hc|try exact Hl]
  | |- keeps _ (when _ _) => apply node_keeps_when; intros ?
  | |- keeps _ (lift_go _) => apply node_keeps_lift_go
  | |- keeps _ (storage_call _) => apply node_keeps_storage
  | |- keeps _ (if ?b then _ else _) => destruct b
  | |- keeps _ (match ?x with _ => _ end) => destruct x
  | |- _ => solve [eauto with leaders]
  end.
Ltac keeps_auto := repeat (keeps_step; cbn beta).

Create HintDb leaders.

Section Operations.
Context {S : Type} `{!Storage S}.
Variable cfg : Config.
Variable X : list NodeID.
Hypothesis HX : "" ∈ X.
Hypothesis Hown : c_ID cfg ∈ X.
Abbreviation K := (keeps (S := S) (leader_in cfg X)).

Lemma disable_leader err : K (disableLocked err).
Proof. unfold disableLocked. keeps_auto. Qed.
#[local] Hint Resolve disable_leader : leaders.

Lemma saveHardState_leader t v : K (saveHardStateLocked t v).
Proof. unfold saveHardStateLocked. keeps_auto. Qed.
#[local] Hint Resolve saveHardState_leader : leaders.

Lemma appendLog_leader es : K (appendLogLocked es).
Proof. unfold appendLogLocked. keeps_auto. Qed.
#[local] Hint Resolve appendLog_leader : leaders.

Lemma truncateLog_leader i : K (truncateLogLocked i).
Proof. unfold truncateLogLocked. keeps_auto. Qed.
#[local] Hint Resolve truncateLog_leader : leaders.

Lemma resetElectionDeadline_leader e : K (resetElectionDeadlineLocked e).
Proof. unfold resetElectionDeadlineLocked. keeps_auto. Qed.
#[local] Hint Resolve resetElectionDeadline_leader : leaders.

Lemma becomeFollower_leader t : K (becomeFollowerLocked t).
Proof. unfold becomeFollowerLocked. keeps_auto. Qed.
#[local] Hint Resolve becomeFollower_leader : leaders.

Lemma becomeCandidate_leader e : K (becomeCandidateLocked e).
Proof. unfold becomeCandidateLocked. keeps_auto. Qed.
#[local] Hint Resolve becomeCandidate_leader : leaders.

Lemma becomeLeader_leader : K becomeLeaderLocked.
Proof. unfold becomeLeaderLocked. keeps_auto. cbn. unfold n_id. by rewrite Hc. Qed.
#[local] Hint Resolve becomeLeader_leader : leaders.

Lemma maybeAdvanceCommit_leader : K maybeAdvanceCommitLocked.
Proof. unfold maybeAdvanceCommitLocked, notifyApply. keeps_auto. Qed.
#[local] Hint Resolve maybeAdvanceCommit_leader : leaders.

Lemma observeLeader_leader e t l : l ∈ X → K (observeLeader e t l).
Proof. intros Hl. unfold observeLeader. keeps_auto. Qed.
#[local] Hint Resolve observeLeader_leader : leaders.

Lemma fail_reply_leader {A} : K (fail_reply (A := A)).
Proof. unfold fail_reply. keeps_auto. Qed.
#[local] Hint Resolve fail_reply_leader : leaders.

Lemma append_loop_leader es idx : K (append_loop idx es).
Proof. revert idx. induction es as [|e es IH]; intros idx; cbn [append_loop]; keeps_auto. Qed.
#[local] Hint Resolve append_loop_leader : leaders.

Lemma appendEntries_checked_leader args : K (appendEntries_checked args).
Proof. unfold appendEntries_checked, notifyApply. keeps_auto. Qed.
#[local] Hint Resolve appendEntries_checked_leader : leaders.

Lemma handleAppendEntries_leader e args : ae_LeaderID args ∈ X → K (handleAppendEntries e args).
Proof. intros Hl. unfold handleAppendEntries. keeps_auto. Qed.

Lemma installSnapshot_checked_leader args : K (installSnapshot_checked args).
Proof. unfold installSnapshot_checked, installSnapshot_log, notifyApply. keeps_auto. Qed.
#[local] Hint Resolve installSnapshot_checked_leader : leaders.

Lemma handleInstallSnapshot_leader e args : is_LeaderID args ∈ X → K (handleInstallSnapshot e args).
Proof. intros Hl. unfold handleInstallSnapshot. keeps_auto. Qed.

Lemma handleRequestVote_leader e args : K (handleRequestVote e args).
Proof. unfold handleRequestVote. keeps_auto. Qed.

Lemma Propose_leader command : K (Propose command).
Proof. unfold Propose. keeps_auto. Qed.

Lemma Snapshot_leader i data : K (Snapshot i data).
Proof. unfold Snapshot. keeps_auto. Qed.

Lemma tick_leader e : K (tick e).
Proof. unfold tick. keeps_auto. Qed.

Lemma trigger_leader i : K (trigger_snapshot i).
Proof. unfold trigger_snapshot. keeps_auto. Qed.

Lemma take_trigger_leader : K take_snapshot_trigger.
Proof. unfold take_snapshot_trigger. keeps_auto. Qed.

Lemma applyLoop_leader pc : K (applyLoop_step pc).
Proof. unfold applyLoop_step, applyLoop_inner. keeps_auto. Qed.

Lemma advance_progress_leader p i : K (advance_progress p i).
Proof. unfold advance_progress, set_next. keeps_auto. Qed.
#[local] Hint Resolve advance_progress_leader : leaders.

Lemma onAppendReply_leader p t args r : K (onAppendReply p t args r).
Proof. unfold onAppendReply, set_next. keeps_auto. Qed.

Lemma onSnapshotReply_leader p t args r : K (onSnapshotReply p t args r).
Proof. unfold onSnapshotReply. keeps_auto. Qed.

Lemma startElection_leader e : K (startElection e).
Proof. unfold startElection. keeps_auto. Qed.

Lemma startElection_solo_leader t : K (startElection_solo t).
Proof. unfold startElection_solo. keeps_auto. Qed.

Lemma onRequestVoteReply_leader t v r : K (onRequestVoteReply t v r).
Proof. unfold onRequestVoteReply. keeps_auto. Qed.
End Operations.

(** ** The cluster *)
Section Cluster.
Context {S : Type} `{StorageSpec S}.
Implicit Types (n : Node S) (w : World S) (R : RWorld S).
Variable members : list NodeID.
Variable cfg_of : NodeID → Config.
Hypothesis Hwf : cluster_wf (S := S) members cfg_of.
Hypothesis Hodd : Nat.Odd (length members).

Definition leader_known n : Prop := n_leaderID n = "" ∨ n_leaderID n ∈ members.

Definition leaders_known w : Prop := ∀ p n, w_procs w !! p = Some (Up n) → leader_known n.

Lemma leader_in_known cfg n : leader_in cfg ("" :: members) n → leader_known n.
Proof. intros [_ [?| ?]%elem_of_cons]; [by left|by right]. Qed.

Lemma leaders_set_proc w p n : leaders_known w → leader_known n → leaders_known (set_proc p n w).
Proof. intros Hw Hn q n' [[_ [= <-]]|[_ Hq]]%set_proc_lookup; [done|by eapply Hw]. Qed.

(** A step of one node that [keeps] the names it may have. *)
Lemma leaders_keeps {A} w p n (m : GoM (Node S) A) a n' :
  Inv members cfg_of w → leaders_known w → w_procs w !! p = Some (Up n) →
  ("" ∈ "" :: members → c_ID (n_cfg n) ∈ "" :: members → keeps (leader_in (n_cfg n) ("" :: members)) m) →
  m n = Val (a, n') → leaders_known (set_proc p n' w).
Proof.
  intros HI Hw Hp Hk Hrun. apply leaders_set_proc; [done|].
  destruct (inv_up _ _ _ HI _ _ Hp) as (Hm & _ & Hid & _). unfold n_id in Hid.
  apply (leader_in_known (n_cfg n)). eapply (wp_run _ _ _ _ _ _ (Hk ltac:(by left) ltac:(rewrite Hid; by right) n _) Hrun).
  Unshelve. split; [done|]. destruct (Hw _ _ Hp) as [->|?]; [by left|by right].
Qed.

Lemma discard_keeps {A} (P : Node S → Prop) (m : GoM (Node S) A) : keeps P m → keeps P (discard m).
Proof. intros Hm. unfold discard. apply node_keeps_bind; [done|]. intros a. apply node_keeps_ret. Qed.

Lemma NewNode_leader cfg e (st : S) n st' : NewNode cfg e st = Val (inl n, st') → n_leaderID n = "".
Proof.
  unfold NewNode. do 2 (case_match; [done|]). destruct (Load st) as [[[ps|err] st1]|]; try done.
  destruct (slice_get (Log ps) 0) as [b|]; [|done]. unfold resetElectionDeadlineLocked, modify. by intros [= <- _].
Qed.

Lemma leaders_down w p st : leaders_known w → leaders_known (set_down p st w).
Proof. intros Hw q n Hq. cbn in Hq. apply lookup_insert_Some in Hq as [[_ ?]|[_ Hq]]; [done|by eapply Hw]. Qed.

Lemma leaders_exec w ev w' :
  Inv members cfg_of w → leaders_known w → event_ok cfg_of w ev → exec cfg_of ev w = Some w' → leaders_known w'.
Proof.
  intros HI Hw Hok. destruct ev as [p op|p e|eid|eid p e|eid p rep|p|p e]; cbn.
  - intros (n & Hn%up_node_Some & ([[] n'] & Hr & [= <-])%run_some_Some)%bind_Some.
    eapply (leaders_keeps _ _ _ _ _ _ HI Hw Hn); [|exact Hr]. intros HX Ho.
    destruct op as [e req|cmd|i data|e|i| |pc|q t args r|q t args r]; try done; cbn.
    + apply discard_keeps. by apply Propose_leader.
    + apply discard_keeps. by apply Snapshot_leader.
    + apply discard_keeps. by apply tick_leader.
    + by apply trigger_leader.
    + apply discard_keeps. by apply take_trigger_leader.
    + apply discard_keeps. by apply applyLoop_leader.
  - intros (n & Hn%up_node_Some & Hif)%bind_Some. case_match; [|done].
    apply run_some_Some in Hif as ([[[term args]|] n'] & Hr & [= <-]);
      apply (leaders_keeps _ _ _ _ _ _ HI Hw Hn (λ HX Ho, startElection_leader _ _ HX e) Hr).
  - intros (el & Hel & (n & Hn%up_node_Some & ([[] n'] & Hr & [= <-])%run_some_Some)%bind_Some)%bind_Some.
    apply (leaders_keeps _ _ _ _ _ _ HI Hw Hn (λ HX Ho, startElection_solo_leader _ _ Ho _) Hr).
  - intros (el & Hel & (n & Hn%up_node_Some & ([[rep|err] n'] & Hr & [= <-])%run_some_Some)%bind_Some)%bind_Some;
      apply (leaders_keeps _ _ _ _ _ _ HI Hw Hn (λ HX Ho, handleRequestVote_leader _ _ e _) Hr).
  - intros (el & Hel & (n & Hn%up_node_Some & Hif)%bind_Some)%bind_Some. case_match; [|done].
    apply run_some_Some in Hif as ([v n'] & Hr & [= <-]).
    apply (leaders_keeps _ _ _ _ _ _ HI Hw Hn (λ HX Ho, onRequestVoteReply_leader _ _ Ho _ _ _) Hr).
  - intros (n & Hn%up_node_Some & [= <-])%bind_Some. by apply leaders_down.
  - intros (st & Hst%down_storage_Some & ([[n|err] st'] & Hr & [= <-])%run_some_Some)%bind_Some; [|by apply leaders_down].
    apply leaders_set_proc; [done|]. left. by eapply NewNode_leader.
Qed.

Lemma leaders_step h R R' :
  RInv members cfg_of h R → rstep cfg_of R R' → leaders_known (rw_world R) → leaders_known (rw_world R').
Proof.
  intros HR Hst Hw. pose proof (ri_inv _ _ _ _ HR) as HI. destruct Hst as [R ev w' Hok Hx|R p n q term args n' Hp Hq Hrun
    |R q args n e r n' Hin Hq Hrun|R q args rep n n' Hin Hp Hrun|R p n q term args n' Hp Hq Hrun
    |R q args n e r n' Hin Hq Hins Hrun|R q args rep n n' Hin Hp Hrun|R p n st Hp Hre].
  - by eapply leaders_exec.
  - done.
  - destruct (rq_to _ _ _ _ _ _ (ri_req _ _ _ _ HR _ _ Hin)) as [Hm _].
    assert (leaders_known (set_proc q n' (rw_world R))) as Hg
      by (apply (leaders_keeps _ _ _ _ _ _ HI Hw Hq (λ HX Ho, handleAppendEntries_leader _ _ e args (list_elem_of_further _ _ _ Hm)) Hrun)).
    by destruct r.
  - apply (leaders_keeps _ _ _ _ _ _ HI Hw Hp (λ HX Ho, onAppendReply_leader _ _ _ _ _ _) Hrun).
  - done.
  - destruct (sq_to _ _ _ _ _ _ (ri_snap _ _ _ _ HR _ _ Hin)) as [Hm _].
    assert (leaders_known (set_proc q n' (rw_world R))) as Hg
      by (apply (leaders_keeps _ _ _ _ _ _ HI Hw Hq (λ HX Ho, handleInstallSnapshot_leader _ _ e args (list_elem_of_further _ _ _ Hm)) Hrun)).
    by destruct r.
  - apply (leaders_keeps _ _ _ _ _ _ HI Hw Hp (λ HX Ho, onSnapshotReply_leader _ _ _ _ _ _) Hrun).
  - by apply leaders_down.
Qed.

Theorem leader_is_member R p n :
  rreachable members cfg_of R → w_procs (rw_world R) !! p = Some (Up n) → n_leaderID n = "" ∨ n_leaderID n ∈ members.
Proof.
  intros Hr. revert p n. change (leaders_known (rw_world R)). induction Hr as [R Hi|R R' Hr IH Hst].
  - intros p n Hp. destruct Hi as ((_ & _ & _ & _ & Hdn) & _). by destruct (Hdn _ _ Hp) as (_ & st & ? & _).
  - destruct (RInv_reachable members cfg_of Hwf Hodd _ Hr) as [h HR]. by eapply leaders_step.
Qed.
End Cluster.
