(* ===== verification/RaftAgreement.v ===== *)
(** * What the cluster promises

    The theorems on RaftReplication's cluster: log matching, leader
    completeness, state machine safety, refinement of a single log that is only
    appended to, and that no enabled node ever panics or loses its consistency
    whatever the schedule; each instantiated on a run of three nodes over
    MemoryStorage. *)
From S2P Require Import Prelude RaftTypes MemoryStorage RaftNode RaftVotes RaftCluster RaftElection RaftLog RaftReplicate RaftService RaftHistory RaftCompaction RaftReplication RaftMoves RaftInvariant RaftSafety RaftOrigins.

Section Agreement.
Context {S : Type} `{StorageSpec S}.
Implicit Types (n : Node S) (w : World S) (R : RWorld S) (h : Hist).

(** The committed part of [n]'s log is what compaction left of [C]. *)
Record tracks n (C : Entries) : Prop := {
  tr_length : N.to_nat (n_commitIndex n) ≤ length C;
  tr_boundary : n_lastIncludedTerm n = last_term (take (N.to_nat (n_lastIncludedIndex n)) C);
  tr_entries e : e ∈ tail (n_log n) → (Index e ≤ n_commitIndex n)%N → C !! (N.to_nat (Index e) - 1) = Some e;
}.

(** Messages for the same index agree: on the term, and on the command if both
    carry one. *)
Definition msgs_agree (m m' : ApplyMsg) : Prop :=
  msg_term m = msg_term m' ∧
  match m, m' with CommandMsg cmd _ _, CommandMsg cmd' _ _ => cmd = cmd' | _, _ => True end.

Section Facts.
Variable members : list NodeID.
Variable cfg_of : NodeID → Config.
Hypothesis Hwf : cluster_wf (S := S) members cfg_of.
Hypothesis Hodd : Nat.Odd (length members).

(** ** The entries a node keeps *)
Lemma kept_entry h p n L e :
  node_inv members h p n L → e ∈ n_log n →
  N.to_nat (Index e) ≤ length L ∧ Term e = last_term (take (N.to_nat (Index e)) L).
Proof.
  intros Hn (k & He)%list_elem_of_lookup. pose proof (proj1 (proj2 (proj1 (ni_service _ _ _ _ _ Hn)))) as Hw.
  pose proof (log_lookup_Index _ _ _ (wf_log _ Hw) He) as Hix. pose proof (lookup_lt_Some _ _ _ He).
  destruct (node_bounds _ _ _ _ _ Hn) as [Hnx _]. unfold next_index in Hnx.
  rewrite (whole_term _ _ _ _ (pl_whole _ _ _ _ (ni_log _ _ _ _ _ Hn)) He). split; [lia|]. f_equal. f_equal. lia.
Qed.

Lemma tail_entry h p n L e :
  node_inv members h p n L → e ∈ tail (n_log n) →
  (n_lastIncludedIndex n < Index e)%N ∧ L !! (N.to_nat (Index e) - 1) = Some e.
Proof.
  intros Hn (k & He)%list_elem_of_lookup. pose proof (proj1 (proj2 (proj1 (ni_service _ _ _ _ _ Hn)))) as Hw.
  assert (n_log n !! Datatypes.S k = Some e) as He' by (by destruct (n_log n)).
  pose proof (log_lookup_Index _ _ _ (wf_log _ Hw) He') as Hix. rewrite (wf_first _ Hw) in Hix. split; [lia|].
  eapply entry_whole; [done|lia|]. by replace (N.to_nat (Index e - n_lastIncludedIndex n)) with (Datatypes.S k) by lia.
Qed.

Lemma entry_kept h p n L k e :
  node_inv members h p n L → N.to_nat (n_lastIncludedIndex n) ≤ k → L !! k = Some e →
  e ∈ tail (n_log n) ∧ N.to_nat (Index e) = k + 1.
Proof.
  intros Hn Hk He. pose proof (proj1 (proj2 (proj1 (ni_service _ _ _ _ _ Hn)))) as Hw.
  assert (tail (n_log n) !! (k - N.to_nat (n_lastIncludedIndex n)) = Some e) as He'.
  { rewrite (wh_tail _ _ (pl_whole _ _ _ _ (ni_log _ _ _ _ _ Hn))), (wf_first _ Hw), lookup_drop.
    by replace (_ + _) with k by lia. }
  split; [by eapply list_elem_of_lookup_2|].
  assert (n_log n !! Datatypes.S (k - N.to_nat (n_lastIncludedIndex n)) = Some e) as He2 by (by destruct (n_log n)).
  pose proof (log_lookup_Index _ _ _ (wf_log _ Hw) He2) as Hix. rewrite (wf_first _ Hw) in Hix. lia.
Qed.

Lemma node_tracks h p n L C :
  node_inv members h p n L → take (N.to_nat (n_commitIndex n)) C = take (N.to_nat (n_commitIndex n)) L → tracks n C.
Proof.
  intros Hn Heq. destruct (node_bounds _ _ _ _ _ Hn) as [_ Hb]. split.
  - apply (f_equal length) in Heq. rewrite !length_take in Heq. lia.
  - pose proof (proj1 (proj2 (proj1 (ni_service _ _ _ _ _ Hn)))) as Hw.
    rewrite (take_of_take_eq _ _ _ _ Heq) by lia. rewrite <- (wf_bterm _ Hw), <- (wf_first _ Hw).
    apply (pl_whole _ _ _ _ (ni_log _ _ _ _ _ Hn)).
  - intros e He Hi. destruct (tail_entry _ _ _ _ _ Hn He) as [Hlo HL].
    apply (f_equal (λ l, l !! (N.to_nat (Index e) - 1))) in Heq. by rewrite !lookup_take_lt, HL in Heq by lia.
Qed.

(** Two logs whose committed parts go back to leaders agree. *)
Lemma commits_prefix h R T1 L1 c1 T2 L2 c2 c :
  RInv members cfg_of h R → commits members h T1 L1 c1 → commits members h T2 L2 c2 →
  c ≤ c1 → c ≤ c2 → take c L1 = take c L2.
Proof.
  intros HR HC1 HC2 Hle1 Hle2. destruct (decide (c = 0)) as [->|Hne]; [done|].
  destruct HC1 as [?|(t1 & i1 & G1 & _ & Hi1 & Hl1 & Hcm1 & HG1 & E1)]; [lia|].
  destruct HC2 as [?|(t2 & i2 & G2 & _ & Hi2 & Hl2 & Hcm2 & HG2 & E2)]; [lia|].
  apply (take_of_take_eq c) in E1; [|done]. apply (take_of_take_eq c) in E2; [|done].
  rewrite E1, E2. destruct (N.le_ge_cases t1 t2).
  - eapply (committed_agree members h t1 i1); try done; [apply HR|intros; by eapply RInv_won|lia].
  - symmetry. eapply (committed_agree members h t2 i2); try done; [apply HR|intros; by eapply RInv_won|lia].
Qed.

(** What [n] committed by the time of [R] is in every later committed log. *)
Lemma committed_later R R' p n p' n' :
  rreachable members cfg_of R → rtc (rstep cfg_of) R R' → enabled R p n → enabled R' p' n' →
  ∃ h h' L L', hist_le h h' ∧ RInv members cfg_of h' R' ∧ node_inv members h p n L ∧ node_inv members h' p' n' L' ∧
    commits members h' (n_currentTerm n) L (N.to_nat (n_commitIndex n)).
Proof.
  intros Hr Hst Hn Hn'. destruct (RInv_reachable members cfg_of Hwf Hodd _ Hr) as [h HR].
  destruct (RInv_later members cfg_of Hwf Hodd _ _ _ HR Hst) as (h' & Hle & HR').
  destruct (enabled_inv members cfg_of _ _ _ _ HR Hn) as [L Hni], (enabled_inv members cfg_of _ _ _ _ HR' Hn') as [L' Hni'].
  exists h, h', L, L'. do 4 (split; [done|]). destruct (node_bounds _ _ _ _ _ Hni) as [_ Hb].
  eapply commits_grow; [done|reflexivity|lia|apply (ni_commit _ _ _ _ _ Hni)].
Qed.

(** What the apply loop delivers stands for a committed position. *)
Lemma delivered h p n L pc pc' m n' :
  node_inv members h p n L → applyLoop_step pc n = Val ((pc', Some m), n') →
  (msg_index m ≤ n_commitIndex n)%N ∧ msg_term m = last_term (take (N.to_nat (msg_index m)) L) ∧
  match m with
  | CommandMsg cmd i t => (0 < i)%N ∧ L !! (N.to_nat i - 1) = Some (MkEntry t i cmd)
  | SnapshotMsg _ _ _ => True
  end.
Proof.
  intros Hn Hrun. pose proof (proj1 (ni_service _ _ _ _ _ Hn)) as Hok.
  destruct (wp_run _ _ _ _ _ _ (applyLoop_spec n pc Hok) Hrun) as (_ & _ & _ & Hd).
  destruct Hd as [[? _]|[(_ & Hm & _)|(e & _ & Hm & He & Hi & Hc & _)]]; cbn in *; [done| |].
  - by destruct (ni_pending _ _ _ _ _ Hn m (eq_sym Hm)) as (data & i & t & -> & ? & ->).
  - injection Hm as ->. cbn. destruct e as [et ei ec]; cbn in *. split; [done|].
    destruct (kept_entry _ _ _ _ _ Hn (list_elem_of_lookup_2 _ _ _ He)) as [_ Ht]. split; [done|].
    pose proof (wf_applied _ (proj1 (proj2 Hok))). split; [lia|]. eapply entry_whole; [done| |done]. lia.
Qed.

(** ** Every operation the cluster offers a node *)
Definition offered R (p : NodeID) n (op : NodeOp) : Prop :=
  match op with
  | Local (OpHandle _ (ReqVote a)) => ∃ eid el, w_elections (rw_world R) !! eid = Some el ∧ a = el_args el
  | Local (OpHandle _ (ReqAppend a)) => (p, a) ∈ rw_requests R
  | Local (OpHandle _ (ReqSnapshot a)) => (p, a) ∈ rw_snapshots R ∧ installable n a
  | Local (OpPropose cmd) => (next_index (n_log n) < two63)%N ∧
      entry_fits (MkEntry (n_currentTerm n) (next_index (n_log n)) cmd)
  | Local (OpSnapshot _ data) => snapshot_fits data
  | Local (OpTick _) | Local (OpTrigger _) | Local OpTakeTrigger | Local (OpApply _) => True
  | Local (OpAppendReply q t args r) => (q, args, r) ∈ rw_answers R ∧ p = ae_LeaderID args ∧ t = ae_Term args
  | Local (OpSnapshotReply q t args r) => (q, args, r) ∈ rw_installs R ∧ p = is_LeaderID args ∧ t = is_Term args
  | Campaign _ => (n_currentTerm n + 1 < two64)%N
  | VoteReply _ _ r => (rvr_Term r < two64)%N
  | Solo _ | Replicate _ _ => True
  end.

(** A request that came too late is refused at once. *)
Lemma stale_serving n e args :
  service n → (ae_Term args < n_currentTerm n)%N →
  wp False (run_op (OpHandle e (ReqAppend args))) (λ _ n', serving n') n.
Proof.
  intros Hs Hst. cbn. apply wp_discard, wrap_serving. unfold wp.
  rewrite (append_stale n e args (proj1 (proj1 Hs)) Hst). by apply service_serving.
Qed.

Lemma stale_install_serving n e args :
  service n → (is_Term args < n_currentTerm n)%N →
  wp False (run_op (OpHandle e (ReqSnapshot args))) (λ _ n', serving n') n.
Proof.
  intros Hs Hst. cbn. apply wp_discard, wrap_serving. unfold wp.
  rewrite (install_stale n e args (proj1 (proj1 Hs)) Hst). by apply service_serving.
Qed.

Lemma offered_serving h R p n op :
  RInv members cfg_of h R → enabled R p n → offered R p n op →
  wp False (run_node_op op) (λ _ n', serving n') n.
Proof.
  intros HR Hen Hof. destruct (enabled_inv members cfg_of _ _ _ _ HR Hen) as [L Hn]. destruct Hen as [Hp Hf].
  pose proof (ni_service _ _ _ _ _ Hn) as Hs. pose proof (ri_inv _ _ _ _ HR) as HI.
  assert (op_safe n op → wp False (run_node_op op) (λ _ n', serving n') n) as Hsafe
    by (by apply run_node_op_serving).
  destruct op as [[e [a|a|a]|cmd|i data|e|i| |pc|q t a r|q t a r]|e|t|t v r|q t]; cbn in Hof; try done;
    try (by apply Hsafe).
  - destruct Hof as (eid & el & Hel & ->). apply Hsafe. cbn.
    destruct (inv_el _ _ _ HI _ _ Hel) as [_ Hok]. destruct (eo_args _ _ _ _ Hok) as (-> & -> & ?).
    split; [done|]. by apply (cw_id _ _ Hwf _ (eo_member _ _ _ _ Hok)).
  - pose proof (ri_req _ _ _ _ HR _ _ Hof) as Hreq.
    destruct (decide (ae_Term a < n_currentTerm n)%N); [by apply stale_serving|]. apply Hsafe. cbn.
    split; [eapply req_valid; try done; lia|by eapply req_not_own].
  - destruct Hof as [Hin Hinst]. pose proof (ri_snap _ _ _ _ HR _ _ Hin) as Hsq.
    destruct (decide (is_Term a < n_currentTerm n)%N); [by apply stale_install_serving|]. apply Hsafe. cbn.
    split; [eapply snap_valid; try done; lia|by eapply snap_not_own].
  - destruct Hof as (Hin & -> & ->). apply Hsafe. cbn.
    eapply answer_valid; [done|by apply (ri_ans _ _ _ _ HR)|done|done].
  - destruct Hof as (Hin & -> & ->). apply Hsafe. cbn. destruct (ri_inst _ _ _ _ HR _ _ _ Hin) as [Hsq Hrt _].
    split; [done|by eapply snap_sent].
  - apply Hsafe. cbn. split; [|done]. destruct (inv_up _ _ _ HI _ _ Hp) as (Hm & _ & -> & _).
    by apply (cw_id _ _ Hwf _ Hm).
Qed.

(** ** The log the cluster agrees on *)
Definition all_track R (C : Entries) : Prop := ∀ p n, enabled R p n → tracks n C.

(** [C'] is what [n] has committed, the entries after [C] from its log. *)
Definition extends R (C C' : Entries) : Prop :=
  C' = C ∨ ∃ p n, enabled R p n ∧ length C' = N.to_nat (n_commitIndex n) ∧
    N.to_nat (n_lastIncludedIndex n) ≤ length C.

(** A run of the cluster beside the log it commits to: [C] only grows, the
    committed part of every enabled node's log is what compaction left of its
    beginning, and it holds nothing no node has committed. *)
Inductive log_run : RWorld S → Entries → Prop :=
| lr_init R : rinitial members R → log_run R []
| lr_step R C R' C' :
    log_run R C → rstep cfg_of R R' → C `prefix_of` C' → all_track R' C' → extends R' C C' → log_run R' C'.

Lemma commits_comparable h R T1 L1 T2 L2 :
  RInv members cfg_of h R → commits members h T1 L1 (length L1) → commits members h T2 L2 (length L2) →
  length L1 ≤ length L2 → L1 `prefix_of` L2.
Proof.
  intros HR HC1 HC2 Hle. pose proof (commits_prefix _ _ _ _ _ _ _ _ (length L1) HR HC1 HC2 ltac:(lia) Hle) as E.
  rewrite take_ge in E by lia. rewrite E. apply prefix_take.
Qed.

(** The committed part of a whole log, and the logs that have it. *)
Lemma commits_take h p n L :
  node_inv members h p n L → let C := take (N.to_nat (n_commitIndex n)) L in
  length C = N.to_nat (n_commitIndex n) ∧ commits members h (n_currentTerm n) C (length C).
Proof.
  intros Hn. destruct (node_bounds _ _ _ _ _ Hn) as [_ Hb]. cbv zeta. rewrite length_take, Nat.min_l by lia.
  split; [done|]. eapply commits_mono; [by apply hist_le_refl|reflexivity| | |apply (ni_commit _ _ _ _ _ Hn)].
  - rewrite length_take. lia.
  - rewrite take_take. f_equal. lia.
Qed.

Lemma commits_track h R T C p n :
  RInv members cfg_of h R → commits members h T C (length C) → enabled R p n →
  N.to_nat (n_commitIndex n) ≤ length C → tracks n C.
Proof.
  intros HR HC Hen Hle. destruct (enabled_inv members cfg_of _ _ _ _ HR Hen) as [L Hn].
  eapply node_tracks; [done|]. eapply commits_prefix; [done|done|apply (ni_commit _ _ _ _ _ Hn)|done|done].
Qed.

(** A log that extends a committed one is committed. *)
Lemma extends_commits h R T C C' :
  RInv members cfg_of h R → commits members h T C (length C) → C `prefix_of` C' → all_track R C' →
  extends R C C' → ∃ T', commits members h T' C' (length C').
Proof.
  intros HR HC Hp Hall [->|(p & n & Hen & Hlen & Hlii)]; [by exists T|].
  destruct (enabled_inv members cfg_of _ _ _ _ HR Hen) as [L Hn]. destruct (commits_take _ _ _ _ Hn) as [Hl Hcm].
  exists (n_currentTerm n). enough (C' = take (N.to_nat (n_commitIndex n)) L) as -> by done.
  pose proof (prefix_length _ _ Hp) as Hpl.
  pose proof (commits_prefix _ _ _ _ _ _ _ _ (length C) HR HC (ni_commit _ _ _ _ _ Hn) ltac:(lia) ltac:(lia)) as E.
  destruct (Hall _ _ Hen) as [_ _ Hent]. eapply list_eq_same_length; [done|congruence|].
  intros k x y Hk Hx Hy. rewrite lookup_take_lt in Hy by lia. destruct (decide (k < length C)) as [Hlt|Hge].
  - destruct Hp as [r ->]. rewrite lookup_app_l in Hx by done.
    apply (f_equal (λ l, l !! k)) in E. rewrite !lookup_take_lt in E by done. congruence.
  - destruct (entry_kept h p n L k y Hn ltac:(lia) Hy) as [Ht Hi]. specialize (Hent y Ht ltac:(lia)).
    rewrite Hi, Nat.add_sub in Hent. congruence.
Qed.

(** The invariant of a run: [C] is committed, and nothing beyond it is
    compacted. *)
Lemma log_run_inv R C :
  log_run R C → all_track R C ∧ ∃ h T, RInv members cfg_of h R ∧ commits members h T C (length C) ∧
    compacted R (N.of_nat (length C)).
Proof.
  induction 1 as [R Hi|R C R' C' _ (Hall0 & h & T & HR & HC & Hcp) Hst Hp Hall Hext].
  - assert (∀ p n, ¬ enabled R p n) as Hdown.
    { intros p n [Hp _]. destruct Hi as ((_ & _ & _ & _ & Hdn) & _). by destruct (Hdn _ _ Hp) as (_ & st & ? & _). }
    split; [intros p n Hen; by destruct (Hdown p n)|]. exists no_history, 0%N.
    split; [by apply RInv_initial|]. split; [by left|]. by eapply snapshots_initial.
  - split; [done|]. destruct (RInv_step members cfg_of Hwf Hodd _ _ _ HR Hst) as (h' & Hle & HR'). exists h'.
    assert (commits members h' T C (length C)) as HC1 by (by eapply commits_grow).
    destruct (extends_commits _ _ _ _ _ HR' HC1 Hp Hall Hext) as [T' HC']. exists T'. split; [done|]. split; [done|].
    apply prefix_length in Hp. apply (compacted_le _ (N.of_nat (length C))); [lia|].
    eapply (compacted_step members cfg_of _ _ _ _ Hwf Hodd HR Hst); [|done]. intros p n Hen. pose proof (tr_length _ _ (Hall0 p n Hen)). lia.
Qed.

(** How far an enabled process has committed. *)
Definition commit_of (pr : Proc S) : nat :=
  match pr with Up n => if n_failed n then 0 else N.to_nat (n_commitIndex n) | Down _ => 0 end.

(** ... and how far any of them has, [k] having been reached before. *)
Definition commits_to (ps : list (NodeID * Proc S)) (k : nat) : nat := foldr (λ x m, commit_of x.2 `max` m) k ps.
Definition committed_to R (k : nat) : nat := commits_to (map_to_list (w_procs (rw_world R))) k.

(** Among committed logs there is one all the others are prefixes of. *)
Lemma longest_committed h R C T (ps : list (NodeID * Proc S)) :
  RInv members cfg_of h R → commits members h T C (length C) → compacted R (N.of_nat (length C)) →
  (∀ p pr, (p, pr) ∈ ps → w_procs (rw_world R) !! p = Some pr) →
  ∃ C' T', C `prefix_of` C' ∧ commits members h T' C' (length C') ∧ extends R C C' ∧
    length C' = commits_to ps (length C) ∧ ∀ p n, (p, Up n) ∈ ps → n_failed n = false → N.to_nat (n_commitIndex n) ≤ length C'.
Proof.
  intros HR HC Hcp. induction ps as [|[p pr] ps IH]; intros Hps.
  { exists C, T. split; [done|]. split; [done|]. split; [by left|]. split; [done|]. by intros ?? ?%not_elem_of_nil. }
  destruct IH as (C1 & T1 & Hp1 & HC1 & Hor1 & Hl1 & Hall1); [intros; apply Hps; by right|].
  destruct (decide (length C1 < commit_of pr)) as [Hlen|Hno].
  - destruct pr as [n|st]; cbn in Hlen; [|lia]. destruct (n_failed n) eqn:Hf; [lia|].
    assert (enabled R p n) as Hen by (split; [apply Hps; by left|done]).
    destruct (enabled_inv members cfg_of _ _ _ _ HR Hen) as [L Hn]. destruct (commits_take _ _ _ _ Hn) as [Hl Hcm].
    exists (take (N.to_nat (n_commitIndex n)) L), (n_currentTerm n). rewrite Hl.
    pose proof (commits_comparable _ _ _ _ _ _ HR HC1 Hcm ltac:(lia)) as Hpn.
    split; [by etrans|]. split; [by rewrite <- Hl at 2|]. split.
    + right. exists p, n. split; [done|]. split; [done|]. pose proof (cp_up _ _ _ _ Hcp Hen). lia.
    + split; [cbn [commits_to foldr snd commit_of]; rewrite Hf; fold (commits_to ps (length C)); lia|]. intros p' n' [[= <- <-]|Hin]%elem_of_cons Hf'; [done|]. specialize (Hall1 p' n' Hin Hf'). lia.
  - exists C1, T1. split; [done|]. split; [done|]. split; [done|]. split; [cbn [commits_to foldr snd]; unfold commits_to in Hl1; lia|].
    intros p' n' [[= <- <-]|Hin]%elem_of_cons Hf'; [|by eapply Hall1].
    cbn in Hno. rewrite Hf' in Hno. lia.
Qed.

Lemma log_run_next R R' C :
  log_run R C → rstep cfg_of R R' → ∃ C', C `prefix_of` C' ∧ log_run R' C' ∧ length C' = committed_to R' (length C).
Proof.
  intros Hrun Hst. destruct (log_run_inv _ _ Hrun) as (Hall0 & h & T & HR & HC & Hcp).
  destruct (RInv_step members cfg_of Hwf Hodd _ _ _ HR Hst) as (h' & Hle & HR').
  assert (commits members h' T C (length C)) as HC' by (by eapply commits_grow).
  assert (compacted R' (N.of_nat (length C))) as Hcp'.
  { eapply (compacted_step members cfg_of _ _ _ _ Hwf Hodd HR Hst); [|done].
    intros p n Hen. pose proof (tr_length _ _ (Hall0 p n Hen)). lia. }
  destruct (longest_committed h' R' C T (map_to_list (w_procs (rw_world R'))) HR' HC' Hcp')
    as (C' & T' & Hp & HCm & Hor & Hl & Hall).
  { intros p pr Hin. by apply elem_of_map_to_list. }
  exists C'. split; [done|]. split; [|exact Hl]. eapply lr_step; try done. intros p n Hen. pose proof Hen as [Hpn Hf].
  eapply commits_track; [exact HR'|exact HCm|exact Hen|]. apply (Hall p n); [|done].
  by apply elem_of_map_to_list.
Qed.
End Facts.
End Agreement.

(** ** Runs *)
Section Runs.
Context {S : Type} `{StorageSpec S} `{!∀ e, Decision (entry_fits e)} `{!∀ data, Decision (snapshot_fits data)}.
Implicit Types (w : World S) (R : RWorld S).

Definition event_check w (cfg_of : NodeID → Config) (ev : Event) : bool :=
  match ev with
  | EvLocal p (OpPropose cmd) =>
      match up_node w p with
      | Some n => (next_index (n_log n) <? two63)%N &&
          bool_decide (entry_fits (MkEntry (n_currentTerm n) (next_index (n_log n)) cmd))
      | None => true
      end
  | EvLocal _ (OpSnapshot _ data) => bool_decide (snapshot_fits data)
  | EvLocal _ (OpTick _) | EvLocal _ (OpTrigger _) | EvLocal _ OpTakeTrigger
  | EvLocal _ (OpApply _) => true
  | EvLocal _ _ => false
  | EvSolo eid =>
      match w_elections w !! eid with
      | Some el => match up_node w (el_cand el) with Some n => negb (n_failed n) | None => true end
      | None => true
      end
  | EvCrash p => match up_node w p with Some n => negb (n_failed n) | None => true end
  | EvRestart p e =>
      match down_storage w p with
      | Some st => match NewNode (cfg_of p) e st with Val (inl _, _) => true | _ => false end
      | None => true
      end
  | _ => true
  end.

Lemma event_check_ok cfg_of w ev : event_check w cfg_of ev = true → event_ok cfg_of w ev.
Proof.
  unfold event_check, event_ok, up_node, down_storage.
  destruct ev as [p op|p e|eid|eid p e|eid p rep|p|p e]; try done.
  - destruct op; try done.
    + intros Hc n Hn. rewrite Hn in Hc. by apply andb_true_iff in Hc as [?%N.ltb_lt ?%bool_decide_eq_true].
    + by intros ?%bool_decide_eq_true.
  - intros Hc el n Hel Hn. rewrite Hel, Hn in Hc. by apply negb_true_iff.
  - intros Hc n Hn. rewrite Hn in Hc. by apply negb_true_iff.
  - intros Hc st Hst. rewrite Hst in Hc. destruct (NewNode _ _ _) as [[[n|] st']|]; [by exists n, st'|done..].
Qed.

Fixpoint run_check (cfg_of : NodeID → Config) (evs : list (REvent S)) R : bool :=
  match evs with
  | [] => true
  | ev :: evs =>
      match ev with REvent_base ev => event_check (rw_world R) cfg_of ev | _ => true end &&
      match rexec cfg_of ev R with Some R' => run_check cfg_of evs R' | None => false end
  end.

Lemma run_check_rtc cfg_of evs R R' :
  run_check cfg_of evs R = true → rexec_all cfg_of evs R = Some R' → rtc (rstep cfg_of) R R'.
Proof.
  revert R. induction evs as [|ev evs IH]; intros R; cbn; [by intros _ [= <-]; constructor|].
  intros [Hev Hrest]%andb_true_iff (R1 & HR1 & Hall)%bind_Some. rewrite HR1 in Hrest.
  eapply rtc_l; [|by apply IH]. apply (rexec_sound cfg_of ev); [|done].
  destruct ev; [by apply event_check_ok|done..].
Qed.

(** What a schedule leads to, given a check of where it ends. *)
Lemma run_result members cfg_of evs R (P : RWorld S → bool) :
  rreachable members cfg_of R →
  (run_check cfg_of evs R && match rexec_all cfg_of evs R with Some R' => P R' | None => false end) = true →
  ∃ R', rtc (rstep cfg_of) R R' ∧ rreachable members cfg_of R' ∧ P R' = true.
Proof.
  intros HR [Hc HP]%andb_true_iff. destruct (rexec_all cfg_of evs R) as [R'|] eqn:E; [|done].
  pose proof (run_check_rtc _ _ _ _ Hc E) as Hst. exists R'. split; [done|]. split; [by eapply rreachable_rtc|done].
Qed.

(** [p] is enabled and [f] holds of it. *)
Definition node_is R (p : NodeID) (f : Node S → bool) : bool :=
  match up_node (rw_world R) p with Some n => negb (n_failed n) && f n | None => false end.

Lemma node_is_enabled R p f : node_is R p f = true → ∃ n, enabled R p n ∧ f n = true.
Proof.
  unfold node_is. destruct (up_node _ _) as [n|] eqn:Hn; [|done]. intros [Hf Hp]%andb_true_iff.
  exists n. split; [|done]. split; [by apply up_node_Some|by apply negb_true_iff].
Qed.

End Runs.

(** Three nodes over MemoryStorage. *)
Definition fresh_rworld (members : list NodeID) : RWorld MemoryStorage := MkRWorld (fresh_world members) [] [] [] [].

Lemma fresh_rinitial members : rinitial members (fresh_rworld members).
Proof.
  split; [apply fresh_initial|]. do 4 (split; [done|]). intros p st Hp. cbn in Hp.
  apply elem_of_list_to_map_2, list_elem_of_fmap in Hp as (q & [= -> ->] & Hq). by split.
Qed.

Definition cmd_x : bytes := [Byte.x78].

(** "a" is elected, proposes, replicates to "b" and commits. *)
Definition commit_x : list (REvent MemoryStorage) :=
  (REvent_base <$> elect_a) ++
  [REvent_base (EvLocal "a" (OpPropose cmd_x)); REvent_send "a" "b" 1;
   REvent_append "b" (MkAEArgs 1 "a" 0 0 [MkEntry 1 1 cmd_x] 0) env0;
   REvent_answer "b" (MkAEArgs 1 "a" 0 0 [MkEntry 1 1 cmd_x] 0) (MkAEReply 1 true 0 0)].

(** "a" applies the entry and compacts it away, "c" starts and gets the
    snapshot, "b" learns of the commitment. *)
Definition data_x : bytes := [Byte.x01].
Definition snap_x : InstallSnapshotArgs := MkISArgs 1 "a" 1 1 data_x.

Definition compact_x : list (REvent MemoryStorage) :=
  [REvent_base (EvLocal "a" (OpApply Top)); REvent_base (EvLocal "a" (OpSnapshot 1 data_x));
   REvent_base (EvRestart "c" env0); REvent_snapshot "a" "c" 1; REvent_install "c" snap_x env0;
   REvent_installed "c" snap_x (MkISReply 1);
   REvent_send "a" "b" 1; REvent_append "b" (MkAEArgs 1 "a" 1 1 [] 1) env0].

(** "a" crashes, comes back with its compacted log and is elected by "c". *)
Definition a_again : list (REvent MemoryStorage) :=
  REvent_base <$> [EvCrash "a"; EvRestart "a" env0; EvCampaign "a" env0; EvVote 1 "c" env0;
                   EvVoteReply 1 "c" (MkRVReply 2 true)].

(** "a" appends another entry and sends it to both. *)
Definition cmd_y : bytes := [Byte.x79].
Definition entry_y : LogEntry := MkEntry 1 2 cmd_y.

Definition append_y : list (REvent MemoryStorage) :=
  [REvent_base (EvLocal "a" (OpPropose cmd_y)); REvent_send "a" "b" 1; REvent_send "a" "c" 1;
   REvent_append "b" (MkAEArgs 1 "a" 1 1 [entry_y] 1) env0; REvent_append "c" (MkAEArgs 1 "a" 1 1 [entry_y] 1) env0].

(** What the apply loop of [n] delivers next. *)
Definition next_delivery (n : Node MemoryStorage) : option ApplyMsg :=
  match applyLoop_step Top n with
  | Val ((_, m), _) => m
  | _ => None
  end.

Lemma next_delivery_run n m :
  next_delivery n = Some m → ∃ pc n', applyLoop_step Top n = Val ((pc, Some m), n').
Proof. unfold next_delivery. intros. repeat case_match; simplify_eq. eauto. Qed.

(** The theorems are instantiated in a cluster of three, in a run that starts
    afresh with [evs] and goes on with [evs']. *)
Lemma run_two (evs evs' : list (REvent MemoryStorage)) (P P' : RWorld MemoryStorage → bool) :
  (run_check (cfg_among three) evs (fresh_rworld three) &&
   match rexec_all (cfg_among three) evs (fresh_rworld three) with
   | Some R => P R && (run_check (cfg_among three) evs' R &&
       match rexec_all (cfg_among three) evs' R with Some R' => P' R' | None => false end)
   | None => false
   end) = true →
  ∃ R R', rreachable three (cfg_among three) R ∧ rtc (rstep (cfg_among three)) R R' ∧ P R = true ∧ P' R' = true.
Proof.
  intros Hc. destruct (run_result three (cfg_among three) evs (fresh_rworld three)
    (λ R, P R && (run_check (cfg_among three) evs' R &&
       match rexec_all (cfg_among three) evs' R with Some R' => P' R' | None => false end))) as (R & _ & HR & HP).
  { apply rreach_init, fresh_rinitial. }
  { exact Hc. }
  apply andb_true_iff in HP as [HP Hc']. destruct (run_result three _ evs' R P' HR Hc') as (R' & Hst & _ & HP').
  by exists R, R'.
Qed.

(** ** The theorems *)

(** C6: state machine safety.  In a cluster of odd size in which snapshots are
    delivered where [installable], whatever was lost, duplicated, delayed,
    crashed or compacted: what the apply loop of an enabled
    node delivers for some index, a command or a snapshot, agrees with what any
    enabled node delivers for it at that moment or any time later: the terms are
    the same, and so are the commands of two commands. *)
Theorem state_machine_safety {S} `{StorageSpec S} members cfg_of (R R' : RWorld S) p n p' n' pc pc1 n1 pc' pc1' n1' m m' :
  cluster_wf (S := S) members cfg_of → Nat.Odd (length members) →
  rreachable members cfg_of R → rtc (rstep cfg_of) R R' →
  enabled R p n → applyLoop_step pc n = Val ((pc1, Some m), n1) →
  enabled R' p' n' → applyLoop_step pc' n' = Val ((pc1', Some m'), n1') →
  msg_index m = msg_index m' → msgs_agree m m'.
Proof.
  intros Hwf Hodd Hr Hst Hn Hrun Hn' Hrun' Hix.
  destruct (committed_later members cfg_of Hwf Hodd R R' p n p' n' Hr Hst Hn Hn')
    as (h & h' & L & L' & _ & HR' & Hi & Hi' & Hc).
  destruct (delivered _ _ _ _ _ _ _ _ _ Hi Hrun) as (Hle & Ht & Hm).
  destruct (delivered _ _ _ _ _ _ _ _ _ Hi' Hrun') as (Hle' & Ht' & Hm').
  pose proof (commits_prefix members cfg_of Hodd _ _ _ _ _ _ _ _ (N.to_nat (msg_index m)) HR' Hc
    (ni_commit _ _ _ _ _ Hi') ltac:(lia) ltac:(lia)) as Heq.
  split; [rewrite Ht, Ht', <- Hix; by rewrite Heq|]. destruct m as [cmd i t|], m' as [cmd' i' t'|]; try done.
  cbn in *. subst i'. destruct Hm as [Hpos Hlk], Hm' as [_ Hlk'].
  apply (f_equal (λ l, l !! (N.to_nat i - 1))) in Heq. rewrite !lookup_take_lt in Heq by lia. congruence.
Qed.

Lemma state_machine_safety_witness : ∃ (R R' : RWorld MemoryStorage) na nb nc pa pb pc na1 nb1 nc1,
  rreachable three (cfg_among three) R ∧ rtc (rstep (cfg_among three)) R R' ∧
  enabled R "a" na ∧ applyLoop_step Top na = Val ((pa, Some (CommandMsg cmd_x 1 1)), na1) ∧
  enabled R' "b" nb ∧ applyLoop_step Top nb = Val ((pb, Some (CommandMsg cmd_x 1 1)), nb1) ∧
  enabled R' "c" nc ∧ applyLoop_step Top nc = Val ((pc, Some (SnapshotMsg data_x 1 1)), nc1) ∧
  msgs_agree (CommandMsg cmd_x 1 1) (CommandMsg cmd_x 1 1) ∧
  msgs_agree (CommandMsg cmd_x 1 1) (SnapshotMsg data_x 1 1).
Proof.
  destruct (run_two commit_x compact_x
    (λ R, node_is R "a" (λ n, bool_decide (next_delivery n = Some (CommandMsg cmd_x 1 1))))
    (λ R', node_is R' "b" (λ n, bool_decide (next_delivery n = Some (CommandMsg cmd_x 1 1))) &&
           node_is R' "c" (λ n, bool_decide (next_delivery n = Some (SnapshotMsg data_x 1 1)))))
    as (R & R' & HR & Hst & Ha & [Hb Hc]%andb_true_iff); [by vm_compute|].
  destruct (node_is_enabled _ _ _ Ha) as (na & Hna & Hda), (node_is_enabled _ _ _ Hb) as (nb & Hnb & Hdb),
    (node_is_enabled _ _ _ Hc) as (nc & Hnc & Hdc).
  apply bool_decide_eq_true, next_delivery_run in Hda as (pa & na1 & Hda).
  apply bool_decide_eq_true, next_delivery_run in Hdb as (pb & nb1 & Hdb).
  apply bool_decide_eq_true, next_delivery_run in Hdc as (pc & nc1 & Hdc).
  exists R, R', na, nb, nc, pa, pb, pc, na1, nb1, nc1. do 8 (split; [assumption|]). split.
  - exact (state_machine_safety three (cfg_among three) R R' "a" na "b" nb Top pa na1 Top pb nb1 _ _
      three_wf (ex_intro _ 1 eq_refl) HR Hst Hna Hda Hnb Hdb eq_refl).
  - exact (state_machine_safety three (cfg_among three) R R' "a" na "c" nc Top pa na1 Top pc nc1 _ _
      three_wf (ex_intro _ 1 eq_refl) HR Hst Hna Hda Hnc Hdc eq_refl).
Defined.

(** C7: leader completeness.  In a cluster of odd size in which snapshots are
    delivered where [installable], a leader's log reaches every index any enabled
    node had committed, at any earlier time, in the leader's term or before, and
    each committed entry that node kept is in the leader's log, unless the
    leader has compacted it: then its snapshot covers the entry's index, with
    the entry's term if it is the last one covered. *)
Theorem leader_completeness {S} `{StorageSpec S} members cfg_of (R R' : RWorld S) p n p' n' :
  cluster_wf (S := S) members cfg_of → Nat.Odd (length members) →
  rreachable members cfg_of R → rtc (rstep cfg_of) R R' →
  enabled R p n → enabled R' p' n' → n_role n' = Leader → (n_currentTerm n ≤ n_currentTerm n')%N →
  (n_commitIndex n < next_index (n_log n'))%N ∧
  ∀ e, e ∈ tail (n_log n) → (Index e ≤ n_commitIndex n)%N →
    e ∈ tail (n_log n') ∨
    (Index e ≤ n_lastIncludedIndex n')%N ∧ (Index e = n_lastIncludedIndex n' → Term e = n_lastIncludedTerm n').
Proof.
  intros Hwf Hodd Hr Hst Hn Hn' HL Ht.
  destruct (committed_later members cfg_of Hwf Hodd R R' p n p' n' Hr Hst Hn Hn')
    as (h & h' & L & L' & _ & HR' & Hi & Hi' & Hc).
  destruct (ni_lead _ _ _ _ _ Hi' HL) as (HG & _ & _).
  pose proof (commits_agree members cfg_of Hodd _ _ _ _ _ _ _ HR' Hc Ht HG) as Heq.
  destruct (node_bounds _ _ _ _ _ Hi) as [_ Hb], (node_bounds _ _ _ _ _ Hi') as [Hnx _].
  pose proof (f_equal length Heq) as Hlen. rewrite !length_take in Hlen. split; [lia|].
  intros e He Hle. destruct (tail_entry _ _ _ _ _ _ Hi He) as [Hlo Hlk].
  apply (f_equal (λ l, l !! (N.to_nat (Index e) - 1))) in Heq. rewrite !lookup_take_lt in Heq by lia.
  rewrite Hlk in Heq. symmetry in Heq. destruct (N.le_gt_cases (Index e) (n_lastIncludedIndex n')) as [Hin|Hout].
  - right. split; [done|]. intros E. pose proof (proj1 (proj2 (proj1 (ni_service _ _ _ _ _ Hi')))) as Hw.
    rewrite <- (wf_bterm _ Hw), (wh_term _ _ (pl_whole _ _ _ _ (ni_log _ _ _ _ _ Hi'))), (wf_first _ Hw), <- E.
    replace (N.to_nat (Index e)) with (Datatypes.S (N.to_nat (Index e) - 1)) by lia.
    by rewrite (take_S_r _ _ _ Heq), last_term_snoc.
  - left. eapply (entry_kept members _ _ _ _ _ _ Hi'); [|exact Heq]. lia.
Qed.

Lemma leader_completeness_witness : ∃ (R R' : RWorld MemoryStorage) na na',
  rreachable three (cfg_among three) R ∧ rtc (rstep (cfg_among three)) R R' ∧
  enabled R "a" na ∧ enabled R' "a" na' ∧ n_commitIndex na = 1%N ∧ n_currentTerm na = 1%N ∧
  MkEntry 1 1 cmd_x ∈ tail (n_log na) ∧ n_role na' = Leader ∧ n_currentTerm na' = 2%N ∧
  n_log na' = [boundary 1 1] ∧ n_lastIncludedIndex na' = 1%N ∧
  (n_commitIndex na < next_index (n_log na'))%N ∧
  ∀ e, e ∈ tail (n_log na) → (Index e ≤ n_commitIndex na)%N →
    e ∈ tail (n_log na') ∨
    (Index e ≤ n_lastIncludedIndex na')%N ∧ (Index e = n_lastIncludedIndex na' → Term e = n_lastIncludedTerm na').
Proof.
  destruct (run_two commit_x (compact_x ++ a_again)
    (λ R, node_is R "a" (λ n, bool_decide (n_commitIndex n = 1%N ∧ n_currentTerm n = 1%N ∧
      MkEntry 1 1 cmd_x ∈ tail (n_log n))))
    (λ R', node_is R' "a" (λ n, bool_decide (n_role n = Leader ∧ n_currentTerm n = 2%N ∧
      n_log n = [boundary 1 1] ∧ n_lastIncludedIndex n = 1%N))))
    as (R & R' & HR & Hst & Ha & Ha'); [by vm_compute|].
  destruct (node_is_enabled _ _ _ Ha) as (na & Hna & (Hca & Hta & Hin)%bool_decide_eq_true).
  destruct (node_is_enabled _ _ _ Ha') as (na' & Hna' & (Hr & Ht & Hl & Hi)%bool_decide_eq_true).
  exists R, R', na, na'. do 11 (split; [assumption|]).
  refine (leader_completeness three (cfg_among three) R R' "a" na "a" na'
    three_wf (ex_intro _ 1 eq_refl) HR Hst Hna Hna' Hr _). rewrite Hta, Ht. by vm_compute.
Defined.

(** C9: log matching.  In a cluster of odd size in which snapshots are delivered
    where [installable], when the logs of two enabled nodes, boundaries included,
    have an entry with the same index and term, then wherever both have an entry
    with a smaller index these have the same term, and are the same entry unless
    one of them is a boundary. *)
Theorem log_matching {S} `{StorageSpec S} members cfg_of (R : RWorld S) p1 n1 p2 n2 e1 e2 x1 x2 :
  cluster_wf (S := S) members cfg_of → Nat.Odd (length members) → rreachable members cfg_of R →
  enabled R p1 n1 → enabled R p2 n2 →
  e1 ∈ n_log n1 → e2 ∈ n_log n2 → Index e1 = Index e2 → Term e1 = Term e2 →
  x1 ∈ n_log n1 → x2 ∈ n_log n2 → Index x1 = Index x2 → (Index x1 ≤ Index e1)%N →
  Term x1 = Term x2 ∧ (x1 ∈ tail (n_log n1) → x2 ∈ tail (n_log n2) → x1 = x2).
Proof.
  intros Hwf Hodd Hr Hn1 Hn2 He1 He2 Hi Ht Hx1 Hx2 Hix Hle.
  destruct (RInv_reachable members cfg_of Hwf Hodd _ Hr) as [h HR].
  destruct (enabled_inv members cfg_of _ _ _ _ HR Hn1) as [L1 Hl1], (enabled_inv members cfg_of _ _ _ _ HR Hn2) as [L2 Hl2].
  destruct (kept_entry _ _ _ _ _ _ Hl1 He1) as [Hb1 Ht1], (kept_entry _ _ _ _ _ _ Hl2 He2) as [Hb2 Ht2].
  assert (take (N.to_nat (Index e1)) L1 = take (N.to_nat (Index e1)) L2) as Heq.
  { eapply (same_end h); [apply (ni_log _ _ _ _ _ Hl1)|apply (ni_log _ _ _ _ _ Hl2)|done|by rewrite Hi|].
    rewrite <- Ht1, Ht, Ht2. by rewrite Hi. }
  pose proof (take_of_take_eq (N.to_nat (Index x1)) _ _ _ Heq ltac:(lia)) as Hx. split.
  - destruct (kept_entry _ _ _ _ _ _ Hl1 Hx1) as [_ ->], (kept_entry _ _ _ _ _ _ Hl2 Hx2) as [_ ->].
    by rewrite <- Hix, Hx.
  - intros [Hlo Hk1]%(tail_entry _ _ _ _ _ _ Hl1) [_ Hk2]%(tail_entry _ _ _ _ _ _ Hl2).
    apply (f_equal (λ l, l !! (N.to_nat (Index x1) - 1))) in Hx. rewrite !lookup_take_lt, Hk1, Hix, Hk2 in Hx by lia.
    congruence.
Qed.

(** "b" has both entries, "c" the second one after the snapshot. *)
Lemma log_matching_witness : ∃ (R : RWorld MemoryStorage) nb nc,
  rreachable three (cfg_among three) R ∧ enabled R "b" nb ∧ enabled R "c" nc ∧
  n_log nb = [boundary 0 0; MkEntry 1 1 cmd_x; entry_y] ∧ n_log nc = [boundary 1 1; entry_y] ∧
  (Term (MkEntry 1 1 cmd_x) = Term (boundary 1 1) ∧
   (MkEntry 1 1 cmd_x ∈ tail (n_log nb) → boundary 1 1 ∈ tail (n_log nc) → MkEntry 1 1 cmd_x = boundary 1 1)).
Proof.
  destruct (run_result three (cfg_among three) (commit_x ++ compact_x ++ append_y) (fresh_rworld three)
    (λ R, node_is R "b" (λ n, bool_decide (n_log n = [boundary 0 0; MkEntry 1 1 cmd_x; entry_y])) &&
          node_is R "c" (λ n, bool_decide (n_log n = [boundary 1 1; entry_y]))))
    as (R & _ & HR & [Hb Hc]%andb_true_iff); [apply rreach_init, fresh_rinitial|by vm_compute|].
  destruct (node_is_enabled _ _ _ Hb) as (nb & Hnb & Hlb%bool_decide_eq_true).
  destruct (node_is_enabled _ _ _ Hc) as (nc & Hnc & Hlc%bool_decide_eq_true).
  exists R, nb, nc. do 5 (split; [assumption|]).
  refine (log_matching three (cfg_among three) R "b" nb "c" nc entry_y entry_y (MkEntry 1 1 cmd_x) (boundary 1 1)
    three_wf (ex_intro _ 1 eq_refl) HR Hnb Hnc _ _ eq_refl eq_refl _ _ eq_refl _);
    rewrite ?Hlb, ?Hlc; by repeat constructor.
Defined.

(** C12: nodes of a running cluster are well-formed and never panic.  In every
    reachable world of a cluster of odd size in which snapshots are delivered
    where [installable], an enabled node is consistent with itself and its storage,
    and every critical section the cluster offers it - any request, snapshot or
    reply in flight, any proposal, compaction, timer or delivery - runs to its
    end and leaves it consistent, or disabled by a storage error. *)
Theorem cluster_in_service {S} `{StorageSpec S} members cfg_of (R : RWorld S) p n op :
  cluster_wf (S := S) members cfg_of → Nat.Odd (length members) → rreachable members cfg_of R →
  enabled R p n → offered R p n op →
  service n ∧ ∃ n', run_node_op op n = Val ((), n') ∧ serving n'.
Proof.
  intros Hwf Hodd Hr Hn Hof. destruct (RInv_reachable members cfg_of Hwf Hodd _ Hr) as [h HR].
  destruct (enabled_inv members cfg_of _ _ _ _ HR Hn) as [L Hl]. split; [apply (ni_service _ _ _ _ _ Hl)|].
  destruct (wp_total _ _ _ (offered_serving members cfg_of Hwf Hodd _ _ _ _ _ HR Hn Hof)) as ([] & n' & Hrun & Hs).
  by exists n'.
Qed.

Lemma cluster_in_service_witness : ∃ (R : RWorld MemoryStorage) n,
  rreachable three (cfg_among three) R ∧ enabled R "b" n ∧
  service n ∧ ∃ n', run_node_op (Local (OpHandle env0 (ReqAppend (MkAEArgs 1 "a" 0 0 [MkEntry 1 1 cmd_x] 0)))) n
                      = Val ((), n') ∧ serving n'.
Proof.
  destruct (run_result three (cfg_among three) (commit_x ++ compact_x) (fresh_rworld three)
    (λ R, node_is R "b" (λ _, true) &&
          bool_decide (("b" : NodeID, MkAEArgs 1 "a" 0 0 [MkEntry 1 1 cmd_x] 0) ∈ rw_requests R)))
    as (R & _ & HR & [Hb Hin%bool_decide_eq_true]%andb_true_iff).
  { apply rreach_init, fresh_rinitial. }
  { by vm_compute. }
  destruct (node_is_enabled _ _ _ Hb) as (n & Hn & _). exists R, n. split; [exact HR|]. split; [exact Hn|].
  exact (cluster_in_service three (cfg_among three) R "b" n (Local (OpHandle env0 (ReqAppend _)))
    three_wf (ex_intro _ 1 eq_refl) HR Hn Hin).
Defined.

(** C8: the cluster refines one log that is only appended to.  In a cluster of
    odd size, to whose nodes snapshots are delivered when [installable], there is
    beside every run a log that holds exactly what nodes have committed so far
    ([log_run]), whatever of it they have compacted since: the committed part of
    each enabled node's log is what compaction left of its beginning.  Each step
    of the cluster leaves that log or extends it, as far as the node that has
    committed most. *)
Theorem replication_refines_log {S} `{StorageSpec S} members cfg_of (R R' : RWorld S) C :
  cluster_wf (S := S) members cfg_of → Nat.Odd (length members) →
  log_run members cfg_of R C → rstep cfg_of R R' →
  ∃ C', C `prefix_of` C' ∧ log_run members cfg_of R' C' ∧ all_track R' C' ∧ length C' = committed_to R' (length C).
Proof.
  intros Hwf Hodd Hrun Hst. destruct (log_run_next members cfg_of Hwf Hodd R R' C Hrun Hst) as (C' & Hp & Hrun' & Hl).
  exists C'. split; [done|]. split; [done|]. split; [|done]. apply (log_run_inv members cfg_of Hwf Hodd R' C' Hrun').
Qed.

(** The length of the committed log along a schedule. *)
Fixpoint committed_along (cfg_of : NodeID → Config) (evs : list (REvent MemoryStorage)) R (k : nat) : nat :=
  match evs with
  | [] => k
  | ev :: evs => match rexec cfg_of ev R with Some R' => committed_along cfg_of evs R' (committed_to R' k) | None => k end
  end.

Lemma log_run_along members cfg_of evs (R R' : RWorld MemoryStorage) C :
  cluster_wf (S := MemoryStorage) members cfg_of → Nat.Odd (length members) → log_run members cfg_of R C →
  run_check cfg_of evs R = true → rexec_all cfg_of evs R = Some R' →
  ∃ C', log_run members cfg_of R' C' ∧ length C' = committed_along cfg_of evs R (length C).
Proof.
  intros Hwf Hodd. revert R C. induction evs as [|ev evs IH]; intros R C Hrun; cbn.
  { intros _ [= <-]. by exists C. }
  intros [Hev Hrest]%andb_true_iff (R1 & HR1 & Hall)%bind_Some. rewrite HR1 in *.
  destruct (log_run_next members cfg_of Hwf Hodd R R1 C Hrun) as (C1 & _ & Hrun1 & <-); [|by apply IH].
  apply (rexec_sound cfg_of ev); [|done]. destruct ev; [by apply event_check_ok|done..].
Qed.

(** "a", which has compacted the first entry, learns that "b" has the second
    one and commits it: the log grows by it. *)
Lemma replication_refines_log_witness : ∃ (R R' : RWorld MemoryStorage) C C' na,
  log_run three (cfg_among three) R C ∧ rstep (cfg_among three) R R' ∧ log_run three (cfg_among three) R' C' ∧
  C = [MkEntry 1 1 cmd_x] ∧ C' = [MkEntry 1 1 cmd_x; entry_y] ∧
  enabled R' "a" na ∧ n_log na = [boundary 1 1; entry_y] ∧ n_commitIndex na = 2%N.
Proof.
  set (cfg := cfg_among three). set (evs := commit_x ++ compact_x ++ append_y).
  set (ev := REvent_answer "b" (MkAEArgs 1 "a" 1 1 [entry_y] 1) (MkAEReply 1 true 0 0) : REvent MemoryStorage).
  set (atb := λ R : RWorld MemoryStorage, node_is R "b" (λ n, bool_decide (n_log n = [boundary 0 0; MkEntry 1 1 cmd_x; entry_y] ∧ n_commitIndex n = 1%N))).
  set (ata := λ R : RWorld MemoryStorage, node_is R "a" (λ n, bool_decide (n_log n = [boundary 1 1; entry_y] ∧ n_commitIndex n = 2%N))).
  assert (run_check cfg evs (fresh_rworld three) && bool_decide (committed_along cfg evs (fresh_rworld three) 0 = 1) &&
    from_option (λ R, atb R && from_option (λ R', ata R' && bool_decide (committed_to R' 1 = 2)) false (rexec cfg ev R)) false
      (rexec_all cfg evs (fresh_rworld three)) = true) as Hc by (by vm_compute).
  apply andb_true_iff in Hc as [[Hck Hl1%bool_decide_eq_true]%andb_true_iff Hc].
  destruct (rexec_all cfg evs _) as [R|] eqn:HR; [|done]. cbn [from_option] in Hc. apply andb_true_iff in Hc as [Hb Hc].
  destruct (rexec cfg ev R) as [R'|] eqn:HR'; [|done]. cbn [from_option] in Hc.
  apply andb_true_iff in Hc as [Ha Hl2%bool_decide_eq_true].
  destruct (log_run_along three cfg evs (fresh_rworld three) R [] three_wf (ex_intro _ 1 eq_refl)
    (lr_init three cfg _ (fresh_rinitial three)) Hck HR) as (C & Hrun & HlC). cbn [length] in HlC. rewrite Hl1 in HlC.
  assert (rstep cfg R R') as Hst by (by apply (rexec_sound cfg ev)).
  destruct (replication_refines_log three cfg R R' C three_wf (ex_intro _ 1 eq_refl) Hrun Hst)
    as (C' & Hp & Hrun' & Htr' & HlC'). rewrite HlC, Hl2 in HlC'.
  destruct (node_is_enabled _ _ _ Hb) as (nb & Hnb & [Elb Ecb]%bool_decide_eq_true).
  destruct (node_is_enabled _ _ _ Ha) as (na & Hna & [Ela Eca]%bool_decide_eq_true).
  destruct (log_run_inv three cfg three_wf (ex_intro _ 1 eq_refl) R C Hrun) as [Htr _].
  pose proof (tr_entries _ _ (Htr _ _ Hnb) (MkEntry 1 1 cmd_x)) as Hx. rewrite Elb, Ecb in Hx.
  pose proof (tr_entries _ _ (Htr' _ _ Hna) entry_y) as Hy. rewrite Ela, Eca in Hy.
  clear Hl1 Hl2 Hck HR HR' Ha Hb. specialize (Hx ltac:(by left) ltac:(done)). specialize (Hy ltac:(by left) ltac:(done)).
  destruct C as [|x [|? ?]]; [discriminate HlC| |discriminate HlC]. injection Hx as ->.
  destruct C' as [|x' [|y [|? ?]]]; [discriminate HlC'|discriminate HlC'| |discriminate HlC']. injection Hy as ->.
  apply prefix_cons_inv_1 in Hp as <-.
  exists R, R', [MkEntry 1 1 cmd_x], [MkEntry 1 1 cmd_x; entry_y], na. by split_and!.
Defined.
