(* ===== verification/RaftProgress.v ===== *)
(** * Proposals commit

    Safety says what a cluster never does; here is what it can always do.  From
    any reachable world in which a leader and enough of its peers are enabled,
    none of them ahead of the leader's term, there is a finite schedule of
    sends, deliveries and replies that brings every one of those peers up to
    date, snapshots included, and commits a new proposal.  The peers'
    [nextIndex] is the measure: each refused request moves it down, until the
    logs match or the leader sends its snapshot.  Storage is assumed not to fail
    ([ReliableStorage]); a node whose storage fails disables itself. *)
From S2P Require Import Prelude RaftTypes MemoryStorage RaftNode RaftVotes RaftCluster RaftElection RaftLog RaftReplicate RaftService RaftProperties RaftHistory RaftCompaction RaftReplication RaftMoves RaftInvariant RaftSafety RaftOrigins RaftAgreement.

(** ** Storage that does not fail *)
Class ReliableStorage (S : Type) `{StorageSpec S} : Prop := {
  save_hard_reliable (s : S) t v : wp True (SaveHardState t v) (λ e _, e = None) s;
  append_reliable (s : S) es : wp True (AppendLog es) (λ e _, e = None) s;
  truncate_reliable (s : S) from : sto_ok s → (first_index (Log (view s)) < from)%N →
    wp True (TruncateLog from) (λ e _, e = None) s;
  snapshot_reliable (s : S) i t d : wp True (SaveSnapshot i t d) (λ e _, e = None) s;
}.

#[export] Instance MemoryStorage_Reliable : ReliableStorage MemoryStorage.
Proof.
  split; [done..| |].
  - intros s from Hok Hlt. cbn in Hlt. cbn [TruncateLog MemoryStorage_Storage]. unfold ms_TruncateLog. do 2 wp_step.
    destruct (N.leb_spec from (ms_lastIncludedIndex s)); [lia|]. wp_step. wp_step; [|by repeat wp_step].
    wp_step. apply wp_lift_go; [|done]. intros l _. by repeat wp_step.
  - intros s i t d. cbn [SaveSnapshot MemoryStorage_Storage]. unfold ms_SaveSnapshot. do 3 wp_step.
    wp_step; [apply wp_lift_go; [|done]; intros l _|]; by repeat wp_step.
Qed.

Section Reliable.
Context {S : Type} `{ReliableStorage S}.
Implicit Types (n : Node S).

(** Run on a node that is in service, [m] does not disable it. *)
Abbreviation harmless m n := (wp True m (λ _ n', n_failed n' = false) n).

Lemma wp_both_true {A} (m : GoM (Node S) A) (P Q R : A → Node S → Prop) n :
  wp False m P n → wp True m Q n → (∀ a n', P a n' → Q a n' → R a n') → wp True m R n.
Proof. intros HP HQ HR. unfold wp in *. destruct (m n) as [[a n']|]; [by apply HR|done]. Qed.

Lemma reliable_call (m : GoM S (option error)) (k : error → GoM (Node S) ()) n :
  n_failed n = false → wp True m (λ e _, e = None) (n_storage n) →
  harmless (storage_call m ≫= λ e, match e with Some e => k e | None => mret () end) n.
Proof.
  intros Hf Hm. unfold storage_call. do 2 wp_step. eapply wp_mono; [|exact Hm]. cbn. intros e s ->. by wp_step.
Qed.

Lemma saveHardState_harmless n t v : n_failed n = false → harmless (saveHardStateLocked t v) n.
Proof. intros Hf. unfold saveHardStateLocked. do 4 wp_step. by apply reliable_call, save_hard_reliable. Qed.

Lemma appendLog_harmless n es : n_failed n = false → harmless (appendLogLocked es) n.
Proof. intros Hf. unfold appendLogLocked. do 2 wp_step. by apply reliable_call, append_reliable. Qed.

Lemma truncateLog_harmless n from :
  n_failed n = false → disk n → (first_index (n_log n) < from)%N → harmless (truncateLogLocked from) n.
Proof.
  intros Hf Hd Hlt. destruct (Hd Hf) as (Hok & _ & _ & _ & Hsame & _).
  unfold truncateLogLocked. do 3 wp_step. apply wp_lift_go; [|done]. intros l _. do 2 wp_step.
  apply reliable_call; [done|]. apply truncate_reliable; [done|]. cbn. by rewrite Hsame.
Qed.

Lemma observeLeader_harmless n e t l : n_failed n = false → harmless (observeLeader e t l) n.
Proof.
  intros Hf. unfold observeLeader, becomeFollowerLocked, resetElectionDeadlineLocked. do 3 wp_step.
  eapply (wp_mono _ _ (λ _ n', n_failed n' = false)).
  - cbn. intros _ n1 Hf1. do 3 wp_step; [done|]. repeat wp_step. done.
  - wp_step; [|by repeat wp_step]. do 4 wp_step. wp_step; [|done]. by apply saveHardState_harmless.
Qed.

Lemma append_loop_harmless n idx es :
  node_ok n → (n_lastIncludedIndex n < idx)%N → harmless (append_loop idx es) n.
Proof.
  intros (Hf & [Wl Wf _ Wb _ _ _ _ _] & Hd) Hlt. pose proof two63_lt_two64. revert idx Hlt. induction es as [|e es IH]; intros idx Hlt; [done|]. cbn [append_loop].
  do 3 wp_step. apply wp_lift_go; [|done]. intros last Hl. cbn. wp_step; [|by apply appendLog_harmless].
  wp_step. apply wp_lift_go; [|done]. intros t _. cbn. wp_step.
  - apply IH. rewrite lastIndex_val in Hl by done. injection Hl as <-. reflect_guards.
    rewrite u64_add_small by lia. lia.
  - wp_step. eapply wp_mono; [|by apply truncateLog_harmless; rewrite ?Wf]. cbn. intros _ n1 Hf1.
    do 3 wp_step; [done|]. by apply appendLog_harmless.
Qed.

Lemma appendEntries_checked_harmless n args :
  node_ok n → (n_lastIncludedIndex n ≤ ae_PrevLogIndex args)%N → (ae_PrevLogIndex args + 1 < two64)%N →
  harmless (appendEntries_checked args) n.
Proof.
  intros Hok Hle Hb. pose proof (proj1 Hok) as Hf. unfold appendEntries_checked, notifyApply.
  do 3 wp_step. apply wp_lift_go; [|done]. intros last _. cbn. wp_step; [done|].
  wp_step. apply wp_lift_go; [|done]. intros pt _. cbn. wp_step; [done|].
  wp_step. eapply wp_mono; [|apply append_loop_harmless; [done|]; rewrite u64_add_small by lia; lia].
  cbn. intros _ n1 Hf1. do 2 wp_step. rewrite Hf1. wp_step. apply wp_lift_go; [|done]. intros last' _. cbn.
  do 2 wp_step; by repeat wp_step.
Qed.

Lemma handleAppendEntries_harmless n e args :
  node_ok n → ae_valid n args → harmless (handleAppendEntries e args) n.
Proof.
  intros Hok Hv. pose proof Hok as (Hf & Hw & _). pose proof (av_bound _ _ Hv). pose proof two63_lt_two64.
  unfold handleAppendEntries. do 2 wp_step. rewrite Hf. destruct (N.ltb_spec (ae_Term args) (n_currentTerm n)); [by wp_step|].
  wp_step. eapply wp_both_true; [by apply observeLeader_spec; [|apply Hv|]|by apply observeLeader_harmless|].
  cbn. intros _ n1 [Hfr Hok1] Hf1. destruct (Hok1 Hf1) as (Hok2 & _). do 2 wp_step. rewrite Hf1.
  pose proof (wf_bound _ (proj1 (proj2 Hok2))). pose proof (wf_commit _ (proj1 (proj2 Hok2))).
  pose proof (wf_applied _ (proj1 (proj2 Hok2))). pose proof (wf_committed _ (proj1 (proj2 Hok2))).
  destruct (N.ltb_spec (ae_PrevLogIndex args) (n_lastIncludedIndex n1)).
  - wp_step; [by wp_step|]. wp_step. apply wp_lift_go; [|done]. intros rest _.
    apply appendEntries_checked_harmless; cbn; [done|lia|lia].
  - apply appendEntries_checked_harmless; [done|lia|lia].
Qed.

Lemma handleInstallSnapshot_harmless n e args :
  n_failed n = false → harmless (handleInstallSnapshot e args) n.
Proof.
  intros Hf. unfold handleInstallSnapshot. do 2 wp_step. rewrite Hf. wp_step; [by wp_step|]. wp_step.
  eapply wp_mono; [|by apply observeLeader_harmless]. cbn. intros _ n1 Hf1. do 2 wp_step. rewrite Hf1. wp_step; [by wp_step|].
  unfold installSnapshot_checked, installSnapshot_log, storage_call, notifyApply.
  do 2 wp_step. eapply wp_mono; [|apply snapshot_reliable]. cbn. intros err st ->. wp_step.
  eapply (wp_mono _ _ (λ _ n', n_failed n' = false)); [intros _ n2 Hf2; by repeat wp_step|].
  do 3 wp_step. apply wp_lift_go; [|done]. intros keep _. wp_step; [|by wp_step].
  wp_step. apply wp_lift_go; [|done]. intros l _. by wp_step.
Qed.

Lemma Propose_harmless n cmd : n_failed n = false → harmless (Propose cmd) n.
Proof.
  intros Hf. unfold Propose. do 3 wp_step; [by wp_step|]. wp_step. apply wp_lift_go; [|done]. intros last _. cbn.
  wp_step. eapply wp_mono; [|by apply appendLog_harmless]. cbn. intros _ n1 Hf1. do 2 wp_step. rewrite Hf1. wp_step.
  eapply (wp_mono _ _ (λ _ n', n_failed n' = false)); [intros _ n2 Hf2; by wp_step|].
  unfold maybeAdvanceCommitLocked, notifyApply. do 3 wp_step; [done|]. wp_step. apply wp_lift_go; [|done]. intros lst _. cbn.
  wp_step. apply wp_lift_go; [|done]. intros [i|] _; by repeat wp_step.
Qed.
End Reliable.

(** ** The leader's bookkeeping *)
Section Leader.
Context {S : Type} `{StorageSpec S}.
Implicit Types (n : Node S).

(** There is nothing left for the commit rule to commit. *)
Definition settled n : Prop := ∀ i, ¬ may_commit n i.

(** [n'] leads the same term with the same log as [n]; only its commit index may
    have moved up, and its record of the progress of [Q]. *)
Record still_leads (Q : list NodeID) n n' : Prop := {
  sl_cfg : n_cfg n' = n_cfg n;
  sl_failed : n_failed n' = n_failed n;
  sl_role : n_role n' = Leader;
  sl_term : n_currentTerm n' = n_currentTerm n;
  sl_log : n_log n' = n_log n;
  sl_lii : n_lastIncludedIndex n' = n_lastIncludedIndex n;
  sl_lit : n_lastIncludedTerm n' = n_lastIncludedTerm n;
  sl_match r : r ∉ Q → map_get (n_matchIndex n') r = map_get (n_matchIndex n) r;
}.

Lemma still_leads_trans Q n1 n2 n3 : still_leads Q n1 n2 → still_leads Q n2 n3 → still_leads Q n1 n3.
Proof. intros [] []. split; try congruence. intros r Hr. rewrite <- sl_match0 by done. auto. Qed.

Lemma still_leads_mono Q Q' n n' : Q ⊆ Q' → still_leads Q n n' → still_leads Q' n n'.
Proof. intros Hsub []. split; auto. Qed.

Lemma commit_outcome_settled n n' : n_role n = Leader → commit_outcome n n' → settled n'.
Proof.
  intros HL [(_ & i & [Hi _] & Hmax & ->)|[Hno ->]]; [|exact (Hno HL)].
  intros j (Hj & He & Hc). cbn in Hj. assert (j ≤ i)%N; [|lia]. apply Hmax. split; [lia|by split].
Qed.

Lemma advance_progress_reach n q m :
  wp True (advance_progress q m) (λ _ n', (m ≤ map_get (n_matchIndex n') q)%N ∧
    map_get (n_nextIndex n') q = N.max (map_get (n_nextIndex n) q) (u64_add m 1)) n.
Proof.
  unfold advance_progress, set_next. do 3 wp_step.
  eapply (wp_mono _ _ (λ _ n', (m ≤ map_get (n_matchIndex n') q)%N ∧ n_nextIndex n' = n_nextIndex n)).
  - cbn. intros _ n1 [Hm Hn]. do 2 wp_step. wp_step; reflect_guards; [wp_step|]; cbn; rewrite Hn in *.
    + split; [done|]. unfold map_get at 1. rewrite lookup_insert_eq. cbn. lia.
    + split; [done|]. lia.
  - wp_step; reflect_guards; [wp_step|]; cbn; [|done]. split; [|done]. unfold map_get. rewrite lookup_insert_eq. done.
Qed.

(** An acknowledgement of everything up to [m]. *)
Lemma counts_ack n q m n' :
  service n → n_role n = Leader → (m < next_index (n_log n))%N →
  (advance_progress q m ;; maybeAdvanceCommitLocked) n = Val ((), n') →
  still_leads [q] n n' ∧ settled n' ∧ (m ≤ map_get (n_matchIndex n') q)%N ∧
  map_get (n_nextIndex n') q = N.max (map_get (n_nextIndex n) q) (m + 1).
Proof.
  intros Hs HL Hm Hrun. pose proof (wf_bound _ (proj1 (proj2 (proj1 Hs)))). pose proof two63_lt_two64.
  unfold mbind, GoM_bind in Hrun. destruct (advance_progress q m n) as [[[] n1]|] eqn:Ha; [|done].
  destruct (wp_run _ _ _ _ _ _ (advance_progress_reach n q m) Ha) as [Hr Hn].
  destruct (wp_run _ _ _ _ _ _ (advance_progress_serving n q m Hs Hm) Ha) as [Hs1 _].
  destruct (wp_run _ _ _ _ _ _ (advance_progress_progressed n q m) Ha) as [[] Hr1 Hmt _].
  pose proof (wp_run _ _ _ _ _ _ (maybeAdvanceCommit_spec n1 (proj1 (proj2 (proj1 Hs1)))) Hrun) as Hco.
  rewrite u64_add_small in Hn by lia. assert (n_role n1 = Leader) as HL1 by congruence.
  pose proof (commit_outcome_settled _ _ HL1 Hco) as Hse.
  assert (∀ r, r ∉ [q] → map_get (n_matchIndex n1) r = map_get (n_matchIndex n) r) as Hmt'.
  { intros r Hne. destruct (Hmt r) as [?|[-> _]]; [done|]. destruct Hne. by left. }
  by destruct Hco as [(_ & i & _ & _ & ->)|[_ ->]].
Qed.
(** What a quorum has acknowledged is committed. *)
Lemma settled_commits n Q i e :
  settled n → NoDup Q → Q ⊆ n_peers n → majority_of (n_peers n) ≤ 1 + length Q → (i < next_index (n_log n))%N →
  n_log n !! N.to_nat (i - n_lastIncludedIndex n) = Some e → Term e = n_currentTerm n →
  (∀ q, q ∈ Q → (i ≤ map_get (n_matchIndex n) q)%N) → (i ≤ n_commitIndex n)%N.
Proof.
  intros Hs Hnd Hsub Hmaj Hi He Ht Hm. apply N.le_ngt. intros Hlt. apply (Hs i). split; [done|].
  split; [by exists e|]. etrans; [exact Hmaj|]. apply le_n_S, submseteq_length, NoDup_submseteq; [done|].
  intros q Hq. apply list_elem_of_filter. auto.
Qed.
End Leader.

(** ** One round with a peer *)
Section Rounds.
Context {S : Type} `{ReliableStorage S}.
Implicit Types (n : Node S) (R : RWorld S) (h : Hist).
Variable members : list NodeID.
Variable cfg_of : NodeID → Config.
Hypothesis Hwf : cluster_wf (S := S) members cfg_of.
Hypothesis Hodd : Nat.Odd (length members).

(** The snapshot [n] would send. *)
Definition snapshot_of n : InstallSnapshotArgs :=
  MkISArgs (n_currentTerm n) (n_id n) (n_lastIncludedIndex n) (n_lastIncludedTerm n) (n_snapshotData n).

(** The leader [p] and its peer [q], both enabled, [q] not ahead of the leader's
    term and free to take the leader's snapshot. *)
Record engaged R (p : NodeID) n (q : NodeID) nq : Prop := {
  en_reachable : rreachable members cfg_of R;
  en_leader : enabled R p n;
  en_role : n_role n = Leader;
  en_peer : enabled R q nq;
  en_in : q ∈ n_peers n;
  en_term : (n_currentTerm nq ≤ n_currentTerm n)%N;
  en_installable : installable nq (snapshot_of n);
}.

(** The cluster after an exchange between [p] and [q]. *)
Record round (p q : NodeID) R n R' n' : Prop := {
  rd_steps : rtc (rstep cfg_of) R R';
  rd_leader : enabled R' p n';
  rd_leads : still_leads [q] n n';
  rd_others r : r ≠ p → r ≠ q → w_procs (rw_world R') !! r = w_procs (rw_world R) !! r;
}.

Lemma round_trans p q R1 n1 R2 n2 R3 n3 :
  round p q R1 n1 R2 n2 → round p q R2 n2 R3 n3 → round p q R1 n1 R3 n3.
Proof.
  intros [S1 _ L1 O1] [S2 E2 L2 O2]. split; [by etrans|done|by eapply still_leads_trans|].
  intros r Hp Hq. by rewrite O2, O1.
Qed.

(** [p] and [q] are different processes. *)
Lemma engaged_apart R p n q nq : engaged R p n q nq → p ≠ q ∧ n_id n = p.
Proof.
  intros [Hr [Hp Hf] _ _ Hin _ _]. destruct (RInv_reachable members cfg_of Hwf Hodd _ Hr) as [h HR].
  destruct (inv_up _ _ _ (ri_inv _ _ _ _ HR) _ _ Hp) as (Hm & _ & Hid & Hpe). split; [|done].
  intros <-. rewrite Hpe in Hin. by apply (cw_peers _ _ Hwf _ Hm).
Qed.

(** A request that starts inside what the peer has committed matches. *)
Lemma committed_consistent h R q nq L args :
  RInv members cfg_of h R → req_ok members cfg_of h (w_led (rw_world R)) q args → node_inv members h q nq L →
  (n_currentTerm nq ≤ ae_Term args)%N → (ae_PrevLogIndex args ≤ n_commitIndex nq)%N → ae_consistent nq args = true.
Proof.
  intros HR Hreq Hn Hle Hc. destruct (rq_log _ _ _ _ _ _ Hreq) as (G & HG & _ & Hpt & _).
  destruct (node_bounds _ _ _ _ _ Hn) as [Hnx Hb]. pose proof (node_lii_log _ _ _ _ _ Hn) as Hfi.
  unfold ae_consistent. destruct (N.ltb_spec (ae_PrevLogIndex args) (n_lastIncludedIndex nq)); [done|].
  unfold next_index in Hnx. destruct (lookup_lt_is_Some_2 (n_log nq)
    (N.to_nat (ae_PrevLogIndex args - n_lastIncludedIndex nq))) as [e He]; [lia|]. rewrite He. apply N.eqb_eq.
  rewrite (whole_term _ _ _ _ (pl_whole _ _ _ _ (ni_log _ _ _ _ _ Hn)) He), Hpt, Hfi.
  destruct (committed_with_leader members cfg_of Hodd h R q nq L _ G (N.to_nat (ae_PrevLogIndex args)) HR Hn Hle HG) as [<- _]; [lia|].
  f_equal. f_equal. lia.
Qed.

Lemma last_term_take (L : Entries) k e : L !! k = Some e → last_term (take (Datatypes.S k) L) = Term e.
Proof. intros He. by rewrite (take_S_r _ _ _ He), last_term_snoc. Qed.

(** The logs of a leader and its peer match in the sense of the paper. *)
Lemma logs_match h R p n q nq L Lq args :
  RInv members cfg_of h R → req_ok members cfg_of h (w_led (rw_world R)) q args →
  node_inv members h p n L → node_inv members h q nq Lq → n_role n = Leader → n_currentTerm n = ae_Term args →
  (0 < ae_PrevLogIndex args)%N →
  ∀ x y, x ∈ n_log nq → Index x = ae_PrevLogIndex args → y ∈ n_log n →
    (ae_PrevLogIndex args ≤ Index y)%N → Term y = Term x → Term x = ae_PrevLogTerm args.
Proof.
  intros HR Hreq Hn Hnq HL Ht Hpos x y Hx Hix Hy Hle Hxy.
  destruct (rq_log _ _ _ _ _ _ Hreq) as (G & HG & _ & -> & _).
  destruct (ni_lead _ _ _ _ _ Hn HL) as (HG' & _). rewrite Ht in HG'. replace G with L in * by congruence.
  destruct (kept_entry _ _ _ _ _ _ Hnq Hx) as [Hbx Htx], (kept_entry _ _ _ _ _ _ Hn Hy) as [Hby Hty].
  rewrite Hix in *. set (k := N.to_nat (ae_PrevLogIndex args)) in *.
  destruct (lookup_lt_is_Some_2 Lq (k - 1)) as [ex Hex]; [lia|].
  destruct (lookup_lt_is_Some_2 L (N.to_nat (Index y) - 1)) as [ey Hey]; [lia|].
  pose proof (last_term_take _ _ _ Hex) as Ex. pose proof (last_term_take _ _ _ Hey) as Ey.
  replace (Datatypes.S (k - 1)) with k in Ex by lia.
  replace (Datatypes.S (N.to_nat (Index y) - 1)) with (N.to_nat (Index y)) in Ey by lia.
  destruct (pl_cons _ _ _ _ (ni_log _ _ _ _ _ Hnq) _ _ Hex) as (G1 & HG1 & E1).
  destruct (pl_cons _ _ _ _ (ni_log _ _ _ _ _ Hn) _ _ Hey) as (G2 & HG2 & E2).
  replace G2 with G1 in * by congruence.
  rewrite Htx. f_equal. transitivity (take k G1); [eapply take_of_take_eq; [exact E1|lia]|].
  symmetry. eapply take_of_take_eq; [exact E2|lia].
Qed.

(** The request arrives and is answered. *)
Lemma append_delivered R p n q nq args :
  engaged R p n q nq → (q, args) ∈ rw_requests R → ae_Term args = n_currentTerm n →
  ∃ rep nq', handleAppendEntries env0 args nq = Val (inl rep, nq') ∧ ae_valid nq args ∧ ae_post nq args (ae_Term args) (inl rep) nq'.
Proof.
  intros Hen Hin Ht. destruct Hen as [Hr _ _ Hq _ Hle _]. rewrite <- Ht in Hle.
  destruct (RInv_reachable members cfg_of Hwf Hodd _ Hr) as [h HR].
  destruct (enabled_inv members cfg_of _ _ _ _ HR Hq) as [Lq Hnq].
  pose proof (req_valid members cfg_of Hodd _ _ _ _ _ _ HR (ri_req _ _ _ _ HR _ _ Hin) Hnq Hle) as Hv.
  pose proof (proj1 (ni_service _ _ _ _ _ Hnq)) as Hok.
  destruct (wp_total _ _ _ (handleAppendEntries_spec nq env0 args Hok Hv)) as (r & nq' & Hrun & Hpost).
  pose proof (wp_run _ _ _ _ _ _ (handleAppendEntries_harmless nq env0 args Hok Hv) Hrun) as Hf'.
  destruct (N.ltb_spec (ae_Term args) (n_currentTerm nq)); [lia|].
  destruct r as [rep|err]; [by exists rep, nq'|]. cbn in *. congruence.
Qed.

(** What the answer does to the leader: everything is acknowledged, or the next
    request starts further back. *)
Lemma answer_counted h R p n q nq args rep nq' n' :
  RInv members cfg_of h R → engaged R p n q nq → (q, args) ∈ rw_requests R → sent_ok n (n_currentTerm n) args →
  (ae_PrevLogIndex args + 1 = map_get (n_nextIndex n) q)%N →
  handleAppendEntries env0 args nq = Val (inl rep, nq') → ae_valid nq args → ae_post nq args (ae_Term args) (inl rep) nq' →
  onAppendReply q (ae_Term args) args rep n = Val ((), n') →
  still_leads [q] n n' ∧ n_failed n' = false ∧
  if ae_consistent nq args
  then settled n' ∧ (next_index (n_log n) - 1 ≤ map_get (n_matchIndex n') q)%N
  else (n_commitIndex nq + 1 < map_get (n_nextIndex n) q)%N ∧
    (map_get (n_nextIndex n') q < map_get (n_nextIndex n) q)%N.
Proof.
  intros HR Hen Hin Hso Hnext Hrun Hv Hpost Hback. pose proof Hen as [_ Hp HL Hq Hqp Hle _].
  destruct (enabled_inv members cfg_of _ _ _ _ HR Hp) as [L Hn], (enabled_inv members cfg_of _ _ _ _ HR Hq) as [Lq Hnq].
  pose proof (ri_req _ _ _ _ HR _ _ Hin) as Hreq. pose proof (ni_service _ _ _ _ _ Hn) as Hs.
  pose proof (proj1 (so_term _ _ _ Hso)) as Ht. pose proof (so_last _ _ _ Hso) as Hlast. rewrite <- Ht in Hle.
  assert (not_leading n (ae_Term args) = false) as Hnl by (apply not_leading_false; rewrite Ht; split; [apply Hp|done]).
  destruct Hpost as (_ & _ & Hrep & _). unfold ae_reply in Hrep. destruct (ae_consistent nq args) eqn:Hco.
  - revert Hback. unfold onAppendReply at 1, mbind at 1, GoM_bind at 1, get. rewrite (proj2 Hp), Hnl, Hrep. cbn [aer_Term aer_Success].
    rewrite Ht, N.ltb_irrefl. pose proof (wf_bound _ (proj1 (proj2 (proj1 Hs)))). pose proof two63_lt_two64.
    rewrite u64_add_small by lia. intros Hback.
    destruct (counts_ack n q (ae_PrevLogIndex args + N.of_nat (length (ae_Entries args))) n' Hs HL ltac:(lia) Hback) as (Hsl & Hse & Hm & _).
    split; [done|]. split; [|split; [done|lia]]. rewrite (sl_failed _ _ _ Hsl). apply Hp.
  - assert (aer_Success rep = false) as Hsu by (by rewrite Hrep).
    assert (n_commitIndex nq < ae_PrevLogIndex args)%N as Hci.
    { apply N.lt_nge. intros Hc. rewrite (committed_consistent h R q nq Lq args HR Hreq Hnq Hle Hc) in Hco. done. }
    pose proof (fast_backup_progress nq n q args env0 rep nq' n' (proj1 (ni_service _ _ _ _ _ Hnq)) Hv Hle ltac:(lia)
      Hrun Hsu Hs HL (eq_sym Ht) (logs_match h R p n q nq L Lq args HR Hreq Hn Hnq HL (eq_sym Ht) ltac:(lia)) Hback) as Hb.
    rewrite (onAppendReply_refused n q (ae_Term args) args rep Hnl Hsu) in Hback by (rewrite Hrep; cbn; lia).
    injection Hback as <-. split; [by split|]. split; [apply Hp|]. lia.
Qed.

(** Traffic leaves the nodes as they are. *)
Lemma engaged_step R R' p n q nq :
  engaged R p n q nq → rstep cfg_of R R' → rw_world R' = rw_world R → engaged R' p n q nq.
Proof.
  intros [Hr Hp HL Hq Hin Hle Hi] Hst E. split; unfold enabled; rewrite ?E; try done. by eapply rreach_step.
Qed.

Lemma enabled_other R p n q nq : enabled R p n → p ≠ q → enabled (on_world (set_proc q nq) R) p n.
Proof. intros [Hp Hf] Hne. split; [|done]. cbn. by rewrite lookup_insert_ne. Qed.

Lemma enabled_self R q nq : n_failed nq = false → enabled (on_world (set_proc q nq) R) q nq.
Proof. intros Hf. split; [|done]. cbn. by rewrite lookup_insert_eq. Qed.

Lemma installable_same (n n' nq nq' : Node S) :
  n_log nq' = n_log nq → n_commitIndex nq' = n_commitIndex nq → n_lastIncludedIndex n' = n_lastIncludedIndex n →
  n_lastIncludedTerm n' = n_lastIncludedTerm n → installable nq (snapshot_of n) → installable nq' (snapshot_of n').
Proof. intros E1 E2 E3 E4. unfold installable. cbn. by rewrite E1, E2, E3, E4. Qed.

(** The last step of an exchange, in which the leader takes note. *)
Lemma round_made R R2 p q n n' nq' :
  p ≠ q → rtc (rstep cfg_of) R R2 → w_procs (rw_world R2) = <[q := Up nq']> (w_procs (rw_world R)) →
  rstep cfg_of R2 (on_world (set_proc p n') R2) → still_leads [q] n n' → n_failed n' = false →
  round p q R n (on_world (set_proc p n') R2) n'.
Proof.
  intros Hpq Hst E Hl Hsl Hf. split; [|by apply enabled_self|done|].
  - etrans; [exact Hst|by apply rtc_once].
  - intros r Hp Hq. cbn. by rewrite lookup_insert_ne, E, lookup_insert_ne.
Qed.

Lemma engaged_again R R2 p q n n' nq nq' :
  engaged R p n q nq → rreachable members cfg_of (on_world (set_proc p n') R2) →
  w_procs (rw_world R2) = <[q := Up nq']> (w_procs (rw_world R)) → still_leads [q] n n' → n_failed n' = false →
  n_failed nq' = false → n_currentTerm nq' = n_currentTerm n → installable nq' (snapshot_of n') →
  engaged (on_world (set_proc p n') R2) p n' q nq'.
Proof.
  intros Hen Hr E [Ec _ Er Et _ _ _ _] Hf Hf' Ht Hi. destruct (engaged_apart _ _ _ _ _ Hen) as [Hpq _].
  split; [done|by apply enabled_self|done| | |by rewrite Et, Ht|done].
  - split; [|done]. cbn. by rewrite lookup_insert_ne, E, lookup_insert_eq.
  - unfold n_peers. rewrite Ec. apply Hen.
Qed.

(** The leader sends, the peer answers, the leader takes note. *)
Lemma append_sent R p n q nq :
  engaged R p n q nq → (n_lastIncludedIndex n < map_get (n_nextIndex n) q)%N →
  ∃ args, let R1 := add_request (q, args) R in rstep cfg_of R R1 ∧ engaged R1 p n q nq ∧ ae_LeaderID args = p ∧
    sent_ok n (n_currentTerm n) args ∧ (ae_PrevLogIndex args + 1 = map_get (n_nextIndex n) q)%N.
Proof.
  intros Hen Hnx. destruct (engaged_apart _ _ _ _ _ Hen) as [Hpq Hid].
  destruct (RInv_reachable members cfg_of Hwf Hodd _ (en_reachable _ _ _ _ _ Hen)) as [h HR].
  destruct (enabled_inv members cfg_of _ _ _ _ HR (en_leader _ _ _ _ _ Hen)) as [L Hn].
  destruct (wp_total _ _ _ (replicateToPeer_spec n q (n_currentTerm n) (ni_service _ _ _ _ _ Hn)))
    as (out & n0 & Hsend & -> & Hout).
  destruct out as [|args|]; [|destruct Hout as [Hso Hnext]|lia].
  { rewrite (proj2 (not_leading_false n (n_currentTerm n))) in Hout; [done|].
    split; [apply (en_leader _ _ _ _ _ Hen)|]. split; [apply (en_role _ _ _ _ _ Hen)|done]. }
  exists args. assert (rstep cfg_of R (add_request (q, args) R)) as St by (eapply rs_send; [apply Hen|apply Hen|exact Hsend]).
  split; [done|]. split; [by eapply engaged_step|]. split; [|done]. rewrite <- Hid. apply (so_term _ _ _ Hso).
Qed.

Lemma answer_delivered R p n q args rep :
  rreachable members cfg_of R → enabled R p n → (q, args, rep) ∈ rw_answers R → ae_LeaderID args = p →
  ∃ n', onAppendReply q (ae_Term args) args rep n = Val ((), n') ∧ rstep cfg_of R (on_world (set_proc p n') R).
Proof.
  intros Hr Hp Hin Hid. destruct (RInv_reachable members cfg_of Hwf Hodd _ Hr) as [h HR].
  destruct (enabled_inv members cfg_of _ _ _ _ HR Hp) as [L Hn]. rewrite <- Hid in Hp |- *.
  pose proof (answer_valid members cfg_of _ _ _ _ _ _ HR (ri_ans _ _ _ _ HR _ _ _ Hin) (proj1 Hp) (proj2 Hp)) as Hv.
  destruct (wp_total _ _ _ (onAppendReply_serving n q _ args rep (ni_service _ _ _ _ _ Hn) Hv)) as ([] & n' & Hback & _).
  exists n'. split; [done|]. by eapply rs_answer; [|apply Hp|].
Qed.

Lemma append_round R p n q nq :
  engaged R p n q nq → (n_lastIncludedIndex n < map_get (n_nextIndex n) q)%N →
  ∃ R' n', round p q R n R' n' ∧
    (settled n' ∧ (next_index (n_log n) - 1 ≤ map_get (n_matchIndex n') q)%N ∨
     (n_commitIndex nq + 1 < map_get (n_nextIndex n) q)%N ∧
     (map_get (n_nextIndex n') q < map_get (n_nextIndex n) q)%N ∧ ∃ nq', engaged R' p n' q nq').
Proof.
  intros Hen Hnx. destruct (engaged_apart _ _ _ _ _ Hen) as [Hpq _].
  destruct (append_sent _ _ _ _ _ Hen Hnx) as (args & St1 & Hen1 & Hid & Hso & Hnext).
  set (R1 := add_request (q, args) R) in *. assert ((q, args) ∈ rw_requests R1) as Hin by left.
  pose proof (proj1 (so_term _ _ _ Hso)) as Ht.
  destruct (append_delivered _ _ _ _ _ _ Hen1 Hin Ht) as (rep & nq' & Hrun & Hv & Hpost).
  set (R2 := add_answer q args (inl rep) (on_world (set_proc q nq') R1)).
  assert (rstep cfg_of R1 R2) as St2 by (eapply rs_append; [exact Hin|apply Hen1|exact Hrun]).
  assert (rreachable members cfg_of R2) as Hr2 by (eapply rreach_step; [apply Hen1|exact St2]).
  destruct (answer_delivered R2 p n q args rep Hr2) as (n' & Hback & St3);
    [by apply enabled_other; [apply Hen|]|left|exact Hid|].
  destruct (RInv_reachable members cfg_of Hwf Hodd _ (en_reachable _ _ _ _ _ Hen1)) as [h1 HR1].
  destruct (answer_counted _ _ _ _ _ _ _ _ _ _ HR1 Hen1 Hin Hso Hnext Hrun Hv Hpost Hback) as (Hsl & Hf' & Hcase).
  exists (on_world (set_proc p n') R2), n'. split.
  { eapply round_made; [done| |done|exact St3|done|done]. by eapply rtc_l; [exact St1|apply rtc_once]. }
  unfold ae_post in Hpost. destruct (ae_consistent nq args); [by left|right]. destruct Hcase as [Hc Hlt].
  split; [done|]. split; [done|]. destruct Hpost as ((Hfq & _) & Htq & _ & _ & _ & Hlq & Hcq). exists nq'.
  eapply engaged_again; [exact Hen|by eapply rreach_step|done|done|done|done|congruence|].
  eapply installable_same; [done|done|apply Hsl|apply Hsl|apply Hen].
Qed.

(** The snapshot arrives and is installed, unless the peer has one that goes as far. *)
Lemma snapshot_delivered R p n q nq :
  engaged R p n q nq → (q, snapshot_of n) ∈ rw_snapshots R →
  ∃ nq', handleInstallSnapshot env0 (snapshot_of n) nq = Val (inl (MkISReply (n_currentTerm n)), nq') ∧
    n_failed nq' = false ∧ n_currentTerm nq' = n_currentTerm n ∧ (n_lastIncludedIndex n ≤ n_commitIndex nq')%N.
Proof.
  intros [Hr _ _ Hq _ Hle Hinst] Hin. destruct (RInv_reachable members cfg_of Hwf Hodd _ Hr) as [h HR].
  destruct (enabled_inv members cfg_of _ _ _ _ HR Hq) as [Lq Hnq].
  pose proof (snap_valid members cfg_of Hodd _ _ _ _ _ _ HR (ri_snap _ _ _ _ HR _ _ Hin) Hnq Hle Hinst) as Hv.
  pose proof (proj1 (ni_service _ _ _ _ _ Hnq)) as Hok. destruct (node_bounds _ _ _ _ _ Hnq) as [_ Hb].
  destruct (wp_total _ _ _ (handleInstallSnapshot_spec nq env0 _ Hok Hv)) as (r & nq' & Hrun & Hpost).
  pose proof (wp_run _ _ _ _ _ _ (handleInstallSnapshot_harmless nq env0 _ (proj1 Hok)) Hrun) as Hf'.
  cbn [is_Term snapshot_of is_LastIncludedIndex] in *. destruct (N.ltb_spec (n_currentTerm n) (n_currentTerm nq)); [lia|].
  destruct r as [rep|err]; [|congruence]. destruct Hpost as (-> & Ht & _ & Hcase). exists nq'.
  split; [done|]. split; [done|]. split; [done|]. case_decide.
  - rewrite (cf_commit _ _ Hcase). lia.
  - rewrite (ins_commit _ _ _ Hcase). cbn. lia.
Qed.

Lemma install_delivered R p n q :
  rreachable members cfg_of R → enabled R p n → n_role n = Leader → n_id n = p →
  (q, snapshot_of n, MkISReply (n_currentTerm n)) ∈ rw_installs R → (map_get (n_nextIndex n) q ≤ n_lastIncludedIndex n)%N →
  ∃ n', rstep cfg_of R (on_world (set_proc p n') R) ∧ still_leads [q] n n' ∧
    map_get (n_nextIndex n') q = (n_lastIncludedIndex n + 1)%N.
Proof.
  intros Hr Hp HL Hid Hin Hnx. destruct (RInv_reachable members cfg_of Hwf Hodd _ Hr) as [h HR].
  destruct (enabled_inv members cfg_of _ _ _ _ HR Hp) as [L Hn]. destruct (node_bounds _ _ _ _ _ Hn) as [Hnl Hb].
  pose proof (ni_service _ _ _ _ _ Hn) as Hs. pose proof (wf_term _ (proj1 (proj2 (proj1 Hs)))).
  assert (not_leading n (n_currentTerm n) = false) as Hnot by (by apply not_leading_false; split; [apply Hp|]).
  destruct (wp_total _ _ _ (onSnapshotReply_serving n q (n_currentTerm n) (snapshot_of n) (MkISReply (n_currentTerm n)) Hs
    ltac:(done) ltac:(intros _; cbn; lia))) as ([] & n' & Hback & _).
  exists n'. split.
  { rewrite <- Hid in Hp |- *. exact (rs_installed _ R q (snapshot_of n) _ n n' Hin (proj1 Hp) Hback). }
  unfold onSnapshotReply at 1, mbind at 1, GoM_bind at 1, get in Hback. rewrite (proj2 Hp), Hnot in Hback. cbn [isr_Term] in Hback.
  rewrite N.ltb_irrefl in Hback.
  destruct (counts_ack n q (n_lastIncludedIndex n) n' Hs HL ltac:(lia) Hback) as (Hsl & _ & _ & ->). split; [done|]. lia.
Qed.

Lemma snapshot_round R p n q nq :
  engaged R p n q nq → (map_get (n_nextIndex n) q ≤ n_lastIncludedIndex n)%N →
  ∃ R' n' nq', round p q R n R' n' ∧ engaged R' p n' q nq' ∧
    map_get (n_nextIndex n') q = (n_lastIncludedIndex n + 1)%N ∧ (n_lastIncludedIndex n ≤ n_commitIndex nq')%N.
Proof.
  intros Hen Hnx. destruct (engaged_apart _ _ _ _ _ Hen) as [Hpq Hid]. pose proof (en_leader _ _ _ _ _ Hen) as [Hp Hf].
  set (R1 := add_snapshot (q, snapshot_of n) R).
  assert (rstep cfg_of R R1) as St1.
  { eapply (rs_snapshot _ _ p n q (n_currentTerm n)); [done|apply Hen|]. unfold sendInstallSnapshot, mbind, GoM_bind, get.
    rewrite (proj2 (not_leading_false n _)); [done|]. split; [done|]. split; [apply Hen|done]. }
  pose proof (engaged_step _ R1 _ _ _ _ Hen St1 eq_refl) as Hen1.
  assert ((q, snapshot_of n) ∈ rw_snapshots R1) as Hin by left.
  destruct (snapshot_delivered _ _ _ _ _ Hen1 Hin) as (nq' & Hrun & Hfq & Htq & Hc).
  set (R2 := add_install q (snapshot_of n) (inl (MkISReply (n_currentTerm n))) (on_world (set_proc q nq') R1)).
  assert (rstep cfg_of R1 R2) as St2 by (eapply rs_install; [exact Hin|apply Hen1|apply Hen1|exact Hrun]).
  assert (rreachable members cfg_of R2) as Hr2 by (eapply rreach_step; [apply Hen1|exact St2]).
  destruct (install_delivered R2 p n q) as (n' & St3 & Hsl & Hnx'); try done;
    [by apply enabled_other; [apply Hen|]|apply Hen|left|].
  assert (n_failed n' = false) as Hf' by (by rewrite (sl_failed _ _ _ Hsl)).
  exists (on_world (set_proc p n') R2), n', nq'. split; [|split; [|done]].
  - eapply round_made; [done| |done|exact St3|done|done]. by eapply rtc_l; [exact St1|apply rtc_once].
  - eapply engaged_again; [exact Hen|by eapply rreach_step|done|done|done|done|done|].
    unfold installable. apply Forall_forall. cbn. rewrite (sl_lii _ _ _ Hsl). lia.
Qed.

(** ** Catching up

    The peer's [nextIndex] moves down until the logs match or a snapshot is
    sent, after which they do. *)
Lemma catch_up R p n q nq :
  engaged R p n q nq →
  ∃ R' n', round p q R n R' n' ∧ settled n' ∧ (next_index (n_log n) - 1 ≤ map_get (n_matchIndex n') q)%N.
Proof.
  remember (map_get (n_nextIndex n) q) as i eqn:Hi. revert R n nq Hi.
  induction i as [i IH] using (well_founded_induction N.lt_wf_0). intros R n nq -> Hen.
  destruct (N.le_gt_cases (map_get (n_nextIndex n) q) (n_lastIncludedIndex n)) as [Hle|Hgt].
  - destruct (snapshot_round _ _ _ _ _ Hen Hle) as (R1 & n1 & nq1 & Hrd & Hen1 & Hnx & Hc).
    pose proof (rd_leads _ _ _ _ _ _ Hrd) as [_ _ _ _ El Ei _ _].
    destruct (append_round _ _ _ _ _ Hen1) as (R2 & n2 & Hrd2 & [[Hs Hm]|[Hno _]]); [lia| |lia].
    exists R2, n2. rewrite <- El. split; [by eapply round_trans|done].
  - destruct (append_round _ _ _ _ _ Hen Hgt) as (R1 & n1 & Hrd & [?|(_ & Hlt & nq1 & Hen1)]); [by exists R1, n1|].
    destruct (IH _ Hlt R1 n1 nq1 eq_refl Hen1) as (R2 & n2 & Hrd2 & Hs & Hm).
    pose proof (rd_leads _ _ _ _ _ _ Hrd) as [_ _ _ _ El _ _ _].
    exists R2, n2. rewrite <- El. split; [by eapply round_trans|done].
Qed.

(** ** A whole quorum *)

(** [q] can answer the leader [n]. *)
Definition responsive R n (q : NodeID) : Prop :=
  ∃ nq, enabled R q nq ∧ (n_currentTerm nq ≤ n_currentTerm n)%N ∧ installable nq (snapshot_of n).

Lemma responsive_later R n R' n' q :
  w_procs (rw_world R') !! q = w_procs (rw_world R) !! q → n_currentTerm n' = n_currentTerm n →
  n_lastIncludedIndex n' = n_lastIncludedIndex n → n_lastIncludedTerm n' = n_lastIncludedTerm n →
  responsive R n q → responsive R' n' q.
Proof.
  intros E Et Ei El (nq & Hq & Ht & Hi). exists nq. unfold enabled. rewrite E, Et. split; [done|]. split; [done|].
  by eapply installable_same.
Qed.

Lemma all_catch_up R p n Q :
  rreachable members cfg_of R → enabled R p n → n_role n = Leader → settled n → NoDup Q → Q ⊆ n_peers n →
  (∀ q, q ∈ Q → responsive R n q) →
  ∃ R' n', rtc (rstep cfg_of) R R' ∧ enabled R' p n' ∧ still_leads Q n n' ∧ settled n' ∧
    ∀ q, q ∈ Q → (next_index (n_log n) - 1 ≤ map_get (n_matchIndex n') q)%N.
Proof.
  intros Hr Hp HL Hse Hnd Hsub Hresp. revert R n Hr Hp HL Hse Hsub Hresp.
  induction Hnd as [|q Q Hq Hnd IH]; intros R n Hr Hp HL Hse Hsub Hresp.
  { exists R, n. split; [done|]. split; [done|]. split; [by split|]. split; [done|]. by intros ? ?%not_elem_of_nil. }
  assert (∀ r, r ∈ q :: Q → ∃ nr, engaged R p n r nr) as Heng.
  { intros r Hrq. destruct (Hresp r Hrq) as (nr & ? & ? & ?). exists nr. split; try done. by apply Hsub. }
  destruct (Heng q ltac:(left)) as [nq Hen].
  destruct (catch_up _ _ _ _ _ Hen) as (R1 & n1 & [Hst1 Hp1 Hl1 Ho1] & Hs1 & Hm1).
  pose proof Hl1 as [Ec _ HL1 Et El Ei Eit _].
  destruct (IH R1 n1) as (R2 & n2 & Hst2 & Hp2 & Hl2 & Hs2 & Hm2); try done.
  - by eapply rreachable_rtc.
  - unfold n_peers. rewrite Ec. intros x Hx. apply Hsub. by right.
  - intros r Hrq. apply (responsive_later R n); [|done..|apply Hresp; by right].
    destruct (Heng r ltac:(by right)) as [nr Hnr]. apply Ho1; [|by intros ->].
    intros ->. by destruct (engaged_apart _ _ _ _ _ Hnr).
  - exists R2, n2. split; [by etrans|]. split; [done|]. split.
    + apply (still_leads_trans _ _ n1); [apply (still_leads_mono [q])|apply (still_leads_mono Q)]; try done; set_solver.
    + split; [done|]. intros r [->|Hr2]%elem_of_cons; [|by rewrite <- El; apply Hm2].
      by rewrite (sl_match _ _ _ Hl2) by done.
Qed.

(** The leader appends the proposal to its log. *)
Lemma proposed R p n cmd :
  let e := MkEntry (n_currentTerm n) (next_index (n_log n)) cmd in
  rreachable members cfg_of R → enabled R p n → n_role n = Leader →
  (next_index (n_log n) < two63)%N → entry_fits e →
  ∃ R' n', rstep cfg_of R R' ∧ enabled R' p n' ∧ n_role n' = Leader ∧ settled n' ∧
    n_cfg n' = n_cfg n ∧ n_currentTerm n' = n_currentTerm n ∧ n_log n' = n_log n ++ [e] ∧
    n_lastIncludedIndex n' = n_lastIncludedIndex n ∧ n_lastIncludedTerm n' = n_lastIncludedTerm n ∧
    ∀ r, r ≠ p → w_procs (rw_world R') !! r = w_procs (rw_world R) !! r.
Proof.
  intros e Hr Hp HL Hb Hfit. destruct (RInv_reachable members cfg_of Hwf Hodd _ Hr) as [h HR].
  destruct (enabled_inv members cfg_of _ _ _ _ HR Hp) as [L Hn]. pose proof (proj1 (ni_service _ _ _ _ _ Hn)) as Hok.
  destruct (wp_total _ _ _ (Propose_steps n cmd Hok Hb Hfit)) as (r & n' & Hrun & Hpost).
  pose proof (wp_run _ _ _ _ _ _ (Propose_harmless n cmd (proj2 Hp)) Hrun) as Hf'.
  rewrite decide_True in Hpost by done. destruct Hpost as (n1 & ([] & Hl & _) & [(? & -> & _)|(_ & Hco & _)]); [congruence|].
  exists (on_world (λ _, set_proc p n' (rw_world R)) R), n'.
  split; [|split; [by apply enabled_self|]].
  - apply (rs_event _ _ (EvLocal p (OpPropose cmd))).
    + intros n2 Hn2. rewrite (proj1 Hp) in Hn2. by injection Hn2 as <-.
    + cbn. unfold up_node. rewrite (proj1 Hp). cbn. unfold discard, mbind, GoM_bind. by rewrite Hrun.
  - assert (settled n') as Hse by (eapply commit_outcome_settled; [|exact Hco]; congruence).
    assert (∀ r, r ≠ p → w_procs (set_proc p n' (rw_world R)) !! r = w_procs (rw_world R) !! r) as Ho
      by (intros; cbn; by rewrite lookup_insert_ne).
    destruct Hco as [(_ & i & _ & _ & ->)|[_ ->]]; cbn in *; split_and!; congruence || done.
Qed.
Lemma commit_proposal R p n cmd Q :
  let e := MkEntry (n_currentTerm n) (next_index (n_log n)) cmd in
  rreachable members cfg_of R → enabled R p n → n_role n = Leader → (next_index (n_log n) < two63)%N → entry_fits e →
  NoDup Q → Q ⊆ n_peers n → majority_of (n_peers n) ≤ 1 + length Q → (∀ q, q ∈ Q → responsive R n q) →
  ∃ R' n', rtc (rstep cfg_of) R R' ∧ enabled R' p n' ∧ n_role n' = Leader ∧ n_currentTerm n' = n_currentTerm n ∧
    e ∈ n_log n' ∧ (Index e ≤ n_commitIndex n')%N.
Proof.
  intros e Hr Hp HL Hb Hfit Hnd Hsub Hmaj Hresp.
  destruct (RInv_reachable members cfg_of Hwf Hodd _ Hr) as [h HR].
  destruct (enabled_inv members cfg_of _ _ _ _ HR Hp) as [L Hn]. pose proof (proj1 (proj2 (proj1 (ni_service _ _ _ _ _ Hn)))) as Hw.
  assert (∀ q, q ∈ Q → q ≠ p) as Hqp.
  { intros q Hq ->. destruct (Hresp p Hq) as (nq & ? & ? & ?).
    by destruct (engaged_apart R p n p nq) as [Hne _]; [split; auto|]. }
  destruct (proposed R p n cmd Hr Hp HL Hb Hfit)
    as (R1 & n1 & St & Hp1 & HL1 & Hs1 & Ec & Et & El & Ei & Eit & Ho). fold e in El.
  destruct (all_catch_up R1 p n1 Q) as (R2 & n2 & Hst & Hp2 & [Ec2 _ HL2 Et2 El2 Ei2 _ _] & Hs2 & Hm); try done.
  { by eapply rreach_step. }
  { unfold n_peers. by rewrite Ec. }
  { intros q Hq. eapply (responsive_later R n); auto. }
  exists R2, n2. split; [by eapply rtc_l|]. split; [done|]. split; [done|]. split; [congruence|].
  rewrite El in Hm, El2. rewrite next_index_app in Hm by (by apply log_ne, Hw). cbn [length] in Hm.
  split; [rewrite El2; apply elem_of_app; right; by left|].
  pose proof (wf_first _ Hw). pose proof (log_wf_length _ (wf_log _ Hw)).
  apply (settled_commits n2 Q (Index e) e); try done; cbn [Index e].
  - unfold n_peers. by rewrite Ec2, Ec.
  - unfold n_peers in *. by rewrite Ec2, Ec.
  - rewrite El2, next_index_app by (by apply log_ne, Hw). cbn. lia.
  - rewrite El2, Ei2, Ei. unfold next_index. rewrite lookup_app_r by lia.
    by replace (_ - length (n_log n)) with 0 by lia.
  - cbn. congruence.
  - intros q Hq. specialize (Hm q Hq). lia.
Qed.
End Rounds.

(** C11: proposals commit.  In a cluster of odd size over storage that does not
    fail, in which snapshots are delivered where [installable], take any reachable
    world with an enabled leader, and enough enabled
    peers to form a majority with it, none of them ahead of the leader's term and
    each free to take the leader's snapshot.  However far these peers' logs are
    behind, or apart from the leader's, the run has a continuation after which
    the leader still leads the same term and has the proposal in its log and
    committed. *)
Theorem proposal_commits {S} `{ReliableStorage S} members cfg_of (R : RWorld S) p n cmd Q :
  let e := MkEntry (n_currentTerm n) (next_index (n_log n)) cmd in
  cluster_wf (S := S) members cfg_of → Nat.Odd (length members) → rreachable members cfg_of R →
  enabled R p n → n_role n = Leader → (next_index (n_log n) < two63)%N → entry_fits e →
  NoDup Q → Q ⊆ n_peers n → majority_of (n_peers n) ≤ 1 + length Q → (∀ q, q ∈ Q → responsive R n q) →
  ∃ R' n', rtc (rstep cfg_of) R R' ∧ enabled R' p n' ∧ n_role n' = Leader ∧ n_currentTerm n' = n_currentTerm n ∧
    e ∈ n_log n' ∧ (Index e ≤ n_commitIndex n')%N.
Proof. intros e Hwf Hodd. by apply commit_proposal. Qed.

(** "a" has compacted its log, "b" is not heard of, and "c" has just started
    with nothing. *)
Lemma proposal_commits_witness : ∃ (R R' : RWorld MemoryStorage) na nc na',
  rreachable three (cfg_among three) R ∧ enabled R "a" na ∧ n_log na = [boundary 1 1] ∧
  enabled R "c" nc ∧ n_log nc = [boundary 0 0] ∧ rtc (rstep (cfg_among three)) R R' ∧
  enabled R' "a" na' ∧ n_currentTerm na' = 1%N ∧ entry_y ∈ n_log na' ∧ (2 ≤ n_commitIndex na')%N.
Proof.
  destruct (run_result three (cfg_among three) (commit_x ++ take 3 compact_x) (fresh_rworld three)
    (λ R, node_is R "a" (λ n, bool_decide (n_role n = Leader ∧ n_log n = [boundary 1 1] ∧ n_currentTerm n = 1%N ∧
            n_lastIncludedIndex n = 1%N ∧ n_peers n = ["b"; "c"])) &&
          node_is R "c" (λ n, bool_decide (n_log n = [boundary 0 0] ∧ n_currentTerm n = 0%N))))
    as (R & _ & HR & [Ha Hc]%andb_true_iff); [apply rreach_init, fresh_rinitial|by vm_compute|].
  destruct (node_is_enabled _ _ _ Ha) as (na & Hna & (HL & Hla & Hta & Hia & Hpa)%bool_decide_eq_true).
  destruct (node_is_enabled _ _ _ Hc) as (nc & Hnc & (Hlc & Htc)%bool_decide_eq_true).
  destruct (proposal_commits three (cfg_among three) R "a" na cmd_y ["c"] three_wf (ex_intro _ 1 eq_refl) HR Hna HL)
    as (R' & na' & Hst & Hna' & _ & Ht' & He & Hci).
  - rewrite Hla. by vm_compute.
  - exact I.
  - by apply NoDup_singleton.
  - rewrite Hpa. set_solver.
  - rewrite Hpa. by vm_compute.
  - intros q ->%list_elem_of_singleton. exists nc. split; [exact Hnc|]. split; [rewrite Hta, Htc; by vm_compute|].
    unfold installable. rewrite Hlc. constructor; [|constructor]. cbn. rewrite Hia. discriminate.
  - exists R, R', na, nc, na'. rewrite Hta in Ht', He. rewrite Hla in He, Hci.
    split; [exact HR|]. do 5 (split; [assumption|]). split; [exact Hna'|]. split; [exact Ht'|]. split; [exact He|exact Hci].
Defined.
