(* ===== verification/RaftLiveness.v ===== *)
(** * A majority that is up is enough

    RaftProgress lets an elected leader commit; here a leader is elected.  Among
    the members of an enabled majority, the one whose log wins the comparison of
    the voting rule against all the others campaigns until its term is beyond
    theirs, collects their votes and leads.  So no reachable world, whatever
    crashes, losses and rivalries led to it, keeps a majority that stays up from
    committing a command. *)
From S2P Require Import Prelude RaftTypes MemoryStorage RaftNode RaftVotes RaftCluster RaftElection RaftLog RaftReplicate RaftService RaftHistory RaftCompaction RaftReplication RaftMoves RaftInvariant RaftSafety RaftOrigins RaftAgreement RaftProgress.

(** ** Lists *)

(** The order of the voting rule: by term, then by index. *)
Definition behind (a b : N * N) : Prop := (a.1 < b.1)%N ∨ (a.1 = b.1 ∧ a.2 ≤ b.2)%N.

Lemma greatest {A} (f : A → N * N) l : l ≠ [] → ∃ x, x ∈ l ∧ ∀ y, y ∈ l → behind (f y) (f x).
Proof.
  unfold behind. induction l as [|a l IH]; [done|]. intros _. destruct l as [|b l].
  { exists a. split; [left|]. intros y ->%list_elem_of_singleton. right. lia. }
  destruct IH as (x & Hx & Hmax); [done|]. destruct (decide (behind (f a) (f x))) as [Ha|Ha]; unfold behind in Ha.
  - exists x. split; [by right|]. intros y [->|Hy]%elem_of_cons; auto.
  - exists a. split; [left|]. intros y [->|Hy]%elem_of_cons; [right; lia|]. specialize (Hmax y Hy). lia.
Qed.

(** ** What voters and candidates do *)
Section Votes.
Context {S : Type} `{ReliableStorage S}.
Implicit Types (n : Node S).

Lemma becomeFollower_clears n t :
  n_failed n = false → disk n → (n_currentTerm n < t < two64)%N →
  wp False (becomeFollowerLocked t) (λ _ n', core_frame n n' ∧ disk n' ∧ n_failed n' = false ∧
    n_currentTerm n' = t ∧ n_votedFor n' = "") n.
Proof.
  intros Hf Hd [Hlt Ht]. unfold becomeFollowerLocked. do 4 wp_step. wp_step; reflect_guards; [|cbn in *; lia].
  eapply wp_both; [apply saveHardState_spec; [done|done|done|apply vote_fits_none]|by apply saveHardState_harmless|].
  cbn. intros _ n' ([] & Hd' & _ & Ht' & Hv') Hf'. split; [by split|done].
Qed.

(** A vote in a term beyond the voter's own. *)
Lemma vote_granted n e args :
  node_ok n → (n_currentTerm n < rv_Term args < two64)%N → vote_fits (rv_CandidateID args) → up_to_date n args →
  wp False (handleRequestVote e args) (λ r n', r = inl (MkRVReply (rv_Term args) true) ∧ core_frame n n' ∧
    n_failed n' = false ∧ n_currentTerm n' = rv_Term args) n.
Proof.
  intros (Hf & Hw & Hd) Ht Hv Hup. unfold handleRequestVote. do 2 wp_step. rewrite Hf.
  rewrite (proj2 (N.ltb_lt _ _) (proj1 Ht)). wp_step. unfold when at 1.
  eapply wp_mono; [|by apply becomeFollower_clears]. cbn. intros _ n1 (Hfr & Hd1 & Hf1 & Ht1 & Hv1).
  do 2 wp_step. rewrite Hf1, Ht1, N.ltb_irrefl.
  assert (wf n1) as Hw1 by (eapply wf_core; [done|done|]; rewrite Ht1; apply Ht).
  destruct (lastLogInfo_val n1 Hw1) as (l & Hl & Hval).
  wp_step. unfold candidateLogUpToDateLocked. rewrite Hval. eapply wp_lift_Val; [done|].
  unfold canVote. rewrite Hv1. rewrite bool_decide_true by done. cbn [orb andb].
  rewrite (cf_log _ _ Hfr) in Hl.
  assert ((if negb (rv_LastLogTerm args =? Term l)%N then (Term l <? rv_LastLogTerm args)%N
           else (Index l <=? rv_LastLogIndex args)%N) = true) as ->.
  { destruct (Hup l Hl) as [?|[? ?]]; destruct (N.eqb_spec (rv_LastLogTerm args) (Term l)); cbn; try lia;
      by apply N.ltb_lt || by apply N.leb_le. }
  wp_step. eapply wp_both; [by apply saveHardState_spec; [|done|apply Ht|]|by apply saveHardState_harmless|].
  cbn. intros _ n2 (Hfr2 & _ & _ & Ht2 & _) Hf2. do 2 wp_step. rewrite Hf2.
  unfold resetElectionDeadlineLocked. repeat wp_step. split; [done|].
  split; [by eapply core_frame_trans; [|eapply core_frame_trans; [exact Hfr2|by split]]|done].
Qed.

Lemma startElection_harmless n e :
  n_failed n = false → wp True (startElection e) (λ r n', is_Some r ∧ n_failed n' = false) n.
Proof.
  intros Hf. unfold startElection, becomeCandidateLocked, resetElectionDeadlineLocked. do 2 wp_step. rewrite Hf.
  do 8 wp_step. eapply wp_mono; [|by apply saveHardState_harmless]. cbn. intros _ n1 Hf1.
  do 2 wp_step. rewrite Hf1. do 3 wp_step. cbn. rewrite Hf1. wp_step. apply wp_lift_go; [|done]. intros last _. by wp_step.
Qed.
End Votes.

Section Elect.
Context {S : Type} `{ReliableStorage S}.
Implicit Types (n : Node S) (R : RWorld S).
Variable members : list NodeID.
Variable cfg_of : NodeID → Config.
Hypothesis Hwf : cluster_wf (S := S) members cfg_of.
Hypothesis Hodd : Nat.Odd (length members).

Definition others_same (P : list NodeID) R R' : Prop :=
  ∀ r, r ∉ P → w_procs (rw_world R') !! r = w_procs (rw_world R) !! r.

Lemma others_same_trans P R1 R2 R3 : others_same P R1 R2 → others_same P R2 R3 → others_same P R1 R3.
Proof. intros H1' H2' r Hr. by rewrite H2', H1'. Qed.

(** ** Campaigning *)

(** [p] is a candidate, and [el] is the election it runs in its term. *)
Record standing R (p : NodeID) n (eid : nat) (el : Election) : Prop := {
  st_reachable : rreachable members cfg_of R;
  st_enabled : enabled R p n;
  st_role : n_role n = Candidate;
  st_el : w_elections (rw_world R) !! eid = Some el;
  st_cand : el_cand el = p;
  st_term : el_term el = n_currentTerm n;
  st_args : el_args el = MkRVArgs (n_currentTerm n) p (next_index (n_log n) - 1) (default 0%N (Term <$> last (n_log n)));
}.

Lemma node_facts R p n :
  rreachable members cfg_of R → enabled R p n →
  service n ∧ p ∈ members ∧ n_id n = p ∧ n_peers n = c_Peers (cfg_of p) ∧ vote_fits p.
Proof.
  intros Hr Hp. destruct (RInv_reachable members cfg_of Hwf Hodd _ Hr) as [h HR].
  destruct (enabled_inv members cfg_of _ _ _ _ HR Hp) as [L Hn].
  destruct (inv_up _ _ _ (ri_inv _ _ _ _ HR) _ _ (proj1 Hp)) as (Hm & _ & Hid & Hpe).
  split; [apply (ni_service _ _ _ _ _ Hn)|]. split; [done|]. split; [done|]. split; [done|]. by apply (cw_id _ _ Hwf _ Hm).
Qed.

Lemma campaign R p n :
  rreachable members cfg_of R → enabled R p n → (n_currentTerm n + 1 < two64)%N →
  ∃ R' n' eid el, rstep cfg_of R R' ∧ standing R' p n' eid el ∧ core_frame n n' ∧
    n_currentTerm n' = (n_currentTerm n + 1)%N ∧ el_votes el = 1 ∧ el_pending el = n_peers n ∧ others_same [p] R R'.
Proof.
  intros Hr Hp Ht. destruct (node_facts _ _ _ Hr Hp) as (Hs & _ & Hid & _ & Hv). rewrite <- Hid in Hv.
  destruct (wp_total _ _ _ (startElection_serving n env0 Hs Hv Ht)) as (r & n' & Hrun & _).
  destruct (wp_run _ _ _ _ _ _ (startElection_harmless n env0 (proj2 Hp)) Hrun) as [[[t args] ->] Hf'].
  destruct (campaign_moves _ _ _ _ Hs Hv Ht Hrun) as (_ & Hfr & _ & Hc & Ht' & -> & ->).
  set (el := MkElection p (n_currentTerm n + 1)
    (MkRVArgs (n_currentTerm n + 1) (n_id n) (next_index (n_log n) - 1) (default 0%N (Term <$> last (n_log n)))) 1 (n_peers n')).
  set (R' := on_world (λ _, add_election el (set_proc p n' (rw_world R))) R).
  assert (rstep cfg_of R R') as St.
  { apply (rs_event _ _ (EvCampaign p env0)); [done|]. cbn. unfold up_node. rewrite (proj1 Hp). cbn.
    rewrite (proj2 (N.ltb_lt _ _) Ht), Hrun. done. }
  exists R', n', (w_next (rw_world R)), el. split; [done|]. split; [|split; [done|split; [done|split; [done|split]]]].
  - split; cbn; rewrite ?Ht', ?(cf_log _ _ Hfr), ?Hid; try done.
    + by eapply rreach_step.
    + split; [|done]. cbn. by rewrite lookup_insert_eq.
    + by rewrite lookup_insert_eq.
  - cbn. unfold n_peers. by rewrite (cf_cfg _ _ Hfr).
  - intros r Hr'. cbn. rewrite lookup_insert_ne; [done|]. intros ->. apply Hr'. by left.
Qed.

(** A candidate reaches any term by campaigning again. *)
Lemma campaign_to T R p n :
  rreachable members cfg_of R → enabled R p n → (n_currentTerm n < T < two64)%N →
  ∃ R' n' eid el, rtc (rstep cfg_of) R R' ∧ standing R' p n' eid el ∧ core_frame n n' ∧
    n_currentTerm n' = T ∧ el_votes el = 1 ∧ el_pending el = n_peers n ∧ others_same [p] R R'.
Proof.
  remember (N.to_nat (T - n_currentTerm n)) as k eqn:Hk. revert R n Hk.
  induction k as [|k IH]; intros R n Hk Hr Hp [Hlo Hhi]; [lia|].
  destruct (campaign R p n Hr Hp) as (R1 & n1 & eid & el & St & Hst & Hfr & Ht1 & Hv & Hpe & Ho); [lia|].
  destruct (decide (T = n_currentTerm n + 1)%N) as [->|Hne].
  - exists R1, n1, eid, el. split; [by apply rtc_once|]. done.
  - destruct (IH R1 n1) as (R2 & n2 & eid2 & el2 & Hst2 & Hs2 & Hfr2 & Ht2 & Hv2 & Hpe2 & Ho2);
      [lia|apply Hst|apply Hst|lia|].
    exists R2, n2, eid2, el2. split; [by eapply rtc_l|]. split; [done|]. split; [by eapply core_frame_trans|].
    split; [done|]. split; [done|]. split; [|by eapply others_same_trans].
    rewrite Hpe2. unfold n_peers. by rewrite (cf_cfg _ _ Hfr).
Qed.

(** ** Collecting votes *)
Lemma vote_cast R p n eid el q nq :
  standing R p n eid el → q ≠ p → enabled R q nq → (n_currentTerm nq < n_currentTerm n)%N → up_to_date nq (el_args el) →
  ∃ R' nq', rstep cfg_of R R' ∧ standing R' p n eid el ∧ enabled R' q nq' ∧ core_frame nq nq' ∧
    n_currentTerm nq' = n_currentTerm n ∧ others_same [q] R R' ∧ (eid, q, MkRVReply (n_currentTerm n) true) ∈ w_replies (rw_world R').
Proof.
  intros [Hr Hp Hc Hel Hca Ht Ha] Hqp Hq Hlt Hup.
  destruct (node_facts _ _ _ Hr Hp) as (Hs & _ & _ & _ & Hv), (node_facts _ _ _ Hr Hq) as (Hsq & _).
  pose proof (wf_term _ (proj1 (proj2 (proj1 Hs)))) as HT.
  destruct (wp_total _ _ _ (vote_granted nq env0 (el_args el) (proj1 Hsq) ltac:(rewrite Ha; done) ltac:(by rewrite Ha) Hup))
    as (r & nq' & Hrun & -> & Hfr & Hfq & Htq).
  rewrite Ha in Hrun, Htq. cbn [rv_Term] in Hrun, Htq.
  set (rep := MkRVReply (n_currentTerm n) true) in *.
  set (R' := on_world (λ _, add_reply (eid, q, rep) (set_proc q nq' (rw_world R))) R).
  assert (rstep cfg_of R R') as St.
  { apply (rs_event _ _ (EvVote eid q env0)); [done|]. cbn. rewrite Hel. cbn. unfold up_node. rewrite (proj1 Hq). cbn.
    by rewrite Ha, Hrun. }
  exists R', nq'. split; [done|]. split; [|split; [|split; [done|split; [done|split]]]].
  - split; try done; [by eapply rreach_step|]. split; [|apply Hp]. cbn. rewrite lookup_insert_ne by done. apply Hp.
  - split; [|done]. cbn. by rewrite lookup_insert_eq.
  - intros r Hr'. cbn. rewrite lookup_insert_ne; [done|]. intros ->. apply Hr'. by left.
  - by left.
Qed.

(** The candidate counts it. *)
Lemma vote_counted R p n eid el q :
  standing R p n eid el → q ∈ el_pending el → (eid, q, MkRVReply (n_currentTerm n) true) ∈ w_replies (rw_world R) →
  ∃ R' n', rstep cfg_of R R' ∧ enabled R' p n' ∧ light n n' ∧ others_same [p] R R' ∧
    if decide (majority_of (n_peers n) ≤ el_votes el + 1) then n_role n' = Leader
    else n' = n ∧ standing R' p n eid (cast_vote q el (el_votes el + 1)).
Proof.
  intros [Hr Hp Hc Hel Hca Ht Ha] Hq Hin. destruct (node_facts _ _ _ Hr Hp) as (Hs & _).
  pose proof (wf_term _ (proj1 (proj2 (proj1 Hs)))) as HT. set (rep := MkRVReply (n_currentTerm n) true) in *.
  assert (∃ n', onRequestVoteReply (el_term el) (el_votes el) rep n = Val (el_votes el + 1, n') ∧ light n n' ∧
    if decide (majority_of (n_peers n) ≤ el_votes el + 1) then n_role n' = Leader else n' = n) as (n' & Hrun & Hli & Hcase).
  { unfold onRequestVoteReply, mbind, GoM_bind, get. rewrite (proj2 Hp), Ht. cbn [rvr_Term rep rvr_VoteGranted].
    rewrite N.ltb_irrefl, bool_decide_true, N.eqb_refl by done. cbn [negb orb]. case_decide as Hm.
    - rewrite (proj2 (Nat.leb_le _ _) Hm). destruct (wp_total _ _ _ (becomeLeader_serving n (proj1 Hs))) as ([] & n' & Hrun & Hli & _).
      rewrite Hrun. exists n'. split; [done|]. split; [done|]. apply (wp_run _ _ _ _ _ _ (becomeLeader_takes_office n) Hrun).
    - rewrite (proj2 (Nat.leb_gt _ _)) by lia. exists n. split; [done|]. split; [by split|done]. }
  set (R' := on_world (λ _, set_election eid (cast_vote q el (el_votes el + 1)) (set_proc p n' (rw_world R))) R).
  assert (rstep cfg_of R R') as St.
  { apply (rs_event _ _ (EvVoteReply eid q rep)); [done|]. cbn. rewrite Hel. cbn. unfold up_node. rewrite Hca, (proj1 Hp). cbn.
    rewrite !bool_decide_true by done. rewrite (proj2 (N.ltb_lt _ _)) by done. cbn. by rewrite Hrun. }
  assert (enabled R' p n') as Hp' by (split; [cbn; by rewrite lookup_insert_eq|rewrite (li_failed _ _ Hli); apply Hp]).
  exists R', n'. split; [done|]. split; [done|]. split; [done|]. split.
  - intros r Hr'. cbn. rewrite lookup_insert_ne; [done|]. intros ->. apply Hr'. by left.
  - case_decide; [done|]. subst n'. split; [done|]. split; try done; [by eapply rreach_step|]. cbn. by rewrite lookup_insert_eq.
Qed.

(** [q] is as before, but for its term and vote. *)
Definition kept (T : N) R R' (q : NodeID) : Prop :=
  ∀ nq, enabled R q nq → (n_currentTerm nq ≤ T)%N →
    ∃ nq', enabled R' q nq' ∧ core_frame nq nq' ∧ (n_currentTerm nq' ≤ T)%N.

Lemma kept_same T P R R' q : others_same P R R' → q ∉ P → kept T R R' q.
Proof. intros Ho Hq nq [Hp Hf] Ht. exists nq. split; [by split; [rewrite Ho|]|]. split; [apply core_frame_refl|done]. Qed.

Lemma kept_trans T R1 R2 R3 q : kept T R1 R2 q → kept T R2 R3 q → kept T R1 R3 q.
Proof.
  intros K1 K2 nq Hq Ht. destruct (K1 _ Hq Ht) as (n1 & Hq1 & F1 & Ht1). destruct (K2 _ Hq1 Ht1) as (n2 & Hq2 & F2 & Ht2).
  exists n2. split; [done|]. split; [by eapply core_frame_trans|done].
Qed.

(** [q] will vote for the candidate of [el]. *)
Definition voter R (T : N) (args : RequestVoteArgs) (q : NodeID) : Prop :=
  ∃ nq, enabled R q nq ∧ (n_currentTerm nq < T)%N ∧ up_to_date nq args.

Lemma voter_same P R R' T args q : others_same P R R' → q ∉ P → voter R T args q → voter R' T args q.
Proof. intros Ho Hq (nq & [Hp Hf] & ?). exists nq. split; [by split; [rewrite Ho|]|done]. Qed.

(** One vote after the other, until they are a majority. *)
Lemma ballots R p n eid el Q :
  standing R p n eid el → NoDup Q → Q ⊆ el_pending el → p ∉ Q →
  el_votes el < majority_of (n_peers n) → majority_of (n_peers n) ≤ el_votes el + length Q →
  (∀ q, q ∈ Q → voter R (n_currentTerm n) (el_args el) q) →
  ∃ R' n', rtc (rstep cfg_of) R R' ∧ enabled R' p n' ∧ light n n' ∧ n_role n' = Leader ∧
    ∀ q, q ≠ p → kept (n_currentTerm n) R R' q.
Proof.
  intros Hst Hnd. revert R el Hst. induction Hnd as [|q Q Hq Hnd IH]; intros R el Hst Hsub Hp Hlt Hmaj Hv; [cbn in *; lia|].
  apply not_elem_of_cons in Hp as [Hpq Hp]. destruct (Hv q ltac:(left)) as (nq & Heq & Htq & Huq).
  destruct (vote_cast _ _ _ _ _ _ _ Hst (not_eq_sym Hpq) Heq Htq Huq) as (R1 & nq' & St1 & Hst1 & Heq1 & Hfr & Htq1 & Ho1 & Hin).
  destruct (vote_counted _ _ _ _ _ _ Hst1 ltac:(apply Hsub; left) Hin) as (R2 & n2 & St2 & Hp2 & Hli & Ho2 & Hcase).
  assert (rtc (rstep cfg_of) R R2) as Hst2 by (by eapply rtc_l; [exact St1|apply rtc_once]).
  assert (∀ r, r ≠ p → kept (n_currentTerm n) R R2 r) as Hk.
  { intros r Hr. assert (r ∉ [p]) as Hrp by (by intros ->%list_elem_of_singleton).
    eapply kept_trans; [|by eapply kept_same]. destruct (decide (r = q)) as [->|Hne].
    - intros n0 Hn0 _. replace n0 with nq by (destruct Heq, Hn0; congruence). exists nq'. rewrite Htq1. done.
    - eapply kept_same; [exact Ho1|]. by intros ->%list_elem_of_singleton. }
  case_decide as Hm; [by exists R2, n2|]. destruct Hcase as [-> Hst'].
  destruct (IH R2 _ Hst') as (R3 & n3 & Hst3 & Hp3 & Hli3 & HL & Hk3); cbn [el_pending el_votes el_args cast_vote length] in *.
  - intros r Hr. apply list_elem_of_filter. split; [by intros ->|]. apply Hsub. by right.
  - done.
  - lia.
  - lia.
  - intros r Hr. eapply voter_same; [exact Ho2|by intros ->%list_elem_of_singleton|].
    eapply voter_same; [exact Ho1|by intros ->%list_elem_of_singleton|]. apply Hv. by right.
  - exists R3, n3. split; [by etrans|]. split; [done|]. split; [done|]. split; [done|].
    intros r Hr. eapply kept_trans; [by apply Hk|by apply Hk3].
Qed.

(** The cluster of one needs no votes but the candidate's. *)
Lemma solo_wins R p n eid el :
  standing R p n eid el → majority_of (n_peers n) ≤ 1 →
  ∃ R' n', rtc (rstep cfg_of) R R' ∧ enabled R' p n' ∧ light n n' ∧ n_role n' = Leader ∧
    ∀ q, q ≠ p → kept (n_currentTerm n) R R' q.
Proof.
  intros [Hr Hp Hc Hel Hca Ht Ha] Hm. destruct (node_facts _ _ _ Hr Hp) as (Hs & _).
  destruct (wp_total _ _ _ (becomeLeader_serving n (proj1 Hs))) as ([] & n' & Hrun & Hli & _).
  pose proof (to_role _ _ (wp_run _ _ _ _ _ _ (becomeLeader_takes_office n) Hrun)) as HL.
  assert (startElection_solo (el_term el) n = Val ((), n')) as Hsolo.
  { unfold startElection_solo, mbind, GoM_bind, get. rewrite (proj2 (Nat.leb_le _ _) Hm), Ht.
    by rewrite bool_decide_true, N.eqb_refl by done. }
  exists (on_world (λ _, set_proc p n' (rw_world R)) R), n'. split; [|split; [|split; [done|split; [done|]]]].
  - apply rtc_once. apply (rs_event _ _ (EvSolo eid)).
    + intros el' n2 Hel' Hn2. rewrite Hel in Hel'. injection Hel' as <-. rewrite Hca, (proj1 Hp) in Hn2. injection Hn2 as <-. apply Hp.
    + cbn. rewrite Hel. cbn. unfold up_node. rewrite Hca, (proj1 Hp). cbn. by rewrite Hsolo.
  - split; [cbn; by rewrite lookup_insert_eq|]. rewrite (li_failed _ _ Hli). apply Hp.
  - intros q Hq. apply (kept_same _ [p]); [|by intros ->%list_elem_of_singleton].
    intros r Hr'. cbn. rewrite lookup_insert_ne; [done|]. intros ->. apply Hr'. by left.
Qed.

(** ** The winner *)
Lemma member_peers p q : p ∈ members → q ∈ members → q ≠ p → q ∈ c_Peers (cfg_of p).
Proof.
  intros Hp Hq Hne. destruct (cw_peers _ _ Hwf _ Hp) as (Hnd & Hnp & Hsub & Hlen).
  assert ((p :: c_Peers (cfg_of p)) ≡ₚ members) as Hperm.
  { apply submseteq_length_Permutation; [|cbn; lia]. apply NoDup_submseteq; [by constructor|].
    intros r [->|Hr]%elem_of_cons; auto. }
  rewrite <- Hperm in Hq. by apply elem_of_cons in Hq as [?|?].
Qed.

Lemma without_one (p : NodeID) (Q : list NodeID) : NoDup Q → length Q ≤ 1 + length (filter (λ q, q ≠ p) Q).
Proof.
  intros Hnd. change (length Q ≤ length (p :: filter (λ q, q ≠ p) Q)). apply submseteq_length, NoDup_submseteq; [done|].
  intros q Hq. destruct (decide (q = p)) as [->|]; [by left|right]. by apply list_elem_of_filter.
Qed.

(** How [q]'s log ends. *)
Definition log_key R (q : NodeID) : N * N :=
  match up_node (rw_world R) q with
  | Some n => (default 0%N (Term <$> last (n_log n)), next_index (n_log n) - 1)%N
  | None => (0, 0)%N
  end.

Definition term_of R (q : NodeID) : N :=
  match up_node (rw_world R) q with Some n => n_currentTerm n | None => 0 end.

Lemma enabled_up R q n : enabled R q n → up_node (rw_world R) q = Some n.
Proof. intros [Hq _]. unfold up_node. by rewrite Hq. Qed.

(** Who is not behind gets the votes. *)
Lemma behind_up_to_date R p np q nq t :
  rreachable members cfg_of R → enabled R p np → enabled R q nq → behind (log_key R q) (log_key R p) →
  up_to_date nq (MkRVArgs t p (next_index (n_log np) - 1) (default 0%N (Term <$> last (n_log np)))).
Proof.
  intros Hr Hp Hq. unfold log_key. rewrite (enabled_up _ _ _ Hp), (enabled_up _ _ _ Hq). intros Hb e He.
  destruct (node_facts _ _ _ Hr Hq) as (Hs & _). pose proof (last_log_Index _ _ (wf_log _ (proj1 (proj2 (proj1 Hs)))) He).
  unfold behind in Hb. rewrite He in Hb. cbn in *. destruct Hb as [?|[? ?]]; [by left|right; split; [done|lia]].
Qed.

Lemma majority_members R p n :
  rreachable members cfg_of R → enabled R p n → majority_of (n_peers n) = quorum_size members.
Proof.
  intros Hr Hp. destruct (RInv_reachable members cfg_of Hwf Hodd _ Hr) as [h HR].
  apply (majority_quorum members cfg_of Hwf p n), (inv_up _ _ _ (ri_inv _ _ _ _ HR)), Hp.
Qed.

Lemma candidate_wins R p n eid el Q :
  standing R p n eid el → el_votes el = 1 → el_pending el = n_peers n →
  NoDup Q → Q ⊆ members → quorum_size members ≤ length Q →
  (∀ q, q ∈ Q → q ≠ p → voter R (n_currentTerm n) (el_args el) q) →
  ∃ R' n', rtc (rstep cfg_of) R R' ∧ enabled R' p n' ∧ light n n' ∧ n_role n' = Leader ∧
    ∀ q, q ≠ p → kept (n_currentTerm n) R R' q.
Proof.
  intros Hst Hv Hpe Hnd Hsub Hqs Hvo. pose proof (st_reachable _ _ _ _ _ Hst) as Hr. pose proof (st_enabled _ _ _ _ _ Hst) as Hp.
  pose proof (majority_members _ _ _ Hr Hp) as Hmaj. destruct (node_facts _ _ _ Hr Hp) as (_ & Hpm & _ & Hpeers & _).
  destruct (decide (majority_of (n_peers n) ≤ 1)); [by eapply solo_wins|]. pose proof (without_one p Q Hnd).
  apply (ballots R p n eid el (filter (λ q, q ≠ p) Q)); rewrite ?Hv; try done.
  - by apply NoDup_filter.
  - rewrite Hpe, Hpeers. intros q [Hne Hq]%list_elem_of_filter. apply member_peers; auto.
  - by intros [? _]%list_elem_of_filter.
  - lia.
  - lia.
  - intros q [Hne Hq]%list_elem_of_filter. auto.
Qed.

Lemma leader_elected R Q :
  rreachable members cfg_of R → NoDup Q → Q ⊆ members → quorum_size members ≤ length Q →
  (∀ q, q ∈ Q → ∃ nq, enabled R q nq ∧ (n_currentTerm nq + 1 < two64)%N) →
  ∃ p np R' n', p ∈ Q ∧ enabled R p np ∧ rtc (rstep cfg_of) R R' ∧ enabled R' p n' ∧ n_role n' = Leader ∧
    n_log n' = n_log np ∧ n_lastIncludedIndex n' = n_lastIncludedIndex np ∧ n_lastIncludedTerm n' = n_lastIncludedTerm np ∧
    (∀ q nq, q ∈ Q → enabled R q nq → (n_currentTerm nq < n_currentTerm n')%N) ∧
    ∀ q, q ≠ p → kept (n_currentTerm n') R R' q.
Proof.
  intros Hr Hnd Hsub Hqs Hup. assert (Q ≠ []) as Hne by (intros ->; cbn in *; unfold quorum_size in *; lia).
  destruct (greatest (log_key R) Q Hne) as (p & Hp & Hbest).
  destruct (greatest (λ q, (term_of R q, 0%N)) Q Hne) as (m & Hm & Hmax).
  destruct (Hup p Hp) as (np & Hnp & _), (Hup m Hm) as (nm & Hnm & HT).
  assert (∀ q nq, q ∈ Q → enabled R q nq → (n_currentTerm nq < n_currentTerm nm + 1)%N) as Hlt.
  { intros q nq Hq Hnq. specialize (Hmax q Hq). unfold behind, term_of in Hmax.
    rewrite (enabled_up _ _ _ Hnq), (enabled_up _ _ _ Hnm) in Hmax. cbn in Hmax. lia. }
  destruct (campaign_to (n_currentTerm nm + 1) R p np Hr Hnp ltac:(split; [by apply (Hlt p)|done]))
    as (R1 & n1 & eid & el & Hst & Hs1 & Hfr & Ht1 & Hv1 & Hpe1 & Ho1).
  assert (n_peers n1 = n_peers np) as Hpn by (unfold n_peers; by rewrite (cf_cfg _ _ Hfr)).
  destruct (candidate_wins R1 p n1 eid el Q Hs1 Hv1) as (R' & n' & Hst' & Hp' & Hli & HL & Hk); try done; [congruence| |].
  { intros q Hq Hne'. rewrite (st_args _ _ _ _ _ Hs1), Ht1, (cf_log _ _ Hfr). destruct (Hup q Hq) as (nq & Hnq & _).
    eapply voter_same; [exact Ho1|by intros ->%list_elem_of_singleton|]. exists nq. split; [done|]. split; [by apply (Hlt q)|].
    eapply behind_up_to_date; eauto. }
  pose proof (li_term _ _ Hli) as Ht'. rewrite Ht1 in Ht'. exists p, np, R', n'. split; [done|]. split; [done|].
  split; [by etrans|]. split; [done|]. split; [done|].
  split; [rewrite (li_log _ _ Hli); apply Hfr|]. split; [rewrite (li_lii _ _ Hli); apply Hfr|].
  split; [rewrite (li_lit _ _ Hli); apply Hfr|]. split; [by rewrite Ht'|].
  intros q Hne'. rewrite Ht', <- Ht1. eapply kept_trans; [|by apply Hk].
  eapply kept_same; [exact Ho1|by intros ->%list_elem_of_singleton].
Qed.
End Elect.

(** C10: a majority that is up can always commit.  In a cluster of odd size over
    storage that does not fail, in which snapshots are delivered where
    [installable], take any reachable world in which the members of
    a majority are enabled, with room left in terms and logs, each free to take
    the others' snapshots.  Whoever leads, campaigns or lags among them, the run
    has a continuation after which one of them leads a term beyond all their
    terms, and has a given command, appended in that term, committed. *)
Theorem majority_progress {S} `{ReliableStorage S} members cfg_of (R : RWorld S) Q cmd :
  cluster_wf (S := S) members cfg_of → Nat.Odd (length members) → rreachable members cfg_of R →
  NoDup Q → Q ⊆ members → quorum_size members ≤ length Q →
  (∀ q, q ∈ Q → ∃ n, enabled R q n ∧ (n_currentTerm n + 1 < two64)%N ∧ (next_index (n_log n) < two63)%N) →
  (∀ p q np nq, p ∈ Q → q ∈ Q → enabled R p np → enabled R q nq → installable nq (snapshot_of np)) →
  (∀ t i, (t < two64)%N → (i < two63)%N → entry_fits (MkEntry t i cmd)) →
  ∃ p n e R', p ∈ Q ∧ rtc (rstep cfg_of) R R' ∧ enabled R' p n ∧ n_role n = Leader ∧
    (∀ q nq, q ∈ Q → enabled R q nq → (n_currentTerm nq < n_currentTerm n)%N) ∧
    e ∈ n_log n ∧ Command e = cmd ∧ Term e = n_currentTerm n ∧ (Index e ≤ n_commitIndex n)%N.
Proof.
  intros Hwf Hodd Hr Hnd Hsub Hqs Hup Hinst Hfit.
  destruct (leader_elected members cfg_of Hwf Hodd R Q Hr Hnd Hsub Hqs) as (p & np & R1 & n1 & Hp & Hnp & Hst1 & Hp1 & HL & El & Ei & Eit & Hlt & Hk).
  { intros q Hq. destruct (Hup q Hq) as (nq & ? & ? & _). by exists nq. }
  assert (rreachable members cfg_of R1) as Hr1 by (by eapply rreachable_rtc).
  destruct (node_facts members cfg_of Hwf Hodd _ _ _ Hr1 Hp1) as (Hs1 & Hpm & _ & Hpeers & _).
  assert (next_index (n_log n1) < two63)%N as Hroom.
  { destruct (Hup p Hp) as (np' & Hnp' & _ & ?). rewrite El. by replace np with np' by (destruct Hnp, Hnp'; congruence). }
  destruct (commit_proposal members cfg_of Hwf Hodd R1 p n1 cmd (filter (λ q, q ≠ p) Q) Hr1 Hp1 HL Hroom)
    as (R2 & n2 & Hst2 & Hp2 & HL2 & Ht2 & He & Hc).
  - apply Hfit; [apply (wf_term _ (proj1 (proj2 (proj1 Hs1))))|done].
  - by apply NoDup_filter.
  - intros q [Hne Hq]%list_elem_of_filter. rewrite Hpeers. apply (member_peers members cfg_of Hwf); auto.
  - rewrite (majority_members members cfg_of Hwf Hodd _ _ _ Hr1 Hp1). pose proof (without_one p Q Hnd). lia.
  - intros q [Hne Hq]%list_elem_of_filter. destruct (Hup q Hq) as (nq & Hnq & _).
    specialize (Hlt q nq Hq Hnq). destruct (Hk q Hne nq Hnq ltac:(lia)) as (nq' & Hnq' & Hfr & Ht'). exists nq'.
    split; [done|]. split; [done|]. eapply installable_same; [apply Hfr|apply Hfr|exact Ei|exact Eit|by apply (Hinst p q)].
  - exists p, n2, (MkEntry (n_currentTerm n1) (next_index (n_log n1)) cmd), R2. split; [done|]. split; [by etrans|].
    split; [done|]. split; [done|]. rewrite Ht2. split; [done|]. split; [done|]. by split_and!.
Qed.

(** The leader has crashed; "b" has its uncommitted entry, "c" has just started. *)
Definition a_gone : list (REvent MemoryStorage) := [REvent_base (EvRestart "c" env0); REvent_base (EvCrash "a")].

Lemma majority_progress_witness : ∃ (R R' : RWorld MemoryStorage) st nb nc p n e,
  rreachable three (cfg_among three) R ∧ w_procs (rw_world R) !! "a" = Some (Down st) ∧
  enabled R "b" nb ∧ n_commitIndex nb = 0%N ∧ enabled R "c" nc ∧ n_log nc = [boundary 0 0] ∧
  p ∈ ["b"; "c"] ∧ rtc (rstep (cfg_among three)) R R' ∧ enabled R' p n ∧ n_role n = Leader ∧
  e ∈ n_log n ∧ Command e = cmd_y ∧ Term e = n_currentTerm n ∧ (Index e ≤ n_commitIndex n)%N.
Proof.
  destruct (run_result three (cfg_among three) (commit_x ++ a_gone) (fresh_rworld three)
    (λ R, node_is R "b" (λ n, bool_decide (n_commitIndex n = 0%N ∧ n_currentTerm n = 1%N ∧ next_index (n_log n) = 2%N ∧ n_lastIncludedIndex n = 0%N)) &&
          node_is R "c" (λ n, bool_decide (n_log n = [boundary 0 0] ∧ n_currentTerm n = 0%N ∧ n_lastIncludedIndex n = 0%N)) &&
          match down_storage (rw_world R) "a" with Some _ => true | None => false end))
    as (R & _ & HR & [[Hb Hc]%andb_true_iff Ha]%andb_true_iff); [apply rreach_init, fresh_rinitial|by vm_compute|].
  destruct (node_is_enabled _ _ _ Hb) as (nb & Hnb & (Hcb & Htb & Hlb & Hib)%bool_decide_eq_true).
  destruct (node_is_enabled _ _ _ Hc) as (nc & Hnc & (Hlc & Htc & Hic)%bool_decide_eq_true).
  destruct (down_storage (rw_world R) "a") as [st|] eqn:Hst; [|discriminate Ha]. apply down_storage_Some in Hst.
  assert (∀ q n, q ∈ ["b"; "c"] → enabled R q n → n = nb ∨ n = nc) as Hwho.
  { intros q n Hq Hn. apply elem_of_cons in Hq as [->| ->%list_elem_of_singleton]; [left|right];
      destruct Hn, Hnb, Hnc; congruence. }
  destruct (majority_progress three (cfg_among three) R ["b"; "c"] cmd_y three_wf (ex_intro _ 1 eq_refl) HR)
    as (p & n & e & R' & Hp & Hsteps & Hn & HL & _ & He & Hcmd & Hte & Hci).
  - by apply (bool_decide_unpack (NoDup _)).
  - by apply (bool_decide_unpack (_ ⊆ _)).
  - by vm_compute.
  - intros q Hq. apply elem_of_cons in Hq as [->| ->%list_elem_of_singleton]; [exists nb|exists nc]; (split; [assumption|]).
    + rewrite Htb, Hlb. by vm_compute.
    + rewrite Htc, Hlc. by vm_compute.
  - intros p q np nq Hp Hq Hnp Hnq. assert (n_lastIncludedIndex np = 0%N) as E.
    { destruct (Hwho p np Hp Hnp) as [E|E]; rewrite E; assumption. }
    unfold installable. apply Forall_forall. intros e _. cbn. rewrite E. intros -> Hlt. by apply N.nlt_0_r in Hlt.
  - by intros.
  - exists R, R', st, nb, nc, p, n, e. do 13 (split; [assumption|]). assumption.
Defined.
