(* ===== verification/KVStore.v ===== *)
(** * internal/kv/store.go: the replicated key-value state machine

    [Store] with its per-client dedup records, its operations, and the
    reference it is proved against: a command takes effect iff it is a read or
    its sequence number exceeds those of all earlier writes of its client.
    Also internal/testutil/linearizability.go's [KVModel], the sequential
    specification the test-suite checks histories against.

    Go strings are [string]; the messages are those of proto/kv.proto.  The
    generated protobuf code is a parameter: [Unmarshal] of a command leaves
    what it decoded so far in the message when it fails, [Marshal] may refuse. *)
From S2P Require Import Prelude.

(** ** Messages *)
Inductive Op : Type :=
| OP_UNSPECIFIED | OP_GET | OP_PUT | OP_APPEND | OP_DELETE
| OP_other (v : Z).

#[export] Instance Op_eq_dec : EqDecision Op.
Proof. solve_decision. Defined.

Record KVCommand : Type := MkCommand {
  ClientId : string;
  SeqNo : N;
  Op_ : Op;
  Key : string;
  Value : string;
}.

Record CommandReply : Type := MkReply {
  Success : bool;
  r_Value : string;
  Found : bool;
  Error : string;
  LeaderHint : string;
  r_Index : N;
}.

#[export] Instance CommandReply_eq_dec : EqDecision CommandReply.
Proof. solve_decision. Defined.

(** [&pb.CommandReply{Success: true}], and the one with an error text. *)
Definition success_reply : CommandReply := MkReply true "" false "" "" 0.
Definition error_reply (e : string) : CommandReply := MkReply false "" false e "" 0.

(** A pointer field is an option: a decoded [SessionState] may lack its reply. *)
Record session : Type := MkSession { seqNo : N; reply : option CommandReply }.

(** [pb.Snapshot]; [pb.SessionState] has the fields of [session]. *)
Record KVSnapshot : Type := MkSnapshot {
  snap_Data : gmap string string;
  snap_Sessions : gmap string session;
}.

Record Store : Type := MkStore {
  data : gmap string string;
  sessions : gmap string session;
}.

(** The generated code of proto/distkvpb/kv.pb.go. *)
Class KVCodec : Type := {
  marshal_command : KVCommand → bytes + string;
  unmarshal_command : bytes → KVCommand * option string;
  marshal_snapshot : KVSnapshot → bytes + string;
  unmarshal_snapshot : bytes → KVSnapshot + string;
  op_string : Op → string;
}.

(** Its documented behaviour: what was encoded decodes to itself. *)
Class KVCodecSpec {codec : KVCodec} : Prop := {
  command_roundtrip c b : marshal_command c = inl b → unmarshal_command b = (c, None);
  snapshot_roundtrip s b : marshal_snapshot s = inl b → unmarshal_snapshot b = inl s;
}.

(** ** Operations *)
Definition NewStore : Store := MkStore ∅ ∅.

Definition set_data (d : gmap string string) (s : Store) : Store := MkStore d (sessions s).

(** A missing key of a [map[string]string] reads as the empty string. *)
Definition str_get (d : gmap string string) (k : string) : string := default ""%string (d !! k).

Section Store.
Context {codec : KVCodec}.

Definition applyLocked (cmd : KVCommand) (s : Store) : CommandReply * Store :=
  match Op_ cmd with
  | OP_GET => (MkReply true (str_get (data s) (Key cmd))
                 (bool_decide (is_Some (data s !! Key cmd))) "" "" 0, s)
  | OP_PUT => (success_reply, set_data (<[Key cmd := Value cmd]> (data s)) s)
  | OP_APPEND =>
      (success_reply,
       set_data (<[Key cmd := (str_get (data s) (Key cmd) ++ Value cmd)%string]> (data s)) s)
  | OP_DELETE => (success_reply, set_data (delete (Key cmd) (data s)) s)
  | op => (error_reply ("kv: unknown op " ++ op_string op), s)
  end.

(** [cmd.Op != pb.Op_OP_GET] *)
Definition dedupes (cmd : KVCommand) : bool := negb (bool_decide (Op_ cmd = OP_GET)).

(** What the session table answers without applying anything. *)
Definition dedup_reply (cmd : KVCommand) (s : Store) : option (option CommandReply) :=
  if dedupes cmd then
    match sessions s !! ClientId cmd with
    | Some sess =>
        if (SeqNo cmd =? seqNo sess)%N then Some (reply sess)
        else if (SeqNo cmd <? seqNo sess)%N then Some (Some success_reply)
        else None
    | None => None
    end
  else None.

(** [Apply] once the command is decoded. *)
Definition apply_cmd (cmd : KVCommand) (s : Store) : option CommandReply * Store :=
  match dedup_reply cmd s with
  | Some r => (r, s)
  | None =>
      let '(r, s') := applyLocked cmd s in
      (Some r,
       if dedupes cmd
       then MkStore (data s') (<[ClientId cmd := MkSession (SeqNo cmd) (Some r)]> (sessions s'))
       else s')
  end.

Definition Apply (commandBytes : bytes) (s : Store) : (KVCommand * option CommandReply) * Store :=
  match unmarshal_command commandBytes with
  | (cmd, Some err) => ((cmd, Some (error_reply ("kv: decoding command: " ++ err))), s)
  | (cmd, None) => let '(r, s') := apply_cmd cmd s in ((cmd, r), s')
  end.

Definition Len (s : Store) : nat := size (data s).

(** The copies into fresh maps are the maps themselves. *)
Definition Store_Snapshot (s : Store) : bytes + string :=
  marshal_snapshot (MkSnapshot (data s) (sessions s)).

Definition Restore (b : bytes) (s : Store) : option string * Store :=
  match unmarshal_snapshot b with
  | inr err => (Some ("kv: decoding snapshot: " ++ err)%string, s)
  | inl snap => (None, MkStore (snap_Data snap) (snap_Sessions snap))
  end.

(** A whole log. *)
Fixpoint apply_all (log : list bytes) (s : Store) : list (option CommandReply) * Store :=
  match log with
  | [] => ([], s)
  | b :: log =>
      let '((_, r), s') := Apply b s in
      let '(rs, s'') := apply_all log s' in
      (r :: rs, s'')
  end.

(** ** The reference: at most once

    [takes_effect earlier cmd]: [cmd] is applied after the commands
    [earlier]. *)
Definition takes_effect (earlier : list KVCommand) (cmd : KVCommand) : bool :=
  negb (dedupes cmd) ||
  forallb (λ c, negb (dedupes c && bool_decide (ClientId c = ClientId cmd)) || (SeqNo c <? SeqNo cmd)%N)
    earlier.

Fixpoint effective (earlier cmds : list KVCommand) : list KVCommand :=
  match cmds with
  | [] => []
  | c :: cs => (if takes_effect earlier c then [c] else []) ++ effective (earlier ++ [c]) cs
  end.

(** Plain execution, no sessions. *)
Definition raw_apply (d : gmap string string) (cmd : KVCommand) : gmap string string :=
  data (applyLocked cmd (MkStore d ∅)).2.

(** The session table records, per client, the largest sequence number of
    its writes so far. *)
Definition sessions_of (earlier : list KVCommand) (ss : gmap string session) : Prop :=
  ∀ id, match ss !! id with
        | None => ∀ c, c ∈ earlier → dedupes c = true → ClientId c ≠ id
        | Some sess =>
            (∃ c, c ∈ earlier ∧ dedupes c = true ∧ ClientId c = id ∧ SeqNo c = seqNo sess) ∧
            ∀ c, c ∈ earlier → dedupes c = true → ClientId c = id → (SeqNo c ≤ seqNo sess)%N
        end.

Lemma applyLocked_sessions cmd s : sessions (applyLocked cmd s).2 = sessions s.
Proof. unfold applyLocked. by destruct (Op_ cmd). Qed.

Lemma applyLocked_data cmd s : data (applyLocked cmd s).2 = raw_apply (data s) cmd.
Proof. unfold raw_apply, applyLocked. by destruct (Op_ cmd). Qed.

Lemma takes_effect_spec earlier cmd :
  takes_effect earlier cmd = true ↔
  (dedupes cmd = true → ∀ c, c ∈ earlier → dedupes c = true → ClientId c = ClientId cmd →
     (SeqNo c < SeqNo cmd)%N).
Proof.
  unfold takes_effect. rewrite orb_true_iff, forallb_forall. split.
  - intros [Hn|Hall] Hd c Hc Hdc Hid; [by rewrite Hd in Hn|].
    specialize (Hall c (proj1 (list_elem_of_In _ _) Hc)).
    rewrite Hdc, bool_decide_true in Hall by done. by apply N.ltb_lt.
  - intros Hall. destruct (dedupes cmd); [right|by left].
    intros c Hc%list_elem_of_In. destruct (dedupes c) eqn:Hdc; [|done]. cbn.
    case_bool_decide as Hid; [|done]. cbn. apply N.ltb_lt. by apply Hall.
Qed.

Lemma dedup_takes_effect earlier cmd s :
  sessions_of earlier (sessions s) →
  takes_effect earlier cmd = match dedup_reply cmd s with Some _ => false | None => true end.
Proof.
  intros Hs. specialize (Hs (ClientId cmd)). unfold dedup_reply.
  destruct (dedupes cmd) eqn:Hd; [|by unfold takes_effect; rewrite Hd].
  destruct (sessions s !! ClientId cmd) as [sess|].
  - destruct Hs as [(c & Hc & Hdc & Hid & Hseq) Hmax].
    destruct (N.eqb_spec (SeqNo cmd) (seqNo sess)); [|destruct (N.ltb_spec (SeqNo cmd) (seqNo sess))].
    + apply not_true_is_false. rewrite takes_effect_spec. intros Hall.
      specialize (Hall Hd c Hc Hdc Hid). lia.
    + apply not_true_is_false. rewrite takes_effect_spec. intros Hall.
      specialize (Hall Hd c Hc Hdc Hid). lia.
    + apply takes_effect_spec. intros _ c' Hc' Hd' Hid'. specialize (Hmax c' Hc' Hd' Hid'). lia.
  - apply takes_effect_spec. intros _ c' Hc' Hd' Hid'. by destruct (Hs c' Hc' Hd').
Qed.

Lemma apply_cmd_sessions earlier cmd s :
  sessions_of earlier (sessions s) → sessions_of (earlier ++ [cmd]) (sessions (apply_cmd cmd s).2).
Proof.
  intros Hs. pose proof (dedup_takes_effect earlier cmd s Hs) as Hd. unfold apply_cmd.
  destruct (dedup_reply cmd s) as [r|] eqn:Hr.
  - cbn. unfold dedup_reply in Hr. destruct (dedupes cmd) eqn:Hde; [|done].
    destruct (sessions s !! ClientId cmd) as [sess|] eqn:Hl; [|done].
    assert (SeqNo cmd ≤ seqNo sess)%N as Hle.
    { destruct (N.eqb_spec (SeqNo cmd) (seqNo sess)); [lia|].
      destruct (N.ltb_spec (SeqNo cmd) (seqNo sess)); [lia|done]. }
    intros id. specialize (Hs id). destruct (sessions s !! id) as [sess'|] eqn:Hl'.
    + destruct Hs as [(c & Hc & ?) Hmax]. split; [exists c; split; [apply elem_of_app; by left|done]|].
      intros c' [Hc'| ->%list_elem_of_singleton]%elem_of_app Hd' Hid'; [by apply Hmax|].
      subst id. rewrite Hl in Hl'. by injection Hl' as <-.
    + intros c' [Hc'| ->%list_elem_of_singleton]%elem_of_app Hd'; [by apply Hs|]. congruence.
  - destruct (applyLocked cmd s) as [r s'] eqn:Ha. cbn.
    pose proof (applyLocked_sessions cmd s) as Hss. rewrite Ha in Hss. cbn in Hss.
    pose proof (proj1 (takes_effect_spec _ _) Hd) as Hfresh. destruct (dedupes cmd) eqn:Hde.
    + cbn. rewrite Hss. intros id. destruct (decide (ClientId cmd = id)) as [<-|Hne].
      * rewrite lookup_insert_eq. cbn. split.
        { exists cmd. split; [apply elem_of_app; right; by left|done]. }
        intros c' [Hc'| ->%list_elem_of_singleton]%elem_of_app Hd' Hid'; [|done].
        apply N.lt_le_incl. by apply Hfresh.
      * rewrite lookup_insert_ne by done. specialize (Hs id). destruct (sessions s !! id) as [sess'|].
        { destruct Hs as [(c & Hc & ?) Hmax]. split; [exists c; split; [apply elem_of_app; by left|done]|].
          intros c' [Hc'| ->%list_elem_of_singleton]%elem_of_app Hd' Hid'; [by apply Hmax|done]. }
        intros c' [Hc'| ->%list_elem_of_singleton]%elem_of_app Hd'; [by apply Hs|done].
    + rewrite Hss. intros id. specialize (Hs id). destruct (sessions s !! id) as [sess'|].
      * destruct Hs as [(c & Hc & ?) Hmax]. split; [exists c; split; [apply elem_of_app; by left|done]|].
        intros c' [Hc'| ->%list_elem_of_singleton]%elem_of_app Hd' Hid'; [by apply Hmax|congruence].
      * intros c' [Hc'| ->%list_elem_of_singleton]%elem_of_app Hd'; [by apply Hs|congruence].
Qed.

Lemma apply_cmd_data earlier cmd s :
  sessions_of earlier (sessions s) →
  data (apply_cmd cmd s).2 = if takes_effect earlier cmd then raw_apply (data s) cmd else data s.
Proof.
  intros Hs. rewrite (dedup_takes_effect earlier cmd s Hs). unfold apply_cmd.
  destruct (dedup_reply cmd s) as [r|]; [done|].
  destruct (applyLocked cmd s) as [r s'] eqn:Ha. rewrite <- applyLocked_data, Ha. cbn.
  by destruct (dedupes cmd).
Qed.

(** The command a log entry holds. *)
Definition decode (b : bytes) : option KVCommand :=
  match unmarshal_command b with (c, None) => Some c | (_, Some _) => None end.

Lemma Apply_decode b s :
  (Apply b s).2 = match decode b with Some c => (apply_cmd c s).2 | None => s end.
Proof.
  unfold Apply, decode. destruct (unmarshal_command b) as [c [err|]]; [done|].
  by destruct (apply_cmd c s).
Qed.

Lemma apply_all_cons b log s : (apply_all (b :: log) s).2 = (apply_all log (Apply b s).2).2.
Proof. cbn. destruct (Apply b s) as [[c r] s']. cbn. by destruct (apply_all log s'). Qed.

Lemma apply_all_data earlier log s :
  sessions_of earlier (sessions s) →
  data (apply_all log s).2 = foldl raw_apply (data s) (effective earlier (omap decode log)).
Proof.
  revert earlier s. induction log as [|b log IH]; intros earlier s Hs; [done|].
  rewrite apply_all_cons, Apply_decode. cbn [omap list_omap].
  destruct (decode b) as [c|]; [|by apply IH].
  rewrite (IH (earlier ++ [c])) by (by apply apply_cmd_sessions).
  cbn [effective]. rewrite (apply_cmd_data earlier c s Hs), foldl_app.
  by destruct (takes_effect earlier c).
Qed.

Lemma sessions_of_new : sessions_of [] (sessions NewStore).
Proof. intros id. cbn. rewrite lookup_empty. by intros c ?%not_elem_of_nil. Qed.

(** *** Replies of retried requests *)

(** The commands of a log the client [id] wrote. *)
Definition writes_of (id : string) (cmd : KVCommand) : bool :=
  dedupes cmd && bool_decide (ClientId cmd = id).

Lemma apply_cmd_other_session c s id :
  writes_of id c = false → sessions (apply_cmd c s).2 !! id = sessions s !! id.
Proof.
  unfold writes_of, apply_cmd. intros Hw. destruct (dedup_reply c s); [done|].
  destruct (applyLocked c s) as [r s'] eqn:Ha. cbn.
  pose proof (applyLocked_sessions c s) as Hss. rewrite Ha in Hss. cbn in Hss.
  destruct (dedupes c); [|by rewrite Hss]. cbn in *. apply bool_decide_eq_false in Hw.
  by rewrite lookup_insert_ne, Hss.
Qed.

Lemma apply_all_other_session log s id :
  Forall (λ c, writes_of id c = false) (omap decode log) →
  sessions (apply_all log s).2 !! id = sessions s !! id.
Proof.
  revert s. induction log as [|b log IH]; intros s Hall; [done|].
  rewrite apply_all_cons, Apply_decode. cbn [omap list_omap] in Hall.
  destruct (decode b) as [c|]; [|by apply IH]. inversion Hall; subst.
  rewrite IH by done. by apply apply_cmd_other_session.
Qed.

Lemma apply_cmd_fresh c s :
  dedupes c = true → dedup_reply c s = None →
  sessions (apply_cmd c s).2 !! ClientId c = Some (MkSession (SeqNo c) (apply_cmd c s).1).
Proof.
  intros Hd Hr. unfold apply_cmd. rewrite Hr, Hd. destruct (applyLocked c s) as [r s']. cbn.
  by rewrite lookup_insert_eq.
Qed.

Lemma apply_cmd_again c s sess :
  dedupes c = true → sessions s !! ClientId c = Some sess → SeqNo c = seqNo sess →
  apply_cmd c s = (reply sess, s).
Proof.
  intros Hd Hs Hseq. unfold apply_cmd, dedup_reply. by rewrite Hd, Hs, Hseq, N.eqb_refl.
Qed.

(** Every reply the table holds is there (no nil pointer). *)
Definition replies_present (s : Store) : Prop :=
  map_Forall (λ _ sess, is_Some (reply sess)) (sessions s).

Lemma Apply_present b s :
  replies_present s → is_Some (Apply b s).1.2 ∧ replies_present (Apply b s).2.
Proof.
  intros Hp. unfold Apply. destruct (unmarshal_command b) as [c [err|]]; [by split; [eexists|]|].
  unfold apply_cmd, dedup_reply. destruct (dedupes c) eqn:Hd.
  - assert (∀ r s', applyLocked c s = (r, s') → replies_present
      (MkStore (data s') (<[ClientId c := MkSession (SeqNo c) (Some r)]> (sessions s')))) as Hnew.
    { intros r s' Ha. pose proof (applyLocked_sessions c s) as Hss. rewrite Ha in Hss. cbn in Hss.
      unfold replies_present. cbn. rewrite Hss. by apply map_Forall_insert_2. }
    destruct (sessions s !! ClientId c) as [sess|] eqn:Hl.
    + destruct (SeqNo c =? seqNo sess)%N; [split; [exact (Hp _ _ Hl)|done]|].
      destruct (SeqNo c <? seqNo sess)%N; [by split; [eexists|]|].
      destruct (applyLocked c s) as [r s'] eqn:Ha. split; [by eexists|]. by apply Hnew.
    + destruct (applyLocked c s) as [r s'] eqn:Ha. split; [by eexists|]. by apply Hnew.
  - destruct (applyLocked c s) as [r s'] eqn:Ha. split; [by eexists|]. cbn.
    pose proof (applyLocked_sessions c s) as Hss. rewrite Ha in Hss. cbn in Hss.
    unfold replies_present. by rewrite Hss.
Qed.
End Store.

(** ** KVModel *)
Inductive KVOpKind : Type := KVGet | KVPut | KVAppend | KVOther (k : Z).

Record KVInput : Type := MkInput { in_Op : KVOpKind; in_Key : string; in_Value : string }.

Definition KVModel_Init : string := "".

Definition KVModel_Step (state : string) (input : KVInput) (output : string) : bool * string :=
  match in_Op input with
  | KVGet => (bool_decide (output = state), state)
  | KVPut => (true, in_Value input)
  | KVAppend => (true, (state ++ in_Value input)%string)
  | KVOther _ => (false, state)
  end.

(** [Partition]: the operations on one key. *)
Definition KVModel_key (k : string) (history : list (KVInput * string)) : list (KVInput * string) :=
  filter (λ op, in_Key op.1 = k) history.

(** A sequential history of one key accepted by the model. *)
Fixpoint model_accepts (state : string) (history : list (KVInput * string)) : bool :=
  match history with
  | [] => true
  | (i, o) :: rest => let '(ok, st) := KVModel_Step state i o in ok && model_accepts st rest
  end.

(** The command a recorded input stands for. *)
Definition command_of (i : KVInput) : option KVCommand :=
  match in_Op i with
  | KVGet => Some (MkCommand "" 0 OP_GET (in_Key i) "")
  | KVPut => Some (MkCommand "" 0 OP_PUT (in_Key i) (in_Value i))
  | KVAppend => Some (MkCommand "" 0 OP_APPEND (in_Key i) (in_Value i))
  | KVOther _ => None
  end.

(** The store run on the same history: reads must return what was recorded. *)
Fixpoint store_accepts {codec : KVCodec} (d : gmap string string) (history : list (KVInput * string)) : bool :=
  match history with
  | [] => true
  | (i, o) :: rest =>
      match command_of i with
      | None => false
      | Some c =>
          let '(r, s') := applyLocked c (MkStore d ∅) in
          match in_Op i with KVGet => bool_decide (o = r_Value r) | _ => true end &&
          store_accepts (data s') rest
      end
  end.

Lemma str_get_insert (d : gmap string string) k v k' :
  str_get (<[k := v]> d) k' = if decide (k = k') then v else str_get d k'.
Proof. unfold str_get. destruct (decide (k = k')) as [->|]; by simplify_map_eq. Qed.

(** A concrete codec: the bits of stdpp's countable encoding, one per byte. *)
Fixpoint pos_bytes (p : positive) : bytes :=
  match p with
  | xH => []
  | xO p => Byte.x00 :: pos_bytes p
  | xI p => Byte.x01 :: pos_bytes p
  end.

Fixpoint bytes_pos (b : bytes) : positive :=
  match b with
  | [] => xH
  | Byte.x00 :: b => xO (bytes_pos b)
  | _ :: b => xI (bytes_pos b)
  end.

Lemma bytes_pos_bytes p : bytes_pos (pos_bytes p) = p.
Proof. induction p; cbn; congruence. Qed.

Definition op_code (o : Op) : Z :=
  match o with
  | OP_UNSPECIFIED => 0 | OP_GET => 1 | OP_PUT => 2 | OP_APPEND => 3 | OP_DELETE => 4
  | OP_other v => if (v <? 0)%Z then v else v + 5
  end.

Definition op_of_code (z : Z) : Op :=
  if (z =? 0)%Z then OP_UNSPECIFIED else if (z =? 1)%Z then OP_GET else if (z =? 2)%Z then OP_PUT
  else if (z =? 3)%Z then OP_APPEND else if (z =? 4)%Z then OP_DELETE
  else if (z <? 0)%Z then OP_other z else OP_other (z - 5).

Lemma op_of_op_code o : op_of_code (op_code o) = o.
Proof.
  destruct o; try done. unfold op_code, op_of_code.
  destruct (Z.ltb_spec v 0); repeat (case_match; try lia); f_equal; lia.
Qed.

#[export] Instance Op_countable : Countable Op := inj_countable' op_code op_of_code op_of_op_code.

#[export] Instance KVCommand_eq_dec : EqDecision KVCommand.
Proof. solve_decision. Defined.

#[export] Instance KVCommand_countable : Countable KVCommand :=
  inj_countable' (λ c, (ClientId c, SeqNo c, Op_ c, Key c, Value c))
    (λ '(i, s, o, k, v), MkCommand i s o k v) ltac:(by intros []).

#[export] Instance CommandReply_countable : Countable CommandReply :=
  inj_countable' (λ r, (Success r, r_Value r, Found r, Error r, LeaderHint r, r_Index r))
    (λ '(s, v, f, e, h, i), MkReply s v f e h i) ltac:(by intros []).

#[export] Instance session_eq_dec : EqDecision session.
Proof. solve_decision. Defined.

#[export] Instance session_countable : Countable session :=
  inj_countable' (λ s, (seqNo s, reply s)) (λ '(n, r), MkSession n r) ltac:(by intros []).

#[export] Instance KVSnapshot_eq_dec : EqDecision KVSnapshot.
Proof. solve_decision. Defined.

#[export] Instance KVSnapshot_countable : Countable KVSnapshot :=
  inj_countable' (λ s, (snap_Data s, snap_Sessions s)) (λ '(d, s), MkSnapshot d s) ltac:(by intros []).

Definition bit_codec : KVCodec := {|
  marshal_command c := inl (pos_bytes (encode c));
  unmarshal_command b :=
    match countable.decode (bytes_pos b) with
    | Some c => (c, None)
    | None => (MkCommand "" 0 OP_UNSPECIFIED "" "", Some "malformed"%string)
    end;
  marshal_snapshot s := inl (pos_bytes (encode s));
  unmarshal_snapshot b :=
    match countable.decode (bytes_pos b) with Some s => inl s | None => inr "malformed"%string end;
  op_string o := "OP"%string;
|}.

Lemma bit_codec_spec : @KVCodecSpec bit_codec.
Proof.
  split; cbn; intros x b [= <-]; rewrite bytes_pos_bytes, decode_encode; done.
Qed.
