(* ===== verification/KVProperties.v ===== *)
(** * Properties of the key-value state machine *)
From S2P Require Import Prelude KVStore.

Section Properties.
  Context {codec : KVCodec}.

(** C16: writes take effect at most once.  The contents of a store that applied
    a log, from empty, are those of plainly executing, in log order, the reads
    and those writes whose sequence number exceeds the ones of every earlier
    write of the same client: retries, duplicates and undecodable entries change
    nothing. *)
Theorem apply_at_most_once log :
  data (apply_all log NewStore).2 = foldl raw_apply ∅ (effective [] (omap decode log)).
Proof. apply (apply_all_data []). apply sessions_of_new. Qed.

(** A retry gets the original answer.  When a write was applied and later
    entries hold no other write of its client, applying it again returns the
    reply of the first time and changes nothing. *)
Theorem retry_same_reply b c log1 log2 :
  let s1 := (apply_all log1 NewStore).2 in
  let s2 := (apply_all log2 (Apply b s1).2).2 in
  decode b = Some c → dedupes c = true → dedup_reply c s1 = None →
  Forall (λ c', writes_of (ClientId c) c' = false) (omap decode log2) →
  Apply b s2 = ((c, (Apply b s1).1.2), s2).
Proof.
  intros s1 s2 Hb Hd Hfresh Hall.
  assert (∀ s, Apply b s = ((c, (apply_cmd c s).1), (apply_cmd c s).2)) as Happ.
  { intros s. unfold Apply. unfold decode in Hb. destruct (unmarshal_command b) as [c' [err|]]; [done|].
    injection Hb as ->. by destruct (apply_cmd c s). }
  pose proof (apply_cmd_fresh c s1 Hd Hfresh) as Hsess.
  assert (sessions s2 !! ClientId c = Some (MkSession (SeqNo c) (apply_cmd c s1).1)) as Hs2.
  { unfold s2. rewrite apply_all_other_session by done. by rewrite Happ. }
  rewrite !Happ, (apply_cmd_again c s2 _ Hd Hs2 eq_refl). done.
Qed.

(** Snapshots are faithful.  Restoring what [Snapshot] produced, on any
    node, gives the very same store, so the rest of the log yields the same
    replies and the same state. *)
Theorem snapshot_restore {spec : KVCodecSpec} s b s0 log :
  Store_Snapshot s = inl b →
  Restore b s0 = (None, s) ∧ apply_all log (Restore b s0).2 = apply_all log s.
Proof.
  unfold Store_Snapshot, Restore. intros ->%snapshot_roundtrip. by destruct s.
Qed.

(** No nil reply.  Every entry of a log, applied from an empty store, is
    answered with a reply object (which the server dereferences), and so is any
    further entry. *)
Theorem replies_never_nil log b :
  let s := (apply_all log NewStore).2 in
  is_Some (Apply b s).1.2 ∧ Forall is_Some (apply_all log NewStore).1.
Proof.
  assert (∀ s, replies_present s →
    replies_present (apply_all log s).2 ∧ Forall is_Some (apply_all log s).1) as Hall.
  { induction log as [|x log IH]; intros s Hs; [done|]. cbn.
    destruct (Apply_present x s Hs) as [Hr Hs'].
    destruct (Apply x s) as [[c r] s']. destruct (IH s' Hs') as [H1 H2].
    destruct (apply_all log s') as [rs s'']. cbn in *. auto. }
  destruct (Hall NewStore) as [Hp Hf]; [done|]. split; [by apply Apply_present|done].
Qed.

(** C17: the checker's model is the store's.  A sequential history of gets,
    puts and appends is what the store answers, starting from contents [d], iff
    [KVModel] accepts the sub-history of every key from that key's value: the
    partition by key and the empty initial value are sound and complete. *)
Theorem KVModel_refines d history :
  store_accepts d history = true ↔
  ∀ k, model_accepts (str_get d k) (KVModel_key k history) = true.
Proof.
  revert d. induction history as [|[i o] rest IH]; intros d; [done|].
  unfold KVModel_key. cbn [store_accepts]. split.
  - intros Hacc k. rewrite filter_cons. unfold command_of in Hacc. destruct (decide _) as [<-|Hne].
    + cbn [model_accepts fst]. unfold KVModel_Step.
      destruct (in_Op i); cbn [applyLocked Op_ data] in Hacc; try done;
        apply andb_true_iff in Hacc as [Ho Hr]; rewrite IH in Hr; specialize (Hr (in_Key i));
        cbn in Hr; rewrite ?str_get_insert, ?decide_True in Hr by done; cbn in Ho; by rewrite ?Ho.
    + destruct (in_Op i); cbn [applyLocked Op_ data] in Hacc; try done;
        apply andb_true_iff in Hacc as [_ Hr]; rewrite IH in Hr; specialize (Hr k);
        cbn in Hr, Hne; rewrite ?str_get_insert, ?decide_False in Hr by done; exact Hr.
  - intros Hall. pose proof (Hall (in_Key i)) as Hi. rewrite filter_cons_True in Hi by done.
    cbn [model_accepts] in Hi. unfold KVModel_Step, command_of in *.
    assert (Hrest : ∀ d', (∀ k, k ≠ in_Key i → str_get d' k = str_get d k) →
      model_accepts (str_get d' (in_Key i)) (KVModel_key (in_Key i) rest) = true →
      store_accepts d' rest = true).
    { intros d' Hd' Hk. apply IH. intros k. destruct (decide (k = in_Key i)) as [->|Hne]; [done|].
      rewrite Hd' by done. specialize (Hall k). rewrite filter_cons_False in Hall by (cbn; congruence).
      exact Hall. }
    destruct (in_Op i); cbn [applyLocked Op_ data] in *; try done;
      apply andb_true_iff in Hi as [Ho Hr]; apply andb_true_iff; (split; [done|]); apply Hrest;
      cbn [data set_data snd Key Value]; rewrite ?str_get_insert, ?decide_True by done; try done;
      intros k Hk; by rewrite str_get_insert, decide_False.
Qed.
End Properties.

(** ** Concrete runs, over [bit_codec] *)
Definition enc (c : KVCommand) : bytes := pos_bytes (encode c).

Lemma decode_enc c : decode (codec := bit_codec) (enc c) = Some c.
Proof. unfold decode, enc. cbn. by rewrite bytes_pos_bytes, decode_encode. Qed.

Definition append_v : KVCommand := MkCommand "cl" 1 OP_APPEND "k" "v".
Definition put_w : KVCommand := MkCommand "other" 7 OP_PUT "k" "w".

Lemma retry_same_reply_witness :
  let s1 := (apply_all (codec := bit_codec) [] NewStore).2 in
  let s2 := (apply_all (codec := bit_codec) [enc put_w] (Apply (codec := bit_codec) (enc append_v) s1).2).2 in
  Apply (codec := bit_codec) (enc append_v) s2 =
    ((append_v, (Apply (codec := bit_codec) (enc append_v) s1).1.2), s2).
Proof.
  apply (retry_same_reply (codec := bit_codec) (enc append_v) append_v [] [enc put_w]).
  - apply decode_enc.
  - reflexivity.
  - reflexivity.
  - cbn [omap list_omap]. rewrite decode_enc. repeat constructor.
Defined.

Lemma snapshot_restore_witness : ∃ b,
  Store_Snapshot (codec := bit_codec) (MkStore {[ "k"%string := "v"%string ]} ∅) = inl b ∧
  Restore (codec := bit_codec) b NewStore = (None, MkStore {[ "k"%string := "v"%string ]} ∅).
Proof.
  eexists. split; [reflexivity|].
  exact (proj1 (snapshot_restore (codec := bit_codec) (spec := bit_codec_spec)
    (MkStore {[ "k"%string := "v"%string ]} ∅) _ NewStore [] eq_refl)).
Defined.
