(* ===== verification/History.v ===== *)
(** * internal/testutil/linearizability.go: recording histories

    [History] and what the tests do with it: clients note the time, call the
    store, and record the outcome or that there is none.  The checker itself
    (porcupine) is not part of the repository; [linearizable] is what it decides
    for [KVModel], by its documentation.  The theorem is that recording makes no
    false alarms: a store whose operations take effect one at a time, between
    call and return, yields a history the checker accepts.  Times are in
    nanoseconds. *)
From S2P Require Import Prelude KVStore.
#[local] Set Warnings "-clear-no-such-hyp".

(** [porcupine.Operation] *)
Record Operation : Type := MkOperation {
  o_ClientId : Z; o_Input : KVInput; o_Call : Z; o_Output : string; o_Return : Z;
}.

Record History : Type := MkHistory { h_start : Z; h_ops : list Operation }.

Definition maxInt64 : Z := 9223372036854775807.

(** The wall clock reads [t]. *)
Definition NewHistory (t : Z) : History := MkHistory t [].
Definition Now (t : Z) (h : History) : Z := (t - h_start h)%Z.

Definition Complete (t client call : Z) (inp : KVInput) (out : string) : GoM History () :=
  modify (λ h, MkHistory (h_start h) (h_ops h ++ [MkOperation client inp call out (t - h_start h)])).

Definition Pending (client call : Z) (inp : KVInput) : GoM History () :=
  modify (λ h, MkHistory (h_start h) (h_ops h ++ [MkOperation client inp call "" maxInt64])).

Definition History_Len (h : History) : nat := length (h_ops h).
Definition Operations (h : History) : list Operation := h_ops h.

(** ** Linearizability *)

(** [a] may come before [b]: [b] had not returned when [a] was called. *)
Definition may_precede (a b : Operation) : Prop := ¬ (o_Return b < o_Call a)%Z.

Definition linearizable (h : list Operation) : Prop :=
  ∃ order, order ≡ₚ h ∧ StronglySorted may_precede order ∧
    ∀ k, model_accepts KVModel_Init (KVModel_key k ((λ o, (o_Input o, o_Output o)) <$> order)) = true.

(** ** Clients of an atomic store *)

Inductive OpStatus : Type := OpRunning | OpRecorded | OpDropped.

(** One call of a client: when and with what it was made. *)
Record ClientCall : Type := MkCall { ca_client : Z; ca_call : Z; ca_input : KVInput; ca_status : OpStatus }.

Definition set_status (st : OpStatus) (c : ClientCall) : ClientCall := MkCall (ca_client c) (ca_call c) (ca_input c) st.

(** A call taking effect: when, and what the store answered. *)
Record Effect : Type := MkEffect { ef_id : N; ef_input : KVInput; ef_output : string; ef_time : Z }.

(** [tw_effects] is the order in which calls took effect and [tw_recorded] which
    call each record is of. *)
Record TestWorld : Type := MkTestWorld {
  tw_now : Z;
  tw_data : gmap string string;
  tw_calls : gmap N ClientCall;
  tw_history : History;
  tw_effects : list Effect;
  tw_recorded : list (N * Operation);
}.

Definition is_read (i : KVInput) : bool := match in_Op i with KVGet => true | _ => false end.

Section Test.
Context {codec : KVCodec}.

(** A call may take effect at any time after it was made, also after its client
    has given up on it, and at most once; it can be recorded as complete once it
    has.  A read without an answer is dropped. *)
Inductive test_step : TestWorld → TestWorld → Prop :=
| te_time t' t d cs h es rs :
    (t ≤ t')%Z → (t' - h_start h ≤ maxInt64)%Z →
    test_step (MkTestWorld t d cs h es rs) (MkTestWorld t' d cs h es rs)
| te_call id client inp t d cs h es rs :
    cs !! id = None → is_Some (command_of inp) →
    test_step (MkTestWorld t d cs h es rs)
      (MkTestWorld t d (<[id := MkCall client (Now t h) inp OpRunning]> cs) h es rs)
| te_effect id c cmd r s' t d cs h es rs :
    cs !! id = Some c → id ∉ ef_id <$> es → command_of (ca_input c) = Some cmd →
    applyLocked cmd (MkStore d ∅) = (r, s') →
    test_step (MkTestWorld t d cs h es rs)
      (MkTestWorld t (data s') cs h (es ++ [MkEffect id (ca_input c) (r_Value r) (Now t h)]) rs)
| te_complete id c e out h' o t d cs h es rs :
    cs !! id = Some c → ca_status c = OpRunning → e ∈ es → ef_id e = id →
    out = (if is_read (ca_input c) then ef_output e else ""%string) →
    Complete t (ca_client c) (ca_call c) (ca_input c) out h = Val ((), h') → last (h_ops h') = Some o →
    test_step (MkTestWorld t d cs h es rs)
      (MkTestWorld t d (<[id := set_status OpRecorded c]> cs) h' es (rs ++ [(id, o)]))
| te_pending id c h' o t d cs h es rs :
    cs !! id = Some c → ca_status c = OpRunning → is_read (ca_input c) = false →
    Pending (ca_client c) (ca_call c) (ca_input c) h = Val ((), h') → last (h_ops h') = Some o →
    test_step (MkTestWorld t d cs h es rs)
      (MkTestWorld t d (<[id := set_status OpRecorded c]> cs) h' es (rs ++ [(id, o)]))
| te_drop id c t d cs h es rs :
    cs !! id = Some c → ca_status c = OpRunning → is_read (ca_input c) = true →
    test_step (MkTestWorld t d cs h es rs) (MkTestWorld t d (<[id := set_status OpDropped c]> cs) h es rs).

(** The history is looked at when no write is under way. *)
Definition settled (w : TestWorld) : Prop :=
  ∀ id c, tw_calls w !! id = Some c → ca_status c = OpRunning → is_read (ca_input c) = true.

Definition fresh_test (t : Z) : TestWorld := MkTestWorld t ∅ ∅ (NewHistory t) [] [].

(** ** The invariant *)
Definition pairs (es : list Effect) : list (KVInput * string) := (λ e, (ef_input e, ef_output e)) <$> es.

Lemma pairs_snoc es id i o t : pairs (es ++ [MkEffect id i o t]) = pairs es ++ [(i, o)].
Proof. unfold pairs. by rewrite fmap_app. Qed.

(** The value of a key after a history. *)
Definition model_end (state : string) (history : list (KVInput * string)) : string :=
  foldl (λ st x, (KVModel_Step st x.1 x.2).2) state history.

#[local] Arguments model_end : simpl never.
#[local] Arguments KVModel_key : simpl never.
#[local] Arguments pairs : simpl never.

Lemma key_cons k h i o :
  KVModel_key k ((i, o) :: h) = if decide (in_Key i = k) then (i, o) :: KVModel_key k h else KVModel_key k h.
Proof. unfold KVModel_key. by rewrite filter_cons. Qed.

Lemma key_app k h1 h2 : KVModel_key k (h1 ++ h2) = KVModel_key k h1 ++ KVModel_key k h2.
Proof. apply filter_app. Qed.

Lemma key_snoc k h i o :
  KVModel_key k (h ++ [(i, o)]) = KVModel_key k h ++ (if decide (in_Key i = k) then [(i, o)] else []).
Proof.
  unfold KVModel_key. rewrite filter_app. f_equal.
Qed.

Record test_inv (w : TestWorld) : Prop := {
  ti_ops : h_ops (tw_history w) = (tw_recorded w).*2;
  ti_time : (0 ≤ Now (tw_now w) (tw_history w) ≤ maxInt64)%Z;
  ti_call id c : tw_calls w !! id = Some c →
    (ca_call c ≤ Now (tw_now w) (tw_history w))%Z ∧ is_Some (command_of (ca_input c));
  ti_effect_ids : NoDup (ef_id <$> tw_effects w);
  ti_effect e : e ∈ tw_effects w → (ef_time e ≤ Now (tw_now w) (tw_history w))%Z ∧
    ∃ c, tw_calls w !! ef_id e = Some c ∧ ef_input e = ca_input c ∧ (ca_call c ≤ ef_time e)%Z;
  ti_sorted : StronglySorted (λ a b, (ef_time a ≤ ef_time b)%Z) (tw_effects w);
  ti_data k : model_accepts KVModel_Init (KVModel_key k (pairs (tw_effects w))) = true ∧
    model_end KVModel_Init (KVModel_key k (pairs (tw_effects w))) = str_get (tw_data w) k;
  ti_rec_ids : NoDup (tw_recorded w).*1;
  ti_rec id o : (id, o) ∈ tw_recorded w → ∃ c, tw_calls w !! id = Some c ∧ ca_status c = OpRecorded ∧
    o_Input o = ca_input c ∧ o_Call o = ca_call c ∧
    (o_Return o = maxInt64 ∧ is_read (ca_input c) = false ∨
     ∃ e, e ∈ tw_effects w ∧ ef_id e = id ∧ (ef_time e ≤ o_Return o)%Z ∧
       (is_read (ca_input c) = true → o_Output o = ef_output e));
  ti_done id c : tw_calls w !! id = Some c → ca_status c = OpRecorded → id ∈ (tw_recorded w).*1;
  ti_dropped id c : tw_calls w !! id = Some c → ca_status c = OpDropped → is_read (ca_input c) = true;
}.

Lemma fresh_test_inv t : test_inv (fresh_test t).
Proof.
  split; cbn; try done; try (by constructor); try (intros; set_solver).
  - unfold Now, maxInt64. cbn. lia.
Qed.

Lemma model_accepts_app st h1 h2 :
  model_accepts st (h1 ++ h2) = model_accepts st h1 && model_accepts (model_end st h1) h2.
Proof.
  revert st. induction h1 as [|[i o] h1 IH]; intros st; [done|]. cbn [app model_accepts].
  change (model_end st ((i, o) :: h1)) with (model_end (KVModel_Step st i o).2 h1).
  destruct (KVModel_Step st i o) as [ok st']. cbn. by rewrite IH, andb_assoc.
Qed.

Lemma model_end_app st h1 h2 : model_end st (h1 ++ h2) = model_end (model_end st h1) h2.
Proof. apply foldl_app. Qed.

(** What a command does to the values, seen by the model. *)
Lemma effect_model inp cmd d r s' k :
  command_of inp = Some cmd → applyLocked cmd (MkStore d ∅) = (r, s') →
  (in_Key inp = k → KVModel_Step (str_get d k) inp (r_Value r) = (true, str_get (data s') k)) ∧
  (in_Key inp ≠ k → str_get (data s') k = str_get d k).
Proof.
  unfold command_of, KVModel_Step. destruct inp as [[| | |z] key v]; cbn; [..|done]; intros [= <-] [= <- <-]; cbn;
    (split; [intros ->|intros Hk]); rewrite ?str_get_insert, ?decide_True, ?decide_False by done;
    rewrite ?bool_decide_true by done; done.
Qed.

Lemma test_inv_time t' t d cs h es rs :
  (t ≤ t')%Z → (t' - h_start h ≤ maxInt64)%Z →
  test_inv (MkTestWorld t d cs h es rs) → test_inv (MkTestWorld t' d cs h es rs).
Proof.
  intros Ht Hmax [Ho Htm Hc Hei He Hs Hd Hri Hr Hdn Hdr]. cbn in *. unfold Now in *. split; cbn; unfold Now; try done.
  - lia.
  - intros id c H. destruct (Hc _ _ H). split; [lia|done].
  - intros e H. destruct (He _ H). split; [lia|done].
Qed.

Lemma test_inv_call id client inp t d cs h es rs :
  cs !! id = None → is_Some (command_of inp) → test_inv (MkTestWorld t d cs h es rs) →
  test_inv (MkTestWorld t d (<[id := MkCall client (Now t h) inp OpRunning]> cs) h es rs).
Proof.
  intros Hid Hinp [Ho Htm Hc Hei He Hs Hd Hri Hr Hdn Hdr]. cbn in *. split; cbn; try done.
  - intros id' c [[<- <-]|[_ H]]%lookup_insert_Some; [split; [cbn; lia|done]|by eapply Hc].
  - intros e H. destruct (He _ H) as (? & c & Hce & ?). split; [done|]. exists c.
    rewrite lookup_insert_ne; [done|]. congruence.
  - intros id' o H. destruct (Hr _ _ H) as (c & Hce & ?). exists c. rewrite lookup_insert_ne; [done|]. congruence.
  - intros id' c [[<- <-]|[_ H]]%lookup_insert_Some; [done|by apply Hdn].
  - intros id' c [[<- <-]|[_ H]]%lookup_insert_Some; [done|by eapply Hdr].
Qed.

Lemma sorted_snoc {A} (R : A → A → Prop) l x :
  StronglySorted R l → Forall (λ y, R y x) l → StronglySorted R (l ++ [x]).
Proof.
  induction 1 as [|y l Hl IH Hy]; intros Hx; cbn; [by repeat constructor|].
  inversion Hx; subst. constructor; [by apply IH|]. apply Forall_app. by repeat constructor.
Qed.

Lemma test_inv_effect id c cmd r s' t d cs h es rs :
  cs !! id = Some c → id ∉ ef_id <$> es → command_of (ca_input c) = Some cmd →
  applyLocked cmd (MkStore d ∅) = (r, s') → test_inv (MkTestWorld t d cs h es rs) →
  test_inv (MkTestWorld t (data s') cs h (es ++ [MkEffect id (ca_input c) (r_Value r) (Now t h)]) rs).
Proof.
  intros Hid Hfresh Hcmd Happ [Ho Htm Hc Hei He Hs Hd Hri Hr Hdn Hdr]. cbn in *. split; cbn; try done.
  - rewrite fmap_app. apply NoDup_app. split; [done|]. split; [|by apply NoDup_singleton].
    intros x Hx Hx'%list_elem_of_singleton. by subst x.
  - intros e [H|H%list_elem_of_singleton]%elem_of_app; [by apply He|]. subst e. cbn. split; [done|].
    exists c. destruct (Hc _ _ Hid). done.
  - apply sorted_snoc; [done|]. apply Forall_forall. intros e H. cbn. by destruct (He _ H).
  - intros k. rewrite pairs_snoc, key_snoc. destruct (Hd k) as [Ha Hend]. destruct (effect_model _ _ _ _ _ k Hcmd Happ) as [Hk Hne].
    destruct (decide (in_Key (ca_input c) = k)) as [Hkey|Hkey].
    + rewrite model_accepts_app, model_end_app, Ha, Hend. unfold model_end. cbn. by rewrite (Hk Hkey).
    + rewrite app_nil_r, Hne by done. by split.
  - intros id' o H. destruct (Hr _ _ H) as (c' & Hc' & Hst & Hi & Hcl & Hcase). exists c'. split_and!; try done.
    destruct Hcase as [?|(e & Hin & ?)]; [by left|right]. exists e. split; [apply elem_of_app; by left|done].
Qed.

(** A record is added for a running call. *)
Lemma test_inv_record id c o t d cs h h' es rs :
  cs !! id = Some c → ca_status c = OpRunning → h_start h' = h_start h → h_ops h' = h_ops h ++ [o] →
  o_Input o = ca_input c → o_Call o = ca_call c →
  (o_Return o = maxInt64 ∧ is_read (ca_input c) = false ∨
     ∃ e, e ∈ es ∧ ef_id e = id ∧ (ef_time e ≤ o_Return o)%Z ∧ (is_read (ca_input c) = true → o_Output o = ef_output e)) →
  test_inv (MkTestWorld t d cs h es rs) →
  test_inv (MkTestWorld t d (<[id := set_status OpRecorded c]> cs) h' es (rs ++ [(id, o)])).
Proof.
  intros Hid Hrun Hst Hops Hin Hcl Hcase [Ho Htm Hc Hei He Hs Hd Hri Hr Hdn Hdr]. cbn in *.
  assert (Hnow : Now t h' = Now t h) by (unfold Now; by rewrite Hst).
  split; cbn; rewrite ?Hnow; try done.
  - rewrite Hops, fmap_app, Ho. done.
  - intros id' c' [[<- <-]|[_ H]]%lookup_insert_Some; [exact (Hc id c Hid)|by eapply Hc].
  - intros e H. destruct (He _ H) as (? & c' & Hce & Hi & ?). split; [done|].
    destruct (decide (ef_id e = id)) as [Heq|Hne].
    + exists (set_status OpRecorded c). rewrite Heq, lookup_insert_eq. rewrite Heq, Hid in Hce. injection Hce as <-. done.
    + exists c'. by rewrite lookup_insert_ne.
  - rewrite fmap_app. apply NoDup_app. split; [done|]. split; [|by apply NoDup_singleton].
    intros x ([id' o'] & -> & Hx)%list_elem_of_fmap Hx'%list_elem_of_singleton. cbn in Hx'. subst id'.
    destruct (Hr _ _ Hx) as (c' & Hc' & Hst' & _). congruence.
  - intros id' o' [H|H%list_elem_of_singleton]%elem_of_app.
    + destruct (Hr _ _ H) as (c' & Hc' & Hst' & ?). exists c'. rewrite lookup_insert_ne; [done|]. congruence.
    + injection H as -> ->. exists (set_status OpRecorded c). by rewrite lookup_insert_eq.
  - intros id' c' [[<- <-]|[_ H]]%lookup_insert_Some Hst'; rewrite fmap_app; apply elem_of_app; [right; by left|left].
    by eapply Hdn.
  - intros id' c' [[<- <-]|[_ H]]%lookup_insert_Some Hst'; [done|by eapply Hdr].
Qed.

Lemma test_inv_drop id c t d cs h es rs :
  cs !! id = Some c → ca_status c = OpRunning → is_read (ca_input c) = true →
  test_inv (MkTestWorld t d cs h es rs) →
  test_inv (MkTestWorld t d (<[id := set_status OpDropped c]> cs) h es rs).
Proof.
  intros Hid Hrun Hread [Ho Htm Hc Hei He Hs Hd Hri Hr Hdn Hdr]. cbn in *. split; cbn; try done.
  - intros id' c' [[<- <-]|[_ H]]%lookup_insert_Some; [exact (Hc id c Hid)|by eapply Hc].
  - intros e H. destruct (He _ H) as (? & c' & Hce & Hi & ?). split; [done|].
    destruct (decide (ef_id e = id)) as [Heq|Hne].
    + exists (set_status OpDropped c). rewrite Heq, lookup_insert_eq. rewrite Heq, Hid in Hce. injection Hce as <-. done.
    + exists c'. by rewrite lookup_insert_ne.
  - intros id' o H. destruct (Hr _ _ H) as (c' & Hc' & Hst' & ?). exists c'. rewrite lookup_insert_ne; [done|]. congruence.
  - intros id' c' [[<- <-]|[_ H]]%lookup_insert_Some Hst'; [done|by eapply Hdn].
  - intros id' c' [[<- <-]|[_ H]]%lookup_insert_Some Hst'; [done|by eapply Hdr].
Qed.

(** A read that took effect unnoticed between two other effects. *)
Lemma test_inv_read id c out t0 t d cs h es1 es2 rs :
  cs !! id = Some c → id ∉ ef_id <$> es1 ++ es2 → is_read (ca_input c) = true →
  (ca_call c ≤ t0)%Z → (t0 ≤ Now t h)%Z → Forall (λ e, (ef_time e ≤ t0)%Z) es1 → Forall (λ e, (t0 ≤ ef_time e)%Z) es2 →
  out = model_end KVModel_Init (KVModel_key (in_Key (ca_input c)) (pairs es1)) →
  test_inv (MkTestWorld t d cs h (es1 ++ es2) rs) →
  test_inv (MkTestWorld t d cs h (es1 ++ MkEffect id (ca_input c) out t0 :: es2) rs).
Proof.
  intros Hid Hfresh Hread Hc0 Hnow H1 H2 Hout [Ho Htm Hc Hei He Hs Hd Hri Hr Hdn Hdr]. cbn in *.
  assert (∀ e, e ∈ es1 ++ MkEffect id (ca_input c) out t0 :: es2 ↔ e = MkEffect id (ca_input c) out t0 ∨ e ∈ es1 ++ es2) as Hin.
  { intros e. rewrite !elem_of_app, elem_of_cons. tauto. }
  assert (∀ st, KVModel_Step st (ca_input c) st = (true, st)) as Hstep.
  { intros st. unfold KVModel_Step, is_read in *. destruct (in_Op (ca_input c)); try done. by rewrite bool_decide_true. }
  split; cbn; try done.
  - rewrite fmap_app, fmap_cons, <- Permutation_middle, <- fmap_app. by constructor.
  - intros e [->|H]%Hin; [|by apply He]. cbn. split; [done|]. by exists c.
  - apply StronglySorted_app in Hs as (Hcross & Hs1 & Hs2). apply StronglySorted_app. split_and!; [|done|].
    + intros a b Ha [->|Hb]%elem_of_cons; [by eapply (proj1 (Forall_forall _ _) H1)|by apply Hcross].
    + by constructor.
  - intros k. destruct (Hd k) as [Ha Hend]. unfold pairs in *. rewrite fmap_app, fmap_cons, key_app. cbn [ef_input ef_output].
    rewrite key_cons. rewrite fmap_app, key_app in Ha, Hend.
    destruct (decide (in_Key (ca_input c) = k)) as [Hk|]; [|done]. rewrite Hk in Hout.
    rewrite model_accepts_app in Ha. rewrite model_end_app in Hend. rewrite model_accepts_app, model_end_app, <- Hout in *. cbn [model_accepts].
    rewrite Hstep. cbn [andb]. split; [done|]. unfold model_end in *. cbn [foldl fst snd]. by rewrite Hstep.
  - intros id' o H. destruct (Hr _ _ H) as (c' & Hc' & Hst' & Hi & Hcl & Hcase). exists c'. split_and!; try done.
    destruct Hcase as [?|(e & He' & ?)]; [by left|right]. exists e. split; [apply Hin; by right|done].
Qed.

Lemma test_step_inv w w' : test_step w w' → test_inv w → test_inv w'.
Proof.
  intros Hstep Hi. destruct Hstep as [t' t d cs h es rs Ht Hm|id client inp t d cs h es rs Hid Hinp
    |id c cmd r s' t d cs h es rs Hid Hf Hcmd Happ|id c e out h' o t d cs h es rs Hid Hrun He Heid Hout [= <-] Hlast
    |id c h' o t d cs h es rs Hid Hrun Hw [= <-] Hlast|id c t d cs h es rs Hid Hrun Hr].
  - by eapply test_inv_time.
  - by eapply test_inv_call.
  - by eapply test_inv_effect.
  - cbn in Hlast. rewrite last_snoc in Hlast. injection Hlast as <-.
    set (o := MkOperation _ _ _ _ _).
    apply (test_inv_record id c o t d cs h (MkHistory (h_start h) (h_ops h ++ [o])) es rs Hid Hrun); try done.
    cbn. right. exists e. split; [done|]. split; [done|]. split; [by apply (ti_effect _ Hi)|]. intros Hr. by rewrite Hout, Hr.
  - cbn in Hlast. rewrite last_snoc in Hlast. injection Hlast as <-.
    set (o := MkOperation _ _ _ _ _).
    apply (test_inv_record id c o t d cs h (MkHistory (h_start h) (h_ops h ++ [o])) es rs Hid Hrun); try done. by left.
  - by eapply test_inv_drop.
Qed.

(** ** The order in which calls took effect *)

(** The records of the calls that took effect, in that order. *)
Definition effected (m : gmap N Operation) (es : list Effect) : list (N * Operation) :=
  omap (λ e, (λ o, (ef_id e, o)) <$> m !! ef_id e) es.

(** The records of those that did not. *)
Definition uneffected (es : list Effect) (rs : list (N * Operation)) : list (N * Operation) :=
  filter (λ p, p.1 ∉ ef_id <$> es) rs.

Lemma elem_of_effected m es id o : (id, o) ∈ effected m es ↔ id ∈ ef_id <$> es ∧ m !! id = Some o.
Proof.
  unfold effected. rewrite list_elem_of_omap, list_elem_of_fmap. split.
  - intros (e & He & (o' & Ho & [= -> ->])%fmap_Some). split; [by exists e|done].
  - intros [(e & -> & He) Ho]. exists e. split; [done|]. by rewrite Ho.
Qed.

Lemma effected_NoDup m es : NoDup (ef_id <$> es) → NoDup (effected m es).
Proof.
  induction es as [|e es IH]; intros Hnd; [by constructor|]. rewrite fmap_cons in Hnd. apply NoDup_cons in Hnd as [He Hnd].
  unfold effected. cbn. destruct (m !! ef_id e); cbn; [|by apply IH]. constructor; [|by apply IH].
  intros H%elem_of_effected. tauto.
Qed.

Lemma order_Permutation es rs :
  NoDup (ef_id <$> es) → NoDup rs.*1 → (effected (list_to_map rs) es ++ uneffected es rs) ≡ₚ rs.
Proof.
  intros Hes Hrs. unfold uneffected. apply NoDup_Permutation; [|by apply NoDup_fmap_1 in Hrs|].
  - apply NoDup_app. split; [by apply effected_NoDup|]. split.
    + intros [id o] [Hid _]%elem_of_effected [? _]%list_elem_of_filter. done.
    + apply NoDup_filter. by apply NoDup_fmap_1 in Hrs.
  - intros [id o]. rewrite elem_of_app, elem_of_effected, list_elem_of_filter, <- elem_of_list_to_map by done. cbn.
    destruct (decide (id ∈ ef_id <$> es)); tauto.
Qed.

Lemma sorted_omap {A B} (R : A → A → Prop) (Q : B → B → Prop) (f : A → option B) l :
  StronglySorted R l →
  (∀ a a' b b', a ∈ l → a' ∈ l → R a a' → f a = Some b → f a' = Some b' → Q b b') →
  StronglySorted Q (omap f l).
Proof.
  induction 1 as [|a l Hl IH Ha]; intros HQ; [by constructor|]. cbn.
  assert (StronglySorted Q (omap f l)) as Hs.
  { apply IH. intros a1 a2 b1 b2 H1 H2. apply HQ; by right. }
  destruct (f a) as [b|] eqn:Hf; [|done]. constructor; [done|]. apply Forall_forall. intros b' (a' & Ha' & Hf')%list_elem_of_omap.
  rewrite Forall_forall in Ha. eapply (HQ a a'); [by left|by right|by apply Ha|done|done].
Qed.

Lemma sorted_map {A B} (R : B → B → Prop) (f : A → B) l :
  StronglySorted (λ a b, R (f a) (f b)) l → StronglySorted R (f <$> l).
Proof. induction 1 as [|a l _ IH Ha]; cbn; constructor; [done|]. by apply Forall_fmap. Qed.

(** Writes are accepted after anything. *)
Lemma writes_accepted k st (l : list (KVInput * string)) :
  Forall (λ x, is_read x.1 = false ∧ is_Some (command_of x.1)) l → model_accepts st (KVModel_key k l) = true.
Proof.
  intros Hl. revert st. induction Hl as [|[i o] l [Hw Hc] _ IH]; intros st; [done|].
  rewrite key_cons. destruct (decide (in_Key i = k)); [|apply IH].
  unfold is_read, command_of in *. cbn in *. unfold KVModel_Step. destruct (in_Op i); [done|apply IH|apply IH|by destruct Hc].
Qed.

(** Leaving out reads, and what writes answered, keeps a history acceptable. *)
Lemma effected_accepted k st m es :
  (∀ e o, e ∈ es → m !! ef_id e = Some o → o_Input o = ef_input e ∧
     (is_read (ef_input e) = true → o_Output o = ef_output e)) →
  (∀ e, e ∈ es → m !! ef_id e = None → is_read (ef_input e) = true) →
  model_accepts st (KVModel_key k (pairs es)) = true →
  model_accepts st (KVModel_key k ((λ p, (o_Input p.2, o_Output p.2)) <$> effected m es)) = true.
Proof.
  revert st. induction es as [|e es IH]; intros st Hsome Hnone; [done|]. cbn [pairs].
  assert (∀ st', model_accepts st' (KVModel_key k (pairs es)) = true →
    model_accepts st' (KVModel_key k ((λ p, (o_Input p.2, o_Output p.2)) <$> effected m es)) = true) as IH'.
  { intros st'. apply IH; intros; [eapply Hsome|eapply Hnone]; try done; by right. }
  clear IH. specialize (Hsome e). specialize (Hnone e ltac:(by left)).
  change (pairs (e :: es)) with ((ef_input e, ef_output e) :: pairs es). rewrite key_cons.
  unfold effected. cbn [omap list_omap]. fold (effected m es).
  destruct (m !! ef_id e) as [o|] eqn:Ho; cbn.
  - destruct (Hsome o ltac:(by left) eq_refl) as [Hin Hout]. cbn. rewrite Hin.
    rewrite key_cons. destruct (decide (in_Key (ef_input e) = k)); [|apply IH'].
    cbn [model_accepts]. unfold KVModel_Step, is_read in *. destruct (in_Op (ef_input e)); try done.
    + rewrite Hout by done. intros [-> H]%andb_true_iff. cbn. by apply IH'.
    + apply IH'.
    + apply IH'.
  - destruct (decide (in_Key (ef_input e) = k)); [|apply IH']. cbn [model_accepts]. specialize (Hnone eq_refl).
    unfold KVModel_Step, is_read in *. destruct (in_Op (ef_input e)); try done. intros [_ H]%andb_true_iff. by apply IH'.
Qed.

(** The order respects what clients saw of each other. *)
Lemma history_order m es rs :
  StronglySorted (λ a b, (ef_time a ≤ ef_time b)%Z) es →
  (∀ e o, e ∈ es → m !! ef_id e = Some o → (o_Call o ≤ ef_time e ≤ o_Return o)%Z) →
  (∀ p, p ∈ uneffected es rs → o_Return p.2 = maxInt64) →
  (∀ p, p ∈ effected m es ++ uneffected es rs → (o_Call p.2 ≤ maxInt64)%Z) →
  StronglySorted may_precede (effected m es ++ uneffected es rs).*2.
Proof.
  intros Hs Hsome Hun Hcall. apply sorted_map.
  apply StronglySorted_app. split_and!.
  - intros a b Ha Hb. unfold may_precede. rewrite (Hun b Hb). specialize (Hcall a ltac:(apply elem_of_app; by left)). lia.
  - unfold effected. eapply sorted_omap; [exact Hs|].
    intros e e' [id o] [id' o'] Hin Hin' Ht (x & Hx & [= -> ->])%fmap_Some (x' & Hx' & [= -> ->])%fmap_Some.
    pose proof (Hsome e x Hin Hx). pose proof (Hsome e' x' Hin' Hx'). unfold may_precede. cbn. lia.
  - assert (∀ p, p ∈ uneffected es rs → o_Return p.2 = maxInt64 ∧ (o_Call p.2 ≤ maxInt64)%Z) as H.
    { intros p Hp. split; [by apply Hun|]. apply Hcall, elem_of_app. by right. }
    revert H. generalize (uneffected es rs) as l. induction l as [|p l IH]; intros H; constructor.
    + apply IH. intros q Hq. apply H. by right.
    + apply Forall_forall. intros q Hq. unfold may_precede. rewrite (proj1 (H q ltac:(by right))).
      pose proof (proj2 (H p ltac:(by left))). lia.
Qed.

(** A world that satisfies the invariant has a linearizable history. *)
Lemma settled_linearizable w : test_inv w → settled w → linearizable (Operations (tw_history w)).
Proof.
  intros [Ho Htm Hc Hei He Hs Hd Hri Hr Hdn Hdr] Hset.
  set (m := list_to_map (tw_recorded w) : gmap N Operation).
  assert (∀ id o, m !! id = Some o ↔ (id, o) ∈ tw_recorded w) as Hm by (intros; symmetry; by apply elem_of_list_to_map).
  assert (∀ e o, e ∈ tw_effects w → m !! ef_id e = Some o → o_Input o = ef_input e ∧ (o_Call o ≤ ef_time e ≤ o_Return o)%Z ∧
    (is_read (ef_input e) = true → o_Output o = ef_output e)) as Hsome.
  { intros e o Hin (c & Hcs & _ & Hi & Hcl & Hcase)%Hm%Hr. destruct (He _ Hin) as (Ht & c' & Hcs' & Hi' & Hcl').
    rewrite Hcs in Hcs'. injection Hcs' as <-. rewrite Hi, Hi', Hcl. split; [done|].
    destruct Hcase as [[-> Hw]|(e' & Hin' & Hid & Ht' & Hout)]; [split; [lia|congruence]|].
    assert (e' = e) as ->; [|done]. apply list_elem_of_lookup in Hin as [i Hi1]. apply list_elem_of_lookup in Hin' as [j Hj1].
    assert (i = j) as <-; [|congruence]. eapply NoDup_lookup; [exact Hei|..]; rewrite list_lookup_fmap; [by rewrite Hi1|].
    rewrite Hj1. cbn. by rewrite Hid. }
  assert (∀ p, p ∈ uneffected (tw_effects w) (tw_recorded w) → o_Return p.2 = maxInt64 ∧
    is_read (o_Input p.2) = false ∧ is_Some (command_of (o_Input p.2))) as Hun.
  { intros [id o] [Hid (c & Hcs & _ & Hi & _ & Hcase)%Hr]%list_elem_of_filter. cbn in *. rewrite Hi.
    destruct (Hc _ _ Hcs) as [_ ?]. destruct Hcase as [[? ?]|(e & Hin & <- & _)]; [done|].
    exfalso. apply Hid. by apply list_elem_of_fmap_2. }
  assert (∀ o, o ∈ (tw_recorded w).*2 → (o_Call o ≤ maxInt64)%Z) as Hcall.
  { intros o ([id o'] & -> & Hin)%list_elem_of_fmap. cbn. destruct (Hr _ _ Hin) as (c & Hcs & _ & _ & -> & _).
    destruct (Hc _ _ Hcs). lia. }
  pose proof (order_Permutation _ _ Hei Hri) as Hperm. fold m in Hperm.
  exists (effected m (tw_effects w) ++ uneffected (tw_effects w) (tw_recorded w)).*2. split; [|split].
  - unfold Operations. by rewrite Ho, Hperm.
  - apply history_order; [done| | |].
    + intros e o Hin Hlk. by destruct (Hsome e o Hin Hlk) as (_ & ? & _).
    + intros p Hp. by destruct (Hun p Hp).
    + intros p Hp. apply Hcall, list_elem_of_fmap. exists p. by rewrite <- Hperm.
  - intros k. rewrite <- list_fmap_compose. rewrite fmap_app, key_app.
    rewrite model_accepts_app. apply andb_true_iff. split.
    + apply effected_accepted; [| |by apply Hd].
      * intros e o Hin Hlk. by destruct (Hsome e o Hin Hlk) as (? & _ & ?).
      * intros e Hin Hlk. destruct (He _ Hin) as (_ & c & Hcs & Hi & _). rewrite Hi.
        destruct (ca_status c) eqn:Hst; [by eapply Hset| |by eapply Hdr].
        apply (Hdn _ _ Hcs) in Hst as ([id o] & Hid & Hrec)%list_elem_of_fmap. cbn in Hid. subst id.
        apply Hm in Hrec. congruence.
    + apply writes_accepted. apply Forall_fmap, Forall_forall. intros p Hp. by destruct (Hun p Hp) as (_ & ? & ?).
Qed.

(** The recorder raises no false alarm.  Whatever clients do and however
    their calls overlap, if each call of the store takes effect at one moment
    after it was made, and before it returned if it did, then once no write is
    under way the recorded history is linearizable for [KVModel]: also with
    writes recorded as pending, whether or not they took effect, and reads that
    were dropped. *)
Theorem history_linearizable t w :
  rtc test_step (fresh_test t) w → settled w → linearizable (Operations (tw_history w)).
Proof.
  intros Hrun Hset. apply settled_linearizable; [|done]. pose proof (fresh_test_inv t) as Hi. revert Hi.
  induction Hrun as [|w1 w2 w3 Hst _ IH]; [done|]. intros Hi. by eapply IH, test_step_inv.
Qed.
End Test.

(** Two clients: a put that completes, a read after it that sees it, and an
    append recorded as pending that takes effect afterwards. *)
Definition put_x : KVInput := MkInput KVPut "x" "1".
Definition get_x : KVInput := MkInput KVGet "x" "".
Definition append_x : KVInput := MkInput KVAppend "x" "2".

Definition example_history : list Operation :=
  [MkOperation 1 put_x 0 "" 5; MkOperation 2 append_x 5 "" maxInt64; MkOperation 1 get_x 5 "12" 5].

Lemma history_linearizable_witness :
  ∃ w, rtc (test_step (codec := bit_codec)) (fresh_test 10) w ∧ Operations (tw_history w) = example_history ∧
    linearizable example_history.
Proof.
  assert (∃ w, rtc (test_step (codec := bit_codec)) (fresh_test 10) w ∧ Operations (tw_history w) = example_history ∧ settled w)
    as (w & Hrun & Hops & Hset).
  { eexists. split; [|split].
    - eapply rtc_l; [apply (te_call 1 1 put_x); [done|by eexists]|].
      eapply rtc_l; [eapply (te_effect 1); [by vm_compute|by apply not_elem_of_nil|reflexivity|reflexivity]|].
      eapply rtc_l; [apply (te_time 15); [done|by vm_compute]|].
      eapply rtc_l; [eapply (te_complete 1); [by vm_compute|done|by left|done|reflexivity|reflexivity|reflexivity]|].
      eapply rtc_l; [apply (te_call 2 2 append_x); [by vm_compute|by eexists]|].
      eapply rtc_l; [eapply (te_pending 2); [by vm_compute|done|done|reflexivity|reflexivity]|].
      eapply rtc_l; [eapply (te_effect 2); [by vm_compute|apply (bool_decide_unpack (_ ∉ _)); by vm_compute|reflexivity|reflexivity]|].
      eapply rtc_l; [apply (te_call 3 1 get_x); [by vm_compute|by eexists]|].
      eapply rtc_l; [eapply (te_effect 3); [by vm_compute|apply (bool_decide_unpack (_ ∉ _)); by vm_compute|reflexivity|reflexivity]|].
      eapply rtc_l; [eapply (te_complete 3); [by vm_compute|done|right; right; by left|done|reflexivity|reflexivity|reflexivity]|].
      apply rtc_refl.
    - by vm_compute.
    - intros id c Hc Hr. cbn in Hc.
      repeat (apply lookup_insert_Some in Hc as [[<- <-]|[? Hc]]; [done|]). by rewrite lookup_empty in Hc. }
  exists w. split; [exact Hrun|]. split; [done|]. rewrite <- Hops.
  by apply (history_linearizable (codec := bit_codec) 10 w Hrun Hset).
Defined.

(** The notion is not empty: a read that misses a write completed before it was
    made is rejected. *)
Lemma stale_read_rejected : ¬ linearizable [MkOperation 1 put_x 0 "" 1; MkOperation 2 get_x 2 "" 3].
Proof.
  intros (order & Hp & Hs & Ha). symmetry in Hp. apply Permutation_length_2_inv in Hp as [-> | ->].
  - specialize (Ha "x"). by vm_compute in Ha.
  - apply StronglySorted_inv in Hs as [_ Hs]. inversion Hs as [|? ? Hprec]; subst. apply Hprec. by vm_compute.
Qed.
