(* ===== verification/Locality.v ===== *)
(** * Linearizability is local

    Clients that use several stores, each for keys of its own: when every store
    looks atomic to the calls on its keys, one store that has them all looks
    atomic to all calls.  The effects are merged by the time they had. *)
From S2P Require Import Prelude KVStore History.

(** ** Merging sorted lists *)
Section Merge.
Context {A : Type} (time : A → Z).

Lemma filter_empty (P : A → Prop) `{∀ x, Decision (P x)} (l : list A) : (∀ x, x ∈ l → ¬ P x) → filter P l = [].
Proof.
  induction l as [|x l IH]; intros HP; [done|]. rewrite filter_cons, decide_False by (apply HP; left).
  apply IH. intros y Hy. apply HP. by right.
Qed.

Lemma filter_full (P : A → Prop) `{∀ x, Decision (P x)} (l : list A) : (∀ x, x ∈ l → P x) → filter P l = l.
Proof.
  induction l as [|x l IH]; intros HP; [done|]. rewrite filter_cons, decide_True by (apply HP; left).
  f_equal. apply IH. intros y Hy. apply HP. by right.
Qed.

Definition in_time (a b : A) : Prop := (time a ≤ time b)%Z.

Lemma merge_two l1 l2 :
  StronglySorted in_time l1 → StronglySorted in_time l2 →
  ∃ l, StronglySorted in_time l ∧ l ≡ₚ l1 ++ l2 ∧
    (∀ (P : A → Prop) (dec : ∀ x, Decision (P x)), (∀ x, x ∈ l2 → ¬ P x) → filter P l = filter P l1) ∧
    (∀ (P : A → Prop) (dec : ∀ x, Decision (P x)), (∀ x, x ∈ l1 → ¬ P x) → filter P l = filter P l2).
Proof.
  revert l2. induction l1 as [|x l1 IH1]; intros l2 H1 H2.
  { exists l2. split; [done|]. split; [done|]. split; [|done]. intros P ? HP. by apply filter_empty. }
  induction l2 as [|y l2 IH2].
  { exists (x :: l1). rewrite app_nil_r. split; [done|]. split; [done|]. split; [done|]. intros P ? HP. by apply filter_empty. }
  inversion H1 as [|? ? H1' Hx]; inversion H2 as [|? ? H2' Hy]; subst.
  rewrite Forall_forall in Hx, Hy. destruct (Z.le_ge_cases (time x) (time y)) as [Hle|Hle].
  - destruct (IH1 (y :: l2) H1' H2) as (l & Hs & Hp & Hf1 & Hf2). exists (x :: l). split; [|split; [|split]].
    + constructor; [done|]. apply Forall_forall. intros z. rewrite Hp. intros [?|[->|?]%elem_of_cons]%elem_of_app; [by apply Hx|done|].
      unfold in_time in *. specialize (Hy z ltac:(done)). lia.
    + by rewrite Hp.
    + intros P ? HP. rewrite !filter_cons, (Hf1 P) by done. done.
    + intros P ? HP. rewrite filter_cons, decide_False by (apply HP; left). apply Hf2. intros z Hz. apply HP. by right.
  - destruct (IH2 H2') as (l & Hs & Hp & Hf1 & Hf2). exists (y :: l). split; [|split; [|split]].
    + constructor; [done|]. apply Forall_forall. intros z. rewrite Hp. intros [[->|?]%elem_of_cons|?]%elem_of_app; [done| |by apply Hy].
      unfold in_time in *. specialize (Hx z ltac:(done)). lia.
    + rewrite Hp. by rewrite (Permutation_middle (x :: l1) l2 y).
    + intros P ? HP. rewrite filter_cons, decide_False by (apply HP; left). apply Hf1. intros z Hz. apply HP. by right.
    + intros P ? HP. rewrite !filter_cons, (Hf2 P) by done. done.
Qed.

Context (part : A → option Z).

(** One list for each part, merged into one they are the parts of. *)
Lemma merge_all (ids : list Z) (Q : Z → list A → Prop) :
  NoDup ids →
  (∀ i, i ∈ ids → ∃ l, Q i l ∧ StronglySorted in_time l ∧ ∀ x, x ∈ l → part x = Some i) →
  ∃ l, StronglySorted in_time l ∧ (∀ x, x ∈ l → ∃ i, i ∈ ids ∧ part x = Some i) ∧
    ∀ i, i ∈ ids → Q i (filter (λ x, part x = Some i) l).
Proof.
  induction 1 as [|j ids Hj _ IH]; intros Hall.
  { exists []. split; [constructor|]. split; [by intros x ?%not_elem_of_nil|by intros i ?%not_elem_of_nil]. }
  destruct IH as (l1 & Hs1 & Hp1 & HQ1); [intros i Hi; apply Hall; by right|].
  destruct (Hall j ltac:(left)) as (l2 & HQ2 & Hs2 & Hp2).
  destruct (merge_two l1 l2 Hs1 Hs2) as (l & Hs & Hp & Hf1 & Hf2). exists l. split; [done|]. split.
  - intros x. rewrite Hp. intros [(i & Hi & Hx)%Hp1|Hx%Hp2]%elem_of_app; [exists i|exists j]; (split; [|done]); [by right|left].
  - intros i [->|Hi]%elem_of_cons.
    + rewrite Hf2 by (intros x (i & Hi & Hx)%Hp1; congruence).
      by rewrite filter_full.
    + rewrite Hf1; [by apply HQ1|]. intros x Hx%Hp2. congruence.
Qed.

(** No repetition in the parts, none across them. *)
Lemma NoDup_parts {B} (f : A → B) (l : list A) :
  (∀ x, x ∈ l → is_Some (part x)) → (∀ x y, x ∈ l → y ∈ l → f x = f y → part x = part y) →
  (∀ i, NoDup (f <$> filter (λ x, part x = Some i) l)) → NoDup (f <$> l).
Proof.
  induction l as [|x l IH]; intros Hsome Hsame Hnd; [constructor|]. cbn. constructor.
  - intros (y & Hxy & Hy)%list_elem_of_fmap. destruct (Hsome x ltac:(left)) as [i Hi]. specialize (Hnd i).
    rewrite filter_cons, decide_True in Hnd by done. cbn in Hnd. apply NoDup_cons in Hnd as [Hn _]. apply Hn.
    rewrite Hxy. apply list_elem_of_fmap_2, list_elem_of_filter. split; [|done].
    rewrite <- (Hsame x y); [done|left|by right|done].
  - apply IH; [intros; apply Hsome; by right|intros; apply Hsame; [by right|by right|done]|].
    intros i. specialize (Hnd i). rewrite filter_cons in Hnd. case_decide; [|done]. cbn in Hnd. by apply NoDup_cons in Hnd as [_ ?].
Qed.
End Merge.

(** ** The parts of a world *)
Section Shards.
Variable home : string → option Z.
Implicit Types (cs : gmap N ClientCall) (h : History) (es : list Effect) (rs : list (N * Operation)).

Definition call_home (c : ClientCall) : option Z := home (in_Key (ca_input c)).
Definition record_home (x : N * Operation) : option Z := home (in_Key (o_Input x.2)).
Definition effect_home (e : Effect) : option Z := home (in_Key (ef_input e)).

Definition calls_of (i : Z) cs : gmap N ClientCall := filter (λ x, call_home x.2 = Some i) cs.
Definition records_of (i : Z) rs := filter (λ x, record_home x = Some i) rs.
Definition effects_of (i : Z) es := filter (λ e, effect_home e = Some i) es.
Definition history_of (i : Z) h rs : History := MkHistory (h_start h) (records_of i rs).*2.

Definition shard_part (i : Z) (t : Z) (d : gmap string string) cs h es rs : TestWorld :=
  MkTestWorld t d (calls_of i cs) (history_of i h rs) es (records_of i rs).

Lemma calls_of_lookup i cs id c : calls_of i cs !! id = Some c ↔ cs !! id = Some c ∧ call_home c = Some i.
Proof. unfold calls_of. apply map_lookup_filter_Some. Qed.

Lemma pairs_cons e es : pairs (e :: es) = (ef_input e, ef_output e) :: pairs es.
Proof. done. Qed.

Lemma key_home k i es :
  home k = Some i → KVModel_key k (pairs (effects_of i es)) = KVModel_key k (pairs es).
Proof.
  intros Hk. unfold effects_of. induction es as [|e es IH]; [done|]. rewrite filter_cons, pairs_cons, key_cons.
  destruct (decide (in_Key (ef_input e) = k)) as [E|E].
  - rewrite decide_True by (unfold effect_home; by rewrite E). by rewrite pairs_cons, key_cons, decide_True, IH.
  - case_decide; [|done]. by rewrite pairs_cons, key_cons, decide_False.
Qed.

Lemma key_nowhere k es :
  (∀ e, e ∈ es → in_Key (ef_input e) ≠ k) → KVModel_key k (pairs es) = [].
Proof.
  induction es as [|e es IH]; intros He; [done|]. rewrite pairs_cons, key_cons, decide_False by (apply He; left).
  apply IH. intros e' He'. apply He. by right.
Qed.

(** The values the effects lead to. *)
Lemma values_after es : ∃ d, ∀ k, str_get d k = model_end KVModel_Init (KVModel_key k (pairs es)).
Proof.
  exists (list_to_map ((λ e, let k := in_Key (ef_input e) in
    (k, model_end KVModel_Init (KVModel_key k (pairs es)))) <$> es)). intros k. unfold str_get.
  match goal with |- default _ (list_to_map ?l !! k) = ?v => set (kvs := l); set (w := v) end.
  assert (∀ y, (k, y) ∈ kvs → y = w) as Hy.
  { intros y (e & [= -> ->] & _)%list_elem_of_fmap. done. }
  destruct ((list_to_map kvs : gmap string string) !! k) as [y|] eqn:E.
  - apply elem_of_list_to_map_2 in E. cbn. by apply Hy.
  - apply not_elem_of_list_to_map in E. cbn. unfold w. rewrite key_nowhere; [done|].
    intros e He Hk. apply E. rewrite <- Hk. apply list_elem_of_fmap. eexists. split; [|by apply list_elem_of_fmap_2]. done.
Qed.

(** *** The whole from the parts *)
Section Whole.
Variables (ids : list Z) (t : Z) (cs : gmap N ClientCall) (h : History) (rs : list (N * Operation)).
Hypothesis Hids : NoDup ids.
Hypothesis Hops : h_ops h = rs.*2.
Hypothesis Htime : (0 ≤ Now t h ≤ maxInt64)%Z.
Hypothesis Hcalls : ∀ id c, cs !! id = Some c → ∃ i, i ∈ ids ∧ call_home c = Some i.
Hypothesis Hrecords : ∀ x, x ∈ rs → ∃ i, i ∈ ids ∧ record_home x = Some i.
Hypothesis Hparts : ∀ i, i ∈ ids → ∃ d es, test_inv (shard_part i t d cs h es rs).

(** The effects of all parts in one order. *)
Lemma whole_effects : ∃ es,
  StronglySorted (in_time ef_time) es ∧ (∀ e, e ∈ es → ∃ i, i ∈ ids ∧ effect_home e = Some i) ∧
  ∀ i, i ∈ ids → ∃ d, test_inv (shard_part i t d cs h (effects_of i es) rs).
Proof.
  apply (merge_all ef_time effect_home ids (λ i es, ∃ d, test_inv (shard_part i t d cs h es rs)) Hids).
  intros i Hi. destruct (Hparts i Hi) as (d & es & Hinv). exists es. split; [by exists d|].
  split; [exact (ti_sorted _ Hinv)|]. intros e He.
  destruct (ti_effect _ Hinv _ He) as (_ & c & Hc & Hin & _). cbn in Hc. apply calls_of_lookup in Hc as [_ Hc].
  unfold effect_home. by rewrite Hin.
Qed.

(** What a part knows of its effects, calls and records. *)
Section Known.
Variable es : list Effect.
Hypothesis Hes : ∀ e, e ∈ es → ∃ i, i ∈ ids ∧ effect_home e = Some i.
Hypothesis Hinv : ∀ i, i ∈ ids → ∃ d, test_inv (shard_part i t d cs h (effects_of i es) rs).

Lemma call_known id c :
  cs !! id = Some c → ∃ i d, i ∈ ids ∧ test_inv (shard_part i t d cs h (effects_of i es) rs) ∧
    calls_of i cs !! id = Some c.
Proof.
  intros Hc. destruct (Hcalls _ _ Hc) as (i & Hi & Hh). destruct (Hinv i Hi) as [d H1]. exists i, d.
  split; [done|]. split; [done|]. by apply calls_of_lookup.
Qed.

Lemma effect_known e :
  e ∈ es → (ef_time e ≤ Now t h)%Z ∧
    ∃ c, cs !! ef_id e = Some c ∧ ef_input e = ca_input c ∧ (ca_call c ≤ ef_time e)%Z.
Proof.
  intros He. destruct (Hes _ He) as (i & Hi & Hh). destruct (Hinv i Hi) as [d H1].
  destruct (ti_effect _ H1 e) as (Ht & c & Hc & ?); [by apply list_elem_of_filter|].
  apply calls_of_lookup in Hc as [Hc _]. split; [exact Ht|]. by exists c.
Qed.

Lemma record_known id o :
  (id, o) ∈ rs → ∃ i d c, i ∈ ids ∧ test_inv (shard_part i t d cs h (effects_of i es) rs) ∧
    (id, o) ∈ records_of i rs ∧ cs !! id = Some c ∧ o_Input o = ca_input c.
Proof.
  intros Ho. destruct (Hrecords _ Ho) as (i & Hi & Hh). destruct (Hinv i Hi) as [d H1].
  assert ((id, o) ∈ records_of i rs) as Hin by (by apply list_elem_of_filter).
  destruct (ti_rec _ H1 _ _ Hin) as (c & Hc & _ & ? & _). apply calls_of_lookup in Hc as [Hc _]. by exists i, d, c.
Qed.

Lemma effects_NoDup : NoDup (ef_id <$> es).
Proof.
  apply (NoDup_parts effect_home).
  - intros e (i & _ & Hi)%Hes. by exists i.
  - intros e e' (_ & c & Hc & Hi & _)%effect_known (_ & c' & Hc' & Hi' & _)%effect_known E. unfold effect_home. congruence.
  - intros i. destruct (decide (i ∈ ids)) as [Hi|Hi]; [destruct (Hinv i Hi) as [d H1]; apply (ti_effect_ids _ H1)|].
    rewrite filter_empty; [constructor|]. intros e (j & Hj & Hh)%Hes. congruence.
Qed.

Lemma records_NoDup : NoDup rs.*1.
Proof.
  apply (NoDup_parts record_home).
  - intros x (i & _ & Hi)%Hrecords. by exists i.
  - intros [id o] [id' o'] (_ & _ & c & _ & _ & _ & Hc & Hi)%record_known (_ & _ & c' & _ & _ & _ & Hc' & Hi')%record_known E.
    unfold record_home. cbn in *. congruence.
  - intros i. destruct (decide (i ∈ ids)) as [Hi|Hi]; [destruct (Hinv i Hi) as [d H1]; apply (ti_rec_ids _ H1)|].
    rewrite filter_empty; [constructor|]. intros x (j & Hj & Hh)%Hrecords. congruence.
Qed.

Lemma effects_accepted k : model_accepts KVModel_Init (KVModel_key k (pairs es)) = true.
Proof.
  destruct (decide (Exists (λ e, in_Key (ef_input e) = k) es)) as [(e & He & Hk)%Exists_exists|Hno].
  - destruct (Hes _ He) as (i & Hi & Hh). destruct (Hinv i Hi) as [d H1]. rewrite <- (key_home k i).
    + apply (ti_data _ H1 k).
    + by rewrite <- Hk.
  - rewrite key_nowhere; [done|]. intros e He Hk. apply Hno, Exists_exists. by exists e.
Qed.
End Known.

(** A store that has all keys. *)
Lemma whole_inv : ∃ d es, test_inv (MkTestWorld t d cs h es rs).
Proof.
  destruct whole_effects as (es & Hs & Hes & Hinv). destruct (values_after es) as [d Hd]. exists d, es.
  split; cbn.
  - done.
  - done.
  - intros id c Hc. destruct (call_known es Hinv id c Hc) as (i & d1 & _ & H1 & Hc1). by destruct (ti_call _ H1 _ _ Hc1).
  - by apply effects_NoDup.
  - by apply effect_known.
  - done.
  - intros k. split; [by apply effects_accepted|done].
  - by eapply records_NoDup.
  - intros id o Ho. destruct (record_known es Hinv id o Ho) as (i & d1 & _ & _ & H1 & Hin & _).
    destruct (ti_rec _ H1 _ _ Hin) as (c & Hc & Hst & Hi & Hcl & Hor). apply calls_of_lookup in Hc as [Hc _].
    exists c. do 4 (split; [done|]). destruct Hor as [?|(e & [_ He]%list_elem_of_filter & ?)]; [by left|right; by exists e].
  - intros id c Hc Hst. destruct (call_known es Hinv id c Hc) as (i & d1 & _ & H1 & Hc1).
    pose proof (ti_done _ H1 _ _ Hc1 Hst) as ([id' o] & -> & [_ Hin]%list_elem_of_filter)%list_elem_of_fmap.
    by apply (list_elem_of_fmap_2 fst) in Hin.
  - intros id c Hc Hst. destruct (call_known es Hinv id c Hc) as (i & d1 & _ & H1 & Hc1). exact (ti_dropped _ H1 _ _ Hc1 Hst).
Qed.
End Whole.
End Shards.
