(* ===== verification/KVServer.v ===== *)
(** * internal/kv/server.go: the server around a node and a store

    [Server] is the shared state; the goroutines around it are explicit:
    [Process] adds the node's apply loop with the message it is about to send,
    the buffered [ApplyCh] between the two loops, the snapshot loop and the
    calls of [execute] in flight, each at the program point it has reached.
    An [SvEvent] is one step of one goroutine, so every interleaving is a
    sequence of events.  The node may take any step of its own in between. *)
From S2P Require Import Prelude RaftTypes RaftNode KVStore.

(** [applyResult]. *)
Record applyResult : Type := MkResult { res_cmd : KVCommand; res_reply : option CommandReply }.

(** Where a call of [execute] is. *)
Inductive Call : Type :=
| Proposing (cmd : KVCommand)
| Refusing (cmd : KVCommand) (why : string)
| Registering (cmd : KVCommand) (index : N)
| Waiting (cmd : KVCommand) (index : N) (ch : nat)
| Returned (cmd : KVCommand) (r : CommandReply + error).

Definition ctx_error : error := Errorf "context done".

(** Where the snapshot loop is. *)
Inductive SnapPc : Type :=
| SnapIdle
| SnapAsked (index : N)
| SnapReady (index : N) (data : bytes).

(** The capacity of the node's [applyCh]. *)
Definition applyChCap : nat := 64.

Section Server.
Context {S : Type} `{!Storage S} {codec : KVCodec}.

(** [waiters] maps an index to a channel; channel [ch] is [chans !! ch], the
    content of its one-place buffer. *)
Record Server : Type := MkServer {
  sv_node : Node S;
  sv_store : Store;
  sv_leaderAddrs : gmap NodeID string;
  sv_waiters : gmap N nat;
  sv_chans : list (option applyResult);
  sv_stopped : bool;
}.

Definition set_node (x : Node S) (s : Server) : Server :=
  MkServer x (sv_store s) (sv_leaderAddrs s) (sv_waiters s) (sv_chans s) (sv_stopped s).
Definition set_store (x : Store) (s : Server) : Server :=
  MkServer (sv_node s) x (sv_leaderAddrs s) (sv_waiters s) (sv_chans s) (sv_stopped s).
Definition set_waiters (x : gmap N nat) (s : Server) : Server :=
  MkServer (sv_node s) (sv_store s) (sv_leaderAddrs s) x (sv_chans s) (sv_stopped s).
Definition set_chans (x : list (option applyResult)) (s : Server) : Server :=
  MkServer (sv_node s) (sv_store s) (sv_leaderAddrs s) (sv_waiters s) x (sv_stopped s).

(** [NewServer]; [addrs] is what [WithLeaderAddresses] was given, empty
    without that option. *)
Definition NewServer (node : Node S) (store : Store) (addrs : gmap NodeID string) : Server :=
  MkServer node store addrs ∅ [] false.

Definition Stop (s : Server) : Server :=
  MkServer (sv_node s) (sv_store s) (sv_leaderAddrs s) (sv_waiters s) (sv_chans s) true.

Definition leaderHint (s : Server) : string :=
  let leader := Leader_ (sv_node s) in
  if bool_decide (leader = "") then ""
  else match sv_leaderAddrs s !! leader with
       | Some addr => addr
       | None => leader
       end.

(** ** Delivering *)

(** [ch <- res]: [false] is a send that blocks, the buffer being full. *)
Definition send (ch : nat) (res : applyResult) : GoM Server bool :=
  s ← get;
  match sv_chans s !! ch with
  | Some None => modify (set_chans (<[ch := Some res]> (sv_chans s))) ;; mret true
  | _ => mret false
  end.

Definition deliver (index : N) (res : applyResult) : GoM Server bool :=
  s ← get;
  match sv_waiters s !! index with
  | Some ch =>
      modify (set_waiters (delete index (sv_waiters s))) ;;
      send ch res
  | None => mret true
  end.

(** One message of [runApplyLoop]; [false] when the delivery blocks. *)
Definition runApplyLoop_msg (msg : ApplyMsg) : GoM Server bool :=
  s ← get;
  match msg with
  | SnapshotMsg snap _ _ =>
      match Restore snap (sv_store s) with
      | (Some _, _) => panic
      | (None, st) => modify (set_store st) ;; mret true
      end
  | CommandMsg command index _ =>
      let '((cmd, reply), st) := Apply command (sv_store s) in
      modify (set_store st) ;;
      deliver index (MkResult cmd reply)
  end.

(** ** execute *)
Definition with_op (op : Op) (cmd : KVCommand) : KVCommand :=
  MkCommand (ClientId cmd) (SeqNo cmd) op (Key cmd) (Value cmd).

(** The four endpoints. *)
Definition Get (cmd : KVCommand) : Call := Proposing (with_op OP_GET cmd).
Definition Put (cmd : KVCommand) : Call := Proposing (with_op OP_PUT cmd).
Definition Append (cmd : KVCommand) : Call := Proposing (with_op OP_APPEND cmd).
Definition Delete (cmd : KVCommand) : Call := Proposing (with_op OP_DELETE cmd).

Definition execute_propose (cmd : KVCommand) : GoM Server Call :=
  match marshal_command cmd with
  | inr err => mret (Returned cmd (inr (Wrapf "kv: encoding command" (Errorf err))))
  | inl payload =>
      '(index, _, isLeader) ← on_field sv_node set_node (Propose payload);
      mret (if isLeader : bool then Registering cmd index else Refusing cmd "not leader")
  end.

Definition execute_refuse (cmd : KVCommand) (why : string) (s : Server) : Call :=
  Returned cmd (inl (MkReply false "" false why (leaderHint s) 0)).

Definition execute_register (cmd : KVCommand) (index : N) : GoM Server Call :=
  s ← get;
  let ch := length (sv_chans s) in
  modify (set_chans (sv_chans s ++ [None])) ;;
  modify (set_waiters (<[index := ch]> (sv_waiters s))) ;;
  mret (Waiting cmd index ch).

(** What a received result is answered with. *)
Definition answer (cmd : KVCommand) (index : N) (res : applyResult) : go Call :=
  if negb (bool_decide (ClientId (res_cmd res) = ClientId cmd)) ||
     negb (SeqNo (res_cmd res) =? SeqNo cmd)%N
  then Val (Refusing cmd "lost leadership before this request committed; retry")
  else match res_reply res with
       | None => Panic
       | Some r => Val (Returned cmd (inl (MkReply (Success r) (r_Value r) (Found r) (KVStore.Error r)
                                             (KVStore.LeaderHint r) index)))
       end.

(** [case res := <-ch], when the buffer holds a result. *)
Definition execute_receive (cmd : KVCommand) (index : N) (ch : nat) : GoM Server (option Call) :=
  s ← get;
  match sv_chans s !! ch with
  | Some (Some res) =>
      modify (set_chans (<[ch := None]> (sv_chans s))) ;;
      c ← lift_go (answer cmd index res);
      mret (Some c)
  | _ => mret None
  end.

(** [case <-ctx.Done()] and [case <-s.stopCh]. *)
Definition execute_leave (cmd : KVCommand) (index : N) (err : error) : GoM Server Call :=
  modify (λ s, set_waiters (delete index (sv_waiters s)) s) ;;
  mret (Returned cmd (inr err)).

(** The next step of a call that is not waiting for an event. *)
Definition execute_step (c : Call) : GoM Server (option Call) :=
  match c with
  | Proposing cmd => c' ← execute_propose cmd; mret (Some c')
  | Refusing cmd why => s ← get; mret (Some (execute_refuse cmd why s))
  | Registering cmd index => c' ← execute_register cmd index; mret (Some c')
  | Waiting cmd index ch => execute_receive cmd index ch
  | Returned _ _ => mret None
  end.

(** ** The process *)
Record Process : Type := MkProcess {
  p_server : Server;
  p_applyPc : ApplyPc;
  p_inHand : option ApplyMsg;
  p_applyCh : list ApplyMsg;
  p_snap : SnapPc;
  p_calls : list Call;
  p_applied : list (N * applyResult);
  p_at : N;
  p_restored : bool;
}.

(** [p_applied], [p_at] and [p_restored] are not in the code: the commands the
    server's apply loop has applied, with their index, the last one first, the
    index of the last message it has taken, and whether it has restored a
    snapshot. *)
Definition NewProcess (s : Server) : Process := MkProcess s Top None [] SnapIdle [] [] 0 false.

Definition set_server (x : Server) (p : Process) : Process :=
  MkProcess x (p_applyPc p) (p_inHand p) (p_applyCh p) (p_snap p) (p_calls p) (p_applied p) (p_at p) (p_restored p).
Definition set_applyPc (x : ApplyPc) (p : Process) : Process :=
  MkProcess (p_server p) x (p_inHand p) (p_applyCh p) (p_snap p) (p_calls p) (p_applied p) (p_at p) (p_restored p).
Definition set_inHand (x : option ApplyMsg) (p : Process) : Process :=
  MkProcess (p_server p) (p_applyPc p) x (p_applyCh p) (p_snap p) (p_calls p) (p_applied p) (p_at p) (p_restored p).
Definition set_applyCh (x : list ApplyMsg) (p : Process) : Process :=
  MkProcess (p_server p) (p_applyPc p) (p_inHand p) x (p_snap p) (p_calls p) (p_applied p) (p_at p) (p_restored p).
Definition set_snap (x : SnapPc) (p : Process) : Process :=
  MkProcess (p_server p) (p_applyPc p) (p_inHand p) (p_applyCh p) x (p_calls p) (p_applied p) (p_at p) (p_restored p).
Definition set_calls (x : list Call) (p : Process) : Process :=
  MkProcess (p_server p) (p_applyPc p) (p_inHand p) (p_applyCh p) (p_snap p) x (p_applied p) (p_at p) (p_restored p).
Definition set_applied (x : list (N * applyResult)) (p : Process) : Process :=
  MkProcess (p_server p) (p_applyPc p) (p_inHand p) (p_applyCh p) (p_snap p) (p_calls p) x (p_at p) (p_restored p).
Definition note_message (msg : ApplyMsg) (p : Process) : Process :=
  MkProcess (p_server p) (p_applyPc p) (p_inHand p) (p_applyCh p) (p_snap p) (p_calls p) (p_applied p) (msg_index msg)
    (match msg with SnapshotMsg _ _ _ => true | CommandMsg _ _ _ => p_restored p end).

Inductive SvEvent : Type :=
| EvCall (c : Call)                            (* a client calls an endpoint *)
| EvStep (i : nat)                             (* call i goes on *)
| EvCancel (i : nat)                           (* the context of call i ends *)
| EvStopped (i : nat)                          (* call i sees stopCh closed *)
| EvNode (m : GoM (Node S) ())          (* a step of the node *)
| EvApply                                      (* the node's apply loop goes on *)
| EvSend                                       (* it sends what it holds on applyCh *)
| EvReceive                                    (* the server's apply loop takes a message *)
| EvTrigger                                    (* the snapshot loop takes an index *)
| EvSnapStore                                  (* it snapshots the store *)
| EvSnapNode                                   (* it hands the snapshot to the node *)
| EvStop.

Definition lift_server {A} (m : GoM Server A) (p : Process) : option (A * Process) :=
  match m (p_server p) with
  | Val (a, s) => Some (a, set_server s p)
  | Panic => None
  end.

Definition on_node {A} (m : GoM (Node S) A) : GoM Server A := on_field sv_node set_node m.

Definition is_new_call (c : Call) : bool := match c with Proposing _ => true | _ => false end.

(** The message at the head of [applyCh], applied and delivered. *)
Definition receive (p : Process) : option Process :=
  match p_applyCh p with
  | [] => None
  | msg :: rest =>
      let applied :=
        match msg with
        | CommandMsg command index _ =>
            let '((cmd, reply), _) := Apply command (sv_store (p_server p)) in
            (index, MkResult cmd reply) :: p_applied p
        | SnapshotMsg _ _ _ => p_applied p
        end in
      match lift_server (runApplyLoop_msg msg) p with
      | Some (true, p') => Some (note_message msg (set_applied applied (set_applyCh rest p')))
      | _ => None
      end
  end.

(** [runSnapshotLoop], a step at a time. *)
Definition snapshot_step (e : SvEvent) (p : Process) : option Process :=
  match e, p_snap p with
  | EvTrigger, SnapIdle =>
      r ← lift_server (on_node take_snapshot_trigger) p;
      match r.1 with
      | Some index => Some (set_snap (SnapAsked index) r.2)
      | None => None
      end
  | EvSnapStore, SnapAsked index =>
      match Store_Snapshot (sv_store (p_server p)) with
      | inr _ => Some (set_snap SnapIdle p)
      | inl data => Some (set_snap (SnapReady index data) p)
      end
  | EvSnapNode, SnapReady index data =>
      r ← lift_server (on_node (Snapshot index data)) p;
      Some (set_snap SnapIdle r.2)
  | _, _ => None
  end.

(** A call that waits leaves with an error. *)
Definition leave (i : nat) (err : error) (p : Process) : option Process :=
  match p_calls p !! i with
  | Some (Waiting cmd index ch) =>
      r ← lift_server (execute_leave cmd index err) p;
      Some (set_calls (<[i := r.1]> (p_calls p)) r.2)
  | _ => None
  end.

Definition sv_exec (e : SvEvent) (p : Process) : option Process :=
  match e with
  | EvCall c => if is_new_call c then Some (set_calls (p_calls p ++ [c]) p) else None
  | EvStep i =>
      c ← p_calls p !! i;
      r ← lift_server (execute_step c) p;
      match r.1 with
      | Some c' => Some (set_calls (<[i := c']> (p_calls p)) r.2)
      | None => None
      end
  | EvCancel i => leave i ctx_error p
  | EvStopped i => if sv_stopped (p_server p) then leave i (Errorf "kv: server stopped") p else None
  | EvNode m => r ← lift_server (on_node m) p; Some r.2
  | EvApply =>
      match p_inHand p with
      | Some _ => None
      | None =>
          r ← lift_server (on_node (applyLoop_step (p_applyPc p))) p;
          Some (set_inHand r.1.2 (set_applyPc r.1.1 r.2))
      end
  | EvSend =>
      match p_inHand p with
      | Some msg =>
          if (length (p_applyCh p) <? applyChCap)%nat
          then Some (set_inHand None (set_applyCh (p_applyCh p ++ [msg]) p))
          else None
      | None => None
      end
  | EvReceive => receive p
  | EvStop => Some (set_server (Stop (p_server p)) p)
  | EvTrigger | EvSnapStore | EvSnapNode => snapshot_step e p
  end.

Fixpoint sv_exec_all (es : list SvEvent) (p : Process) : option Process :=
  match es with
  | [] => Some p
  | e :: es => p' ← sv_exec e p; sv_exec_all es p'
  end.

(** What any interleaving can reach from a freshly built server. *)
Inductive reaches (p0 : Process) : Process → Prop :=
| reaches_refl : reaches p0 p0
| reaches_step p e p' : reaches p0 p → sv_exec e p = Some p' → reaches p0 p'.
End Server.
