(* ===== verification/KVServerProperties.v ===== *)
(** * Correctness of internal/kv/server.go

    An invariant of every interleaving of the server's goroutines: a channel
    in [waiters] is empty and registered once, and what arrives on a channel
    was applied at the index its call waits for.  From it, that the apply loop
    never blocks and that a reply belongs to the request it answers; then the
    interleavings that lose a reply and a write. *)
From S2P Require Import Prelude RaftTypes MemoryStorage RaftNode KVStore KVServer.

Section Invariant.
Context {S : Type} `{!Storage S} {codec : KVCodec}.
Implicit Types (s : Server (S := S)) (p : Process (S := S)).

(** The reply [execute] gives for a result it accepts. *)
Definition reply_of (r : CommandReply) (index : N) : CommandReply :=
  MkReply (Success r) (r_Value r) (Found r) (Error r) (LeaderHint r) index.

Definition refusal_text (t : string) : Prop :=
  t = "not leader" ∨ t = "lost leadership before this request committed; retry".

Definition refused (r : CommandReply) : Prop :=
  Success r = false ∧ refusal_text (Error r) ∧ r_Index r = 0%N.

(** A reply that comes from the store's answer to this very request. *)
Definition answered (applied : list (N * applyResult)) (cmd : KVCommand) (r : CommandReply) : Prop :=
  ∃ res reply, (r_Index r, res) ∈ applied ∧ ClientId (res_cmd res) = ClientId cmd ∧
    SeqNo (res_cmd res) = SeqNo cmd ∧ res_reply res = Some reply ∧ r = reply_of reply (r_Index r).

Definition call_ok (waiters : gmap N nat) (chans : list (option applyResult))
    (applied : list (N * applyResult)) (c : Call) : Prop :=
  match c with
  | Refusing _ why => refusal_text why
  | Waiting cmd idx ch =>
      ch < length chans ∧ (∀ i, waiters !! i = Some ch → i = idx) ∧
      (∀ res, chans !! ch = Some (Some res) → (idx, res) ∈ applied)
  | Returned cmd (inl r) => refused r ∨ answered applied cmd r
  | _ => True
  end.

Record waiters_ok (waiters : gmap N nat) (chans : list (option applyResult)) : Prop := {
  wo_empty i ch : waiters !! i = Some ch → chans !! ch = Some None;
  wo_inj i j ch : waiters !! i = Some ch → waiters !! j = Some ch → i = j;
}.

Record inv p : Prop := {
  inv_waiters : waiters_ok (sv_waiters (p_server p)) (sv_chans (p_server p));
  inv_calls : Forall (call_ok (sv_waiters (p_server p)) (sv_chans (p_server p)) (p_applied p)) (p_calls p);
}.

(** ** The pieces *)
Lemma waiters_ok_delete w chans i : waiters_ok w chans → waiters_ok (delete i w) chans.
Proof.
  intros [He Hi]. split.
  - intros j ch [_ Hj]%lookup_delete_Some. by eapply He.
  - intros j k ch [_ Hj]%lookup_delete_Some [_ Hk]%lookup_delete_Some. by eapply Hi.
Qed.

Lemma call_ok_delete w chans applied i c :
  call_ok w chans applied c → call_ok (delete i w) chans applied c.
Proof.
  destruct c as [| | |cmd idx ch|]; try done. intros (Hl & Hw & Hr). split; [done|]. split; [|done].
  intros j [_ Hj]%lookup_delete_Some. by apply Hw.
Qed.

Lemma answered_mono applied applied' cmd r :
  applied ⊆ applied' → answered applied cmd r → answered applied' cmd r.
Proof. intros Hs (res & reply & Hin & ?). exists res, reply. split; [by apply Hs|done]. Qed.

Lemma waiters_ok_register w chans i :
  waiters_ok w chans → waiters_ok (<[i := length chans]> w) (chans ++ [None]).
Proof.
  intros [He Hi]. assert (∀ j ch, w !! j = Some ch → ch < length chans) as Hlt.
  { intros j ch Hj. eapply lookup_lt_Some. by eapply He. }
  split.
  - intros j ch [(_ & <-)|(_ & Hj)]%lookup_insert_Some.
    + by rewrite lookup_app_r, Nat.sub_diag by lia.
    + rewrite lookup_app_l by (by eapply Hlt). by eapply He.
  - intros j k ch [(<- & <-)|(_ & Hj)]%lookup_insert_Some [(<- & Hch)|(_ & Hk)]%lookup_insert_Some; try done.
    + apply Hlt in Hk. lia.
    + subst ch. apply Hlt in Hj. lia.
    + by eapply Hi.
Qed.

Lemma call_ok_register w chans applied i c :
  waiters_ok w chans → call_ok w chans applied c →
  call_ok (<[i := length chans]> w) (chans ++ [None]) applied c.
Proof.
  intros Hwo. destruct c as [| | |cmd idx ch|]; try done. intros (Hl & Hw & Hr).
  cbn [call_ok]. rewrite length_app. split; [lia|]. split.
  - intros j [(_ & <-)|(_ & Hj)]%lookup_insert_Some; [lia|by apply Hw].
  - rewrite lookup_app_l by done. done.
Qed.

Lemma call_ok_empty w chans applied ch c :
  call_ok w chans applied c → call_ok w (<[ch := None]> chans) applied c.
Proof.
  destruct c as [| | |cmd idx ch'|]; try done. intros (Hl & Hw & Hr). cbn [call_ok]. rewrite length_insert.
  split; [done|]. split; [done|]. intros res Hch.
  apply list_lookup_insert_Some in Hch as [(_ & ? & _)|[_ Hch]]; [done|by apply Hr].
Qed.

Lemma waiters_ok_empty w chans ch : waiters_ok w chans → waiters_ok w (<[ch := None]> chans).
Proof.
  intros [He Hi]. split; [|exact Hi]. intros i ch' Hi'. apply He in Hi'.
  destruct (decide (ch = ch')) as [<-|Hne]; [|by rewrite list_lookup_insert_ne].
  apply list_lookup_insert_eq. by eapply lookup_lt_Some.
Qed.

(** The delivery always finds room, and reaches the calls of its index. *)
Lemma deliver_spec s index res applied :
  waiters_ok (sv_waiters s) (sv_chans s) →
  wp False (deliver index res) (λ ok s', ok = true ∧ sv_node s' = sv_node s ∧
    waiters_ok (sv_waiters s') (sv_chans s') ∧
    (∀ c, call_ok (sv_waiters s) (sv_chans s) applied c →
       call_ok (sv_waiters s') (sv_chans s') ((index, res) :: applied) c) ∧
    (∀ ch, sv_waiters s !! index = Some ch → sv_chans s' !! ch = Some (Some res))) s.
Proof.
  intros Hwo. unfold deliver, send. do 2 wp_step. destruct (sv_waiters s !! index) as [ch|] eqn:Hw.
  - pose proof (wo_empty _ _ Hwo _ _ Hw) as Hch. do 4 wp_step. cbn [sv_chans set_waiters]. rewrite Hch.
    do 3 wp_step. cbn [sv_waiters sv_chans sv_node set_chans set_waiters]. split; [done|]. split; [done|]. split; [|split].
    + split.
      * intros j ch' [Hne Hj]%lookup_delete_Some. pose proof (wo_empty _ _ Hwo _ _ Hj).
        destruct (decide (ch = ch')) as [<-|]; [|by rewrite list_lookup_insert_ne].
        by destruct Hne; eapply (wo_inj _ _ Hwo).
      * intros j k ch' [_ Hj]%lookup_delete_Some [_ Hk]%lookup_delete_Some. by eapply (wo_inj _ _ Hwo).
    + intros c Hc. destruct c as [| | |cmd idx ch'|cmd [r|]]; try done.
      * destruct Hc as (Hl & Hi & Hr). cbn. rewrite length_insert. split; [done|]. split.
        { intros j [_ Hj]%lookup_delete_Some. by apply Hi. }
        intros res' [(-> & [= <-] & _)|[_ Hres]]%list_lookup_insert_Some.
        { rewrite (Hi _ Hw). by left. }
        right. by apply Hr.
      * destruct Hc as [Hc|Hc]; [by left|right]. eapply answered_mono; [|done]. by right.
    + intros ch' [= <-]. apply list_lookup_insert_eq. by eapply lookup_lt_Some.
  - wp_step. split; [done|]. split; [done|]. split; [done|]. split; [|done].
    intros c Hc. destruct c as [| | |cmd idx ch'|cmd [r|]]; try done.
    + destruct Hc as (? & ? & Hr). split; [done|]. split; [done|]. intros res' Hres. right. by apply Hr.
    + destruct Hc as [Hc|Hc]; [by left|right]. eapply answered_mono; [|done]. by right.
Qed.

Lemma deliver_store index res s :
  wp True (deliver index res) (λ _ s', sv_store s' = sv_store s) s.
Proof. unfold deliver, send. by wp_steps. Qed.

(** A step that leaves waiters and channels alone. *)
Definition same_channels s s' : Prop :=
  sv_waiters s' = sv_waiters s ∧ sv_chans s' = sv_chans s.

Lemma on_node_same {A} (m : GoM (Node S) A) s : wp True (on_node m) (λ _, same_channels s) s.
Proof. unfold on_node. wp_step. unfold wp. by destruct (m (sv_node s)) as [[]|]. Qed.

Lemma inv_same p p' :
  inv p → same_channels (p_server p) (p_server p') → p_calls p' = p_calls p →
  p_applied p' = p_applied p → inv p'.
Proof. intros [Hw Hc] [E1 E2] E3 E4. split; rewrite E1, E2; [done|]. by rewrite E3, E4. Qed.

(** What a step of one call does to the channels, and where it gets. *)
Definition call_post applied s (r : option Call) s' : Prop :=
  waiters_ok (sv_waiters s') (sv_chans s') ∧
  (∀ c, call_ok (sv_waiters s) (sv_chans s) applied c → call_ok (sv_waiters s') (sv_chans s') applied c) ∧
  (∀ c, r = Some c → call_ok (sv_waiters s') (sv_chans s') applied c).

Lemma answer_ok w chans applied cmd index res c :
  (index, res) ∈ applied → answer cmd index res = Val c → call_ok w chans applied c.
Proof.
  unfold answer. intros Hin. case_bool_decide as Hid; cbn; [|intros [= <-]; by right].
  destruct (N.eqb_spec (SeqNo (res_cmd res)) (SeqNo cmd)); cbn; [|intros [= <-]; by right].
  destruct (res_reply res) as [r|] eqn:Hr; [|done]. intros [= <-]. right. by exists res, r.
Qed.

Lemma execute_step_spec applied c s :
  waiters_ok (sv_waiters s) (sv_chans s) → call_ok (sv_waiters s) (sv_chans s) applied c →
  wp True (execute_step c) (call_post applied s) s.
Proof.
  intros Hwo Hc. destruct c as [cmd|cmd why|cmd index|cmd index ch|cmd r]; cbn [execute_step].
  - unfold execute_propose. wp_step. destruct (marshal_command cmd) as [payload|err].
    + wp_step. eapply wp_mono; [|apply (on_node_same (Propose payload))].
      cbn beta. intros [[index t] [|]] s' [E1 E2]; do 2 wp_step; unfold call_post; rewrite E1, E2.
      * split; [done|]. split; [done|]. by intros c [= <-].
      * split; [done|]. split; [done|]. intros c [= <-]. by left.
    + do 2 wp_step. split; [done|]. split; [done|]. by intros c [= <-].
  - do 3 wp_step. split; [done|]. split; [done|]. intros c [= <-]. left. by split; [|split].
  - unfold execute_register. wp_steps. unfold call_post. cbn. split; [by apply waiters_ok_register|].
    split; [intros c; by apply call_ok_register|]. intros c [= <-]. cbn. rewrite length_app. cbn.
    split; [lia|]. split.
    + intros i [(-> & _)|(_ & Hi)]%lookup_insert_Some; [done|].
      apply (wo_empty _ _ Hwo) in Hi. apply lookup_lt_Some in Hi. lia.
    + intros res. by rewrite lookup_app_r, Nat.sub_diag by lia.
  - destruct Hc as (_ & _ & Hr). unfold execute_receive. do 2 wp_step.
    destruct (sv_chans s !! ch) as [[res|]|]; [|by wp_step..]. do 3 wp_step.
    apply wp_lift_go; [|done]. intros c' Hc'. wp_step. unfold call_post. cbn.
    split; [by apply waiters_ok_empty|]. split; [intros c; by apply call_ok_empty|].
    intros c [= <-]. eapply answer_ok; [|done]. by apply Hr.
  - wp_step. by split.
Qed.

Lemma lift_server_wp {A} (m : GoM (Server (S := S)) A) Q p a p' :
  wp True m Q (p_server p) → lift_server m p = Some (a, p') →
  Q a (p_server p') ∧ p_calls p' = p_calls p ∧ p_applied p' = p_applied p ∧ p_applyCh p' = p_applyCh p.
Proof.
  unfold wp, lift_server. destruct (m (p_server p)) as [[x s]|]; [|done]. by intros HQ [= <- <-].
Qed.

Lemma lift_node_inv {A} (m : GoM (Node S) A) p a p' :
  inv p → lift_server (on_node m) p = Some (a, p') → inv p'.
Proof.
  intros Hi Hl. destruct (lift_server_wp _ _ _ _ _ (on_node_same m _) Hl) as (Hs & Hc & Ha & _).
  by eapply inv_same.
Qed.

Lemma leave_inv i err p p' : inv p → leave i err p = Some p' → inv p'.
Proof.
  intros [Hw Hc]. unfold leave. destruct (p_calls p !! i) as [[]|]; try done.
  cbn. intros [= <-]. split; cbn; [by apply waiters_ok_delete|].
  apply Forall_insert; [|done]. eapply Forall_impl; [done|]. intros c. apply call_ok_delete.
Qed.

Lemma receive_inv p p' : inv p → receive p = Some p' → inv p'.
Proof.
  intros [Hw Hc]. unfold receive. destruct (p_applyCh p) as [|msg rest]; [done|].
  destruct msg as [command index t|snap i t].
  - unfold runApplyLoop_msg, lift_server, get, mbind, GoM_bind, modify.
    destruct (Apply command (sv_store (p_server p))) as [[cmd reply] st].
    pose proof (deliver_spec (set_store st (p_server p)) index (MkResult cmd reply) (p_applied p) Hw) as Hd.
    destruct (wp_total _ _ _ Hd) as (ok & s' & -> & -> & _ & Hw' & Hc' & _).
    intros [= <-]. split; cbn; [done|]. eapply Forall_impl; [done|]. exact Hc'.
  - unfold runApplyLoop_msg, lift_server, get, mbind, GoM_bind, modify.
    destruct (Restore snap (sv_store (p_server p))) as [[err|] st]; [done|]. intros [= <-]. by split.
Qed.

Lemma exec_inv e p p' : inv p → sv_exec e p = Some p' → inv p'.
Proof.
  intros Hi. destruct e; cbn [sv_exec].
  - destruct c; try done. cbn. intros [= <-]. destruct Hi as [Hw Hc]. split; cbn; [done|].
    apply Forall_app. split; [done|]. by repeat constructor.
  - destruct (p_calls p !! i) as [c|] eqn:Hci; [|done]. cbn.
    destruct Hi as [Hw Hc]. pose proof (Forall_lookup_1 _ _ _ _ Hc Hci) as Hok.
    destruct (lift_server (execute_step c) p) as [[r p1]|] eqn:Hl; [|done]. cbn.
    destruct (lift_server_wp _ _ _ _ _ (execute_step_spec (p_applied p) c _ Hw Hok) Hl)
      as ((Hw' & Hmono & Hnew) & Hcalls & Happ & _).
    destruct r as [c'|]; [|done]. intros [= <-]. split; cbn; [done|]. rewrite Happ.
    apply Forall_insert; [|by apply Hnew]. eapply Forall_impl; [done|]. exact Hmono.
  - by apply leave_inv.
  - destruct (sv_stopped (p_server p)); [by apply leave_inv|done].
  - destruct (lift_server (on_node m) p) as [[r p1]|] eqn:Hl; [|done]. intros [= <-].
    by eapply lift_node_inv.
  - destruct (p_inHand p); [done|].
    destruct (lift_server _ p) as [[r p1]|] eqn:Hl; [|done]. intros [= <-].
    eapply inv_same; [by eapply lift_node_inv|by split|done|done].
  - destruct (p_inHand p); [|done]. destruct (_ <? _)%nat; [|done]. intros [= <-].
    eapply inv_same; [done|by split|done|done].
  - by apply receive_inv.
  - unfold snapshot_step. destruct (p_snap p); try done. cbn.
    destruct (lift_server _ p) as [[r p1]|] eqn:Hl; [|done]. cbn. destruct r; [|done]. intros [= <-].
    eapply inv_same; [by eapply lift_node_inv|by split|done|done].
  - unfold snapshot_step. destruct (p_snap p); try done. cbn. destruct (Store_Snapshot _); intros [= <-]; (eapply inv_same; [done|by split|done|done]).
  - unfold snapshot_step. destruct (p_snap p); try done. cbn.
    destruct (lift_server _ p) as [[r p1]|] eqn:Hl; [|done]. intros [= <-].
    eapply inv_same; [by eapply lift_node_inv|by split|done|done].
  - intros [= <-]. eapply inv_same; [done|by split|done|done].
Qed.

Lemma reaches_inv node store addrs p :
  reaches (NewProcess (NewServer node store addrs)) p → inv p.
Proof.
  induction 1 as [|p e p' _ IH He]; [|by eapply exec_inv]. split; cbn; [|done].
  split; [intros i ch|intros i j ch]; by rewrite lookup_empty.
Qed.

(** One round of the apply loop on a command. *)
Lemma receive_command p command index t rest :
  waiters_ok (sv_waiters (p_server p)) (sv_chans (p_server p)) →
  p_applyCh p = CommandMsg command index t :: rest →
  ∃ p', receive p = Some p' ∧ p_applyCh p' = rest ∧
    sv_store (p_server p') = (Apply command (sv_store (p_server p))).2 ∧
    sv_node (p_server p') = sv_node (p_server p) ∧ p_calls p' = p_calls p ∧
    (∀ ch, sv_waiters (p_server p) !! index = Some ch → sv_chans (p_server p') !! ch =
       Some (Some (MkResult (Apply command (sv_store (p_server p))).1.1 (Apply command (sv_store (p_server p))).1.2))).
Proof.
  intros Hw Hch. unfold receive, runApplyLoop_msg, lift_server, get, mbind, GoM_bind, modify. rewrite Hch.
  destruct (Apply command (sv_store (p_server p))) as [[cmd reply] st].
  pose proof (deliver_spec (set_store st (p_server p)) index (MkResult cmd reply) (p_applied p) Hw) as Hd.
  pose proof (deliver_store index (MkResult cmd reply) (set_store st (p_server p))) as Hst.
  destruct (wp_total _ _ _ Hd) as (ok & s' & Hrun & -> & Hn & _ & _ & Hres).
  rewrite Hrun. eexists. split; [done|]. cbn. split; [done|].
  split; [exact (wp_run _ _ _ _ _ _ Hst Hrun)|]. by split; [|split].
Qed.
End Invariant.

(** ** Theorems on every interleaving *)
Section Theorems.
Context {S : Type} `{!Storage S} {codec : KVCodec}.
Implicit Types (p : Process (S := S)).

(** C24: a reply answers the request it is given to.  In every interleaving of
    clients, node, apply loop and snapshot loop, a call of [execute] that
    returned a reply was either refused with one of the two retry messages, or
    carries the fields the store answered when it applied, at the very index
    the reply names, an entry of the same client and sequence number. *)
Theorem reply_is_own node store addrs p k cmd r :
  reaches (NewProcess (NewServer node store addrs)) p →
  p_calls p !! k = Some (Returned cmd (inl r)) → refused r ∨ answered (p_applied p) cmd r.
Proof.
  intros Hr Hk. pose proof (inv_calls _ (reaches_inv _ _ _ _ Hr)) as Hc.
  exact (Forall_lookup_1 _ _ _ _ Hc Hk).
Qed.

(** C25: a slow client never blocks the apply loop.  Whenever a command is at
    the head of [applyCh], in whatever state the calls are, the loop applies
    it, delivers the result and goes on. *)
Theorem apply_loop_never_blocks node store addrs p command index t rest :
  reaches (NewProcess (NewServer node store addrs)) p →
  p_applyCh p = CommandMsg command index t :: rest →
  ∃ p', sv_exec EvReceive p = Some p' ∧ p_applyCh p' = rest ∧
    sv_store (p_server p') = (Apply command (sv_store (p_server p))).2 ∧
    sv_node (p_server p') = sv_node (p_server p).
Proof.
  intros Hr Hch. pose proof (inv_waiters _ (reaches_inv _ _ _ _ Hr)) as Hw.
  destruct (receive_command p _ _ _ _ Hw Hch) as (p' & Hx & Hrest & Hst & Hn & _). by exists p'.
Qed.

(** A registered call is answered.  When the entry a call waits for comes
    off [applyCh] and decodes to the call's command, the next step of the call
    returns the store's reply, with the index filled in. *)
Theorem registered_call_answered node store addrs p k cmd index ch command t rest reply :
  reaches (NewProcess (NewServer node store addrs)) p →
  p_calls p !! k = Some (Waiting cmd index ch) →
  sv_waiters (p_server p) !! index = Some ch →
  p_applyCh p = CommandMsg command index t :: rest →
  (Apply command (sv_store (p_server p))).1 = (cmd, Some reply) →
  ∃ p' p'', sv_exec EvReceive p = Some p' ∧ sv_exec (EvStep k) p' = Some p'' ∧
    p_calls p'' = <[k := Returned cmd (inl (reply_of reply index))]> (p_calls p).
Proof.
  intros Hr Hk Hw Hch Happ. pose proof (inv_waiters _ (reaches_inv _ _ _ _ Hr)) as Hwo.
  destruct (receive_command p _ _ _ _ Hwo Hch) as (p' & Hx & _ & _ & _ & Hcalls & Hres).
  exists p'. rewrite Happ in Hres. specialize (Hres ch Hw). cbn [fst snd] in Hres.
  eexists. split; [done|]. cbn [sv_exec]. rewrite Hcalls, Hk.
  unfold lift_server. cbn. unfold execute_receive, get, mbind, GoM_bind. rewrite Hres. cbn.
  unfold lift_go, answer. cbn. rewrite bool_decide_true, N.eqb_refl by done. cbn. split; [done|].
  done.
Qed.
End Theorems.

(** ** Concrete processes: a single-node cluster over [MemoryStorage] *)
Definition solo_cfg : Config := MkConfig "a" [] 0 0 0 0 0 1.
Definition solo_env : Env := MkEnv 1 0.

Definition start (st : MemoryStorage) : option (Process (S := MemoryStorage)) :=
  match NewNode solo_cfg solo_env st with
  | Val (inl n, _) => Some (NewProcess (NewServer n NewStore ∅))
  | _ => None
  end.

Definition solo_node : Node MemoryStorage :=
  init_node (apply_defaults solo_cfg) NewMemoryStorage (MkPersistent 0 "" [boundary 0 0] []) (boundary 0 0).

Definition put_kv : KVCommand := MkCommand "c" 1 OP_PUT "k" "v".

(** The events of the election a lone node wins. *)
Definition lead : list (SvEvent (S := MemoryStorage)) :=
  [EvNode (e ← startElection solo_env; mret ()); EvNode (startElection_solo 1)].

(** The background tick, snapshot request included. *)
Definition tick_event : SvEvent (S := MemoryStorage) :=
  EvNode (a ← tick solo_env;
          match a with Some a => trigger_snapshot (ta_snapshotRequestIndex a) | None => mret () end).

#[local] Existing Instance bit_codec.

Definition solo_process : Process (S := MemoryStorage) := NewProcess (NewServer solo_node NewStore ∅).

Lemma reaches_exec_all {S} `{!Storage S} {codec : KVCodec} (es : list (SvEvent (S := S))) (p0 p p' : Process (S := S)) :
  reaches p0 p → sv_exec_all es p = Some p' → reaches p0 p'.
Proof.
  revert p. induction es as [|e es IH]; intros p Hr; cbn [sv_exec_all]; [by intros [= <-]|].
  destruct (sv_exec e p) as [p1|] eqn:He; [|done]. cbn. apply IH. by eapply reaches_step.
Qed.

(** A put, up to the point where its entry is at the head of [applyCh]. *)
Definition put_waiting : list (SvEvent (S := MemoryStorage)) :=
  lead ++ [EvCall (Put put_kv); EvStep 0; EvStep 0; EvApply; EvSend].

Definition committed_put : bytes := match marshal_command put_kv with inl b => b | inr _ => [] end.

Lemma registered_call_answered_witness :
  ∃ p p' p'', reaches solo_process p ∧
    p_calls p !! 0 = Some (Waiting put_kv 1 0) ∧
    sv_exec EvReceive p = Some p' ∧ sv_exec (EvStep 0) p' = Some p'' ∧
    p_calls p'' = <[0 := Returned put_kv (inl (MkReply true "" false "" "" 1))]> (p_calls p).
Proof.
  destruct (sv_exec_all put_waiting solo_process) as [p|] eqn:Hp; [|by vm_compute in Hp].
  assert (Hr : reaches solo_process p) by (eapply reaches_exec_all; [apply reaches_refl|exact Hp]).
  vm_compute in Hp. injection Hp as <-.
  destruct (registered_call_answered solo_node NewStore ∅ _ 0 put_kv 1 0 committed_put 1 []
    success_reply Hr eq_refl eq_refl) as (p' & p'' & H1 & H2 & H3).
  - by vm_compute.
  - by vm_compute.
  - eexists _, p', p''. done.
Defined.

Lemma reply_is_own_witness :
  ∃ p, reaches solo_process p ∧
    p_calls p !! 0 = Some (Returned put_kv (inl (MkReply true "" false "" "" 1))) ∧
    (refused (MkReply true "" false "" "" 1) ∨
     answered (p_applied p) put_kv (MkReply true "" false "" "" 1)).
Proof.
  destruct (sv_exec_all (put_waiting ++ [EvReceive; EvStep 0]) solo_process) as [p|] eqn:Hp; [|by vm_compute in Hp].
  assert (Hr : reaches solo_process p) by (eapply reaches_exec_all; [apply reaches_refl|exact Hp]).
  assert (Hk : p_calls p !! 0 = Some (Returned put_kv (inl (MkReply true "" false "" "" 1)))).
  { vm_compute in Hp. injection Hp as <-. done. }
  exists p. split; [exact Hr|]. split; [exact Hk|].
  exact (reply_is_own solo_node NewStore ∅ p 0 put_kv _ Hr Hk).
Defined.

Lemma apply_loop_never_blocks_witness :
  ∃ p p', reaches solo_process p ∧ p_applyCh p = [CommandMsg committed_put 1 1] ∧
    sv_exec EvReceive p = Some p' ∧ p_applyCh p' = [] ∧
    sv_store (p_server p') = (Apply committed_put (sv_store (p_server p))).2 ∧
    sv_node (p_server p') = sv_node (p_server p).
Proof.
  destruct (sv_exec_all (put_waiting ++ [EvCancel 0]) solo_process) as [p|] eqn:Hp; [|by vm_compute in Hp].
  assert (Hr : reaches solo_process p) by (eapply reaches_exec_all; [apply reaches_refl|exact Hp]).
  assert (Hc : p_applyCh p = [CommandMsg committed_put 1 1]).
  { vm_compute in Hp. injection Hp as <-. by vm_compute. }
  destruct (apply_loop_never_blocks solo_node NewStore ∅ p committed_put 1 1 [] Hr Hc) as (p' & H).
  exists p, p'. split; [exact Hr|]. split; [exact Hc|exact H].
Defined.

(** A lost wake-up.  [execute] registers its channel after [Propose]
    returned; when the entry commits and is applied in between, nobody is told.
    In this run of a single-node cluster the put is in the store, yet its call
    waits, nothing is left to apply and no goroutine has anything to do: only
    the end of the caller's context or of the server ends the call. *)
Theorem late_registration_loses_reply :
  ∃ p, reaches solo_process p ∧
    data (sv_store (p_server p)) !! "k" = Some "v" ∧
    p_calls p = [Waiting put_kv 1 0] ∧ sv_exec (EvStep 0) p = None ∧
    p_applyCh p = [] ∧ p_inHand p = None ∧ p_applyPc p = Asleep ∧
    n_applyWake (sv_node (p_server p)) = false ∧
    n_lastApplied (sv_node (p_server p)) = n_commitIndex (sv_node (p_server p)) ∧
    sv_exec EvReceive p = None.
Proof.
  destruct (sv_exec_all (lead ++ [EvCall (Put put_kv); EvStep 0; EvApply; EvSend; EvReceive; EvStep 0;
    EvApply; EvApply; EvApply]) solo_process) as [p|] eqn:Hp; [|by vm_compute in Hp].
  assert (Hr : reaches solo_process p) by (eapply reaches_exec_all; [apply reaches_refl|exact Hp]).
  exists p. split; [exact Hr|]. clear Hr. vm_compute in Hp. injection Hp as <-. by vm_compute.
Qed.

(** A snapshot can miss acknowledged writes.  The node asks for a snapshot
    at [lastApplied], which it advances before the application has taken the
    entry off [applyCh]; the snapshot loop then saves an older store under that
    index.  In this run a put is acknowledged with success, and a process
    restarted on the same storage comes back without it: its log is empty after
    the snapshot and the snapshot does not hold the key. *)
Theorem early_snapshot_loses_write :
  ∃ p p0 p', reaches solo_process p ∧
    p_calls p = [Returned put_kv (inl (MkReply true "" false "" "" 1))] ∧
    data (sv_store (p_server p)) !! "k" = Some "v" ∧
    start (n_storage (sv_node (p_server p))) = Some p0 ∧ reaches p0 p' ∧
    n_log (sv_node (p_server p')) = [boundary 1 1] ∧
    n_lastApplied (sv_node (p_server p')) = 1%N ∧ p_applyCh p' = [] ∧ p_inHand p' = None ∧
    data (sv_store (p_server p')) !! "k" = None.
Proof.
  destruct (sv_exec_all (lead ++ [EvCall (Put put_kv); EvStep 0; EvStep 0; EvApply; tick_event;
    EvTrigger; EvSnapStore; EvSnapNode; EvSend; EvReceive; EvStep 0]) solo_process) as [p|] eqn:Hp;
    [|by vm_compute in Hp].
  assert (Hr : reaches solo_process p) by (eapply reaches_exec_all; [apply reaches_refl|exact Hp]).
  destruct (start (n_storage (sv_node (p_server p)))) as [p0|] eqn:Hp0;
    [|by vm_compute in Hp; injection Hp as <-; vm_compute in Hp0].
  destruct (sv_exec_all [EvApply; EvSend; EvReceive] p0) as [p'|] eqn:Hp';
    [|by vm_compute in Hp; injection Hp as <-; vm_compute in Hp0; injection Hp0 as <-; vm_compute in Hp'].
  assert (Hr' : reaches p0 p') by (eapply reaches_exec_all; [apply reaches_refl|exact Hp']).
  exists p, p0, p'. split; [exact Hr|].
  vm_compute in Hp. injection Hp as <-. vm_compute in Hp0. injection Hp0 as <-.
  split; [done|]. split; [by vm_compute|]. split; [done|]. split; [exact Hr'|]. clear Hr Hr'.
  vm_compute in Hp'. injection Hp' as <-. by vm_compute.
Qed.
