(* ===== verification/LogStore.v ===== *)
(** * The store a log stands for

    What a server that applies a log from the beginning holds and answers, and
    what one that starts from a snapshot does: a store may be ahead of the
    messages it is given, it then takes their commands for duplicates and comes
    to the same contents. *)
From S2P Require Import Prelude RaftTypes KVStore KVProperties KVServer.

Section LogStore.
Context {codec : KVCodec}.
Implicit Types (L : list LogEntry) (st : Store).

(** The store of kv/store.go after the entries of a log. *)
Definition store_after L : Store := foldl (λ st e, (Apply (Command e) st).2) NewStore L.

(** The commands of a log. *)
Definition commands L : list KVCommand := omap decode (Command <$> L).

Lemma commands_snoc L e : commands (L ++ [e]) = commands L ++ option_list (decode (Command e)).
Proof. unfold commands. rewrite fmap_app, omap_app. cbn. by destruct (decode _). Qed.

Lemma commands_elem L c : c ∈ commands L ↔ ∃ k e, L !! k = Some e ∧ decode (Command e) = Some c.
Proof.
  unfold commands. rewrite list_elem_of_omap. split.
  - intros (b & (e & -> & He)%list_elem_of_fmap & Hc). apply list_elem_of_lookup in He as [k Hk]. by exists k, e.
  - intros (k & e & Hk & Hc). exists (Command e). split; [|done]. apply list_elem_of_fmap. exists e.
    split; [done|]. by eapply list_elem_of_lookup_2.
Qed.

Lemma store_after_app L e : store_after (L ++ [e]) = (Apply (Command e) (store_after L)).2.
Proof. unfold store_after. by rewrite foldl_app. Qed.

Lemma store_after_snoc L e :
  store_after (L ++ [e]) = match decode (Command e) with
                           | Some c => (apply_cmd c (store_after L)).2
                           | None => store_after L
                           end.
Proof. by rewrite store_after_app, Apply_decode. Qed.

Lemma sessions_after L : sessions_of (commands L) (sessions (store_after L)).
Proof.
  induction L as [|e L IH] using rev_ind; [apply sessions_of_new|]. rewrite commands_snoc, store_after_snoc.
  destruct (decode (Command e)) as [c|]; cbn; [by apply apply_cmd_sessions|by rewrite app_nil_r].
Qed.

Lemma data_after_snoc L e c :
  decode (Command e) = Some c →
  data (store_after (L ++ [e])) =
    if takes_effect (commands L) c then raw_apply (data (store_after L)) c else data (store_after L).
Proof. intros Hc. rewrite store_after_snoc, Hc. apply apply_cmd_data, sessions_after. Qed.

(** An entry the store has executed changes nothing when it comes again. *)
Lemma apply_again L b k e :
  L !! k = Some e → k < b → (Apply (Command e) (store_after (take b L))).2 = store_after (take b L).
Proof.
  intros He Hk. rewrite Apply_decode. destruct (decode (Command e)) as [c|] eqn:Hd; [|done].
  set (s := store_after (take b L)). unfold apply_cmd. destruct (dedup_reply c s) as [r|] eqn:Hr; [done|].
  pose proof (dedup_takes_effect _ c s (sessions_after (take b L))) as Hte. rewrite Hr in Hte.
  destruct (dedupes c) eqn:Hde.
  - assert (SeqNo c < SeqNo c)%N; [|lia]. apply (proj1 (takes_effect_spec _ _) Hte Hde); [|done..].
    apply commands_elem. exists k, e. by rewrite lookup_take_lt.
  - unfold dedupes in Hde. destruct (bool_decide_reflect (Op_ c = OP_GET)) as [Hop|]; [|done].
    unfold applyLocked. by rewrite Hop.
Qed.

(** ** Stores at an index

    Exactly there, or possibly ahead. *)
Definition reflects (ahead : bool) L (i : N) st : Prop :=
  ∃ b, N.to_nat i ≤ b ≤ length L ∧ (ahead = false → b = N.to_nat i) ∧ st = store_after (take b L).

(** Data that restores to such a store. *)
Definition snapshot_of L (i : N) (snap : bytes) : Prop :=
  (N.to_nat i ≤ length L) ∧ ∀ st, ∃ st', Restore snap st = (None, st') ∧ reflects true L i st'.

(** The answer noted for an index: that of a store which has executed the
    entries before it, and possibly more. *)
Definition answers (ahead : bool) L (x : N * applyResult) : Prop :=
  ∃ k b e, x.1 = N.of_nat (k + 1) ∧ k ≤ b ≤ length L ∧ (ahead = false → b = k) ∧ L !! k = Some e ∧
    (res_cmd x.2, res_reply x.2) = (Apply (Command e) (store_after (take b L))).1.

(** What a server that started from nothing has noted ([p_applied], the last
    entry first) and holds. *)
Definition apply_entry (x : list (N * applyResult) * Store) (e : LogEntry) : list (N * applyResult) * Store :=
  let '((cmd, reply), st) := Apply (Command e) x.2 in ((Index e, MkResult cmd reply) :: x.1, st).

Definition apply_entries L : list (N * applyResult) * Store := foldl apply_entry ([], NewStore) L.

Lemma apply_entries_snoc L e : apply_entries (L ++ [e]) = apply_entry (apply_entries L) e.
Proof. unfold apply_entries. by rewrite foldl_app. Qed.

(** A server follows the log [L]: its store is that of a beginning of [L] which
    reaches at least to the last message it has taken, its answers are ones of
    [L], and unless it has restored a snapshot both are exactly those of [L] up
    to that message. *)
Record follows {S : Type} L (P : Process (S := S)) : Prop := {
  fo_store : reflects (p_restored P) L (p_at P) (sv_store (p_server P));
  fo_applied : Forall (answers (p_restored P) L) (p_applied P);
  fo_exact : p_restored P = false →
    apply_entries (take (N.to_nat (p_at P)) L) = (p_applied P, sv_store (p_server P));
}.

Lemma reflects_prefix ahead L L' i st : L `prefix_of` L' → reflects ahead L i st → reflects ahead L' i st.
Proof.
  intros [M ->] (b & Hb & Hex & ->). exists b. rewrite length_app, take_app_le by lia. split; [lia|done].
Qed.

Lemma snapshot_prefix L L' i snap : L `prefix_of` L' → snapshot_of L i snap → snapshot_of L' i snap.
Proof.
  intros Hp [Hi Hs]. split; [apply prefix_length in Hp; lia|]. intros st. destruct (Hs st) as (st' & ? & ?).
  exists st'. split; [done|by eapply reflects_prefix].
Qed.

Lemma answers_prefix ahead L L' x : L `prefix_of` L' → answers ahead L x → answers ahead L' x.
Proof.
  intros [M ->] (k & b & e & Hx & Hb & Hex & He & Hr). exists k, b, e. rewrite length_app, take_app_le by lia.
  split; [done|]. split; [lia|]. split; [done|]. split; [by apply lookup_app_l_Some|done].
Qed.

Lemma answers_ahead ahead L x : answers ahead L x → answers true L x.
Proof. intros (k & b & e & ? & ? & _ & ?). by exists k, b, e. Qed.

Lemma follows_prefix {S : Type} L L' (P : Process (S := S)) : L `prefix_of` L' → follows L P → follows L' P.
Proof.
  intros Hp [Hs Ha He]. split; [by eapply reflects_prefix| |].
  - eapply Forall_impl; [done|]. intros x. by apply answers_prefix.
  - intros Hr. rewrite <- (He Hr). destruct Hs as (b & Hb & _), Hp as [M ->]. by rewrite take_app_le by lia.
Qed.

Lemma reflects_new L : reflects false L 0 NewStore.
Proof. exists 0. split; [lia|done]. Qed.

(** A snapshot of such a store is one. *)
Lemma reflects_snapshot {spec : KVCodecSpec} ahead L i j st snap :
  reflects ahead L j st → (i ≤ j)%N → Store_Snapshot st = inl snap → snapshot_of L i snap.
Proof.
  intros (b & Hb & _ & ->) Hij Hs. split; [lia|]. intros st'. exists (store_after (take b L)).
  split; [exact (proj1 (snapshot_restore _ _ st' [] Hs))|]. exists b. split; [lia|done].
Qed.

(** ** Messages for the application

    Messages that lead a server from index [i] of the log to index [j]. *)
Fixpoint leads L (msgs : list ApplyMsg) (i j : N) : Prop :=
  match msgs with
  | [] => i = j
  | CommandMsg cmd k t :: msgs => k = (i + 1)%N ∧ L !! N.to_nat i = Some (MkEntry t k cmd) ∧ leads L msgs k j
  | SnapshotMsg snap k t :: msgs => (i ≤ k)%N ∧ snapshot_of L k snap ∧ leads L msgs k j
  end.

Lemma leads_app L ms1 ms2 i j : leads L (ms1 ++ ms2) i j ↔ ∃ k, leads L ms1 i k ∧ leads L ms2 k j.
Proof.
  revert i. induction ms1 as [|[cmd k t|snap k t] ms1 IH]; intros i; cbn.
  - split; [by exists i|by intros (? & -> & ?)].
  - rewrite IH. naive_solver.
  - rewrite IH. naive_solver.
Qed.

Lemma leads_le L ms i j : leads L ms i j → (i ≤ j)%N.
Proof.
  revert i. induction ms as [|[cmd k t|snap k t] ms IH]; intros i; cbn; [lia| |].
  - intros (-> & _ & ?%IH). lia.
  - intros (? & _ & ?%IH). lia.
Qed.

Lemma leads_prefix L L' ms i j : L `prefix_of` L' → leads L ms i j → leads L' ms i j.
Proof.
  intros Hp. revert i. induction ms as [|[cmd k t|snap k t] ms IH]; intros i; cbn; [done| |].
  - intros (? & ? & ?). split; [done|]. split; [by eapply prefix_lookup_Some|by apply IH].
  - intros (? & ? & ?). split; [done|]. split; [by eapply snapshot_prefix|by apply IH].
Qed.

(** A command is applied at its place. *)
Lemma apply_next ahead L i st t k cmd :
  reflects ahead L i st → L !! N.to_nat i = Some (MkEntry t k cmd) → k = (i + 1)%N →
  reflects ahead L k (Apply cmd st).2 ∧ answers ahead L (k, MkResult (Apply cmd st).1.1 (Apply cmd st).1.2).
Proof.
  intros (b & Hb & Hex & ->) He ->. set (e := MkEntry t (i + 1) cmd) in *. pose proof (lookup_lt_Some _ _ _ He) as Hlt. split.
  - destruct (decide (b = N.to_nat i)) as [->|Hne].
    + exists (N.to_nat i + 1). split; [lia|]. split; [lia|]. rewrite Nat.add_1_r, (take_S_r _ _ _ He), store_after_app. done.
    + exists b. split; [lia|]. split; [by intros ?%Hex|]. apply (apply_again L b (N.to_nat i) e He). lia.
  - exists (N.to_nat i), b, e. cbn. split; [lia|]. split; [lia|]. split; [done|]. split; [done|]. by destruct (Apply cmd _) as [[??]?].
Qed.
End LogStore.
