(* ===== verification/ReplicatedStore.v ===== *)
(** * A cluster of key-value servers

    The processes of internal/kv/server.go on top of RaftReplication's cluster:
    each running member is a [Process] of KVServer (its node, its store, the
    apply loop, the snapshot loop and the calls of [execute] in flight) whose
    node is the one the cluster sees.  A step is a step of the cluster between
    two messages, a step of one of a process's goroutines, the crash of a process
    between two critical sections, its death inside one or after a storage error
    ([KDie]), or its restart with an empty store, which is how cmd/distkv-server
    and internal/supervisor start one.  Logs are compacted, snapshots are stored,
    sent, installed and restored, under two conditions ([kevent_ok]) that the
    code does not enforce: the snapshot loop reads the store once it has caught up
    with the index it was asked for (see [early_snapshot_loses_write] of
    KVServerProperties), and a node that has applied more than a snapshot covers
    is not given it ([install_snapshot_rolls_back] of RaftProperties). *)
From S2P Require Import Prelude RaftTypes RaftNode RaftVotes RaftCluster RaftElection RaftLog RaftReplicate RaftFaults RaftService RaftHistory RaftCompaction RaftReplication RaftMoves RaftInvariant RaftRestart RaftSafety RaftOrigins RaftAgreement KVStore KVServer LogStore.

Section Model.
Context {S : Type} `{StorageSpec S} {codec : KVCodec}.
Abbreviation Process := (Process (S := S)).

Variable cfg_of : NodeID → Config.
(** The addresses [WithLeaderAddresses] is given at each member. *)
Variable addrs_of : NodeID → gmap NodeID string.

(** [kw_invoked] and [kw_log] are history: every command a client has called an
    endpoint with, and the longest log any node has counted as committed. *)
Record KWorld : Type := MkKWorld {
  kw_raft : RWorld S;
  kw_procs : gmap NodeID Process;
  kw_invoked : list KVCommand;
  kw_log : Entries;
}.

Inductive KEvent : Type :=
| KRaft (ev : REvent S)                      (* timers, elections, messages *)
| KServer (p : NodeID) (e : SvEvent (S := S))      (* a goroutine of the server at [p] *)
| KCrash (p : NodeID)                          (* between two critical sections *)
| KDie (p : NodeID) (st : S)                   (* inside one, or after a storage error *)
| KRestart (p : NodeID) (env : Env).

(** ** What the cluster does without the servers *)
(** The processes with the nodes as the cluster has them. *)
Definition reseat (R : RWorld S) (procs : gmap NodeID Process) : gmap NodeID Process :=
  map_imap (λ p P, Some match up_node (rw_world R) p with
                        | Some n => set_server (set_node n (p_server P)) P
                        | None => P
                        end) procs.

(** ** What the goroutines of a server do to its node *)
Definition server_event (e : SvEvent (S := S)) : bool :=
  match e with
  | EvNode _ => false
  | _ => true
  end.

Definition node_op (e : SvEvent (S := S)) (P : Process) : option LocalOp :=
  match e with
  | EvApply => Some (OpApply (p_applyPc P))
  | EvStep i =>
      match p_calls P !! i with
      | Some (Proposing cmd) =>
          match marshal_command cmd with inl payload => Some (OpPropose payload) | inr _ => None end
      | _ => None
      end
  | EvTrigger => Some OpTakeTrigger
  | EvSnapNode => match p_snap P with SnapReady index data => Some (OpSnapshot index data) | _ => None end
  | _ => None
  end.

Definition node_event (p : NodeID) (e : SvEvent (S := S)) (P : Process) : option Event :=
  EvLocal p <$> node_op e P.

(** The command an endpoint is called with. *)
Definition new_call (e : SvEvent (S := S)) : list KVCommand :=
  match e with EvCall (Proposing cmd) => [cmd] | _ => [] end.

(** ** The history

    A log and what a process has committed beyond it. *)
Definition extend_log (n : Node S) (C : Entries) : Entries :=
  C ++ take (N.to_nat (n_commitIndex n) - length C)
         (drop (length C - N.to_nat (n_lastIncludedIndex n)) (tail (n_log n))).

Definition note_committed (pr : Proc S) (C : Entries) : Entries :=
  match pr with Up n => if n_failed n then C else extend_log n C | Down _ => C end.

Definition longest_log (procs : gmap NodeID (Proc S)) (C : Entries) : Entries :=
  foldr (λ x, note_committed x.2) C (map_to_list procs).

Definition note_log (K : KWorld) : KWorld :=
  MkKWorld (kw_raft K) (kw_procs K) (kw_invoked K) (longest_log (w_procs (rw_world (kw_raft K))) (kw_log K)).

(** ** Steps *)
Definition kexec (ev : KEvent) (K : KWorld) : option KWorld :=
  match ev with
  | KRaft ev =>
      if raft_event ev then
        R' ← rexec cfg_of ev (kw_raft K);
        Some (note_log (MkKWorld R' (reseat R' (kw_procs K)) (kw_invoked K) (kw_log K)))
      else None
  | KServer p e =>
      P ← kw_procs K !! p;
      if server_event e then
        P' ← sv_exec e P;
        let R' := match node_op e P with
                  | Some _ => on_world (set_proc p (sv_node (p_server P'))) (kw_raft K)
                  | None => kw_raft K
                  end in
        Some (note_log (MkKWorld R' (<[p := P']> (kw_procs K)) (new_call e ++ kw_invoked K) (kw_log K)))
      else None
  | KCrash p =>
      R' ← rexec cfg_of (REvent_base (EvCrash p)) (kw_raft K);
      Some (MkKWorld R' (delete p (kw_procs K)) (kw_invoked K) (kw_log K))
  | KDie p st =>
      R' ← rexec cfg_of (REvent_reopen p st) (kw_raft K);
      Some (MkKWorld R' (delete p (kw_procs K)) (kw_invoked K) (kw_log K))
  | KRestart p env =>
      R' ← rexec cfg_of (REvent_base (EvRestart p env)) (kw_raft K);
      n ← up_node (rw_world R') p;
      Some (note_log (MkKWorld R' (<[p := NewProcess (NewServer n NewStore (addrs_of p))]> (kw_procs K))
                        (kw_invoked K) (kw_log K)))
  end.

(** [n] has not applied more than the snapshot covers, or ignores it. *)
Definition installs_ahead (n : Node S) (args : InstallSnapshotArgs) : Prop :=
  (is_LastIncludedIndex args ≤ n_lastIncludedIndex n)%N ∨ (n_lastApplied n ≤ is_LastIncludedIndex args)%N.

(** When the snapshot loop reads the store, it has got to the index asked for. *)
Definition snapshots_caught_up (e : SvEvent (S := S)) (P : Process) : Prop :=
  match e with
  | EvSnapStore => match p_snap P with SnapAsked index => (index ≤ p_at P)%N | _ => True end
  | _ => True
  end.

(** The assumptions of RaftReplication about the event, and the two about
    snapshots. *)
Definition kevent_ok (ev : KEvent) (K : KWorld) : Prop :=
  match ev with
  | KRaft (REvent_base ev) => event_ok cfg_of (rw_world (kw_raft K)) ev
  | KRaft (REvent_install q args _) => ∀ n, w_procs (rw_world (kw_raft K)) !! q = Some (Up n) → installs_ahead n args
  | KRaft _ => True
  | KServer p e => ∀ P, kw_procs K !! p = Some P →
      from_option (event_ok cfg_of (rw_world (kw_raft K))) True (node_event p e P) ∧ snapshots_caught_up e P
  | KCrash p => event_ok cfg_of (rw_world (kw_raft K)) (EvCrash p)
  | KDie _ _ => True
  | KRestart p env => event_ok cfg_of (rw_world (kw_raft K)) (EvRestart p env)
  end.

Definition kstep (K K' : KWorld) : Prop := ∃ ev, kevent_ok ev K ∧ kexec ev K = Some K'.

Variable members : list NodeID.

Definition kinitial (K : KWorld) : Prop :=
  rinitial members (kw_raft K) ∧ kw_procs K = ∅ ∧ kw_invoked K = [] ∧ kw_log K = [].

Inductive kreachable : KWorld → Prop :=
| kreach_init K : kinitial K → kreachable K
| kreach_step K K' : kreachable K → kstep K K' → kreachable K'.

(** A server that runs and whose node no storage error has disabled. *)
Definition running (K : KWorld) (p : NodeID) (P : Process) : Prop :=
  kw_procs K !! p = Some P ∧ n_failed (sv_node (p_server P)) = false.

End Model.

Arguments KWorld S : clear implicits.
