(* ===== verification/ReplicatedInvariant.v ===== *)
(** * The invariant of a cluster of key-value servers

    The messages on their way to the store of a running server lead it from
    where it is to where its node is, along the log the cluster has committed;
    every snapshot anywhere restores to a store at least as far as its index;
    every entry anywhere was put in the log for a client's call; and the history
    [kw_log] is committed and covers every node. *)
From S2P Require Import Prelude RaftTypes RaftNode RaftVotes RaftCluster RaftElection RaftLog RaftReplicate RaftFaults RaftService RaftHistory RaftCompaction RaftReplication RaftMoves RaftInvariant RaftRestart RaftSafety RaftOrigins RaftAgreement KVStore KVServer KVServerProperties LogStore ReplicatedStore.

(** ** One server *)
Section Server.
Context {S : Type} `{!Storage S} {codec : KVCodec}.
Implicit Types (P : Process (S := S)).

Lemma lift_server_Some {A} (m : GoM (Server (S := S)) A) P a P' :
  lift_server m P = Some (a, P') → ∃ s, m (p_server P) = Val (a, s) ∧ P' = set_server s P.
Proof. unfold lift_server. destruct (m (p_server P)) as [[x s]|]; [|done]. intros [= <- <-]. by exists s. Qed.

(** What a step of a call does, apart from [Propose]. *)
Lemma execute_step_quiet c :
  (∀ cmd payload, c = Proposing cmd → marshal_command cmd = inl payload → False) →
  ∀ s : Server (S := S), wp True (execute_step c) (λ r s', sv_node s' = sv_node s ∧ sv_store s' = sv_store s ∧
    ∀ cmd, r ≠ Some (Proposing cmd)) s.
Proof.
  intros Hc s. destruct c as [cmd|cmd why|cmd index|cmd index ch|cmd r]; cbn [execute_step].
  - unfold execute_propose. wp_step. destruct (marshal_command cmd) as [payload|err] eqn:Hm; [by destruct (Hc cmd payload)|].
    by do 2 wp_step.
  - by do 3 wp_step.
  - unfold execute_register. by wp_steps.
  - unfold execute_receive. do 2 wp_step. destruct (sv_chans s !! ch) as [[res|]|]; [|by wp_step..].
    do 3 wp_step. apply wp_lift_go; [|done]. intros c' Hc'. wp_step. split; [done|]. split; [done|].
    intros cmd' [= ->]. unfold answer in Hc'. destruct (_ || _); [done|]. by destruct (res_reply res).
  - by wp_step.
Qed.

(** ... and with it. *)
Lemma execute_step_propose cmd payload (s : Server (S := S)) r s' :
  marshal_command cmd = inl payload → execute_step (Proposing cmd) s = Val (r, s') →
  run_op (OpPropose payload) (sv_node s) = Val ((), sv_node s') ∧ sv_store s' = sv_store s ∧
  ∀ cmd', r ≠ Some (Proposing cmd').
Proof.
  cbn. unfold execute_propose, discard, mbind, GoM_bind. intros ->. unfold on_field.
  destruct (Propose payload (sv_node s)) as [[[[i t] l] n']|] eqn:Hp; [|done]. cbn. intros [= <- <-].
  split; [done|]. split; [done|]. intros cmd'. by destruct l.
Qed.

Lemma runApply_node msg P ok P' :
  inv P → lift_server (runApplyLoop_msg msg) P = Some (ok, P') → sv_node (p_server P') = sv_node (p_server P).
Proof.
  intros [Hw _]. unfold lift_server, runApplyLoop_msg, get, mbind, GoM_bind, modify. destruct msg as [command index t|snap i t].
  - destruct (Apply command _) as [[cmd reply] st].
    pose proof (deliver_spec (set_store st (p_server P)) index (MkResult cmd reply) (p_applied P) Hw) as Hd.
    destruct (wp_total _ _ _ Hd) as (b & s' & -> & _ & Hn & _). by intros [= <- <-].
  - destruct (Restore snap _) as [[err|] st]; [done|]. by intros [= <- <-].
Qed.

Lemma runApply_store command index t P ok P' :
  lift_server (runApplyLoop_msg (CommandMsg command index t)) P = Some (ok, P') →
  sv_store (p_server P') = (Apply command (sv_store (p_server P))).2 ∧ p_inHand P' = p_inHand P.
Proof.
  intros (s & Hrun & ->)%lift_server_Some. revert Hrun. unfold runApplyLoop_msg, get, mbind, GoM_bind, modify.
  destruct (Apply command _) as [[cmd reply] st]. intros Hrun. split; [|done].
  exact (wp_run _ _ _ _ _ _ (deliver_store index (MkResult cmd reply) (set_store st (p_server P))) Hrun).
Qed.

(** What the step of one call leaves of the process. *)
Lemma sv_step_call i P P' :
  sv_exec (EvStep i) P = Some P' → ∃ c c' s, p_calls P !! i = Some c ∧
    execute_step c (p_server P) = Val (Some c', s) ∧ P' = set_calls (<[i := c']> (p_calls P)) (set_server s P).
Proof.
  cbn. destruct (p_calls P !! i) as [c|]; [|done]. cbn.
  destruct (lift_server (execute_step c) P) as [[r P1]|] eqn:Hl; [|done]. cbn.
  destruct r as [c'|]; [|done]. intros [= <-]. apply lift_server_Some in Hl as (s & Hrun & ->). by exists c, c', s.
Qed.

Definition proposal (c : Call) : option bytes :=
  match c with
  | Proposing cmd => match marshal_command cmd with inl payload => Some payload | inr _ => None end
  | _ => None
  end.

Lemma node_op_step i P c :
  p_calls P !! i = Some c → node_op (EvStep i) P = OpPropose <$> proposal c.
Proof. intros Hc. cbn. rewrite Hc. destruct c as [cmd| | | |]; try done. cbn. by destruct (marshal_command cmd). Qed.

Lemma execute_step_node c (s : Server (S := S)) r s' :
  execute_step c s = Val (r, s') → sv_store s' = sv_store s ∧ (∀ cmd, r ≠ Some (Proposing cmd)) ∧
  match proposal c with
  | Some payload => run_op (OpPropose payload) (sv_node s) = Val ((), sv_node s')
  | None => sv_node s' = sv_node s
  end.
Proof.
  intros Hrun. destruct (proposal c) as [payload|] eqn:Hp.
  - unfold proposal in Hp. destruct c as [cmd| | | |]; try done.
    destruct (marshal_command cmd) eqn:Hm; [|done]. injection Hp as ->.
    by destruct (execute_step_propose _ _ _ _ _ Hm Hrun) as (? & ? & ?).
  - destruct (wp_run _ _ _ _ _ _ (execute_step_quiet c ltac:(unfold proposal in Hp; intros ?? -> Hm; by rewrite Hm in Hp) s) Hrun)
      as (? & ? & ?). done.
Qed.

Lemma leave_Some i err P P' :
  leave i err P = Some P' → ∃ cmd idx ch, P' = set_calls (<[i := Returned cmd (inr err)]> (p_calls P))
    (set_server (set_waiters (delete idx (sv_waiters (p_server P))) (p_server P)) P) ∧
    p_calls P !! i = Some (Waiting cmd idx ch).
Proof.
  unfold leave. destruct (p_calls P !! i) as [[| | |cmd idx ch|]|]; try done. cbn. intros [= <-]. by exists cmd, idx, ch.
Qed.

Lemma on_node_Some {A} (m : GoM (Node S) A) P a P' :
  lift_server (on_node m) P = Some (a, P') → ∃ n', m (sv_node (p_server P)) = Val (a, n') ∧
    P' = set_server (set_node n' (p_server P)) P.
Proof.
  intros (s & Hrun & ->)%lift_server_Some. unfold on_node, on_field in Hrun.
  destruct (m (sv_node (p_server P))) as [[x n']|] eqn:Hm; [|done]. injection Hrun as <- <-. by exists n'.
Qed.

(** The steps of the snapshot loop. *)
Lemma sv_trigger P P' :
  sv_exec EvTrigger P = Some P' → ∃ index n', p_snap P = SnapIdle ∧
    take_snapshot_trigger (sv_node (p_server P)) = Val (Some index, n') ∧
    P' = set_snap (SnapAsked index) (set_server (set_node n' (p_server P)) P).
Proof.
  cbn. unfold snapshot_step. destruct (p_snap P); try done.
  destruct (lift_server _ P) as [[r P1]|] eqn:Hl; [|done]. apply on_node_Some in Hl as (n' & Hr & ->).
  destruct r as [index|]; [|done]. intros [= <-]. by exists index, n'.
Qed.

Lemma sv_snap_store P P' :
  sv_exec EvSnapStore P = Some P' → ∃ index, p_snap P = SnapAsked index ∧
    (P' = set_snap SnapIdle P ∨ ∃ data, Store_Snapshot (sv_store (p_server P)) = inl data ∧ P' = set_snap (SnapReady index data) P).
Proof.
  cbn. unfold snapshot_step. destruct (p_snap P) as [|index|]; try done.
  destruct (Store_Snapshot _) as [data|]; intros [= <-]; exists index; (split; [done|]); [right; by exists data|by left].
Qed.

Lemma sv_snap_node P P' :
  sv_exec EvSnapNode P = Some P' → ∃ index data r n', p_snap P = SnapReady index data ∧
    Snapshot index data (sv_node (p_server P)) = Val (r, n') ∧
    P' = set_snap SnapIdle (set_server (set_node n' (p_server P)) P).
Proof.
  cbn. unfold snapshot_step. destruct (p_snap P) as [| |index data]; try done.
  destruct (lift_server _ P) as [[r P1]|] eqn:Hl; [|done]. apply on_node_Some in Hl as (n' & Hr & ->).
  intros [= <-]. by exists index, data, r, n'.
Qed.

Lemma sv_apply P P' :
  sv_exec EvApply P = Some P' → ∃ pc msg n', p_inHand P = None ∧
    applyLoop_step (p_applyPc P) (sv_node (p_server P)) = Val ((pc, msg), n') ∧
    P' = set_inHand msg (set_applyPc pc (set_server (set_node n' (p_server P)) P)).
Proof.
  cbn. destruct (p_inHand P); [done|]. destruct (lift_server _ P) as [[[pc msg] P1]|] eqn:Hl; [|done].
  apply on_node_Some in Hl as (n' & Hr & ->). intros [= <-]. by exists pc, msg, n'.
Qed.

(** What a goroutine's step does to the node. *)
Lemma server_node e P P' :
  inv P → server_event e = true → sv_exec e P = Some P' →
  match node_op e P with
  | Some op => run_op op (sv_node (p_server P)) = Val ((), sv_node (p_server P'))
  | None => sv_node (p_server P') = sv_node (p_server P)
  end.
Proof.
  intros Hi Hse Hx. destruct e as [c|i|i|i|m| | | | | | |]; try done.
  - cbn in Hx. destruct (is_new_call c); [|done]. by injection Hx as <-.
  - apply sv_step_call in Hx as (c & c' & s & Hc & Hrun & ->). rewrite (node_op_step _ _ _ Hc).
    destruct (execute_step_node _ _ _ _ Hrun) as (_ & _ & Hn). by destruct (proposal c).
  - by apply leave_Some in Hx as (? & ? & ? & -> & _).
  - cbn in Hx. destruct (sv_stopped _); [|done]. by apply leave_Some in Hx as (? & ? & ? & -> & _).
  - apply sv_apply in Hx as (pc & msg & n' & _ & Hr & ->). cbn. unfold discard, mbind, GoM_bind. by rewrite Hr.
  - cbn in Hx. destruct (p_inHand P); [|done]. destruct (Nat.leb _ _); [|done]. by injection Hx as <-.
  - cbn in *. unfold receive in Hx. destruct (p_applyCh P) as [|msg rest]; [done|]. cbv zeta in Hx.
    destruct (lift_server (runApplyLoop_msg msg) P) as [[[|] P1]|] eqn:Hl; try done. injection Hx as <-.
    by apply (runApply_node _ _ _ _ Hi Hl).
  - apply sv_trigger in Hx as (index & n' & _ & Hr & ->). cbn. unfold discard, mbind, GoM_bind. by rewrite Hr.
  - by apply sv_snap_store in Hx as (index & _ & [->|(data & _ & ->)]).
  - apply sv_snap_node in Hx as (index & data & r & n' & Hs & Hr & ->). cbn. rewrite Hs. cbn.
    unfold discard, mbind, GoM_bind. by rewrite Hr.
  - by injection Hx as <-.
Qed.

(** ** What the store has been handed

    Along the log [L]: the store, what it has answered, what is on its way to
    it, and the snapshot that is on its way from it. *)
Record fed (L : Entries) P : Prop := {
  fd_follows : follows L P;
  fd_queue : leads L (p_applyCh P ++ option_list (p_inHand P) ++ option_list (n_pendingSnapshot (sv_node (p_server P))))
               (p_at P) (n_lastApplied (sv_node (p_server P)));
  fd_snap i data : p_snap P = SnapReady i data → snapshot_of L i data;
}.

Lemma fed_prefix L L' P : L `prefix_of` L' → fed L P → fed L' P.
Proof.
  intros Hp [Hs Hq Hsn]. split.
  - by eapply follows_prefix.
  - by eapply leads_prefix.
  - intros i data ?%Hsn. by eapply snapshot_prefix.
Qed.

(** The node is where it was, and so is the snapshot it has for the store. *)
Definition same_place (n n' : Node S) : Prop :=
  n_lastApplied n' = n_lastApplied n ∧ n_pendingSnapshot n' = n_pendingSnapshot n.

Lemma same_place_applied n n' : same_applied n n' → same_place n n'.
Proof. by intros (? & ? & _)%same_applied_inv. Qed.

Lemma fed_same L P P' :
  p_at P' = p_at P → p_restored P' = p_restored P → p_applied P' = p_applied P → sv_store (p_server P') = sv_store (p_server P) →
  p_applyCh P' ++ option_list (p_inHand P') = p_applyCh P ++ option_list (p_inHand P) →
  (∀ i data, p_snap P' = SnapReady i data → p_snap P = SnapReady i data ∨ snapshot_of L i data) →
  same_place (sv_node (p_server P)) (sv_node (p_server P')) → fed L P → fed L P'.
Proof.
  intros E1 E0 E2 E3 E4 E5 [E6 E7] [[] Hq Hsn]. split.
  - by split; rewrite ?E1, ?E0, ?E2, ?E3.
  - rewrite E1, E6, E7. by rewrite app_assoc, E4, <- app_assoc.
  - intros i data [?|?]%E5; [by apply Hsn|done].
Qed.

Lemma fed_receive L P P' :
  same_place (sv_node (p_server P)) (sv_node (p_server P')) → fed L P → receive P = Some P' → fed L P'.
Proof.
  intros [E6 E7] [[Hs Ha He] Hq Hsn]. unfold receive. destruct (p_applyCh P) as [|msg rest] eqn:Hc; [done|]. cbv zeta.
  destruct (lift_server _ P) as [[[|] P1]|] eqn:Hl; try done. intros [= <-]. cbn in E6, E7.
  destruct msg as [cmd k t|snap k t]; destruct Hq as (Hk & Hm & Hq); cbn [msg_index].
  - destruct (runApply_store _ _ _ _ _ _ Hl) as [Hst _]. apply lift_server_Some in Hl as (s & _ & ->).
    destruct (apply_next _ _ _ _ _ _ _ Hs Hm Hk) as [Hs' Ha']. cbn in Hst, E6, E7. split; cbn; [|by rewrite E6, E7|exact Hsn].
    split; cbn; rewrite ?Hst; [done| |].
    + destruct (Apply cmd _) as [[c r] st]. by constructor.
    + intros Hr. specialize (He Hr). rewrite Hk, N2Nat.inj_add, Nat.add_1_r, (take_S_r _ _ _ Hm), apply_entries_snoc, He.
      unfold apply_entry. cbn. rewrite <- Hk. by destruct (Apply cmd _) as [[c r] st].
  - apply lift_server_Some in Hl as (s & Hrun & ->). cbn in E6, E7. destruct Hm as [_ Hr].
    destruct (Hr (sv_store (p_server P))) as (st & Hst & Href).
    unfold runApplyLoop_msg, get, mbind, GoM_bind, modify in Hrun. rewrite Hst in Hrun. injection Hrun as <-.
    split; [split; cbn; [done| |done]|exact Hq|exact Hsn].
    eapply Forall_impl; [exact Ha|]. intros x. apply answers_ahead.
Qed.

Lemma fed_step {spec : KVCodecSpec} L e P P' :
  server_event e = true → e ≠ EvApply → snapshots_caught_up e P → sv_exec e P = Some P' →
  same_place (sv_node (p_server P)) (sv_node (p_server P')) → fed L P → fed L P'.
Proof.
  intros Hse Hne Hcu Hx Hsp Hf. destruct e as [c|i|i|i|m| | | | | | |]; try done.
  - cbn in Hx. destruct (is_new_call c); [|done]. injection Hx as <-. apply (fed_same L P); auto.
  - apply sv_step_call in Hx as (c & c' & s & Hc & Hrun & ->).
    destruct (execute_step_node _ _ _ _ Hrun) as (Hst & _ & _). apply (fed_same L P); auto.
  - apply leave_Some in Hx as (? & ? & ? & -> & _). apply (fed_same L P); auto.
  - cbn in Hx. destruct (sv_stopped _); [|done]. apply leave_Some in Hx as (? & ? & ? & -> & _). apply (fed_same L P); auto.
  - cbn in Hx. destruct (p_inHand P) as [msg|] eqn:Hin; [|done]. destruct (Nat.leb _ _); [|done].
    injection Hx as <-. apply (fed_same L P); auto. cbn. by rewrite Hin, app_nil_r.
  - by eapply fed_receive.
  - apply sv_trigger in Hx as (index & n' & _ & _ & ->). by apply (fed_same L P).
  - apply sv_snap_store in Hx as (index & Hi & [->|(data & Hd & ->)]); apply (fed_same L P); try done.
    intros ?? [= <- <-]. right. cbn in Hcu. rewrite Hi in Hcu. by eapply reflects_snapshot; [apply (fo_store _ _ (fd_follows _ _ Hf))|..].
  - apply sv_snap_node in Hx as (index & data & r & n' & _ & _ & ->). by apply (fed_same L P).
  - injection Hx as <-. apply (fed_same L P); auto.
Qed.

(** A turn of the apply loop, when what it takes from the log is what [L] has. *)
Lemma applyLoop_pending (n : Node S) pc :
  wp True (applyLoop_step pc) (λ r n', n_pendingSnapshot n' = n_pendingSnapshot n ∨
    (r.2 = n_pendingSnapshot n ∧ n_pendingSnapshot n' = None)) n.
Proof.
  assert (wp True applyLoop_inner (λ _ n', n_pendingSnapshot n' = n_pendingSnapshot n) n) as Hin.
  { unfold applyLoop_inner. do 3 wp_step; [|by wp_step]. do 5 wp_step.
    apply wp_lift_go; [|done]. intros entry _. by wp_step. }
  assert (wp True applyLoop_inner (λ r n', n_pendingSnapshot n' = n_pendingSnapshot n ∨
    (r.2 = n_pendingSnapshot n ∧ n_pendingSnapshot n' = None)) n) as Hin'.
  { eapply wp_mono; [|exact Hin]. cbn. intros r n'. by left. }
  unfold applyLoop_step. do 2 wp_step. destruct pc.
  - destruct (n_pendingSnapshot n) as [m|] eqn:Hp; [|done]. repeat wp_step. by right.
  - destruct (n_pendingSnapshot n) as [m|] eqn:Hp; [|done]. wp_step. by left.
  - destruct (n_applyWake n); repeat wp_step; by left.
Qed.

(** ** The calls under way *)
Definition calls_from (cmds : list KVCommand) P : Prop := ∀ cmd, Proposing cmd ∈ p_calls P → cmd ∈ cmds.

Lemma calls_from_insert cmds P P' i c :
  p_calls P' = <[i := c]> (p_calls P) → (∀ cmd, c ≠ Proposing cmd) → calls_from cmds P → calls_from cmds P'.
Proof.
  intros E Hc Hf cmd. rewrite E. intros [j Hj]%list_elem_of_lookup.
  apply list_lookup_insert_Some in Hj as [(_ & Heq & _)|[_ Hj]]; [by destruct (Hc cmd)|].
  apply Hf. by eapply list_elem_of_lookup_2.
Qed.

Lemma calls_from_same cmds P P' : p_calls P' = p_calls P → calls_from cmds P → calls_from cmds P'.
Proof. intros E Hf cmd. rewrite E. apply Hf. Qed.

Lemma calls_from_step cmds e P P' :
  server_event e = true → sv_exec e P = Some P' → calls_from cmds P → calls_from (new_call e ++ cmds) P'.
Proof.
  intros Hse Hx Hf. destruct e as [c|i|i|i|m| | | | | | |]; try done.
  - cbn in *. destruct c as [cmd| | | |]; try done. injection Hx as <-. intros cmd'. cbn.
    intros [?| [= ->]%list_elem_of_singleton]%elem_of_app; [right; by apply Hf|by left].
  - apply sv_step_call in Hx as (c & c' & s & Hc & Hrun & ->).
    destruct (execute_step_node _ _ _ _ Hrun) as (_ & Hn & _). eapply calls_from_insert; [done| |done].
    intros cmd ->. by destruct (Hn cmd).
  - apply leave_Some in Hx as (? & ? & ? & -> & _). by eapply calls_from_insert.
  - cbn in Hx. destruct (sv_stopped _); [|done]. apply leave_Some in Hx as (? & ? & ? & -> & _). by eapply calls_from_insert.
  - apply sv_apply in Hx as (pc & msg & n' & _ & _ & ->). exact Hf.
  - cbn in Hx. destruct (p_inHand P); [|done]. destruct (Nat.leb _ _); [|done]. by injection Hx as <-.
  - cbn in Hx. unfold receive in Hx. destruct (p_applyCh P) as [|msg rest]; [done|]. cbv zeta in Hx.
    destruct (lift_server _ P) as [[[|] P1]|] eqn:Hl; try done. injection Hx as <-.
    apply lift_server_Some in Hl as (s & _ & ->). exact Hf.
  - apply sv_trigger in Hx as (index & n' & _ & _ & ->). exact Hf.
  - by apply sv_snap_store in Hx as (index & _ & [->|(data & _ & ->)]).
  - apply sv_snap_node in Hx as (index & data & r & n' & _ & _ & ->). exact Hf.
  - by injection Hx as <-.
Qed.
End Server.

(** ** The cluster *)
Section Cluster.
Context {S : Type} `{StorageSpec S} {codec : KVCodec} {spec : KVCodecSpec}.
Implicit Types (P : Process (S := S)) (n : Node S) (R : RWorld S) (h : Hist) (K : KWorld S).
Variable members : list NodeID.
Variable cfg_of : NodeID → Config.
Variable addrs_of : NodeID → gmap NodeID string.
Hypothesis Hwf : cluster_wf (S := S) members cfg_of.
Hypothesis Hodd : Nat.Odd (length members).

Abbreviation RInv := (RInv members cfg_of).

(** Put in the log for one of the calls [cmds]. *)
Definition from_clients (cmds : list KVCommand) (e : LogEntry) : Prop :=
  ∃ c, c ∈ cmds ∧ marshal_command c = inl (Command e).

Lemma from_clients_mono cmds cmds' e : cmds ⊆ cmds' → from_clients cmds e → from_clients cmds' e.
Proof. intros Hs (c & Hc & ?). exists c. split; [by apply Hs|done]. Qed.

Record sourced (cmds : list KVCommand) R : Prop := {
  so_up p n : enabled R p n → Forall (from_clients cmds) (tail (n_log n));
  so_down p st : found R p st → Forall (from_clients cmds) (tail (Log (view st)));
  so_request q args : (q, args) ∈ rw_requests R → Forall (from_clients cmds) (ae_Entries args);
}.

Lemma sourced_mono cmds cmds' R : cmds ⊆ cmds' → sourced cmds R → sourced cmds' R.
Proof.
  intros Hs [Hu Hd Hr].
  split; intros; (eapply Forall_impl; [eauto|]); intros e; by apply from_clients_mono.
Qed.

Lemma sourced_plain cmds R R' : plain_step (from_clients cmds) R R' → sourced cmds R → sourced cmds R'.
Proof.
  intros [Hu Hd _ Hr _] [Su Sd Sr]. split.
  - intros p n' [Hp Hf]. destruct (Hu _ _ Hp) as (n & Hn & [[Hf0 _ Hl]%(λ m, m Hf) _]). apply Forall_forall.
    intros e [He|?]%Hl; [|done]. eapply Forall_forall; [|exact He]. by eapply Su.
  - intros p st [Hp|(n & Hn & [_ _ Hl])]%Hd; [by eapply Sd|]. apply Forall_forall.
    intros e [He|?]%Hl; [|done]. eapply Forall_forall; [|exact He]. by eapply Su.
  - intros q args [Hin|(p & n & Hn & Hsub)]%Hr; [by eapply Sr|]. apply Forall_forall.
    intros e He%Hsub. eapply Forall_forall; [|exact He]. by eapply Su.
Qed.

(** The replacement of one process. *)
Lemma sourced_proc cmds R R' p pr :
  w_procs (rw_world R') = <[p := pr]> (w_procs (rw_world R)) → rw_requests R' = rw_requests R →
  (∀ n, pr = Up n → n_failed n = false → Forall (from_clients cmds) (tail (n_log n))) →
  (∀ st, (pr = Down st ∨ ∃ n, pr = Up n ∧ n_failed n = true ∧ reopened (n_storage n) st) →
     Forall (from_clients cmds) (tail (Log (view st)))) →
  sourced cmds R → sourced cmds R'.
Proof.
  intros Ew Er Hu Hd [Su Sd Sr]. split; rewrite ?Er; [| |done].
  - intros q n [Hq Hf]. rewrite Ew in Hq. apply lookup_insert_Some in Hq as [[<- ->]|[_ Hq]]; [by eapply Hu|].
    by eapply Su.
  - intros q st [?|Hor]%(found_proc _ _ _ _ _ _ Ew); [by eapply Sd|by apply Hd].
Qed.

(** What a process that the step disables leaves. *)
Lemma sourced_sheds cmds R p n n' st :
  sourced cmds R → w_procs (rw_world R) !! p = Some (Up n) → sheds (from_clients cmds) n n' →
  n_failed n' = true → reopened (n_storage n') st → Forall (from_clients cmds) (tail (Log (view st))).
Proof.
  intros [Su Sd _] Hp Hsh Hf' Hre. unfold sheds in Hsh. destruct (n_failed n) eqn:Hf.
  - apply (Sd p). right. exists n. by rewrite <- Hsh.
  - destruct (Hsh Hf' st Hre) as [_ Hl]. apply Forall_forall. intros e [He|?]%Hl; [|done].
    eapply Forall_forall; [|exact He]. by apply (Su p).
Qed.

(** A process keeps what it had, or some of it. *)
Lemma sourced_kept cmds R R' p n n' :
  w_procs (rw_world R) !! p = Some (Up n) → (n_failed n' = false → n_failed n = false ∧ tail (n_log n') ⊆ tail (n_log n)) →
  sheds (from_clients cmds) n n' → w_procs (rw_world R') = <[p := Up n']> (w_procs (rw_world R)) → rw_requests R' = rw_requests R →
  sourced cmds R → sourced cmds R'.
Proof.
  intros Hp Hk Hsh Hw Hr Hs. eapply sourced_proc; [done|done| | |done].
  - intros n1 [= <-] Hf'. destruct (Hk Hf') as [Hf Hsub].
    apply Forall_forall. intros e He%Hsub. eapply Forall_forall; [|exact He]. by eapply (so_up _ _ Hs p).
  - intros st [?|(n1 & [= <-] & Hf & Hre)]; [done|by eapply sourced_sheds].
Qed.

Lemma subseteq_tail {A} (l : list A) : tail l ⊆ l.
Proof. destruct l as [|x l]; [done|]. intros y. by right. Qed.

Lemma subseteq_tail_drop {A} k (l : list A) : tail (drop k l) ⊆ tail l.
Proof.
  destruct l as [|x l]; [by rewrite drop_nil|]. destruct k as [|k]; [done|]. cbn.
  intros y Hy%subseteq_tail. by apply subseteq_drop in Hy.
Qed.

Lemma fed_apply L P P' :
  node_ok (sv_node (p_server P)) → sv_exec EvApply P = Some P' →
  (∀ e, n_log (sv_node (p_server P)) !! N.to_nat (Index e - n_lastIncludedIndex (sv_node (p_server P))) = Some e →
     Index e = (n_lastApplied (sv_node (p_server P)) + 1)%N → (Index e ≤ n_commitIndex (sv_node (p_server P)))%N →
     L !! N.to_nat (n_lastApplied (sv_node (p_server P))) = Some e) →
  fed L P → fed L P'.
Proof.
  intros Hok (pc & msg & n' & Hin & Hr & ->)%sv_apply HL [Hs Hq Hsn].
  destruct (wp_run _ _ _ _ _ _ (applyLoop_spec _ _ Hok) Hr) as (_ & _ & _ & Hd). cbn in Hd.
  pose proof (wp_run _ _ _ _ _ _ (applyLoop_pending _ _) Hr) as Hp. cbn in Hp.
  rewrite Hin in Hq. cbn in Hq. split; cbn; [by destruct Hs| |done].
  destruct Hd as [[-> Hla]|[(_ & -> & Hpe & Hla)|(e & Hno & -> & He & Hi & Hc & Hla)]]; rewrite Hla.
  - assert (n_pendingSnapshot n' = n_pendingSnapshot (sv_node (p_server P))) as -> by (destruct Hp as [?|[<- ?]]; done). done.
  - by rewrite Hpe, app_nil_r.
  - assert (n_pendingSnapshot n' = None) as -> by (destruct Hp as [->|[_ ?]]; done).
    rewrite Hno, app_nil_r in Hq. rewrite app_nil_r. apply leads_app. eexists. split; [exact Hq|]. cbn.
    split; [done|]. split; [|done]. rewrite (HL e He Hi Hc). by destruct e.
Qed.

(** ** The history of committed entries *)
Definition log_ok h R (C : Entries) : Prop := (∃ T, commits members h T C (length C)) ∧ all_track R C.

(** The log of a node that has committed more continues the history. *)
Lemma extend_log_spec h R C T p n :
  RInv h R → commits members h T C (length C) → enabled R p n → N.to_nat (n_lastIncludedIndex n) ≤ length C →
  C `prefix_of` extend_log n C ∧ (∃ T', commits members h T' (extend_log n C) (length (extend_log n C))) ∧
  N.to_nat (n_commitIndex n) ≤ length (extend_log n C).
Proof.
  intros HR HC Hen Hlii. split; [by apply prefix_app_r|].
  destruct (enabled_inv members cfg_of _ _ _ _ HR Hen) as [L Hn]. destruct (node_bounds _ _ _ _ _ Hn) as [_ Hb].
  destruct (Nat.le_gt_cases (N.to_nat (n_commitIndex n)) (length C)) as [Hle|Hgt]; unfold extend_log.
  { replace (N.to_nat (n_commitIndex n) - length C) with 0 by lia. rewrite take_0, app_nil_r. by split; [exists T|]. }
  assert (C ++ take (N.to_nat (n_commitIndex n) - length C)
    (drop (length C - N.to_nat (n_lastIncludedIndex n)) (tail (n_log n))) = take (N.to_nat (n_commitIndex n)) L) as ->.
  { rewrite (wh_tail _ _ (pl_whole _ _ _ _ (ni_log _ _ _ _ _ Hn))).
    rewrite (wf_first _ (proj1 (proj2 (proj1 (ni_service _ _ _ _ _ Hn))))), drop_drop.
    replace (N.to_nat (n_lastIncludedIndex n) + (length C - N.to_nat (n_lastIncludedIndex n))) with (length C) by lia.
    pose proof (commits_prefix members cfg_of Hodd h R _ _ _ _ _ _ (length C) HR HC (ni_commit _ _ _ _ _ Hn) ltac:(lia) ltac:(lia)) as E.
    rewrite (take_ge C) in E by lia. rewrite E at 1.
    rewrite <- (take_drop (length C) (take (N.to_nat (n_commitIndex n)) L)), take_take, Nat.min_l by lia.
    by rewrite skipn_firstn_comm. }
  destruct (commits_take members _ _ _ _ Hn) as [Hl Hcm]. split; [by exists (n_currentTerm n)|]. lia.
Qed.

Lemma longest_log_spec h R C T (ps : list (NodeID * Proc S)) :
  RInv h R → commits members h T C (length C) → compacted R (N.of_nat (length C)) →
  (∀ p pr, (p, pr) ∈ ps → w_procs (rw_world R) !! p = Some pr) →
  let C' := foldr (λ x, note_committed x.2) C ps in
  C `prefix_of` C' ∧ (∃ T', commits members h T' C' (length C')) ∧
  (∀ p n, (p, Up n) ∈ ps → n_failed n = false → N.to_nat (n_commitIndex n) ≤ length C') ∧
  ∀ e, e ∈ C' → e ∈ C ∨ ∃ p n, enabled R p n ∧ e ∈ tail (n_log n).
Proof.
  intros HR HC Hcp. induction ps as [|[p pr] ps IH]; intros Hps; cbn.
  { split; [done|]. split; [by exists T|]. split; [by intros ?? ?%not_elem_of_nil|by left]. }
  destruct IH as (Hp1 & [T1 HC1] & Hall1 & Hor1); [intros; apply Hps; by right|]. set (C1 := foldr _ C ps) in *.
  pose proof (prefix_length _ _ Hp1) as Hl1.
  destruct pr as [n|st]; cbn.
  2:{ split; [done|]. split; [by exists T1|]. split; [|done]. intros q nq [?|Hin]%elem_of_cons; [done|by eapply Hall1]. }
  destruct (n_failed n) eqn:Hf.
  { split; [done|]. split; [by exists T1|]. split; [|done].
    intros q nq [[= -> ->]|Hin]%elem_of_cons Hfq; [congruence|by eapply Hall1]. }
  assert (enabled R p n) as Hen by (split; [apply Hps; by left|done]).
  destruct (extend_log_spec h R C1 T1 p n) as (Hp2 & HC2 & Hl2); [done|done|done|pose proof (cp_up _ _ _ _ Hcp Hen); lia|].
  split; [by etrans|]. split; [done|]. pose proof (prefix_length _ _ Hp2). split.
  - intros q nq [[= -> ->]|Hin]%elem_of_cons Hfq; [done|]. specialize (Hall1 _ _ Hin Hfq). lia.
  - intros e [?%Hor1|He]%elem_of_app; [done|right]. exists p, n. split; [done|].
    apply subseteq_take, subseteq_drop in He. done.
Qed.

Lemma note_log_ok h h' K K' :
  log_ok h (kw_raft K) (kw_log K) → hist_le h h' → RInv h' (kw_raft K') → kw_log K' = kw_log K →
  compacted (kw_raft K') (N.of_nat (length (kw_log K))) → Forall (from_clients (kw_invoked K')) (kw_log K) →
  sourced (kw_invoked K') (kw_raft K') →
  log_ok h' (kw_raft K') (kw_log (note_log K')) ∧ kw_log K `prefix_of` kw_log (note_log K') ∧
  Forall (from_clients (kw_invoked K')) (kw_log (note_log K')).
Proof.
  intros [[T HC] _] Hle HR' El Hcp Hsrc Hso.
  destruct (longest_log_spec h' (kw_raft K') (kw_log K) T (map_to_list (w_procs (rw_world (kw_raft K')))))
    as (Hp & [T' HC'] & Hall & Hor); [done|by eapply commits_grow|done|by intros p pr Hin%elem_of_map_to_list|].
  unfold note_log, longest_log, log_ok. cbn [kw_log kw_raft]. rewrite El. split; [split; [by exists T'|]|split; [done|]].
  - intros p n Hen. pose proof Hen as [Hn Hf]. eapply (commits_track members cfg_of Hodd); [exact HR'|exact HC'|exact Hen|].
    apply (Hall p n); [by apply elem_of_map_to_list|done].
  - apply Forall_forall. intros e [He|(p & n & Hen & He)]%Hor.
    + by eapply (proj1 (Forall_forall _ _) Hsrc).
    + eapply Forall_forall; [|exact He]. by eapply so_up.
Qed.

(** ** The invariant *)
Record server_ok K (p : NodeID) P : Prop := {
  sk_node : w_procs (rw_world (kw_raft K)) !! p = Some (Up (sv_node (p_server P)));
  sk_inv : inv P;
  sk_calls : calls_from (kw_invoked K) P;
  sk_fed : n_failed (sv_node (p_server P)) = false → fed (kw_log K) P;
}.

Record KInv h K : Prop := {
  ki_raft : RInv h (kw_raft K);
  ki_server p P : kw_procs K !! p = Some P → server_ok K p P;
  ki_up p n : w_procs (rw_world (kw_raft K)) !! p = Some (Up n) → is_Some (kw_procs K !! p);
  ki_log : log_ok h (kw_raft K) (kw_log K);
  ki_log_sourced : Forall (from_clients (kw_invoked K)) (kw_log K);
  ki_sourced : sourced (kw_invoked K) (kw_raft K);
  ki_snapshots : snapshots (snapshot_of (kw_log K)) (kw_raft K);
}.

(** What a step leaves. *)
Definition kpreserved h K K' : Prop :=
  ∃ h', hist_le h h' ∧ KInv h' K' ∧ kw_log K `prefix_of` kw_log K' ∧ kw_invoked K ⊆ kw_invoked K'.

Lemma snapshots_compacted R L : snapshots (snapshot_of L) R → compacted R (N.of_nat (length L)).
Proof. apply snapshots_mono. intros i snap [Hi _]. lia. Qed.

Lemma reseat_lookup R (procs : gmap NodeID (Process (S := S))) p P n :
  procs !! p = Some P → w_procs (rw_world R) !! p = Some (Up n) →
  reseat R procs !! p = Some (set_server (set_node n (p_server P)) P).
Proof. intros HP Hn. unfold reseat. rewrite map_lookup_imap, HP. cbn. unfold up_node. by rewrite Hn. Qed.

Lemma reseat_inv R (procs : gmap NodeID (Process (S := S))) p P' :
  reseat R procs !! p = Some P' → ∃ P, procs !! p = Some P.
Proof. unfold reseat. rewrite map_lookup_imap. destruct (procs !! p) as [P|]; [by exists P|done]. Qed.

(** The rest of the invariant, once the cluster and the servers are known. *)
Lemma KInv_noted h h' K K' :
  KInv h K → hist_le h h' → RInv h' (kw_raft K') → kw_log K' = kw_log K → kw_invoked K ⊆ kw_invoked K' →
  (∀ p P, kw_procs K' !! p = Some P → server_ok K' p P) →
  (∀ p n, w_procs (rw_world (kw_raft K')) !! p = Some (Up n) → is_Some (kw_procs K' !! p)) →
  sourced (kw_invoked K') (kw_raft K') → snapshots (snapshot_of (kw_log K)) (kw_raft K') →
  kpreserved h K (note_log K').
Proof.
  intros [HR Hs Hu Hl Hls Hso _] Hle HR' El Hinv Hs' Hu' Hso' Hsn'.
  destruct (note_log_ok h h' K K' Hl Hle HR' El (snapshots_compacted _ _ Hsn')) as (Hl' & Hp & Hls'); [|done|].
  { eapply Forall_impl; [done|]. intros e. by apply from_clients_mono. }
  exists h'. split; [done|]. split; [|done]. split; try done.
  - intros p P HP. destruct (Hs' p P HP) as [Hn Hi Hc Hf]. split; [done..|]. intros Hnf. specialize (Hf Hnf).
    rewrite El in Hf. by eapply fed_prefix.
  - eapply snapshots_mono; [|exact Hsn']. intros i snap. by apply snapshot_prefix.
Qed.

(** *** The cluster moves without the servers *)

(** The node stays where it was, or jumps forward to a snapshot it is to hand on. *)
Definition node_step (L : Entries) n n' : Prop :=
  n_failed n' = false → n_failed n = false ∧
  (same_place n n' ∨ (n_lastApplied n ≤ n_lastApplied n')%N ∧ ∃ snap t,
     n_pendingSnapshot n' = Some (SnapshotMsg snap (n_lastApplied n') t) ∧ snapshot_of L (n_lastApplied n') snap).

Lemma fed_node_step L P n' :
  node_step L (sv_node (p_server P)) n' → n_failed n' = false →
  (n_failed (sv_node (p_server P)) = false → fed L P) → fed L (set_server (set_node n' (p_server P)) P).
Proof.
  intros Hns Hf' HP. destruct (Hns Hf') as [Hf Hor]. destruct (HP Hf) as [Hs Hq Hsn].
  destruct Hor as [Hsp|(Hle & snap & t & Hp & Hso)]; [by apply (fed_same L P); auto|].
  split; cbn; [by destruct Hs| |done]. rewrite Hp. rewrite app_assoc in Hq |- *.
  apply leads_app in Hq as (k & Hq1 & Hq2%leads_le). apply leads_app. exists k. split; [done|]. cbn.
  split; [lia|]. by split.
Qed.

Lemma raft_nodes h K ev R' :
  KInv h K → raft_event ev = true → kevent_ok cfg_of (KRaft ev) K → rexec cfg_of ev (kw_raft K) = Some R' →
  (∀ p n', w_procs (rw_world R') !! p = Some (Up n') →
     ∃ n, w_procs (rw_world (kw_raft K)) !! p = Some (Up n) ∧ node_step (kw_log K) n n') ∧
  (∀ p n, w_procs (rw_world (kw_raft K)) !! p = Some (Up n) → ∃ n', w_procs (rw_world R') !! p = Some (Up n')) ∧
  sourced (kw_invoked K) R'.
Proof.
  intros HK Hev Hok Hx. pose proof HK as [HR _ _ _ _ Hso Hsn]. destruct (installs_none ev) eqn:Hin.
  - pose proof (plain_raft members cfg_of Hwf Hodd (from_clients (kw_invoked K)) _ _ _ _ HR Hev Hin
      ltac:(by destruct ev) (so_request _ _ Hso) Hx) as Hpl.
    split; [|split; [apply (ps_stays _ _ _ Hpl)|by eapply sourced_plain]].
    intros p n' Hn'. destruct (ps_up _ _ _ Hpl _ _ Hn') as (n & Hn & Hm). exists n. split; [done|].
    intros Hf'. destruct (proj1 Hm Hf') as [Hf Ha _]. split; [done|]. left. by apply same_place_applied.
  - destruct ev as [| | | | |q args e| |]; try done. cbn in Hx.
    apply bind_Some in Hx as (n & Hn%up_node_Some & Hif). case_bool_decide as Hg; [|done]. destruct Hg as [Hsent Hinst].
    apply run_some_Some in Hif as ([r n'] & Hr & Hk). cbn [fst snd] in Hk. injection Hk as <-.
    assert (w_procs (rw_world (add_install q args r (on_world (set_proc q n') (kw_raft K)))) =
      <[q := Up n']> (w_procs (rw_world (kw_raft K)))) as Hw by (by destruct r).
    assert (rw_requests (add_install q args r (on_world (set_proc q n') (kw_raft K))) =
      rw_requests (kw_raft K)) as Hrq by (by destruct r).
    pose proof (install_outcome members cfg_of Hwf Hodd _ _ _ _ _ _ _ _ HR Hsent Hn Hinst Hr) as Hio.
    split; [|split].
    + intros p n1. rewrite Hw. intros [[<- [= <-]]|[_ Hp]]%lookup_insert_Some.
      * exists n. split; [done|]. intros Hf'. destruct (Hio Hf') as [Hf Hor]. split; [done|].
        destruct Hor as [Hco|[Hlt Hi]]; [left; by apply same_place_applied, core_applied|right].
        destruct (Hok n Hn) as [?|Hla]; [lia|]. rewrite (ins_applied _ _ _ Hi), (ins_pending _ _ _ Hi), N.max_r by done.
        split; [done|]. do 2 eexists. split; [done|]. apply (sn_sent _ _ Hsn q); [done|lia].
      * exists n1. split; [done|]. intros Hf. split; [done|]. by left.
    + intros p n1 Hp. rewrite Hw. destruct (decide (q = p)) as [<-|Hne]; [exists n'; by rewrite lookup_insert_eq|].
      exists n1. by rewrite lookup_insert_ne.
    + eapply (sourced_kept _ _ _ q n n'); [done| |by eapply install_sheds|exact Hw|exact Hrq|exact Hso]. intros Hf'.
      destruct (Hio Hf') as [Hf [Hco|[_ Hi]]]; split; try done; [by rewrite (cf_log _ _ Hco)|].
      rewrite (ins_tail _ _ _ Hi). intros x Hx. rewrite <- Nat.add_1_l, <- drop_drop in Hx.
      apply subseteq_drop in Hx. by destruct (n_log n).
Qed.

Lemma raft_case h K ev R' :
  KInv h K → raft_event ev = true → kevent_ok cfg_of (KRaft ev) K →
  rexec cfg_of ev (kw_raft K) = Some R' →
  kpreserved h K (note_log (MkKWorld R' (reseat R' (kw_procs K)) (kw_invoked K) (kw_log K))).
Proof.
  intros HK Hev Hok Hx. pose proof HK as [HR Hs Hu Hl Hls Hso Hsn].
  assert (match ev with REvent_base ev => event_ok cfg_of (rw_world (kw_raft K)) ev | _ => True end) as Hok' by (by destruct ev).
  destruct (RInv_step members cfg_of Hwf Hodd _ _ _ HR (rexec_sound _ _ _ _ Hok' Hx)) as (h' & Hle & HR').
  destruct (raft_nodes _ _ _ _ HK Hev Hok Hx) as (Hup & Hstays & Hso').
  apply (KInv_noted h h'); try done.
  - cbn [kw_procs]. intros p P' HP'. destruct (reseat_inv _ _ _ _ HP') as [P HP]. destruct (Hs _ _ HP) as [Hn Hi Hc Hf].
    destruct (Hstays _ _ Hn) as [n' Hn']. rewrite (reseat_lookup _ _ _ _ _ HP Hn') in HP'. injection HP' as <-.
    split; [done|by eapply inv_same|exact Hc|]. cbn. intros Hf'.
    destruct (Hup _ _ Hn') as (n & Hn0 & Hns). rewrite Hn in Hn0. injection Hn0 as <-. by apply fed_node_step.
  - cbn [kw_raft kw_procs]. intros p n' Hn'. destruct (Hup _ _ Hn') as (n & Hn & _).
    destruct (Hu _ _ Hn) as [P HP]. eexists. by apply reseat_lookup.
  - eapply (snapshots_step members cfg_of Hwf Hodd _ h (kw_raft K) ev); [done|done| |done|done].
    by destruct ev as [[p []| | | | | |]| | | | | | |].
Qed.

(** The other servers do not notice. *)
Lemma other_server K K' p q P :
  server_ok K q P → p ≠ q → kw_invoked K ⊆ kw_invoked K' → kw_log K' = kw_log K →
  (w_procs (rw_world (kw_raft K')) !! q = w_procs (rw_world (kw_raft K)) !! q) → server_ok K' q P.
Proof. intros [Hn Hi Hc Hh] Hne Hsub El E. split; [by rewrite E|done| |by rewrite El]. intros cmd Hin. by apply Hsub, Hc. Qed.

(** The servers after the move of one. *)
Lemma servers_insert K K' p P' :
  (∀ q P, kw_procs K !! q = Some P → server_ok K q P) → server_ok K' p P' → kw_invoked K ⊆ kw_invoked K' →
  kw_log K' = kw_log K →
  (∀ q, p ≠ q → w_procs (rw_world (kw_raft K')) !! q = w_procs (rw_world (kw_raft K)) !! q) →
  ∀ q P, <[p := P']> (kw_procs K) !! q = Some P → server_ok K' q P.
Proof.
  intros Hs Hok Hsub El Hw q P [[<- <-]|[Hne HQ]]%lookup_insert_Some; [done|].
  eapply other_server; [by apply Hs|done..|by apply Hw].
Qed.

Lemma ups_insert K w p P' :
  (∀ q n, w_procs w !! q = Some (Up n) → p ≠ q → w_procs (rw_world (kw_raft K)) !! q = Some (Up n)) →
  (∀ q n, w_procs (rw_world (kw_raft K)) !! q = Some (Up n) → is_Some (kw_procs K !! q)) →
  ∀ q n, w_procs w !! q = Some (Up n) → is_Some (<[p := P']> (kw_procs K) !! q).
Proof.
  intros Hw Hu q n Hq. destruct (decide (p = q)) as [<-|Hne]; [by rewrite lookup_insert_eq|].
  rewrite lookup_insert_ne by done. by eapply Hu, Hw.
Qed.

(** *** Crash and restart *)
Lemma down_server_case h K p ev st R' :
  KInv h K → match ev with REvent_base ev => event_ok cfg_of (rw_world (kw_raft K)) ev | _ => True end →
  (∀ Q, offers_only Q ev (kw_raft K)) → rexec cfg_of ev (kw_raft K) = Some R' →
  w_procs (rw_world R') = <[p := Down st]> (w_procs (rw_world (kw_raft K))) → rw_requests R' = rw_requests (kw_raft K) →
  Forall (from_clients (kw_invoked K)) (tail (Log (view st))) →
  kpreserved h K (MkKWorld R' (delete p (kw_procs K)) (kw_invoked K) (kw_log K)).
Proof.
  intros HK Hok Hof Hx Ew Er Hst. pose proof HK as [HR Hs Hu [[T HC] Hb] Hls Hso Hsn].
  destruct (RInv_step members cfg_of Hwf Hodd _ _ _ HR (rexec_sound _ ev _ _ Hok Hx)) as (h' & Hle & HR').
  exists h'. split; [done|]. split; [|done]. split; cbn [kw_raft kw_procs kw_invoked kw_log]; try done.
  - intros q P [Hne HP]%lookup_delete_Some. eapply (other_server K); [by apply Hs|done..|].
    cbn. by rewrite Ew, lookup_insert_ne.
  - intros q nq. rewrite Ew. intros [[_ ?]|[Hne Hq]]%lookup_insert_Some; [done|].
    destruct (Hu _ _ Hq) as [P HP]. exists P. by rewrite lookup_delete_ne.
  - split; [exists T; by eapply commits_grow|]. intros q nq [Hq Hfq]. rewrite Ew in Hq.
    apply lookup_insert_Some in Hq as [[_ ?]|[_ Hq]]; [done|]. by apply (Hb q).
  - eapply sourced_proc; [done|done|done| |done]. by intros st1 [[= <-]|(n1 & ? & _)].
  - by eapply (snapshots_step members cfg_of Hwf Hodd _ h (kw_raft K) ev).
Qed.

(** What a node had, or what was found, comes from clients. *)
Lemma sourced_left cmds R p n st :
  sourced cmds R → found R p st ∨ (enabled R p n ∧ left_by (from_clients cmds) n (view st)) →
  Forall (from_clients cmds) (tail (Log (view st))).
Proof.
  intros [Su Sd _] [?|[Hn [_ _ Hl]]]; [by apply (Sd p)|]. apply Forall_forall. intros e [He|?]%Hl; [|done].
  eapply Forall_forall; [|exact He]. by apply (Su p).
Qed.

Lemma crash_server_case h K p R' :
  KInv h K → event_ok cfg_of (rw_world (kw_raft K)) (EvCrash p) →
  rexec cfg_of (REvent_base (EvCrash p)) (kw_raft K) = Some R' →
  kpreserved h K (MkKWorld R' (delete p (kw_procs K)) (kw_invoked K) (kw_log K)).
Proof.
  intros HK Hok Hx. destruct (crash_world cfg_of _ _ _ Hx) as (n & Hn & Ew & Er & _). pose proof (Hok n Hn) as Hf.
  destruct (RInv_node _ _ _ _ _ _ (ki_raft _ _ HK) Hn Hf) as [L Hni].
  eapply (down_server_case h K p (REvent_base (EvCrash p)) (n_storage n)); try done.
  eapply (sourced_left _ _ p n); [apply HK|right].
  split; [done|]. apply stored_left, (ni_service _ _ _ _ _ Hni).
Qed.

Lemma die_server_case h K p st R' :
  KInv h K → rexec cfg_of (REvent_reopen p st) (kw_raft K) = Some R' →
  kpreserved h K (MkKWorld R' (delete p (kw_procs K)) (kw_invoked K) (kw_log K)).
Proof.
  intros HK Hx. destruct (reopen_world cfg_of _ _ _ _ Hx) as (n & Hn & Hre & Ew & Er & _).
  eapply (down_server_case h K p (REvent_reopen p st) st); try done.
  eapply (sourced_left _ _ p n); [apply HK|].
  apply reopened_found; [|done|done]. intros Hf.
  destruct (RInv_node _ _ _ _ _ _ (ki_raft _ _ HK) Hn Hf) as [L Hni]. apply (ni_service _ _ _ _ _ Hni).
Qed.

(** A server that starts has the snapshot of its storage ahead of it. *)
Lemma fed_start L n addrs ps cfg :
  recovered cfg ps n → ((0 < first_index (Log ps))%N → snapshot_of L (first_index (Log ps)) (SnapshotData ps)) →
  fed L (NewProcess (NewServer n NewStore addrs)).
Proof.
  intros Hrec Hsn. split; cbn; [by split; [apply reflects_new|constructor|]| |done].
  rewrite (rec_applied _ _ _ Hrec), (rec_pending _ _ _ Hrec).
  destruct (N.ltb_spec 0 (first_index (Log ps))) as [Hlt|Hle]; cbn; [|lia].
  split; [lia|]. split; [by apply Hsn|done].
Qed.

Lemma restart_server_case h K p env R' n :
  KInv h K → event_ok cfg_of (rw_world (kw_raft K)) (EvRestart p env) →
  rexec cfg_of (REvent_base (EvRestart p env)) (kw_raft K) = Some R' → up_node (rw_world R') p = Some n →
  kpreserved h K (note_log (MkKWorld R' (<[p := NewProcess (NewServer n NewStore (addrs_of p))]> (kw_procs K)) (kw_invoked K) (kw_log K))).
Proof.
  intros HK Hok Hx Hup. pose proof HK as [HR Hs Hu Hl Hls Hso Hsn].
  destruct (RInv_step members cfg_of Hwf Hodd _ _ _ HR (rexec_sound _ (REvent_base (EvRestart p env)) _ _ Hok Hx)) as (h' & Hle & HR').
  destruct (restart_world members cfg_of _ _ _ _ _ HR Hok Hx) as (st & n0 & Hst & Hf & Hrec & Ew & Er & _).
  apply up_node_Some in Hup. assert (n0 = n) as ->.
  { rewrite Ew, lookup_insert_eq in Hup. by injection Hup. }
  apply (KInv_noted h h'); cbn [kw_raft kw_procs kw_invoked kw_log]; try done.
  - apply (servers_insert K); [done| |done|done|intros q Hne; cbn; by rewrite Ew, lookup_insert_ne].
    split; [done|apply (reaches_inv n NewStore (addrs_of p)); constructor|by intros cmd ?%not_elem_of_nil|].
    intros _. eapply fed_start; [done|]. apply (sn_down _ _ Hsn p). by left.
  - apply (ups_insert K); [|done]. intros q nq Hq Hne. by rewrite Ew, lookup_insert_ne in Hq.
  - eapply sourced_proc; [done|done| | |done].
    + intros n1 [= <-] _. rewrite (rec_log _ _ _ Hrec). apply (so_down _ _ Hso p). by left.
    + intros st1 [?|(n1 & [= <-] & ? & _)]; [done|congruence].
  - by eapply (snapshots_step members cfg_of Hwf Hodd _ h (kw_raft K) (REvent_base (EvRestart p env))).
Qed.

(** *** A goroutine of a server moves *)

(** What it proposes is a client's command. *)
Lemma proposes_client K p P i payload :
  server_ok K p P → node_op (EvStep i) P = Some (OpPropose payload) →
  ∃ cmd, cmd ∈ kw_invoked K ∧ marshal_command cmd = inl payload.
Proof.
  intros [_ _ Hc _] Hop. cbn in Hop. destruct (p_calls P !! i) as [[cmd| | | |]|] eqn:Hci; try done. exists cmd.
  destruct (marshal_command cmd); [|done]. injection Hop as <-. split; [|done].
  apply Hc. by eapply list_elem_of_lookup_2.
Qed.

(** What it does to the node. *)
Lemma node_turn h K p P e op n' :
  KInv h K → server_ok K p P → event_ok cfg_of (rw_world (kw_raft K)) (EvLocal p op) → node_op e P = Some op →
  run_op op (sv_node (p_server P)) = Val ((), n') → n_failed n' = false →
  n_failed (sv_node (p_server P)) = false ∧ (e ≠ EvApply → same_place (sv_node (p_server P)) n') ∧
  ∀ x, x ∈ tail (n_log n') → x ∈ tail (n_log (sv_node (p_server P))) ∨ from_clients (kw_invoked K) x.
Proof.
  intros HK Hsk Hok Hop Hrun Hf'. pose proof Hsk as [Hn _ _ _]. pose proof (ki_raft _ _ HK) as HR.
  set (n := sv_node (p_server P)) in *. destruct (n_failed n) eqn:Hf; [by destruct (local_failed cfg_of _ _ _ _ _ Hok Hf Hrun); congruence|].
  split; [done|]. destruct (RInv_node _ _ _ _ _ _ HR Hn Hf) as [L Hni]. pose proof (ni_service _ _ _ _ _ Hni) as Hs.
  assert (moves (from_clients (kw_invoked K)) n n' →
    (e ≠ EvApply → same_place n n') ∧ ∀ x, x ∈ tail (n_log n') → x ∈ tail (n_log n) ∨ from_clients (kw_invoked K) x) as Hmoves.
  { intros [[_ Ha Hlg]%(λ m, m Hf') _]. split; [intros _; by apply same_place_applied|done]. }
  destruct e as [|i| | | | | | | | | |]; try done.
  - pose proof Hop as Hop'. cbn in Hop'. destruct (p_calls P !! i) as [[cmd| | | |]|] eqn:Hci; try done.
    destruct (marshal_command cmd) as [payload|]; [|done]. injection Hop' as <-.
    destruct (proposes_client _ _ _ _ _ Hsk Hop) as (cmd' & Hcmd & Hm). destruct (Hok _ Hn) as [Hb Hfit].
    apply Hmoves. eapply (propose_moves _ _ payload); try done. intros t j. by exists cmd'.
  - injection Hop as <-. destruct (quiet_op_rests _ (OpApply (p_applyPc P)) _ I Hs Hrun) as (_ & _ & Hre).
    split; [done|]. rewrite (re_log _ _ (Hre Hf')). by left.
  - injection Hop as <-. apply Hmoves. by eapply (idle_moves _ _ OpTakeTrigger).
  - cbn in Hop. destruct (p_snap P) as [| |index data]; try done. injection Hop as <-.
    destruct (Snapshot_moves n index data n' Hs Hok Hrun) as [_ [->|[[Hi (e & He & []) _ _ ?] _]]%(λ m, m Hf')].
    { split; [done|by left]. }
    destruct cut_log as (_ & _ & Etl). split.
    + intros _. split; [lia|done].
    + intros x. rewrite Etl. intros ?%subseteq_tail_drop. by left.
Qed.

(** What the node leaves if this disables it. *)
Lemma node_turn_sheds h K p P e op n' :
  KInv h K → server_ok K p P → event_ok cfg_of (rw_world (kw_raft K)) (EvLocal p op) → node_op e P = Some op →
  run_op op (sv_node (p_server P)) = Val ((), n') → sheds (from_clients (kw_invoked K)) (sv_node (p_server P)) n'.
Proof.
  intros HK Hsk Hok Hop Hrun. pose proof Hsk as [Hn _ _ _]. pose proof (ki_raft _ _ HK) as HR.
  set (n := sv_node (p_server P)) in *. destruct (n_failed n) eqn:Hf.
  { unfold sheds. rewrite Hf. by eapply local_failed. }
  destruct (RInv_node _ _ _ _ _ _ HR Hn Hf) as [L Hni]. pose proof (ni_service _ _ _ _ _ Hni) as Hs.
  assert (quiet_op op → sheds (from_clients (kw_invoked K)) n n') as Hq.
  { intros Hqo. unfold sheds. rewrite Hf. apply faulty_enabled. rewrite <- Hf. by eapply quiet_op_failed. }
  destruct e as [|i| | | | | | | | | |]; try done; try (injection Hop as <-; by apply Hq).
  - pose proof Hop as Hop'. cbn in Hop'. destruct (p_calls P !! i) as [[cmd| | | |]|] eqn:Hci; try done.
    destruct (marshal_command cmd) as [payload|]; [|done]. injection Hop' as <-.
    destruct (proposes_client _ _ _ _ _ Hsk Hop) as (cmd' & Hcmd & Hm). destruct (Hok _ Hn) as [Hb Hfit].
    apply dies_sheds. eapply (propose_moves _ _ payload); try done. intros t j. by exists cmd'.
  - cbn in Hop. destruct (p_snap P) as [| |index data]; try done. injection Hop as <-. by eapply snapshot_sheds.
Qed.

(** What a server has been handed stays in order. *)
Lemma fed_server h K p P e P' :
  KInv h K → server_ok K p P → server_event e = true → snapshots_caught_up e P →
  from_option (event_ok cfg_of (rw_world (kw_raft K))) True (node_event p e P) → sv_exec e P = Some P' →
  n_failed (sv_node (p_server P')) = false → fed (kw_log K) P'.
Proof.
  intros HK Hsk Hse Hcu Hok Hx Hf'. pose proof Hsk as [Hn Hi _ Hfed]. pose proof (server_node _ _ _ Hi Hse Hx) as Hnode.
  unfold node_event in Hok. set (n := sv_node (p_server P)) in *.
  assert (n_failed n = false ∧ (e ≠ EvApply → same_place n (sv_node (p_server P')))) as [Hf Hsp].
  { destruct (node_op e P) as [op|] eqn:Hop.
    - destruct (node_turn h K p P e op _ HK Hsk Hok Hop Hnode Hf') as (? & ? & _). done.
    - rewrite Hnode in Hf' |- *. done. }
  assert (e = EvApply ∨ e ≠ EvApply) as [->|Hne] by (by destruct e; auto); [|by eapply fed_step; try done; [by apply Hsp|by apply Hfed]].
  destruct (RInv_node _ _ _ _ _ _ (ki_raft _ _ HK) Hn Hf) as [L Hni]. pose proof (ni_service _ _ _ _ _ Hni) as Hs.
  eapply fed_apply; [apply Hs|done| |by apply Hfed]. fold n. intros e He Hie Hc.
  destruct (ki_log _ _ HK) as [_ Hall]. destruct (Hall p n (conj Hn Hf)) as [_ _ Hent].
  pose proof (wf_applied _ (proj1 (proj2 (proj1 Hs)))) as Hla. rewrite <- (Hent e); [f_equal; lia| |done].
  destruct (n_log n) as [|b l]; [done|]. replace (N.to_nat (Index e - n_lastIncludedIndex n))
    with (Datatypes.S (N.to_nat (Index e - n_lastIncludedIndex n) - 1)) in He by lia. by eapply list_elem_of_lookup_2.
Qed.

Lemma server_case h K p P e P' :
  KInv h K → kw_procs K !! p = Some P → server_event e = true → sv_exec e P = Some P' →
  from_option (event_ok cfg_of (rw_world (kw_raft K))) True (node_event p e P) → snapshots_caught_up e P →
  kpreserved h K (note_log (MkKWorld
    (match node_op e P with
     | Some _ => on_world (set_proc p (sv_node (p_server P'))) (kw_raft K)
     | None => kw_raft K
     end) (<[p := P']> (kw_procs K)) (new_call e ++ kw_invoked K) (kw_log K))).
Proof.
  intros HK HP Hse Hx Hok Hcu. pose proof HK as [HR Hs Hu Hl Hls Hso Hsn]. pose proof (Hs _ _ HP) as Hsk.
  destruct (Hsk) as [Hn Hi Hc _].
  pose proof (exec_inv _ _ _ Hi Hx) as Hi'. pose proof (calls_from_step _ _ _ _ Hse Hx Hc) as Hc'.
  pose proof (server_node _ _ _ Hi Hse Hx) as Hnode. pose proof (fed_server h K p P e P' HK Hsk Hse Hcu Hok Hx) as Hfed.
  unfold node_event in Hok.
  assert (kw_invoked K ⊆ new_call e ++ kw_invoked K) as Hsub by (intros ? ?; apply elem_of_app; by right).
  destruct (node_op e P) as [op|] eqn:Hop.
  - set (R' := on_world (set_proc p (sv_node (p_server P'))) (kw_raft K)).
    assert (rexec cfg_of (REvent_base (EvLocal p op)) (kw_raft K) = Some R') as Hrx.
    { cbn. unfold up_node. rewrite Hn. cbn. by rewrite Hnode. }
    destruct (RInv_step members cfg_of Hwf Hodd _ _ _ HR (rexec_sound _ (REvent_base (EvLocal p op)) _ _ Hok Hrx))
      as (h' & Hle & HR').
    assert (w_procs (rw_world R') !! p = Some (Up (sv_node (p_server P')))) as Hn' by apply lookup_insert_eq.
    apply (KInv_noted h h'); try done.
    + apply (servers_insert K); [done|by split|done|done|intros q Hne; by apply lookup_insert_ne].
    + apply (ups_insert K); [|done]. intros q n Hq Hne. by apply set_proc_lookup in Hq as [[? _]|[_ Hq]].
    + apply (sourced_mono (kw_invoked K)); [done|].
      eapply (sourced_proc _ _ R'); [done|done| | |done].
      * intros n1 [= <-] Hf'. destruct (node_turn h K p P e op _ HK Hsk Hok Hop Hnode Hf') as (Hf & _ & Hlg).
        apply Forall_forall. intros x [Hin|?]%Hlg; [|done]. eapply Forall_forall; [|exact Hin]. by eapply (so_up _ _ Hso p).
      * intros st [?|(n1 & [= <-] & Hf & Hre)]; [done|]. eapply sourced_sheds; [done|exact Hn| |done|done].
        exact (node_turn_sheds h K p P e op _ HK Hsk Hok Hop Hnode).
    + eapply (snapshots_step members cfg_of Hwf Hodd _ h (kw_raft K) (REvent_base (EvLocal p op))); [done|done| |done|done].
      destruct op as [| |i data| | | | | |]; try done. intros n Hen _.
      assert (p_snap P = SnapReady i data) as Hps.
      { destruct e; try done; cbn in Hop; repeat case_match; try done. by injection Hop as <- <-. }
      destruct Hen as [Hn0 Hf0]. rewrite Hn in Hn0. injection Hn0 as <-. by apply (fd_snap _ _ (sk_fed _ _ _ Hsk Hf0)).
  - apply (KInv_noted h h); try done.
    + apply (servers_insert K); [done| |done|done|done]. split; [by rewrite Hnode|done|done|done].
    + by apply (ups_insert K).
    + by eapply sourced_mono.
Qed.

(** ** Every step *)
Lemma kstep_preserves h K K' : KInv h K → kstep cfg_of addrs_of K K' → kpreserved h K K'.
Proof.
  intros HK (ev & Hok & Hx). destruct ev as [ev|p e|p|p st|p env]; cbn [kexec] in Hx.
  - destruct (raft_event ev) eqn:Hev; [|done]. apply bind_Some in Hx as (R' & Hx & [= <-]).
    by eapply raft_case.
  - apply bind_Some in Hx as (P & HP & Hx). destruct (server_event e) eqn:Hse; [|done].
    apply bind_Some in Hx as (P' & Hx & [= <-]). destruct (Hok P HP). by eapply server_case.
  - apply bind_Some in Hx as (R' & Hx & [= <-]). by eapply crash_server_case.
  - apply bind_Some in Hx as (R' & Hx & [= <-]). by eapply die_server_case.
  - apply bind_Some in Hx as (R' & Hx & Hx'). apply bind_Some in Hx' as (n & Hn & [= <-]).
    by eapply restart_server_case.
Qed.

Lemma KInv_initial K : kinitial members K → KInv no_history K.
Proof.
  intros (Hi & Hp & Hinv & Hl). pose proof (RInv_initial members cfg_of _ Hi) as HR.
  pose proof (snapshots_initial _ (snapshot_of (kw_log K)) _ Hi) as Hsn.
  destruct Hi as (Hini & Hrq & Han & _ & Hin & Hst).
  assert (∀ p n, w_procs (rw_world (kw_raft K)) !! p ≠ Some (Up n)) as Hdown.
  { intros p n Hpn. destruct Hini as (_ & _ & _ & _ & Hprocs). by destruct (Hprocs _ _ Hpn) as (_ & st & ? & _). }
  split; [done| | | | | |done].
  - intros p P. by rewrite Hp, lookup_empty.
  - intros p n Hpn. by destruct (Hdown p n).
  - split; [rewrite Hl; exists 0%N; by left|]. intros p n [Hpn _]. by destruct (Hdown p n).
  - by rewrite Hl.
  - split.
    + intros p n [Hpn _]. by destruct (Hdown p n).
    + intros p st [Hp'|(n & Hp' & _)]; [destruct (Hst _ _ Hp') as [_ ->]; by constructor|by destruct (Hdown p n)].
    + intros q args. rewrite Hrq. by intros ?%not_elem_of_nil.
Qed.

Lemma KInv_reachable K : kreachable cfg_of addrs_of members K → ∃ h, KInv h K.
Proof.
  induction 1 as [K Hi|K K' _ [h HK] Hst]; [by exists no_history; apply KInv_initial|].
  destruct (kstep_preserves _ _ _ HK Hst) as (h' & _ & HK' & _). by exists h'.
Qed.

Lemma KInv_later h K K' : KInv h K → rtc (kstep cfg_of addrs_of) K K' → kpreserved h K K'.
Proof.
  intros HK Hst. revert h HK. induction Hst as [K|K K1 K2 Hs _ IH]; intros h HK; [by exists h|].
  destruct (kstep_preserves _ _ _ HK Hs) as (h1 & Hle1 & HK1 & Hp1 & Hi1).
  destruct (IH _ HK1) as (h2 & Hle2 & HK2 & Hp2 & Hi2). exists h2.
  split; [by eapply hist_le_trans|]. split; [done|]. split; by etrans.
Qed.
End Cluster.
