(* ===== verification/ReplicatedProperties.v ===== *)
(** * What a cluster of key-value servers promises its clients

    The servers follow one log, which is only appended to; and a reply a client
    gets is the answer of a single store that executes the calls one at a time,
    each at a moment between the call and its return.  Both whatever messages are
    lost, duplicated or reordered, whichever servers crash and restart and
    whatever they compact, for the servers whose storage did not fail. *)
From S2P Require Import Prelude RaftTypes MemoryStorage RaftNode RaftVotes RaftCluster RaftElection RaftLog RaftReplicate RaftService RaftHistory RaftCompaction RaftReplication RaftMoves RaftInvariant RaftSafety RaftOrigins RaftAgreement KVStore KVServer KVServerProperties LogStore ReplicatedStore ReplicatedInvariant.

Section Facts.
Context {S : Type} `{StorageSpec S} {codec : KVCodec} {spec : KVCodecSpec}.
Implicit Types (P : Process (S := S)) (K : KWorld S).
Variable members : list NodeID.
Variable cfg_of : NodeID → Config.
Variable addrs_of : NodeID → gmap NodeID string.
Hypothesis Hwf : cluster_wf (S := S) members cfg_of.
Hypothesis Hodd : Nat.Odd (length members).

(** A running server follows the common log. *)
Lemma running_fed h K p P : KInv members cfg_of h K → running K p P → fed (kw_log K) P.
Proof. intros HK [HP Hf]. by apply (sk_fed _ _ _ (ki_server _ _ _ _ HK _ _ HP)). Qed.

(** The log a later world has. *)
Lemma later_facts h K K' :
  KInv members cfg_of h K → rtc (kstep cfg_of addrs_of) K K' →
  ∃ h', KInv members cfg_of h' K' ∧ kw_log K `prefix_of` kw_log K' ∧ kw_invoked K ⊆ kw_invoked K'.
Proof. intros HK Hst. destruct (KInv_later _ _ _ Hwf Hodd _ _ _ HK Hst) as (h' & _ & ? & ? & ?). by exists h'. Qed.

(** Every command of the log was the command of a call. *)
Lemma log_command h K k e :
  KInv members cfg_of h K → kw_log K !! k = Some e →
  ∃ c, c ∈ kw_invoked K ∧ marshal_command c = inl (Command e) ∧ unmarshal_command (Command e) = (c, None).
Proof.
  intros HK Hk. destruct (proj1 (Forall_lookup _ _) (ki_log_sourced _ _ _ _ HK) _ _ Hk) as (c & Hc & Hm).
  exists c. split; [done|]. split; [done|]. by apply command_roundtrip.
Qed.

(** A reply taken from the answers of the apply loop names the position of an
    entry with its call's client and number, and is the answer of a store that
    has executed the entries before it, and possibly more. *)
Lemma answered_position h K p P cmd r :
  KInv members cfg_of h K → running K p P → answered (p_applied P) cmd r →
  ∃ i b e c reply,
    r_Index r = N.of_nat (i + 1) ∧ i ≤ b ≤ length (kw_log K) ∧ (p_restored P = false → b = i) ∧ kw_log K !! i = Some e ∧
    (c ∈ kw_invoked K ∧ marshal_command c = inl (Command e) ∧ unmarshal_command (Command e) = (c, None)) ∧
    ClientId c = ClientId cmd ∧ SeqNo c = SeqNo cmd ∧
    (apply_cmd c (store_after (take b (kw_log K)))).1 = Some reply ∧ r = reply_of reply (r_Index r).
Proof.
  intros HK HP (res & reply & Hin & Hid & Hseq & Hrep & Er). pose proof (running_fed _ _ _ _ HK HP) as Hfed.
  destruct (proj1 (Forall_forall _ _) (fo_applied _ _ (fd_follows _ _ Hfed)) _ Hin) as (i & b & e & Hi & Hb & Hex & He & Hres).
  destruct (log_command _ _ _ _ HK He) as (c & Hc & Hm & Hu). unfold Apply in Hres. rewrite Hu in Hres.
  exists i, b, e, c, reply. destruct (apply_cmd c _) as [rr st] eqn:Ha. cbn in *. injection Hres as Hrc Hrr.
  rewrite Hrc in Hid, Hseq. split_and!; try done; [lia..|congruence].
Qed.

Lemma reply_position h K p P k cmd r :
  KInv members cfg_of h K → running K p P → p_calls P !! k = Some (Returned cmd (inl r)) →
  refused r ∨ ∃ i b e c reply,
    r_Index r = N.of_nat (i + 1) ∧ i ≤ b ≤ length (kw_log K) ∧ (p_restored P = false → b = i) ∧ kw_log K !! i = Some e ∧
    (c ∈ kw_invoked K ∧ marshal_command c = inl (Command e) ∧ unmarshal_command (Command e) = (c, None)) ∧
    ClientId c = ClientId cmd ∧ SeqNo c = SeqNo cmd ∧
    (apply_cmd c (store_after (take b (kw_log K)))).1 = Some reply ∧ r = reply_of reply (r_Index r).
Proof.
  intros HK HP Hret. pose proof HP as [HPl Hf].
  pose proof (inv_calls _ (sk_inv _ _ _ (ki_server _ _ _ _ HK _ _ HPl))) as Hcalls.
  destruct (Forall_lookup_1 _ _ _ _ Hcalls Hret) as [?|?]; [by left|right]. by eapply answered_position.
Qed.

(** Whatever comes off [applyCh], the loop goes on. *)
Lemma receives h K p P msg rest :
  KInv members cfg_of h K → running K p P → p_applyCh P = msg :: rest →
  ∃ P', receive P = Some P' ∧ p_applyCh P' = rest ∧ p_at P' = msg_index msg.
Proof.
  intros HK HP Hch. pose proof (running_fed _ _ _ _ HK HP) as Hfed. destruct HP as [HPl _].
  pose proof (inv_waiters _ (sk_inv _ _ _ (ki_server _ _ _ _ HK _ _ HPl))) as Hw. destruct msg as [cmd i t|snap i t].
  - destruct (receive_command P cmd i t rest Hw Hch) as (P' & Hx & Hr & _). exists P'. split; [done|]. split; [done|].
    unfold receive in Hx. rewrite Hch in Hx. cbv zeta in Hx. by destruct (lift_server _ P) as [[[|] P1]|]; [injection Hx as <-|..].
  - pose proof (fd_queue _ _ Hfed) as Hq. rewrite Hch in Hq. destruct Hq as (_ & [_ Hr] & _).
    destruct (Hr (sv_store (p_server P))) as (st & Hst & _).
    unfold receive, lift_server, runApplyLoop_msg, get, mbind, GoM_bind, modify. rewrite Hch, Hst. by eexists.
Qed.
End Facts.

(** ** Runs of three servers over MemoryStorage *)
Section Runs.
Context {codec : KVCodec}.
Variable cfg_of : NodeID → Config.
Variable addrs_of : NodeID → gmap NodeID string.
Implicit Types K : KWorld MemoryStorage.

Definition kevent_check (ev : KEvent (S := MemoryStorage)) K : bool :=
  let w := rw_world (kw_raft K) in
  match ev with
  | KRaft (REvent_base ev) => event_check w cfg_of ev
  | KRaft (REvent_install q args _) =>
      match w_procs w !! q with
      | Some (Up n) => (is_LastIncludedIndex args <=? n_lastIncludedIndex n)%N || (n_lastApplied n <=? is_LastIncludedIndex args)%N
      | _ => true
      end
  | KRaft _ => true
  | KServer p e =>
      match kw_procs K !! p with
      | Some P => from_option (event_check w cfg_of) true (node_event p e P) &&
          match e, p_snap P with EvSnapStore, SnapAsked index => (index <=? p_at P)%N | _, _ => true end
      | None => true
      end
  | KCrash p => event_check w cfg_of (EvCrash p)
  | KDie _ _ => true
  | KRestart p env => event_check w cfg_of (EvRestart p env)
  end.

Lemma kevent_check_ok ev K : kevent_check ev K = true → kevent_ok cfg_of ev K.
Proof.
  destruct ev as [[ev| | | | |q args e| |]|p e|p|p st|p env]; cbn -[event_ok event_check]; try done; try apply event_check_ok.
  - intros Hc n Hn. rewrite Hn in Hc. apply orb_true_iff in Hc as [?%N.leb_le|?%N.leb_le]; [by left|by right].
  - intros Hc P HP. rewrite HP in Hc. apply andb_true_iff in Hc as [Hc Hs]. split.
    + destruct (node_event p e P) as [ev|]; [|done]. by apply event_check_ok.
    + destruct e; try done. cbn. destruct (p_snap P); try done. by apply N.leb_le.
Qed.

Fixpoint krun_check (evs : list (KEvent (S := MemoryStorage))) K : option (KWorld MemoryStorage) :=
  match evs with
  | [] => Some K
  | ev :: evs => if kevent_check ev K then K' ← kexec cfg_of addrs_of ev K; krun_check evs K' else None
  end.

Lemma krun_check_rtc evs K K' : krun_check evs K = Some K' → rtc (kstep cfg_of addrs_of) K K'.
Proof.
  revert K. induction evs as [|ev evs IH]; intros K; cbn -[kevent_check kexec]; [by intros [= <-]|].
  destruct (kevent_check ev K) eqn:Hc; [|done]. intros (K1 & H1 & H2)%bind_Some.
  eapply rtc_l; [|by apply IH]. exists ev. split; [by apply kevent_check_ok|done].
Qed.

Lemma krun_result members evs K (P : KWorld MemoryStorage → bool) :
  kreachable cfg_of addrs_of members K → from_option P false (krun_check evs K) = true →
  ∃ K', rtc (kstep cfg_of addrs_of) K K' ∧ kreachable cfg_of addrs_of members K' ∧ P K' = true.
Proof.
  intros HK HP. destruct (krun_check evs K) as [K'|] eqn:E; [|done]. apply krun_check_rtc in E.
  exists K'. split; [done|]. split; [|done]. revert HK. clear HP. induction E as [|K1 K2 K3 Hs _ IH]; [done|].
  intros HK. apply IH. by eapply kreach_step.
Qed.
End Runs.

Definition fresh_kworld (members : list NodeID) : KWorld MemoryStorage := MkKWorld (fresh_rworld members) ∅ [] [].

Lemma fresh_kinitial members : kinitial members (fresh_kworld members).
Proof. split; [apply fresh_rinitial|done]. Qed.

Definition no_addrs (p : NodeID) : gmap NodeID string := ∅.

(** "a" is elected among three servers. *)
Definition elect_server : list (KEvent (S := MemoryStorage)) :=
  [KRestart "a" env0; KRestart "b" env0; KRaft (REvent_base (EvCampaign "a" env0));
   KRaft (REvent_base (EvVote 0 "b" env0)); KRaft (REvent_base (EvVoteReply 0 "b" (MkRVReply 1 true)))].

Definition put_x : KVCommand := MkCommand "client" 1 OP_PUT "x" "1".
Definition put_x_entry : LogEntry :=
  MkEntry 1 1 (match @marshal_command bit_codec put_x with inl b => b | inr _ => [] end).

(** A client puts at "a", the entry reaches "b", is committed, applied, and
    the call returns. *)
Definition put_at_a : list (KEvent (S := MemoryStorage)) :=
  let args := MkAEArgs 1 "a" 0 0 [put_x_entry] 0 in
  [KServer "a" (EvCall (Put put_x)); KServer "a" (EvStep 0); KServer "a" (EvStep 0);
   KRaft (REvent_send "a" "b" 1); KRaft (REvent_append "b" args env0);
   KRaft (REvent_answer "b" args (MkAEReply 1 true 0 0));
   KServer "a" EvApply; KServer "a" EvSend; KServer "a" EvReceive; KServer "a" (EvStep 0)].

(** "a" takes a snapshot and compacts its log; "c" starts, is sent the snapshot
    and restores it. *)
Definition snapshot_x : bytes :=
  match Store_Snapshot (codec := bit_codec) (@store_after bit_codec [put_x_entry]) with inl b => b | inr _ => [] end.

Definition c_restores : list (KEvent (S := MemoryStorage)) :=
  [KRaft (REvent_base (EvLocal "a" (OpTrigger 1))); KServer "a" EvTrigger; KServer "a" EvSnapStore; KServer "a" EvSnapNode;
   KRestart "c" env0; KRaft (REvent_snapshot "a" "c" 1);
   KRaft (REvent_install "c" (MkISArgs 1 "a" 1 1 snapshot_x) env0);
   KServer "c" EvApply; KServer "c" EvSend; KServer "c" EvReceive].

(** What is looked at in a server. *)
Definition server_is (K : KWorld MemoryStorage) (p : NodeID) (f : Process (S := MemoryStorage) → bool) : bool :=
  match kw_procs K !! p with Some P => negb (n_failed (sv_node (p_server P))) && f P | None => false end.

Lemma server_is_running K p f : server_is K p f = true → ∃ P, running K p P ∧ f P = true.
Proof.
  unfold server_is, running. destruct (kw_procs K !! p) as [P|]; [|done].
  intros [Hf Hp]%andb_true_iff. exists P. split; [split; [done|by apply negb_true_iff]|done].
Qed.

#[export] Instance Call_eq_dec : EqDecision Call.
Proof. solve_decision. Defined.

(** ** The theorems *)

(** C4: all servers follow one log.  In a run of a cluster of odd size that meets
    the conditions on snapshots of [kevent_ok] and [installable] (the snapshot loop
    reads the store when it has caught up, no node is given a snapshot it
    conflicts with or has applied more than; without them a restored server may
    follow no log, see [KVServerProperties.early_snapshot_loses_write]): whatever
    two running servers have done so far, at the same time or at different times, they follow one log, which only
    grows: the store of each is that of a beginning of the log which reaches at
    least to the last message it has taken, and each answer it gave is that of
    the log.  A server that never restored a snapshot has exactly the answers, the
    data and the sessions of the log up to that message, so two such servers that
    have got equally far have given the same answers and hold the same. *)
Theorem servers_agree {S} `{StorageSpec S} {codec : KVCodec} {spec : KVCodecSpec} members cfg_of addrs_of
    (K K' : KWorld S) p P p' P' :
  cluster_wf (S := S) members cfg_of → Nat.Odd (length members) →
  kreachable cfg_of addrs_of members K → rtc (kstep cfg_of addrs_of) K K' →
  running K p P → running K' p' P' →
  kw_log K `prefix_of` kw_log K' ∧ follows (kw_log K') P ∧ follows (kw_log K') P'.
Proof.
  intros Hwf Hodd Hr Hst HP HP'. destruct (KInv_reachable _ _ addrs_of Hwf Hodd _ Hr) as [h HK].
  destruct (later_facts _ _ addrs_of Hwf Hodd _ _ _ HK Hst) as (h' & HK' & Hlog & _).
  split; [done|]. split; [|by apply (fd_follows _ _ (running_fed _ _ _ _ _ _ HK' HP'))].
  eapply follows_prefix; [done|]. by apply (fd_follows _ _ (running_fed _ _ _ _ _ _ HK HP)).
Qed.

Lemma servers_agree_witness : ∃ (K K' : KWorld MemoryStorage) Pa Pc,
  @kreachable _ _ _ _ bit_codec (cfg_among three) no_addrs three K ∧
  rtc (@kstep _ _ _ _ bit_codec (cfg_among three) no_addrs) K K' ∧
  running K "a" Pa ∧ running K' "c" Pc ∧ length (p_applied Pa) = 1 ∧ p_restored Pa = false ∧
  p_restored Pc = true ∧ p_at Pc = 1%N ∧ data (sv_store (p_server Pc)) !! "x" = Some "1" ∧
  kw_log K `prefix_of` kw_log K' ∧ @follows bit_codec _ (kw_log K') Pa ∧ @follows bit_codec _ (kw_log K') Pc.
Proof.
  destruct (@krun_result bit_codec (cfg_among three) no_addrs three (elect_server ++ put_at_a) (fresh_kworld three)
    (λ K, server_is K "a" (λ P, (length (p_applied P) =? 1)%nat && negb (p_restored P)) &&
      from_option (λ K', server_is K' "c" (λ P, p_restored P && (p_at P =? 1)%N &&
        bool_decide (data (sv_store (p_server P)) !! "x" = Some "1"))) false
        (@krun_check bit_codec (cfg_among three) no_addrs c_restores K))) as (K & _ & HK & [Ha Hc]%andb_true_iff).
  { apply kreach_init, fresh_kinitial. }
  { by vm_compute. }
  destruct (krun_result _ _ three c_restores K _ HK Hc) as (K' & Hst & _ & Hc').
  destruct (server_is_running _ _ _ Ha) as (Pa & HPa & [La%Nat.eqb_eq Ra%negb_true_iff]%andb_true_iff).
  destruct (server_is_running _ _ _ Hc') as (Pc & HPc & [[Rc Lc%N.eqb_eq]%andb_true_iff Dc%bool_decide_eq_true]%andb_true_iff).
  exists K, K', Pa, Pc. do 9 (split; [done|]).
  exact (@servers_agree _ _ _ _ bit_codec bit_codec_spec three (cfg_among three) no_addrs K K' "a" Pa "c" Pc
    three_wf (ex_intro _ 1 eq_refl) HK Hst HPa HPc).
Defined.

(** C3: the servers are one linearizable store.  Take a run of a cluster of odd
    size that meets the conditions on snapshots of [kevent_ok] and [installable]
    (the snapshot loop reads the store when it has caught up, no node is given a
    snapshot it conflicts with or has applied more than; the code does not enforce
    them).  Suppose the cluster is in state [K] when a client makes a call with a
    client id and sequence number nobody has used, and in state [K'] when that
    call has returned a reply at a running server.  Then the reply is a refusal,
    or the call took effect in between: it names the position [i] of an entry
    that was committed after [K] and before [K'], the entry holds a command of
    that client and sequence number, and the reply is the answer to it of a store
    that has executed a beginning of the log and nothing else, the entries before
    [i] and at most what was committed by [K'] (none but those before [i] unless
    that server has restored a snapshot). *)
Theorem replies_linearize {S} `{StorageSpec S} {codec : KVCodec} {spec : KVCodecSpec} members cfg_of addrs_of
    (K K' : KWorld S) p P k cmd r :
  cluster_wf (S := S) members cfg_of → Nat.Odd (length members) →
  kreachable cfg_of addrs_of members K → rtc (kstep cfg_of addrs_of) K K' →
  (∀ c, c ∈ kw_invoked K → ClientId c = ClientId cmd → SeqNo c ≠ SeqNo cmd) →
  running K' p P → p_calls P !! k = Some (Returned cmd (inl r)) →
  refused r ∨ ∃ i b e c reply,
    r_Index r = N.of_nat (i + 1) ∧ length (kw_log K) ≤ i ≤ b ∧ b ≤ length (kw_log K') ∧ (p_restored P = false → b = i) ∧
    kw_log K' !! i = Some e ∧ c ∈ kw_invoked K' ∧ marshal_command c = inl (Command e) ∧
    ClientId c = ClientId cmd ∧ SeqNo c = SeqNo cmd ∧
    (apply_cmd c (store_after (take b (kw_log K')))).1 = Some reply ∧ r = reply_of reply (r_Index r).
Proof.
  intros Hwf Hodd Hr Hst Hfresh HP Hret. destruct (KInv_reachable _ _ addrs_of Hwf Hodd _ Hr) as [h HK].
  destruct (later_facts _ _ addrs_of Hwf Hodd _ _ _ HK Hst) as (h' & HK' & Hlog & _).
  destruct (reply_position _ _ _ _ _ _ _ _ _ HK' HP Hret)
    as [?|(i & b & e & c & reply & Hri & [Hib Hb] & Hex & Hie' & (Hc & Hm & Hu) & Hid & Hseq & Hrep & Er)]; [by left|right].
  exists i, b, e, c, reply. split; [done|]. split; [|by split_and!].
  destruct (Nat.le_gt_cases (length (kw_log K)) i) as [?|Hlt]; [done|]. exfalso.
  destruct (lookup_lt_is_Some_2 _ _ Hlt) as [e0 He0]. pose proof (prefix_lookup_Some _ _ _ _ He0 Hlog) as He1.
  rewrite Hie' in He1. injection He1 as <-.
  destruct (log_command _ _ _ _ _ _ HK He0) as (c0 & Hc0 & _ & Hu0). rewrite Hu in Hu0. injection Hu0 as <-.
  by destruct (Hfresh _ Hc0).
Qed.

Lemma replies_linearize_witness : ∃ (K K' : KWorld MemoryStorage) P r,
  @kreachable _ _ _ _ bit_codec (cfg_among three) no_addrs three K ∧
  rtc (@kstep _ _ _ _ bit_codec (cfg_among three) no_addrs) K K' ∧ kw_log K = [] ∧
  running K' "a" P ∧ p_calls P !! 0 = Some (Returned put_x (inl r)) ∧ Success r = true ∧
  (refused r ∨ ∃ i b e c reply,
    r_Index r = N.of_nat (i + 1) ∧ length (kw_log K) ≤ i ≤ b ∧ b ≤ length (kw_log K') ∧ (p_restored P = false → b = i) ∧
    kw_log K' !! i = Some e ∧ c ∈ kw_invoked K' ∧ @marshal_command bit_codec c = inl (Command e) ∧
    ClientId c = ClientId put_x ∧ SeqNo c = SeqNo put_x ∧
    (@apply_cmd bit_codec c (@store_after bit_codec (take b (kw_log K')))).1 = Some reply ∧
    r = reply_of reply (r_Index r)).
Proof.
  set (returned := λ P : Process (S := MemoryStorage), bool_decide (p_calls P !! 0 = Some (Returned put_x (inl (MkReply true "" false "" "" 1))))).
  destruct (@krun_result bit_codec (cfg_among three) no_addrs three elect_server (fresh_kworld three)
    (λ K, bool_decide (kw_log K = []) && bool_decide (kw_invoked K = []) &&
      from_option (λ K', server_is K' "a" returned) false
        (@krun_check bit_codec (cfg_among three) no_addrs put_at_a K)))
    as (K & _ & HK & [[Hl%bool_decide_eq_true Hi%bool_decide_eq_true]%andb_true_iff Ha]%andb_true_iff).
  { apply kreach_init, fresh_kinitial. }
  { by vm_compute. }
  destruct (krun_result _ _ three put_at_a K _ HK Ha) as (K' & Hst & _ & Ha').
  destruct (server_is_running _ _ _ Ha') as (P & HP & Hr%bool_decide_eq_true).
  exists K, K', P, (MkReply true "" false "" "" 1).
  split; [done|]. split; [done|]. split; [done|]. split; [done|]. split; [done|]. split; [done|].
  refine (@replies_linearize _ _ _ _ bit_codec bit_codec_spec three (cfg_among three) no_addrs K K' "a" P 0 put_x _
    three_wf (ex_intro _ 1 eq_refl) HK Hst _ HP Hr).
  rewrite Hi. by intros c ?%not_elem_of_nil.
Defined.
