(* ===== verification/ReplicatedHints.v ===== *)
(** * Where the servers send clients

    The hint of a refusal is [Server.leaderHint]: the leader the node knows, or
    the address the server was given for it.  Nodes know members of their own
    cluster only (RaftLeaders), so a hint is empty or names one; a store's
    answers carry no hint. *)
From S2P Require Import Prelude RaftTypes RaftNode RaftVotes RaftCluster RaftElection RaftLog RaftReplicate RaftService RaftHistory RaftCompaction RaftReplication RaftMoves RaftInvariant RaftSafety RaftOrigins RaftLeaders RaftAgreement KVStore KVServer KVServerProperties LogStore ReplicatedStore ReplicatedInvariant ReplicatedProperties.

(** ** Stores answer without hints *)
Section Stores.
Context {codec : KVCodec}.

Definition no_hints (st : Store) : Prop :=
  map_Forall (λ _ sess, ∀ r, reply sess = Some r → LeaderHint r = ""%string) (sessions st).

Lemma applyLocked_no_hint c st :
  LeaderHint (applyLocked c st).1 = ""%string ∧ sessions (applyLocked c st).2 = sessions st.
Proof. unfold applyLocked. by destruct (Op_ c). Qed.

Lemma apply_no_hints c st :
  no_hints st → no_hints (apply_cmd c st).2 ∧ ∀ r, (apply_cmd c st).1 = Some r → LeaderHint r = ""%string.
Proof.
  intros Hst. unfold apply_cmd. destruct (dedup_reply c st) as [r|] eqn:Hd.
  - split; [done|]. cbn. intros r' ->. unfold dedup_reply in Hd. destruct (dedupes c); [|done].
    destruct (sessions st !! ClientId c) as [sess|] eqn:Hs; [|done].
    destruct (_ =? _)%N; [injection Hd as Hr; by apply (Hst _ _ Hs)|]. destruct (_ <? _)%N; [by injection Hd as <-|done].
  - destruct (applyLocked_no_hint c st) as [Hr Hss]. destruct (applyLocked c st) as [r st']. cbn in *.
    split; [|by intros r' [= <-]]. unfold no_hints. destruct (dedupes c); cbn; rewrite Hss; [|done].
    apply map_Forall_insert_2; [|done]. cbn. by intros r' [= <-].
Qed.

Lemma store_after_no_hints L : no_hints (store_after L).
Proof.
  induction L as [|e L IH] using rev_ind; [apply map_Forall_empty|]. rewrite store_after_snoc.
  destruct (decode (Command e)) as [c|]; [by apply apply_no_hints|done].
Qed.
End Stores.

(** ** Hints *)
Section Hints.
Context {S : Type} `{StorageSpec S} {codec : KVCodec} {spec : KVCodecSpec}.
Implicit Types (P : Process (S := S)) (K : KWorld S).
Variable members : list NodeID.
Variable cfg_of : NodeID → Config.
Variable addrs_of : NodeID → gmap NodeID string.

(** What a server with the addresses [addrs] may name. *)
Definition may_name (addrs : gmap NodeID string) (hint : string) : Prop :=
  hint = ""%string ∨ ∃ l, l ∈ members ∧ hint = default l (addrs !! l).

Lemma leaderHint_names (s : Server (S := S)) : leader_known members (sv_node s) → may_name (sv_leaderAddrs s) (leaderHint s).
Proof.
  unfold leaderHint, Leader_. intros Hl. case_bool_decide as E; [by left|]. destruct Hl as [?|Hl]; [done|].
  right. exists (n_leaderID (sv_node s)). split; [done|]. by destruct (_ !! _).
Qed.

Definition call_named addrs (applied : list (N * applyResult)) (c : Call) : Prop :=
  match c with
  | Returned cmd (inl r) => may_name addrs (LeaderHint r) ∨ answered applied cmd r
  | _ => True
  end.

Record named (addrs : gmap NodeID string) P : Prop := {
  nm_addrs : sv_leaderAddrs (p_server P) = addrs;
  nm_calls : Forall (call_named addrs (p_applied P)) (p_calls P);
}.

Lemma named_same addrs P P' :
  sv_leaderAddrs (p_server P') = sv_leaderAddrs (p_server P) → p_calls P' = p_calls P → p_applied P ⊆ p_applied P' →
  named addrs P → named addrs P'.
Proof.
  intros E1 E2 Hs [Ha Hc]. split; [congruence|]. rewrite E2. eapply Forall_impl; [exact Hc|].
  intros [| | | |cmd [r|]]; try done. intros [?|?]; [by left|right]. by eapply answered_mono.
Qed.

Lemma named_insert addrs P P' i c :
  sv_leaderAddrs (p_server P') = sv_leaderAddrs (p_server P) → p_calls P' = <[i := c]> (p_calls P) →
  p_applied P' = p_applied P → call_named addrs (p_applied P) c → named addrs P → named addrs P'.
Proof. intros E1 E2 E3 Hcn [Ha Hc]. split; [congruence|]. rewrite E2, E3. by apply Forall_insert. Qed.

(** What a step of one call makes of it. *)
Lemma execute_step_named addrs applied c (s : Server (S := S)) :
  sv_leaderAddrs s = addrs → leader_known members (sv_node s) → call_ok (sv_waiters s) (sv_chans s) applied c →
  wp True (execute_step c) (λ r s', sv_leaderAddrs s' = addrs ∧ ∀ c', r = Some c' → call_named addrs applied c') s.
Proof.
  intros Ha Hl Hc. destruct c as [cmd|cmd why|cmd index|cmd index ch|cmd r]; cbn [execute_step].
  - unfold execute_propose. wp_step. destruct (marshal_command cmd) as [payload|err].
    + wp_step. unfold on_field. unfold wp at 1. destruct (Propose payload (sv_node s)) as [[[[i t] [|]] n']|]; [| |done];
        repeat wp_step; (split; [done|]; by intros c' [= <-]).
    + do 2 wp_step. split; [done|]. by intros c' [= <-].
  - do 3 wp_step. split; [done|]. intros c' [= <-]. left. subst addrs. by apply leaderHint_names.
  - unfold execute_register. wp_steps. split; [done|]. by intros c' [= <-].
  - unfold execute_receive. do 2 wp_step. destruct Hc as (_ & _ & Hr). destruct (sv_chans s !! ch) as [[res|]|]; [|by wp_step..].
    do 3 wp_step. apply wp_lift_go; [|done]. intros c' Hc'. wp_step. split; [done|]. intros c0 [= <-].
    unfold answer in Hc'. case_bool_decide as Hid; cbn in Hc'; [|by injection Hc' as <-].
    destruct (N.eqb_spec (SeqNo (res_cmd res)) (SeqNo cmd)) as [Hsq|]; cbn in Hc'; [|by injection Hc' as <-].
    destruct (res_reply res) as [r|] eqn:Hrr; [|done]. injection Hc' as <-. right. exists res, r. by split_and!; [apply Hr|..].
  - by wp_step.
Qed.

Lemma deliver_addrs index res (s : Server (S := S)) : wp True (deliver index res) (λ _ s', sv_leaderAddrs s' = sv_leaderAddrs s) s.
Proof. unfold deliver, send. by wp_steps. Qed.

Lemma named_step addrs e P P' :
  server_event e = true → inv P → leader_known members (sv_node (p_server P)) → sv_exec e P = Some P' →
  named addrs P → named addrs P'.
Proof.
  intros Hse Hi Hl Hx Hn. destruct e as [c|i|i|i|m| | | | | | |]; try done.
  - cbn in Hx. destruct c; try done. injection Hx as <-. destruct Hn as [Ha Hc]. split; [done|]. cbn.
    apply Forall_app. split; [done|]. by repeat constructor.
  - apply sv_step_call in Hx as (c & c' & s & Hc & Hrun & ->).
    destruct (wp_run _ _ _ _ _ _ (execute_step_named addrs (p_applied P) c _ (nm_addrs _ _ Hn) Hl
      (Forall_lookup_1 _ _ _ _ (inv_calls _ Hi) Hc)) Hrun) as [Ha Hcn].
    eapply named_insert; [|done|done|by apply Hcn|done]. cbn. by rewrite (nm_addrs _ _ Hn).
  - apply leave_Some in Hx as (? & ? & ? & -> & _). by eapply (named_insert addrs P).
  - cbn in Hx. destruct (sv_stopped _); [|done]. apply leave_Some in Hx as (? & ? & ? & -> & _). by eapply (named_insert addrs P).
  - apply sv_apply in Hx as (pc & msg & n' & _ & _ & ->). by apply (named_same addrs P).
  - cbn in Hx. destruct (p_inHand P); [|done]. destruct (Nat.leb _ _); [|done]. injection Hx as <-. by apply (named_same addrs P).
  - cbn in Hx. unfold receive in Hx. destruct (p_applyCh P) as [|msg rest]; [done|]. cbv zeta in Hx.
    destruct (lift_server _ P) as [[[|] P1]|] eqn:Hlift; try done. injection Hx as <-.
    apply lift_server_Some in Hlift as (s & Hrun & ->).
    assert (sv_leaderAddrs s = sv_leaderAddrs (p_server P)) as E.
    { revert Hrun. unfold runApplyLoop_msg, get, mbind, GoM_bind, modify. destruct msg as [command index t|snap i t].
      - destruct (Apply command _) as [[cmd r] st]. intros Hrun.
        exact (wp_run _ _ _ _ _ _ (deliver_addrs index (MkResult cmd r) (set_store st (p_server P))) Hrun).
      - destruct (Restore snap _) as [[err|] st]; [done|]. by intros [= <-]. }
    eapply (named_same addrs P); [exact E|done| |done]. destruct msg as [command index t|snap i t]; cbn; [|done].
    destruct (Apply command _) as [[cmd r] st]. intros x Hx. by right.
  - apply sv_trigger in Hx as (index & n' & _ & _ & ->). by apply (named_same addrs P).
  - apply sv_snap_store in Hx as (index & _ & [->|(data & _ & ->)]); by apply (named_same addrs P).
  - apply sv_snap_node in Hx as (index & data & r & n' & _ & _ & ->). by apply (named_same addrs P).
  - injection Hx as <-. by apply (named_same addrs P).
Qed.

(** ** The cluster *)
Record hints_ok K : Prop := {
  hi_leaders : leaders_known members (rw_world (kw_raft K));
  hi_servers p P : kw_procs K !! p = Some P → named (addrs_of p) P;
}.

(** The cluster's part of a step. *)
Lemma kstep_raft h K K' :
  KInv members cfg_of h K → kstep cfg_of addrs_of K K' → kw_raft K' = kw_raft K ∨ rstep cfg_of (kw_raft K) (kw_raft K').
Proof.
  intros HK (ev & Hok & Hx). destruct ev as [ev|p e|p|p st|p env]; cbn [kexec] in Hx.
  - destruct (raft_event ev); [|done]. apply bind_Some in Hx as (R' & Hx & [= <-]). right.
    apply (rexec_sound cfg_of ev); [by destruct ev|done].
  - apply bind_Some in Hx as (P & HP & Hx). destruct (server_event e) eqn:Hse; [|done].
    apply bind_Some in Hx as (P' & Hx & [= <-]). destruct (Hok P HP) as [Hev _]. unfold node_event in Hev.
    destruct (ki_server _ _ _ _ HK _ _ HP) as [Hn Hi _ _]. pose proof (server_node _ _ _ Hi Hse Hx) as Hnode. cbn [kw_raft note_log].
    destruct (node_op e P) as [op|]; [right|by left]. apply (rexec_sound cfg_of (REvent_base (EvLocal p op))); [exact Hev|].
    cbn. unfold up_node. rewrite Hn. cbn. by rewrite Hnode.
  - apply bind_Some in Hx as (R' & Hx & [= <-]). right. by apply (rexec_sound cfg_of (REvent_base (EvCrash p))).
  - apply bind_Some in Hx as (R' & Hx & [= <-]). right. by apply (rexec_sound cfg_of (REvent_reopen p st)).
  - apply bind_Some in Hx as (R' & Hx & Hx'). apply bind_Some in Hx' as (n & Hn & [= <-]).
    right. by apply (rexec_sound cfg_of (REvent_base (EvRestart p env))).
Qed.

Lemma hints_ok_step h K K' : KInv members cfg_of h K → kstep cfg_of addrs_of K K' → hints_ok K → hints_ok K'.
Proof.
  intros HK Hst [Hl Hs]. split.
  { destruct (kstep_raft _ _ _ HK Hst) as [->|Hr]; [done|].
    by apply (leaders_step members cfg_of _ _ _ (ki_raft _ _ _ _ HK) Hr). }
  destruct Hst as (ev & _ & Hx). destruct ev as [ev|q e|q|q st|q env]; cbn [kexec] in Hx.
  - destruct (raft_event ev); [|done]. apply bind_Some in Hx as (R' & Hx & [= <-]). cbn. intros p P HP.
    unfold reseat in HP. rewrite map_lookup_imap in HP. apply bind_Some in HP as (P0 & HP0 & [= <-]).
    pose proof (Hs _ _ HP0) as Hn. destruct (up_node (rw_world R') p); [by eapply (named_same _ P0)|done].
  - apply bind_Some in Hx as (Q & HQ & Hx). destruct (server_event e) eqn:Hse; [|done].
    apply bind_Some in Hx as (Q' & Hx & [= <-]). cbn. intros p P [[<- <-]|[_ HP]]%lookup_insert_Some; [|by apply Hs].
    destruct (ki_server _ _ _ _ HK _ _ HQ) as [Hn Hi _ _]. eapply named_step; [exact Hse|exact Hi| |exact Hx|by apply Hs].
    by apply (Hl _ _ Hn).
  - apply bind_Some in Hx as (R' & Hx & [= <-]). cbn. intros p P [_ HP]%lookup_delete_Some. by apply Hs.
  - apply bind_Some in Hx as (R' & Hx & [= <-]). cbn. intros p P [_ HP]%lookup_delete_Some. by apply Hs.
  - apply bind_Some in Hx as (R' & Hx & Hx'). apply bind_Some in Hx' as (n & Hn & [= <-]). cbn.
    intros p P [[<- <-]|[_ HP]]%lookup_insert_Some; [|by apply Hs]. by split.
Qed.

Lemma hints_ok_initial K : kinitial members K → hints_ok K.
Proof.
  intros (Hi & Hp & _ & _). split; [|intros p P; by rewrite Hp, lookup_empty].
  intros p n Hpn. destruct Hi as ((_ & _ & _ & _ & Hdn) & _). by destruct (Hdn _ _ Hpn) as (_ & st & ? & _).
Qed.

(** A server whose node is enabled names nobody outside its cluster. *)
Lemma reply_names h K p P k cmd r :
  KInv members cfg_of h K → hints_ok K → running K p P → p_calls P !! k = Some (Returned cmd (inl r)) →
  may_name (addrs_of p) (LeaderHint r).
Proof.
  intros HK [_ Hs] HP Hret. pose proof HP as [HPl _]. destruct (Hs _ _ HPl) as [_ Hc].
  destruct (Forall_lookup_1 _ _ _ _ Hc Hret) as [?|Han]; [done|left].
  destruct (answered_position _ _ _ _ _ _ _ _ HK HP Han) as (i & b & e & c & reply & _ & _ & _ & _ & _ & _ & _ & Hrep & ->).
  exact (proj2 (apply_no_hints c _ (store_after_no_hints _)) _ Hrep).
Qed.
End Hints.
