(* ===== verification/ReplicatedPlain.v ===== *)
(** * Clusters that take no snapshots

    The two conditions of [kevent_ok] on snapshots, and [installable], only bear
    on clusters that take some.  With [SnapshotThreshold] zero a node never asks
    for one, the snapshot loop of its server never gets an index, and every run of
    such servers meets the conditions: what is proved of [kstep] holds of them
    unconditionally. *)
From S2P Require Import Prelude RaftTypes RaftNode RaftVotes RaftCluster RaftElection RaftLog RaftReplicate RaftFaults RaftService RaftHistory RaftCompaction RaftReplication RaftMoves RaftInvariant RaftRestart RaftSafety RaftOrigins RaftAgreement KVStore KVServer KVServerProperties LogStore ReplicatedStore ReplicatedInvariant ReplicatedProperties.

(** A node with snapshots disabled asks for none, and index 0 triggers none. *)
Lemma disabled_tick {S} `{!Storage S} e (n : Node S) acts n' :
  (c_SnapshotThreshold (n_cfg n) ≤ 0)%Z → tick e n = Val (Some acts, n') → ta_snapshotRequestIndex acts = 0%N.
Proof.
  intros Ht. unfold tick, get, modify, when, mbind, GoM_bind, mret, GoM_ret. destruct (n_failed n); [done|].
  assert (∀ n1 : Node S, n_cfg n1 = n_cfg n → snapshot_due n1 = false) as Hdue.
  { intros n1 E. unfold snapshot_due. rewrite E. by replace (0 <? c_SnapshotThreshold (n_cfg n))%Z with false by lia. }
  rewrite Hdue by done. destruct (_ && _); cbn; by intros [= <- _].
Qed.

Lemma trigger_zero {S} `{!Storage S} (n : Node S) : trigger_snapshot 0 n = Val ((), n).
Proof. done. Qed.

Section Plain.
Context {S : Type} `{StorageSpec S} {codec : KVCodec} {spec : KVCodecSpec}.
Implicit Types (P : Process (S := S)) (n : Node S) (K : KWorld S).
Variable members : list NodeID.
Variable cfg_of : NodeID → Config.
Variable addrs_of : NodeID → gmap NodeID string.
Hypothesis Hwf : cluster_wf (S := S) members cfg_of.
Hypothesis Hodd : Nat.Odd (length members).

(** [kevent_ok] without its conditions on snapshots. *)
Definition raft_ok (ev : KEvent) K : Prop :=
  match ev with
  | KRaft (REvent_base ev) => event_ok cfg_of (rw_world (kw_raft K)) ev
  | KRaft _ => True
  | KServer p e => ∀ P, kw_procs K !! p = Some P → from_option (event_ok cfg_of (rw_world (kw_raft K))) True (node_event p e P)
  | KCrash p => event_ok cfg_of (rw_world (kw_raft K)) (EvCrash p)
  | KDie _ _ => True
  | KRestart p env => event_ok cfg_of (rw_world (kw_raft K)) (EvRestart p env)
  end.

Definition triggers (ev : KEvent (S := S)) : Prop := match ev with KServer _ EvTrigger => True | _ => False end.

(** Any step in which no snapshot loop gets an index. *)
Definition plain_kstep K K' : Prop := ∃ ev, raft_ok ev K ∧ ¬ triggers ev ∧ kexec cfg_of addrs_of ev K = Some K'.

Record unsnapped K : Prop := {
  un_raft : compacted (kw_raft K) 0;
  un_idle p P : kw_procs K !! p = Some P → p_snap P = SnapIdle;
}.

(** Nothing a node of such a cluster is sent is refused by [installable]. *)
Lemma unsnapped_installable K q args n : unsnapped K → (q, args) ∈ rw_snapshots (kw_raft K) → installable n args.
Proof.
  intros [Hc _] Hin. assert (is_LastIncludedIndex args = 0)%N as E.
  { destruct (N.eq_0_gt_0_cases (is_LastIncludedIndex args)) as [?|Hlt]; [done|]. pose proof (sn_sent _ _ Hc _ _ Hin Hlt). cbn in *. lia. }
  unfold installable. apply Forall_forall. intros e _. rewrite E. lia.
Qed.

Lemma idle_kept e P P' : ¬ triggers (KServer "" e) → p_snap P = SnapIdle → sv_exec e P = Some P' → p_snap P' = SnapIdle.
Proof.
  intros Ht Hi Hx. destruct e as [c|i|i|i|m| | | | | | |]; try done.
  - cbn in Hx. destruct (is_new_call c); [|done]. by injection Hx as <-.
  - by apply sv_step_call in Hx as (c & c' & s & _ & _ & ->).
  - by apply leave_Some in Hx as (? & ? & ? & -> & _).
  - cbn in Hx. destruct (sv_stopped _); [|done]. by apply leave_Some in Hx as (? & ? & ? & -> & _).
  - cbn in Hx. destruct (lift_server _ P) as [[[] P1]|] eqn:Hl; [|done]. injection Hx as <-.
    by apply on_node_Some in Hl as (n' & _ & ->).
  - by apply sv_apply in Hx as (pc & msg & n' & _ & _ & ->).
  - cbn in Hx. destruct (p_inHand P); [|done]. destruct (Nat.leb _ _); [|done]. by injection Hx as <-.
  - cbn in Hx. unfold receive in Hx. destruct (p_applyCh P) as [|msg rest]; [done|]. cbv zeta in Hx.
    destruct (lift_server _ P) as [[[|] P1]|] eqn:Hl; try done. injection Hx as <-. by apply lift_server_Some in Hl as (s & _ & ->).
  - cbn in Hx. unfold snapshot_step in Hx. by rewrite Hi in Hx.
  - cbn in Hx. unfold snapshot_step in Hx. by rewrite Hi in Hx.
  - by injection Hx as <-.
Qed.

Lemma plain_kstep_ok h K ev :
  unsnapped K → raft_ok ev K → ¬ triggers ev → is_Some (kexec cfg_of addrs_of ev K) → KInv members cfg_of h K →
  kevent_ok cfg_of ev K.
Proof.
  intros [Hc Hi] Hok Ht [K' Hx] HK. destruct ev as [[ev| | | | |q args e| |]|p e|p|p st|p env]; try done.
  - cbn in Hx. apply bind_Some in Hx as (R' & Hx & _). apply bind_Some in Hx as (n0 & Hn & Hx).
    case_bool_decide as Hin; [|done]. destruct Hin as [Hin _]. intros n _. left.
    destruct (N.eq_0_gt_0_cases (is_LastIncludedIndex args)) as [->|Hlt]; [lia|].
    pose proof (sn_sent _ _ Hc _ _ Hin Hlt). cbn in *. lia.
  - intros P HP. split; [by apply Hok|]. destruct e; try done. cbn. by rewrite (Hi _ _ HP).
Qed.

Lemma unsnapped_step h K ev K' :
  KInv members cfg_of h K → unsnapped K → raft_ok ev K → ¬ triggers ev → kexec cfg_of addrs_of ev K = Some K' → unsnapped K'.
Proof.
  intros HK HU Hok Ht Hx. pose proof HU as [Hc Hi]. pose proof (ki_raft _ _ _ _ HK) as HR.
  assert (∀ rev R', match rev with REvent_base ev => event_ok cfg_of (rw_world (kw_raft K)) ev | _ => True end →
    offers_only (λ i _, (i ≤ 0)%N) rev (kw_raft K) → rexec cfg_of rev (kw_raft K) = Some R' → compacted R' 0) as Hstep.
  { intros rev R' Hrok Hof Hrx. by apply (snapshots_step members cfg_of Hwf Hodd _ h (kw_raft K) rev). }
  destruct ev as [ev|p e|p|p st|p env]; cbn [kexec] in Hx.
  - destruct (raft_event ev) eqn:Hev; [|done]. apply bind_Some in Hx as (R' & Hx & [= <-]). split; cbn.
    + apply (Hstep ev); [by destruct ev| |done]. by destruct ev as [[? []| | | | | |]| | | | | | |].
    + intros q P HP. unfold reseat in HP. rewrite map_lookup_imap in HP. apply bind_Some in HP as (P0 & HP0 & [= <-]).
      destruct (up_node _ q); [|by apply (Hi q)]. by apply (Hi q P0).
  - apply bind_Some in Hx as (P & HP & Hx). destruct (server_event e) eqn:Hse; [|done].
    apply bind_Some in Hx as (P' & Hx & [= <-]). cbn. pose proof (Hi _ _ HP) as Hidle.
    destruct (ki_server _ _ _ _ HK _ _ HP) as [Hn Hinv _ _]. pose proof (server_node _ _ _ Hinv Hse Hx) as Hnode. split; cbn.
    + destruct (node_op e P) as [op|] eqn:Hop; [|done]. apply (Hstep (REvent_base (EvLocal p op))).
      * specialize (Hok _ HP). unfold node_event in Hok. by rewrite Hop in Hok.
      * destruct op; try done. exfalso. destruct e; try done; cbn in Hop; rewrite ?Hidle in Hop; repeat case_match; done.
      * cbn. unfold up_node. rewrite Hn. cbn. by rewrite Hnode.
    + intros q Q [[<- <-]|[_ HQ]]%lookup_insert_Some; [|by apply (Hi q)]. by eapply idle_kept.
  - apply bind_Some in Hx as (R' & Hx & [= <-]). split; cbn; [by apply (Hstep (REvent_base (EvCrash p)))|].
    intros q P [_ HP]%lookup_delete_Some. by apply (Hi q).
  - apply bind_Some in Hx as (R' & Hx & [= <-]). split; cbn; [by apply (Hstep (REvent_reopen p st))|].
    intros q P [_ HP]%lookup_delete_Some. by apply (Hi q).
  - apply bind_Some in Hx as (R' & Hx & Hx'). apply bind_Some in Hx' as (n & Hn & [= <-]).
    split; cbn; [by apply (Hstep (REvent_base (EvRestart p env)))|].
    intros q P [[<- <-]|[_ HP]]%lookup_insert_Some; [done|by apply (Hi q)].
Qed.

(** Every run without snapshots meets the conditions on them. *)
Theorem plain_runs K0 K : kinitial members K0 → rtc plain_kstep K0 K → rtc (kstep cfg_of addrs_of) K0 K.
Proof.
  intros Hini Hrun. assert (unsnapped K0) as HU.
  { destruct Hini as (Hr & Hp & _ & _). split; [by eapply snapshots_initial|]. intros p P. by rewrite Hp, lookup_empty. }
  pose proof (KInv_initial members cfg_of K0 Hini) as HK. revert HU HK. generalize no_history.
  clear Hini. induction Hrun as [K|K K1 K2 (ev & Hok & Ht & Hx) _ IH]; intros h HU HK; [done|].
  assert (kstep cfg_of addrs_of K K1) as Hst by (exists ev; split; [by eapply plain_kstep_ok|done]).
  destruct (kstep_preserves _ _ _ Hwf Hodd _ _ _ HK Hst) as (h1 & _ & HK1 & _).
  eapply rtc_l; [exact Hst|]. apply (IH h1); [by apply (unsnapped_step h K ev)|done].
Qed.
End Plain.
