(* ===== verification/Linearizability.v ===== *)
(** * The replicated store is linearizable

    The clients of internal/testutil/linearizability.go on the cluster of
    ReplicatedStore: a client notes the time, sends its command to servers, the
    same command again if it does not get through, and records the first reply
    that is a success; or it gives up and records a write as pending.  A client
    has one operation at a time and numbers them upwards.  The history recorded
    is linearizable for [KVModel].

    The proof reads the order in which operations took effect off the log: a
    write at its first entry, a read after the entries its server's store had
    executed, which are those before its own entry unless the server had restored
    a snapshot. *)
From S2P Require Import Prelude RaftTypes MemoryStorage RaftNode RaftVotes RaftCluster RaftElection RaftLog RaftReplicate RaftService RaftHistory RaftCompaction RaftReplication RaftMoves RaftInvariant RaftSafety RaftOrigins RaftAgreement KVStore History KVServer KVServerProperties LogStore ReplicatedStore ReplicatedInvariant ReplicatedProperties.

(** ** Clients *)

(** One operation: the call that is recorded and the command sent for it. *)
Record ClientOp : Type := MkOp { op_call : ClientCall; op_cmd : KVCommand }.

(** Operations are told apart by client id and sequence number. *)
Definition call_id (c : KVCommand) : N := Npos (encode (ClientId c, SeqNo c)).

Lemma call_id_inj c c' : call_id c = call_id c' → ClientId c = ClientId c' ∧ SeqNo c = SeqNo c'.
Proof. unfold call_id. intros [= [= -> ->]%(inj encode)]. done. Qed.

(** The command a client sends for an input. *)
Definition request (client : string) (seq : N) (inp : KVInput) : option KVCommand :=
  (λ c, MkCommand client seq (Op_ c) (Key c) (Value c)) <$> command_of inp.

Section Clients.
Context {S : Type} `{StorageSpec S} {codec : KVCodec}.

(** [cw_recorded] says which operation each record is of and [cw_times] when
    each entry of [kw_log] was first committed. *)
Record CWorld : Type := MkCWorld {
  cw_store : KWorld S;
  cw_now : Z;
  cw_ops : gmap N ClientOp;
  cw_history : History;
  cw_recorded : list (N * Operation);
  cw_times : list Z;
}.

Variable cfg_of : NodeID → Config.
Variable addrs_of : NodeID → gmap NodeID string.

Definition op_status (op : ClientOp) : OpStatus := ca_status (op_call op).
Definition op_input (op : ClientOp) : KVInput := ca_input (op_call op).
Definition settle (st : OpStatus) (op : ClientOp) : ClientOp := MkOp (set_status st (op_call op)) (op_cmd op).

(** The servers are called with commands of running operations only. *)
Definition calls_running (ops : gmap N ClientOp) (K K' : KWorld S) : Prop :=
  ∀ c, c ∈ kw_invoked K' → c ∈ kw_invoked K ∨
    ∃ op, ops !! call_id c = Some op ∧ op_cmd op = c ∧ op_status op = OpRunning.

Inductive client_step : CWorld → CWorld → Prop :=
| cl_time t' K t ops h rs ts :
    (t ≤ t')%Z → (t' - h_start h ≤ maxInt64)%Z →
    client_step (MkCWorld K t ops h rs ts) (MkCWorld K t' ops h rs ts)
| cl_store K' K t ops h rs ts :
    kstep cfg_of addrs_of K K' → calls_running ops K K' →
    client_step (MkCWorld K t ops h rs ts)
      (MkCWorld K' t ops h rs (ts ++ replicate (length (kw_log K') - length (kw_log K)) (Now t h)))
| cl_begin client seq inp c recorder K t ops h rs ts :
    request client seq inp = Some c →
    (∀ id op, ops !! id = Some op → ClientId (op_cmd op) = client →
       (SeqNo (op_cmd op) < seq)%N ∧ op_status op ≠ OpRunning) →
    client_step (MkCWorld K t ops h rs ts)
      (MkCWorld K t (<[call_id c := MkOp (MkCall recorder (Now t h) inp OpRunning) c]> ops) h rs ts)
| cl_complete id op p P k r out h' o K t ops h rs ts :
    ops !! id = Some op → op_status op = OpRunning →
    running K p P → p_calls P !! k = Some (Returned (op_cmd op) (inl r)) → Success r = true →
    out = (if is_read (op_input op) then r_Value r else ""%string) →
    Complete t (ca_client (op_call op)) (ca_call (op_call op)) (op_input op) out h = Val ((), h') →
    last (h_ops h') = Some o →
    client_step (MkCWorld K t ops h rs ts)
      (MkCWorld K t (<[id := settle OpRecorded op]> ops) h' (rs ++ [(id, o)]) ts)
| cl_pending id op h' o K t ops h rs ts :
    ops !! id = Some op → op_status op = OpRunning → is_read (op_input op) = false →
    Pending (ca_client (op_call op)) (ca_call (op_call op)) (op_input op) h = Val ((), h') →
    last (h_ops h') = Some o →
    client_step (MkCWorld K t ops h rs ts)
      (MkCWorld K t (<[id := settle OpRecorded op]> ops) h' (rs ++ [(id, o)]) ts)
| cl_drop id op K t ops h rs ts :
    ops !! id = Some op → op_status op = OpRunning → is_read (op_input op) = true →
    client_step (MkCWorld K t ops h rs ts) (MkCWorld K t (<[id := settle OpDropped op]> ops) h rs ts).

(** The history is looked at when no write is under way. *)
Definition all_settled (W : CWorld) : Prop :=
  ∀ id op, cw_ops W !! id = Some op → op_status op = OpRunning → is_read (op_input op) = true.

Definition fresh_cworld (K : KWorld S) (t : Z) : CWorld := MkCWorld K t ∅ (NewHistory t) [] [].

(** ** The order of effects *)

(** The write that took effect at position [k], ... *)
Definition write_at (L : Entries) (ts : list Z) (ops : gmap N ClientOp) (k : nat) : option Effect :=
  e ← L !! k; c ← decode (Command e); op ← ops !! call_id c; t ← ts !! k;
  if is_read (op_input op) then None
  else if takes_effect (commands (take k L)) c then Some (MkEffect (call_id c) (op_input op) "" t) else None.

(** ... a read that was answered by a store which has executed the entries up to
    position [x.2], ... *)
Definition read_effect (L : Entries) (ts : list Z) (ops : gmap N ClientOp) (x : N * nat) : option Effect :=
  op ← ops !! x.1; t ← ts !! x.2;
  Some (MkEffect x.1 (op_input op) (str_get (data (store_after (take (x.2 + 1) L))) (in_Key (op_input op))) t).

(** ... and all that happened at a position and up to the end of the log.
    [reads] lists the answered reads with their positions. *)
Definition effects_at (L : Entries) (ts : list Z) (ops : gmap N ClientOp) (reads : list (N * nat)) (k : nat) : list Effect :=
  option_list (write_at L ts ops k) ++ omap (read_effect L ts ops) (filter (λ x, x.2 = k) reads).

Definition effects (L : Entries) (ts : list Z) (ops : gmap N ClientOp) (reads : list (N * nat)) : list Effect :=
  seq 0 (length L) ≫= effects_at L ts ops reads.

(** The atomic store the cluster looks like. *)
Definition atomic (reads : list (N * nat)) (W : CWorld) : TestWorld :=
  MkTestWorld (cw_now W) (data (store_after (kw_log (cw_store W)))) (op_call <$> cw_ops W) (cw_history W)
    (effects (kw_log (cw_store W)) (cw_times W) (cw_ops W) reads) (cw_recorded W).
End Clients.

Arguments CWorld S : clear implicits.
#[local] Arguments KVModel_key : simpl never.
#[local] Arguments pairs : simpl never.

(** ** Reading the log *)
Section Log.
Context {codec : KVCodec}.
Implicit Types (L : Entries) (ops : gmap N ClientOp).

Lemma request_inv client seq inp c :
  request client seq inp = Some c →
  ∃ c0, command_of inp = Some c0 ∧ ClientId c = client ∧ SeqNo c = seq ∧ Op_ c = Op_ c0 ∧ Key c = Key c0 ∧
    Value c = Value c0 ∧ Key c = in_Key inp ∧ dedupes c = negb (is_read inp).
Proof.
  unfold request, command_of, is_read. destruct inp as [[| | |z] key v]; cbn; [..|done]; intros [= <-]; eexists; by split_and!.
Qed.

(** An operation's command does to the data what the model's input does. *)
Lemma request_effect client seq inp c c0 d :
  request client seq inp = Some c → command_of inp = Some c0 →
  raw_apply d c = data (applyLocked c0 (MkStore d ∅)).2 ∧ r_Value (applyLocked c0 (MkStore d ∅)).1 =
    (if is_read inp then str_get d (in_Key inp) else ""%string).
Proof.
  intros (c1 & Hc1 & _ & _ & Ho & Hk & Hv & _)%request_inv Hc0. rewrite Hc0 in Hc1. injection Hc1 as <-.
  unfold raw_apply, applyLocked. rewrite Ho, Hk, Hv. unfold command_of, is_read in *.
  destruct inp as [[| | |z] key v]; cbn in *; [..|done]; by injection Hc0 as <-.
Qed.

(** The log holds commands of operations. *)
Definition log_known L ops : Prop :=
  ∀ k e, L !! k = Some e → ∃ c op, decode (Command e) = Some c ∧ ops !! call_id c = Some op ∧
    request (ClientId c) (SeqNo c) (op_input op) = Some c.

Lemma write_at_Some L ts ops k ef :
  write_at L ts ops k = Some ef → ∃ e c op, L !! k = Some e ∧ decode (Command e) = Some c ∧
    ops !! call_id c = Some op ∧ ts !! k = Some (ef_time ef) ∧ ef_id ef = call_id c ∧
    is_read (op_input op) = false ∧ takes_effect (commands (take k L)) c = true.
Proof.
  unfold write_at. intros (e & He & (c & Hc & (op & Hop & (t & Ht & Hif)%bind_Some)%bind_Some)%bind_Some)%bind_Some.
  exists e, c, op. destruct (is_read (op_input op)); [done|]. destruct (takes_effect _ c); [|done]. by injection Hif as <-.
Qed.

Lemma read_effect_Some L ts ops x ef :
  read_effect L ts ops x = Some ef → ∃ op, ops !! x.1 = Some op ∧ ts !! x.2 = Some (ef_time ef) ∧ ef_id ef = x.1 ∧
    ef_input ef = op_input op.
Proof. unfold read_effect. intros (op & Hop & (t & Ht & [= <-])%bind_Some)%bind_Some. by exists op. Qed.

Lemma elem_of_effects_at L ts ops reads k ef :
  ef ∈ effects_at L ts ops reads k ↔
    write_at L ts ops k = Some ef ∨ ∃ id, (id, k) ∈ reads ∧ read_effect L ts ops (id, k) = Some ef.
Proof.
  assert (∀ o : option Effect, ef ∈ option_list o ↔ o = Some ef) as Ho.
  { intros [x|]; cbn; [by rewrite list_elem_of_singleton; split; [intros ->|intros [= ->]]|].
    split; [by intros ?%not_elem_of_nil|done]. }
  unfold effects_at. rewrite elem_of_app, Ho, list_elem_of_omap. f_equiv. split.
  - intros ([id k'] & [<- Hin]%list_elem_of_filter & He). by exists id.
  - intros (id & Hin & He). exists (id, k). by rewrite list_elem_of_filter.
Qed.

Lemma elem_of_effects L ts ops reads ef :
  ef ∈ effects L ts ops reads ↔ ∃ k, k < length L ∧ ef ∈ effects_at L ts ops reads k.
Proof.
  unfold effects. rewrite list_elem_of_bind. split.
  - intros (k & He & Hk%elem_of_seq). exists k. split; [lia|done].
  - intros (k & Hk & He). exists k. split; [done|apply elem_of_seq; lia].
Qed.

Lemma effects_at_ext L ts ops reads L' ts' ops' reads' k :
  write_at L ts ops k = write_at L' ts' ops' k → filter (λ x, x.2 = k) reads = filter (λ x, x.2 = k) reads' →
  (∀ id, (id, k) ∈ reads → read_effect L ts ops (id, k) = read_effect L' ts' ops' (id, k)) →
  effects_at L ts ops reads k = effects_at L' ts' ops' reads' k.
Proof.
  intros Hw Hf Hr. unfold effects_at. rewrite Hw, <- Hf. f_equal.
  apply list_omap_ext, Forall_Forall2_diag, Forall_forall. intros [id k'] [<- Hin]%list_elem_of_filter. by apply Hr.
Qed.

Lemma effects_at_prefix L L' ts ts' ops reads k :
  L `prefix_of` L' → ts `prefix_of` ts' → k < length L → k < length ts →
  effects_at L' ts' ops reads k = effects_at L ts ops reads k.
Proof.
  intros [M ->] [us ->] Hk Ht. apply effects_at_ext; [|done|].
  - unfold write_at. by rewrite !lookup_app_l, take_app_le by lia.
  - intros id _. unfold read_effect. cbn. by rewrite lookup_app_l, take_app_le by lia.
Qed.

Lemma bind_ext_in {A B} (f g : A → list B) l : (∀ x, x ∈ l → f x = g x) → l ≫= f = l ≫= g.
Proof.
  induction l as [|x l IH]; intros Hfg; [done|]. rewrite !bind_cons, IH, Hfg; [done|left|].
  intros y Hy. apply Hfg. by right.
Qed.

(** What happened up to a position and after it. *)
Lemma effects_take L ts ops reads i :
  i ≤ length L → length ts = length L →
  effects (take i L) (take i ts) ops reads = seq 0 i ≫= effects_at L ts ops reads.
Proof.
  intros Hi Hl. unfold effects. rewrite length_take, Nat.min_l by lia.
  apply bind_ext_in. intros k Hk%elem_of_seq. symmetry.
  apply effects_at_prefix; [apply prefix_take|apply prefix_take|rewrite length_take; lia..].
Qed.

Lemma effects_split L ts ops reads i :
  i ≤ length L → length ts = length L →
  effects L ts ops reads = effects (take i L) (take i ts) ops reads ++
    (seq i (length L - i) ≫= effects_at L ts ops reads).
Proof.
  intros Hi Hl. rewrite effects_take by done. unfold effects.
  replace (length L) with (i + (length L - i)) at 1 by lia. by rewrite seq_app, bind_app.
Qed.

Lemma effects_snoc L e ts t ops reads :
  length ts = length L →
  effects (L ++ [e]) (ts ++ [t]) ops reads = effects L ts ops reads ++ effects_at (L ++ [e]) (ts ++ [t]) ops reads (length L).
Proof.
  intros Hl. rewrite (effects_split _ _ _ _ (length L)) by (rewrite !length_app; cbn; lia).
  rewrite !take_app_le, <- Hl, !firstn_all, Hl, firstn_all, length_app by lia. cbn.
  replace (length L + 1 - length L) with 1 by lia. cbn. by rewrite app_nil_r.
Qed.

(** The positions of reads. *)
Definition reads_ok L ops (reads : list (N * nat)) : Prop :=
  ∀ id k, (id, k) ∈ reads → k < length L ∧
    ∃ op, ops !! id = Some op ∧ is_read (op_input op) = true ∧ op_status op = OpRecorded.

Lemma reads_there L ops reads : reads_ok L ops reads → ∀ id k, (id, k) ∈ reads → is_Some (ops !! id).
Proof. intros Hr id k (_ & op & Hop & _)%Hr. by eexists. Qed.

Lemma reads_ok_app L M ops reads : reads_ok L ops reads → reads_ok (L ++ M) ops reads.
Proof. intros Hr id k (Hk & Hop)%Hr. split; [rewrite length_app; lia|done]. Qed.

Lemma reads_before (reads : list (N * nat)) j :
  (∀ x, x ∈ reads → x.2 < j) → filter (λ x : N * nat, x.2 = j) reads = [].
Proof.
  intros Hr. destruct (filter _ _) as [|x xs] eqn:E; [done|]. assert (x ∈ x :: xs) as Hx by left.
  rewrite <- E in Hx. apply list_elem_of_filter in Hx as [Hj Hx]. specialize (Hr _ Hx). lia.
Qed.

(** A read more. *)
Lemma effects_insert L ts ops reads id j ef :
  j < length L → length ts = length L → read_effect L ts ops (id, j) = Some ef →
  ∃ es2, effects L ts ops reads = effects (take (j + 1) L) (take (j + 1) ts) ops reads ++ es2 ∧
    effects L ts ops (reads ++ [(id, j)]) = effects (take (j + 1) L) (take (j + 1) ts) ops reads ++ ef :: es2 ∧
    (∀ e, e ∈ effects (take (j + 1) L) (take (j + 1) ts) ops reads → ∃ k, k ≤ j ∧ e ∈ effects_at L ts ops reads k) ∧
    (∀ e, e ∈ es2 → ∃ k, j ≤ k ∧ e ∈ effects_at L ts ops reads k).
Proof.
  intros Hj Hl Hef. exists (seq (j + 1) (length L - (j + 1)) ≫= effects_at L ts ops reads).
  assert (∀ k, k ≠ j → effects_at L ts ops (reads ++ [(id, j)]) k = effects_at L ts ops reads k) as Hne.
  { intros k Hk. apply effects_at_ext; [done| |done]. rewrite filter_app, filter_cons_False by (cbn; congruence).
    by rewrite filter_nil, app_nil_r. }
  assert (effects_at L ts ops (reads ++ [(id, j)]) j = effects_at L ts ops reads j ++ [ef]) as Hat.
  { unfold effects_at. rewrite filter_app, filter_cons_True, filter_nil, omap_app by done. cbn. by rewrite Hef, app_assoc. }
  split; [by apply effects_split; lia|]. split; [|split].
  - rewrite (effects_split _ _ _ _ (j + 1)), !effects_take, seq_app, !bind_app by lia. cbn. rewrite Hat, !app_nil_r.
    rewrite (bind_ext_in (effects_at L ts ops (reads ++ [(id, j)])) (effects_at L ts ops reads)).
    2: { intros k Hk%elem_of_seq. apply Hne. lia. }
    rewrite (bind_ext_in (effects_at L ts ops (reads ++ [(id, j)])) (effects_at L ts ops reads)).
    2: { intros k Hk%elem_of_seq. apply Hne. lia. }
    by rewrite <- !app_assoc.
  - intros e. rewrite effects_take, list_elem_of_bind by lia. intros (k & He & Hk%elem_of_seq). exists k. split; [lia|done].
  - intros e. rewrite list_elem_of_bind. intros (k & He & Hk%elem_of_seq). exists k. split; [lia|done].
Qed.

Lemma sorted_times ts i j a b : StronglySorted Z.le ts → ts !! i = Some a → ts !! j = Some b → i ≤ j → (a ≤ b)%Z.
Proof.
  intros Hs. revert i j. induction Hs as [|x ts _ IH Hx]; intros i j Ha Hb Hij; [done|].
  destruct i as [|i], j as [|j]; cbn in *; try lia.
  - simplify_eq. lia.
  - simplify_eq. rewrite Forall_forall in Hx. apply Hx. by eapply list_elem_of_lookup_2.
  - eapply IH; try done. lia.
Qed.

(** Reads leave the model where it is. *)
Lemma reads_end L ts ops reads k st xs :
  (∀ id k, (id, k) ∈ reads → ∃ op, ops !! id = Some op ∧ is_read (op_input op) = true) → xs ⊆ reads →
  model_end st (KVModel_key k (pairs (omap (read_effect L ts ops) xs))) = st.
Proof.
  intros Hr. revert st. induction xs as [|[id j] xs IH]; intros st Hsub; [done|]. cbn.
  destruct (read_effect L ts ops (id, j)) as [ef|] eqn:He; [|apply IH; set_solver].
  destruct (read_effect_Some _ _ _ _ _ He) as (op & Hop & _ & _ & Hin). cbn in Hop.
  destruct (Hr id j) as (op' & Hop' & Hread); [set_solver|]. rewrite Hop in Hop'. injection Hop' as <-.
  unfold pairs. rewrite fmap_cons, key_cons. fold (pairs (omap (read_effect L ts ops) xs)).
  destruct (decide _); [|apply IH; set_solver]. unfold model_end in *. cbn [foldl fst snd].
  unfold KVModel_Step at 2. rewrite Hin. unfold is_read in Hread.
  destruct (in_Op (op_input op)); try done. apply IH. set_solver.
Qed.

(** At every point of the log the model's value of a key is the store's. *)
Lemma model_after L ts ops reads k :
  log_known L ops → (∀ id j, (id, j) ∈ reads → ∃ op, ops !! id = Some op ∧ is_read (op_input op) = true) →
  length ts = length L →
  model_end KVModel_Init (KVModel_key k (pairs (effects L ts ops reads))) = str_get (data (store_after L)) k.
Proof.
  intros Hkn Hreads. revert Hkn ts. induction L as [|e L IH] using rev_ind; intros Hkn ts Hl; [by destruct ts|].
  destruct ts as [|t ts _] using rev_ind; [rewrite length_app in Hl; cbn in Hl; lia|].
  rewrite !length_app, !Nat.add_1_r in Hl. injection Hl as Hl. rewrite effects_snoc by done.
  assert (log_known L ops) as HknL.
  { intros j x Hj. apply (Hkn j). rewrite lookup_app_l; [done|by eapply lookup_lt_Some]. }
  specialize (IH HknL ts Hl). unfold effects_at. unfold pairs in *. rewrite !fmap_app, !key_app, !model_end_app, IH.
  fold (pairs (omap (read_effect (L ++ [e]) (ts ++ [t]) ops) (filter (λ x : N * nat, x.2 = length L) reads))).
  rewrite (reads_end _ _ _ reads) by (done || intros x [_ ?]%list_elem_of_filter; done).
  destruct (Hkn (length L) e ltac:(by rewrite lookup_app_r, Nat.sub_diag by lia)) as (c & op & Hc & Hop & Hreq).
  destruct (request_inv _ _ _ _ Hreq) as (c0 & Hc0 & _ & _ & Ho & Hk & Hv & Hkey & Hde).
  rewrite (data_after_snoc _ _ _ Hc). destruct (request_effect _ _ _ _ _ (data (store_after L)) Hreq Hc0) as [Hraw Hval].
  destruct (applyLocked c0 (MkStore (data (store_after L)) ∅)) as [r s'] eqn:Ha.
  destruct (effect_model _ _ _ _ _ k Hc0 Ha) as [Heq Hne]. cbn in Hraw, Hval.
  unfold write_at. rewrite (lookup_app_r L) by lia. rewrite Nat.sub_diag. cbn. rewrite Hc. cbn. rewrite Hop. cbn.
  rewrite (lookup_app_r ts) by lia. rewrite Hl, Nat.sub_diag, take_app_length. cbn.
  destruct (is_read (op_input op)) eqn:Hread; cbn in Hde.
  - assert (takes_effect (commands L) c = true) as -> by (unfold takes_effect; by rewrite Hde).
    unfold raw_apply, applyLocked. unfold command_of in Hc0. rewrite Ho.
    unfold is_read in Hread. destruct (op_input op) as [[| | |] ? ?]; try done. by injection Hc0 as <-.
  - destruct (takes_effect _ c); cbn; [|done]. rewrite Hraw, key_cons.
    destruct (decide (in_Key (op_input op) = k)) as [E|E]; [|cbn; by rewrite Hne].
    specialize (Heq E). unfold model_end. cbn. by rewrite <- Hval, Heq.
Qed.
(** A read changes nothing, and is answered with the value of its key. *)
Lemma read_keeps c st :
  dedupes c = false →
  applyLocked c st = (MkReply true (str_get (data st) (Key c)) (bool_decide (is_Some (data st !! Key c))) "" "" 0, st).
Proof. unfold dedupes, applyLocked. by destruct (bool_decide_reflect (Op_ c = OP_GET)) as [->|]. Qed.

Lemma read_value c st reply :
  dedupes c = false → (apply_cmd c st).1 = Some reply → r_Value reply = str_get (data st) (Key c).
Proof. intros Hde. unfold apply_cmd, dedup_reply. rewrite Hde, read_keeps by done. by intros [= <-]. Qed.

(** A store that answered it is that of a place after its entry. *)
Lemma read_position L i b e c :
  L !! i = Some e → decode (Command e) = Some c → dedupes c = false → i ≤ b ≤ length L →
  ∃ j, i ≤ j < length L ∧ data (store_after (take (j + 1) L)) = data (store_after (take b L)).
Proof.
  intros He Hd Hde Hb. destruct (decide (b = i)) as [->|Hne].
  - exists i. split; [split; [done|by eapply lookup_lt_Some]|].
    rewrite Nat.add_1_r, (take_S_r _ _ _ He), (data_after_snoc _ _ _ Hd). unfold raw_apply.
    rewrite read_keeps by done. by destruct (takes_effect _ c).
  - exists (b - 1). split; [lia|]. by replace (b - 1 + 1) with b by lia.
Qed.
End Log.

(** ** The invariant *)
Section Invariant.
Context {S : Type} `{StorageSpec S} {codec : KVCodec} {spec : KVCodecSpec}.
Implicit Types (K : KWorld S) (W : CWorld S) (L : Entries) (ops : gmap N ClientOp).
Variable members : list NodeID.
Variable cfg_of : NodeID → Config.
Variable addrs_of : NodeID → gmap NodeID string.
Hypothesis Hwf : cluster_wf (S := S) members cfg_of.
Hypothesis Hodd : Nat.Odd (length members).

Record ops_ok ops : Prop := {
  oo_id id op : ops !! id = Some op → id = call_id (op_cmd op) ∧
    request (ClientId (op_cmd op)) (SeqNo (op_cmd op)) (op_input op) = Some (op_cmd op);
  oo_order id op id' op' : ops !! id = Some op → ops !! id' = Some op' →
    ClientId (op_cmd op) = ClientId (op_cmd op') → (SeqNo (op_cmd op) < SeqNo (op_cmd op'))%N →
    op_status op ≠ OpRunning;
}.

(** Every entry is of an operation that had begun when it was committed. *)
Definition entries_after ops L (ts : list Z) : Prop :=
  ∀ k e, L !! k = Some e → ∃ op t, decode (Command e) = Some (op_cmd op) ∧
    ops !! call_id (op_cmd op) = Some op ∧ ts !! k = Some t ∧ (ca_call (op_call op) ≤ t)%Z.

Record CInv (reads : list (N * nat)) W : Prop := {
  cv_store : ∃ h, KInv members cfg_of h (cw_store W);
  cv_ops : ops_ok (cw_ops W);
  cv_invoked c : c ∈ kw_invoked (cw_store W) → ∃ op, cw_ops W !! call_id c = Some op ∧ op_cmd op = c;
  cv_after : entries_after (cw_ops W) (kw_log (cw_store W)) (cw_times W);
  cv_length : length (cw_times W) = length (kw_log (cw_store W));
  cv_sorted : StronglySorted Z.le (cw_times W);
  cv_now : Forall (λ t, (t ≤ Now (cw_now W) (cw_history W))%Z) (cw_times W);
  cv_reads : reads_ok (kw_log (cw_store W)) (cw_ops W) reads;
  cv_test : test_inv (atomic reads W);
}.

Lemma log_known_after ops L ts : ops_ok ops → entries_after ops L ts → log_known L ops.
Proof.
  intros Ho Ha k e Hk. destruct (Ha _ _ Hk) as (op & t & Hd & Hop & _). exists (op_cmd op), op.
  split; [done|]. split; [done|]. by apply (oo_id _ Ho _ _ Hop).
Qed.

(** The operation of a write that took effect. *)
Lemma write_op ops L ts k ef :
  ops_ok ops → entries_after ops L ts → write_at L ts ops k = Some ef →
  ∃ e op, L !! k = Some e ∧ decode (Command e) = Some (op_cmd op) ∧ ops !! call_id (op_cmd op) = Some op ∧
    ef_id ef = call_id (op_cmd op) ∧ is_read (op_input op) = false.
Proof.
  intros Ho Ha (e & c & op & He & Hc & Hop & _ & Hid & Hr & _)%write_at_Some.
  destruct (Ha _ _ He) as (op1 & t1 & Hd1 & Hop1 & _). rewrite Hc in Hd1. injection Hd1 as ->.
  rewrite Hop in Hop1. injection Hop1 as <-. by exists e, op.
Qed.

(** What an effect is of. *)
Lemma effect_op ops L ts reads k ef :
  ops_ok ops → entries_after ops L ts → reads_ok L ops reads → ef ∈ effects_at L ts ops reads k →
  ts !! k = Some (ef_time ef) ∧ ∃ op, ops !! ef_id ef = Some op ∧
    if is_read (op_input op) then op_status op = OpRecorded
    else ∃ e, L !! k = Some e ∧ decode (Command e) = Some (op_cmd op) ∧ ef_id ef = call_id (op_cmd op).
Proof.
  intros Ho Ha Hr [Hw|(id & Hin & He)]%elem_of_effects_at.
  - destruct (write_op _ _ _ _ _ Ho Ha Hw) as (e & op & He & Hd & Hop & Hid & Hread).
    destruct (write_at_Some _ _ _ _ _ Hw) as (_ & _ & _ & _ & _ & _ & Ht & _). split; [done|]. exists op.
    rewrite Hid, Hread. split; [done|]. by exists e.
  - destruct (Hr _ _ Hin) as (_ & op & Hop & Hread & Hst). destruct (read_effect_Some _ _ _ _ _ He) as (op' & Hop' & Ht & -> & _).
    cbn in *. split; [done|]. exists op. by rewrite Hread.
Qed.

(** ** A new entry *)
Lemma entry_step t d ops h rs L e ts op reads :
  ops_ok ops → entries_after ops L ts → length ts = length L → reads_ok L ops reads →
  decode (Command e) = Some (op_cmd op) → ops !! call_id (op_cmd op) = Some op → d = data (store_after L) →
  test_inv (MkTestWorld t d (op_call <$> ops) h (effects L ts ops reads) rs) →
  test_inv (MkTestWorld t (data (store_after (L ++ [e]))) (op_call <$> ops) h (effects (L ++ [e]) (ts ++ [Now t h]) ops reads) rs).
Proof.
  intros Ho Ha Hl Hreads Hd Hop -> Hi. rewrite effects_snoc, (data_after_snoc _ _ _ Hd) by done.
  unfold effects_at. rewrite reads_before, app_nil_r by (intros x Hx; by apply (Hreads x.1 x.2); destruct x).
  destruct (oo_id _ Ho _ _ Hop) as [_ Hreq]. destruct (request_inv _ _ _ _ Hreq) as (c0 & Hc0 & _ & _ & _ & _ & _ & _ & Hde).
  destruct (request_effect _ _ _ _ _ (data (store_after L)) Hreq Hc0) as [Hraw Hval].
  destruct (applyLocked c0 (MkStore (data (store_after L)) ∅)) as [r s'] eqn:Happ. cbn in Hraw, Hval.
  unfold write_at. rewrite (lookup_app_r L) by lia. rewrite Nat.sub_diag. cbn. rewrite Hd. cbn. rewrite Hop. cbn.
  rewrite (lookup_app_r ts) by lia. rewrite Hl, Nat.sub_diag, take_app_length. cbn.
  destruct (is_read (op_input op)) eqn:Hread; cbn in Hde.
  - cbn. rewrite app_nil_r.
    assert (raw_apply (data (store_after L)) (op_cmd op) = data (store_after L)) as ->; [|by destruct (takes_effect _ _)].
    unfold raw_apply. by rewrite read_keeps.
  - destruct (takes_effect _ (op_cmd op)) eqn:Hte; cbn; [|by rewrite app_nil_r]. rewrite Hraw.
    rewrite <- Hval. apply (test_inv_effect (call_id (op_cmd op)) (op_call op) c0 r s' t (data (store_after L)) _ h _ rs); try done.
    + by rewrite lookup_fmap, Hop.
    + intros (ef & Hid & (k & Hk & (Ht & op' & Hop' & Hif)%effect_op)%elem_of_effects)%list_elem_of_fmap; [|done..].
      rewrite <- Hid, Hop in Hop'. injection Hop' as <-. rewrite Hread in Hif. destruct Hif as (e' & He' & Hd' & _).
      pose proof (proj1 (takes_effect_spec _ _) Hte Hde (op_cmd op)) as Hlt.
      enough (SeqNo (op_cmd op) < SeqNo (op_cmd op))%N by lia. apply Hlt; [|done..].
      apply commands_elem. by exists k, e'.
Qed.

Lemma entries_after_prefix ops L M ts us :
  entries_after ops (L ++ M) (ts ++ us) → length ts = length L → entries_after ops L ts.
Proof.
  intros Ha Hl k e Hk. pose proof (lookup_lt_Some _ _ _ Hk). destruct (Ha k e) as (op & t & ? & ? & Ht & ?).
  { by rewrite lookup_app_l. }
  exists op, t. rewrite lookup_app_l in Ht by lia. done.
Qed.

Lemma log_step t ops h rs L M ts reads :
  ops_ok ops → entries_after ops (L ++ M) (ts ++ replicate (length M) (Now t h)) → length ts = length L →
  reads_ok L ops reads →
  test_inv (MkTestWorld t (data (store_after L)) (op_call <$> ops) h (effects L ts ops reads) rs) →
  test_inv (MkTestWorld t (data (store_after (L ++ M))) (op_call <$> ops) h
              (effects (L ++ M) (ts ++ replicate (length M) (Now t h)) ops reads) rs).
Proof.
  intros Ho Ha Hl Hrep Hi. induction M as [|e M IH] using rev_ind; [by rewrite !app_nil_r|].
  rewrite length_app, Nat.add_1_r, replicate_S_end, !app_assoc in *.
  assert (length (ts ++ replicate (length M) (Now t h)) = length (L ++ M)) as Hl'
    by (rewrite !length_app, length_replicate; lia).
  pose proof (entries_after_prefix _ _ _ _ _ Ha Hl') as Ha'.
  destruct (Ha (length (L ++ M)) e) as (op & t1 & Hd & Hop & _); [by rewrite lookup_app_r, Nat.sub_diag by lia|].
  eapply entry_step; try done; [by apply reads_ok_app|by apply IH].
Qed.

(** ** Other operations *)
(** Effects are those of operations that are there, and depend on their inputs. *)
Lemma effects_same ops ops' L ts reads :
  entries_after ops L ts → (∀ id k, (id, k) ∈ reads → is_Some (ops !! id)) →
  (∀ id op, ops !! id = Some op → ∃ op', ops' !! id = Some op' ∧ op_input op' = op_input op) →
  effects L ts ops' reads = effects L ts ops reads.
Proof.
  intros Ha Hr Hs. apply bind_ext_in. intros k _. apply effects_at_ext; [|done|].
  - unfold write_at. destruct (L !! k) as [e|] eqn:He; [|done]. destruct (Ha _ _ He) as (op & t & Hd & Hop & Ht & _).
    destruct (Hs _ _ Hop) as (op' & Hop' & Hin). cbn. rewrite Hd. cbn. by rewrite Hop, Hop'; cbn; rewrite Ht; cbn; rewrite Hin.
  - intros id Hin. unfold read_effect. cbn. destruct (Hr _ _ Hin) as [op Hop].
    destruct (Hs _ _ Hop) as (op' & Hop' & Hin'). rewrite Hop, Hop'. cbn. by rewrite Hin'.
Qed.

Lemma settle_input ops id op st :
  ops !! id = Some op → ∀ id1 op1, ops !! id1 = Some op1 →
    ∃ op', <[id := settle st op]> ops !! id1 = Some op' ∧ op_input op' = op_input op1.
Proof.
  intros Hid id1 op1 Hop1. destruct (decide (id = id1)) as [<-|Hne].
  - rewrite Hid in Hop1. injection Hop1 as <-. rewrite lookup_insert_eq. by eexists.
  - exists op1. by rewrite lookup_insert_ne.
Qed.

Lemma settle_reads ops L reads id op st :
  ops !! id = Some op → op_status op = OpRunning → reads_ok L ops reads → reads_ok L (<[id := settle st op]> ops) reads.
Proof.
  intros Hid Hrun Hr id1 k Hin. destruct (Hr _ _ Hin) as (Hk & op1 & Hop1 & Hread & Hst). split; [done|]. exists op1.
  rewrite lookup_insert_ne; [done|]. intros <-. rewrite Hid in Hop1. injection Hop1 as <-. congruence.
Qed.

Lemma settle_ops_ok ops id op st :
  ops_ok ops → ops !! id = Some op → st ≠ OpRunning → ops_ok (<[id := settle st op]> ops).
Proof.
  intros [Hi Ho] Hid Hst. split.
  - intros id1 op1 [[<- <-]|[_ Hq1]]%lookup_insert_Some; [exact (Hi _ _ Hid)|by apply Hi].
  - intros id1 op1 id2 op2 Hq1 Hq2 Hc Hs. apply lookup_insert_Some in Hq1 as [[<- <-]|[Hne1 Hq1]]; [done|].
    apply lookup_insert_Some in Hq2 as [[<- <-]|[_ Hq2]]; [by eapply (Ho id1 op1 id op)|by eapply (Ho id1 op1 id2 op2)].
Qed.

Lemma settle_after ops L ts id op st :
  ops !! id = Some op → entries_after ops L ts → entries_after (<[id := settle st op]> ops) L ts.
Proof.
  intros Hid Ha k e He. destruct (Ha _ _ He) as (op1 & t & Hd & Hop1 & Ht).
  destruct (decide (id = call_id (op_cmd op1))) as [E|Hne].
  - rewrite <- E, Hid in Hop1. injection Hop1 as <-. exists (settle st op), t. cbn. rewrite <- E, lookup_insert_eq. done.
  - exists op1, t. by rewrite lookup_insert_ne.
Qed.

Lemma settle_calls ops id op st :
  op_call <$> <[id := settle st op]> ops = <[id := set_status st (op_call op)]> (op_call <$> ops).
Proof. by rewrite fmap_insert. Qed.

(** A running write whose command is in the log has taken effect. *)
Lemma write_effect ops L ts reads id op k e :
  ops_ok ops → entries_after ops L ts → ops !! id = Some op → op_status op = OpRunning →
  is_read (op_input op) = false → L !! k = Some e → decode (Command e) = Some (op_cmd op) →
  ∃ ef, ef ∈ effects L ts ops reads ∧ ef_id ef = id.
Proof.
  intros Ho Ha Hid Hrun Hw. revert e. induction k as [k IH] using lt_wf_ind. intros e He Hd.
  destruct (decide (Exists (λ e', decode (Command e') = Some (op_cmd op)) (take k L))) as [Hex|Hno].
  - apply Exists_exists in Hex as (e' & [j Hj]%list_elem_of_lookup & Hd').
    apply lookup_take_Some in Hj as [Hj Hlt]. by apply (IH j Hlt e').
  - destruct (oo_id _ Ho _ _ Hid) as [Eid Hreq]. destruct (Ha _ _ He) as (op1 & t & Hd1 & Hop1 & Ht & _).
    rewrite Hd in Hd1. injection Hd1 as Hcmd. rewrite <- Hcmd, <- Eid, Hid in Hop1. injection Hop1 as <-.
    destruct (request_inv _ _ _ _ Hreq) as (_ & _ & _ & _ & _ & _ & _ & _ & Hde). rewrite Hw in Hde.
    exists (MkEffect (call_id (op_cmd op)) (op_input op) "" t). split; [|done]. apply elem_of_effects. exists k.
    split; [by eapply lookup_lt_Some|]. apply elem_of_effects_at. left. unfold write_at. rewrite He. cbn. rewrite Hd. cbn. rewrite <- Eid, Hid, Ht. cbn.
    rewrite Hw. assert (takes_effect (commands (take k L)) (op_cmd op) = true) as ->; [|done].
    apply takes_effect_spec. intros _ c' (j & e' & Hj & Hd')%commands_elem _ Hcl.
    pose proof Hj as [HjL Hlt]%lookup_take_Some. destruct (Ha _ _ HjL) as (op' & t' & Hd2 & Hop' & _).
    rewrite Hd' in Hd2. injection Hd2 as ->.
    destruct (N.lt_total (SeqNo (op_cmd op')) (SeqNo (op_cmd op))) as [?|[Heq|Hgt]]; [done| |].
    + destruct Hno. apply Exists_exists. exists e'. split; [by eapply list_elem_of_lookup_2|].
      assert (op' = op) as ->; [|done]. assert (call_id (op_cmd op') = call_id (op_cmd op)) as E by (unfold call_id; by rewrite Hcl, Heq).
      rewrite E, <- Eid, Hid in Hop'. by injection Hop'.
    + by destruct (oo_order _ Ho _ _ _ _ Hid Hop' (eq_sym Hcl) Hgt).
Qed.

(** ** The steps *)
Lemma store_step reads K' K t ops h rs ts :
  kstep cfg_of addrs_of K K' → calls_running ops K K' → CInv reads (MkCWorld K t ops h rs ts) →
  CInv reads (MkCWorld K' t ops h rs (ts ++ replicate (length (kw_log K') - length (kw_log K)) (Now t h))).
Proof.
  intros Hst Hcalls [[hh HK] Ho Hinv Ha Hl Hs Hn Hr Hi]. cbn in *.
  destruct (kstep_preserves _ _ _ Hwf Hodd _ _ _ HK Hst) as (hh' & _ & HK' & [M HM] & _).
  assert (length (kw_log K') - length (kw_log K) = length M) as -> by (rewrite HM, length_app; lia).
  assert (∀ c, c ∈ kw_invoked K' → ∃ op, ops !! call_id c = Some op ∧ op_cmd op = c) as Hinv'.
  { intros c [Hc|(op & Hop & Hc & _)]%Hcalls; [by apply Hinv|by exists op]. }
  assert (entries_after ops (kw_log K') (ts ++ replicate (length M) (Now t h))) as Ha'.
  { intros k e Hk. destruct (Nat.lt_ge_cases k (length (kw_log K))) as [Hlt|Hge].
    - rewrite HM, lookup_app_l in Hk by lia. destruct (Ha _ _ Hk) as (op & u & ? & ? & ? & ?). exists op, u.
      rewrite lookup_app_l by lia. done.
    - destruct (log_command _ _ _ _ _ _ HK' Hk) as (c & Hc & _ & Hu). destruct (Hinv' _ Hc) as (op & Hop & <-).
      exists op, (Now t h). split; [unfold decode; by rewrite Hu|]. split; [done|]. split.
      + rewrite lookup_app_r by lia. apply lookup_replicate. split; [done|]. apply lookup_lt_Some in Hk.
        rewrite HM, length_app in Hk. lia.
      + apply (ti_call _ Hi (call_id (op_cmd op))). cbn. by rewrite lookup_fmap, Hop. }
  split; cbn; try done.
  - by exists hh'.
  - rewrite HM, !length_app, length_replicate. lia.
  - apply StronglySorted_app. split_and!; [|done|].
    + intros a b Ha1 [-> _]%elem_of_replicate. by eapply (proj1 (Forall_forall _ _) Hn).
    + clear. induction (length M); cbn; constructor; [done|]. apply Forall_replicate. lia.
  - apply Forall_app. split; [done|]. apply Forall_replicate. lia.
  - rewrite HM. by apply reads_ok_app.
  - unfold atomic. cbn. rewrite HM in *. by apply log_step.
Qed.

Lemma begin_step reads client seq inp c recorder K t ops h rs ts :
  request client seq inp = Some c →
  (∀ id op, ops !! id = Some op → ClientId (op_cmd op) = client →
     (SeqNo (op_cmd op) < seq)%N ∧ op_status op ≠ OpRunning) →
  CInv reads (MkCWorld K t ops h rs ts) →
  CInv reads (MkCWorld K t (<[call_id c := MkOp (MkCall recorder (Now t h) inp OpRunning) c]> ops) h rs ts).
Proof.
  intros Hreq Hseq [HK Ho Hinv Ha Hl Hs Hn Hr Hi]. cbn in *. set (op := MkOp _ c).
  destruct (request_inv _ _ _ _ Hreq) as (c0 & Hc0 & Hcl & Hsq & _).
  assert (ops !! call_id c = None) as Hnone.
  { apply eq_None_not_Some. intros [op1 Hop1]. destruct (oo_id _ Ho _ _ Hop1) as [[E1 E2]%call_id_inj _].
    destruct (Hseq _ _ Hop1) as [Hlt _]; [congruence|]. rewrite <- E2 in Hlt. lia. }
  assert (∀ id op1, ops !! id = Some op1 → <[call_id c := op]> ops !! id = Some op1) as Hold.
  { intros id op1 Hid. rewrite lookup_insert_ne; [done|]. congruence. }
  split; cbn; try done.
  - split.
    + intros id op1 [[<- <-]|[_ Hid]]%lookup_insert_Some; [|by apply (oo_id _ Ho)]. cbn. by rewrite Hcl, Hsq.
    + intros id1 op1 id2 op2 Hq1 Hq2 Hc Hlt. apply lookup_insert_Some in Hq1 as [[<- <-]|[_ Hq1]];
        apply lookup_insert_Some in Hq2 as [[<- <-]|[_ Hq2]]; cbn in *.
      * lia.
      * destruct (Hseq _ _ Hq2); [congruence|]. lia.
      * apply (Hseq _ _ Hq1). congruence.
      * by eapply (oo_order _ Ho id1 op1 id2 op2).
  - intros c1 (op1 & Hop1 & Hc1)%Hinv. exists op1. split; [by apply Hold|done].
  - intros k e He. destruct (Ha _ _ He) as (op1 & u & ? & ? & ? & ?). exists op1, u. split_and!; try done. by apply Hold.
  - intros id k (Hk & op1 & Hop1 & Hrest)%Hr. split; [done|]. exists op1. split; [by apply Hold|done].
  - unfold atomic. cbn. rewrite fmap_insert, (effects_same ops); [|done|by eapply reads_there|].
    + apply test_inv_call; [by rewrite lookup_fmap, Hnone|by eexists|done].
    + intros id op1 Hop1. exists op1. split; [by apply Hold|done].
Qed.

(** The settling of an operation, but for the history. *)
Lemma settle_CInv reads reads' id op st K t ops h h' rs rs' ts :
  CInv reads (MkCWorld K t ops h rs ts) → ops !! id = Some op → st ≠ OpRunning → h_start h' = h_start h →
  reads_ok (kw_log K) (<[id := settle st op]> ops) reads' →
  test_inv (atomic reads' (MkCWorld K t (<[id := settle st op]> ops) h' rs' ts)) →
  CInv reads' (MkCWorld K t (<[id := settle st op]> ops) h' rs' ts).
Proof.
  intros [HK Ho Hinv Ha Hl Hs Hn Hr Hi] Hid Hst Hh Hr' Hi'. cbn in *. split; cbn; try done.
  - by apply settle_ops_ok.
  - intros c (op1 & Hop1 & Hc)%Hinv. destruct (decide (id = call_id c)) as [->|Hne].
    + rewrite Hid in Hop1. injection Hop1 as <-. exists (settle st op). by rewrite lookup_insert_eq.
    + exists op1. by rewrite lookup_insert_ne.
  - by apply settle_after.
  - unfold Now in *. by rewrite Hh.
Qed.

(** What an operation that is not an answered read leaves. *)
Lemma settle_atomic reads id op st K t ops h rs ts h' rs' :
  CInv reads (MkCWorld K t ops h rs ts) → ops !! id = Some op →
  test_inv (MkTestWorld t (data (store_after (kw_log K))) (<[id := set_status st (op_call op)]> (op_call <$> ops)) h'
              (effects (kw_log K) ts ops reads) rs') →
  test_inv (atomic reads (MkCWorld K t (<[id := settle st op]> ops) h' rs' ts)).
Proof.
  intros HC Hid Ht. unfold atomic. cbn. rewrite settle_calls, (effects_same ops); [done|..].
  - apply (cv_after _ _ HC).
  - eapply reads_there, (cv_reads _ _ HC).
  - by apply settle_input.
Qed.

Lemma pending_step reads id op h' o K t ops h rs ts :
  ops !! id = Some op → op_status op = OpRunning → is_read (op_input op) = false →
  Pending (ca_client (op_call op)) (ca_call (op_call op)) (op_input op) h = Val ((), h') → last (h_ops h') = Some o →
  CInv reads (MkCWorld K t ops h rs ts) →
  CInv reads (MkCWorld K t (<[id := settle OpRecorded op]> ops) h' (rs ++ [(id, o)]) ts).
Proof.
  intros Hid Hrun Hw [= <-] Hlast HC. cbn in Hlast. rewrite last_snoc in Hlast. injection Hlast as <-.
  eapply settle_CInv; try done; [by eapply settle_reads, (cv_reads _ _ HC)|]. eapply settle_atomic; [done..|].
  apply (test_inv_record id (op_call op) _ t _ _ h); try done; [by rewrite lookup_fmap, Hid|by left|exact (cv_test _ _ HC)].
Qed.

Lemma drop_step reads id op K t ops h rs ts :
  ops !! id = Some op → op_status op = OpRunning → is_read (op_input op) = true →
  CInv reads (MkCWorld K t ops h rs ts) →
  CInv reads (MkCWorld K t (<[id := settle OpDropped op]> ops) h rs ts).
Proof.
  intros Hid Hrun Hw HC. eapply settle_CInv; try done; [by eapply settle_reads, (cv_reads _ _ HC)|].
  eapply settle_atomic; [done..|]. apply test_inv_drop; try done; [by rewrite lookup_fmap, Hid|exact (cv_test _ _ HC)].
Qed.

(** A reply answers its operation at the position it names, from a store that
    has got there at least. *)
Lemma reply_of_op hh K ops id op p P k r :
  KInv members cfg_of hh K → ops_ok ops →
  (∀ c, c ∈ kw_invoked K → ∃ op, ops !! call_id c = Some op ∧ op_cmd op = c) →
  ops !! id = Some op → running K p P → p_calls P !! k = Some (Returned (op_cmd op) (inl r)) → Success r = true →
  ∃ i b e reply, i ≤ b ≤ length (kw_log K) ∧ kw_log K !! i = Some e ∧ decode (Command e) = Some (op_cmd op) ∧
    (apply_cmd (op_cmd op) (store_after (take b (kw_log K)))).1 = Some reply ∧ r_Value r = r_Value reply.
Proof.
  intros HK Ho Hinv Hid HP Hret Hsuc.
  destruct (reply_position _ _ _ _ _ _ _ _ _ HK HP Hret)
    as [(Hf & _)|(i & b & e & c & reply & Hri & Hb & _ & He & (Hc & _ & Hu) & Hcl & Hsq & Hrep & Er)]; [congruence|].
  destruct (Hinv _ Hc) as (op' & Hop' & Hc'). assert (call_id c = id) as E.
  { rewrite (proj1 (oo_id _ Ho _ _ Hid)). unfold call_id. by rewrite Hcl, Hsq. }
  rewrite E, Hid in Hop'. injection Hop' as <-. subst c. exists i, b, e, reply.
  split; [done|]. split; [done|]. split; [unfold decode; by rewrite Hu|]. split; [done|]. by rewrite Er.
Qed.

(** A read is answered: it took effect once the store that answered it had got
    as far as it had. *)
Lemma read_answered reads K t ops h rs ts id op i b e :
  CInv reads (MkCWorld K t ops h rs ts) → ops !! id = Some op → op_status op = OpRunning → is_read (op_input op) = true →
  kw_log K !! i = Some e → decode (Command e) = Some (op_cmd op) → i ≤ b ≤ length (kw_log K) →
  let ops' := <[id := settle OpRecorded op]> ops in
  ∃ j u, let reads' := reads ++ [(id, j)] in
    reads_ok (kw_log K) ops' reads' ∧
    MkEffect id (op_input op) (str_get (data (store_after (take b (kw_log K)))) (in_Key (op_input op))) u
      ∈ effects (kw_log K) ts ops' reads' ∧
    test_inv (MkTestWorld t (data (store_after (kw_log K))) (op_call <$> ops) h (effects (kw_log K) ts ops' reads') rs).
Proof.
  intros [HK Ho Hinv Ha Hl Hs Hn Hr Hi] Hid Hrun Hread He Hd Hb. cbn in *. set (L := kw_log K) in *.
  destruct (oo_id _ Ho _ _ Hid) as [Eid Hreq].
  destruct (request_inv _ _ _ _ Hreq) as (_ & _ & _ & _ & _ & _ & _ & _ & Hde). rewrite Hread in Hde.
  destruct (read_position L i b e _ He Hd Hde Hb) as (j & Hj & Hdata).
  assert (∃ u, ts !! j = Some u ∧ (ca_call (op_call op) ≤ u)%Z) as (u & Hu & Hcu).
  { destruct (Ha _ _ He) as (op1 & v & Hd1 & Hop1 & Hv & Hcv). rewrite Hd in Hd1. injection Hd1 as Ec.
    rewrite <- Ec, <- Eid, Hid in Hop1. injection Hop1 as <-.
    destruct (lookup_lt_is_Some_2 ts j) as [u Hu]; [lia|]. exists u. split; [done|].
    pose proof (sorted_times _ _ _ _ _ Hs Hv Hu ltac:(lia)). lia. }
  exists j, u. cbn zeta. rewrite (effects_same ops); [|done| |by apply settle_input].
  2: { intros id1 k [Hin|[= -> ->]%list_elem_of_singleton]%elem_of_app; [|by eexists].
       destruct (Hr _ _ Hin) as (_ & op1 & ? & _). by eexists. }
  assert (read_effect L ts ops (id, j) = Some (MkEffect id (op_input op)
    (str_get (data (store_after (take b L))) (in_Key (op_input op))) u)) as Hef.
  { rewrite <- Hdata. unfold read_effect. cbn [fst snd]. rewrite Hid. cbn [mbind option_bind]. by rewrite Hu. }
  destruct (effects_insert L ts ops reads id j _ ltac:(lia) Hl Hef) as (es2 & E & -> & Hbef & Haft).
  split; [|split].
  - intros id1 k [Hin|[= -> ->]%list_elem_of_singleton]%elem_of_app; [by eapply settle_reads|]. split; [lia|].
    exists (settle OpRecorded op). by rewrite lookup_insert_eq.
  - apply elem_of_app. right. by left.
  - unfold atomic in Hi. cbn in Hi. fold L in Hi. rewrite E in Hi. apply test_inv_read; try done.
    + by rewrite lookup_fmap, Hid.
    + rewrite <- E. intros (ef & Hid' & (k & Hk & (_ & op1 & Hop1 & Hif)%effect_op)%elem_of_effects)%list_elem_of_fmap; [|done..].
      rewrite <- Hid', Hid in Hop1. injection Hop1 as <-. rewrite Hread in Hif. congruence.
    + by eapply (proj1 (Forall_forall _ _) Hn), list_elem_of_lookup_2.
    + apply Forall_forall. intros ef (k & Hk & (Ht & _)%effect_op)%Hbef; [|done..]. eapply (sorted_times ts k j); try done.
    + apply Forall_forall. intros ef (k & Hk & (Ht & _)%effect_op)%Haft; [|done..]. eapply (sorted_times ts j k); try done.
    + rewrite <- Hdata. symmetry. apply model_after; [| |rewrite !length_take; lia].
      * intros k ek Hk. apply (log_known_after _ L ts Ho Ha k). by apply lookup_take_Some in Hk as [? _].
      * intros id1 k Hin. destruct (Hr _ _ Hin) as (_ & op1 & ? & ? & _). by exists op1.
Qed.

Lemma complete_step reads id op p P k r out h' o K t ops h rs ts :
  ops !! id = Some op → op_status op = OpRunning →
  running K p P → p_calls P !! k = Some (Returned (op_cmd op) (inl r)) → Success r = true →
  out = (if is_read (op_input op) then r_Value r else ""%string) →
  Complete t (ca_client (op_call op)) (ca_call (op_call op)) (op_input op) out h = Val ((), h') →
  last (h_ops h') = Some o →
  CInv reads (MkCWorld K t ops h rs ts) →
  ∃ reads', CInv reads' (MkCWorld K t (<[id := settle OpRecorded op]> ops) h' (rs ++ [(id, o)]) ts).
Proof.
  intros Hid Hrun HP Hret Hsuc Hout [= <-] Hlast HC. cbn in Hlast. rewrite last_snoc in Hlast. injection Hlast as <-.
  pose proof HC as [[hh HK] Ho Hinv Ha Hl Hs Hn Hr Hi]. cbn in *.
  destruct (reply_of_op _ _ _ _ _ _ _ _ _ HK Ho Hinv Hid HP Hret Hsuc) as (i & b & e & reply & Hb & He & Hd & Hans & Hval).
  assert (op_call <$> ops !! id = Some (op_call op)) as Hid' by (by rewrite Hid).
  destruct (is_read (op_input op)) eqn:Hread.
  - destruct (read_answered _ _ _ _ _ _ _ _ _ _ _ _ HC Hid Hrun Hread He Hd Hb) as (j & u & Hr' & Hin & Hi').
    exists (reads ++ [(id, j)]). eapply settle_CInv; try done. unfold atomic. cbn. rewrite settle_calls.
    apply (test_inv_record id (op_call op) _ t _ _ h); try done; [by rewrite lookup_fmap, Hid|]. right.
    eexists. split; [exact Hin|]. split; [done|]. split; [exact (proj1 (ti_effect _ Hi' _ Hin))|]. intros _. cbn.
    rewrite Hout, Hval. destruct (oo_id _ Ho _ _ Hid) as [_ Hreq].
    destruct (request_inv _ _ _ _ Hreq) as (_ & _ & _ & _ & _ & _ & _ & <- & Hde). rewrite Hread in Hde. by apply read_value.
  - exists reads. eapply settle_CInv; try done; [by eapply settle_reads|]. eapply settle_atomic; [done..|].
    destruct (write_effect _ _ _ reads _ _ _ _ Ho Ha Hid Hrun Hread He Hd) as (ef & Hin & Hef).
    apply (test_inv_record id (op_call op) _ t _ _ h); try done; [by rewrite lookup_fmap, Hid|]. right.
    exists ef. split; [done|]. split; [done|]. split; [exact (proj1 (ti_effect _ Hi _ Hin))|]. intros E.
    unfold op_input in Hread. congruence.
Qed.

Lemma client_step_inv reads W W' : client_step cfg_of addrs_of W W' → CInv reads W → ∃ reads', CInv reads' W'.
Proof.
  intros Hst HC. destruct Hst as [t' K t ops h rs ts Ht Hm|K' K t ops h rs ts Hk Hc|client seq inp c recorder K t ops h rs ts Hreq Hseq
    |id op p P k r out h' o K t ops h rs ts Hid Hrun HP Hret Hsuc Hout Hrec Hlast
    |id op h' o K t ops h rs ts Hid Hrun Hw Hrec Hlast|id op K t ops h rs ts Hid Hrun Hr].
  - exists reads. destruct HC as [HK Ho Hinv Ha Hl Hs Hn Hr Hi]. cbn in *. split; try done; cbn.
    + eapply Forall_impl; [done|]. cbn. unfold Now in *. intros u Hu. lia.
    + by eapply test_inv_time.
  - exists reads. by eapply store_step.
  - exists reads. by eapply begin_step.
  - by eapply complete_step.
  - exists reads. by eapply pending_step.
  - exists reads. by eapply drop_step.
Qed.

Lemma fresh_CInv K t : kinitial members K → CInv [] (fresh_cworld K t).
Proof.
  intros HKi. pose proof HKi as (_ & _ & Hinv & Hlog). split; cbn; rewrite ?Hinv, ?Hlog; try done.
  - exists no_history. by apply KInv_initial.
  - by intros c ?%not_elem_of_nil.
  - constructor.
  - by intros id k ?%not_elem_of_nil.
  - unfold atomic. cbn. rewrite Hlog, fmap_empty. apply fresh_test_inv.
Qed.

Lemma clients_reach K t W : kinitial members K → rtc (client_step cfg_of addrs_of) (fresh_cworld K t) W → ∃ reads, CInv reads W.
Proof.
  intros HK Hrun. pose proof (fresh_CInv K t HK) as HC. revert HC. generalize ([] : list (N * nat)).
  induction Hrun as [|W1 W2 W3 Hst _ IH]; intros reads HC; [by exists reads|].
  destruct (client_step_inv _ _ _ Hst HC) as [reads' HC']. exact (IH _ HC').
Qed.

Lemma settled_atomic reads W : all_settled W → settled (atomic reads W).
Proof.
  intros Hs id c Hc Hrun. cbn in Hc. rewrite lookup_fmap in Hc.
  apply fmap_Some in Hc as (op & Hop & ->). by apply (Hs id op).
Qed.
End Invariant.

(** ** A run *)
Section Run.
Context {codec : KVCodec}.
Variable cfg_of : NodeID → Config.
Variable addrs_of : NodeID → gmap NodeID string.

Definition calls_check (ops : gmap N ClientOp) (K K' : KWorld MemoryStorage) : bool :=
  forallb (λ c, bool_decide (c ∈ kw_invoked K) ||
    match ops !! call_id c with
    | Some op => bool_decide (op_cmd op = c) && match op_status op with OpRunning => true | _ => false end
    | None => false
    end) (kw_invoked K').

Lemma calls_check_ok ops K K' : calls_check ops K K' = true → calls_running ops K K'.
Proof.
  unfold calls_check. rewrite forallb_forall. intros Hall c Hc%list_elem_of_In%Hall.
  apply orb_true_iff in Hc as [Hc%bool_decide_eq_true|Hc]; [by left|right].
  destruct (ops !! call_id c) as [op|]; [|done]. apply andb_true_iff in Hc as [Hc%bool_decide_eq_true Hs].
  exists op. split; [done|]. split; [done|]. by destruct (op_status op).
Qed.

(** The cluster runs while the operations [ops] are under way. *)
Fixpoint store_run (evs : list (KEvent (S := MemoryStorage))) (ops : gmap N ClientOp) (K : KWorld MemoryStorage)
    : option (KWorld MemoryStorage) :=
  match evs with
  | [] => Some K
  | ev :: evs =>
      if kevent_check cfg_of ev K then
        K' ← kexec cfg_of addrs_of ev K;
        if calls_check ops K K' then store_run evs ops K' else None
      else None
  end.

Lemma store_run_steps evs t ops h rs ts K K' :
  store_run evs ops K = Some K' →
  ∃ ts', rtc (client_step cfg_of addrs_of) (MkCWorld K t ops h rs ts) (MkCWorld K' t ops h rs ts').
Proof.
  revert K ts. induction evs as [|ev evs IH]; intros K ts; cbn -[kevent_check kexec].
  { intros [= <-]. by exists ts. }
  destruct (kevent_check cfg_of ev K) eqn:Hc; [|done]. intros (K1 & Hx & Hrest)%bind_Some.
  destruct (calls_check ops K K1) eqn:Hcc; [|done].
  destruct (IH K1 (ts ++ replicate (length (kw_log K1) - length (kw_log K)) (Now t h)) Hrest) as [ts' Hr].
  exists ts'. eapply rtc_l; [|exact Hr]. apply cl_store; [|by apply calls_check_ok].
  exists ev. split; [by apply kevent_check_ok|done].
Qed.
End Run.

Definition get_x2 : KVCommand := MkCommand "client" 2 OP_GET "x" "".

(** "a" takes a snapshot and compacts its log, "c" starts from it and is elected,
    and the client reads at "c". *)
Definition get_at_c : list (KEvent (S := MemoryStorage)) :=
  let e := MkEntry 2 2 (match @marshal_command bit_codec get_x2 with inl b => b | inr _ => [] end) in
  let args := MkAEArgs 2 "c" 1 1 [e] 1 in
  [KRaft (REvent_base (EvCampaign "c" env0)); KRaft (REvent_base (EvVote 1 "b" env0));
   KRaft (REvent_base (EvVoteReply 1 "b" (MkRVReply 2 true)));
   KServer "c" (EvCall (Get get_x2)); KServer "c" (EvStep 0); KServer "c" (EvStep 0);
   KRaft (REvent_send "c" "b" 2); KRaft (REvent_append "b" args env0);
   KRaft (REvent_answer "b" args (MkAEReply 2 true 0 0));
   KServer "c" EvApply; KServer "c" EvSend; KServer "c" EvReceive; KServer "c" (EvStep 0)].

Definition put_op : ClientOp := MkOp (MkCall 1 0 (MkInput KVPut "x" "1") OpRunning) ReplicatedProperties.put_x.
Definition get_op : ClientOp := MkOp (MkCall 1 5 (MkInput KVGet "x" "") OpRunning) get_x2.
Definition put_done : gmap N ClientOp := <[call_id ReplicatedProperties.put_x := settle OpRecorded put_op]> {[call_id ReplicatedProperties.put_x := put_op]}.

Definition returned (k : nat) (cmd : KVCommand) (r : CommandReply) (P : Process (S := MemoryStorage)) : bool :=
  bool_decide (p_calls P !! k = Some (Returned cmd (inl r))).

(** C1: the replicated store is linearizable.  Clients that have one operation
    at a time under way and number them upwards call the servers of a cluster of
    odd size; messages are lost, duplicated, delayed and reordered, servers crash
    and restart, compact their logs, send and restore snapshots, clients send a
    command again or give up.  Three conditions on snapshots, which the code does
    not enforce: a server's snapshot loop reads the store when it has caught up
    with the index it was asked for ([snapshots_caught_up]); a node that has
    applied more than a snapshot covers is not given it ([installs_ahead]), nor
    is one whose log has another, uncommitted entry at its last index
    ([installable]).  Without them the code loses writes
    ([KVServerProperties.early_snapshot_loses_write]); where servers take no
    snapshots they always hold ([ReplicatedPlain.plain_runs]).  In such runs,
    whatever happens, the history the clients record once no write is under way
    is linearizable for the test-suite's [KVModel]: there is one order of all
    operations, compatible with the real-time order the clients saw, in which
    every read returns what the writes before it left. *)
Theorem replicated_store_linearizable {S} `{StorageSpec S} {codec : KVCodec} {spec : KVCodecSpec}
    members cfg_of addrs_of (K : KWorld S) t W :
  cluster_wf (S := S) members cfg_of → Nat.Odd (length members) →
  kinitial members K → rtc (client_step cfg_of addrs_of) (fresh_cworld K t) W → all_settled W →
  linearizable (Operations (cw_history W)).
Proof.
  intros Hwf Hodd HK Hrun Hs.
  destruct (clients_reach members cfg_of addrs_of Hwf Hodd K t W HK Hrun) as [reads HC].
  apply (settled_linearizable (atomic reads W)); [by apply (cv_test _ _ _ _ HC)|by apply settled_atomic].
Qed.

Lemma replicated_store_linearizable_witness : ∃ (W : CWorld MemoryStorage),
  rtc (@client_step _ _ _ _ bit_codec (cfg_among three) no_addrs) (fresh_cworld (fresh_kworld three) 0) W ∧
  Operations (cw_history W) =
    [MkOperation 1 (MkInput KVPut "x" "1") 0 "" 5; MkOperation 1 (MkInput KVGet "x" "") 5 "1" 5] ∧
  linearizable (Operations (cw_history W)).
Proof.
  set (ops1 := {[call_id ReplicatedProperties.put_x := put_op]} : gmap N ClientOp).
  set (ops2 := <[call_id get_x2 := get_op]> put_done).
  set (run := @store_run bit_codec (cfg_among three) no_addrs).
  set (r1 := MkReply true "" false "" "" 1). set (r2 := MkReply true "1" true "" "" 2).
  assert (from_option (λ K1, from_option (λ K2, server_is K2 "a" (returned 0 (op_cmd put_op) r1) &&
    from_option (λ K3, server_is K3 "c" (λ P, p_restored P && returned 0 (op_cmd get_op) r2 P)) false
      (run (c_restores ++ get_at_c) ops2 K2)) false
    (run put_at_a ops1 K1)) false (run elect_server ∅ (fresh_kworld three)) = true) as Hrun by (by vm_compute).
  destruct (run elect_server ∅ (fresh_kworld three)) as [K1|] eqn:E1; [|done]. cbn [from_option] in Hrun.
  destruct (run put_at_a ops1 K1) as [K2|] eqn:E2; [|done]. cbn [from_option] in Hrun.
  apply andb_true_iff in Hrun as [H1 H2].
  destruct (run (c_restores ++ get_at_c) ops2 K2) as [K3|] eqn:E3; [|done]. cbn [from_option] in H2.
  destruct (server_is_running _ _ _ H1) as (P2 & HP2 & R1%bool_decide_eq_true).
  destruct (server_is_running _ _ _ H2) as (P3 & HP3 & [_ R2%bool_decide_eq_true]%andb_true_iff).
  assert (∃ W, rtc (@client_step _ _ _ _ bit_codec (cfg_among three) no_addrs) (fresh_cworld (fresh_kworld three) 0) W ∧
    Operations (cw_history W) =
    [MkOperation 1 (MkInput KVPut "x" "1") 0 "" 5; MkOperation 1 (MkInput KVGet "x" "") 5 "1" 5] ∧ all_settled W)
    as (W & HW & Hops & Hset).
  { destruct (store_run_steps _ _ elect_server 0 ∅ (NewHistory 0) [] [] _ _ E1) as [ts1 S1].
    destruct (store_run_steps _ _ put_at_a 0 ops1 (NewHistory 0) [] ts1 _ _ E2) as [ts2 S2].
    set (o1 := MkOperation 1 (MkInput KVPut "x" "1") 0 "" 5).
    destruct (store_run_steps _ _ (c_restores ++ get_at_c) 5 ops2 (MkHistory 0 [o1]) [(call_id ReplicatedProperties.put_x, o1)] ts2 _ _ E3) as [ts3 S3].
    eexists. split; [|split].
    - etrans; [exact S1|]. eapply rtc_l; [apply (cl_begin _ _ "client" 1 (MkInput KVPut "x" "1") ReplicatedProperties.put_x 1); [done|intros id op Hid; by rewrite lookup_empty in Hid]|].
      etrans; [exact S2|]. eapply rtc_l; [apply (cl_time _ _ 5); [done|by vm_compute]|].
      eapply rtc_l; [eapply (cl_complete _ _ (call_id ReplicatedProperties.put_x) put_op "a" P2 0 r1); [apply lookup_singleton_eq|done|done|done|done|done|reflexivity|reflexivity]|].
      eapply rtc_l; [eapply (cl_begin _ _ "client" 2 (MkInput KVGet "x" "") get_x2 1); [done|]|].
      { intros id op Hid _. apply lookup_insert_Some in Hid as [[<- <-]|[Hne Hid]]; [by split|].
        apply lookup_singleton_Some in Hid as [<- <-]. by destruct Hne. }
      etrans; [exact S3|].
      eapply rtc_l; [eapply (cl_complete _ _ (call_id get_x2) get_op "c" P3 0 r2); [apply lookup_insert_eq|done|done|done|done|done|reflexivity|reflexivity]|].
      apply rtc_refl.
    - by vm_compute.
    - intros id op Hid. cbn in Hid. apply lookup_insert_Some in Hid as [[<- <-]|[Hne Hid]]; [done|].
      apply lookup_insert_Some in Hid as [[<- <-]|[_ Hid]]; [by destruct Hne|].
      apply lookup_insert_Some in Hid as [[<- <-]|[Hne' Hid]]; [done|].
      apply lookup_singleton_Some in Hid as [<- <-]. by destruct Hne'. }
  exists W. split; [exact HW|]. split; [done|].
  exact (@replicated_store_linearizable _ _ _ _ bit_codec bit_codec_spec three (cfg_among three) no_addrs
    (fresh_kworld three) 0 W three_wf (ex_intro _ 1 eq_refl) (fresh_kinitial three) HW Hset).
Defined.
