(* ===== verification/Codec.v ===== *)
(** * internal/storage/wal.go: the record formats

    Big-endian integers (encoding/binary), the IEEE CRC-32 (hash/crc32), the
    entry payload, the write-ahead-log record and the scan that reads records
    back and stops at the first torn or corrupt one. *)
From S2P Require Import Prelude RaftTypes.

(** ** Big-endian integers *)
Definition byte_of (n : N) : Byte.byte :=
  match Byte.of_N (n mod 256) with Some b => b | None => Byte.x00 end.

Lemma to_N_byte_of n : Byte.to_N (byte_of n) = (n mod 256)%N.
Proof.
  unfold byte_of. destruct (Byte.of_N (n mod 256)) as [b|] eqn:E.
  - by apply Byte.to_of_N.
  - apply Byte.of_N_None_iff in E. pose proof (N.mod_lt n 256 ltac:(lia)). lia.
Qed.

Fixpoint be (k : nat) (n : N) : bytes :=
  match k with
  | O => []
  | S k => be k (n / 256) ++ [byte_of n]
  end.

Definition be_val (l : bytes) : N := foldl (λ acc b, acc * 256 + Byte.to_N b)%N 0%N l.

Definition PutUint64 (n : N) : bytes := be 8 n.
Definition PutUint32 (n : N) : bytes := be 4 n.

Lemma be_length k n : length (be k n) = k.
Proof. revert n. induction k as [|k IH]; intros n; [done|]. cbn. rewrite length_app, IH. cbn. lia. Qed.

Lemma be_val_be k n : (n < 256 ^ N.of_nat k)%N → be_val (be k n) = n.
Proof.
  revert n. induction k as [|k IH]; intros n Hn.
  - cbn in *. lia.
  - cbn [be]. unfold be_val in *. rewrite foldl_app. cbn. rewrite IH, to_N_byte_of.
    + pose proof (N.div_mod n 256 ltac:(lia)). lia.
    + apply N.Div0.div_lt_upper_bound. rewrite Nat2N.inj_succ, N.pow_succ_r' in Hn. lia.
Qed.

Definition two32 : N := 4294967296.
Definition u32 (n : N) : N := (n mod two32)%N.

Lemma u32_small n : (n < two32)%N → u32 n = n.
Proof. apply N.mod_small. Qed.

Lemma u32_lt n : (u32 n < two32)%N.
Proof. by apply N.mod_lt. Qed.

Lemma PutUint64_length n : length (PutUint64 n) = 8.
Proof. apply be_length. Qed.

Lemma PutUint32_length n : length (PutUint32 n) = 4.
Proof. apply be_length. Qed.

Lemma be_val_64 n : (n < two64)%N → be_val (PutUint64 n) = n.
Proof. intros H. by apply (be_val_be 8). Qed.

Lemma be_val_32 n : (n < two32)%N → be_val (PutUint32 n) = n.
Proof. intros H. by apply (be_val_be 4). Qed.

(** ** CRC-32, bit by bit, polynomial 0xEDB88320 reflected *)
Definition crc_bit (crc : N) : N :=
  if N.testbit crc 0 then N.lxor (N.shiftr crc 1) 3988292384 else N.shiftr crc 1.

Definition crc_byte (crc : N) (b : Byte.byte) : N :=
  Nat.iter 8 crc_bit (N.lxor crc (Byte.to_N b)).

Definition ChecksumIEEE (l : bytes) : N :=
  u32 (N.lxor (foldl crc_byte 4294967295%N l) 4294967295).

(** The check value of the CRC-32 catalogue. *)
Example ChecksumIEEE_check :
  ChecksumIEEE (String.list_byte_of_string "123456789") = 3421780262%N.
Proof. reflexivity. Qed.

(** ** Entries *)
Definition maxRecordPayload : N := 67108864.
Definition recordHeaderSize : nat := 8.

Definition encodeEntry (e : LogEntry) : bytes :=
  PutUint64 (Term e) ++ PutUint64 (Index e) ++
  PutUint32 (u32 (N.of_nat (length (Command e)))) ++ Command e.

(** [raw[a:b]] of a slice long enough. *)
Definition sub_slice (a b : nat) (l : bytes) : bytes := take (b - a) (drop a l).

Definition decodeEntry (payload : bytes) : LogEntry + error :=
  if (length payload <? 20)%nat then inr (Errorf "storage: truncated entry payload")
  else
    let term := be_val (sub_slice 0 8 payload) in
    let index := be_val (sub_slice 8 16 payload) in
    let cmdLen := be_val (sub_slice 16 20 payload) in
    if negb (cmdLen =? N.of_nat (length payload - 20))%N
    then inr (Errorf "storage: entry command length mismatch")
    else inl (MkEntry term index (drop 20 payload)).

(** One write-ahead-log record: header and payload. *)
Definition record_header (payload : bytes) : bytes :=
  PutUint32 (u32 (N.of_nat (length payload))) ++ PutUint32 (ChecksumIEEE payload).

Definition record (e : LogEntry) : bytes := record_header (encodeEntry e) ++ encodeEntry e.

Definition records (es : list LogEntry) : bytes := concat (record <$> es).

(** What fits the format: 64-bit fields and a payload [Load] accepts. *)
Definition disk_entry_fits (e : LogEntry) : Prop :=
  (Term e < two64)%N ∧ (Index e < two64)%N ∧
  (20 + N.of_nat (length (Command e)) ≤ maxRecordPayload)%N.

Lemma encodeEntry_length e : length (encodeEntry e) = 20 + length (Command e).
Proof. unfold encodeEntry, PutUint64, PutUint32. rewrite !length_app, !be_length. lia. Qed.

Lemma record_header_length p : length (record_header p) = 8.
Proof. unfold record_header, PutUint32. by rewrite length_app, !be_length. Qed.

Lemma record_length e : length (record e) = 28 + length (Command e).
Proof. unfold record. rewrite length_app, record_header_length, encodeEntry_length. lia. Qed.

Lemma sub_slice_app_l a b l1 l2 : b ≤ length l1 → sub_slice a b (l1 ++ l2) = sub_slice a b l1.
Proof.
  intros Hb. unfold sub_slice. destruct (decide (a ≤ b)).
  - rewrite drop_app_le by lia. by rewrite take_app_le by (rewrite length_drop; lia).
  - by replace (b - a) with 0 by lia.
Qed.

Lemma sub_slice_app_r a b l1 l2 :
  length l1 ≤ a → sub_slice a b (l1 ++ l2) = sub_slice (a - length l1) (b - length l1) l2.
Proof. intros Ha. unfold sub_slice. rewrite drop_app_ge by done. f_equal. lia. Qed.

Lemma sub_slice_all l n : length l = n → sub_slice 0 n l = l.
Proof. intros <-. unfold sub_slice. by rewrite Nat.sub_0_r, drop_0, firstn_all. Qed.

(** Fields laid out one after the other read back one after the other. *)
Lemma sub_slice_fields a b (f1 f2 f3 rest : bytes) :
  length f1 = a → length f2 = b → length f3 = 4 →
  sub_slice 0 a (f1 ++ f2 ++ f3 ++ rest) = f1 ∧
  sub_slice a (a + b) (f1 ++ f2 ++ f3 ++ rest) = f2 ∧
  sub_slice (a + b) (a + b + 4) (f1 ++ f2 ++ f3 ++ rest) = f3 ∧
  drop (a + b + 4) (f1 ++ f2 ++ f3 ++ rest) = rest.
Proof.
  intros H1 H2 H3. split; [|split; [|split]].
  - rewrite sub_slice_app_l by lia. by apply sub_slice_all.
  - rewrite sub_slice_app_r by lia. rewrite sub_slice_app_l by lia.
    replace (a - length f1) with 0 by lia. apply sub_slice_all. lia.
  - rewrite !sub_slice_app_r by lia. rewrite sub_slice_app_l by lia.
    replace (a + b - length f1 - length f2) with 0 by lia. apply sub_slice_all. lia.
  - rewrite !app_assoc. rewrite drop_app_ge; rewrite !length_app; [|lia].
    by replace (a + b + 4 - (length f1 + length f2 + length f3)) with 0 by lia.
Qed.

Lemma decode_encodeEntry e :
  disk_entry_fits e → decodeEntry (encodeEntry e) = inl e.
Proof.
  intros (Ht & Hi & Hc). unfold decodeEntry. rewrite encodeEntry_length.
  destruct (Nat.ltb_spec (20 + length (Command e)) 20); [lia|].
  assert (N.of_nat (length (Command e)) < two32)%N as Hlen by (unfold two32, maxRecordPayload in *; lia).
  destruct (sub_slice_fields 8 8 (PutUint64 (Term e)) (PutUint64 (Index e))
    (PutUint32 (u32 (N.of_nat (length (Command e))))) (Command e)) as (E1 & E2 & E3 & E4);
    [apply be_length..|].
  cbn [Nat.add] in E2, E3, E4. unfold encodeEntry. rewrite E1, E2, E3, E4.
  rewrite !be_val_64, be_val_32 by (done || apply u32_lt). rewrite u32_small by done.
  replace (20 + length (Command e) - 20) with (length (Command e)) by lia.
  rewrite N.eqb_refl. by destruct e.
Qed.

(** ** Reading back what was not necessarily written by us *)
Lemma byte_of_to_N b : byte_of (Byte.to_N b) = b.
Proof.
  unfold byte_of. pose proof (Byte.to_N_bounded b). rewrite N.mod_small by lia. by rewrite Byte.of_to_N.
Qed.

Lemma be_val_snoc l b : be_val (l ++ [b]) = (be_val l * 256 + Byte.to_N b)%N.
Proof. unfold be_val. by rewrite foldl_app. Qed.

Lemma be_be_val l : be (length l) (be_val l) = l.
Proof.
  induction l as [|b l IH] using rev_ind; [done|].
  rewrite length_app, Nat.add_1_r, be_val_snoc. cbn [be]. pose proof (Byte.to_N_bounded b).
  replace ((be_val l * 256 + Byte.to_N b) / 256)%N with (be_val l)
    by (rewrite N.div_add_l, N.div_small by lia; lia).
  rewrite IH. do 2 f_equal. unfold byte_of.
  replace ((be_val l * 256 + Byte.to_N b) mod 256)%N with (Byte.to_N b)
    by (rewrite N.add_comm, N.Div0.mod_add, N.mod_small by lia; done).
  by rewrite Byte.of_to_N.
Qed.

Lemma be_val_bound l : (be_val l < 256 ^ N.of_nat (length l))%N.
Proof.
  induction l as [|b l IH] using rev_ind; [done|].
  rewrite length_app, be_val_snoc, Nat.add_1_r, Nat2N.inj_succ, N.pow_succ_r'.
  pose proof (Byte.to_N_bounded b). lia.
Qed.

Lemma sub_slice_length a b l : b ≤ length l → length (sub_slice a b l) = b - a.
Proof. intros H. unfold sub_slice. rewrite length_take, length_drop. lia. Qed.

Lemma sub_slice_be a b l :
  a ≤ b ≤ length l → be (b - a) (be_val (sub_slice a b l)) = sub_slice a b l.
Proof. intros H. rewrite <- (sub_slice_length a b l) at 1 by lia. apply be_be_val. Qed.

Lemma sub_slice_bound a b l :
  a ≤ b ≤ length l → (be_val (sub_slice a b l) < 256 ^ N.of_nat (b - a))%N.
Proof. intros H. rewrite <- (sub_slice_length a b l) by lia. apply be_val_bound. Qed.

(** A slice and what follows it. *)
Lemma sub_slice_drop a b l : a ≤ b → sub_slice a b l ++ drop b l = drop a l.
Proof.
  intros H. unfold sub_slice. replace (drop b l) with (drop (b - a) (drop a l)).
  - apply take_drop.
  - rewrite drop_drop. f_equal. lia.
Qed.

Lemma encode_decodeEntry payload e :
  decodeEntry payload = inl e →
  encodeEntry e = payload ∧ (Term e < two64)%N ∧ (Index e < two64)%N ∧
  length payload = 20 + length (Command e).
Proof.
  unfold decodeEntry. destruct (Nat.ltb_spec (length payload) 20) as [|Hlen]; [done|].
  destruct (N.eqb_spec (be_val (sub_slice 16 20 payload)) (N.of_nat (length payload - 20))) as [Hn|];
    cbn [negb]; [|done]. intros [= <-].
  pose proof (sub_slice_bound 0 8 payload ltac:(lia)) as B1.
  pose proof (sub_slice_bound 8 16 payload ltac:(lia)) as B2.
  pose proof (sub_slice_bound 16 20 payload ltac:(lia)) as B3.
  pose proof (sub_slice_be 0 8 payload ltac:(lia)) as E1.
  pose proof (sub_slice_be 8 16 payload ltac:(lia)) as E2.
  pose proof (sub_slice_be 16 20 payload ltac:(lia)) as E3.
  cbn [Nat.sub] in *. split; [|split; [exact B1|split; [exact B2|]]].
  - unfold encodeEntry, PutUint64, PutUint32. cbn [Term Index Command]. rewrite length_drop, <- Hn.
    rewrite u32_small by exact B3. rewrite E1, E2, E3.
    rewrite (sub_slice_drop 16 20) by lia. rewrite (sub_slice_drop 8 16) by lia.
    by rewrite (sub_slice_drop 0 8) by lia.
  - cbn [Command]. rewrite length_drop. lia.
Qed.

(** ** The scan *)

(** [io.ReadFull] of [n] bytes; at the end of the input it fails. *)
Definition readfull (n : nat) (input : bytes) : option (bytes * bytes) :=
  if (n <=? length input)%nat then Some (take n input, drop n input) else None.

(** The loop of [scanAndRepairWAL]: the entries, their offsets and the
    position the file is truncated at.  [fuel] bounds the iterations; each one
    consumes at least a header. *)
Fixpoint scan (fuel : nat) (input : bytes) (pos expected : N) : list LogEntry * list N * N :=
  match fuel with
  | O => ([], [], pos)
  | S fuel =>
      match readfull recordHeaderSize input with
      | None => ([], [], pos)
      | Some (header, rest) =>
          let payloadLen := be_val (sub_slice 0 4 header) in
          let wantCRC := be_val (sub_slice 4 8 header) in
          if (maxRecordPayload <? payloadLen)%N then ([], [], pos) else
          match readfull (N.to_nat payloadLen) rest with
          | None => ([], [], pos)
          | Some (payload, rest') =>
              if negb (ChecksumIEEE payload =? wantCRC)%N then ([], [], pos) else
              match decodeEntry payload with
              | inr _ => ([], [], pos)
              | inl entry =>
                  if negb (Index entry =? expected)%N then ([], [], pos) else
                  let '(es, offs, end_) :=
                    scan fuel rest' (pos + 8 + payloadLen) (u64_add expected 1) in
                  (entry :: es, pos :: offs, end_)
              end
          end
      end
  end.

(** Byte offsets of consecutive records. *)
Fixpoint offsets_from (pos : N) (es : list LogEntry) : list N :=
  match es with
  | [] => []
  | e :: es => pos :: offsets_from (pos + N.of_nat (length (record e))) es
  end.

Definition records_len (es : list LogEntry) : N := N.of_nat (length (records es)).

Lemma records_cons e es : records (e :: es) = record e ++ records es.
Proof. done. Qed.

Lemma records_app es1 es2 : records (es1 ++ es2) = records es1 ++ records es2.
Proof. unfold records. by rewrite fmap_app, concat_app. Qed.

Lemma readfull_app n l1 l2 : length l1 = n → readfull n (l1 ++ l2) = Some (l1, l2).
Proof.
  intros <-. unfold readfull. rewrite length_app.
  destruct (Nat.leb_spec (length l1) (length l1 + length l2)); [|lia].
  by rewrite take_app_length, drop_app_length.
Qed.

Lemma header_fields p :
  (N.of_nat (length p) < two32)%N →
  be_val (sub_slice 0 4 (record_header p)) = N.of_nat (length p) ∧
  be_val (sub_slice 4 8 (record_header p)) = ChecksumIEEE p.
Proof.
  intros Hp. unfold record_header.
  rewrite sub_slice_app_l, sub_slice_app_r by (unfold PutUint32; rewrite be_length; lia).
  unfold PutUint32 at 2. rewrite be_length. cbn [Nat.sub].
  rewrite !sub_slice_all by (apply be_length). rewrite u32_small by done.
  split; apply be_val_32; [done|apply u32_lt].
Qed.

Lemma fits_len e : disk_entry_fits e → (N.of_nat (length (encodeEntry e)) ≤ maxRecordPayload)%N.
Proof. intros (_ & _ & H). rewrite encodeEntry_length. lia. Qed.

(** A whole record is consumed. *)
Lemma scan_record fuel e rest pos :
  disk_entry_fits e →
  scan (S fuel) (record e ++ rest) pos (Index e) =
    (let '(es, offs, end_) := scan fuel rest (pos + N.of_nat (length (record e))) (u64_add (Index e) 1) in
     (e :: es, pos :: offs, end_)).
Proof.
  intros Hf. pose proof (fits_len e Hf) as Hlen.
  assert (N.of_nat (length (encodeEntry e)) < two32)%N as Hlen' by (unfold two32, maxRecordPayload in *; lia).
  destruct (header_fields (encodeEntry e) Hlen') as [H1 H2].
  cbn [scan]. unfold record. rewrite <- app_assoc.
  rewrite readfull_app by (apply record_header_length). rewrite H1, H2.
  rewrite (proj2 (N.ltb_ge _ _)) by done. rewrite readfull_app by lia.
  rewrite N.eqb_refl. cbn [negb]. rewrite decode_encodeEntry by done. rewrite N.eqb_refl. cbn [negb].
  rewrite length_app, record_header_length.
  by replace (pos + N.of_nat (8 + length (encodeEntry e)))%N
    with (pos + 8 + N.of_nat (length (encodeEntry e)))%N by lia.
Qed.

Lemma scan_records fuel es rest pos expected :
  Forall disk_entry_fits es → contiguous expected es →
  (expected + N.of_nat (length es) < two64)%N → length es ≤ fuel →
  scan fuel (records es ++ rest) pos expected =
    (let '(es', offs', end_) := scan (fuel - length es) rest (pos + records_len es)
       (expected + N.of_nat (length es)) in
     (es ++ es', offsets_from pos es ++ offs', end_)).
Proof.
  revert fuel pos expected. induction es as [|e es IH]; intros fuel pos expected Hf Hc Hb Hfuel.
  - cbn. rewrite Nat.sub_0_r. unfold records_len. cbn. rewrite !N.add_0_r.
    by destruct (scan fuel rest pos expected) as [[??]?].
  - destruct fuel as [|fuel]; [cbn in Hfuel; lia|]. inversion Hf; subst. destruct Hc as [Hi Hc].
    rewrite records_cons, <- app_assoc. rewrite <- Hi. rewrite scan_record by done.
    cbn [length] in Hb, Hfuel. rewrite u64_add_small by lia. rewrite Hi. rewrite IH by (done || lia).
    cbn [length Nat.sub]. unfold records_len. rewrite records_cons, length_app.
    replace (pos + N.of_nat (length (record e)) + N.of_nat (length (records es)))%N
      with (pos + N.of_nat (length (record e) + length (records es)))%N by lia.
    replace (expected + 1 + N.of_nat (length es))%N
      with (expected + N.of_nat (S (length es)))%N by lia.
    by destruct (scan (fuel - length es) _ _ _) as [[??]?].
Qed.

(** What a crash in the middle of an append leaves: less than a record. *)
Lemma scan_torn fuel e k pos expected :
  disk_entry_fits e → k < length (record e) → scan fuel (take k (record e)) pos expected = ([], [], pos).
Proof.
  intros Hf Hk. pose proof (fits_len e Hf) as Hlen. destruct fuel as [|fuel]; [done|]. cbn [scan].
  assert (N.of_nat (length (encodeEntry e)) < two32)%N as Hlen' by (unfold two32, maxRecordPayload in *; lia).
  destruct (header_fields (encodeEntry e) Hlen') as [H1 _].
  destruct (decide (8 ≤ k)) as [Hk8|Hk8].
  - unfold record in *. rewrite take_app_ge by (rewrite record_header_length; lia).
    rewrite readfull_app by (apply record_header_length). rewrite H1.
    rewrite (proj2 (N.ltb_ge _ _)) by done. unfold readfull.
    rewrite length_take, record_header_length. rewrite length_app, record_header_length in Hk.
    destruct (Nat.leb_spec (N.to_nat (N.of_nat (length (encodeEntry e))))
      ((k - 8) `min` length (encodeEntry e))); [lia|done].
  - unfold readfull. rewrite length_take.
    destruct (Nat.leb_spec recordHeaderSize (k `min` length (record e))); [unfold recordHeaderSize in *; lia|done].
Qed.

(** Whatever the bytes: what the scan accepts is a run of records of
    consecutive entries, and the truncated file holds exactly these. *)
Lemma scan_sound fuel input pos expected es offs end_ :
  scan fuel input pos expected = (es, offs, end_) →
  Forall disk_entry_fits es ∧ offs = offsets_from pos es ∧
  end_ = (pos + records_len es)%N ∧ take (N.to_nat (records_len es)) input = records es ∧
  (N.to_nat (records_len es) ≤ length input) ∧
  ((expected + N.of_nat (length es) ≤ two64)%N → contiguous expected es).
Proof.
  intros Hs. revert input pos expected es offs end_ Hs.
  assert (Hnil : ∀ input pos, Forall disk_entry_fits [] ∧ [] = offsets_from pos [] ∧
    pos = (pos + records_len [])%N ∧ take (N.to_nat (records_len [])) input = records [] ∧
    (N.to_nat (records_len []) ≤ length input)).
  { intros. unfold records_len. cbn. repeat split; lia || done. }
  induction fuel as [|fuel IH]; intros input pos expected es offs end_ Hs; cbn [scan] in Hs.
  { injection Hs as <- <- <-. destruct (Hnil input pos) as (?&?&?&?&?). by repeat split. }
  assert (Hstop : (@nil LogEntry, @nil N, pos) = (es, offs, end_) →
    Forall disk_entry_fits es ∧ offs = offsets_from pos es ∧
    end_ = (pos + records_len es)%N ∧ take (N.to_nat (records_len es)) input = records es ∧
    (N.to_nat (records_len es) ≤ length input) ∧
    ((expected + N.of_nat (length es) ≤ two64)%N → contiguous expected es)).
  { intros [= <- <- <-]. destruct (Hnil input pos) as (?&?&?&?&?). by repeat split. }
  unfold readfull, recordHeaderSize in Hs. destruct (Nat.leb_spec 8 (length input)) as [H8|]; [|by apply Hstop].
  set (header := take 8 input) in *. assert (length header = 8) as Hh by (unfold header; rewrite length_take; lia).
  destruct (N.ltb_spec maxRecordPayload (be_val (sub_slice 0 4 header))) as [|Hmax]; [by apply Hstop|].
  destruct (Nat.leb_spec (N.to_nat (be_val (sub_slice 0 4 header))) (length (drop 8 input))) as [Hpl|];
    [|by apply Hstop].
  set (payload := take _ (drop 8 input)) in *.
  destruct (N.eqb_spec (ChecksumIEEE payload) (be_val (sub_slice 4 8 header))) as [Hcrc|]; cbn [negb] in Hs;
    [|by apply Hstop].
  destruct (decodeEntry payload) as [entry|] eqn:Hdec; [|by apply Hstop].
  destruct (N.eqb_spec (Index entry) expected) as [Hexp|]; cbn [negb] in Hs; [|by apply Hstop].
  destruct (scan fuel _ _ _) as [[es' offs'] end'] eqn:Hrec. injection Hs as <- <- <-.
  destruct (encode_decodeEntry _ _ Hdec) as (Henc & Ht & Hi & Hlen).
  assert (length payload = N.to_nat (be_val (sub_slice 0 4 header))) as Hpn
    by (unfold payload; rewrite length_take; lia).
  assert (record entry = header ++ payload) as Hrecord.
  { unfold record, record_header. rewrite Henc. f_equal.
    rewrite Hcrc, Hpn, N2Nat.id, u32_small by (unfold maxRecordPayload, two32 in *; lia).
    unfold PutUint32. pose proof (sub_slice_be 0 4 header ltac:(lia)) as E1.
    pose proof (sub_slice_be 4 8 header ltac:(lia)) as E2. cbn [Nat.sub] in E1, E2. rewrite E1, E2.
    replace (sub_slice 4 8 header) with (drop 4 header);
      [apply (sub_slice_drop 0 4 header); lia|].
    unfold sub_slice. rewrite take_ge; [done|]. rewrite length_drop. lia. }
  destruct (IH _ _ _ _ _ _ Hrec) as (Hf & Ho & He & Htk & Hle & Hc).
  assert (length (record entry) = 8 + length payload) as Hrl by (rewrite Hrecord, length_app; lia).
  assert (N.to_nat (records_len (entry :: es')) = 8 + length payload + N.to_nat (records_len es')) as Hrlen.
  { unfold records_len. rewrite records_cons, length_app. lia. }
  rewrite length_drop in Hle. split; [constructor; [|done]|].
  { repeat split; [done|done|]. lia. }
  split; [cbn [offsets_from]; f_equal; rewrite Ho; f_equal; lia|].
  split; [unfold records_len in *; rewrite records_cons, length_app; lia|].
  split; [|split].
  - rewrite Hrlen, records_cons, Hrecord, <- Htk. unfold header, payload.
    rewrite <- app_assoc, !take_take_drop. f_equal. fold payload header. lia.
  - rewrite Hrlen. rewrite length_drop in Hle, Hpl. lia.
  - intros Hb. cbn [length] in Hb. split; [done|].
    destruct es' as [|x es'']; [done|]. rewrite u64_add_small in Hc by (cbn [length] in Hb; lia).
    apply Hc. cbn [length] in *. lia.
Qed.
