(* ===== verification/Checksum.v ===== *)
(** * The checksum detects single-byte corruption

    [ChecksumIEEE] is injective in each byte of its argument, so a record of
    the write-ahead log in which one byte after the length field was changed
    is rejected by the scan. *)
From S2P Require Import Prelude RaftTypes Codec.

(** ** Bits *)
Lemma bits_lt a : (∀ i, (32 ≤ i)%N → N.testbit a i = false) → (a < two32)%N.
Proof.
  intros Ha. destruct (decide (a = 0%N)) as [->|Hne]; [done|].
  apply N.log2_lt_pow2 with (b := 32%N); [lia|].
  destruct (decide (32 ≤ N.log2 a)%N) as [Hle|]; [|lia].
  pose proof (N.bit_log2 a Hne) as Hb. by rewrite Ha in Hb.
Qed.

Lemma lt_bits a i : (a < two32)%N → (32 ≤ i)%N → N.testbit a i = false.
Proof.
  intros Ha Hi. destruct (decide (a = 0%N)) as [->|Hne]; [apply N.bits_0|].
  apply N.bits_above_log2. enough (N.log2 a < 32)%N by lia. apply N.log2_lt_pow2; [lia|done].
Qed.

Lemma lxor_lt a b : (a < two32)%N → (b < two32)%N → (N.lxor a b < two32)%N.
Proof.
  intros Ha Hb. apply bits_lt. intros i Hi. rewrite N.lxor_spec. by rewrite !lt_bits.
Qed.

Lemma lxor_inj_r a b c : N.lxor a c = N.lxor b c → a = b.
Proof.
  intros H. apply (f_equal (λ x, N.lxor x c)) in H.
  by rewrite !N.lxor_assoc, !N.lxor_nilpotent, !N.lxor_0_r in H.
Qed.

Lemma shiftr_lt a : (a < two32)%N → (N.shiftr a 1 < two32)%N.
Proof. intros Ha. rewrite N.shiftr_div_pow2. change (2 ^ 1)%N with 2%N. pose proof (N.Div0.div_le_upper_bound a 2 a). lia. Qed.

Lemma crc_bit_lt a : (a < two32)%N → (crc_bit a < two32)%N.
Proof.
  intros Ha. unfold crc_bit. destruct (N.testbit a 0); [|by apply shiftr_lt].
  apply lxor_lt; [by apply shiftr_lt|done].
Qed.

(** The polynomial's top bit records which branch was taken. *)
Lemma crc_bit_top a : (a < two32)%N → N.testbit (crc_bit a) 31 = N.testbit a 0.
Proof.
  intros Ha. assert (N.testbit (N.shiftr a 1) 31 = false) as Hs.
  { rewrite N.shiftr_spec by lia. by apply lt_bits. }
  unfold crc_bit. destruct (N.testbit a 0); [|done]. by rewrite N.lxor_spec, Hs.
Qed.

Lemma crc_bit_inj a b : (a < two32)%N → (b < two32)%N → crc_bit a = crc_bit b → a = b.
Proof.
  intros Ha Hb H. assert (N.testbit a 0 = N.testbit b 0) as H0 by (by rewrite <- !crc_bit_top, H).
  assert (N.shiftr a 1 = N.shiftr b 1) as Hs.
  { unfold crc_bit in H. rewrite H0 in H. destruct (N.testbit b 0); [by apply lxor_inj_r in H|done]. }
  apply N.bits_inj. intros i. destruct (decide (i = 0%N)) as [->|Hi]; [done|].
  replace i with (i - 1 + 1)%N by lia. rewrite <- !N.shiftr_spec by lia. by rewrite Hs.
Qed.

Lemma iter_crc_bit_lt n a : (a < two32)%N → (Nat.iter n crc_bit a < two32)%N.
Proof. intros Ha. induction n as [|n IH]; [done|]. by apply crc_bit_lt. Qed.

Lemma iter_crc_bit_inj n a b :
  (a < two32)%N → (b < two32)%N → Nat.iter n crc_bit a = Nat.iter n crc_bit b → a = b.
Proof.
  intros Ha Hb. induction n as [|n IH]; [done|]. intros H. apply IH.
  by apply crc_bit_inj in H; [|apply iter_crc_bit_lt..].
Qed.

Lemma to_N_lt32 b : (Byte.to_N b < two32)%N.
Proof. pose proof (Byte.to_N_bounded b). unfold two32. lia. Qed.

Lemma crc_byte_lt a b : (a < two32)%N → (crc_byte a b < two32)%N.
Proof. intros Ha. apply iter_crc_bit_lt, lxor_lt; [done|apply to_N_lt32]. Qed.

Lemma crc_byte_inj a b x y :
  (a < two32)%N → (b < two32)%N → crc_byte a x = crc_byte b y →
  N.lxor a (Byte.to_N x) = N.lxor b (Byte.to_N y).
Proof.
  intros Ha Hb H. by apply iter_crc_bit_inj in H; [|apply lxor_lt; [done|apply to_N_lt32]..].
Qed.

Lemma foldl_crc_lt l a : (a < two32)%N → (foldl crc_byte a l < two32)%N.
Proof. revert a. induction l as [|x l IH]; intros a Ha; [done|]. by apply IH, crc_byte_lt. Qed.

Lemma foldl_crc_inj l a b :
  (a < two32)%N → (b < two32)%N → foldl crc_byte a l = foldl crc_byte b l → a = b.
Proof.
  revert a b. induction l as [|x l IH]; intros a b Ha Hb H; [done|]. cbn in H.
  apply IH in H; [|by apply crc_byte_lt..]. apply crc_byte_inj in H; [|done..].
  by apply lxor_inj_r in H.
Qed.

(** Two messages that differ in one byte have different checksums. *)
Lemma ChecksumIEEE_byte l1 l2 x y :
  ChecksumIEEE (l1 ++ x :: l2) = ChecksumIEEE (l1 ++ y :: l2) → x = y.
Proof.
  unfold ChecksumIEEE. assert (4294967295 < two32)%N as Hm by done.
  rewrite !u32_small by (by apply lxor_lt; [apply foldl_crc_lt|]).
  intros H%lxor_inj_r. rewrite !foldl_app in H. cbn in H.
  set (a := foldl crc_byte 4294967295%N l1) in H.
  assert (a < two32)%N as Ha by (by apply foldl_crc_lt).
  apply foldl_crc_inj in H; [|by apply crc_byte_lt..]. apply crc_byte_inj in H; [|done..].
  rewrite !(N.lxor_comm a) in H. apply lxor_inj_r in H.
  apply (f_equal byte_of) in H. by rewrite !byte_of_to_N in H.
Qed.

Lemma ChecksumIEEE_insert l k x b :
  l !! k = Some x → x ≠ b → ChecksumIEEE (<[k := b]> l) ≠ ChecksumIEEE l.
Proof.
  intros Hk Hne H. rewrite <- (take_drop_middle l k x Hk) in H.
  rewrite insert_app_r_alt in H by (rewrite length_take; lia).
  pose proof (lookup_lt_Some _ _ _ Hk). rewrite length_take in H.
  replace (k - k `min` length l) with 0 in H by lia. cbn in H. by apply ChecksumIEEE_byte in H.
Qed.

(** ** A damaged record ends the scan *)
Lemma scan_bad_crc fuel p crc rest pos expected :
  (N.of_nat (length p) ≤ maxRecordPayload)%N → length crc = 4 → be_val crc ≠ ChecksumIEEE p →
  scan fuel (PutUint32 (N.of_nat (length p)) ++ crc ++ p ++ rest) pos expected = ([], [], pos).
Proof.
  intros Hlen Hcrc Hne. destruct fuel as [|fuel]; [done|]. cbn [scan].
  rewrite app_assoc. rewrite readfull_app by (by rewrite length_app, PutUint32_length, Hcrc).
  assert (N.of_nat (length p) < two32)%N as Hlen' by (unfold two32, maxRecordPayload in *; lia).
  rewrite sub_slice_app_l, sub_slice_app_r by (rewrite PutUint32_length; lia).
  rewrite PutUint32_length. cbn [Nat.sub]. rewrite !sub_slice_all by (done || apply PutUint32_length).
  rewrite be_val_32 by done. rewrite (proj2 (N.ltb_ge _ _)) by done.
  rewrite readfull_app by lia. destruct (N.eqb_spec (ChecksumIEEE p) (be_val crc)); [congruence|done].
Qed.

Lemma be_val_inj l1 l2 : length l1 = length l2 → be_val l1 = be_val l2 → l1 = l2.
Proof. intros Hl H. by rewrite <- (be_be_val l1), <- (be_be_val l2), Hl, H. Qed.

Lemma scan_corrupt fuel e k x b rest pos expected :
  disk_entry_fits e → 4 ≤ k → record e !! k = Some x → x ≠ b →
  scan fuel (<[k := b]> (record e) ++ rest) pos expected = ([], [], pos).
Proof.
  intros Hf Hk Hx Hne. pose proof (fits_len e Hf) as Hlen.
  assert (N.of_nat (length (encodeEntry e)) < two32)%N as Hlen' by (unfold two32, maxRecordPayload in *; lia).
  unfold record, record_header in *. rewrite u32_small in * by done.
  set (p := encodeEntry e) in *. set (h := PutUint32 (N.of_nat (length p))) in *.
  assert (length h = 4) as Hh by apply PutUint32_length.
  rewrite <- !app_assoc in *. rewrite insert_app_r_alt by lia.
  rewrite lookup_app_r in Hx by lia. rewrite Hh in *. set (c := PutUint32 (ChecksumIEEE p)) in *.
  assert (length c = 4) as Hc by apply PutUint32_length.
  assert (be_val c = ChecksumIEEE p) as Hcv by apply be_val_32, u32_lt.
  destruct (decide (k - 4 < 4)) as [Hk4|Hk4].
  - rewrite insert_app_l by lia. rewrite <- !app_assoc. apply scan_bad_crc; [done|by rewrite length_insert|].
    rewrite <- Hcv. intros E. apply be_val_inj in E; [|by rewrite length_insert].
    rewrite lookup_app_l in Hx by lia. rewrite <- E in Hx.
    rewrite list_lookup_insert_eq in Hx by lia. congruence.
  - rewrite insert_app_r_alt by lia. rewrite lookup_app_r in Hx by lia. rewrite Hc in *.
    rewrite <- !app_assoc. unfold h. rewrite <- (length_insert p (k - 4 - 4) b).
    apply scan_bad_crc; [by rewrite length_insert|done|]. rewrite Hcv.
    intros E. symmetry in E. revert E. by eapply ChecksumIEEE_insert.
Qed.
