(* ===== verification/DiskStorage.v ===== *)
(** * internal/storage/wal.go: DiskStorage

    The disk is a map from paths to contents plus the open write-ahead-log
    handle, which keeps its file when another one is renamed over its path.
    Every system call takes its outcome from [d_faults]: success, or failure
    after some bytes, which is also where a killed process stops.  An empty
    list means no further fault.  [d_readErr] is a failure of the scan's reads. *)
From S2P Require Import Prelude RaftTypes Codec.

Definition hardStateFileName : string := "hardstate".
Definition walFileName : string := "log.wal".
Definition snapshotFileName : string := "snapshot".
Definition hardStateTmp : string := "hardstate.tmp".
Definition snapshotTmp : string := "snapshot.tmp".
Definition walTmp : string := "log.wal.compact".

Lemma path_names :
  walFileName ≠ hardStateFileName ∧ walFileName ≠ snapshotFileName ∧
  hardStateFileName ≠ snapshotFileName.
Proof. by vm_compute. Qed.

(** The file the [wal] handle refers to. *)
Inductive Handle : Type :=
| Linked
| Orphan (content : bytes)
| Closed.

Record DiskStorage : Type := MkDisk {
  d_files : gmap string bytes;
  d_handle : Handle;
  d_pos : N;
  d_faults : list (option nat);
  d_readErr : option nat;
  d_offsets : list N;
  d_lastIncludedIndex : N;
  d_lastIncludedTerm : N;
}.

Definition set_files (x : gmap string bytes) (d : DiskStorage) : DiskStorage :=
  MkDisk x (d_handle d) (d_pos d) (d_faults d) (d_readErr d) (d_offsets d)
    (d_lastIncludedIndex d) (d_lastIncludedTerm d).
Definition set_handle (x : Handle) (d : DiskStorage) : DiskStorage :=
  MkDisk (d_files d) x (d_pos d) (d_faults d) (d_readErr d) (d_offsets d)
    (d_lastIncludedIndex d) (d_lastIncludedTerm d).
Definition set_pos (x : N) (d : DiskStorage) : DiskStorage :=
  MkDisk (d_files d) (d_handle d) x (d_faults d) (d_readErr d) (d_offsets d)
    (d_lastIncludedIndex d) (d_lastIncludedTerm d).
Definition set_faults (x : list (option nat)) (d : DiskStorage) : DiskStorage :=
  MkDisk (d_files d) (d_handle d) (d_pos d) x (d_readErr d) (d_offsets d)
    (d_lastIncludedIndex d) (d_lastIncludedTerm d).
Definition set_readErr (x : option nat) (d : DiskStorage) : DiskStorage :=
  MkDisk (d_files d) (d_handle d) (d_pos d) (d_faults d) x (d_offsets d)
    (d_lastIncludedIndex d) (d_lastIncludedTerm d).
Definition set_offsets (x : list N) (d : DiskStorage) : DiskStorage :=
  MkDisk (d_files d) (d_handle d) (d_pos d) (d_faults d) (d_readErr d) x
    (d_lastIncludedIndex d) (d_lastIncludedTerm d).
Definition set_base (i t : N) (d : DiskStorage) : DiskStorage :=
  MkDisk (d_files d) (d_handle d) (d_pos d) (d_faults d) (d_readErr d) (d_offsets d) i t.

Abbreviation D := (GoM DiskStorage).

(** ** System calls *)
Definition io_error : error := Errorf "input/output error".

(** The outcome of the next call. *)
Definition sys : D (option nat) :=
  d ← get;
  match d_faults d with
  | [] => mret None
  | f :: fs => modify (set_faults fs) ;; mret f
  end.

Definition fault_error (f : option nat) : option error :=
  match f with Some _ => Some io_error | None => None end.

(** A call without other effect on the files ([fsync], [close], [mkdir]). *)
Definition sys_unit : D (option error) :=
  f ← sys;
  mret (fault_error f).

Definition wal_content (d : DiskStorage) : bytes :=
  match d_handle d with
  | Linked => default [] (d_files d !! walFileName)
  | Orphan c => c
  | Closed => []
  end.

Definition set_content (c : bytes) (d : DiskStorage) : DiskStorage :=
  match d_handle d with
  | Linked => set_files (<[walFileName := c]> (d_files d)) d
  | Orphan _ => set_handle (Orphan c) d
  | Closed => d
  end.

(** A call on the [wal] handle. *)
Definition on_wal {A} (k : D (A + error)) : D (A + error) :=
  d ← get;
  match d_handle d with
  | Closed => mret (inr (Errorf "file already closed"))
  | _ =>
      f ← sys;
      match f with
      | Some _ => mret (inr io_error)
      | None => k
      end
  end.

Definition wal_Seek (pos : N) : D (N + error) :=
  on_wal (modify (set_pos pos) ;; mret (inl pos)).

Definition wal_SeekEnd : D (N + error) :=
  on_wal (d ← get;
          let pos := N.of_nat (length (wal_content d)) in
          modify (set_pos pos) ;; mret (inl pos)).

(** Bytes [b] written at [pos] over [c]; a hole reads as zeros. *)
Definition write_at (pos : nat) (b c : bytes) : bytes :=
  take pos c ++ replicate (pos - length c) Byte.x00 ++ b ++ drop (pos + length b) c.

Definition wal_Write (b : bytes) : D (option error) :=
  d ← get;
  match d_handle d with
  | Closed => mret (Some (Errorf "file already closed"))
  | _ =>
      f ← sys;
      let done_ := match f with None => b | Some k => take k b end in
      modify (λ d, set_pos (d_pos d + N.of_nat (length done_))%N
                     (set_content (write_at (N.to_nat (d_pos d)) done_ (wal_content d)) d)) ;;
      mret (fault_error f)
  end.

Definition wal_Truncate (n : N) : D (() + error) :=
  on_wal (modify (λ d, set_content (take (N.to_nat n) (wal_content d)) d) ;; mret (inl ())).

Definition wal_Sync : D (() + error) := on_wal (mret (inl ())).

(** [os.OpenFile(path, O_CREATE|O_WRONLY|O_TRUNC)] *)
Definition create_file (path : string) : D (option error) :=
  f ← sys;
  match f with
  | Some _ => mret (Some io_error)
  | None => modify (λ d, set_files (<[path := []]> (d_files d)) d) ;; mret None
  end.

(** A write at the end of the file just created. *)
Definition write_file (path : string) (b : bytes) : D (option error) :=
  f ← sys;
  let done_ := match f with None => b | Some k => take k b end in
  modify (λ d, set_files (<[path := default [] (d_files d !! path) ++ done_]> (d_files d)) d) ;;
  mret (fault_error f).

Definition rename (old new : string) : D (option error) :=
  f ← sys;
  match f with
  | Some _ => mret (Some io_error)
  | None =>
      modify (λ d,
        let d' := if bool_decide (new = walFileName)
                  then match d_handle d with
                       | Linked => set_handle (Orphan (wal_content d)) d
                       | _ => d
                       end
                  else d in
        set_files (<[new := default [] (d_files d !! old)]> (delete old (d_files d))) d') ;;
      mret None
  end.

(** [os.ReadFile]: [inl None] when the file does not exist. *)
Definition read_file (path : string) : D (option bytes + error) :=
  f ← sys;
  d ← get;
  mret (match f with Some _ => inr io_error | None => inl (d_files d !! path) end).

(** ** Hard state and snapshot files *)
Definition encodeHardState (term : N) (votedFor : NodeID) : bytes :=
  let v := String.list_byte_of_string votedFor in
  PutUint64 term ++ PutUint32 (u32 (N.of_nat (length v))) ++ v.

Definition decodeHardState (data : bytes) : (N * NodeID) + error :=
  if (length data <? 12)%nat then inr (Errorf "storage: hardstate file too short")
  else
    let n := be_val (sub_slice 8 12 data) in
    if negb (u32 (12 + n) =? N.of_nat (length data))%N
    then inr (Errorf "storage: hardstate votedFor length mismatch")
    else inl (be_val (sub_slice 0 8 data), String.string_of_list_byte (drop 12 data)).

Definition encodeSnapshot (lastIncludedIndex lastIncludedTerm : N) (data : bytes) : bytes :=
  PutUint64 lastIncludedIndex ++ PutUint64 lastIncludedTerm ++
  PutUint32 (u32 (N.of_nat (length data))) ++ data.

Definition decodeSnapshot (raw : bytes) : (N * N * bytes) + error :=
  if (length raw <? 20)%nat then inr (Errorf "storage: snapshot file too short")
  else
    let dataLen := be_val (sub_slice 16 20 raw) in
    if negb (u32 (20 + dataLen) =? N.of_nat (length raw))%N
    then inr (Errorf "storage: snapshot data length mismatch")
    else inl (be_val (sub_slice 0 8 raw), be_val (sub_slice 8 16 raw),
              if (0 <? dataLen)%N then drop 20 raw else []).

(** The messages of the five steps of a write-temp-fsync-rename. *)
Record StepNames : Type := MkSteps {
  s_create : string; s_write : string; s_sync : string; s_close : string; s_install : string;
}.

(** The common body of [SaveHardState] and [writeSnapshotFileLocked]. *)
Definition write_atomically (tmp final : string) (buf : bytes) (s : StepNames) : D (option error) :=
  e ← create_file tmp;
  if e is Some err then mret (Some (Wrapf (s_create s) err)) else
  e ← write_file tmp buf;
  if e is Some err then sys ;; mret (Some (Wrapf (s_write s) err)) else
  e ← sys_unit;
  if e is Some err then sys ;; mret (Some (Wrapf (s_sync s) err)) else
  e ← sys_unit;
  if e is Some err then mret (Some (Wrapf (s_close s) err)) else
  e ← rename tmp final;
  mret (if e is Some err then Some (Wrapf (s_install s) err) else None).

Definition ds_SaveHardState (term : N) (votedFor : NodeID) : D (option error) :=
  write_atomically hardStateTmp hardStateFileName (encodeHardState term votedFor)
    (MkSteps "storage: creating hardstate temp file" "storage: writing hardstate"
       "storage: fsyncing hardstate" "storage: closing hardstate temp file"
       "storage: installing hardstate").

Definition writeSnapshotFileLocked (lii lit : N) (data : bytes) : D (option error) :=
  write_atomically snapshotTmp snapshotFileName (encodeSnapshot lii lit data)
    (MkSteps "storage: creating snapshot temp file" "storage: writing snapshot"
       "storage: fsyncing snapshot" "storage: closing snapshot temp file"
       "storage: installing snapshot").

(** ** The write-ahead log *)
Fixpoint append_records (entries : list LogEntry) : D (option error) :=
  match entries with
  | [] => mret None
  | e :: rest =>
      r ← wal_SeekEnd;
      match r with
      | inr err => mret (Some (Wrapf "storage: seeking wal" err))
      | inl offset =>
          let payload := encodeEntry e in
          w ← wal_Write (record_header payload);
          if w is Some err then mret (Some (Wrapf "storage: writing wal record header" err)) else
          w ← wal_Write payload;
          if w is Some err then mret (Some (Wrapf "storage: writing wal record" err)) else
          modify (λ d, set_offsets (d_offsets d ++ [offset]) d) ;;
          append_records rest
      end
  end.

Definition ds_AppendLog (entries : list LogEntry) : D (option error) :=
  e ← append_records entries;
  if e is Some err then mret (Some err) else
  r ← wal_Sync;
  mret (if r is inr err then Some (Wrapf "storage: fsyncing wal" err) else None).

Definition ds_TruncateLog (fromIndex : N) : D (option error) :=
  d ← get;
  if (fromIndex <=? d_lastIncludedIndex d)%N
  then mret (Some (Errorf "storage: TruncateLog: fromIndex is at or before the snapshot boundary"))
  else
    let pos := u64_sub (u64_sub fromIndex (d_lastIncludedIndex d)) 1 in
    if (Z.of_nat (length (d_offsets d)) <=? int_of_u64 pos)%Z then mret None else
    offset ← lift_go (slice_get (d_offsets d) pos);
    r ← wal_Truncate offset;
    if r is inr err then mret (Some (Wrapf "storage: truncating wal" err)) else
    r ← wal_Seek offset;
    if r is inr err then mret (Some (Wrapf "storage: seeking wal after truncate" err)) else
    r ← wal_Sync;
    if r is inr err then mret (Some (Wrapf "storage: fsyncing wal after truncate" err)) else
    offs ← lift_go (slice_to (d_offsets d) pos);
    modify (set_offsets offs) ;;
    mret None.

(** Where the surviving records begin, and their new offsets. *)
Definition cut_point (relPos : Z) : D (N * list N + error) :=
  d ← get;
  if (relPos <? Z.of_nat (length (d_offsets d)))%Z then
    if (relPos <? 0)%Z then panic else
    match drop (Z.to_nat relPos) (d_offsets d) with
    | [] => panic
    | (cut :: _) as offs => mret (inl (cut, (λ o, o - cut)%N <$> offs))
    end
  else
    r ← wal_SeekEnd;
    mret match r with
         | inr err => inr (Wrapf "storage: seeking wal" err)
         | inl end_ => inl (end_, [])
         end.

(** [io.Copy(tmp, d.wal)] from the handle's position, which nothing reads
    again before the next seek. *)
Definition copy_wal (tmp : string) : D (option error) :=
  d ← get;
  write_file tmp (drop (N.to_nat (d_pos d)) (wal_content d)).

(** The last part: close the old handle, open the compacted file. *)
Definition reopen_wal (lii lit : N) (offs : list N) : D (option error) :=
  e ← sys_unit;
  modify (set_handle Closed) ;;
  if e is Some err then mret (Some (Wrapf "storage: closing old wal handle" err)) else
  e ← sys_unit;
  if e is Some err then mret (Some (Wrapf "storage: reopening compacted wal" err)) else
  modify (set_handle Linked) ;;
  r ← wal_SeekEnd;
  match r with
  | inr err => modify (set_handle Closed) ;; mret (Some (Wrapf "storage: seeking new wal handle" err))
  | inl _ => modify (set_offsets offs) ;; modify (set_base lii lit) ;; mret None
  end.

Definition compactWALLocked (lii lit : N) : D (option error) :=
  d ← get;
  c ← cut_point (int_of_u64 (u64_sub lii (d_lastIncludedIndex d)));
  match c with
  | inr err => mret (Some err)
  | inl (cut, offs) =>
      e ← create_file walTmp;
      if e is Some err then mret (Some (Wrapf "storage: creating compacted wal" err)) else
      r ← wal_Seek cut;
      if r is inr err then sys ;; mret (Some (Wrapf "storage: seeking source wal" err)) else
      e ← copy_wal walTmp;
      if e is Some err then sys ;; mret (Some (Wrapf "storage: copying surviving wal entries" err)) else
      e ← sys_unit;
      if e is Some err then sys ;; mret (Some (Wrapf "storage: fsyncing compacted wal" err)) else
      e ← sys_unit;
      if e is Some err then mret (Some (Wrapf "storage: closing compacted wal" err)) else
      e ← rename walTmp walFileName;
      if e is Some err then mret (Some (Wrapf "storage: installing compacted wal" err)) else
      reopen_wal lii lit offs
  end.

Definition ds_SaveSnapshot (lii lit : N) (data : bytes) : D (option error) :=
  e ← writeSnapshotFileLocked lii lit data;
  if e is Some err then mret (Some err) else compactWALLocked lii lit.

(** ** Opening, closing, loading *)
Definition NewDiskStorage : D (option error) :=
  e ← sys_unit;
  if e is Some err then mret (Some (Wrapf "storage: creating data dir" err)) else
  e ← sys_unit;
  if e is Some err then mret (Some (Wrapf "storage: opening wal" err)) else
  modify (λ d, MkDisk (<[walFileName := default [] (d_files d !! walFileName)]> (d_files d))
                 Linked 0 (d_faults d) (d_readErr d) [] 0 0) ;;
  mret None.

Definition ds_Close : D (option error) :=
  d ← get;
  match d_handle d with
  | Closed => mret (Some (Errorf "file already closed"))
  | _ => e ← sys_unit; modify (set_handle Closed) ;; mret e
  end.

Definition loadHardState : D (N * NodeID + error) :=
  r ← read_file hardStateFileName;
  mret match r with
       | inl None => inl (0%N, ""%string)
       | inr err => inr (Wrapf "storage: reading hardstate" err)
       | inl (Some data) => decodeHardState data
       end.

Definition loadSnapshot : D (N * N * bytes + error) :=
  r ← read_file snapshotFileName;
  mret match r with
       | inl None => inl (0%N, 0%N, [])
       | inr err => inr (Wrapf "storage: reading snapshot" err)
       | inl (Some raw) => decodeSnapshot raw
       end.

(** The bytes the scan gets to see: all, or those before a read error, which
    the code does not tell from the end of the file. *)
Definition read_wal : D bytes :=
  d ← get;
  modify (set_readErr None) ;;
  mret match d_readErr d with None => wal_content d | Some k => take k (wal_content d) end.

Definition scanAndRepairWAL (baseIndex : N) : D (list LogEntry * list N + error) :=
  r ← wal_Seek 0;
  if r is inr err then mret (inr (Wrapf "storage: seeking wal" err)) else
  input ← read_wal;
  let '(entries, offsets, pos) := scan (S (length input)) input 0 (u64_add baseIndex 1) in
  r ← wal_Truncate pos;
  if r is inr err then mret (inr (Wrapf "storage: truncating torn wal tail" err)) else
  r ← wal_Seek pos;
  if r is inr err then mret (inr (Wrapf "storage: seeking wal after repair" err)) else
  r ← wal_Sync;
  if r is inr err then mret (inr (Wrapf "storage: fsyncing wal after repair" err)) else
  mret (inl (entries, offsets)).

(** [Load] after the hard state was read. *)
Definition load_rest (term : N) (votedFor : NodeID) : D (PersistentState + error) :=
  s ← loadSnapshot;
  match s with
  | inr err => mret (inr err)
  | inl (lii, lit, snapData) =>
      modify (set_base lii lit) ;;
      w ← scanAndRepairWAL lii;
      match w with
      | inr err => mret (inr err)
      | inl (entries, offs) =>
          modify (set_offsets offs) ;;
          mret (inl (MkPersistent term votedFor (boundary lii lit :: entries) snapData))
      end
  end.

Definition ds_Load : D (PersistentState + error) :=
  h ← loadHardState;
  match h with
  | inr err => mret (inr err)
  | inl (term, votedFor) => load_rest term votedFor
  end.

#[export] Instance DiskStorage_Storage : Storage DiskStorage := {
  SaveHardState := ds_SaveHardState;
  AppendLog := ds_AppendLog;
  TruncateLog := ds_TruncateLog;
  SaveSnapshot := ds_SaveSnapshot;
  Load := ds_Load;
}.
