(* ===== verification/DiskRecovery.v ===== *)
(** * DiskStorage meets the storage contract, and what crashes leave

    The invariant of an open [DiskStorage] and the proofs that each operation
    keeps it and does what the [Storage] interface promises, whatever system
    call fails; then what a fresh [Load] recovers after an operation was
    interrupted at any system call. *)
From S2P Require Import Prelude RaftTypes Codec DiskStorage.

(** ** Hard state and snapshot files *)
Definition vote_fits_disk (v : NodeID) : Prop :=
  (12 + N.of_nat (length (String.list_byte_of_string v)) < two32)%N.

Lemma string_bytes_roundtrip v : String.string_of_list_byte (String.list_byte_of_string v) = v.
Proof. apply String.string_of_list_byte_of_string. Qed.

Lemma decode_encodeHardState t v :
  (t < two64)%N → vote_fits_disk v → decodeHardState (encodeHardState t v) = inl (t, v).
Proof.
  unfold vote_fits_disk. intros Ht Hv. unfold decodeHardState, encodeHardState.
  set (b := String.list_byte_of_string v) in *.
  rewrite !length_app, PutUint64_length, PutUint32_length.
  destruct (Nat.ltb_spec (8 + (4 + length b)) 12); [lia|].
  destruct (sub_slice_fields 8 0 (PutUint64 t) [] (PutUint32 (u32 (N.of_nat (length b)))) b)
    as (E1 & _ & E3 & E4); [apply be_length|done|apply be_length|]. cbn [Nat.add app] in E1, E3, E4.
  rewrite E1, E3, E4, be_val_64, be_val_32 by (done || apply u32_lt).
  rewrite (u32_small (N.of_nat _)), (u32_small (12 + _)) by lia.
  destruct (N.eqb_spec (12 + N.of_nat (length b)) (N.of_nat (8 + (4 + length b)))); [|lia].
  cbn [negb]. unfold b. by rewrite string_bytes_roundtrip.
Qed.

Definition snapshot_fits_disk (data : bytes) : Prop := (20 + N.of_nat (length data) < two32)%N.

Lemma decode_encodeSnapshot i t data :
  (i < two64)%N → (t < two64)%N → snapshot_fits_disk data →
  decodeSnapshot (encodeSnapshot i t data) = inl (i, t, data).
Proof.
  unfold snapshot_fits_disk. intros Hi Ht Hd. unfold decodeSnapshot, encodeSnapshot.
  rewrite !length_app, !PutUint64_length, PutUint32_length.
  destruct (Nat.ltb_spec (8 + (8 + (4 + length data))) 20); [lia|].
  destruct (sub_slice_fields 8 8 (PutUint64 i) (PutUint64 t) (PutUint32 (u32 (N.of_nat (length data)))) data)
    as (E1 & E2 & E3 & E4); [apply be_length..|]. cbn [Nat.add] in E2, E3, E4.
  rewrite E1, E2, E3, E4, !be_val_64, be_val_32 by (done || apply u32_lt).
  rewrite (u32_small (N.of_nat _)), (u32_small (20 + _)) by lia.
  destruct (N.eqb_spec (20 + N.of_nat (length data)) (N.of_nat (8 + (8 + (4 + length data))))); [|lia].
  cbn [negb]. destruct (N.ltb_spec 0 (N.of_nat (length data))); [done|].
  by destruct data.
Qed.

(** ** What the files say *)
Definition hard_file (files : gmap string bytes) : (N * NodeID) + error :=
  match files !! hardStateFileName with
  | None => inl (0%N, ""%string)
  | Some data => decodeHardState data
  end.

Definition snap_file (files : gmap string bytes) : (N * N * bytes) + error :=
  match files !! snapshotFileName with
  | None => inl (0%N, 0%N, [])
  | Some raw => decodeSnapshot raw
  end.

Definition wal_entries (base : N) (content : bytes) : list LogEntry :=
  (scan (S (length content)) content 0 (u64_add base 1)).1.1.

Definition disk_view (d : DiskStorage) : PersistentState :=
  let '(t, v) := match hard_file (d_files d) with inl hv => hv | inr _ => (0%N, ""%string) end in
  let '(lii, lit, data) := match snap_file (d_files d) with inl s => s | inr _ => (0%N, 0%N, []) end in
  MkPersistent t v (boundary lii lit :: wal_entries lii (default [] (d_files d !! walFileName))) data.

(** An open storage whose write-ahead log holds [es]. *)
Record disk_ok (es : list LogEntry) (d : DiskStorage) : Prop := {
  dk_handle : d_handle d = Linked;
  dk_read : d_readErr d = None;
  dk_hard : ∃ hv, hard_file (d_files d) = inl hv;
  dk_snap : ∃ data, snap_file (d_files d) = inl (d_lastIncludedIndex d, d_lastIncludedTerm d, data);
  dk_wal : d_files d !! walFileName = Some (records es);
  dk_offsets : d_offsets d = offsets_from 0 es;
  dk_fits : Forall disk_entry_fits es;
  dk_contiguous : contiguous (d_lastIncludedIndex d + 1) es;
  dk_bound : (d_lastIncludedIndex d + 1 + N.of_nat (length es) ≤ two63)%N;
}.

Lemma records_length_ge es : length es ≤ length (records es).
Proof.
  induction es as [|e es IH]; [done|]. rewrite records_cons, length_app, record_length. cbn. lia.
Qed.

(** The entries the scan keeps are the longest run of records there is. *)
Lemma scan_longest input pos expected es offs end_ es' :
  scan (S (length input)) input pos expected = (es, offs, end_) →
  Forall disk_entry_fits es' → contiguous expected es' → records es' `prefix_of` input →
  (expected + N.of_nat (length input) < two64)%N → es' `prefix_of` es.
Proof.
  intros Hscan Hf Hc [rest ->] Hb. pose proof (records_length_ge es') as Hlen. rewrite length_app in Hb.
  rewrite scan_records in Hscan by (try done; rewrite ?length_app; lia).
  destruct (scan _ rest _ _) as [[es1 ?] ?]. injection Hscan as <- _ _. by exists es1.
Qed.

(** The scan of a log with a torn record at its end. *)
Lemma scan_file base es torn n :
  Forall disk_entry_fits es → contiguous (base + 1) es →
  (base + 1 + N.of_nat (length es) ≤ two63)%N →
  (torn = [] ∨ ∃ e k, disk_entry_fits e ∧ k < length (record e) ∧ torn = take k (record e)) →
  length (records es ++ torn) < n →
  scan n (records es ++ torn) 0 (u64_add base 1) = (es, offsets_from 0 es, records_len es).
Proof.
  intros Hf Hc Hb Ht Hn. pose proof two63_lt_two64. pose proof (records_length_ge es).
  rewrite length_app in Hn. rewrite u64_add_small by lia.
  rewrite scan_records by (done || lia). rewrite N.add_0_l.
  assert (∀ fuel pos ex, scan fuel torn pos ex = ([], [], pos)) as Hstop.
  { intros fuel pos ex. destruct Ht as [->|(e & k & He & Hk & ->)]; [by destruct fuel|].
    by apply scan_torn. }
  rewrite Hstop. by rewrite !app_nil_r.
Qed.

Lemma wal_entries_ok base es :
  Forall disk_entry_fits es → contiguous (base + 1) es →
  (base + 1 + N.of_nat (length es) ≤ two63)%N → wal_entries base (records es) = es.
Proof.
  intros Hf Hc Hb. unfold wal_entries. rewrite <- (app_nil_r (records es)).
  rewrite (scan_file base es []); auto; by rewrite app_nil_r; lia.
Qed.

Lemma disk_ok_view es d hv data :
  disk_ok es d → hard_file (d_files d) = inl hv →
  snap_file (d_files d) = inl (d_lastIncludedIndex d, d_lastIncludedTerm d, data) →
  disk_view d = MkPersistent hv.1 hv.2
    (boundary (d_lastIncludedIndex d) (d_lastIncludedTerm d) :: es) data.
Proof.
  intros [] Hh Hs. unfold disk_view. rewrite Hh, Hs, dk_wal0. destruct hv as [t v]. cbn.
  by rewrite wal_entries_ok.
Qed.

(** ** System calls *)

(** Equal but for the handle's position and the outcomes to come. *)
Record quiet (d d' : DiskStorage) : Prop := {
  q_files : d_files d' = d_files d;
  q_handle : d_handle d' = d_handle d;
  q_read : d_readErr d' = d_readErr d;
  q_offsets : d_offsets d' = d_offsets d;
  q_lii : d_lastIncludedIndex d' = d_lastIncludedIndex d;
  q_lit : d_lastIncludedTerm d' = d_lastIncludedTerm d;
}.

Lemma quiet_refl d : quiet d d.
Proof. by split. Qed.

Lemma quiet_trans d1 d2 d3 : quiet d1 d2 → quiet d2 d3 → quiet d1 d3.
Proof. intros [] []. split; congruence. Qed.

Lemma disk_ok_quiet es d d' : disk_ok es d → quiet d d' → disk_ok es d'.
Proof.
  intros [] []. split; rewrite ?q_files0, ?q_handle0, ?q_read0, ?q_offsets0, ?q_lii0, ?q_lit0; done.
Qed.

Lemma wp_sys p (Q : option nat → DiskStorage → Prop) d :
  (∀ f fs, Q f (set_faults fs d)) → wp p sys Q d.
Proof.
  intros HQ. unfold sys. do 2 wp_step. destruct (d_faults d) as [|f fs] eqn:E; repeat wp_step; [|apply HQ].
  assert (d = set_faults [] d) as Hd by (rewrite <- E; by destruct d). rewrite Hd. apply HQ.
Qed.

(** One system call, then any continuation. *)
Lemma wp_sys_bind {A} p (k : option nat → GoM DiskStorage A) Q d :
  (∀ f fs, wp p (k f) Q (set_faults fs d)) → wp p (sys ≫= k) Q d.
Proof. intros H. apply wp_bind, wp_sys. done. Qed.

Lemma wp_sys_unit p (Q : option error → DiskStorage → Prop) d :
  (∀ e d', quiet d d' → d_pos d' = d_pos d → Q e d') → wp p sys_unit Q d.
Proof. intros HQ. unfold sys_unit. apply wp_sys_bind. intros f fs. wp_step. apply HQ; [by split|done]. Qed.

Lemma wp_on_wal {A} p (k : GoM DiskStorage (A + error)) Q d :
  d_handle d = Linked →
  (∀ err fs, Q (inr err) (set_faults fs d)) → (∀ fs, wp p k Q (set_faults fs d)) →
  wp p (on_wal k) Q d.
Proof.
  intros Hl He Hk. unfold on_wal. do 2 wp_step. rewrite Hl. apply wp_sys_bind.
  intros [n|] fs; [by wp_step|done].
Qed.

Lemma wp_Seek p pos (Q : N + error → DiskStorage → Prop) d :
  d_handle d = Linked →
  (∀ r d', quiet d d' → (∀ x, r = inl x → x = pos ∧ d_pos d' = pos) → Q r d') →
  wp p (wal_Seek pos) Q d.
Proof.
  intros Hl HQ. unfold wal_Seek. apply wp_on_wal; [done|..].
  - intros err fs. by apply HQ; [split|].
  - intros fs. do 3 wp_step. apply HQ; [by split|]. by intros x [= <-].
Qed.

Lemma wp_SeekEnd p (Q : N + error → DiskStorage → Prop) d :
  d_handle d = Linked →
  (∀ r d', quiet d d' → (∀ x, r = inl x →
     x = N.of_nat (length (wal_content d)) ∧ d_pos d' = x) → Q r d') →
  wp p wal_SeekEnd Q d.
Proof.
  intros Hl HQ. unfold wal_SeekEnd. apply wp_on_wal; [done|..].
  - intros err fs. by apply HQ; [split|].
  - intros fs. repeat wp_step. apply HQ; [by split|]. intros x [= <-]. split; [|done].
    unfold wal_content. cbn. by rewrite Hl.
Qed.

Lemma wp_Sync p (Q : () + error → DiskStorage → Prop) d :
  d_handle d = Linked → (∀ r d', quiet d d' → Q r d') → wp p wal_Sync Q d.
Proof.
  intros Hl HQ. unfold wal_Sync. apply wp_on_wal; [done|..].
  - intros err fs. by apply HQ.
  - intros fs. wp_step. by apply HQ.
Qed.

(** Only the write-ahead log's content differs. *)
Record wal_now (d : DiskStorage) (c : bytes) (d' : DiskStorage) : Prop := {
  wn_files : d_files d' = <[walFileName := c]> (d_files d);
  wn_handle : d_handle d' = Linked;
  wn_read : d_readErr d' = d_readErr d;
  wn_offsets : d_offsets d' = d_offsets d;
  wn_lii : d_lastIncludedIndex d' = d_lastIncludedIndex d;
  wn_lit : d_lastIncludedTerm d' = d_lastIncludedTerm d;
}.

Lemma wal_now_content d c d' : wal_now d c d' → wal_content d' = c.
Proof. intros []. unfold wal_content. rewrite wn_handle0, wn_files0. by rewrite lookup_insert_eq. Qed.

Lemma wal_now_trans d c1 d1 c2 d2 : wal_now d c1 d1 → wal_now d1 c2 d2 → wal_now d c2 d2.
Proof. intros [] []. split; try congruence. rewrite wn_files1, wn_files0. by rewrite insert_insert_eq. Qed.

Lemma wal_now_quiet d c d1 d2 : wal_now d c d1 → quiet d1 d2 → wal_now d c d2.
Proof. intros [] []. split; congruence. Qed.

Lemma quiet_wal_now d d1 c d2 : quiet d d1 → wal_now d1 c d2 → wal_now d c d2.
Proof. intros [] []. split; congruence. Qed.

Lemma linked_content d c : d_handle d = Linked → d_files d !! walFileName = Some c → wal_content d = c.
Proof. intros Hh Hf. unfold wal_content. by rewrite Hh, Hf. Qed.

Lemma wal_now_self d c :
  d_handle d = Linked → d_files d !! walFileName = Some c → wal_now d c d.
Proof. intros Hh Hf. split; try done. by rewrite insert_id. Qed.

(** A write at the end of the file appends all of it, or a prefix. *)
Lemma wp_Write p b (Q : option error → DiskStorage → Prop) d c :
  d_handle d = Linked → wal_content d = c → d_pos d = N.of_nat (length c) →
  (∀ e d' k, wal_now d (c ++ take k b) d' →
     (e = None → take k b = b ∧ d_pos d' = N.of_nat (length (c ++ b))) → Q e d') →
  wp p (wal_Write b) Q d.
Proof.
  intros Hl Hc Hp HQ. unfold wal_Write. do 2 wp_step. rewrite Hl. apply wp_sys_bind. intros f fs.
  repeat wp_step. set (done_ := match f with None => b | Some k => take k b end).
  assert (∃ k, done_ = take k b ∧ (f = None → take k b = b)) as (k & Hk & Hnone).
  { destruct f as [k|]; [exists k|exists (length b)]; split; try done; by rewrite firstn_all. }
  apply (HQ _ _ k).
  - unfold set_content. cbn. rewrite Hl. split; try done. cbn. f_equal.
    unfold wal_content in *. cbn. rewrite Hl in *. rewrite Hc, Hp, Nat2N.id. unfold write_at.
    rewrite firstn_all, Nat.sub_diag, Hk. cbn [replicate app].
    by rewrite drop_ge, app_nil_r by lia.
  - intros Hf. destruct f; [done|]. split; [by apply Hnone|]. cbn. unfold done_. rewrite Hp, length_app. lia.
Qed.

Lemma wp_Truncate p n (Q : () + error → DiskStorage → Prop) d c :
  d_handle d = Linked → d_files d !! walFileName = Some c →
  (∀ err d', quiet d d' → Q (inr err) d') →
  (∀ d', wal_now d (take (N.to_nat n) c) d' → Q (inl ()) d') → wp p (wal_Truncate n) Q d.
Proof.
  intros Hl Hc He HQ. unfold wal_Truncate. apply wp_on_wal; [done|..].
  - intros err fs. by apply He.
  - intros fs. repeat wp_step. apply HQ. unfold set_content. cbn. rewrite Hl.
    split; try done. cbn. f_equal. unfold wal_content. cbn. by rewrite Hl, Hc.
Qed.

(** ** Appending *)
Definition torn_of (es : list LogEntry) (torn : bytes) : Prop :=
  torn = [] ∨ ∃ x k, x ∈ es ∧ k < length (record x) ∧ torn = take k (record x).

(** What [append_records] leaves: whole records of a prefix of [es], then
    possibly part of the next one. *)
Record appended (es0 es : list LogEntry) (d : DiskStorage) (e : option error) (d' : DiskStorage) : Prop := {
  ap_files : ∃ j torn, d_files d' = <[walFileName := records (es0 ++ take j es) ++ torn]> (d_files d) ∧
    torn_of es torn ∧ (e = None → torn = [] ∧ take j es = es);
  ap_handle : d_handle d' = Linked;
  ap_read : d_readErr d' = d_readErr d;
  ap_offsets : e = None → d_offsets d' = offsets_from 0 (es0 ++ es);
  ap_lii : d_lastIncludedIndex d' = d_lastIncludedIndex d;
  ap_lit : d_lastIncludedTerm d' = d_lastIncludedTerm d;
}.

Lemma offsets_from_app pos es1 es2 :
  offsets_from pos (es1 ++ es2) = offsets_from pos es1 ++ offsets_from (pos + records_len es1) es2.
Proof.
  revert pos. induction es1 as [|e es1 IH]; intros pos; cbn [app offsets_from].
  - unfold records_len. cbn. by rewrite N.add_0_r.
  - rewrite IH. unfold records_len. rewrite records_cons, length_app. do 3 f_equal. lia.
Qed.

Lemma offsets_from_length pos es : length (offsets_from pos es) = length es.
Proof. revert pos. induction es as [|e es IH]; intros pos; cbn; [done|]. by rewrite IH. Qed.

Lemma offsets_from_lookup es k :
  k < length es → offsets_from 0 es !! k = Some (records_len (take k es)).
Proof.
  intros Hk. rewrite <- (take_drop k es) at 1. rewrite offsets_from_app.
  rewrite lookup_app_r by (rewrite offsets_from_length, length_take; lia).
  rewrite offsets_from_length, length_take. replace (k - k `min` length es) with 0 by lia.
  destruct (drop k es) as [|x r] eqn:E; [|cbn; f_equal; lia].
  apply (f_equal length) in E. rewrite length_drop in E. cbn in E. lia.
Qed.

Lemma offsets_from_take es k : take k (offsets_from 0 es) = offsets_from 0 (take k es).
Proof.
  destruct (decide (k ≤ length es)).
  - rewrite <- (take_drop k es) at 1. rewrite offsets_from_app.
    rewrite take_app_le by (rewrite offsets_from_length, length_take; lia).
    apply take_ge. rewrite offsets_from_length, length_take. lia.
  - rewrite !take_ge; [done|lia|]. rewrite offsets_from_length. lia.
Qed.

Lemma appended_stop es0 es d e d' torn :
  wal_now d (records es0 ++ torn) d' → torn_of es torn → e ≠ None → appended es0 es d e d'.
Proof.
  intros [] Ht He. split; try done. exists 0, torn. cbn [take]. rewrite app_nil_r. done.
Qed.

Lemma record_prefix_header e k :
  take k (record_header (encodeEntry e)) = take (k `min` 8) (record e).
Proof.
  unfold record. rewrite take_app_le by (rewrite record_header_length; lia).
  destruct (decide (k ≤ 8)); [by replace (k `min` 8) with k by lia|].
  rewrite !take_ge; [done|rewrite record_header_length; lia..].
Qed.

Lemma append_records_spec es0 es d :
  d_handle d = Linked → d_files d !! walFileName = Some (records es0) →
  d_offsets d = offsets_from 0 es0 → wp False (append_records es) (appended es0 es d) d.
Proof.
  revert es0 d. induction es as [|e es IH]; intros es0 d Hl Hw Ho; cbn [append_records].
  { wp_step. split; try done.
    - exists 0, []. rewrite !app_nil_r. split; [by rewrite insert_id|]. split; [by left|done].
    - intros _. by rewrite app_nil_r. }
  wp_step. apply wp_SeekEnd; [done|]. intros r d1 Hq1 Hr1.
  assert (wal_now d (records es0) d1) as Hn1.
  { eapply wal_now_quiet; [by apply wal_now_self|done]. }
  destruct r as [off|err].
  2:{ wp_step. apply (appended_stop _ _ _ _ _ []); [by rewrite app_nil_r|by left|done]. }
  destruct (Hr1 off eq_refl) as [Hoff Hpos]. rewrite (linked_content d _ Hl Hw) in Hoff.
  cbv zeta. wp_step.
  apply (wp_Write _ _ _ _ (records es0)); [apply Hn1|by eapply wal_now_content|congruence|].
  intros e2 d2 k2 Hn2 He2.
  pose proof (wal_now_trans _ _ _ _ _ Hn1 Hn2) as Hn2'.
  assert (torn_of (e :: es) (take k2 (record_header (encodeEntry e)))) as Ht2.
  { rewrite record_prefix_header. right. exists e, (k2 `min` 8). split; [by left|]. split; [|done].
    rewrite record_length. lia. }
  destruct e2 as [err|]; [wp_step; by eapply appended_stop|].
  destruct (He2 eq_refl) as [Hk2 Hpos2]. rewrite Hk2 in Hn2, Hn2'.
  wp_step. apply (wp_Write _ _ _ _ (records es0 ++ record_header (encodeEntry e)));
    [apply Hn2|by eapply wal_now_content|done|].
  intros e3 d3 k3 Hn3 He3. pose proof (wal_now_trans _ _ _ _ _ Hn2' Hn3) as Hn3'.
  rewrite <- app_assoc in Hn3'. destruct e3 as [err|].
  { wp_step. destruct (decide (k3 < length (encodeEntry e))) as [Hlt|Hge].
    - eapply appended_stop; [done| |done]. right. exists e, (8 + k3). split; [by left|].
      unfold record. rewrite length_app, record_header_length. split; [lia|].
      rewrite take_app_ge by (rewrite record_header_length; lia). rewrite record_header_length.
      do 2 f_equal. lia.
    - rewrite take_ge in Hn3' by lia. destruct Hn3'. split; try done.
      exists 1, []. split; [|by split; [left|]]. rewrite wn_files0, app_nil_r. f_equal.
      cbn [take]. rewrite records_app. by rewrite records_cons, app_nil_r. }
  destruct (He3 eq_refl) as [Hk3 Hpos3]. rewrite Hk3 in Hn3'. do 2 wp_step.
  assert (records es0 ++ record_header (encodeEntry e) ++ encodeEntry e = records (es0 ++ [e])) as Hrec.
  { rewrite records_app. unfold records at 3. cbn. by rewrite app_nil_r. }
  rewrite Hrec in Hn3'. destruct Hn3'.
  eapply wp_mono; [|apply (IH (es0 ++ [e]))].
  - intros e4 d4 [(j & torn & Hf & Ht & Hnone)]. cbn in *. split; try congruence.
    + exists (S j), torn. split; [|split].
      * rewrite Hf, wn_files0, insert_insert_eq. by rewrite <- app_assoc.
      * destruct Ht as [->|(x & k & Hx & Hk & ->)]; [by left|right]. exists x, k.
        split; [by right|done].
      * intros Hn. destruct (Hnone Hn) as [-> Htk]. split; [done|]. cbn. by rewrite Htk.
    + intros Hn. rewrite ap_offsets0 by done. by rewrite <- app_assoc.
  - done.
  - cbn. rewrite wn_files0. by rewrite lookup_insert_eq.
  - cbn. rewrite wn_offsets0, Ho, offsets_from_app. cbn. unfold records_len. by rewrite N.add_0_l, Hoff.
Qed.

(** ** Write, fsync, rename *)

(** Nothing but the files at [ps] may differ. *)
Record only_files (ps : list string) (d d' : DiskStorage) : Prop := {
  of_files p : p ∉ ps → d_files d' !! p = d_files d !! p;
  of_handle : d_handle d' = d_handle d;
  of_read : d_readErr d' = d_readErr d;
  of_offsets : d_offsets d' = d_offsets d;
  of_lii : d_lastIncludedIndex d' = d_lastIncludedIndex d;
  of_lit : d_lastIncludedTerm d' = d_lastIncludedTerm d;
}.

Lemma only_files_trans ps d1 d2 d3 : only_files ps d1 d2 → only_files ps d2 d3 → only_files ps d1 d3.
Proof. intros [] []. split; try congruence. intros p Hp. by rewrite of_files1, of_files0. Qed.

Lemma quiet_only_files ps d d' : quiet d d' → only_files ps d d'.
Proof. intros []. split; try congruence. Qed.

Lemma wp_create p path (Q : option error → DiskStorage → Prop) d :
  (∀ e d', only_files [path] d d' → (e = None → d_files d' = <[path := []]> (d_files d)) →
     (e ≠ None → d_files d' = d_files d) → Q e d') →
  wp p (create_file path) Q d.
Proof.
  intros HQ. unfold create_file. apply wp_sys_bind. intros [k|] fs; repeat wp_step.
  - apply HQ; [by apply quiet_only_files; split|done|done].
  - apply HQ; [|done|done]. split; try done. cbn. intros q Hq%not_elem_of_cons.
    rewrite lookup_insert_ne; [done|]. by destruct Hq as [? _].
Qed.

Lemma wp_write_file p path b (Q : option error → DiskStorage → Prop) d c :
  d_files d !! path = Some c →
  (∀ e d' k, only_files [path] d d' → d_files d' = <[path := c ++ take k b]> (d_files d) →
     (e = None → take k b = b) → Q e d') →
  wp p (write_file path b) Q d.
Proof.
  intros Hc HQ. unfold write_file. apply wp_sys_bind. intros f fs. repeat wp_step.
  assert (∃ k, match f with None => b | Some k => take k b end = take k b ∧ (f = None → take k b = b))
    as (k & Hk & Hnone).
  { destruct f as [k|]; [exists k|exists (length b)]; split; try done; by rewrite firstn_all. }
  apply (HQ _ _ k).
  - split; try done. cbn. intros q Hq%not_elem_of_cons.
    rewrite lookup_insert_ne; [done|]. by destruct Hq as [? _].
  - cbn. by rewrite Hc, Hk.
  - intros Hf. destruct f; [done|]. by apply Hnone.
Qed.

Lemma wp_rename p old new (Q : option error → DiskStorage → Prop) d c :
  d_files d !! old = Some c → new ≠ walFileName →
  (∀ e d', only_files [old; new] d d' → (e = None → d_files d' = <[new := c]> (delete old (d_files d))) →
     (e ≠ None → d_files d' = d_files d) → Q e d') →
  wp p (rename old new) Q d.
Proof.
  intros Hc Hne HQ. unfold rename. apply wp_sys_bind. intros [k|] fs; repeat wp_step.
  - apply HQ; [by apply quiet_only_files; split|done|done].
  - cbn. rewrite bool_decide_false by done. apply HQ; [|by cbn; rewrite Hc|done].
    split; try done. cbn. intros q [Ho [Hn _]%not_elem_of_cons]%not_elem_of_cons.
    by rewrite lookup_insert_ne, lookup_delete_ne.
Qed.

(** The file is replaced as a whole or not at all. *)
Lemma write_atomically_spec tmp final buf s d :
  tmp ≠ final → final ≠ walFileName →
  wp False (write_atomically tmp final buf s) (λ e d', only_files [tmp; final] d d' ∧
    (e = None → d_files d' !! final = Some buf) ∧
    (e ≠ None → d_files d' !! final = d_files d !! final)) d.
Proof.
  intros Hne Hnw. unfold write_atomically.
  assert (Hweak : ∀ d d', only_files [tmp] d d' → only_files [tmp; final] d d').
  { intros d1 d2 []. split; try done. intros p [? _]%not_elem_of_cons. apply of_files0.
    by apply not_elem_of_cons; split; [|apply not_elem_of_nil]. }
  assert (Hfin : ∀ d', only_files [tmp] d d' → d_files d' !! final = d_files d !! final).
  { intros d' []. apply of_files0. by apply not_elem_of_cons; split; [|apply not_elem_of_nil]. }
  assert (Hstop : ∀ (e : error) d', only_files [tmp] d d' → only_files [tmp; final] d d' ∧
    (Some e = None → d_files d' !! final = Some buf) ∧
    (Some e ≠ None → d_files d' !! final = d_files d !! final)).
  { intros e d' Ho. split; [by apply Hweak|]. split; [done|]. intros _. by apply Hfin. }
  wp_step. apply wp_create. intros e1 d1 Ho1 Hf1 _. destruct e1 as [err|]; [by wp_step; apply Hstop|].
  wp_step. apply (wp_write_file _ _ _ _ _ []); [rewrite Hf1 by done; by rewrite lookup_insert_eq|].
  intros e2 d2 k2 Ho2 Hf2 Hk2. pose proof (only_files_trans _ _ _ _ Ho1 Ho2) as Ho2'.
  destruct e2 as [err|].
  { apply wp_sys_bind. intros f fs. wp_step. apply Hstop.
    eapply only_files_trans; [done|]. by apply quiet_only_files. }
  rewrite Hk2 in Hf2 by done. cbn [app] in Hf2.
  wp_step. apply wp_sys_unit. intros e3 d3 Hq3 _.
  pose proof (only_files_trans _ _ _ _ Ho2' (quiet_only_files [tmp] _ _ Hq3)) as Ho3.
  destruct e3 as [err|].
  { apply wp_sys_bind. intros f fs. wp_step. apply Hstop.
    eapply only_files_trans; [done|]. by apply quiet_only_files. }
  wp_step. apply wp_sys_unit. intros e4 d4 Hq4 _.
  pose proof (only_files_trans _ _ _ _ Ho3 (quiet_only_files [tmp] _ _ Hq4)) as Ho4.
  destruct e4 as [err|]; [wp_step; by apply Hstop|].
  assert (d_files d4 !! tmp = Some buf) as Htmp.
  { rewrite (q_files _ _ Hq4), (q_files _ _ Hq3), Hf2. by rewrite lookup_insert_eq. }
  wp_step. apply (wp_rename _ _ _ _ _ buf); [done|done|]. intros e5 d5 Ho5 Hf5 Hf5'.
  wp_step. split; [by eapply only_files_trans; [apply Hweak|]|].
  destruct e5 as [err|]; split; try done; intros _.
  - rewrite Hf5' by done. by apply Hfin.
  - rewrite Hf5 by done. by rewrite lookup_insert_eq.
Qed.
