(* ===== verification/DiskContract.v ===== *)
(** * DiskStorage keeps the promises of the Storage interface

    [HardStateSpec] for [DiskStorage], and for [StorageSpec] what each operation
    did when it reports success, for every sequence of system-call outcomes.
    What an operation that fails leaves is in DiskCrash, the instance in
    DiskFaults. *)
From S2P Require Import Prelude RaftTypes Codec DiskStorage DiskRecovery.

(** ** Operations that leave the hard state file alone *)
Definition hard_same (d d' : DiskStorage) : Prop :=
  d_files d' !! hardStateFileName = d_files d !! hardStateFileName.

Definition keeps {A} (m : GoM DiskStorage A) : Prop :=
  ∀ d, wp True m (λ _ d', hard_same d d') d.

Lemma keeps_ret {A} (a : A) : keeps (mret a).
Proof. by intros d. Qed.

Lemma keeps_get : keeps get.
Proof. by intros d. Qed.

Lemma keeps_modify f : (∀ d, hard_same d (f d)) → keeps (modify f).
Proof. intros Hf d. apply Hf. Qed.

Lemma keeps_bind {A B} (m : GoM DiskStorage A) (k : A → GoM DiskStorage B) :
  keeps m → (∀ a, keeps (k a)) → keeps (m ≫= k).
Proof.
  intros Hm Hk d. wp_step. eapply wp_mono; [|apply Hm]. cbn. intros a d1 H1.
  eapply wp_mono; [|apply Hk]. cbn. intros b d2 H2. unfold hard_same in *. congruence.
Qed.

Lemma keeps_lift {A} (r : go A) : keeps (lift_go r).
Proof. intros d. by apply wp_lift_go. Qed.

Lemma keeps_panic {A} : keeps (@panic DiskStorage A).
Proof. by intros d. Qed.

Lemma keeps_sys : keeps sys.
Proof. intros d. by apply wp_sys. Qed.

Lemma insert_same p c d :
  p ≠ hardStateFileName → (<[p := c]> (d_files d)) !! hardStateFileName = d_files d !! hardStateFileName.
Proof. intros Hp. by rewrite lookup_insert_ne. Qed.

Lemma set_content_same c d : hard_same d (set_content c d).
Proof. unfold hard_same, set_content. destruct (d_handle d); try done. cbn. by apply insert_same. Qed.

Create HintDb keeps_db.
#[export] Hint Resolve keeps_ret keeps_get keeps_lift keeps_panic keeps_sys : keeps_db.

(** Walks through a computation; the side goals are the state updates. *)
Ltac keep :=
  repeat lazymatch goal with
  | |- keeps (mbind _ _) => apply keeps_bind; [|intros]
  | |- keeps (match ?x with _ => _ end) => destruct x
  | |- keeps (modify _) => apply keeps_modify; intros
  | |- keeps _ => solve [auto with keeps_db]
  end.

Lemma keeps_sys_unit : keeps sys_unit.
Proof. unfold sys_unit. keep. Qed.

Lemma keeps_on_wal {A} (k : GoM DiskStorage (A + error)) : keeps k → keeps (on_wal k).
Proof. intros Hk. unfold on_wal. keep; done. Qed.

Lemma keeps_Seek pos : keeps (wal_Seek pos).
Proof. apply keeps_on_wal. keep; done. Qed.

Lemma keeps_SeekEnd : keeps wal_SeekEnd.
Proof. apply keeps_on_wal. keep; done. Qed.

Lemma keeps_Write b : keeps (wal_Write b).
Proof. unfold wal_Write. keep; apply set_content_same. Qed.

Lemma keeps_Truncate n : keeps (wal_Truncate n).
Proof. apply keeps_on_wal. keep; apply set_content_same. Qed.

Lemma keeps_Sync : keeps wal_Sync.
Proof. apply keeps_on_wal. keep. Qed.

#[export] Hint Resolve keeps_sys_unit keeps_Seek keeps_SeekEnd keeps_Write keeps_Truncate keeps_Sync : keeps_db.

Lemma keeps_create p : p ≠ hardStateFileName → keeps (create_file p).
Proof. intros Hp. unfold create_file. keep; by apply insert_same. Qed.

Lemma keeps_write_file p b : p ≠ hardStateFileName → keeps (write_file p b).
Proof. intros Hp. unfold write_file. keep; by apply insert_same. Qed.

Lemma keeps_rename old new :
  old ≠ hardStateFileName → new ≠ hardStateFileName → keeps (rename old new).
Proof.
  intros Ho Hn. unfold rename. keep; unfold hard_same; cbn; by rewrite lookup_insert_ne, lookup_delete_ne.
Qed.

Lemma keeps_atomically tmp final buf s :
  tmp ≠ hardStateFileName → final ≠ hardStateFileName → keeps (write_atomically tmp final buf s).
Proof.
  intros Ht Hf. unfold write_atomically.
  apply keeps_bind; [by apply keeps_create|]. intros [e|]; [keep|].
  apply keeps_bind; [by apply keeps_write_file|]. intros [e|]; [keep|].
  keep; by apply keeps_rename.
Qed.

Lemma keeps_append es : keeps (ds_AppendLog es).
Proof.
  unfold ds_AppendLog. apply keeps_bind; [|intros [e|]; keep].
  induction es as [|e es IH]; cbn [append_records]; keep; done.
Qed.

Lemma keeps_truncate i : keeps (ds_TruncateLog i).
Proof. unfold ds_TruncateLog. keep; done. Qed.

Lemma keeps_cut_point r : keeps (cut_point r).
Proof. unfold cut_point. keep. Qed.

Lemma keeps_reopen i t o : keeps (reopen_wal i t o).
Proof. unfold reopen_wal. keep; done. Qed.

Lemma keeps_snapshot i t data : keeps (ds_SaveSnapshot i t data).
Proof.
  unfold ds_SaveSnapshot, writeSnapshotFileLocked.
  apply keeps_bind; [by apply keeps_atomically|]. intros [e|]; [keep|]. unfold compactWALLocked.
  apply keeps_bind; [keep|]. intros d. apply keeps_bind; [apply keeps_cut_point|].
  intros [[cut offs]|err]; [|keep]. apply keeps_bind; [by apply keeps_create|]. intros [e|]; [keep|].
  apply keeps_bind; [keep|]. intros [x|e]; [|keep].
  apply keeps_bind; [apply keeps_bind; [keep|intros; by apply keeps_write_file]|]. intros [e|]; [keep|].
  apply keeps_bind; [keep|]. intros [e|]; [keep|]. apply keeps_bind; [keep|]. intros [e|]; [keep|].
  apply keeps_bind; [by apply keeps_rename|]. intros [e|]; [keep|]. apply keeps_reopen.
Qed.

(** ** The hard-state contract *)
Definition disk_hard (d : DiskStorage) : N * NodeID :=
  match hard_file (d_files d) with inl hv => hv | inr _ => (0%N, ""%string) end.

Lemma disk_hard_same d d' : hard_same d d' → disk_hard d' = disk_hard d.
Proof. unfold hard_same, disk_hard, hard_file. by intros ->. Qed.

Lemma keeps_hard {A} (m : GoM DiskStorage A) d :
  keeps m → wp True m (λ _ d', disk_hard d' = disk_hard d) d.
Proof. intros Hm. eapply wp_mono; [|apply Hm]. cbn. intros _ d'. apply disk_hard_same. Qed.

Lemma ds_save_hard d t v :
  (t < two64)%N → vote_fits_disk v →
  wp True (SaveHardState t v) (λ e d', only_files [hardStateTmp; hardStateFileName] d d' ∧
    match e with
    | None => hard_file (d_files d') = inl (t, v)
    | Some _ => d_files d' !! hardStateFileName = d_files d !! hardStateFileName
    end) d.
Proof.
  intros Ht Hv. eapply wp_weaken; [done|]. eapply wp_mono; [|apply write_atomically_spec; done].
  cbn beta. intros e d' (Ho & Hnone & Hsome). split; [done|]. destruct e as [err|]; [by apply Hsome|].
  unfold hard_file. rewrite Hnone by done. by apply decode_encodeHardState.
Qed.

Lemma loadHardState_spec d :
  wp False loadHardState (λ r d', quiet d d' ∧ ∀ hv, r = inl hv → hard_file (d_files d) = inl hv) d.
Proof.
  unfold loadHardState, read_file. wp_step. apply wp_sys_bind. intros f fs. do 4 wp_step.
  split; [by split|]. intros hv. cbn. destruct f; [done|]. unfold hard_file.
  by destruct (d_files d !! hardStateFileName).
Qed.

Lemma keeps_load_rest t v : keeps (load_rest t v).
Proof. unfold load_rest, loadSnapshot, read_file, scanAndRepairWAL, read_wal. keep; done. Qed.

Lemma wp_skip {A B} (m : GoM DiskStorage A) (k : A → GoM DiskStorage B) Q d :
  (∀ a d', wp True (k a) Q d') → wp True (m ≫= k) Q d.
Proof. intros Hk. wp_step. unfold wp at 1. destruct (m d) as [[a d']|]; [apply Hk|done]. Qed.

Lemma load_rest_hard t v d :
  wp True (load_rest t v) (λ r _, ∀ ps, r = inl ps → (CurrentTerm ps, VotedFor ps) = (t, v)) d.
Proof.
  unfold load_rest. apply wp_skip. intros [[[lii lit] data]|err] d1; [|by wp_step].
  do 2 wp_step. apply wp_skip. intros [[es offs]|err] d2; [|by wp_step].
  repeat wp_step. by intros ps [= <-].
Qed.

#[export] Program Instance DiskStorage_Hard : HardStateSpec DiskStorage := {
  hard_view := disk_hard;
  vote_fits := vote_fits_disk;
}.
Next Obligation. done. Qed.
Next Obligation.
  intros d t v Ht Hv. eapply wp_mono; [|by apply ds_save_hard]. cbn. intros [err|] d' [_ Hf].
  - left. by apply disk_hard_same.
  - unfold disk_hard. by rewrite Hf.
Qed.
Next Obligation. intros d es. apply keeps_hard, keeps_append. Qed.
Next Obligation. intros d i. apply keeps_hard, keeps_truncate. Qed.
Next Obligation. intros d i t b. apply keeps_hard, keeps_snapshot. Qed.
Next Obligation.
  intros d. cbn [Load DiskStorage_Storage]. unfold ds_Load. wp_step.
  eapply wp_mono; [|eapply wp_weaken; [|apply loadHardState_spec]; done].
  intros h d1 [Hq Hh]; cbn beta. destruct h as [[t v]|err].
  - eapply wp_mono; [|apply (wp_conj _ _ _ _ _ (keeps_load_rest t v d1) (load_rest_hard t v d1))].
    cbn beta. intros r d2 [Hs Hr].
    assert (disk_hard d = (t, v)) as Hd by (unfold disk_hard; by rewrite (Hh _ eq_refl)).
    split.
    + apply disk_hard_same. unfold hard_same in *. rewrite Hs. by rewrite (q_files _ _ Hq).
    + destruct r as [ps|]; [|done]. rewrite Hd. by apply Hr.
  - wp_step. split; [|done]. apply disk_hard_same. unfold hard_same. by rewrite (q_files _ _ Hq).
Qed.

(** ** The contract for the whole state *)
Definition disk_sto_ok (d : DiskStorage) : Prop := ∃ es, disk_ok es d.

(** The view, read off the invariant. *)
Lemma view_ok es d :
  disk_ok es d → ∃ hv data,
    hard_file (d_files d) = inl hv ∧
    snap_file (d_files d) = inl (d_lastIncludedIndex d, d_lastIncludedTerm d, data) ∧
    disk_view d = MkPersistent hv.1 hv.2
      (boundary (d_lastIncludedIndex d) (d_lastIncludedTerm d) :: es) data.
Proof.
  intros Hok. destruct (dk_hard _ _ Hok) as [hv Hh]. destruct (dk_snap _ _ Hok) as [data Hs].
  exists hv, data. split; [done|]. split; [done|]. by apply disk_ok_view.
Qed.

Lemma view_next es d :
  disk_ok es d → next_index (Log (disk_view d)) = (d_lastIncludedIndex d + 1 + N.of_nat (length es))%N ∧
  first_index (Log (disk_view d)) = d_lastIncludedIndex d.
Proof.
  intros Hok. destruct (view_ok _ _ Hok) as (hv & data & _ & _ & ->). split; [|done].
  unfold next_index. cbn. lia.
Qed.

(** The write-ahead log now holds [es']; everything else is as before. *)
Lemma disk_ok_wal es es' d d' :
  disk_ok es d → wal_now (set_offsets (d_offsets d') d) (records es') d' →
  d_offsets d' = offsets_from 0 es' → Forall disk_entry_fits es' →
  contiguous (d_lastIncludedIndex d + 1) es' →
  (d_lastIncludedIndex d + 1 + N.of_nat (length es') ≤ two63)%N →
  disk_ok es' d' ∧ disk_view d' = MkPersistent (CurrentTerm (disk_view d)) (VotedFor (disk_view d))
    (boundary (d_lastIncludedIndex d) (d_lastIncludedTerm d) :: es') (SnapshotData (disk_view d)).
Proof.
  intros Hok [] Ho Hf Hc Hb. cbn in *. destruct (view_ok _ _ Hok) as (hv & data & Hh & Hs & ->). cbn.
  assert (hard_file (d_files d') = inl hv) as Hh'.
  { unfold hard_file in *. by rewrite wn_files, lookup_insert_ne by apply path_names. }
  assert (snap_file (d_files d') = inl (d_lastIncludedIndex d', d_lastIncludedTerm d', data)) as Hs'.
  { unfold snap_file in *. rewrite wn_lii, wn_lit. by rewrite wn_files, lookup_insert_ne by apply path_names. }
  assert (disk_ok es' d') as Hok'.
  { split; [done| |by exists hv|by exists data| |done|done|by rewrite wn_lii|by rewrite wn_lii].
    - rewrite wn_read. apply Hok.
    - rewrite wn_files. by rewrite lookup_insert_eq. }
  split; [done|]. rewrite (disk_ok_view _ _ _ _ Hok' Hh' Hs'). by rewrite wn_lii, wn_lit.
Qed.

Lemma ds_append_ok es0 d es :
  disk_ok es0 d → contiguous (next_index (Log (disk_view d))) es →
  (next_index (Log (disk_view d)) + N.of_nat (length es) ≤ two63)%N → Forall disk_entry_fits es →
  wp False (AppendLog es) (λ e d', e = None →
    disk_sto_ok d' ∧ disk_view d' = ps_append es (disk_view d)) d.
Proof.
  intros Hok Hc Hb Hf. destruct (view_next _ _ Hok) as [Hn _]. rewrite Hn in Hc, Hb.
  cbn [AppendLog DiskStorage_Storage]. unfold ds_AppendLog. wp_step.
  eapply wp_mono; [|apply append_records_spec; apply Hok]. cbn beta. intros e d1 Ha.
  destruct e as [err|]; [by wp_step|]. wp_step. apply wp_Sync; [apply Ha|]. intros r d2 Hq. wp_step.
  destruct r as [[]|err]; [|done]. intros _.
  destruct Ha as [(j & torn & Hfiles & _ & Hnone) Hh Hrd Ho Hi Ht].
  destruct (Hnone eq_refl) as [-> Htk]. rewrite Htk, app_nil_r in Hfiles. specialize (Ho eq_refl).
  destruct (disk_ok_wal es0 (es0 ++ es) d d2 Hok) as [Hok2 Hv2].
  - destruct Hq. split; cbn; congruence.
  - destruct Hq. congruence.
  - apply Forall_app. split; [apply Hok|done].
  - apply contiguous_app. split; [apply Hok|done].
  - rewrite length_app. lia.
  - split; [by eexists|]. rewrite Hv2. destruct (view_ok _ _ Hok) as (hv & data & _ & _ & ->). done.
Qed.

Lemma records_take es k : take (N.to_nat (records_len (take k es))) (records es) = records (take k es).
Proof.
  rewrite <- (take_drop k es) at 2. rewrite records_app. unfold records_len. rewrite Nat2N.id.
  by rewrite take_app_length.
Qed.

Lemma records_drop es k : drop (N.to_nat (records_len (take k es))) (records es) = records (drop k es).
Proof.
  rewrite <- (take_drop k es) at 2. rewrite records_app. unfold records_len. rewrite Nat2N.id.
  by rewrite drop_app_length.
Qed.

Lemma ds_truncate_ok es d from :
  disk_ok es d → (d_lastIncludedIndex d < from)%N →
  (from < d_lastIncludedIndex d + 1 + N.of_nat (length es))%N →
  wp False (TruncateLog from) (λ e d', e = None →
    disk_sto_ok d' ∧ disk_view d' = ps_truncate from (disk_view d)) d.
Proof.
  intros Hok Hlo Hhi. pose proof (dk_bound _ _ Hok). pose proof two63_lt_two64.
  cbn [TruncateLog DiskStorage_Storage]. unfold ds_TruncateLog. do 2 wp_step.
  destruct (N.leb_spec from (d_lastIncludedIndex d)); [lia|].
  set (pos := u64_sub (u64_sub from (d_lastIncludedIndex d)) 1).
  assert (pos = from - d_lastIncludedIndex d - 1)%N as Hpos.
  { unfold pos. rewrite (u64_sub_small from) by lia. by rewrite u64_sub_small by lia. }
  cbv zeta. rewrite int_of_u64_small by lia. rewrite (dk_offsets _ _ Hok) at 1.
  rewrite offsets_from_length. destruct (Z.leb_spec (Z.of_nat (length es)) (Z.of_N pos)); [lia|].
  set (k := N.to_nat pos). assert (k < length es) as Hk by (unfold k; lia).
  wp_step. eapply wp_lift_Val.
  { apply slice_get_Some. rewrite (dk_offsets _ _ Hok). by apply offsets_from_lookup. }
  wp_step. apply (wp_Truncate _ _ _ _ (records es)); [apply Hok|apply Hok|intros; by wp_step|].
  intros d1 Hn1. fold k in Hn1 |- *. rewrite records_take in Hn1.
  wp_step. apply wp_Seek; [apply Hn1|]. intros r2 d2 Hq2 _. destruct r2; [|by wp_step].
  wp_step. apply wp_Sync; [rewrite (q_handle _ _ Hq2); apply Hn1|]. intros r3 d3 Hq3.
  destruct r3; [|by wp_step]. wp_step. eapply wp_lift_Val.
  { apply slice_to_le. rewrite (dk_offsets _ _ Hok), offsets_from_length. lia. }
  fold k. rewrite (dk_offsets _ _ Hok), offsets_from_take. repeat wp_step. intros _.
  destruct (disk_ok_wal es (take k es) d (set_offsets (offsets_from 0 (take k es)) d3) Hok) as [Hok' Hv'].
  - destruct Hn1, Hq2, Hq3. split; cbn; congruence.
  - done.
  - apply Forall_take, Hok.
  - apply contiguous_take, Hok.
  - rewrite length_take. lia.
  - split; [by eexists|]. rewrite Hv'. destruct (view_ok _ _ Hok) as (hv & data & _ & _ & ->).
    unfold ps_truncate. cbn [CurrentTerm VotedFor SnapshotData Log first_index boundary Index].
    replace (N.to_nat (from - d_lastIncludedIndex d)) with (S k) by (unfold k; lia). done.
Qed.

(** *** Snapshots *)
Lemma cut_point_spec es d rel :
  d_handle d = Linked → d_files d !! walFileName = Some (records es) →
  d_offsets d = offsets_from 0 es → (0 ≤ rel)%Z →
  wp False (cut_point rel) (λ r d', quiet d d' ∧ ∀ c, r = inl c →
    c = (records_len (take (Z.to_nat rel) es), offsets_from 0 (drop (Z.to_nat rel) es))) d.
Proof.
  intros Hl Hw Ho Hrel. unfold cut_point. do 2 wp_step. rewrite Ho.
  rewrite offsets_from_length. destruct (Z.ltb_spec rel (Z.of_nat (length es))) as [Hlt|Hge].
  - destruct (Z.ltb_spec rel 0); [lia|]. set (k := Z.to_nat rel).
    assert (∀ (p q : N) l, (λ o, o - p)%N <$> offsets_from (p + q) l = offsets_from q l) as Hshift.
    { intros p q l. revert q. induction l as [|x l IH]; intros q; [done|]. cbn. f_equal; [lia|].
      rewrite <- N.add_assoc. apply IH. }
    assert (drop k (offsets_from 0 es) = offsets_from (records_len (take k es)) (drop k es)) as ->.
    { rewrite <- (take_drop k es) at 1. rewrite offsets_from_app, N.add_0_l.
      rewrite drop_app_ge by (rewrite offsets_from_length, length_take; lia).
      rewrite offsets_from_length, length_take. by replace (k - k `min` length es) with 0 by lia. }
    destruct (drop k es) as [|x l] eqn:E.
    { apply (f_equal length) in E. rewrite length_drop in E. cbn in E. lia. }
    cbn [offsets_from]. wp_step. split; [by split|]. intros c Hc. apply (inj inl) in Hc. subst c.
    pose proof (Hshift (records_len (take k es)) 0%N (x :: l)) as Hx. rewrite N.add_0_r in Hx.
    apply (f_equal (pair _)). exact Hx.
  - wp_step. apply wp_SeekEnd; [done|]. intros r d' Hq Hr. wp_step. split; [done|].
    destruct r as [x|]; [|done]. intros c [= <-]. destruct (Hr x eq_refl) as [-> _].
    rewrite take_ge, drop_ge by lia. cbn. f_equal.
    by rewrite (linked_content d (records es)).
Qed.

Lemma wp_rename_wal p (Q : option error → DiskStorage → Prop) d c :
  d_files d !! walTmp = Some c → d_handle d = Linked →
  (∀ err fs, Q (Some err) (set_faults fs d)) →
  (∀ fs o, Q None (set_files (<[walFileName := c]> (delete walTmp (d_files d)))
     (set_handle (Orphan o) (set_faults fs d)))) →
  wp p (rename walTmp walFileName) Q d.
Proof.
  intros Hc Hl He HQ. unfold rename. apply wp_sys_bind. intros [k|] fs; repeat wp_step; [apply He|].
  cbn. rewrite Hl, Hc. apply HQ.
Qed.

Lemma reopen_spec lii lit offs d :
  wp False (reopen_wal lii lit offs) (λ e d', d_files d' = d_files d ∧ d_readErr d' = d_readErr d ∧
    (e = None → d_handle d' = Linked ∧ d_offsets d' = offs ∧
       d_lastIncludedIndex d' = lii ∧ d_lastIncludedTerm d' = lit)) d.
Proof.
  unfold reopen_wal. wp_step. apply wp_sys_unit. intros e1 d1 [] _. do 2 wp_step.
  destruct e1; [wp_step; cbn; split; [congruence|]; split; [congruence|done]|].
  wp_step. apply wp_sys_unit. intros e2 d2 [] _. cbn in *.
  destruct e2; [wp_step; cbn; split; [congruence|]; split; [congruence|done]|].
  do 3 wp_step. apply wp_SeekEnd; [done|]. intros r d3 [] _. cbn in *. destruct r; repeat wp_step; cbn;
    (split; [congruence|]; split; [congruence|]); [|done]. intros _. split; [congruence|done].
Qed.

(** What compaction leaves: only the write-ahead log and its temporary file
    are touched, the log is the old one or exactly the records after the
    boundary, and success means the latter, with the handle on it. *)
Record compacted (es es' : list LogEntry) (lii lit : N) (d : DiskStorage) (e : option error)
    (d' : DiskStorage) : Prop := {
  cp_others p : p ≠ walFileName → p ≠ walTmp → d_files d' !! p = d_files d !! p;
  cp_wal : d_files d' !! walFileName = Some (records es) ∨ d_files d' !! walFileName = Some (records es');
  cp_done : e = None →
    d_handle d' = Linked ∧ d_files d' !! walFileName = Some (records es') ∧
    d_readErr d' = d_readErr d ∧ d_offsets d' = offsets_from 0 es' ∧
    d_lastIncludedIndex d' = lii ∧ d_lastIncludedTerm d' = lit;
}.

Lemma compacted_stop es es' lii lit d (err : error) d' :
  d_files d !! walFileName = Some (records es) → only_files [walTmp] d d' →
  compacted es es' lii lit d (Some err) d'.
Proof.
  intros Hw []. split; [| |done].
  - intros p _ Hp. apply of_files. by apply not_elem_of_cons; split; [|apply not_elem_of_nil].
  - left. rewrite of_files; [done|]. by apply (bool_decide_unpack (_ ∉ _)).
Qed.

Lemma compact_spec es d lii lit :
  d_handle d = Linked → d_files d !! walFileName = Some (records es) →
  d_offsets d = offsets_from 0 es → (d_lastIncludedIndex d ≤ lii < two63)%N →
  wp False (compactWALLocked lii lit)
    (compacted es (drop (N.to_nat (lii - d_lastIncludedIndex d)) es) lii lit d) d.
Proof.
  intros Hl Hw Ho Hlii. pose proof two63_lt_two64. unfold compactWALLocked. do 2 wp_step.
  rewrite u64_sub_small, int_of_u64_small by lia. wp_step.
  eapply wp_mono; [|apply (cut_point_spec es d); [done..|lia]].
  cbn beta. intros c d1 [Hq1 Hc]. pose proof (quiet_only_files [walTmp] _ _ Hq1) as F1.
  destruct c as [c|err]; [|wp_step; by apply compacted_stop]. rewrite (Hc c eq_refl).
  set (k := Z.to_nat (Z.of_N (lii - d_lastIncludedIndex d))).
  assert (N.to_nat (lii - d_lastIncludedIndex d) = k) as -> by (unfold k; lia).
  wp_step. apply wp_create. intros e2 d2 Ho2 Hf2 _. pose proof (only_files_trans _ _ _ _ F1 Ho2) as F2.
  destruct e2; [wp_step; by apply compacted_stop|]. specialize (Hf2 eq_refl).
  wp_step. apply wp_Seek; [by rewrite (of_handle _ _ _ F2)|].
  intros r3 d3 Hq3 Hr3. pose proof (only_files_trans _ _ _ _ F2 (quiet_only_files _ _ _ Hq3)) as F3.
  destruct r3 as [x|].
  2:{ apply wp_sys_bind; intros f fs; wp_step; apply compacted_stop; [done|].
      eapply only_files_trans; [done|by apply quiet_only_files]. }
  destruct (Hr3 x eq_refl) as [-> Hpos3].
  assert (d_handle d3 = Linked) as Hl3 by (by rewrite (of_handle _ _ _ F3)).
  assert (d_files d3 = <[walTmp := []]> (d_files d)) as Hf3 by (rewrite (q_files _ _ Hq3), Hf2, (q_files _ _ Hq1); done).
  wp_step. unfold copy_wal. do 2 wp_step. rewrite Hpos3.
  rewrite (linked_content d3 (records es)); [|done|by rewrite Hf3, lookup_insert_ne].
  rewrite records_drop.
  apply (wp_write_file _ _ _ _ _ []); [rewrite Hf3; by rewrite lookup_insert_eq|].
  intros e4 d4 k4 Ho4 Hf4 Hk4. pose proof (only_files_trans _ _ _ _ F3 Ho4) as F4. destruct e4.
  { apply wp_sys_bind; intros f fs; wp_step; apply compacted_stop; [done|].
    eapply only_files_trans; [done|by apply quiet_only_files]. }
  rewrite (Hk4 eq_refl) in Hf4. cbn [app] in Hf4.
  wp_step. apply wp_sys_unit. intros e5 d5 Hq5 _.
  pose proof (only_files_trans _ _ _ _ F4 (quiet_only_files _ _ _ Hq5)) as F5. destruct e5.
  { apply wp_sys_bind; intros f fs; wp_step; apply compacted_stop; [done|].
    eapply only_files_trans; [done|by apply quiet_only_files]. }
  wp_step. apply wp_sys_unit. intros e6 d6 Hq6 _.
  pose proof (only_files_trans _ _ _ _ F5 (quiet_only_files _ _ _ Hq6)) as F6.
  destruct e6; [wp_step; by apply compacted_stop|].
  assert (d_files d6 = <[walTmp := records (drop k es)]> (d_files d)) as Hf6.
  { rewrite (q_files _ _ Hq6), (q_files _ _ Hq5), Hf4, Hf3. by rewrite insert_insert_eq. }
  wp_step. apply (wp_rename_wal _ _ _ (records (drop k es)));
    [rewrite Hf6; by rewrite lookup_insert_eq|by rewrite (of_handle _ _ _ F6)| |].
  { intros err fs. wp_step. apply compacted_stop; [done|].
    eapply only_files_trans; [done|by apply quiet_only_files]. }
  intros fs o. eapply wp_mono; [|apply reopen_spec]. cbn beta. intros e7 d7 (Hf7 & Hr7 & Hok7).
  cbn in Hf7, Hr7. rewrite Hf6 in Hf7. rewrite (of_read _ _ _ F6) in Hr7.
  assert (d_files d7 !! walFileName = Some (records (drop k es))) as Hw7
    by (rewrite Hf7; by rewrite lookup_insert_eq).
  split; [|by right|].
  - intros p Hp1 Hp2. rewrite Hf7. by rewrite lookup_insert_ne, lookup_delete_ne, lookup_insert_ne.
  - intros He. by destruct (Hok7 He) as (? & ? & ? & ?).
Qed.

Lemma ds_snapshot_ok es d lii lit data :
  disk_ok es d → (d_lastIncludedIndex d < lii)%N → (lii < two63)%N → (lit < two64)%N →
  snapshot_fits_disk data →
  wp False (SaveSnapshot lii lit data) (λ e d', e = None →
    disk_sto_ok d' ∧ disk_view d' = ps_snapshot lii lit data (disk_view d)) d.
Proof.
  intros Hok Hlo Hlii Hlit Hfit. pose proof two63_lt_two64. pose proof (dk_bound _ _ Hok).
  cbn [SaveSnapshot DiskStorage_Storage]. unfold ds_SaveSnapshot, writeSnapshotFileLocked. wp_step.
  eapply wp_mono; [|apply write_atomically_spec; by vm_compute]. cbn beta. intros e1 d1 (Ho1 & Hs1 & _).
  destruct e1; [by wp_step|]. specialize (Hs1 eq_refl).
  eapply wp_mono; [|apply (compact_spec es)].
  2:{ rewrite (of_handle _ _ _ Ho1). apply Hok. }
  2:{ rewrite (of_files _ _ _ Ho1); [apply Hok|]. by apply (bool_decide_unpack (_ ∉ _)). }
  2:{ rewrite (of_offsets _ _ _ Ho1). apply Hok. }
  2:{ rewrite (of_lii _ _ _ Ho1). lia. }
  intros e2 d2 Hd2 He. rewrite (of_lii _ _ _ Ho1) in Hd2.
  set (k := N.to_nat (lii - d_lastIncludedIndex d)) in *. pose proof (cp_others _ _ _ _ _ _ _ Hd2) as Hfiles.
  destruct (cp_done _ _ _ _ _ _ _ Hd2 He) as (Hl & Hw & Hr & Hoffs & Hi & Ht).
  destruct (view_ok _ _ Hok) as (hv & data0 & Hh & _ & Hv).
  assert (hard_file (d_files d2) = inl hv) as Hh2.
  { unfold hard_file in *. rewrite Hfiles, (of_files _ _ _ Ho1); try done.
    by apply (bool_decide_unpack (_ ∉ _)). }
  assert (snap_file (d_files d2) = inl (d_lastIncludedIndex d2, d_lastIncludedTerm d2, data)) as Hs2.
  { unfold snap_file. rewrite Hfiles, Hs1 by done. rewrite Hi, Ht.
    apply decode_encodeSnapshot; [lia|done|done]. }
  assert (disk_ok (drop k es) d2) as Hok2.
  { split; [done| |by exists hv|by exists data|done|done| | |].
    - rewrite Hr, (of_read _ _ _ Ho1). apply Hok.
    - apply Forall_drop, Hok.
    - rewrite Hi. pose proof (contiguous_drop _ k _ (dk_contiguous _ _ Hok)) as Hc.
      destruct (decide (k ≤ length es)); [|by rewrite drop_ge by lia].
      by replace (lii + 1)%N with (d_lastIncludedIndex d + 1 + N.of_nat k)%N by (unfold k; lia).
    - rewrite Hi, length_drop. unfold k. lia. }
  split; [by eexists|]. rewrite (disk_ok_view _ _ _ _ Hok2 Hh2 Hs2), Hv, Hi, Ht.
  unfold ps_snapshot. cbn [CurrentTerm VotedFor Log first_index boundary Index]. fold k.
  by rewrite Nat.add_1_r.
Qed.

(** *** Loading *)
Lemma loadSnapshot_spec d :
  wp False loadSnapshot (λ r d', quiet d d' ∧ ∀ s, r = inl s → snap_file (d_files d) = inl s) d.
Proof.
  unfold loadSnapshot, read_file. wp_step. apply wp_sys_bind. intros f fs. do 4 wp_step.
  split; [by split|]. intros s. cbn. destruct f; [done|]. unfold snap_file.
  by destruct (d_files d !! snapshotFileName).
Qed.

(** The scan keeps the valid records and truncates the rest. *)
Lemma scanAndRepair_spec es torn base d :
  d_handle d = Linked → d_readErr d = None → d_files d !! walFileName = Some (records es ++ torn) →
  Forall disk_entry_fits es → contiguous (base + 1) es →
  (base + 1 + N.of_nat (length es) ≤ two63)%N →
  (torn = [] ∨ ∃ e k, disk_entry_fits e ∧ k < length (record e) ∧ torn = take k (record e)) →
  wp False (scanAndRepairWAL base) (λ r d', ∀ x, r = inl x →
    x = (es, offsets_from 0 es) ∧ wal_now d (records es) d') d.
Proof.
  intros Hl Hr Hw Hf Hc Hb Ht. unfold scanAndRepairWAL. wp_step.
  apply wp_Seek; [done|]. intros r1 d1 Hq1 _. destruct r1; [|by wp_step].
  wp_step. unfold read_wal. do 5 wp_step. rewrite (q_read _ _ Hq1), Hr.
  assert (wal_content d1 = records es ++ torn) as Hcont.
  { apply linked_content; [by rewrite (q_handle _ _ Hq1)|by rewrite (q_files _ _ Hq1)]. }
  rewrite Hcont, (scan_file base es torn) by (done || lia).
  wp_step. apply (wp_Truncate _ _ _ _ (records es ++ torn)).
  { cbn. by rewrite (q_handle _ _ Hq1). }
  { cbn. by rewrite (q_files _ _ Hq1). }
  { intros. by wp_step. }
  intros d2 Hn2. unfold records_len in Hn2. rewrite Nat2N.id, take_app_length in Hn2.
  wp_step. apply wp_Seek; [apply Hn2|]. intros r3 d3 Hq3 _. destruct r3; [|by wp_step].
  wp_step. apply wp_Sync; [rewrite (q_handle _ _ Hq3); apply Hn2|]. intros r4 d4 Hq4.
  destruct r4; [|by wp_step]. wp_step. intros x [= <-]. split; [done|].
  destruct Hq1, Hn2, Hq3, Hq4. cbn in *. split; congruence.
Qed.

(** [Load] on files that hold a hard state, a snapshot and records up to a torn
    one. *)
Lemma ds_load_spec es torn lii lit data hv d :
  d_handle d = Linked → d_readErr d = None → d_files d !! walFileName = Some (records es ++ torn) →
  hard_file (d_files d) = inl hv → snap_file (d_files d) = inl (lii, lit, data) →
  Forall disk_entry_fits es → contiguous (lii + 1) es →
  (lii + 1 + N.of_nat (length es) ≤ two63)%N →
  (torn = [] ∨ ∃ e k, disk_entry_fits e ∧ k < length (record e) ∧ torn = take k (record e)) →
  wp False Load (λ r d', ∀ ps, r = inl ps →
    ps = MkPersistent hv.1 hv.2 (boundary lii lit :: es) data ∧ disk_ok es d' ∧ disk_view d' = ps) d.
Proof.
  intros Hl Hr Hw Hh Hs Hf Hc Hb Ht. cbn [Load DiskStorage_Storage]. unfold ds_Load. wp_step.
  eapply wp_mono; [|apply loadHardState_spec]. cbn beta. intros h d1 [Hq1 Hh1].
  destruct h as [[t v]|err]; [|by wp_step]. rewrite (Hh1 _ eq_refl) in Hh. injection Hh as <-.
  unfold load_rest. wp_step. eapply wp_mono; [|apply loadSnapshot_spec].
  cbn beta. intros s d2 [Hq2 Hs2]. destruct s as [[[lii' lit'] data']|err]; [|by wp_step].
  specialize (Hs2 _ eq_refl). rewrite (q_files _ _ Hq1), Hs in Hs2. injection Hs2 as <- <- <-.
  pose proof (quiet_trans _ _ _ Hq1 Hq2) as Hq. do 3 wp_step.
  eapply wp_mono; [|apply (scanAndRepair_spec es torn); cbn; try done].
  - cbn beta. intros w d3 Hw3. destruct w as [w|err]; [|by wp_step].
    destruct (Hw3 _ eq_refl) as [-> Hn3]. repeat wp_step. intros ps [= <-]. split; [done|].
    assert (d_files d3 = <[walFileName := records es]> (d_files d)) as Hf3.
    { rewrite (wn_files _ _ _ Hn3). cbn. by rewrite (q_files _ _ Hq). }
    pose proof (wn_lii _ _ _ Hn3) as Hi3. pose proof (wn_lit _ _ _ Hn3) as Ht3. cbn in Hi3, Ht3.
    assert (hard_file (d_files d3) = inl (t, v)) as Hh3.
    { unfold hard_file in *. rewrite Hf3, lookup_insert_ne by done. by apply (Hh1 (t, v)). }
    assert (snap_file (d_files d3) = inl (lii, lit, data)) as Hs3.
    { unfold snap_file in *. by rewrite Hf3, lookup_insert_ne. }
    assert (disk_ok es (set_offsets (offsets_from 0 es) d3)) as Hok.
    { split; cbn; rewrite ?Hi3, ?Ht3; try done.
      - apply Hn3.
      - rewrite (wn_read _ _ _ Hn3). cbn. by rewrite (q_read _ _ Hq).
      - by exists (t, v).
      - by exists data.
      - rewrite Hf3. by rewrite lookup_insert_eq. }
    split; [done|]. rewrite (disk_ok_view _ _ (t, v) data Hok Hh3); cbn; rewrite ?Hi3, ?Ht3; done.
  - by rewrite (q_handle _ _ Hq).
  - by rewrite (q_read _ _ Hq).
  - by rewrite (q_files _ _ Hq).
Qed.


(** A hard state written through leaves the log and the snapshot alone. *)
Lemma ds_hard_ok es d t v :
  disk_ok es d → (t < two64)%N → vote_fits_disk v →
  wp False (SaveHardState t v) (λ e d', e = None →
    disk_sto_ok d' ∧ disk_view d' = ps_save_hard t v (disk_view d)) d.
Proof.
  intros Hok Ht Hv. eapply wp_mono; [|apply write_atomically_spec; done].
  cbn beta. intros e d' (Ho & Hnone & _) He. specialize (Hnone He).
  assert (∀ p, p ∉ [hardStateTmp; hardStateFileName] → d_files d' !! p = d_files d !! p) as Hp
    by (intros p Hp; by apply (of_files _ _ _ Ho)).
  destruct (view_ok _ _ Hok) as (hv & data & _ & Hs & ->).
  assert (hard_file (d_files d') = inl (t, v)) as Hh'.
  { unfold hard_file. rewrite Hnone. by apply decode_encodeHardState. }
  assert (snap_file (d_files d') = inl (d_lastIncludedIndex d', d_lastIncludedTerm d', data)) as Hs'.
  { unfold snap_file in *. rewrite (of_lii _ _ _ Ho), (of_lit _ _ _ Ho).
    by rewrite Hp by (by apply (bool_decide_unpack (_ ∉ _))). }
  assert (disk_ok es d') as Hok'.
  { split; [| |by exists (t, v)|by exists data| | |apply Hok| |].
    - rewrite (of_handle _ _ _ Ho). apply Hok.
    - rewrite (of_read _ _ _ Ho). apply Hok.
    - rewrite Hp by (by apply (bool_decide_unpack (_ ∉ _))). apply Hok.
    - rewrite (of_offsets _ _ _ Ho). apply Hok.
    - rewrite (of_lii _ _ _ Ho). apply Hok.
    - rewrite (of_lii _ _ _ Ho). apply Hok. }
  split; [by eexists|]. rewrite (disk_ok_view _ _ _ _ Hok' Hh' Hs').
  by rewrite (of_lii _ _ _ Ho), (of_lit _ _ _ Ho).
Qed.
