(* ===== verification/DiskCrash.v ===== *)
(** * What a restarted process finds on disk

    [crash] is the end of the process: the files stay as they are, the handle
    and the in-memory index are gone.  [recover] is the start of the next one
    ([NewDiskStorage], then [Load]).  Each operation of [DiskStorage] is
    interrupted at an arbitrary system call by the outcome list of its state;
    the lemmas say which files it leaves, and [recover_files] what [recover]
    makes of them. *)
From S2P Require Import Prelude RaftTypes Codec DiskStorage DiskRecovery DiskContract.

(** A new process over the same files; its system calls succeed. *)
Definition crash (d : DiskStorage) : DiskStorage := MkDisk (d_files d) Closed 0 [] None [] 0 0.

(** What cmd/distkv-server and [raft.NewNode] do with a data directory. *)
Definition recover : GoM DiskStorage (PersistentState + error) :=
  e ← NewDiskStorage;
  if e is Some err then mret (inr err) else ds_Load.

(** ** System calls that succeed *)
Record calm (d : DiskStorage) : Prop := {
  c_faults : d_faults d = [];
  c_read : d_readErr d = None;
  c_handle : d_handle d = Linked;
}.

Lemma wp_sys_calm p (Q : option nat → DiskStorage → Prop) d :
  d_faults d = [] → Q None d → wp p sys Q d.
Proof. intros Hd HQ. unfold sys. do 2 wp_step. rewrite Hd. by wp_step. Qed.

Lemma wp_on_wal_calm {A} p (k : GoM DiskStorage (A + error)) Q d :
  calm d → wp p k Q d → wp p (on_wal k) Q d.
Proof.
  intros [] HQ. unfold on_wal. do 2 wp_step. rewrite c_handle0. wp_step. by apply wp_sys_calm.
Qed.

Lemma wp_read_file_calm p path (Q : option bytes + error → DiskStorage → Prop) d :
  calm d → Q (inl (d_files d !! path)) d → wp p (read_file path) Q d.
Proof. intros [] HQ. unfold read_file. wp_step. apply wp_sys_calm; [done|]. by repeat wp_step. Qed.

Ltac calm_step :=
  cbn [fault_error];
  lazymatch goal with
  | |- wp _ sys _ _ => apply wp_sys_calm; [done|]
  | |- wp _ (read_file _) _ _ => apply wp_read_file_calm; [done|]
  | |- wp _ (on_wal _) _ _ => apply wp_on_wal_calm; [done|]
  | |- wp _ (mbind _ _) _ _ => apply wp_bind
  | |- wp _ (mret _) _ _ => apply wp_ret
  | |- wp _ get _ _ => apply wp_get
  | |- wp _ (modify _) _ _ => apply wp_modify
  | |- wp _ _ _ _ => progress cbn beta iota zeta
  end.

(** ** Recovery of arbitrary files *)
Lemma load_files d hv lii lit data es offs end_ :
  calm d → hard_file (d_files d) = inl hv → snap_file (d_files d) = inl (lii, lit, data) →
  let c := default [] (d_files d !! walFileName) in
  scan (S (length c)) c 0 (u64_add lii 1) = (es, offs, end_) →
  wp False ds_Load (λ r d', r = inl (MkPersistent hv.1 hv.2 (boundary lii lit :: es) data) ∧
    d' = MkDisk (<[walFileName := take (N.to_nat end_) c]> (d_files d)) Linked end_ [] None offs lii lit) d.
Proof.
  intros Hd Hh Hs c Hscan. destruct d as [fs h pos faults re offs0 i t]. destruct Hd as [Hf Hr Hl].
  cbn in Hf, Hr, Hl, Hh, Hs, c |- *. subst faults re h. unfold ds_Load, loadHardState.
  repeat calm_step. cbn [d_files]. fold (hard_file fs). rewrite Hh. destruct hv as [tm v].
  unfold load_rest, loadSnapshot. repeat calm_step. cbn [d_files]. fold (snap_file fs). rewrite Hs.
  unfold scanAndRepairWAL, wal_Seek, read_wal. repeat calm_step.
  unfold wal_content. cbn -[scan]. fold c. change (id c) with c. rewrite Hscan.
  unfold wal_Truncate, wal_Sync. repeat calm_step. split; [done|]. by unfold set_content, wal_content.
Qed.

Lemma recover_files d hv lii lit data es offs end_ :
  hard_file (d_files d) = inl hv → snap_file (d_files d) = inl (lii, lit, data) →
  let c := default [] (d_files d !! walFileName) in
  scan (S (length c)) c 0 (u64_add lii 1) = (es, offs, end_) →
  recover (crash d) = Val (inl (disk_view d),
    MkDisk (<[walFileName := take (N.to_nat end_) c]> (d_files d)) Linked end_ [] None offs lii lit).
Proof.
  intros Hh Hs c Hscan.
  assert (disk_view d = MkPersistent hv.1 hv.2 (boundary lii lit :: es) data) as ->.
  { unfold disk_view. rewrite Hh, Hs. destruct hv as [t v]. cbn. unfold wal_entries. fold c.
    by rewrite Hscan. }
  enough (wp False recover (λ r d', r = inl (MkPersistent hv.1 hv.2 (boundary lii lit :: es) data) ∧
    d' = MkDisk (<[walFileName := take (N.to_nat end_) c]> (d_files d)) Linked end_ [] None offs lii lit)
    (crash d)) as H.
  { destruct (wp_total _ _ _ H) as (r & d' & Hr & -> & ->). exact Hr. }
  unfold recover, NewDiskStorage, sys_unit. repeat calm_step.
  eapply wp_mono; [|eapply (load_files _ hv lii lit data); [done| | |]].
  - cbn beta. intros r d' [-> ->]. split; [done|]. cbn [d_files crash]. fold c. by rewrite lookup_insert_eq, insert_insert_eq.
  - unfold hard_file. cbn. by rewrite lookup_insert_ne.
  - unfold snap_file. cbn. by rewrite lookup_insert_ne.
  - cbn -[scan]. rewrite lookup_insert_eq. exact Hscan.
Qed.

(** The log holds whole records, then possibly part of one. *)
Definition torn_tail (torn : bytes) : Prop :=
  torn = [] ∨ ∃ e k, disk_entry_fits e ∧ k < length (record e) ∧ torn = take k (record e).

Record left_on_disk (hv : N * NodeID) (lii lit : N) (data : bytes) (es : list LogEntry)
    (d : DiskStorage) : Prop := {
  lo_hard : hard_file (d_files d) = inl hv;
  lo_snap : snap_file (d_files d) = inl (lii, lit, data);
  lo_wal : ∃ torn, d_files d !! walFileName = Some (records es ++ torn) ∧ torn_tail torn;
  lo_fits : Forall disk_entry_fits es;
  lo_contiguous : contiguous (lii + 1) es;
  lo_bound : (lii + 1 + N.of_nat (length es) ≤ two63)%N;
}.

Lemma left_view hv lii lit data es d :
  left_on_disk hv lii lit data es d → disk_view d = MkPersistent hv.1 hv.2 (boundary lii lit :: es) data.
Proof.
  intros [Hh Hs (torn & Hw & Ht) Hf Hc Hb]. unfold disk_view. rewrite Hh, Hs, Hw. destruct hv as [t v].
  unfold default, wal_entries, id. rewrite scan_file by (done || lia). done.
Qed.

Lemma recover_left_view hv lii lit data es d :
  left_on_disk hv lii lit data es d →
  let ps := MkPersistent hv.1 hv.2 (boundary lii lit :: es) data in
  ∃ d', recover (crash d) = Val (inl ps, d') ∧ disk_ok es d' ∧ disk_view d' = ps.
Proof.
  intros Hl ps. pose proof (left_view _ _ _ _ _ _ Hl) as Hv. destruct Hl as [Hh Hs (torn & Hw & Ht) Hf Hc Hb].
  assert (scan (S (length (records es ++ torn))) (records es ++ torn) 0 (u64_add lii 1) =
    (es, offsets_from 0 es, records_len es)) as Hscan by (apply scan_file; auto; lia).
  assert (default [] (d_files d !! walFileName) = records es ++ torn) as Hd by (by rewrite Hw).
  pose proof (recover_files d hv lii lit data es (offsets_from 0 es) (records_len es) Hh Hs) as Hrec.
  cbv zeta in Hrec. rewrite Hd in Hrec. specialize (Hrec Hscan). rewrite Hv in Hrec. fold ps in Hrec.
  replace (take (N.to_nat (records_len es)) (records es ++ torn)) with (records es) in Hrec
    by (unfold records_len; by rewrite Nat2N.id, take_app_length).
  match type of Hrec with _ = Val (_, ?x) => set (d' := x) in * end.
  assert (hard_file (d_files d') = inl hv) as Hh' by (unfold hard_file; cbn; by rewrite lookup_insert_ne).
  assert (snap_file (d_files d') = inl (lii, lit, data)) as Hs' by (unfold snap_file; cbn; by rewrite lookup_insert_ne).
  assert (disk_ok es d') as Hok.
  { split; try done; [by exists hv|by exists data|]. cbn. apply lookup_insert_eq. }
  exists d'. split; [exact Hrec|]. split; [done|]. exact (disk_ok_view es d' hv data Hok Hh' Hs').
Qed.

Lemma recover_left hv lii lit data es d :
  left_on_disk hv lii lit data es d →
  ∃ d', recover (crash d) = Val (inl (MkPersistent hv.1 hv.2 (boundary lii lit :: es) data), d') ∧
    disk_ok es d'.
Proof. intros H. destruct (recover_left_view _ _ _ _ _ _ H) as (d' & ? & ? & _). by exists d'. Qed.

(** An open storage, seen as what it leaves. *)
Lemma disk_ok_left es d :
  disk_ok es d → ∃ hv data,
    left_on_disk hv (d_lastIncludedIndex d) (d_lastIncludedTerm d) data es d ∧
    disk_view d = MkPersistent hv.1 hv.2
      (boundary (d_lastIncludedIndex d) (d_lastIncludedTerm d) :: es) data.
Proof.
  intros Hok. destruct (view_ok _ _ Hok) as (hv & data & Hh & Hs & Hv). exists hv, data.
  split; [|done]. split; [done|done| |apply Hok..].
  exists []. rewrite app_nil_r. split; [apply Hok|by left].
Qed.

Lemma ok_left es d :
  disk_ok es d → left_on_disk (CurrentTerm (disk_view d), VotedFor (disk_view d))
    (d_lastIncludedIndex d) (d_lastIncludedTerm d) (SnapshotData (disk_view d)) es d ∧
  disk_view d = MkPersistent (CurrentTerm (disk_view d)) (VotedFor (disk_view d))
    (boundary (d_lastIncludedIndex d) (d_lastIncludedTerm d) :: es) (SnapshotData (disk_view d)).
Proof. intros Hok. destruct (disk_ok_left _ _ Hok) as ([t v] & data & Hl & ->). by split. Qed.

(** Another state with the same files but for temporary ones. *)
Lemma left_same hv lii lit data es d d' :
  left_on_disk hv lii lit data es d → hard_file (d_files d') = hard_file (d_files d) →
  snap_file (d_files d') = snap_file (d_files d) → d_files d' !! walFileName = d_files d !! walFileName →
  left_on_disk hv lii lit data es d'.
Proof. intros [] Hh Hs Hw. split; [by rewrite Hh|by rewrite Hs|by rewrite Hw|done..]. Qed.

(** A snapshot and the entries after it. *)
Lemma compacted_left es d d' lii lit data :
  disk_ok es d → (d_lastIncludedIndex d < lii)%N → (lii < two63)%N →
  let es' := drop (N.to_nat (lii - d_lastIncludedIndex d)) es in
  hard_file (d_files d') = hard_file (d_files d) → snap_file (d_files d') = inl (lii, lit, data) →
  d_files d' !! walFileName = Some (records es') →
  let ps := ps_snapshot lii lit data (disk_view d) in
  left_on_disk (CurrentTerm ps, VotedFor ps) lii lit data es' d' ∧
  ps = MkPersistent (CurrentTerm ps) (VotedFor ps) (boundary lii lit :: es') data.
Proof.
  intros Hok Hlo Hlii es' Hh Hs Hw ps. set (k := N.to_nat (lii - d_lastIncludedIndex d)) in *.
  destruct (ok_left _ _ Hok) as [Hl Hv]. pose proof (dk_bound _ _ Hok). split.
  - split; [by rewrite Hh; apply Hl|done|exists []|by apply Forall_drop, Hok| |].
    + rewrite app_nil_r. split; [done|by left].
    + pose proof (contiguous_drop _ k _ (dk_contiguous _ _ Hok)) as Hc. unfold es'.
      destruct (decide (k ≤ length es)); [|by rewrite drop_ge by lia].
      by replace (lii + 1)%N with (d_lastIncludedIndex d + 1 + N.of_nat k)%N by (unfold k; lia).
    + unfold es'. rewrite length_drop. unfold k. lia.
  - unfold ps, ps_snapshot. rewrite Hv. cbn [CurrentTerm VotedFor Log first_index boundary Index].
    fold k. by rewrite Nat.add_1_r.
Qed.

(** Files other than the write-ahead log decide hard state and snapshot. *)
Lemma left_wal hv lii lit data es d es' torn d' :
  left_on_disk hv lii lit data es d →
  d_files d' = <[walFileName := records es' ++ torn]> (d_files d) → torn_tail torn →
  Forall disk_entry_fits es' → contiguous (lii + 1) es' →
  (lii + 1 + N.of_nat (length es') ≤ two63)%N → left_on_disk hv lii lit data es' d'.
Proof.
  intros [] Hf Ht ???. split; try done.
  - unfold hard_file. by rewrite Hf, lookup_insert_ne.
  - unfold snap_file. by rewrite Hf, lookup_insert_ne.
  - exists torn. by rewrite Hf, lookup_insert_eq.
Qed.

(** ** Interrupted operations *)
Lemma append_left es0 d es :
  disk_ok es0 d → contiguous (next_index (Log (disk_view d))) es →
  (next_index (Log (disk_view d)) + N.of_nat (length es) ≤ two63)%N → Forall disk_entry_fits es →
  wp False (ds_AppendLog es) (λ e d', ∃ j torn,
    d_files d' = <[walFileName := records (es0 ++ take j es) ++ torn]> (d_files d) ∧
    torn_tail torn ∧ (e = None → take j es = es)) d.
Proof.
  intros Hok Hc Hb Hf. unfold ds_AppendLog. wp_step.
  eapply wp_mono; [|apply append_records_spec; apply Hok]. cbn beta. intros e d1 Ha.
  destruct (ap_files _ _ _ _ _ Ha) as (j & torn & Hfiles & Ht & Hnone).
  assert (torn_tail torn) as Htt.
  { destruct Ht as [->|(x & k & Hx & Hk & ->)]; [by left|right]. exists x, k.
    split; [by eapply (proj1 (Forall_forall _ _) Hf)|done]. }
  destruct e as [err|].
  - wp_step. by exists j, torn.
  - wp_step. apply wp_Sync; [apply Ha|]. intros r d2 Hq. wp_step. exists j, torn.
    rewrite (q_files _ _ Hq). split; [done|]. split; [done|]. intros _. by apply Hnone.
Qed.

Lemma truncate_left es d from :
  disk_ok es d → (d_lastIncludedIndex d < from)%N →
  (from < d_lastIncludedIndex d + 1 + N.of_nat (length es))%N →
  wp False (ds_TruncateLog from) (λ e d', ∃ es',
    d_files d' = <[walFileName := records es']> (d_files d) ∧
    (es' = es ∨ es' = take (N.to_nat (from - d_lastIncludedIndex d - 1)) es)) d.
Proof.
  intros Hok Hlo Hhi. pose proof (dk_bound _ _ Hok). pose proof two63_lt_two64.
  unfold ds_TruncateLog. do 2 wp_step.
  destruct (N.leb_spec from (d_lastIncludedIndex d)); [lia|].
  rewrite (u64_sub_small from) by lia. rewrite u64_sub_small by lia. cbv zeta.
  set (pos := (from - d_lastIncludedIndex d - 1)%N).
  rewrite int_of_u64_small by lia. rewrite (dk_offsets _ _ Hok) at 1. rewrite offsets_from_length.
  destruct (Z.leb_spec (Z.of_nat (length es)) (Z.of_N pos)); [lia|].
  wp_step. eapply wp_lift_Val.
  { apply slice_get_Some. rewrite (dk_offsets _ _ Hok). apply offsets_from_lookup. lia. }
  wp_step. apply (wp_Truncate _ _ _ _ (records es)); [apply Hok|apply Hok| |].
  { intros err d1 Hq. wp_step. exists es. split; [|by left]. rewrite (q_files _ _ Hq).
    by rewrite insert_id by apply Hok. }
  intros d1 Hn1. rewrite records_take in Hn1. pose proof (wn_files _ _ _ Hn1) as Hf1.
  assert (∀ d', d_files d' = d_files d1 → ∃ es', d_files d' = <[walFileName:=records es']> (d_files d) ∧
    (es' = es ∨ es' = take (N.to_nat pos) es)) as Hend.
  { intros d' ->. exists (take (N.to_nat pos) es). split; [done|by right]. }
  wp_step. apply wp_Seek; [apply Hn1|]. intros r2 d2 Hq2 _. destruct r2; [|wp_step; by apply Hend, Hq2].
  wp_step. apply wp_Sync; [rewrite (q_handle _ _ Hq2); apply Hn1|]. intros r3 d3 Hq3.
  pose proof (quiet_trans _ _ _ Hq2 Hq3) as Hq. destruct r3; [|wp_step; by apply Hend, Hq].
  wp_step. eapply wp_lift_Val.
  { apply slice_to_le. rewrite (dk_offsets _ _ Hok).
    rewrite offsets_from_length. lia. }
  repeat wp_step. apply Hend. cbn. apply Hq.
Qed.

Lemma snapshot_left es d lii lit data :
  disk_ok es d → (d_lastIncludedIndex d < lii)%N → (lii < two63)%N → (lit < two64)%N →
  snapshot_fits_disk data →
  wp False (ds_SaveSnapshot lii lit data) (λ e d',
    let es' := drop (N.to_nat (lii - d_lastIncludedIndex d)) es in
    hard_file (d_files d') = hard_file (d_files d) ∧
    ((snap_file (d_files d') = snap_file (d_files d) ∧ e ≠ None ∧
        d_files d' !! walFileName = Some (records es)) ∨
     (snap_file (d_files d') = inl (lii, lit, data) ∧ e ≠ None ∧
        d_files d' !! walFileName = Some (records es)) ∨
     (snap_file (d_files d') = inl (lii, lit, data) ∧
        d_files d' !! walFileName = Some (records es')))) d.
Proof.
  intros Hok Hlo Hlii Hlit Hfit. pose proof two63_lt_two64.
  unfold ds_SaveSnapshot, writeSnapshotFileLocked. wp_step.
  eapply wp_mono; [|apply write_atomically_spec; by vm_compute]. cbn beta.
  intros e1 d1 (Ho1 & Hs1 & Hn1).
  assert (∀ p, p ∉ [snapshotTmp; snapshotFileName] → d_files d1 !! p = d_files d !! p) as Hp
    by (intros p Hp; by apply (of_files _ _ _ Ho1)).
  assert (d_files d1 !! walFileName = Some (records es)) as Hw1.
  { rewrite Hp; [apply Hok|]. by apply (bool_decide_unpack (_ ∉ _)). }
  assert (hard_file (d_files d1) = hard_file (d_files d)) as Hh1.
  { unfold hard_file. rewrite Hp; [done|]. by apply (bool_decide_unpack (_ ∉ _)). }
  destruct e1 as [err|].
  { wp_step. split; [done|]. left. split; [|done]. unfold snap_file. by rewrite Hn1. }
  specialize (Hs1 eq_refl). eapply wp_mono; [|apply (compact_spec es)].
  2:{ rewrite (of_handle _ _ _ Ho1). apply Hok. }
  2:{ done. }
  2:{ rewrite (of_offsets _ _ _ Ho1). apply Hok. }
  2:{ rewrite (of_lii _ _ _ Ho1). lia. }
  intros e2 d2 [Hc Hw Hd]. rewrite (of_lii _ _ _ Ho1) in *.
  assert (snap_file (d_files d2) = inl (lii, lit, data)) as Hs2.
  { unfold snap_file. rewrite Hc, Hs1 by done. apply decode_encodeSnapshot; [lia|done|done]. }
  split; [unfold hard_file in *; by rewrite Hc|]. right. destruct e2 as [err|].
  - destruct Hw; [left|right]; done.
  - right. split; [done|]. by apply Hd.
Qed.

(** Records that do not start right after the base are not read at all. *)
Lemma scan_mismatch fuel es pos expected i :
  Forall disk_entry_fits es → contiguous i es → i ≠ expected →
  scan fuel (records es) pos expected = ([], [], pos).
Proof.
  intros Hf Hc Hne. destruct fuel as [|fuel]; [done|]. destruct es as [|e es]; [done|].
  inversion Hf as [|? ? He Hf']; subst. destruct Hc as [Hi _]. pose proof (fits_len e He) as Hlen.
  assert (N.of_nat (length (encodeEntry e)) < two32)%N as Hlen' by (unfold two32, maxRecordPayload in *; lia).
  destruct (header_fields (encodeEntry e) Hlen') as [H1 H2].
  cbn [scan]. rewrite records_cons. unfold record. rewrite <- app_assoc.
  rewrite readfull_app by (apply record_header_length). rewrite H1, H2.
  rewrite (proj2 (N.ltb_ge _ _)) by done. rewrite readfull_app by lia.
  rewrite N.eqb_refl. cbn [negb]. rewrite decode_encodeEntry by done.
  destruct (N.eqb_spec (Index e) expected); [congruence|done].
Qed.

(** ** Without faults every operation reports success *)

(** From an open, fault-free storage [m] reports no error and leaves one. *)
Definition succeeds (m : GoM DiskStorage (option error)) (d : DiskStorage) : Prop :=
  wp True m (λ e d', e = None ∧ d_faults d' = [] ∧ d_handle d' = Linked) d.

Definition flawless (d : DiskStorage) : Prop := d_faults d = [] ∧ d_handle d = Linked.

Lemma wp_on_wal_flawless {A} p (k : GoM DiskStorage (A + error)) Q d :
  flawless d → wp p k Q d → wp p (on_wal k) Q d.
Proof.
  intros [Hf Hl] HQ. unfold on_wal. do 2 wp_step. rewrite Hl. wp_step. by apply wp_sys_calm.
Qed.

Lemma set_content_flawless c d : flawless d → flawless (set_content c d).
Proof. unfold set_content. intros [Hf Hl]. by rewrite Hl. Qed.

Lemma wp_Write_flawless p b (Q : option error → DiskStorage → Prop) d :
  flawless d → (∀ d', flawless d' → d_offsets d' = d_offsets d → Q None d') → wp p (wal_Write b) Q d.
Proof.
  intros [Hf Hl] HQ. unfold wal_Write. do 2 wp_step. rewrite Hl. wp_step. apply wp_sys_calm; [done|].
  cbv zeta. repeat wp_step. apply HQ.
  - destruct (set_content_flawless (write_at (N.to_nat (d_pos d)) b (wal_content d)) d) as [? ?]; by split.
  - unfold set_content. by rewrite Hl.
Qed.

#[local] Ltac flaw := first [done | eassumption | split; cbn; (done || assumption)].
#[local] Ltac flaw_step :=
  cbn [fault_error];
  lazymatch goal with
  | |- wp _ sys _ _ => apply wp_sys_calm; [flaw|]
  | |- wp _ (on_wal _) _ _ => apply wp_on_wal_flawless; [flaw|]
  | |- wp _ (mbind _ _) _ _ => apply wp_bind
  | |- wp _ (mret _) _ _ => apply wp_ret
  | |- wp _ get _ _ => apply wp_get
  | |- wp _ (modify _) _ _ => apply wp_modify
  | |- wp _ (lift_go _) _ _ => apply wp_lift_go; [intros|done]
  | |- wp _ _ _ _ => progress cbn beta iota zeta
  end.

Lemma atomically_succeeds tmp final buf s d :
  final ≠ walFileName → flawless d → succeeds (write_atomically tmp final buf s) d.
Proof.
  intros Hne [Hf Hl]. unfold succeeds, write_atomically, create_file, write_file, sys_unit, rename.
  repeat flaw_step. rewrite bool_decide_false by done. split; [done|]. by split.
Qed.

Lemma append_succeeds es d : flawless d → succeeds (ds_AppendLog es) d.
Proof.
  intros Hd. unfold succeeds, ds_AppendLog. wp_step.
  assert (wp True (append_records es) (λ e d', e = None ∧ flawless d') d) as H.
  { revert d Hd. induction es as [|e es IH]; intros d Hd; cbn [append_records]; [by wp_step|].
    unfold wal_SeekEnd. repeat flaw_step. destruct Hd as [Hf Hl].
    apply wp_Write_flawless; [by split|]. intros d1 Hd1 _. repeat flaw_step.
    apply wp_Write_flawless; [done|]. intros d2 [Hf2 Hl2] _. repeat flaw_step. apply IH. by split. }
  eapply wp_mono; [|exact H]. cbn beta. intros e d1 [-> Hd1]. unfold wal_Sync. repeat flaw_step.
  split; [done|apply Hd1].
Qed.

Lemma truncate_succeeds from d :
  flawless d → (d_lastIncludedIndex d < from)%N → succeeds (ds_TruncateLog from) d.
Proof.
  intros Hd Hlo. unfold succeeds, ds_TruncateLog. do 2 wp_step.
  destruct (N.leb_spec from (d_lastIncludedIndex d)); [lia|]. cbv zeta.
  set (pos := u64_sub (u64_sub from (d_lastIncludedIndex d)) 1).
  destruct (Z.leb_spec (Z.of_nat (length (d_offsets d))) (int_of_u64 pos)); [by wp_step; destruct Hd|].
  unfold wal_Truncate, wal_Seek, wal_Sync. repeat flaw_step.
  destruct (set_content_flawless (take (N.to_nat a) (wal_content d)) d Hd) as [Hf Hl]. repeat flaw_step. done.
Qed.

Lemma cut_point_flawless rel d :
  flawless d → wp True (cut_point rel) (λ r d', (∃ c, r = inl c) ∧ flawless d') d.
Proof.
  intros Hd. unfold cut_point, wal_SeekEnd. do 2 wp_step.
  destruct (rel <? Z.of_nat (length (d_offsets d)))%Z.
  - destruct (rel <? 0)%Z; [done|]. destruct (drop (Z.to_nat rel) (d_offsets d)); [done|].
    wp_step. split; [by eexists|done].
  - repeat flaw_step. destruct Hd. split; [by eexists|done].
Qed.

Lemma snapshot_succeeds lii lit data d : flawless d → succeeds (ds_SaveSnapshot lii lit data) d.
Proof.
  intros Hd. unfold succeeds, ds_SaveSnapshot, writeSnapshotFileLocked. wp_step.
  eapply wp_mono; [|by apply atomically_succeeds]. cbn beta. intros e d1 (-> & Hf & Hl).
  unfold compactWALLocked. do 3 wp_step. eapply wp_mono; [|by apply cut_point_flawless].
  cbn beta. intros r d2 [[[cut offs] ->] [Hf2 Hl2]].
  unfold create_file, wal_Seek, copy_wal, write_file, rename, reopen_wal, sys_unit, wal_SeekEnd.
  repeat flaw_step.
  all: rewrite ?bool_decide_true by done; cbn [d_handle set_files set_pos]; rewrite ?Hl2.
  all: repeat flaw_step; done.
Qed.
