(* ===== verification/DiskFaults.v ===== *)
(** * DiskStorage implements the Storage contract

    [StorageSpec] for [DiskStorage].  The next process starts from the files the
    last one left ([reopens]), whatever system call it died in, with system-call
    outcomes of its own; unless it died between the two renames of
    [SaveSnapshot], when the log it finds does not follow the snapshot
    ([wal_follows]) and [Load] would drop it
    ([DiskProperties.snapshot_crash_loses_tail]). *)
From S2P Require Import Prelude RaftTypes Codec DiskStorage DiskRecovery DiskContract DiskCrash.

(** ** The next process *)

(** The record the file starts with. *)
Definition first_record (c : bytes) : option LogEntry :=
  match readfull recordHeaderSize c with
  | None => None
  | Some (header, rest) =>
      let payloadLen := be_val (sub_slice 0 4 header) in
      if (maxRecordPayload <? payloadLen)%N then None else
      match readfull (N.to_nat payloadLen) rest with
      | None => None
      | Some (payload, _) => match decodeEntry payload with inl e => Some e | inr _ => None end
      end
  end.

Definition wal_follows (d : DiskStorage) : bool :=
  match snap_file (d_files d), first_record (default [] (d_files d !! walFileName)) with
  | inl (lii, _, _), Some e => (Index e =? lii + 1)%N
  | _, _ => true
  end.

(** [NewDiskStorage] of a new process, whose later calls go as [faults] says. *)
Definition open_disk (faults : list (option nat)) (d : DiskStorage) : option DiskStorage :=
  match NewDiskStorage (set_faults (None :: None :: faults) (crash d)) with
  | Val (None, d') => Some d'
  | _ => None
  end.

Definition reopens (d d' : DiskStorage) : Prop :=
  wal_follows d = true ∧ open_disk (d_faults d') d = Some d'.

(** What [Load] needs: files as an operation may leave them. *)
Definition disk_loads (d : DiskStorage) : Prop :=
  d_handle d = Linked ∧ d_readErr d = None ∧
  ∃ hv lii lit data es, left_on_disk hv lii lit data es d.

#[export] Instance Handle_eq_dec : EqDecision Handle.
Proof. solve_decision. Defined.

#[export] Instance DiskStorage_eq_dec : EqDecision DiskStorage.
Proof. solve_decision. Defined.

#[export] Instance reopens_dec d d' : Decision (reopens d d').
Proof. unfold reopens. apply _. Defined.

Lemma reopens_files d d' :
  reopens d d' → wal_follows d = true ∧ d_handle d' = Linked ∧ d_readErr d' = None ∧
  d_files d' = <[walFileName := default [] (d_files d !! walFileName)]> (d_files d).
Proof. intros [Hw Ho]. split; [done|]. cbn in Ho. injection Ho as <-. by split. Qed.

Lemma reopens_hard d d' : reopens d d' → disk_hard d' = disk_hard d.
Proof.
  intros (_ & _ & _ & Hf)%reopens_files. apply disk_hard_same. unfold hard_same.
  by rewrite Hf, lookup_insert_ne.
Qed.

(** ** The log a snapshot cut short leaves *)
Lemma first_record_cons e es torn :
  disk_entry_fits e → first_record (records (e :: es) ++ torn) = Some e.
Proof.
  intros He. pose proof (fits_len e He) as Hlen.
  assert (N.of_nat (length (encodeEntry e)) < two32)%N as Hlen' by (unfold two32, maxRecordPayload in *; lia).
  destruct (header_fields (encodeEntry e) Hlen') as [H1 H2].
  unfold first_record. rewrite records_cons. unfold record. rewrite <- !app_assoc.
  rewrite readfull_app by (apply record_header_length).
  cbv beta iota zeta. rewrite H1, (proj2 (N.ltb_ge _ _)) by done. rewrite readfull_app by lia.
  cbv beta iota. by rewrite decode_encodeEntry.
Qed.

(** A log that follows the snapshot and starts before it is empty. *)
Lemma follows_empty es d lii lit data i :
  wal_follows d = true → snap_file (d_files d) = inl (lii, lit, data) →
  d_files d !! walFileName = Some (records es) → Forall disk_entry_fits es → contiguous (i + 1) es →
  (i < lii)%N → es = [].
Proof.
  intros Hw Hs Hwal Hf Hc Hlt. destruct es as [|e es]; [done|]. destruct Hc as [Hi _].
  inversion Hf as [|? ? He _]; subst. unfold wal_follows in Hw. rewrite Hs, Hwal in Hw. cbn [default] in Hw.
  pose proof (first_record_cons e es [] He) as Hfr. rewrite app_nil_r in Hfr.
  unfold id in Hw. rewrite Hfr in Hw. apply N.eqb_eq in Hw. lia.
Qed.

(** ** What the files say *)
Lemma left_reopens hv lii lit data es d d' :
  left_on_disk hv lii lit data es d → reopens d d' →
  disk_loads d' ∧ disk_view d' = MkPersistent hv.1 hv.2 (boundary lii lit :: es) data.
Proof.
  intros Hl (_ & Hh & Hr & Hf)%reopens_files.
  assert (left_on_disk hv lii lit data es d') as Hl'.
  { destruct Hl as [? ? (torn & Hw & Ht) ? ? ?]. rewrite Hw in Hf. cbn [default id] in Hf. rewrite insert_id in Hf by done.
    split; try done; rewrite Hf; [done|done|by exists torn]. }
  split; [|by apply left_view]. repeat split; try done. by do 5 eexists.
Qed.

Lemma ok_log es d :
  disk_ok es d → Log (disk_view d) = boundary (d_lastIncludedIndex d) (d_lastIncludedTerm d) :: es.
Proof. intros Hok. destruct (ok_left _ _ Hok) as [_ ->]. done. Qed.

Lemma disk_ok_loads es d : disk_ok es d → disk_loads d.
Proof. intros Hok. split; [apply Hok|]. split; [apply Hok|]. do 5 eexists. by apply ok_left. Qed.

(** The next process finds something that satisfies [Q]. *)
Abbreviation disk_leaves := (leaves_with reopens disk_loads disk_view).

Lemma left_leaves hv lii lit data es d (Q : PersistentState → Prop) :
  left_on_disk hv lii lit data es d → Q (MkPersistent hv.1 hv.2 (boundary lii lit :: es) data) → disk_leaves Q d.
Proof. intros Hl HQ d' Hr. destruct (left_reopens _ _ _ _ _ _ _ Hl Hr) as [? ->]. by split. Qed.

(** ** After an operation that failed *)
Lemma disk_save_hard_leaves es d t v :
  disk_ok es d → (t < two64)%N → vote_fits_disk v →
  wp True (SaveHardState t v) (λ e d', e ≠ None →
    disk_leaves (λ ps, ps = disk_view d ∨ ps = ps_save_hard t v (disk_view d)) d') d.
Proof.
  intros Hok Ht Hv. eapply wp_mono; [|by apply ds_save_hard]. cbn beta. intros e d' [Ho He] Hne.
  destruct (ok_left _ _ Hok) as [Hl Hvw]. destruct e as [err|]; [|done].
  eapply left_leaves; [eapply left_same; [exact Hl|..]|left; symmetry; exact Hvw].
  - unfold hard_file. by rewrite He.
  - unfold snap_file. rewrite (of_files _ _ _ Ho); [done|]. by apply (bool_decide_unpack (_ ∉ _)).
  - rewrite (of_files _ _ _ Ho); [done|]. by apply (bool_decide_unpack (_ ∉ _)).
Qed.

Lemma disk_append_leaves es0 d es :
  disk_ok es0 d → contiguous (next_index (Log (disk_view d))) es →
  (next_index (Log (disk_view d)) + N.of_nat (length es) ≤ two63)%N → Forall disk_entry_fits es →
  wp True (AppendLog es) (λ e d', e ≠ None →
    disk_leaves (λ ps, ∃ k, ps = ps_append (take k es) (disk_view d)) d') d.
Proof.
  intros Hok Hc Hb Hf. eapply wp_weaken; [done|]. eapply wp_mono; [|by apply append_left].
  cbn beta. intros e d' (j & torn & Hfiles & Ht & _) _. destruct (ok_left _ _ Hok) as [Hl Hvw].
  destruct (view_next _ _ Hok) as [Hn _]. rewrite Hn in Hc, Hb.
  eapply left_leaves; [eapply left_wal; [exact Hl|exact Hfiles|exact Ht|..]|].
  - apply Forall_app. split; [apply Hok|by apply Forall_take].
  - apply contiguous_app. split; [apply Hok|by apply contiguous_take].
  - rewrite length_app, length_take. lia.
  - exists j. unfold ps_append. by rewrite (ok_log _ _ Hok).
Qed.

Lemma disk_truncate_leaves es d from :
  disk_ok es d → (d_lastIncludedIndex d < from)%N →
  (from < d_lastIncludedIndex d + 1 + N.of_nat (length es))%N →
  wp True (TruncateLog from) (λ e d', e ≠ None →
    disk_leaves (λ ps, ps = disk_view d ∨ ps = ps_truncate from (disk_view d)) d') d.
Proof.
  intros Hok Hlo Hhi. eapply wp_weaken; [done|]. eapply wp_mono; [|by apply truncate_left].
  cbn beta. intros e d' (es' & Hfiles & Hes) _. destruct (ok_left _ _ Hok) as [Hl Hvw].
  assert (∃ k, es' = take k es) as [k Hk].
  { destruct Hes as [->| ->]; [exists (length es); by rewrite firstn_all|by eexists]. }
  eapply left_leaves; [eapply (left_wal _ _ _ _ _ _ es' []); [exact Hl|by rewrite app_nil_r|by left|..]|].
  - rewrite Hk. apply Forall_take, Hok.
  - rewrite Hk. apply contiguous_take, Hok.
  - rewrite Hk, length_take. pose proof (dk_bound _ _ Hok). lia.
  - destruct Hes as [->| ->]; [left; by symmetry|right]. unfold ps_truncate. rewrite (ok_log _ _ Hok).
    cbn [CurrentTerm VotedFor SnapshotData Log first_index boundary Index fst snd].
    by replace (N.to_nat (from - d_lastIncludedIndex d)) with (S (N.to_nat (from - d_lastIncludedIndex d - 1))) by lia.
Qed.

Lemma disk_snapshot_leaves es d lii lit data :
  disk_ok es d → (d_lastIncludedIndex d < lii)%N → (lii < two63)%N → (lit < two64)%N →
  snapshot_fits_disk data →
  wp True (SaveSnapshot lii lit data) (λ e d', e ≠ None →
    disk_leaves (λ ps, ps = disk_view d ∨ ps = ps_snapshot lii lit data (disk_view d)) d') d.
Proof.
  intros Hok Hlo Hlii Hlit Hfit. eapply wp_weaken; [done|]. eapply wp_mono; [|by apply (snapshot_left es)].
  cbn beta zeta. intros e d' [Hh Hcases] _. destruct (ok_left _ _ Hok) as [Hl Hvw].
  assert (d_files d' !! walFileName = Some (records es) → d_files d' !! walFileName = d_files d !! walFileName) as Hsame.
  { intros ->. symmetry. apply Hok. }
  destruct Hcases as [(Hs & _ & Hw)|[(Hs & _ & Hw)|(Hs & Hw)]].
  - eapply left_leaves; [eapply left_same; [exact Hl|by auto..]|]. left. by symmetry.
  - (* between the two renames: only without entries *)
    intros d1 Hr. pose proof (reopens_files _ _ Hr) as (Hf & _).
    assert (es = []) as ->.
    { eapply follows_empty; [exact Hf|exact Hs|exact Hw|apply Hok|apply Hok|done]. }
    destruct (compacted_left [] d d' lii lit data Hok Hlo Hlii Hh Hs) as [Hl' Hps]; [by rewrite drop_nil|].
    destruct (left_reopens _ _ _ _ _ _ _ Hl' Hr) as [? ->]. split; [done|]. right. by symmetry.
  - destruct (compacted_left es d d' lii lit data Hok Hlo Hlii Hh Hs Hw) as [Hl' Hps].
    eapply left_leaves; [exact Hl'|]. right. by symmetry.
Qed.

(** ** The contract *)
#[export] Program Instance DiskStorage_Spec : StorageSpec DiskStorage := {
  view := disk_view;
  sto_ok := disk_sto_ok;
  loads := disk_loads;
  reopened := reopens;
  entry_fits := disk_entry_fits;
  snapshot_fits := snapshot_fits_disk;
}.
Next Obligation. intros d [es Hok]. by eapply disk_ok_loads. Qed.
Next Obligation.
  intros d (_ & _ & [t v] & lii & lit & data & es & Hl). rewrite (left_view _ _ _ _ _ _ Hl). cbn.
  unfold disk_hard. by rewrite (lo_hard _ _ _ _ _ _ Hl).
Qed.
Next Obligation.
  intros d (_ & _ & hv & lii & lit & data & es & Hl). rewrite (left_view _ _ _ _ _ _ Hl). cbn. apply Hl.
Qed.
Next Obligation. intros d t v [es Hok] Ht Hv. by eapply ds_hard_ok. Qed.
Next Obligation. intros d es [es0 Hok] ???. by eapply ds_append_ok. Qed.
Next Obligation.
  intros d from [es Hok] Hlo Hhi _. destruct (view_next _ _ Hok) as [Hn Hf].
  rewrite Hn in Hhi. rewrite Hf in Hlo. by eapply ds_truncate_ok.
Qed.
Next Obligation.
  intros d lii lit data [es Hok] Hlo ????. destruct (view_next _ _ Hok) as [_ Hf].
  rewrite Hf in Hlo. by eapply ds_snapshot_ok.
Qed.
Next Obligation.
  intros d (Hh & Hr & hv & lii & lit & data & es & Hl). rewrite (left_view _ _ _ _ _ _ Hl).
  destruct Hl as [? ? (torn & Hw & Ht) ? ? ?].
  eapply wp_mono; [|by apply (ds_load_spec es torn lii lit data hv)].
  cbn beta. intros r d' Hps ps Heq. destruct (Hps ps Heq) as (-> & Hok' & Hv'). split; [done|]. split; [done|by eexists].
Qed.
Next Obligation. apply reopens_hard. Qed.
Next Obligation.
  intros d [es Hok]. destruct (ok_left _ _ Hok) as [Hl Hv]. eapply left_leaves; [exact Hl|]. by symmetry.
Qed.
Next Obligation. intros d t v [es Hok] Ht Hv. by eapply disk_save_hard_leaves. Qed.
Next Obligation. intros d es [es0 Hok] ???. by eapply disk_append_leaves. Qed.
Next Obligation.
  intros d from [es Hok] Hlo Hhi _. destruct (view_next _ _ Hok) as [Hn Hf].
  rewrite Hn in Hhi. rewrite Hf in Hlo. by eapply disk_truncate_leaves.
Qed.
Next Obligation.
  intros d lii lit data [es Hok] Hlo ????. destruct (view_next _ _ Hok) as [_ Hf].
  rewrite Hf in Hlo. by eapply disk_snapshot_leaves.
Qed.
