(* ===== verification/DiskCluster.v ===== *)
(** * The cluster over disks

    RaftReplication's cluster with DiskStorage for storage: every system call
    of every node may fail, after any number of bytes, and every process may die
    in any of them.  The theorems of RaftAgreement hold of it as they are; here
    is what is particular to disks: a process that died can be replaced by one
    whose node is in service with what the files say, and a run in which a
    follower dies while it writes a record. *)
From S2P Require Import Prelude RaftTypes RaftNode RaftVotes RaftCluster RaftElection RaftLog RaftReplicate RaftService RaftReplication RaftInvariant RaftSafety RaftAgreement Codec DiskStorage DiskRecovery DiskContract DiskCrash DiskFaults.

(** ** A process that died comes back *)
Lemma load_succeeds d :
  disk_loads d → d_faults d = [] → ∃ d', ds_Load d = Val (inl (disk_view d), d').
Proof.
  intros (Hh & Hr & hv & lii & lit & data & es & Hl) Hf. rewrite (left_view _ _ _ _ _ _ Hl).
  destruct Hl as [? ? (torn & Hw & Ht) ? ? ?].
  destruct (wp_total _ _ _ (load_files d hv lii lit data es (offsets_from 0 es) (records_len es)
    ltac:(by split) ltac:(done) ltac:(done) ltac:(rewrite Hw; by apply scan_file; auto; lia))) as (r & d' & Hrun & -> & _).
  by exists d'.
Qed.

Lemma down_restarts members cfg_of (R : RWorld DiskStorage) p st e :
  cluster_wf (S := DiskStorage) members cfg_of → Nat.Odd (length members) → rreachable members cfg_of R →
  w_procs (rw_world R) !! p = Some (Down st) → d_faults st = [] → config_ok (cfg_of p) →
  ∃ n st', NewNode (cfg_of p) e st = Val (inl n, st') ∧ service n ∧ recovered (cfg_of p) (disk_view st) n.
Proof.
  intros Hwf Hodd HR Hp Hf Hcfg. destruct (RInv_reachable members cfg_of Hwf Hodd _ HR) as [h HI].
  destruct (ri_proc _ _ _ _ HI _ _ Hp) as [L [Hok Hb Ht Hts _ _ _ _]].
  pose proof (NewNode_spec (cfg_of p) e st Hcfg Hok Hb Ht Hts) as Hsp.
  destruct (load_succeeds st Hok Hf) as [d' Hld].
  destruct (NewNode (cfg_of p) e st) as [[[n|err] st']|]; [by exists n, st'| |done].
  destruct Hsp as [err' Hld']. change (Load st) with (ds_Load st) in Hld'. by rewrite Hld in Hld'.
Qed.

(** C18: a process that died can be replaced.  Whatever happened to a cluster of
    odd size (in which snapshots are delivered where [installable]) and to its
    disks: a node that runs, or that a storage error has disabled, may die at any
    moment, and the process started on its files (which is not between the two
    renames of [SaveSnapshot]), if its system calls succeed, has a node in service
    with the state the files hold. *)
Theorem dead_process_returns members cfg_of (R : RWorld DiskStorage) p n e :
  cluster_wf (S := DiskStorage) members cfg_of → Nat.Odd (length members) → rreachable members cfg_of R →
  w_procs (rw_world R) !! p = Some (Up n) → config_ok (cfg_of p) → wal_follows (n_storage n) = true →
  ∃ st n' st', open_disk [] (n_storage n) = Some st ∧ rstep cfg_of R (on_world (set_down p st) R) ∧
    NewNode (cfg_of p) e st = Val (inl n', st') ∧ service n' ∧ recovered (cfg_of p) (disk_view st) n' ∧
    hard n' = disk_hard (n_storage n) ∧
    rreachable members cfg_of (on_world (set_proc p n') (on_world (set_down p st) R)).
Proof.
  intros Hwf Hodd HR Hp Hcfg Hw. destruct (open_disk [] (n_storage n)) as [st|] eqn:Ho; [|done].
  assert (d_faults st = []) as Hf by (cbn in Ho; by injection Ho as <-).
  assert (reopened (n_storage n) st) as Hre by (split; [done|]; by rewrite Hf).
  assert (rstep cfg_of R (on_world (set_down p st) R)) as Hst by (by eapply rs_reopen).
  pose proof (rreach_step _ _ _ _ HR Hst) as HR1.
  assert (w_procs (rw_world (on_world (set_down p st) R)) !! p = Some (Down st)) as Hp1 by apply lookup_insert_eq.
  destruct (down_restarts _ _ _ _ _ e Hwf Hodd HR1 Hp1 Hf Hcfg) as (n' & st' & Hrun & Hs & Hrec).
  exists st, n', st'. do 5 (split; [done|]). destruct (NewNode_hard _ _ _ _ _ Hrun) as (_ & _ & -> & _).
  split; [exact (reopens_hard _ _ Hre)|]. eapply rreach_step; [exact HR1|].
  eapply (rs_event _ _ (EvRestart p e) (set_proc p n' (rw_world (on_world (set_down p st) R)))).
  - intros st1 Hst1. rewrite Hp1 in Hst1. injection Hst1 as <-. by exists n', st'.
  - cbn [exec]. unfold down_storage. rewrite Hp1. cbn. by rewrite Hrun.
Qed.

(** ** A follower dies while it writes a record *)
Definition fresh_disk (faults : list (option nat)) : DiskStorage :=
  MkDisk {[ walFileName := [] ]} Linked 0 faults None [] 0 0.

(** It is what [NewDiskStorage] makes of an empty directory. *)
Lemma fresh_disk_opened faults : open_disk faults (MkDisk ∅ Closed 0 [] None [] 0 0) = Some (fresh_disk faults).
Proof. done. Qed.

(** The members, each with the outcomes of its first process's system calls. *)
Definition disk_cluster (plan : NodeID → list (option nat)) (members : list NodeID) : RWorld DiskStorage :=
  MkRWorld (MkWorld (list_to_map ((λ p, (p, Down (fresh_disk (plan p)))) <$> members)) ∅ 0 [] [] []) [] [] [] [].

Lemma fresh_disk_ok faults : disk_ok [] (fresh_disk faults).
Proof. split; try done. - by exists (0%N, ""%string). - by exists []. Qed.

Lemma disk_cluster_initial plan members : rinitial members (disk_cluster plan members).
Proof.
  split; [|do 4 (split; [done|])].
  - do 4 (split; [done|]). intros p pr Hp. cbn in Hp.
    apply elem_of_list_to_map_2, list_elem_of_fmap in Hp as (q & [= -> ->] & Hq). split; [done|]. by eexists.
  - intros p st Hp. cbn in Hp. apply elem_of_list_to_map_2, list_elem_of_fmap in Hp as (q & [= -> ->] & Hq).
    split; [by exists []; apply fresh_disk_ok|done].
Qed.

#[export] Instance disk_entry_fits_dec e : Decision (entry_fits (S := DiskStorage) e).
Proof. cbn. unfold disk_entry_fits. apply _. Defined.

#[export] Instance disk_snapshot_fits_dec data : Decision (snapshot_fits (S := DiskStorage) data).
Proof. cbn. unfold snapshot_fits_disk. apply _. Defined.

Lemma three_disks_wf : cluster_wf (S := DiskStorage) three (cfg_among three).
Proof.
  destruct three_wf as [Hnd Hid Hpe]. split; [done| |done]. intros p Hp. destruct (Hid p Hp) as (? & ? & _).
  split; [done|]. split; [done|]. repeat (apply elem_of_cons in Hp as [->|Hp]; [done|]). by apply not_elem_of_nil in Hp.
Qed.

(** "b" grants its vote (five system calls for its term, five for the vote) and
    dies five bytes into the header of the first record it appends. *)
Definition torn_plan (p : NodeID) : list (option nat) :=
  if bool_decide (p = "b") then replicate 17 None ++ [Some 5] else [].

Definition torn_request : AppendEntriesArgs := MkAEArgs 1 "a" 0 0 [MkEntry 1 1 cmd_x] 0.

Definition torn_run : list (REvent DiskStorage) :=
  (REvent_base <$> elect_a) ++
  [REvent_base (EvLocal "a" (OpPropose cmd_x)); REvent_send "a" "b" 1; REvent_append "b" torn_request env0].

(** The files "b" leaves, opened by the next process. *)
Definition torn_disk : DiskStorage :=
  MkDisk {[ hardStateFileName := encodeHardState 1 "a"; walFileName := take 5 (record (MkEntry 1 1 cmd_x)) ]}
    Linked 0 [] None [] 0 0.

Definition torn_restart : list (REvent DiskStorage) :=
  [REvent_reopen "b" torn_disk; REvent_base (EvRestart "b" env0); REvent_append "b" torn_request env0;
   REvent_answer "b" torn_request (MkAEReply 1 true 0 0)].

(** Where it ends: "b" is disabled, with part of a header in its log. *)
Definition torn_at_b (R : RWorld DiskStorage) : bool :=
  match up_node (rw_world R) "b" with
  | Some nb => n_failed nb && wal_follows (n_storage nb) &&
      bool_decide (d_files (n_storage nb) !! walFileName = Some (take 5 (record (MkEntry 1 1 cmd_x))))
  | None => false
  end.

Lemma torn_at_b_spec R :
  torn_at_b R = true → ∃ nb, w_procs (rw_world R) !! "b" = Some (Up nb) ∧ n_failed nb = true ∧ wal_follows (n_storage nb) = true ∧
    d_files (n_storage nb) !! walFileName = Some (take 5 (record (MkEntry 1 1 cmd_x))).
Proof.
  unfold torn_at_b. destruct (up_node (rw_world R) "b") as [nb|] eqn:Hnb; [|done].
  intros [[Hf Hw]%andb_true_iff Hd%bool_decide_eq_true]%andb_true_iff. apply up_node_Some in Hnb. by exists nb.
Qed.

Lemma b_config_ok : config_ok (cfg_among three "b").
Proof. split; [done|by vm_compute]. Qed.

Lemma dead_process_returns_witness : ∃ (R : RWorld DiskStorage) n st n' st',
  w_procs (rw_world R) !! "b" = Some (Up n) ∧ n_failed n = true ∧
  d_files (n_storage n) !! walFileName = Some (take 5 (record (MkEntry 1 1 cmd_x))) ∧
  open_disk [] (n_storage n) = Some st ∧ rstep (cfg_among three) R (on_world (set_down "b" st) R) ∧
  NewNode (cfg_among three "b") env0 st = Val (inl n', st') ∧ service n' ∧
  recovered (cfg_among three "b") (disk_view st) n' ∧ hard n' = disk_hard (n_storage n) ∧
  rreachable three (cfg_among three) (on_world (set_proc "b" n') (on_world (set_down "b" st) R)).
Proof.
  destruct (run_result three (cfg_among three) torn_run (disk_cluster torn_plan three) torn_at_b) as (R & _ & HR & HP).
  { apply rreach_init, disk_cluster_initial. }
  { by vm_compute. }
  destruct (torn_at_b_spec R HP) as (n & Hn & Hf & Hw & Hd).
  destruct (dead_process_returns three (cfg_among three) R "b" n env0 three_disks_wf (ex_intro _ 1 eq_refl) HR Hn
    b_config_ok Hw) as (st & n' & st' & Hrest).
  exists R, n, st, n', st'. by repeat (split; [done|]).
Defined.

(** The next process finds no entry, gets it again, and the leader counts it:
    "a" commits what "b" now has on disk. *)
Theorem torn_append_recovers : ∃ (R R' : RWorld DiskStorage) nb nb' na',
  rreachable three (cfg_among three) R ∧ rtc (rstep (cfg_among three)) R R' ∧
  w_procs (rw_world R) !! "b" = Some (Up nb) ∧ n_failed nb = true ∧
  d_files (n_storage nb) !! walFileName = Some (take 5 (record (MkEntry 1 1 cmd_x))) ∧
  enabled R' "b" nb' ∧ disk_view (n_storage nb') = MkPersistent 1 "a" [boundary 0 0; MkEntry 1 1 cmd_x] [] ∧
  enabled R' "a" na' ∧ n_commitIndex na' = 1%N.
Proof.
  destruct (run_result three (cfg_among three) torn_run (disk_cluster torn_plan three)
    (λ R, torn_at_b R &&
          (run_check (cfg_among three) torn_restart R &&
           match rexec_all (cfg_among three) torn_restart R with
           | Some R' => node_is R' "b" (λ n, bool_decide (disk_view (n_storage n) =
                          MkPersistent 1 "a" [boundary 0 0; MkEntry 1 1 cmd_x] [])) &&
                        node_is R' "a" (λ n, (n_commitIndex n =? 1)%N)
           | None => false
           end))) as (R & _ & HR & HP).
  { apply rreach_init, disk_cluster_initial. }
  { by vm_compute. }
  apply andb_true_iff in HP as [Hb HP]. destruct (torn_at_b_spec R Hb) as (nb & Hnb & Hf & _ & Hw).
  destruct (run_result three _ torn_restart R _ HR HP) as (R' & Hst & _ & [Hb' Ha]%andb_true_iff).
  destruct (node_is_enabled _ _ _ Hb') as (nb' & Hnb' & Hv%bool_decide_eq_true).
  destruct (node_is_enabled _ _ _ Ha) as (na' & Hna' & Hc%N.eqb_eq).
  exists R, R', nb, nb', na'. by repeat (split; [done|]).
Qed.
