(* ===== verification/DiskProperties.v ===== *)
(** * Correctness of internal/storage: what survives, what a restart recovers

    The theorems about [DiskStorage]: equivalence with the in-memory storage
    through the [Storage] contract, atomicity of every operation under a crash
    at any system call, recovery from arbitrary file contents and detection of
    corrupted records; then the crash and the read error after which durable
    entries are lost. *)
From S2P Require Import Prelude RaftTypes MemoryStorage Codec Checksum DiskStorage DiskRecovery DiskContract DiskCrash DiskFaults.

(** ** Sequences of storage operations *)
Inductive storage_op : Type :=
| OpHardState (t : N) (v : NodeID)
| OpAppend (es : list LogEntry)
| OpTruncate (from : N)
| OpSnapshot (lii lit : N) (data : bytes).

(** What an operation does to the durable state. *)
Definition op_view (o : storage_op) : PersistentState → PersistentState :=
  match o with
  | OpHardState t v => ps_save_hard t v
  | OpAppend es => ps_append es
  | OpTruncate from => ps_truncate from
  | OpSnapshot lii lit data => ps_snapshot lii lit data
  end.

Definition ops_view (ops : list storage_op) (ps : PersistentState) : PersistentState :=
  foldl (λ ps o, op_view o ps) ps ops.

Section Ops.
Context {S : Type} `{StorageSpec S}.

Definition run_op (o : storage_op) : GoM S (option error) :=
  match o with
  | OpHardState t v => SaveHardState t v
  | OpAppend es => AppendLog es
  | OpTruncate from => TruncateLog from
  | OpSnapshot lii lit data => SaveSnapshot lii lit data
  end.

(** Up to the first failure, as the node uses its storage. *)
Fixpoint run_storage (ops : list storage_op) : GoM S (option error) :=
  match ops with
  | [] => mret None
  | o :: ops =>
      e ← run_op o;
      if e is Some err then mret (Some err) else run_storage ops
  end.

(** How the node calls its storage. *)
Definition op_valid (o : storage_op) (ps : PersistentState) : Prop :=
  (next_index (Log ps) ≤ two63)%N ∧
  match o with
  | OpHardState t v => (t < two64)%N ∧ vote_fits v
  | OpAppend es =>
      contiguous (next_index (Log ps)) es ∧
      (next_index (Log ps) + N.of_nat (length es) ≤ two63)%N ∧ Forall entry_fits es
  | OpTruncate from => (first_index (Log ps) < from)%N ∧ (from < next_index (Log ps))%N
  | OpSnapshot lii lit data =>
      (first_index (Log ps) < lii)%N ∧ (lii < two63)%N ∧ (lit < two64)%N ∧ snapshot_fits data
  end.

Fixpoint ops_valid (ops : list storage_op) (ps : PersistentState) : Prop :=
  match ops with
  | [] => True
  | o :: ops => op_valid o ps ∧ ops_valid ops (op_view o ps)
  end.

Lemma run_op_spec o s :
  sto_ok s → op_valid o (view s) →
  wp False (run_op o) (λ e s', e = None → sto_ok s' ∧ view s' = op_view o (view s)) s.
Proof.
  intros Hok [Hb Hv]. destruct o; cbn in *.
  - apply save_hard_spec; tauto.
  - apply append_spec; tauto.
  - apply truncate_spec; tauto.
  - apply snapshot_spec; tauto.
Qed.

Lemma run_storage_spec ops s :
  sto_ok s → ops_valid ops (view s) →
  wp False (run_storage ops) (λ e s', e = None → sto_ok s' ∧ view s' = ops_view ops (view s)) s.
Proof.
  revert s. induction ops as [|o ops IH]; intros s Hok Hv; cbn [run_storage]; [by wp_step|].
  destruct Hv as [Ho Hv]. wp_step. eapply wp_mono; [|by apply run_op_spec].
  cbn beta. intros e s1 Hs1. destruct e as [err|]; [by wp_step|]. destruct (Hs1 eq_refl) as [Hok1 Hv1].
  eapply wp_mono; [|apply IH; [done|by rewrite Hv1]]. cbn beta. intros e2 s2 Hs2 He.
  destruct (Hs2 He) as [? ->]. by rewrite Hv1.
Qed.
End Ops.

(** A file of encoded entries, for the examples. *)
Definition example_entries : list LogEntry :=
  [MkEntry 1 1 []; MkEntry 1 2 [Byte.x61]; MkEntry 2 3 []].

Definition example_disk (faults : list (option nat)) (readErr : option nat) : DiskStorage :=
  MkDisk {[ walFileName := records example_entries ]} Linked 0 faults readErr
    (offsets_from 0 example_entries) 0 0.

Lemma example_ok faults : disk_ok example_entries (example_disk faults None).
Proof.
  split; try done.
  - by exists (0%N, ""%string).
  - by exists [].
  - repeat constructor; cbn; lia || done.
Qed.

(** [MemoryStorage] never fails. *)
Lemma memory_run ops m :
  ms_ok m → ops_valid (S := DiskStorage) ops (ms_view m) →
  wp False (run_storage ops) (λ e m', e = None ∧ ms_ok m' ∧ ms_view m' = ops_view ops (ms_view m)) m.
Proof.
  revert m. induction ops as [|o ops IH]; intros m Hok Hv; cbn [run_storage]; [by wp_step|].
  destruct Hv as [[Hb Ho] Hv]. wp_step.
  assert (wp False (run_op o) (λ e m', e = None ∧ ms_ok m' ∧ ms_view m' = op_view o (ms_view m)) m) as Hs.
  { destruct o; cbn [run_op op_view] in *.
    - by apply ms_save_hard_spec.
    - apply ms_append_spec; tauto.
    - apply ms_truncate_spec; tauto.
    - apply ms_snapshot_spec; tauto. }
  eapply wp_mono; [|exact Hs]. cbn beta. intros e m1 (-> & Hok1 & Hv1).
  eapply wp_mono; [|apply IH; [done|by rewrite Hv1]]. cbn beta. intros e2 m2 (-> & Hok2 & Hv2).
  by rewrite Hv2, Hv1.
Qed.

(** [DiskStorage] fails only when a system call does. *)
Lemma disk_run_succeeds ops d :
  disk_sto_ok d → ops_valid ops (disk_view d) → flawless d → succeeds (run_storage ops) d.
Proof.
  revert d. induction ops as [|o ops IH]; intros d Hok Hv Hd; cbn [run_storage]; [by destruct Hd|].
  destruct Hv as [Ho Hv]. unfold succeeds. wp_step.
  pose proof (run_op_spec (S := DiskStorage) o d Hok Ho) as Hspec.
  assert (succeeds (run_op o) d) as Hs.
  { destruct Hok as [es Hok]. destruct Ho as [_ Ho]. destruct (view_next _ _ Hok) as [_ Hfi].
    destruct o; cbn [run_op] in *.
    - by apply atomically_succeeds.
    - by apply append_succeeds.
    - apply truncate_succeeds; [done|]. rewrite <- Hfi. apply Ho.
    - by apply snapshot_succeeds. }
  eapply wp_mono; [|apply (wp_conj _ _ _ _ _ (wp_weaken _ True _ _ _ (λ _, I) Hspec) Hs)].
  cbn beta. intros e d1 [H1 (-> & Hf & Hl)]. destruct (H1 eq_refl) as [Hok1 Hv1].
  apply IH; [done| |by split]. cbn [view DiskStorage_Spec] in Hv1. by rewrite Hv1.
Qed.

(** Closed bounds of the format, in the examples. *)
Ltac disk_bounds :=
  repeat constructor; cbn;
  unfold vote_fits_disk, snapshot_fits_disk, two64, two63, two32, maxRecordPayload, next_index; cbn;
  first [done | lia].

(** C19: the disk-backed storage behaves like the in-memory one.  From states
    with the same durable contents, every sequence of operations the node may
    issue that both report as done leaves the same contents, which a [Load] on
    either then reports; [DiskStorage] never panics whatever its system calls
    answer, and reports an error only when one of them fails. *)
Theorem disk_refines_memory ops d m :
  disk_sto_ok d → ms_ok m → disk_view d = ms_view m → ops_valid (S := DiskStorage) ops (disk_view d) →
  ∃ e d' m', run_storage ops d = Val (e, d') ∧ run_storage ops m = Val (None, m') ∧
    (d_faults d = [] → e = None) ∧
    (e = None → disk_view d' = ms_view m' ∧ disk_view d' = ops_view ops (disk_view d) ∧
       ∃ r d'', ds_Load d' = Val (r, d'') ∧ ∀ ps, r = inl ps → ms_Load m' = Val (inl ps, m')).
Proof.
  intros Hd Hm Hv Hops.
  pose proof (run_storage_spec (S := DiskStorage) ops d Hd Hops) as Hrun.
  destruct (wp_total _ _ _ Hrun) as (e & d' & Hrd & Hd').
  destruct (wp_total _ _ _ (memory_run ops m Hm ltac:(by rewrite <- Hv))) as (e' & m' & Hrm & -> & Hm' & Hvm).
  exists e, d', m'. split; [done|]. split; [done|]. split.
  { intros Hf. assert (flawless d) as Hfl by (split; [done|]; destruct Hd as [es Hd]; apply Hd).
    by apply (wp_run _ _ _ _ _ _ (disk_run_succeeds ops d Hd Hops Hfl) Hrd). }
  intros He. destruct (Hd' He) as [Hok' Hvd].
  cbn [view DiskStorage_Spec] in Hvd. rewrite Hvd, Hvm, Hv. split; [done|]. split; [done|].
  pose proof (load_spec (S := DiskStorage) d' (loads_ok _ Hok')) as Hload.
  destruct (wp_total _ _ _ Hload) as (r & d'' & Hl & Hps).
  exists r, d''. split; [done|]. intros ps Hr. destruct (Hps ps Hr) as (-> & _ & _).
  unfold ms_Load. cbn. do 3 f_equal. cbn [view DiskStorage_Spec] in *. by rewrite Hvd, Hv, <- Hvm.
Qed.

Definition example_ops : list storage_op :=
  [OpHardState 3 "n1"; OpTruncate 3; OpAppend [MkEntry 3 3 [Byte.x62]]; OpSnapshot 1 1 [Byte.x63]].

Definition example_memory : MemoryStorage := MkMemory 0 "" example_entries 0 0 [].

Lemma disk_refines_memory_witness :
  disk_sto_ok (example_disk [] None) ∧
  ∃ e d' m', run_storage example_ops (example_disk [] None) = Val (e, d') ∧
    run_storage example_ops example_memory = Val (None, m') ∧
    (d_faults (example_disk [] None) = [] → e = None) ∧
    (e = None → disk_view d' = ms_view m' ∧
       disk_view d' = ops_view example_ops (disk_view (example_disk [] None)) ∧
       ∃ r d'', ds_Load d' = Val (r, d'') ∧ ∀ ps, r = inl ps → ms_Load m' = Val (inl ps, m')).
Proof.
  assert (disk_view (example_disk [] None) = MkPersistent 0 "" (boundary 0 0 :: example_entries) []) as Hv
    by by vm_compute.
  assert (disk_sto_ok (example_disk [] None)) as Hok by (eexists; apply example_ok).
  split; [done|]. apply disk_refines_memory; [done|by repeat constructor|done|].
  rewrite Hv. cbn [ops_valid example_ops]. repeat split; disk_bounds.
Defined.

(** C20: an append interrupted at any system call is recovered as a prefix.
    Whatever fails while [AppendLog] runs, and wherever the process dies, the
    next process finds the hard state, the snapshot and the old log unchanged,
    followed by a prefix of the new entries with nothing torn after it; if the
    call reported success, by all of them. *)
Theorem append_survives_crash es0 d es :
  disk_ok es0 d → contiguous (next_index (Log (disk_view d))) es →
  (next_index (Log (disk_view d)) + N.of_nat (length es) ≤ two63)%N → Forall disk_entry_fits es →
  ∃ e d' j d'', ds_AppendLog es d = Val (e, d') ∧
    recover (crash d') = Val (inl (ps_append (take j es) (disk_view d)), d'') ∧
    disk_ok (es0 ++ take j es) d'' ∧ (e = None → take j es = es).
Proof.
  intros Hok Hc Hb Hf.
  destruct (wp_total _ _ _ (append_left es0 d es Hok Hc Hb Hf)) as (e & d' & Hrun & j & torn & Hfiles & Ht & Hnone).
  destruct (view_next _ _ Hok) as [Hn _]. rewrite Hn in Hc, Hb.
  destruct (disk_ok_left _ _ Hok) as (hv & data & Hleft & Hv).
  assert (left_on_disk hv (d_lastIncludedIndex d) (d_lastIncludedTerm d) data (es0 ++ take j es) d') as Hleft'.
  { eapply left_wal; [done|done|done| | |].
    - apply Forall_app. split; [apply Hok|by apply Forall_take].
    - apply contiguous_app. split; [apply Hok|by apply contiguous_take].
    - rewrite length_app, length_take. lia. }
  destruct (recover_left _ _ _ _ _ _ Hleft') as (d'' & Hrec & Hok'').
  exists e, d', j, d''. rewrite Hv. done.
Qed.

Definition example_new : list LogEntry := [MkEntry 2 4 [Byte.x64]; MkEntry 2 5 []].

Lemma append_survives_crash_witness :
  disk_ok example_entries (example_disk [None; None; None; None; None; Some 3] None) ∧
  ∃ e d' j d'', ds_AppendLog example_new (example_disk [None; None; None; None; None; Some 3] None) = Val (e, d') ∧
    recover (crash d') = Val (inl (ps_append (take j example_new)
      (disk_view (example_disk [None; None; None; None; None; Some 3] None))), d'') ∧
    disk_ok (example_entries ++ take j example_new) d'' ∧ (e = None → take j example_new = example_new).
Proof.
  assert (disk_view (example_disk [None; None; None; None; None; Some 3] None)
    = MkPersistent 0 "" (boundary 0 0 :: example_entries) []) as Hv by by vm_compute.
  split; [apply example_ok|]. apply append_survives_crash; [apply example_ok|..].
  - rewrite Hv. repeat split; disk_bounds.
  - rewrite Hv. disk_bounds.
  - repeat constructor; disk_bounds.
Defined.

(** A truncation interrupted at any system call happened as a whole or not
    at all. *)
Theorem truncate_survives_crash es d from :
  disk_ok es d → (d_lastIncludedIndex d < from)%N →
  (from < d_lastIncludedIndex d + 1 + N.of_nat (length es))%N →
  ∃ e d' ps d'', ds_TruncateLog from d = Val (e, d') ∧ recover (crash d') = Val (inl ps, d'') ∧
    disk_sto_ok d'' ∧ (ps = disk_view d ∨ ps = ps_truncate from (disk_view d)) ∧
    (e = None → ps = ps_truncate from (disk_view d)).
Proof.
  intros Hok Hlo Hhi.
  pose proof (wp_conj _ _ _ _ _ (truncate_left es d from Hok Hlo Hhi) (ds_truncate_ok es d from Hok Hlo Hhi)) as Hsp.
  destruct (wp_total _ _ _ Hsp) as (e & d' & Hrun & (es' & Hfiles & Hes') & Hdone).
  destruct (disk_ok_left _ _ Hok) as (hv & data & Hleft & Hv).
  set (k := N.to_nat (from - d_lastIncludedIndex d - 1)) in *.
  assert (left_on_disk hv (d_lastIncludedIndex d) (d_lastIncludedTerm d) data es' d') as Hleft'.
  { pose proof (dk_bound _ _ Hok). eapply (left_wal _ _ _ _ _ _ _ []); [done|by rewrite app_nil_r|by left|..].
    - destruct Hes' as [->| ->]; [apply Hok|]. apply Forall_take, Hok.
    - destruct Hes' as [->| ->]; [apply Hok|]. apply contiguous_take, Hok.
    - destruct Hes' as [->| ->]; [lia|]. rewrite length_take. lia. }
  destruct (recover_left _ _ _ _ _ _ Hleft') as (d'' & Hrec & Hok'').
  assert (disk_view d' = MkPersistent hv.1 hv.2 (boundary (d_lastIncludedIndex d) (d_lastIncludedTerm d) :: es') data) as Hv'.
  { unfold disk_view. rewrite (lo_hard _ _ _ _ _ _ Hleft'), (lo_snap _ _ _ _ _ _ Hleft'), Hfiles.
    rewrite lookup_insert_eq. destruct hv. cbn [default]. unfold default, id.
    rewrite wal_entries_ok; [done|apply Hleft'..]. }
  exists e, d', (disk_view d'), d''. rewrite Hv' at 1. split; [done|]. split; [done|].
  split; [by eexists|]. split; [|intros He; by apply Hdone]. rewrite Hv', Hv.
  destruct Hes' as [->| ->]; [by left|right]. unfold ps_truncate.
  cbn [CurrentTerm VotedFor SnapshotData Log first_index boundary Index].
  by replace (N.to_nat (from - d_lastIncludedIndex d)) with (S k) by (unfold k; lia).
Qed.

Lemma truncate_survives_crash_witness :
  disk_ok example_entries (example_disk [None; Some 0] None) ∧
  ∃ e d' ps d'', ds_TruncateLog 2 (example_disk [None; Some 0] None) = Val (e, d') ∧
    recover (crash d') = Val (inl ps, d'') ∧ disk_sto_ok d'' ∧
    (ps = disk_view (example_disk [None; Some 0] None) ∨
     ps = ps_truncate 2 (disk_view (example_disk [None; Some 0] None))) ∧
    (e = None → ps = ps_truncate 2 (disk_view (example_disk [None; Some 0] None))).
Proof.
  split; [apply example_ok|]. apply (truncate_survives_crash example_entries); [apply example_ok|by vm_compute..].
Defined.

(** C21: the durable term and vote change as a whole or not at all.  Whatever
    fails while [SaveHardState] runs, the next process finds the log and the
    snapshot unchanged, and the old term and vote or the new ones; if the call
    reported success, the new ones, and if it reported an error, the old
    ones. *)
Theorem hard_state_survives_crash es d t v :
  disk_ok es d → (t < two64)%N → vote_fits_disk v →
  ∃ e d' d'', ds_SaveHardState t v d = Val (e, d') ∧
    recover (crash d') = Val (inl (if e is Some _ then disk_view d else ps_save_hard t v (disk_view d)), d'') ∧
    disk_ok es d''.
Proof.
  intros Hok Ht Hv.
  assert (hardStateTmp ≠ hardStateFileName) as Hne by done.
  assert (hardStateFileName ≠ walFileName) as Hnw by done.
  destruct (wp_total _ _ _ (write_atomically_spec hardStateTmp hardStateFileName (encodeHardState t v)
    (MkSteps "storage: creating hardstate temp file" "storage: writing hardstate"
       "storage: fsyncing hardstate" "storage: closing hardstate temp file"
       "storage: installing hardstate") d Hne Hnw)) as (e & d' & Hrun & Ho & Hnone & Hsome).
  destruct (disk_ok_left _ _ Hok) as (hv & data & Hleft & Hview).
  assert (∀ p, p ∉ [hardStateTmp; hardStateFileName] → d_files d' !! p = d_files d !! p) as Hp
    by (intros p Hp; by apply (of_files _ _ _ Ho)).
  set (hv' := if e is Some _ then hv else (t, v)).
  assert (left_on_disk hv' (d_lastIncludedIndex d) (d_lastIncludedTerm d) data es d') as Hleft'.
  { split; try apply Hleft.
    - unfold hard_file, hv'. destruct e as [err|].
      + rewrite Hsome by done. apply Hleft.
      + rewrite Hnone by done. by apply decode_encodeHardState.
    - unfold snap_file. rewrite Hp by (by apply (bool_decide_unpack (_ ∉ _))). apply Hleft.
    - rewrite Hp by (by apply (bool_decide_unpack (_ ∉ _))). apply Hleft. }
  destruct (recover_left _ _ _ _ _ _ Hleft') as (d'' & Hrec & Hok'').
  exists e, d', d''. split; [done|]. split; [|done]. rewrite Hrec, Hview. by destruct e.
Qed.

Lemma hard_state_survives_crash_witness :
  disk_ok example_entries (example_disk [None; Some 5] None) ∧
  ∃ e d' d'', ds_SaveHardState 7 "n2" (example_disk [None; Some 5] None) = Val (e, d') ∧
    recover (crash d') = Val (inl (if e is Some _ then disk_view (example_disk [None; Some 5] None)
      else ps_save_hard 7 "n2" (disk_view (example_disk [None; Some 5] None))), d'') ∧
    disk_ok example_entries d''.
Proof.
  split; [apply example_ok|]. apply hard_state_survives_crash; [apply example_ok|disk_bounds..].
Defined.

(** What a snapshot interrupted at any system call leaves.  The next
    process finds the old state, or the snapshot with every later entry, or,
    when the process dies between installing the snapshot and installing the
    compacted log, the snapshot with no entry at all; the last two never
    without the snapshot, and a call that reported success is never undone. *)
Theorem snapshot_crash_outcomes es d lii lit data :
  disk_ok es d → (d_lastIncludedIndex d < lii)%N → (lii < two63)%N → (lit < two64)%N →
  snapshot_fits_disk data →
  ∃ e d' ps d'', ds_SaveSnapshot lii lit data d = Val (e, d') ∧ recover (crash d') = Val (inl ps, d'') ∧
    disk_sto_ok d'' ∧
    (e = None → ps = ps_snapshot lii lit data (disk_view d)) ∧
    (ps = disk_view d ∨ ps = ps_snapshot lii lit data (disk_view d) ∨
     ps = MkPersistent (CurrentTerm (disk_view d)) (VotedFor (disk_view d)) [boundary lii lit] data).
Proof.
  intros Hok Hlo Hlii Hlit Hfit. pose proof two63_lt_two64.
  destruct (wp_total _ _ _ (snapshot_left es d lii lit data Hok Hlo Hlii Hlit Hfit))
    as (e & d' & Hrun & Hh & Hcases).
  destruct (disk_ok_left _ _ Hok) as (hv & data0 & Hleft & Hview).
  rewrite (lo_hard _ _ _ _ _ _ Hleft) in Hh. pose proof (dk_bound _ _ Hok) as Hb.
  exists e, d'. destruct Hcases as [(Hs & He & Hw)|[(Hs & He & Hw)|(Hs & Hw)]].
  - destruct (recover_left hv (d_lastIncludedIndex d) (d_lastIncludedTerm d) data0 es d') as (d'' & Hrec & Hok'').
    { eapply left_same; [exact Hleft|rewrite Hh; symmetry; apply Hleft|done|]. rewrite Hw. symmetry. apply Hok. }
    eexists _, d''. split; [done|]. split; [done|]. split; [by eexists|]. split; [done|].
    left. by rewrite Hview.
  - assert (scan (S (length (records es))) (records es) 0 (u64_add lii 1) = ([], [], 0%N)) as Hscan.
    { eapply scan_mismatch; [apply Hok|apply Hok|]. rewrite u64_add_small by lia. lia. }
    assert (d_files d' !! walFileName = Some (records es)) as Hw' by done.
    pose proof (recover_files d' hv lii lit data [] [] 0 Hh Hs) as Hrec. cbv zeta in Hrec.
    rewrite Hw in Hrec. specialize (Hrec Hscan). eexists _, _. split; [done|]. split; [exact Hrec|].
    assert (disk_view d' = MkPersistent hv.1 hv.2 [boundary lii lit] data) as Hv'.
    { unfold disk_view. rewrite Hh, Hs, Hw. destruct hv. unfold default, id, wal_entries. by rewrite Hscan. }
    split; [|split; [done|right; right; by rewrite Hv', Hview]].
    exists []. split; cbn -[scan]; try done.
    + exists hv. unfold hard_file. rewrite lookup_insert_ne by done. exact Hh.
    + exists data. unfold snap_file. rewrite lookup_insert_ne by done. exact Hs.
    + by rewrite lookup_insert_eq.
    + lia.
  - rewrite <- (lo_hard _ _ _ _ _ _ Hleft) in Hh.
    destruct (compacted_left es d d' lii lit data Hok Hlo Hlii Hh Hs Hw) as [Hl' ->].
    destruct (recover_left _ _ _ _ _ _ Hl') as (d'' & Hrec & Hok'').
    eexists _, d''. split; [done|]. split; [done|]. split; [by eexists|]. split; [done|by right; left].
Qed.

Lemma snapshot_crash_outcomes_witness :
  disk_ok example_entries (example_disk [] None) ∧
  ∃ e d' ps d'', ds_SaveSnapshot 2 1 [Byte.x73] (example_disk [] None) = Val (e, d') ∧
    recover (crash d') = Val (inl ps, d'') ∧ disk_sto_ok d'' ∧
    (e = None → ps = ps_snapshot 2 1 [Byte.x73] (disk_view (example_disk [] None))) ∧
    (ps = disk_view (example_disk [] None) ∨
     ps = ps_snapshot 2 1 [Byte.x73] (disk_view (example_disk [] None)) ∨
     ps = MkPersistent (CurrentTerm (disk_view (example_disk [] None)))
            (VotedFor (disk_view (example_disk [] None))) [boundary 2 1] [Byte.x73]).
Proof.
  split; [apply example_ok|]. apply (snapshot_crash_outcomes example_entries); [apply example_ok|disk_bounds..].
Defined.

(** A crash during snapshot compaction loses durable entries.  With three
    entries durable, a snapshot at index 1 whose compaction is interrupted
    after the snapshot was installed makes the next process start with no
    entry after index 1: entries 2 and 3, which the storage had acknowledged,
    are gone from its log and from the file. *)
Theorem snapshot_crash_loses_tail :
  ∃ e d' d'', let d := example_disk (replicate 5 None ++ [Some 0]) None in
    disk_view d = MkPersistent 0 "" (boundary 0 0 :: example_entries) [] ∧
    ds_SaveSnapshot 1 1 [Byte.x73] d = Val (Some e, d') ∧
    recover (crash d') = Val (inl (MkPersistent 0 "" [boundary 1 1] [Byte.x73]), d'') ∧
    d_files d'' !! walFileName = Some [].
Proof.
  do 3 eexists. cbv zeta. split; [by vm_compute|]. split; [vm_compute; reflexivity|].
  split; [vm_compute; reflexivity|by vm_compute].
Qed.

(** A read error while [Load] scans the log destroys durable entries.  The
    scan takes it for the torn end of the file: [Load] reports success with
    the entries read so far and truncates the file there, so that the next
    load does not find the others either. *)
Theorem read_error_truncates_log :
  ∃ d' d'', let d := example_disk [] (Some 40) in
    ds_Load d = Val (inl (MkPersistent 0 "" [boundary 0 0; MkEntry 1 1 []] []), d') ∧
    recover (crash d) = Val (inl (MkPersistent 0 "" (boundary 0 0 :: example_entries) []), d'') ∧
    ds_Load d' = Val (inl (MkPersistent 0 "" [boundary 0 0; MkEntry 1 1 []] []), d').
Proof.
  do 2 eexists. cbv zeta. split; [vm_compute; reflexivity|].
  split; [vm_compute; reflexivity|by vm_compute].
Qed.

(** C22: recovery from arbitrary contents of the write-ahead log.  Whatever the
    file holds, a process that finds a readable hard state and snapshot loads
    the longest run of whole, checksummed records with consecutive indices from
    the start of the file: every other such run is a beginning of it.  It
    truncates the file to this run, and a further restart loads the same
    state. *)
Theorem recovery_repairs d hv lii lit data :
  hard_file (d_files d) = inl hv → snap_file (d_files d) = inl (lii, lit, data) →
  let c := default [] (d_files d !! walFileName) in
  (lii + 1 + N.of_nat (length c) ≤ two63)%N →
  ∃ es d' d'', recover (crash d) = Val (inl (MkPersistent hv.1 hv.2 (boundary lii lit :: es) data), d') ∧
    Forall disk_entry_fits es ∧ contiguous (lii + 1) es ∧ records es `prefix_of` c ∧
    (∀ es', Forall disk_entry_fits es' → contiguous (lii + 1) es' → records es' `prefix_of` c → es' `prefix_of` es) ∧
    d_files d' !! walFileName = Some (records es) ∧ disk_ok es d' ∧
    recover (crash d') = Val (inl (MkPersistent hv.1 hv.2 (boundary lii lit :: es) data), d'').
Proof.
  intros Hh Hs c Hb. pose proof two63_lt_two64.
  destruct (scan (S (length c)) c 0 (u64_add lii 1)) as [[es offs] end_] eqn:Hscan.
  destruct (scan_sound _ _ _ _ _ _ _ Hscan) as (Hf & -> & -> & Htk & Hle & Hc).
  rewrite u64_add_small in Hc by lia. pose proof (records_length_ge es) as Hlen.
  unfold records_len in Hle. rewrite Nat2N.id in Hle. specialize (Hc ltac:(lia)).
  pose proof (recover_files d hv lii lit data es _ _ Hh Hs Hscan) as Hrec. fold c in Hrec.
  rewrite N.add_0_l, Htk in Hrec.
  assert (disk_view d = MkPersistent hv.1 hv.2 (boundary lii lit :: es) data) as Hv.
  { unfold disk_view. rewrite Hh, Hs. destruct hv. cbn -[scan]. unfold wal_entries. fold c. by rewrite Hscan. }
  rewrite Hv in Hrec. match type of Hrec with _ = Val (_, ?x) => set (d' := x) in * end.
  assert (left_on_disk hv lii lit data es d') as Hleft.
  { split; cbn; try done.
    - unfold hard_file. by rewrite lookup_insert_ne.
    - unfold snap_file. by rewrite lookup_insert_ne.
    - exists []. rewrite app_nil_r, lookup_insert_eq. split; [done|by left].
    - lia. }
  destruct (recover_left _ _ _ _ _ _ Hleft) as (d'' & Hrec' & _).
  exists es, d', d''. split; [exact Hrec|]. split; [done|]. split; [done|].
  split; [exists (drop (N.to_nat (records_len es)) c); rewrite <- Htk; by rewrite take_drop|].
  split; [intros es' Hf' Hc' Hp; eapply scan_longest; [exact Hscan|done|by rewrite u64_add_small by lia|done|rewrite u64_add_small by lia; lia]|].
  split; [apply lookup_insert_eq|].
  split; [|exact Hrec'].
  split; cbn; try done; try apply Hleft.
  - exists hv. apply Hleft.
  - exists data. apply Hleft.
  - by rewrite lookup_insert_eq.
Qed.

(** A file with a damaged third record and garbage after it. *)
Definition damaged_disk : DiskStorage :=
  set_files {[ walFileName := take 70 (records example_entries) ++ replicate 40 Byte.x55 ]}
    (example_disk [] None).

Lemma recovery_repairs_witness :
  hard_file (d_files damaged_disk) = inl (0%N, "") ∧
  let c := default [] (d_files damaged_disk !! walFileName) in
  ∃ d' d'', recover (crash damaged_disk) = Val (inl (MkPersistent 0 "" (boundary 0 0 :: take 2 example_entries) []), d') ∧
    (∀ es', Forall disk_entry_fits es' → contiguous (0 + 1) es' → records es' `prefix_of` c → es' `prefix_of` take 2 example_entries) ∧
    d_files d' !! walFileName = Some (records (take 2 example_entries)) ∧
    recover (crash d') = Val (inl (MkPersistent 0 "" (boundary 0 0 :: take 2 example_entries) []), d'').
Proof.
  split; [done|]. cbv zeta.
  destruct (recovery_repairs damaged_disk (0%N, "") 0 0 []) as (es & d' & d'' & Hrec & _ & _ & _ & Hmax & Hfile & _ & Hrec');
    [done|done|by vm_compute|].
  assert (es = take 2 example_entries) as ->.
  { vm_compute in Hrec. injection Hrec as Hes _. by vm_compute. }
  exists d', d''. split; [exact Hrec|]. split; [exact Hmax|]. split; [exact Hfile|exact Hrec'].
Defined.

(** C23: a corrupted byte is detected.  If one byte of one record of the log,
    other than its length field, was changed, a restart keeps exactly the
    entries before that record and truncates the rest. *)
Theorem corruption_detected d hv lii lit data es e k x b rest :
  hard_file (d_files d) = inl hv → snap_file (d_files d) = inl (lii, lit, data) →
  d_files d !! walFileName = Some (records es ++ <[k := b]> (record e) ++ rest) →
  Forall disk_entry_fits es → contiguous (lii + 1) es → disk_entry_fits e →
  (lii + 1 + N.of_nat (length es) ≤ two63)%N →
  4 ≤ k → record e !! k = Some x → x ≠ b →
  ∃ d', recover (crash d) = Val (inl (MkPersistent hv.1 hv.2 (boundary lii lit :: es) data), d') ∧
    d_files d' !! walFileName = Some (records es).
Proof.
  intros Hh Hs Hw Hf Hc He Hb Hk Hx Hne. pose proof two63_lt_two64. pose proof (records_length_ge es) as Hlen.
  set (c := records es ++ <[k := b]> (record e) ++ rest) in *.
  assert (length es ≤ S (length c)) as Hfuel by (unfold c; rewrite length_app; lia).
  assert (scan (S (length c)) c 0 (u64_add lii 1) = (es, offsets_from 0 es, records_len es)) as Hscan.
  { unfold c at 2. rewrite u64_add_small by lia. rewrite scan_records by (done || lia).
    rewrite (scan_corrupt _ e k x b) by done. by rewrite !app_nil_r, N.add_0_l. }
  assert (default [] (d_files d !! walFileName) = c) as Hd by (by rewrite Hw).
  pose proof (recover_files d hv lii lit data es (offsets_from 0 es) (records_len es) Hh Hs) as Hrec.
  cbv zeta in Hrec. rewrite Hd in Hrec. specialize (Hrec Hscan).
  assert (disk_view d = MkPersistent hv.1 hv.2 (boundary lii lit :: es) data) as Hv.
  { unfold disk_view. rewrite Hh, Hs, Hd. destruct hv. unfold wal_entries. by rewrite Hscan. }
  rewrite Hv in Hrec. eexists. split; [exact Hrec|]. cbn [d_files]. rewrite lookup_insert_eq.
  unfold c, records_len. by rewrite Nat2N.id, take_app_length.
Qed.

Lemma corruption_detected_witness :
  ∃ d', recover (crash (set_files {[ walFileName := records [MkEntry 1 1 []] ++
      <[28 := Byte.x41]> (record (MkEntry 1 2 [Byte.x61])) ++ record (MkEntry 2 3 []) ]}
      (example_disk [] None))) = Val (inl (MkPersistent 0 "" [boundary 0 0; MkEntry 1 1 []] []), d') ∧
    d_files d' !! walFileName = Some (records [MkEntry 1 1 []]).
Proof.
  apply (corruption_detected _ (0%N, "") 0 0 [] [MkEntry 1 1 []] (MkEntry 1 2 [Byte.x61]) 28 Byte.x61 Byte.x41
    (record (MkEntry 2 3 []))); try done; try disk_bounds.
Defined.
