(* ===== verification/ShardMap.v ===== *)
(** * internal/shard: the shard map and the router

    shardmap.go and router.go.  Keys are compared as Go compares strings,
    byte by byte.  [sort.Slice] is the insertion sort Go runs on short slices;
    [partition_covers] holds for any sorted order.  Error texts omit the
    formatted values. *)
From S2P Require Import Prelude.

(** ** The order of keys *)
Definition klt (a b : string) : bool := String.ltb a b.

Lemma compare_lt_trans a b c :
  String.compare a b = Lt → String.compare b c = Lt → String.compare a c = Lt.
Proof.
  revert b c. induction a as [|x a IH]; intros [|y b] [|z c]; cbn; try done.
  unfold Ascii.compare.
  destruct (N.compare_spec (Ascii.N_of_ascii x) (Ascii.N_of_ascii y)),
    (N.compare_spec (Ascii.N_of_ascii y) (Ascii.N_of_ascii z)),
    (N.compare_spec (Ascii.N_of_ascii x) (Ascii.N_of_ascii z)); try done; try lia; eauto.
Qed.

Lemma klt_spec a b : klt a b = true ↔ String.compare a b = Lt.
Proof. unfold klt, String.ltb. by destruct (String.compare a b). Qed.

Lemma klt_irrefl a : klt a a = false.
Proof.
  apply not_true_is_false. rewrite klt_spec. pose proof (String.compare_antisym a a) as H.
  destruct (String.compare a a); done.
Qed.

Lemma klt_trans a b c : klt a b = true → klt b c = true → klt a c = true.
Proof. rewrite !klt_spec. apply compare_lt_trans. Qed.

Lemma klt_total a b : klt a b = true ∨ a = b ∨ klt b a = true.
Proof.
  rewrite !klt_spec, (String.compare_antisym b a).
  destruct (String.compare a b) eqn:E; cbn; auto. right; left. by apply String.compare_eq_iff.
Qed.

Lemma klt_empty a : klt a "" = false.
Proof. by destruct a. Qed.

Lemma klt_le_trans a b c : klt a b = true → klt c b = false → klt a c = true.
Proof.
  intros Hab Hcb. destruct (klt_total b c) as [Hbc|[<-|Hbc]]; [by eapply klt_trans|done|congruence].
Qed.

Lemma kle_trans a b c : klt b a = false → klt c b = false → klt c a = false.
Proof.
  intros Hba Hcb. apply not_true_is_false. intros Hca.
  by rewrite (klt_le_trans c a b Hca Hba) in Hcb.
Qed.

(** ** The map *)
Record Shard : Type := MkShard {
  ID : Z;
  Start : string;
  End_ : string;
  Replicas : list NodeID;
}.

#[export] Instance Shard_eq_dec : EqDecision Shard.
Proof. solve_decision. Defined.

Definition Contains (s : Shard) (key : string) : bool :=
  if klt key (Start s) then false
  else if bool_decide (End_ s = "") then true
  else klt key (End_ s).

Fixpoint insert_shard (s : Shard) (l : list Shard) : list Shard :=
  match l with
  | [] => [s]
  | x :: r => if klt (Start s) (Start x) then s :: x :: r else x :: insert_shard s r
  end.

Definition sort_shards (l : list Shard) : list Shard := foldl (λ acc s, insert_shard s acc) [] l.

(** The loop of [Validate] over the sorted shards. *)
Fixpoint check_shards (prev : option Shard) (seen : gset Z) (l : list Shard) : option error :=
  match l with
  | [] => None
  | s :: rest =>
      if bool_decide (ID s ∈ seen) then Some (Errorf "duplicate shard id") else
      if bool_decide (Replicas s = []) then Some (Errorf "shard has no replicas") else
      if negb (bool_decide (End_ s = "")) && negb (klt (Start s) (End_ s))
      then Some (Errorf "shard has an empty or inverted range") else
      match prev with
      | None =>
          if negb (bool_decide (Start s = ""))
          then Some (Errorf "the lowest shard does not start at the beginning of the keyspace")
          else if bool_decide (rest = []) && negb (bool_decide (End_ s = ""))
          then Some (Errorf "the highest shard does not extend to the end of the keyspace")
          else check_shards (Some s) ({[ID s]} ∪ seen) rest
      | Some p =>
          if bool_decide (rest = []) && negb (bool_decide (End_ s = ""))
          then Some (Errorf "the highest shard does not extend to the end of the keyspace")
          else if negb (bool_decide (End_ p = Start s))
          then Some (Errorf "gap or overlap between shards")
          else check_shards (Some s) ({[ID s]} ∪ seen) rest
      end
  end.

(** [Validate] sorts the shards in place. *)
Definition Validate (m : list Shard) : option error * list Shard :=
  match m with
  | [] => (Some (Errorf "no shards defined"), m)
  | _ => let m' := sort_shards m in (check_shards None ∅ m', m')
  end.

(** [raw] is the outcome of reading the file, [parse] encoding/json. *)
Definition LoadMap (parse : bytes → list Shard + error) (raw : bytes + error) : list Shard + error :=
  match raw with
  | inr err => inr (Wrapf "shard: reading config" err)
  | inl raw =>
      match parse raw with
      | inr err => inr (Wrapf "shard: parsing config" err)
      | inl m =>
          match Validate m with
          | (Some err, _) => inr (Wrapf "shard: config" err)
          | (None, m') => inl m'
          end
      end
  end.

Definition Lookup (m : list Shard) (key : string) : Shard + error :=
  match List.find (λ s, Contains s key) m with
  | Some s => inl s
  | None => inr (Errorf "shard: no shard covers key")
  end.

Definition Shard_by_id (m : list Shard) (id : Z) : Shard + error :=
  match List.find (λ s, (ID s =? id)%Z) m with
  | Some s => inl s
  | None => inr (Errorf "shard: no shard with id")
  end.

(** ** The router *)
Record Router : Type := MkRouter { r_shards : list Shard; r_leaders : gmap Z NodeID }.

Definition NewRouter (m : list Shard) : Router := MkRouter m ∅.
Definition ShardFor (r : Router) (key : string) : Shard + error := Lookup (r_shards r) key.
Definition Router_Leader (r : Router) (id : Z) : option NodeID := r_leaders r !! id.

Definition SetLeader (id : Z) (leader : NodeID) (r : Router) : Router :=
  if bool_decide (leader = "") then r else MkRouter (r_shards r) (<[id := leader]> (r_leaders r)).

Definition InvalidateLeader (id : Z) (r : Router) : Router :=
  MkRouter (r_shards r) (delete id (r_leaders r)).

Definition Candidates (r : Router) (s : Shard) : list NodeID :=
  match Router_Leader r (ID s) with
  | None => Replicas s
  | Some cached => cached :: filter (λ node, node ≠ cached) (Replicas s)
  end.

(** ** What a validated map is *)

(** Ranges chained end to start, the last one unbounded. *)
Fixpoint chained (start : string) (l : list Shard) : Prop :=
  match l with
  | [] => False
  | s :: rest =>
      Start s = start ∧ (End_ s ≠ "" → klt (Start s) (End_ s) = true) ∧
      match rest with
      | [] => End_ s = ""
      | _ => chained (End_ s) rest
      end
  end.

(** Only the last range is unbounded. *)
Fixpoint proper (l : list Shard) : Prop :=
  match l with
  | s :: (_ :: _) as rest => End_ s ≠ "" ∧ proper rest
  | _ => True
  end.

Lemma check_chained prev seen l :
  l ≠ [] → check_shards prev seen l = None →
  chained (match prev with None => "" | Some p => End_ p end) l ∧
  Forall (λ s, Replicas s ≠ []) l ∧ NoDup (ID <$> l) ∧ Forall (λ s, ID s ∉ seen) l.
Proof.
  revert prev seen. induction l as [|s rest IH]; intros prev seen Hne Hc; [done|]. cbn [check_shards] in Hc.
  destruct (bool_decide (ID s ∈ seen)) eqn:E1; [done|]. destruct (bool_decide (Replicas s = [])) eqn:E2; [done|].
  destruct (negb (bool_decide (End_ s = "")) && negb (klt (Start s) (End_ s))) eqn:E3; [done|].
  apply bool_decide_eq_false in E1, E2.
  assert (End_ s ≠ "" → klt (Start s) (End_ s) = true) as Hlt.
  { intros He. rewrite bool_decide_false in E3 by done. by destruct (klt (Start s) (End_ s)). }
  assert (Start s = match prev with None => "" | Some p => End_ p end ∧
    (rest = [] → End_ s = "") ∧ check_shards (Some s) ({[ID s]} ∪ seen) rest = None) as (Hstart & Hlast & Hrest).
  { destruct prev as [p|]; repeat case_bool_decide; cbn in Hc; try done; (split; [congruence|by split]). }
  destruct rest as [|s' rest].
  { cbn. split; [by split; [|split; [|apply Hlast]]|].
    repeat split; repeat constructor; auto. apply not_elem_of_nil. }
  destruct (IH (Some s) _ ltac:(done) Hrest) as (Hch & Hrep & Hnd & Hseen).
  split; [by split; [|split]|]. split; [by constructor|]. split.
  - rewrite fmap_cons. apply NoDup_cons. split; [|done].
    intros (x & Hx & Hin)%list_elem_of_fmap. rewrite Forall_forall in Hseen. apply (Hseen x Hin).
    rewrite Hx. apply elem_of_union_l. by apply elem_of_singleton.
  - constructor; [done|]. eapply Forall_impl; [done|]. intros x Hx Hin. apply Hx. by apply elem_of_union_r.
Qed.

Lemma chained_cons start s rest :
  chained start (s :: rest) ↔
    Start s = start ∧ (End_ s ≠ "" → klt (Start s) (End_ s) = true) ∧
    ((rest = [] ∧ End_ s = "") ∨ (rest ≠ [] ∧ chained (End_ s) rest)).
Proof. destruct rest as [|x rest]; cbn [chained]; intuition congruence. Qed.

Lemma chained_covers start l key :
  chained start l → klt key start = false → ∃ s, s ∈ l ∧ Contains s key = true.
Proof.
  revert start. induction l as [|s rest IH]; intros start; [done|].
  rewrite chained_cons. intros (<- & Hlt & Hrest) Hk.
  destruct (Contains s key) eqn:Hc; [by exists s; split; [left|]|].
  unfold Contains in Hc. rewrite Hk in Hc. case_bool_decide as He; [done|].
  destruct Hrest as [[_ ?]|[_ Hch]]; [done|]. destruct (IH _ Hch Hc) as (t & Ht & Hct).
  exists t. by split; [right|].
Qed.

Lemma chained_starts start l t : proper l → chained start l → t ∈ l → klt (Start t) start = false.
Proof.
  revert start. induction l as [|s rest IH]; intros start Hp; [done|].
  rewrite chained_cons. intros (<- & Hlt & Hrest) [->|Ht]%elem_of_cons; [apply klt_irrefl|].
  destruct Hrest as [[-> _]|[Hne Hch]]; [by apply not_elem_of_nil in Ht|].
  destruct rest as [|s' rest]; [done|]. destruct Hp as [He Hp].
  eapply kle_trans; [|by apply (IH _ Hp Hch)]. apply not_true_is_false. intros Hx.
  specialize (Hlt He). pose proof (klt_trans _ _ _ Hx Hlt) as Hy. by rewrite klt_irrefl in Hy.
Qed.

Lemma chained_disjoint start l s t key :
  proper l → chained start l → NoDup l → s ∈ l → t ∈ l →
  Contains s key = true → Contains t key = true → s = t.
Proof.
  revert start. induction l as [|x rest IH]; intros start Hp Hch Hnd Hs Ht Hcs Hct; [by apply not_elem_of_nil in Hs|].
  apply NoDup_cons in Hnd as [Hx Hnd]. apply chained_cons in Hch as (<- & Hlt & Hrest).
  assert (∀ y, y ∈ rest → Contains x key = true → Contains y key = true → False) as Hno.
  { intros y Hy Hcx Hcy. destruct Hrest as [[-> _]|[Hne Hch]]; [by apply not_elem_of_nil in Hy|].
    destruct rest as [|x' rest]; [done|]. destruct Hp as [He Hp].
    pose proof (chained_starts _ _ y Hp Hch Hy) as Hle.
    unfold Contains in Hcx, Hcy. destruct (klt key (Start x)); [done|].
    rewrite bool_decide_false in Hcx by done. destruct (klt key (Start y)) eqn:Hky; [done|].
    by rewrite (klt_le_trans _ _ _ Hcx Hle) in Hky. }
  apply elem_of_cons in Hs, Ht. destruct Hs as [->|Hs], Ht as [->|Ht]; [done|by destruct (Hno t)|by destruct (Hno s)|].
  destruct Hrest as [[-> _]|[Hne Hch]]; [by apply not_elem_of_nil in Hs|].
  destruct rest as [|x' rest]; [done|]. by eapply (IH (End_ x)); [apply Hp|..].
Qed.

Lemma insert_shard_perm s l : insert_shard s l ≡ₚ s :: l.
Proof.
  induction l as [|x l IH]; [done|]. cbn. destruct (klt (Start s) (Start x)); [done|].
  rewrite IH. by constructor.
Qed.

Lemma sort_shards_perm l : sort_shards l ≡ₚ l.
Proof.
  unfold sort_shards. assert (∀ acc, foldl (λ acc s, insert_shard s acc) acc l ≡ₚ l ++ acc) as H.
  { induction l as [|s l IH]; intros acc; [done|]. cbn. rewrite IH, insert_shard_perm. by rewrite Permutation_middle. }
  rewrite H. by rewrite app_nil_r.
Qed.

Lemma find_contains m key s :
  s ∈ m → Contains s key = true → ∃ t, Lookup m key = inl t ∧ t ∈ m ∧ Contains t key = true.
Proof.
  intros Hs Hc. unfold Lookup. destruct (List.find (λ s, Contains s key) m) as [t|] eqn:E.
  - apply List.find_some in E as [Ht Hct]. exists t. split; [done|]. split; [by apply list_elem_of_In|done].
  - eapply List.find_none in E; [|by apply list_elem_of_In]. congruence.
Qed.

(** C40: routing is total and unambiguous.  A map that [Validate] accepts is a
    reordering of the shards it was given, has replicas in every shard and a
    distinct identifier for each, and [Lookup] finds for every key a shard whose
    range contains it; when only the last range is unbounded above, no other
    shard contains that key. *)
Theorem lookup_unique m m' key :
  Validate m = (None, m') →
  m' ≡ₚ m ∧ Forall (λ s, Replicas s ≠ []) m' ∧ NoDup (ID <$> m') ∧
  ∃ s, Lookup m' key = inl s ∧ s ∈ m' ∧ Contains s key = true ∧
    (proper m' → ∀ t, t ∈ m' → Contains t key = true → t = s).
Proof.
  unfold Validate. destruct m as [|s0 m0]; [done|]. set (m := s0 :: m0). intros [= Hc <-].
  pose proof (sort_shards_perm m) as Hperm.
  assert (sort_shards m ≠ []) as Hne.
  { intros E. rewrite E in Hperm. by apply Permutation_nil_cons in Hperm. }
  destruct (check_chained None ∅ _ Hne Hc) as (Hch & Hrep & Hnd & _).
  split; [done|]. split; [done|]. split; [done|].
  destruct (chained_covers _ _ key Hch (klt_empty key)) as (s & Hs & Hcs).
  destruct (find_contains _ _ _ Hs Hcs) as (t & Ht & Hin & Hct). exists t.
  split; [done|]. split; [done|]. split; [done|]. intros Hp u Hu Hcu.
  eapply (chained_disjoint _ _ u t key Hp Hch); auto. by apply NoDup_fmap_1 in Hnd.
Qed.

Definition example_map : list Shard :=
  [MkShard 2 "m" "" ["n4"; "n5"]; MkShard 1 "" "m" ["n1"; "n2"; "n3"]].

Lemma lookup_unique_witness :
  Validate example_map = (None, rev example_map) ∧ proper (rev example_map) ∧
  ∃ s, Lookup (rev example_map) "key" = inl s ∧ s ∈ rev example_map ∧ Contains s "key" = true ∧
    (proper (rev example_map) → ∀ t, t ∈ rev example_map → Contains t "key" = true → t = s).
Proof.
  split; [by vm_compute|]. split; [by vm_compute|].
  destruct (lookup_unique example_map (rev example_map) "key" ltac:(by vm_compute)) as (_ & _ & _ & H).
  exact H.
Defined.

(** [Validate] accepts overlapping shards.  A range without an upper bound
    that is not the last one passes when the next shard starts at the beginning
    of the keyspace again: both shards of this map contain every key, and
    [Lookup] never routes to the second. *)
Theorem validate_accepts_overlap :
  ∃ s t, let m := [s; t] in Validate m = (None, m) ∧ ID s ≠ ID t ∧
    ∀ key, Contains s key = true ∧ Contains t key = true ∧ Lookup m key = inl s.
Proof.
  exists (MkShard 1 "" "" ["n1"]), (MkShard 2 "" "" ["n2"]). cbv zeta. split; [by vm_compute|].
  split; [done|]. intros key.
  assert (∀ i r, Contains (MkShard i "" "" r) key = true) as H
    by (intros; unfold Contains; cbn; by rewrite klt_empty).
  rewrite !H. unfold Lookup. cbn [List.find]. by rewrite H.
Qed.
