(* ===== verification/ShardClient.v ===== *)
(** * internal/shard/client.go: routing, retries and redirects

    [do] is a step machine: one step is one turn of its loops, and its input is
    what the turn finds out (whether the context is done, and how the node
    answers).  A run is a list of inputs, so every environment is one; the
    commands sent are recorded with the node they went to. *)
From S2P Require Import Prelude KVStore ShardMap.

(** How an attempt on one node ends: no handle ([Resolve] failed), a failed or
    timed out call, a reply. *)
Inductive Answer : Type :=
| NoHandle (err : error)
| CallFailed (err : error)
| Answered (reply : CommandReply).

Record Input : Type := MkInput { i_ctxDone : bool; i_answer : Answer }.

Definition context_error : error := Errorf "context done".

Record Client : Type := MkClient { cl_router : Router; cl_clientID : string; cl_seq : N }.

Definition NewClient (router : Router) (clientID : string) : Client := MkClient router clientID 0.

(** The program points of [do] for a request under way. *)
Inductive DoPc : Type :=
| PassTop                                     (* the check at the top of a pass *)
| Sweep (nodes : list NodeID)                 (* the nodes still to try in this pass *)
| DoneWith (r : CommandReply + error).        (* returned *)

Record Do : Type := MkDo {
  do_shard : Shard;
  do_cmd : KVCommand;
  do_router : Router;
  do_lastErr : option error;
  do_pc : DoPc;
  do_sent : list (NodeID * KVCommand);
}.

(** The command of one logical request; the endpoint called sets [Op]. *)
Definition new_command (c : Client) (op : Op) (key value : string) : KVCommand :=
  MkCommand (cl_clientID c) (u64_add (cl_seq c) 1) op key value.

(** [c.seq.Add(1)] *)
Definition bump_seq (c : Client) : Client :=
  MkClient (cl_router c) (cl_clientID c) (u64_add (cl_seq c) 1).

Definition do_start (c : Client) (op : Op) (key value : string) : (Do + error) * Client :=
  match ShardFor (cl_router c) key with
  | inr err => (inr err, c)
  | inl s => (inl (MkDo s (new_command c op key value) (cl_router c) None PassTop []), bump_seq c)
  end.

(** The four methods up to their call of [do]. *)
Definition start_get (c : Client) (key : string) := do_start c OP_GET key "".
Definition start_put (c : Client) (key value : string) := do_start c OP_PUT key value.
Definition start_append (c : Client) (key value : string) := do_start c OP_APPEND key value.
Definition start_delete (c : Client) (key : string) := do_start c OP_DELETE key "".

Definition at_pc (pc : DoPc) (d : Do) : Do :=
  MkDo (do_shard d) (do_cmd d) (do_router d) (do_lastErr d) pc (do_sent d).

(** One attempt on [node], the others of the pass being [rest]. *)
Definition attempt (node : NodeID) (rest : list NodeID) (a : Answer) (d : Do) : Do :=
  let id := ID (do_shard d) in
  match a with
  | NoHandle err => MkDo (do_shard d) (do_cmd d) (do_router d) (Some err) (Sweep rest) (do_sent d)
  | CallFailed err =>
      MkDo (do_shard d) (do_cmd d) (InvalidateLeader id (do_router d)) (Some err) (Sweep rest)
        (do_sent d ++ [(node, do_cmd d)])
  | Answered reply =>
      let sent := do_sent d ++ [(node, do_cmd d)] in
      if Success reply
      then MkDo (do_shard d) (do_cmd d) (SetLeader id node (do_router d)) (do_lastErr d)
             (DoneWith (inl reply)) sent
      else MkDo (do_shard d) (do_cmd d)
             (if negb (bool_decide (LeaderHint reply = ""))
              then SetLeader id (LeaderHint reply) (do_router d)
              else InvalidateLeader id (do_router d))
             (Some (Errorf (Error reply))) (Sweep rest) sent
  end.

(** One turn.  An empty pass, or one that finds the context done, ends with the
    wait for the backoff or the context, back at the top. *)
Definition do_step (i : Input) (d : Do) : Do :=
  match do_pc d with
  | PassTop =>
      if i_ctxDone i
      then at_pc (DoneWith (inr match do_lastErr d with
                                | Some err => Wrapf "shard: shard unavailable" err
                                | None => context_error
                                end)) d
      else at_pc (Sweep (Candidates (do_router d) (do_shard d))) d
  | Sweep [] => at_pc PassTop d
  | Sweep (node :: rest) =>
      if i_ctxDone i then at_pc PassTop d else attempt node rest (i_answer i) d
  | DoneWith _ => d
  end.

Definition do_run (inputs : list Input) (d : Do) : Do := foldl (λ d i, do_step i d) d inputs.

(** What the four methods make of the result of [do]. *)
Definition Client_Get (r : CommandReply + error) : (string * bool) + error :=
  match r with inl reply => inl (r_Value reply, Found reply) | inr err => inr err end.

Definition Client_write (r : CommandReply + error) : option error :=
  match r with inl _ => None | inr err => Some err end.

(** ** Lemmas *)

(** A turn keeps what the request is about. *)
Lemma do_step_fixed i d :
  do_shard (do_step i d) = do_shard d ∧ do_cmd (do_step i d) = do_cmd d ∧
  r_shards (do_router (do_step i d)) = r_shards (do_router d).
Proof.
  unfold do_step, attempt, SetLeader, InvalidateLeader.
  destruct (do_pc d) as [|[|node rest]|r]; repeat first [done | case_match]; try (by repeat case_bool_decide).
Qed.

(** It ends with a reply only if the node asked answered with it. *)
Lemma do_step_reply i d r :
  do_pc (do_step i d) = DoneWith (inl r) → do_pc d ≠ DoneWith (inl r) →
  ∃ node rest, do_pc d = Sweep (node :: rest) ∧ i_ctxDone i = false ∧ i_answer i = Answered r ∧ Success r = true.
Proof.
  unfold do_step. destruct (do_pc d) as [|[|node rest]|r0] eqn:Hpc; try done.
  - by destruct (i_ctxDone i).
  - destruct (i_ctxDone i); [done|]. destruct (i_answer i) as [err|err|reply]; cbn; try done.
    destruct (Success reply) eqn:Hs; cbn; [|done]. intros [= ->] _. by exists node, rest.
  - congruence.
Qed.

(** It ends without one only at the top of a pass. *)
Lemma do_step_failed i d err :
  do_pc (do_step i d) = DoneWith (inr err) → do_pc d ≠ DoneWith (inr err) → do_router (do_step i d) = do_router d.
Proof.
  unfold do_step. destruct (do_pc d) as [|[|node rest]|r0] eqn:Hpc; try done.
  - by destruct (i_ctxDone i).
  - destruct (i_ctxDone i); [done|]. destruct (i_answer i) as [e|e|reply]; cbn; try done.
    by destruct (Success reply).
Qed.

(** The cached leader first, then every replica of the shard, each once. *)
Lemma Candidates_complete r s node : node ∈ Replicas s → node ∈ Candidates r s.
Proof.
  intros Hn. unfold Candidates. destruct (Router_Leader r (ID s)) as [cached|]; [|done].
  destruct (decide (node = cached)) as [->|Hne]; [by left|]. right. by apply list_elem_of_filter.
Qed.

Lemma Candidates_NoDup r s : NoDup (Replicas s) → NoDup (Candidates r s).
Proof.
  intros Hn. unfold Candidates. destruct (Router_Leader r (ID s)) as [cached|]; [|done].
  constructor; [|by apply NoDup_filter]. by intros [? _]%list_elem_of_filter.
Qed.

(** What holds of every request under way that began as [d0]. *)
Record do_inv (d0 d : Do) : Prop := {
  di_shard : do_shard d = do_shard d0;
  di_cmd : do_cmd d = do_cmd d0;
  di_sent : Forall (λ x, x.2 = do_cmd d0) (do_sent d);
  di_done r : do_pc d = DoneWith (inl r) → Success r = true ∧
    ∃ node, last (do_sent d) = Some (node, do_cmd d0) ∧
      (node ≠ "" → Router_Leader (do_router d) (ID (do_shard d0)) = Some node);
}.

Lemma attempt_inv d0 node rest a d : do_inv d0 d → do_inv d0 (attempt node rest a d).
Proof.
  intros [Hs Hc Hsent _]. destruct a as [err|err|reply]; cbn [attempt].
  - by split.
  - split; cbn; try done. apply Forall_app. split; [done|]. by repeat constructor.
  - assert (Forall (λ x, x.2 = do_cmd d0) (do_sent d ++ [(node, do_cmd d)])) as Hsent'.
    { apply Forall_app. split; [done|]. by repeat constructor. }
    destruct (Success reply) eqn:E; split; cbn; try done. intros r [= <-]. split; [done|].
    exists node. split; [by rewrite last_snoc, Hc|]. intros Hne. unfold SetLeader, Router_Leader.
    rewrite bool_decide_false by done. cbn. rewrite Hs. apply lookup_insert_eq.
Qed.

Lemma do_step_inv d0 i d : do_inv d0 d → do_inv d0 (do_step i d).
Proof.
  intros Hi. unfold do_step. destruct (do_pc d) as [|[|node rest]|r] eqn:Hpc.
  - destruct Hi. destruct (i_ctxDone i); by split.
  - destruct Hi. by split.
  - destruct (i_ctxDone i); [destruct Hi; by split|by apply attempt_inv].
  - done.
Qed.

Lemma do_run_inv d0 inputs d : do_inv d0 d → do_inv d0 (do_run inputs d).
Proof. revert d. induction inputs as [|i is_ IH]; intros d Hi; [done|]. by apply IH, do_step_inv. Qed.

(** An input after which the request goes on. *)
Definition unsuccessful (i : Input) : Prop :=
  i_ctxDone i = false ∧ match i_answer i with Answered r => Success r = false | _ => True end.

Definition going (d : Do) : Prop := match do_pc d with DoneWith _ => False | _ => True end.

Lemma do_step_going i d : unsuccessful i → going d → going (do_step i d).
Proof.
  intros [Hc Ha] Hg. unfold do_step, going in *. destruct (do_pc d) as [|[|node rest]|r] eqn:Hpc; rewrite ?Hc; try done.
  - destruct (i_answer i) as [err|err|reply]; cbn; try done. by rewrite Ha.
Qed.

(** A pass over [nodes] asks each of them, unless it succeeds before. *)
Lemma sweep_asks d nodes inputs :
  do_pc d = Sweep nodes → length inputs = length nodes → Forall unsuccessful inputs →
  Forall (λ i, match i_answer i with NoHandle _ => False | _ => True end) inputs →
  do_pc (do_run inputs d) = Sweep [] ∧
  do_sent (do_run inputs d) = do_sent d ++ ((λ node, (node, do_cmd d)) <$> nodes).
Proof.
  revert d inputs. induction nodes as [|node nodes IH]; intros d [|i inputs] Hpc Hl Hu Hh; try done.
  { cbn. by rewrite app_nil_r. }
  inversion Hu as [|? ? [Hc Ha] Hu']; inversion Hh as [|? ? Hh1 Hh']; subst.
  assert (do_pc (do_step i d) = Sweep nodes ∧ do_cmd (do_step i d) = do_cmd d ∧
    do_sent (do_step i d) = do_sent d ++ [(node, do_cmd d)]) as (H1 & H2 & H3).
  { unfold do_step. rewrite Hpc, Hc. destruct (i_answer i) as [err|err|reply]; cbn; try done. by rewrite Ha. }
  cbn [do_run foldl]. destruct (IH (do_step i d) inputs H1 ltac:(by injection Hl) Hu' Hh') as [Hpc' Hs'].
  split; [exact Hpc'|]. unfold do_run in Hs'. rewrite Hs', H2, H3. by rewrite <- app_assoc.
Qed.

(** A request is sent as one command until it succeeds.  Whatever the nodes
    answer, every attempt of one request carries the same client identifier and
    the next sequence number; [do] returns a reply only if it reports success
    and is the answer of the last node asked, which the router then remembers;
    it returns an error only when the context ended; and it goes on as long as
    neither happens, each pass going over every replica of the shard. *)
Theorem do_retries c op key value d c' inputs :
  do_start c op key value = (inl d, c') →
  let d' := do_run inputs d in
  cl_seq c' = u64_add (cl_seq c) 1 ∧
  Forall (λ x, ClientId x.2 = cl_clientID c ∧ SeqNo x.2 = cl_seq c' ∧ Key x.2 = key ∧ Value x.2 = value)
    (do_sent d') ∧
  (∀ r, do_pc d' = DoneWith (inl r) → Success r = true ∧
     ∃ node, last (do_sent d') = Some (node, do_cmd d) ∧
       (node ≠ "" → Router_Leader (do_router d') (ID (do_shard d)) = Some node)) ∧
  (Forall unsuccessful inputs → going d') ∧
  (∀ node, node ∈ Replicas (do_shard d) → node ∈ Candidates (do_router d') (do_shard d)).
Proof.
  unfold do_start. destruct (ShardFor (cl_router c) key) as [s|]; [|done]. intros [= <- <-]. cbv zeta.
  set (d := MkDo _ _ _ _ _ _).
  assert (do_inv d d) as Hi0 by (split; try done; by constructor).
  pose proof (do_run_inv d inputs d Hi0) as Hi. split; [done|]. split; [|split; [|split]].
  - eapply Forall_impl; [apply (di_sent _ _ Hi)|]. by intros x ->.
  - apply (di_done _ _ Hi).
  - assert (going d) as Hg by done. clear Hi Hi0. revert Hg. generalize d as x.
    induction inputs as [|i is_ IH]; intros x Hg Hu; [done|]. inversion Hu; subst.
    apply IH; [by apply do_step_going|done].
  - intros node. apply Candidates_complete.
Qed.

Definition example_router : Router := NewRouter [MkShard 1 "" "" ["n1"; "n2"]].
Definition example_client : Client := NewClient example_router "c1".

Definition hinted : CommandReply := MkReply false "" false "not leader" "n2" 0.

Definition example_inputs : list Input :=
  [MkInput false (Answered hinted);
   MkInput false (Answered hinted);
   MkInput false (CallFailed context_error);
   MkInput false (Answered success_reply);
   MkInput false (Answered success_reply);
   MkInput false (Answered success_reply)].

Lemma do_retries_witness :
  ∃ d c', do_start example_client OP_PUT "k" "v" = (inl d, c') ∧
    do_pc (do_run example_inputs d) = DoneWith (inl success_reply) ∧
    Success success_reply = true ∧
    ∃ node, last (do_sent (do_run example_inputs d)) = Some (node, do_cmd d) ∧
      (node ≠ "" → Router_Leader (do_router (do_run example_inputs d)) (ID (do_shard d)) = Some node).
Proof.
  destruct (do_start example_client OP_PUT "k" "v") as [[d|err] c'] eqn:E; [|by vm_compute in E].
  exists d, c'. split; [done|].
  assert (Hpc : do_pc (do_run example_inputs d) = DoneWith (inl success_reply)).
  { vm_compute in E. injection E as <- <-. by vm_compute. }
  split; [exact Hpc|].
  destruct (do_retries example_client OP_PUT "k" "v" d c' example_inputs E) as (_ & _ & H & _ & _).
  by apply H.
Defined.

(** Concurrent writes of one client can be lost.  [Client] numbers its
    requests with an atomic counter, so two calls may run at once; if the second
    one's entry commits first, the store takes the first for an old duplicate:
    it answers success, [do] reports success, and the value is not there. *)
Theorem concurrent_writes_lost {codec : KVCodec} :
  ∃ d1 d2 c1 c2 reply,
    do_start example_client OP_PUT "k1" "a" = (inl d1, c1) ∧
    do_start c1 OP_PUT "k2" "b" = (inl d2, c2) ∧
    let s2 := (apply_cmd (do_cmd d2) NewStore).2 in
    let s1 := (apply_cmd (do_cmd d1) s2).2 in
    (apply_cmd (do_cmd d1) s2).1 = Some reply ∧ Success reply = true ∧
    do_pc (do_run [MkInput false (Answered reply); MkInput false (Answered reply)] d1) = DoneWith (inl reply) ∧
    Client_write (inl reply) = None ∧ data s1 !! "k1" = None.
Proof.
  do 5 eexists. split; [vm_compute; reflexivity|]. split; [vm_compute; reflexivity|]. cbv zeta.
  split; [vm_compute; reflexivity|]. by vm_compute.
Qed.
