(* ===== verification/ShardedStore.v ===== *)
(** * The sharded store is linearizable

    The whole system of internal/shard/cluster_test.go: a validated shard map,
    for each shard a cluster of key-value servers (ReplicatedStore), and clients
    of shard/client.go that share a router and have one request under way at a
    time.  The histories they record over all shards are linearizable: every
    shard's cluster looks atomic (Linearizability), and Locality puts the shards
    together.  A request is answered by the server the resolver finds under the
    name asked, of whatever group that is ([heard]); what else happens to it (no
    handle, a timeout, an error, a crash of the server) is left open.  That the
    names a client asks are always those of servers of the key's own shard, hints
    and cached leaders included, is part of the invariant. *)
From S2P Require Import Prelude RaftTypes MemoryStorage RaftNode RaftVotes RaftCluster RaftElection RaftLog RaftReplicate RaftService RaftHistory RaftCompaction RaftReplication RaftMoves RaftInvariant RaftSafety RaftOrigins RaftLeaders RaftAgreement KVStore History Locality KVServer KVServerProperties LogStore ReplicatedStore ReplicatedInvariant ReplicatedProperties ReplicatedHints Linearizability ShardMap ShardClient.

Section Model.
Context {S : Type} `{StorageSpec S} {codec : KVCodec}.

(** The configuration of each shard's cluster, by shard id. *)
Variable cfg_of : Z → NodeID → Config.
Variable addrs_of : Z → NodeID → gmap NodeID string.

(** The [Resolver]: the shard and the member of its cluster whose server a name
    stands for. *)
Variable resolve : NodeID → option (Z * NodeID).

(** A shard's cluster; [g_times] is history, as in Linearizability. *)
Record Group : Type := MkGroup { g_store : KWorld S; g_times : list Z }.

(** A client: the numbers it has used and the request under way. *)
Record Session : Type := MkSession { se_seq : N; se_do : option Do }.

Record ShWorld : Type := MkShWorld {
  sw_groups : gmap Z Group;
  sw_now : Z;
  sw_router : Router;
  sw_sessions : gmap string Session;
  sw_ops : gmap N ClientOp;
  sw_history : History;
  sw_recorded : list (N * Operation);
}.

Definition home (m : list Shard) (key : string) : option Z :=
  match Lookup m key with inl s => Some (ID s) | inr _ => None end.

(** The operations on keys of shard [i]. *)
Definition ops_of (m : list Shard) (i : Z) (ops : gmap N ClientOp) : gmap N ClientOp :=
  filter (λ x, home m (in_Key (op_input x.2)) = Some i) ops.

(** The method a test calls for an operation. *)
Definition start_request (c : Client) (inp : KVInput) : option ((Do + error) * Client) :=
  match in_Op inp with
  | KVGet => Some (start_get c (in_Key inp))
  | KVPut => Some (start_put c (in_Key inp) (in_Value inp))
  | KVAppend => Some (start_append c (in_Key inp) (in_Value inp))
  | KVOther _ => None
  end.

(** One turn of [do] on the router all clients share. *)
Definition with_router (r : Router) (d : Do) : Do :=
  MkDo (do_shard d) (do_cmd d) r (do_lastErr d) (do_pc d) (do_sent d).

Definition turn (r : Router) (i : ShardClient.Input) (d : Do) : Do := do_step i (with_router r d).

(** An answer comes from the server the name asked stands for, which has given
    it to this command. *)
Definition heard (gs : gmap Z Group) (d : Do) (i : ShardClient.Input) : Prop :=
  match do_pc d, i_answer i with
  | Sweep (name :: _), Answered r =>
      ∃ j p G P k, resolve name = Some (j, p) ∧ gs !! j = Some G ∧ running (g_store G) p P ∧
        p_calls P !! k = Some (Returned (do_cmd d) (inl r))
  | _, _ => True
  end.

(** What a test records of a reply. *)
Definition recorded_output (inp : KVInput) (reply : CommandReply) : string :=
  if is_read inp then match Client_Get (inl reply) with inl (v, _) => v | inr _ => "" end else "".

Inductive shard_step : ShWorld → ShWorld → Prop :=
| sh_time t' gs t r ss ops h rs :
    (t ≤ t')%Z → (t' - h_start h ≤ maxInt64)%Z →
    shard_step (MkShWorld gs t r ss ops h rs) (MkShWorld gs t' r ss ops h rs)
| sh_store i G K' gs t r ss ops h rs :
    gs !! i = Some G → kstep (cfg_of i) (addrs_of i) (g_store G) K' →
    calls_running (ops_of (r_shards r) i ops) (g_store G) K' →
    shard_step (MkShWorld gs t r ss ops h rs)
      (MkShWorld (<[i := MkGroup K' (g_times G ++ replicate (length (kw_log K') - length (kw_log (g_store G))) (Now t h))]> gs)
         t r ss ops h rs)
| sh_begin name se inp d c' recorder gs t r ss ops h rs :
    ss !! name = Some se → se_do se = None → (se_seq se + 1 < two64)%N →
    start_request (MkClient r name (se_seq se)) inp = Some (inl d, c') →
    shard_step (MkShWorld gs t r ss ops h rs)
      (MkShWorld gs t r (<[name := MkSession (cl_seq c') (Some d)]> ss)
         (<[call_id (do_cmd d) := MkOp (MkCall recorder (Now t h) inp OpRunning) (do_cmd d)]> ops) h rs)
| sh_turn name se d i gs t r ss ops h rs :
    ss !! name = Some se → se_do se = Some d → heard gs d i → going (turn r i d) →
    shard_step (MkShWorld gs t r ss ops h rs)
      (MkShWorld gs t (do_router (turn r i d)) (<[name := MkSession (se_seq se) (Some (turn r i d))]> ss) ops h rs)
| sh_return name se d i reply op h' o gs t r ss ops h rs :
    ss !! name = Some se → se_do se = Some d → heard gs d i → do_pc (turn r i d) = DoneWith (inl reply) →
    ops !! call_id (do_cmd d) = Some op →
    Complete t (ca_client (op_call op)) (ca_call (op_call op)) (op_input op) (recorded_output (op_input op) reply) h =
      Val ((), h') →
    last (h_ops h') = Some o →
    shard_step (MkShWorld gs t r ss ops h rs)
      (MkShWorld gs t (do_router (turn r i d)) (<[name := MkSession (se_seq se) None]> ss)
         (<[call_id (do_cmd d) := settle OpRecorded op]> ops) h' (rs ++ [(call_id (do_cmd d), o)]))
| sh_pending name se d i err op h' o gs t r ss ops h rs :
    ss !! name = Some se → se_do se = Some d → do_pc (turn r i d) = DoneWith (inr err) →
    ops !! call_id (do_cmd d) = Some op → is_read (op_input op) = false →
    Pending (ca_client (op_call op)) (ca_call (op_call op)) (op_input op) h = Val ((), h') →
    last (h_ops h') = Some o →
    shard_step (MkShWorld gs t r ss ops h rs)
      (MkShWorld gs t (do_router (turn r i d)) (<[name := MkSession (se_seq se) None]> ss)
         (<[call_id (do_cmd d) := settle OpRecorded op]> ops) h' (rs ++ [(call_id (do_cmd d), o)]))
| sh_drop name se d i err op gs t r ss ops h rs :
    ss !! name = Some se → se_do se = Some d → do_pc (turn r i d) = DoneWith (inr err) →
    ops !! call_id (do_cmd d) = Some op → is_read (op_input op) = true →
    shard_step (MkShWorld gs t r ss ops h rs)
      (MkShWorld gs t (do_router (turn r i d)) (<[name := MkSession (se_seq se) None]> ss)
         (<[call_id (do_cmd d) := settle OpDropped op]> ops) h rs).

(** The clusters, freshly started, and clients that have not called yet. *)
Definition fresh_shworld (m : list Shard) (stores : gmap Z (KWorld S)) (names : gset string) (t : Z) : ShWorld :=
  MkShWorld ((λ K, MkGroup K []) <$> stores) t (NewRouter m) (gset_to_gmap (MkSession 0 None) names) ∅ (NewHistory t) [].

(** The history is looked at when no write is under way. *)
Definition shards_settled (W : ShWorld) : Prop :=
  ∀ id op, sw_ops W !! id = Some op → op_status op = OpRunning → is_read (op_input op) = true.
End Model.

Arguments Group S : clear implicits.
Arguments ShWorld S : clear implicits.
#[local] Arguments records_of : simpl never.
#[local] Arguments ops_of : simpl never.

(** ** Operations of one shard *)
Section Parts.
Context {codec : KVCodec}.
Variable m : list Shard.
Implicit Types (ops : gmap N ClientOp) (op : ClientOp).

Definition op_home op : option Z := home m (in_Key (op_input op)).

Lemma ops_of_lookup i ops id op : ops_of m i ops !! id = Some op ↔ ops !! id = Some op ∧ op_home op = Some i.
Proof. unfold ops_of. apply map_lookup_filter_Some. Qed.

Lemma ops_of_here i ops id op : op_home op = Some i → ops_of m i (<[id := op]> ops) = <[id := op]> (ops_of m i ops).
Proof. intros Hh. unfold ops_of. by rewrite map_filter_insert_True. Qed.

Lemma ops_of_elsewhere i ops id op :
  op_home op ≠ Some i → (∀ op', ops !! id = Some op' → op_home op' ≠ Some i) →
  ops_of m i (<[id := op]> ops) = ops_of m i ops.
Proof. intros Hh Hold. unfold ops_of. apply map_filter_insert_not'; [exact Hh|]. intros op' Hop'. by apply Hold. Qed.

Lemma ops_of_calls i ops : op_call <$> ops_of m i ops = calls_of (home m) i (op_call <$> ops).
Proof. unfold ops_of, calls_of. by rewrite map_filter_fmap. Qed.

Lemma records_here i rs id o :
  home m (in_Key (o_Input o)) = Some i → records_of (home m) i (rs ++ [(id, o)]) = records_of (home m) i rs ++ [(id, o)].
Proof. intros Hh. unfold records_of. rewrite filter_app. f_equal. by rewrite filter_cons, decide_True. Qed.

Lemma records_elsewhere i rs id o :
  home m (in_Key (o_Input o)) ≠ Some i → records_of (home m) i (rs ++ [(id, o)]) = records_of (home m) i rs.
Proof. intros Hh. unfold records_of. rewrite filter_app, filter_cons, decide_False by done. by rewrite app_nil_r. Qed.
End Parts.

(** ** The invariant *)
Section Sharded.
Context {S : Type} `{StorageSpec S} {codec : KVCodec} {spec : KVCodecSpec}.
Variable m : list Shard.
Variable members : Z → list NodeID.
Variable cfg_of : Z → NodeID → Config.
Variable addrs_of : Z → NodeID → gmap NodeID string.
Variable resolve : NodeID → option (Z * NodeID).
Implicit Types (W : ShWorld S) (G : Group S) (ops : gmap N ClientOp) (op : ClientOp) (r : Router) (se : Session).
Hypothesis Hwf : ∀ s, s ∈ m → cluster_wf (S := S) (members (ID s)) (cfg_of (ID s)).
Hypothesis Hodd : ∀ s, s ∈ m → Nat.Odd (length (members (ID s))).

(** [name] stands for a server of shard [i], if for any. *)
Definition belongs (i : Z) (name : NodeID) : Prop := ∀ j p, resolve name = Some (j, p) → j = i.

(** How a deployment is set up: the map lists servers of the shard, and so do
    the addresses its servers are given (members' names where they are not). *)
Record resolver_ok : Prop := {
  rv_replicas s name : s ∈ m → name ∈ Replicas s → belongs (ID s) name;
  rv_hints s p name : s ∈ m → may_name (members (ID s)) (addrs_of (ID s) p) name → name ≠ "" → belongs (ID s) name;
}.
Hypothesis Hres : resolver_ok.

(** What one shard's cluster and clients have seen. *)
Definition part (i : Z) G W : CWorld S :=
  MkCWorld (g_store G) (sw_now W) (ops_of m i (sw_ops W)) (history_of (home m) i (sw_history W) (sw_recorded W))
    (records_of (home m) i (sw_recorded W)) (g_times G).

(** The leaders in the cache are their shards'. *)
Definition cached_ok r : Prop := ∀ i l, r_leaders r !! i = Some l → belongs i l.

(** A client's request under way is its only running operation. *)
Record session_ok (name : string) se ops : Prop := {
  ss_seq : (se_seq se < two64)%N;
  ss_mine id op : ops !! id = Some op → ClientId (op_cmd op) = name →
    (SeqNo (op_cmd op) ≤ se_seq se)%N ∧ (op_status op = OpRunning → ∃ d, se_do se = Some d ∧ do_cmd d = op_cmd op);
  ss_do d : se_do se = Some d → going d ∧ ClientId (do_cmd d) = name ∧ Lookup m (Key (do_cmd d)) = inl (do_shard d) ∧
    ∃ op, ops !! call_id (do_cmd d) = Some op ∧ op_cmd op = do_cmd d ∧ op_status op = OpRunning;
  ss_asked d nodes : se_do se = Some d → do_pc d = Sweep nodes → Forall (belongs (ID (do_shard d))) nodes;
}.

Record op_ok (id : N) op : Prop := {
  ok_id : id = call_id (op_cmd op);
  ok_request : request (ClientId (op_cmd op)) (SeqNo (op_cmd op)) (op_input op) = Some (op_cmd op);
  ok_home : ∃ s, Lookup m (in_Key (op_input op)) = inl s;
}.

Record ShInv W : Prop := {
  sh_router : r_shards (sw_router W) = m;
  sh_groups s : s ∈ m → is_Some (sw_groups W !! ID s);
  sh_sessions name se : sw_sessions W !! name = Some se → session_ok name se (sw_ops W);
  sh_ops id op : sw_ops W !! id = Some op → op_ok id op;
  sh_records id o : (id, o) ∈ sw_recorded W → ∃ op, sw_ops W !! id = Some op ∧ o_Input o = op_input op;
  sh_history : h_ops (sw_history W) = (sw_recorded W).*2;
  sh_now : (0 ≤ Now (sw_now W) (sw_history W) ≤ maxInt64)%Z;
  sh_parts i G : (∃ s, s ∈ m ∧ ID s = i) → sw_groups W !! i = Some G → ∃ reads, CInv (members i) (cfg_of i) reads (part i G W);
  sh_cached : cached_ok (sw_router W);
  sh_hinted i G : (∃ s, s ∈ m ∧ ID s = i) → sw_groups W !! i = Some G → hints_ok (members i) (addrs_of i) (g_store G);
}.

Lemma Lookup_in key s : Lookup m key = inl s → s ∈ m.
Proof.
  unfold Lookup. destruct (List.find _ m) as [s'|] eqn:Hf; [|done]. intros [= ->].
  apply List.find_some in Hf as [Hin _]. by apply list_elem_of_In.
Qed.

Lemma home_shard key s : Lookup m key = inl s → home m key = Some (ID s).
Proof. unfold home. by intros ->. Qed.

(** A step of one shard's clients, or none. *)
Definition part_moves (i : Z) G G' W W' : Prop :=
  part i G' W' = part i G W ∨ client_step (cfg_of i) (addrs_of i) (part i G W) (part i G' W').

Lemma parts_move W W' :
  (∀ i G', sw_groups W' !! i = Some G' → ∃ G, sw_groups W !! i = Some G ∧ part_moves i G G' W W') →
  (∀ i G, (∃ s, s ∈ m ∧ ID s = i) → sw_groups W !! i = Some G → ∃ reads, CInv (members i) (cfg_of i) reads (part i G W)) →
  ∀ i G', (∃ s, s ∈ m ∧ ID s = i) → sw_groups W' !! i = Some G' → ∃ reads, CInv (members i) (cfg_of i) reads (part i G' W').
Proof.
  intros Hmv Hp i G' Hi HG'. destruct (Hmv _ _ HG') as (G & HG & Hor). destruct (Hp i G Hi HG) as [reads HC].
  destruct Hor as [->|Hst]; [by exists reads|]. destruct Hi as (s & Hs & <-).
  exact (client_step_inv (members (ID s)) (cfg_of (ID s)) (addrs_of (ID s)) (Hwf s Hs) (Hodd s Hs) reads _ _ Hst HC).
Qed.

(** *** A new request *)
Lemma start_request_inv r name seq inp d c' :
  r_shards r = m → (seq + 1 < two64)%N → start_request (MkClient r name seq) inp = Some (inl d, c') →
  cl_seq c' = (seq + 1)%N ∧ do_pc d = PassTop ∧ Lookup m (in_Key inp) = inl (do_shard d) ∧ Key (do_cmd d) = in_Key inp ∧
  ClientId (do_cmd d) = name ∧ SeqNo (do_cmd d) = (seq + 1)%N ∧ request name (seq + 1) inp = Some (do_cmd d).
Proof.
  intros Hr Hs. unfold start_request, start_get, start_put, start_append, do_start, ShardFor, request, command_of, new_command, bump_seq.
  cbn [cl_router cl_clientID cl_seq]. rewrite Hr, u64_add_small by done.
  destruct inp as [[| | |z] key v]; cbn; [..|done]; destruct (Lookup m key) as [s|]; try done;
    intros [= <- <-]; by split_and!.
Qed.

(** The client's earlier operations are over, and it has not used the number. *)
Lemma idle_before name se ops id op :
  session_ok name se ops → se_do se = None → ops !! id = Some op → ClientId (op_cmd op) = name →
  (SeqNo (op_cmd op) < se_seq se + 1)%N ∧ op_status op ≠ OpRunning.
Proof.
  intros Hse Hnone Hop Hc. destruct (ss_mine _ _ _ Hse _ _ Hop Hc) as [Hle Hrun]. split; [lia|].
  intros Hst. destruct (Hrun Hst) as (d & Hd & _). congruence.
Qed.

Lemma fresh_id name se ops c :
  session_ok name se ops → (∀ id op, ops !! id = Some op → op_ok id op) → ClientId c = name → SeqNo c = (se_seq se + 1)%N →
  ops !! call_id c = None.
Proof.
  intros Hse Hok Hc Hs. destruct (ops !! call_id c) as [op|] eqn:Hop; [|done].
  destruct (call_id_inj _ _ (ok_id _ _ (Hok _ _ Hop))) as [Ec Es].
  destruct (ss_mine _ _ _ Hse _ _ Hop ltac:(congruence)) as [Hle _]. lia.
Qed.

(** Sessions when one operation is set to [op]. *)
Lemma session_other name se ops id op :
  session_ok name se ops → ClientId (op_cmd op) ≠ name → (∀ op0, ops !! id = Some op0 → op_cmd op0 = op_cmd op) →
  (id = call_id (op_cmd op)) → session_ok name se (<[id := op]> ops).
Proof.
  intros [Hq Hm Hd Has] Hne Hold Hid. split; [done| | |done].
  - intros id1 op1 [[<- <-]|[_ Hop1]]%lookup_insert_Some; [congruence|by apply (Hm id1)].
  - intros d Hsd. destruct (Hd d Hsd) as (? & Hc & ? & op1 & Hop1 & ?). split_and!; try done. exists op1.
    rewrite lookup_insert_ne; [done|]. rewrite Hid. intros E%call_id_inj. destruct E. congruence.
Qed.

Lemma begin_case name se inp d c' recorder gs t r ss ops h rs :
  let W := MkShWorld gs t r ss ops h rs in
  ShInv W → ss !! name = Some se → se_do se = None → (se_seq se + 1 < two64)%N →
  start_request (MkClient r name (se_seq se)) inp = Some (inl d, c') →
  ShInv (MkShWorld gs t r (<[name := MkSession (cl_seq c') (Some d)]> ss)
    (<[call_id (do_cmd d) := MkOp (MkCall recorder (Now t h) inp OpRunning) (do_cmd d)]> ops) h rs).
Proof.
  intros W [Hr Hg Hss Hops Hrec Hh Hn Hp Hca Hhi] Hse Hnone Hlt Hst. cbn in *.
  destruct (start_request_inv _ _ _ _ _ _ Hr Hlt Hst) as (Eseq & Hpc0 & Hlk & Hkey & Hcl & Hsq & Hreq).
  assert (going d) as Hgo by (unfold going; by rewrite Hpc0).
  pose proof (Hss _ _ Hse) as Hsk. pose proof (fresh_id _ _ _ _ Hsk Hops Hcl Hsq) as Hfr.
  rewrite Eseq. set (op := MkOp (MkCall recorder (Now t h) inp OpRunning) (do_cmd d)).
  split; [done|done|cbn|cbn|cbn|done|done| |done|done].
  - intros name1 se1 [[<- <-]|[Hne Hse1]]%lookup_insert_Some.
    + split; cbn; [done| | |by intros d1 nodes [= <-]; rewrite Hpc0].
      * intros id1 op1 [[<- <-]|[_ Hop1]]%lookup_insert_Some Hc1; [cbn; rewrite Hsq; split; [lia|]; by exists d|].
        destruct (idle_before _ _ _ _ _ Hsk Hnone Hop1 Hc1) as [? ?]. split; [lia|done].
      * intros d1 [= <-]. split; [done|]. split; [done|]. split; [by rewrite Hkey|]. exists op. by rewrite lookup_insert_eq.
    + apply session_other; [by apply Hss|cbn; congruence| |done]. intros op0 Hop0. congruence.
  - intros id1 op1 [[<- <-]|[_ Hop1]]%lookup_insert_Some; [|by apply Hops].
    split; cbn; [done|by rewrite Hcl, Hsq|by exists (do_shard d)].
  - intros id o Ho. destruct (Hrec _ _ Ho) as (op1 & Hop1 & Hi). exists op1. rewrite lookup_insert_ne; [done|]. congruence.
  - eapply (parts_move W); [|exact Hp]. intros i G HG. exists G. split; [done|]. unfold part_moves, part. cbn.
    destruct (decide (op_home m op = Some i)) as [Hi|Hi].
    + right. rewrite ops_of_here by done. refine (cl_begin _ _ name (se_seq se + 1) inp (do_cmd d) recorder _ _ _ _ _ _ Hreq _).
      intros id1 op1 [Hop1 _]%ops_of_lookup Hc1. by eapply idle_before.
    + left. rewrite ops_of_elsewhere; [done|done|]. intros op'. congruence.
Qed.

(** *** A request ends *)

(** The operation of a request under way. *)
Lemma session_op name se d ops :
  session_ok name se ops → se_do se = Some d →
  ∃ op, ops !! call_id (do_cmd d) = Some op ∧ op_cmd op = do_cmd d ∧ op_status op = OpRunning ∧ ClientId (do_cmd d) = name.
Proof. intros Hs Hd. destruct (ss_do _ _ _ Hs _ Hd) as (_ & ? & _ & op & ? & ? & ?). by exists op. Qed.

Lemma session_settled name se d op st ops :
  session_ok name se ops → (∀ id op, ops !! id = Some op → op_ok id op) → se_do se = Some d →
  ops !! call_id (do_cmd d) = Some op → st ≠ OpRunning →
  session_ok name (MkSession (se_seq se) None) (<[call_id (do_cmd d) := settle st op]> ops).
Proof.
  intros [Hq Hm Hd _] Hok Hse Hop Hst. split; [done| |done|done]. cbn.
  intros id1 op1 [[<- <-]|[Hne Hop1]]%lookup_insert_Some Hc.
  - cbn in *. by destruct (Hm _ _ Hop Hc).
  - destruct (Hm _ _ Hop1 Hc) as [Hle Hrun]. split; [done|]. intros Hr1. destruct (Hrun Hr1) as (d1 & Hd1 & E).
    rewrite Hse in Hd1. injection Hd1 as <-. destruct Hne. rewrite E. symmetry. apply (ok_id _ _ (Hok _ _ Hop1)).
Qed.

Lemma settle_case name se d op st r' h' rs' gs t r ss ops h rs :
  let W := MkShWorld gs t r ss ops h rs in
  let id := call_id (do_cmd d) in
  let W' := MkShWorld gs t r' (<[name := MkSession (se_seq se) None]> ss) (<[id := settle st op]> ops) h' rs' in
  ShInv W → ss !! name = Some se → se_do se = Some d → ops !! id = Some op → st ≠ OpRunning →
  r_shards r' = m → cached_ok r' → h_start h' = h_start h → h_ops h' = rs'.*2 →
  (∀ x, x ∈ rs' → x ∈ rs ∨ x.1 = id ∧ o_Input x.2 = op_input op) →
  (∀ i G, gs !! i = Some G → part_moves i G G W W') → ShInv W'.
Proof.
  intros W id W' [Hr Hg Hss Hops Hrec Hh Hn Hp Hca Hhi] Hse Hd Hop Hst Hr' Hca' Hstart Hh' Hrs Hmv. cbn in *.
  destruct (session_op _ _ _ _ (Hss _ _ Hse) Hd) as (op1 & Hop1 & Hcmd & Hrun & Hcl).
  fold id in Hop1. rewrite Hop in Hop1. injection Hop1 as <-.
  split; [done|done|cbn|cbn|cbn|done|by unfold Now in *; cbn; rewrite Hstart| |done|done].
  - intros name1 se1 [[<- <-]|[Hne Hse1]]%lookup_insert_Some; [apply session_settled; try done; by apply Hss|].
    apply session_other; [by apply Hss|cbn; congruence| |cbn; by rewrite Hcmd]. intros op0 Hop0. cbn. congruence.
  - intros id1 op1 [[<- <-]|[_ Hop1]]%lookup_insert_Some; [|by apply Hops]. by destruct (Hops _ _ Hop).
  - intros id1 o [Ho|[E Hi]]%Hrs.
    + destruct (Hrec _ _ Ho) as (op1 & Hop1 & Hi). destruct (decide (id = id1)) as [<-|Hne].
      * exists (settle st op). rewrite lookup_insert_eq. split; [done|]. rewrite Hop in Hop1. injection Hop1 as <-. exact Hi.
      * exists op1. by rewrite lookup_insert_ne.
    + cbn in E, Hi. subst id1. exists (settle st op). by rewrite lookup_insert_eq.
  - eapply (parts_move W); [|exact Hp]. intros i G HG. exists G. split; [done|by apply Hmv].
Qed.

(** A shard that is not concerned by a request. *)
Lemma settle_elsewhere i G op st r' id o gs t r ss ss' ops h rs :
  ops !! id = Some op → op_home m op ≠ Some i → o_Input o = op_input op →
  part i G (MkShWorld gs t r' ss' (<[id := settle st op]> ops) (MkHistory (h_start h) (h_ops h ++ [o])) (rs ++ [(id, o)])) =
  part i G (MkShWorld gs t r ss ops h rs).
Proof.
  intros Hop Hi Ho. unfold part. cbn. rewrite ops_of_elsewhere; [|done|congruence].
  unfold history_of. cbn. by rewrite records_elsewhere by (by rewrite Ho).
Qed.

(** The turn in which a request ends. *)
Lemma turn_fixed r i d :
  do_shard (turn r i d) = do_shard d ∧ do_cmd (turn r i d) = do_cmd d ∧ r_shards (do_router (turn r i d)) = r_shards r.
Proof. apply (do_step_fixed i (with_router r d)). Qed.

(** The names asked for a request, and what is cached of them, stay its shard's. *)
Definition asks d : Prop := do_shard d ∈ m ∧ ∀ nodes, do_pc d = Sweep nodes → Forall (belongs (ID (do_shard d))) nodes.

Lemma session_asks name se d ops : session_ok name se ops → se_do se = Some d → asks d.
Proof.
  intros Hs Hd. destruct (ss_do _ _ _ Hs _ Hd) as (_ & _ & Hlk & _). split; [by eapply Lookup_in|].
  intros nodes. by apply (ss_asked _ _ _ Hs).
Qed.

Lemma set_leader_ok i l r : cached_ok r → (l ≠ "" → belongs i l) → cached_ok (SetLeader i l r).
Proof.
  intros Hr Hl. unfold SetLeader. case_bool_decide as E; [done|]. intros j l' Hj. cbn in Hj.
  apply lookup_insert_Some in Hj as [[<- <-]|[_ Hj]]; [by apply Hl|by apply Hr].
Qed.

Lemma invalidate_ok i r : cached_ok r → cached_ok (InvalidateLeader i r).
Proof. intros Hr j l Hj. cbn in Hj. apply lookup_delete_Some in Hj as [_ Hj]. by apply Hr. Qed.

Lemma Candidates_belong r s : s ∈ m → cached_ok r → Forall (belongs (ID s)) (Candidates r s).
Proof.
  intros Hs Hr. assert (Forall (belongs (ID s)) (Replicas s)) as Hreps.
  { apply Forall_forall. intros name. by apply (rv_replicas Hres). }
  unfold Candidates, Router_Leader. destruct (r_leaders r !! ID s) as [l|] eqn:Hl; [|done].
  constructor; [by apply Hr|]. apply Forall_forall. intros name [_ Hin]%list_elem_of_filter.
  by eapply Forall_forall in Hreps.
Qed.

Lemma turn_asks r i d :
  cached_ok r → asks d →
  (∀ name rest rep, do_pc d = Sweep (name :: rest) → i_answer i = Answered rep → LeaderHint rep ≠ "" →
     belongs (ID (do_shard d)) (LeaderHint rep)) →
  cached_ok (do_router (turn r i d)) ∧ asks (turn r i d).
Proof.
  intros Hr [Hs Hn] Hhint. unfold asks. rewrite (proj1 (turn_fixed r i d)). unfold turn, do_step, with_router. cbn.
  destruct (do_pc d) as [|[|name rest]|res] eqn:Hpc; cbn; try done.
  - destruct (i_ctxDone i); cbn; [done|]. split; [done|]. split; [done|]. intros nodes [= <-]. by apply Candidates_belong.
  - pose proof (Forall_cons_1 _ _ _ (Hn _ eq_refl)) as [Hname Hrest]. destruct (i_ctxDone i); cbn; [by split_and!|].
    specialize (Hhint name rest). destruct (i_answer i) as [err|err|rep]; cbn.
    + split; [done|]. split; [done|]. by intros nodes [= <-].
    + split; [by apply invalidate_ok|]. split; [done|]. by intros nodes [= <-].
    + destruct (Success rep); cbn; [split; [by apply set_leader_ok|by split]|].
      split; [|split; [done|by intros nodes [= <-]]]. case_bool_decide as E; cbn; [by apply invalidate_ok|].
      apply set_leader_ok; [done|]. intros _. by apply Hhint.
Qed.

(** The server that answered is one of the request's shard, and so is the one it
    names. *)
Lemma heard_home W d i name rest rep :
  ShInv W → asks d → heard resolve (sw_groups W) d i → do_pc d = Sweep (name :: rest) → i_answer i = Answered rep →
  (∃ p G P k, sw_groups W !! ID (do_shard d) = Some G ∧ running (g_store G) p P ∧
     p_calls P !! k = Some (Returned (do_cmd d) (inl rep))) ∧
  (LeaderHint rep ≠ "" → belongs (ID (do_shard d)) (LeaderHint rep)).
Proof.
  intros HW [Hs Hn] Hh Hpc Ha. unfold heard in Hh. rewrite Hpc, Ha in Hh. destruct Hh as (j & p & G & P & k & Hrv & HG & HP & Hk).
  pose proof (Forall_cons_1 _ _ _ (Hn _ Hpc)) as [Hname _]. rewrite (Hname _ _ Hrv) in *.
  split; [by exists p, G, P, k|]. intros Hne. apply (rv_hints Hres _ p); [done| |done].
  assert (∃ s, s ∈ m ∧ ID s = ID (do_shard d)) as Hi by (by exists (do_shard d)).
  destruct (sh_parts _ HW _ _ Hi HG) as [reads HC]. destruct (cv_store _ _ _ _ HC) as [h HK].
  by eapply (reply_names _ _ _ h); [|apply (sh_hinted _ HW _ _ Hi HG)|..].
Qed.

Lemma turn_invariant W name se d i :
  ShInv W → sw_sessions W !! name = Some se → se_do se = Some d → heard resolve (sw_groups W) d i →
  cached_ok (do_router (turn (sw_router W) i d)) ∧ asks (turn (sw_router W) i d).
Proof.
  intros HW Hse Hd Hh. pose proof (session_asks _ _ _ _ (sh_sessions _ HW _ _ Hse) Hd) as Has.
  apply turn_asks; [apply (sh_cached _ HW)|done|]. intros name' rest rep Hpc Ha. by apply (heard_home W d i name' rest rep).
Qed.

Lemma failed_cached W d i err :
  ShInv W → going d → do_pc (turn (sw_router W) i d) = DoneWith (inr err) → cached_ok (do_router (turn (sw_router W) i d)).
Proof.
  intros HW Hgo Hpc. unfold turn in *. rewrite (do_step_failed _ _ _ Hpc); [apply (sh_cached _ HW)|].
  cbn. unfold going in Hgo. by destruct (do_pc d).
Qed.

Lemma return_case name se d i reply op o gs t r ss ops h rs :
  let W := MkShWorld gs t r ss ops h rs in
  ShInv W → ss !! name = Some se → se_do se = Some d → heard resolve gs d i → do_pc (turn r i d) = DoneWith (inl reply) →
  ops !! call_id (do_cmd d) = Some op →
  o = MkOperation (ca_client (op_call op)) (op_input op) (ca_call (op_call op)) (recorded_output (op_input op) reply) (t - h_start h) →
  ShInv (MkShWorld gs t (do_router (turn r i d)) (<[name := MkSession (se_seq se) None]> ss)
    (<[call_id (do_cmd d) := settle OpRecorded op]> ops) (MkHistory (h_start h) (h_ops h ++ [o])) (rs ++ [(call_id (do_cmd d), o)])).
Proof.
  intros W HW Hse Hd Hheard Hpc Hop Ho. pose proof HW as [Hr Hg Hss Hops Hrec Hh Hn Hp Hca Hhi]. cbn in *.
  destruct (session_op _ _ _ _ (Hss _ _ Hse) Hd) as (op1 & Hop1 & Hcmd & Hrun & Hcl).
  rewrite Hop in Hop1. injection Hop1 as <-.
  destruct (ss_do _ _ _ (Hss _ _ Hse) _ Hd) as (Hgo & _ & Hlk & _).
  destruct (do_step_reply i (with_router r d) reply Hpc) as (node & rest & Hsw & _ & Hans & Hsuc).
  { unfold going in Hgo. cbn. by destruct (do_pc d). }
  cbn in Hsw. destruct (heard_home W d i node rest reply HW (session_asks _ _ _ _ (Hss _ _ Hse) Hd) Hheard Hsw Hans)
    as [(p & G & P & k & HG & HP & Hk) _]. cbn in HG.
  assert (op_home m op = Some (ID (do_shard d))) as Hhome.
  { unfold op_home. destruct (request_inv _ _ _ _ (ok_request _ _ (Hops _ _ Hop))) as (_ & _ & _ & _ & _ & _ & _ & <- & _).
    rewrite Hcmd. by apply home_shard. }
  eapply (settle_case name se d op); try done.
  - destruct (turn_fixed r i d) as (_ & _ & ->). done.
  - by apply (turn_invariant W name se d i HW Hse Hd Hheard).
  - cbn. by rewrite fmap_app, Hh.
  - intros x [Hx| ->%list_elem_of_singleton]%elem_of_app; [by left|right]. cbn. by rewrite Ho.
  - intros j Gj HGj. destruct (decide (op_home m op = Some j)) as [Hj|Hj]; [|left; apply settle_elsewhere; [done|done|by rewrite Ho]].
    right. assert (j = ID (do_shard d)) as -> by congruence. assert (Gj = G) as -> by congruence.
    unfold part. cbn. rewrite ops_of_here by done. unfold history_of. cbn. rewrite records_here by (by rewrite Ho).
    eapply (cl_complete _ _ (call_id (do_cmd d)) op p P k reply); [by apply ops_of_lookup|done|exact HP|by rewrite Hcmd|done|reflexivity| |].
    + unfold Complete, modify. rewrite fmap_app. cbn. by rewrite Ho.
    + cbn [h_ops]. by rewrite fmap_app, last_app.
Qed.

Lemma pending_case name se d st op o r' gs t r ss ops h rs :
  let W := MkShWorld gs t r ss ops h rs in
  ShInv W → ss !! name = Some se → se_do se = Some d → st ≠ OpRunning → r_shards r' = m → cached_ok r' →
  ops !! call_id (do_cmd d) = Some op → is_read (op_input op) = false → st = OpRecorded →
  o = MkOperation (ca_client (op_call op)) (op_input op) (ca_call (op_call op)) "" maxInt64 →
  ShInv (MkShWorld gs t r' (<[name := MkSession (se_seq se) None]> ss)
    (<[call_id (do_cmd d) := settle st op]> ops) (MkHistory (h_start h) (h_ops h ++ [o])) (rs ++ [(call_id (do_cmd d), o)])).
Proof.
  intros W HW Hse Hd Hst Hr' Hca' Hop Hread -> Ho. pose proof HW as [Hr Hg Hss Hops Hrec Hh Hn Hp Hca Hhi]. cbn in *.
  destruct (session_op _ _ _ _ (Hss _ _ Hse) Hd) as (op1 & Hop1 & Hcmd & Hrun & Hcl).
  rewrite Hop in Hop1. injection Hop1 as <-. eapply (settle_case name se d op); try done.
  - cbn. by rewrite fmap_app, Hh.
  - intros x [Hx| ->%list_elem_of_singleton]%elem_of_app; [by left|right]. cbn. by rewrite Ho.
  - intros j Gj HGj. destruct (decide (op_home m op = Some j)) as [Hj|Hj]; [|left; apply settle_elsewhere; [done|done|by rewrite Ho]].
    right. unfold part. cbn. rewrite ops_of_here by done. unfold history_of. cbn. rewrite records_here by (by rewrite Ho).
    eapply (cl_pending _ _ (call_id (do_cmd d)) op); [by apply ops_of_lookup|done|done| |].
    + unfold Pending, modify. rewrite fmap_app. cbn. by rewrite Ho.
    + cbn [h_ops]. by rewrite fmap_app, last_app.
Qed.

Lemma dropped_case name se d op r' gs t r ss ops h rs :
  let W := MkShWorld gs t r ss ops h rs in
  ShInv W → ss !! name = Some se → se_do se = Some d → r_shards r' = m → cached_ok r' →
  ops !! call_id (do_cmd d) = Some op → is_read (op_input op) = true →
  ShInv (MkShWorld gs t r' (<[name := MkSession (se_seq se) None]> ss) (<[call_id (do_cmd d) := settle OpDropped op]> ops) h rs).
Proof.
  intros W HW Hse Hd Hr' Hca' Hop Hread. pose proof HW as [Hr Hg Hss Hops Hrec Hh Hn Hp Hca Hhi]. cbn in *.
  destruct (session_op _ _ _ _ (Hss _ _ Hse) Hd) as (op1 & Hop1 & Hcmd & Hrun & Hcl).
  rewrite Hop in Hop1. injection Hop1 as <-. eapply (settle_case name se d op); try done; [intros x Hx; by left|].
  intros j Gj HGj. unfold part_moves, part. cbn. destruct (decide (op_home m op = Some j)) as [Hj|Hj].
  - right. rewrite ops_of_here by done. apply (cl_drop _ _ (call_id (do_cmd d)) op); [by apply ops_of_lookup|done|done].
  - left. rewrite ops_of_elsewhere; [done|exact Hj|intros op' Hop'; congruence].
Qed.

(** *** The other steps *)
Lemma turn_case name se d i gs t r ss ops h rs :
  let W := MkShWorld gs t r ss ops h rs in
  ShInv W → ss !! name = Some se → se_do se = Some d → heard resolve gs d i → going (turn r i d) →
  ShInv (MkShWorld gs t (do_router (turn r i d)) (<[name := MkSession (se_seq se) (Some (turn r i d))]> ss) ops h rs).
Proof.
  intros W HW Hse Hd Hheard Hgo. destruct (turn_invariant W name se d i HW Hse Hd Hheard) as [Hca' [_ Has']].
  destruct HW as [Hr Hg Hss Hops Hrec Hh Hn Hp Hca Hhi]. cbn in *. destruct (turn_fixed r i d) as (Es & Ec & Er).
  split; [cbn; congruence|done|cbn|done|done|done|done| |done|done].
  - intros name1 se1 [[<- <-]|[Hne Hse1]]%lookup_insert_Some; [|by apply Hss].
    destruct (Hss _ _ Hse) as [Hq Hm Hdo _]. split; [done| | |intros d1 nodes [= <-]; by apply Has']; cbn.
    + intros id op Hop Hc. destruct (Hm _ _ Hop Hc) as [Hle Hrun]. split; [done|]. intros Hr1.
      destruct (Hrun Hr1) as (d1 & Hd1 & E). exists (turn r i d). rewrite Ec. split; [done|]. congruence.
    + intros d1 [= <-]. rewrite Es, Ec. destruct (Hdo _ Hd) as (_ & ?). by split.
  - eapply (parts_move W); [|exact Hp]. intros j G HG. exists G. split; [done|]. by left.
Qed.

Lemma time_case t' gs t r ss ops h rs :
  (t ≤ t')%Z → (t' - h_start h ≤ maxInt64)%Z → ShInv (MkShWorld gs t r ss ops h rs) → ShInv (MkShWorld gs t' r ss ops h rs).
Proof.
  intros Ht Hmax [Hr Hg Hss Hops Hrec Hh Hn Hp Hca Hhi]. cbn in *. split; try done.
  - unfold Now in *. cbn. lia.
  - eapply (parts_move (MkShWorld gs t r ss ops h rs)); [|exact Hp]. intros j G HG. exists G. split; [done|]. right. by apply cl_time.
Qed.

Lemma group_case i G K' gs t r ss ops h rs :
  gs !! i = Some G → kstep (cfg_of i) (addrs_of i) (g_store G) K' →
  calls_running (ops_of (r_shards r) i ops) (g_store G) K' → ShInv (MkShWorld gs t r ss ops h rs) →
  ShInv (MkShWorld (<[i := MkGroup K' (g_times G ++ replicate (length (kw_log K') - length (kw_log (g_store G))) (Now t h))]> gs)
    t r ss ops h rs).
Proof.
  intros HG Hst Hcr [Hr Hg Hss Hops Hrec Hh Hn Hp Hca Hhi]. cbn in *. rewrite Hr in Hcr. split; [done|cbn|done|done|done|done|done| |done|cbn].
  - intros s Hs. destruct (decide (i = ID s)) as [<-|Hne]; [rewrite lookup_insert_eq; by eexists|].
    rewrite lookup_insert_ne by done. by apply Hg.
  - eapply (parts_move (MkShWorld gs t r ss ops h rs)); [|exact Hp].
    intros j G' HG1. cbn in HG1. apply lookup_insert_Some in HG1 as [[<- <-]|[Hne HG1]]; [|exists G'; split; [done|by left]].
    exists G. split; [done|]. right. by apply (cl_store _ _ K' (g_store G)).
  - intros j G' Hj [[<- <-]|[Hne HG1]]%lookup_insert_Some; [|by apply Hhi]. cbn.
    destruct (Hp i G Hj HG) as [reads HC]. destruct (cv_store _ _ _ _ HC) as [h0 HK]. pose proof (Hhi i G Hj HG) as Hhg.
    destruct Hj as (s & Hs & <-). by apply (hints_ok_step (members (ID s)) (cfg_of (ID s)) (addrs_of (ID s)) h0 (g_store G)).
Qed.

Lemma shard_step_inv W W' : shard_step cfg_of addrs_of resolve W W' → ShInv W → ShInv W'.
Proof.
  intros Hst HW. destruct Hst as [t' gs t r ss ops h rs Ht Hm|i G K' gs t r ss ops h rs HG Hk Hc
    |name se inp d c' recorder gs t r ss ops h rs Hse Hn Hlt Hs|name se d i gs t r ss ops h rs Hse Hd Hh Hg
    |name se d i reply op h' o gs t r ss ops h rs Hse Hd Hh Hpc Hop [= <-] Hlast
    |name se d i err op h' o gs t r ss ops h rs Hse Hd Hpc Hop Hread [= <-] Hlast
    |name se d i err op gs t r ss ops h rs Hse Hd Hpc Hop Hread].
  - by eapply time_case.
  - by eapply group_case.
  - by eapply begin_case.
  - by eapply turn_case.
  - cbn in Hlast. rewrite last_snoc in Hlast. injection Hlast as <-. by eapply return_case.
  - cbn in Hlast. rewrite last_snoc in Hlast. injection Hlast as <-. eapply pending_case; try done.
    + destruct (turn_fixed r i d) as (_ & _ & ->). apply (sh_router _ HW).
    + by eapply (failed_cached _ d i err HW), Hpc; apply (ss_do _ _ _ (sh_sessions _ HW _ _ Hse) _ Hd).
  - eapply dropped_case; try done.
    + destruct (turn_fixed r i d) as (_ & _ & ->). apply (sh_router _ HW).
    + by eapply (failed_cached _ d i err HW), Hpc; apply (ss_do _ _ _ (sh_sessions _ HW _ _ Hse) _ Hd).
Qed.

(** Every shard is there, and starts afresh. *)
Definition shards_initial (stores : gmap Z (KWorld S)) : Prop :=
  (∀ s, s ∈ m → is_Some (stores !! ID s)) ∧ ∀ i K, stores !! i = Some K → kinitial (members i) K.

Lemma fresh_ShInv stores names t : shards_initial stores → ShInv (fresh_shworld m stores names t).
Proof.
  intros [Hg Hi]. split; cbn; try done.
  - intros s Hs. destruct (Hg s Hs) as [K HK]. rewrite lookup_fmap, HK. by eexists.
  - intros name se [_ <-]%lookup_gset_to_gmap_Some. split; [done| |done|done]. intros id op. by rewrite lookup_empty.
  - by intros id o ?%not_elem_of_nil.
  - unfold Now. cbn. unfold maxInt64. lia.
  - intros i G _ HG. rewrite lookup_fmap in HG. apply fmap_Some in HG as (K & HK & ->). exists [].
    apply (fresh_CInv (members i) (cfg_of i) K t). by apply (Hi i).
  - intros i G _ HG. rewrite lookup_fmap in HG. apply fmap_Some in HG as (K & HK & ->). by apply hints_ok_initial, (Hi i).
Qed.

Lemma shards_reach stores names t W :
  shards_initial stores → rtc (shard_step cfg_of addrs_of resolve) (fresh_shworld m stores names t) W → ShInv W.
Proof.
  intros Hi Hrun. pose proof (fresh_ShInv stores names t Hi) as HW. induction Hrun as [|W1 W2 W3 Hst _ IH]; [done|].
  apply IH. by eapply shard_step_inv.
Qed.

Lemma shards_atomic W : ShInv W → ∃ d es, test_inv (MkTestWorld (sw_now W) d (op_call <$> sw_ops W) (sw_history W) es (sw_recorded W)).
Proof.
  intros [Hr Hg Hss Hops Hrec Hh Hn Hp Hca Hhi].
  assert (∀ inp, (∃ s, Lookup m (in_Key inp) = inl s) → ∃ i, i ∈ remove_dups (ID <$> m) ∧ home m (in_Key inp) = Some i) as Hin.
  { intros inp [s Hs]. exists (ID s). split; [|by apply home_shard].
    apply elem_of_remove_dups, list_elem_of_fmap_2. by eapply Lookup_in. }
  apply (whole_inv (home m) (remove_dups (ID <$> m))); try done.
  - apply NoDup_remove_dups.
  - intros id c Hc. rewrite lookup_fmap in Hc. apply fmap_Some in Hc as (op & Hop & ->).
    apply Hin. exact (ok_home _ _ (Hops _ _ Hop)).
  - intros [id o] Ho. destruct (Hrec _ _ Ho) as (op & Hop & E). unfold record_home. cbn. rewrite E.
    apply Hin. exact (ok_home _ _ (Hops _ _ Hop)).
  - intros i (s & -> & Hs)%elem_of_remove_dups%list_elem_of_fmap. destruct (Hg _ Hs) as [G HG].
    destruct (Hp (ID s) G) as [reads HC]; [by exists s|done|]. pose proof (cv_test _ _ _ _ HC) as Ht.
    unfold atomic, part in Ht. cbn in Ht. rewrite ops_of_calls in Ht. by do 2 eexists.
Qed.
End Sharded.

(** ** The theorem *)


(** ** A run of two shards *)
Section Run.
Context {codec : KVCodec}.
Variable cfg_of : Z → NodeID → Config.
Variable addrs_of : Z → NodeID → gmap NodeID string.
Variable resolve : NodeID → option (Z * NodeID).

(** The cluster of one shard runs. *)
Lemma group_run i evs K K' ts gs t r ss ops h rs :
  store_run (cfg_of i) (addrs_of i) evs (ops_of (r_shards r) i ops) K = Some K' → gs !! i = Some (MkGroup K ts) →
  ∃ ts', rtc (shard_step cfg_of addrs_of resolve) (MkShWorld gs t r ss ops h rs)
    (MkShWorld (<[i := MkGroup K' ts']> gs) t r ss ops h rs).
Proof.
  revert K ts gs. induction evs as [|ev evs IH]; intros K ts gs; cbn -[kevent_check kexec].
  { intros [= <-] Hi. exists ts. by rewrite insert_id. }
  destruct (kevent_check (cfg_of i) ev K) eqn:Hc; [|done]. intros (K1 & Hx & Hrest)%bind_Some Hi.
  destruct (calls_check _ K K1) eqn:Hcc; [|done].
  set (ts1 := ts ++ replicate (length (kw_log K1) - length (kw_log K)) (Now t h)).
  destruct (IH K1 ts1 (<[i := MkGroup K1 ts1]> gs) Hrest ltac:(by rewrite lookup_insert_eq)) as [ts' Hr].
  rewrite insert_insert_eq in Hr. exists ts'. eapply rtc_l; [|exact Hr].
  apply (sh_store _ _ _ i (MkGroup K ts)); [done| |by apply calls_check_ok].
  exists ev. split; [by apply kevent_check_ok|done].
Qed.
End Run.

(** The servers of two clusters, and the names they go by. *)
Definition address (i : Z) (p : NodeID) : string := (if (i =? 1)%Z then "1" ++ p else "2" ++ p)%string.
Definition shard_addrs (i : Z) (_ : NodeID) : gmap NodeID string := list_to_map ((λ q, (q, address i q)) <$> three).
Definition servers : gmap NodeID (Z * NodeID) :=
  list_to_map ((λ p, (address 1 p, (1%Z, p))) <$> three) ∪ list_to_map ((λ p, (address 2 p, (2%Z, p))) <$> three).
Definition two_resolver (name : NodeID) : option (Z * NodeID) := servers !! name.

Definition shard_1 : Shard := MkShard 1 "" "m" (address 1 <$> three).
Definition shard_2 : Shard := MkShard 2 "m" "" (address 2 <$> three).
Definition two_shards : list Shard := [shard_1; shard_2].

Lemma two_shards_valid : Validate two_shards = (None, two_shards).
Proof. by vm_compute. Qed.

Definition two_stores : gmap Z (KWorld MemoryStorage) := <[1%Z := fresh_kworld three]> {[2%Z := fresh_kworld three]}.

(** A put at shard 2, then a get of a key of shard 1. *)
Definition get_k : KVCommand := MkCommand "client" 2 OP_GET "k" "".

Definition get_at_a : list (KEvent (S := MemoryStorage)) :=
  let args := MkAEArgs 1 "a" 0 0 [MkEntry 1 1 (match @marshal_command bit_codec get_k with inl b => b | inr _ => [] end)] 0 in
  [KServer "a" (EvCall (Get get_k)); KServer "a" (EvStep 0); KServer "a" (EvStep 0);
   KRaft (REvent_send "a" "b" 1); KRaft (REvent_append "b" args env0);
   KRaft (REvent_answer "b" args (MkAEReply 1 true 0 0));
   KServer "a" EvApply; KServer "a" EvSend; KServer "a" EvReceive; KServer "a" (EvStep 0)].

Definition x_op : ClientOp := MkOp (MkCall 1 0 (KVStore.MkInput KVPut "x" "1") OpRunning) ReplicatedProperties.put_x.
Definition k_op : ClientOp := MkOp (MkCall 1 5 (KVStore.MkInput KVGet "k" "") OpRunning) get_k.

Definition router_0 : Router := NewRouter two_shards.
Definition no_answer : ShardClient.Input := ShardClient.MkInput false (NoHandle context_error).
Definition put_do : Do := MkDo shard_2 ReplicatedProperties.put_x router_0 None PassTop [].
Definition put_reply : CommandReply := MkReply true "" false "" "" 1.
Definition put_answer : ShardClient.Input := ShardClient.MkInput false (Answered put_reply).
Definition router_1 : Router := SetLeader 2 "2a" router_0.
Definition get_do : Do := MkDo shard_1 get_k router_1 None PassTop [].

Definition x_record : Operation := MkOperation 1 (KVStore.MkInput KVPut "x" "1") 0 "" 5.
Definition k_record : Operation := MkOperation 1 (KVStore.MkInput KVGet "k" "") 5 "" 5.

Definition ops_1 : gmap N ClientOp := <[call_id ReplicatedProperties.put_x := x_op]> ∅.
Definition ops_2 : gmap N ClientOp := <[call_id get_k := k_op]> (<[call_id ReplicatedProperties.put_x := settle OpRecorded x_op]> ops_1).
Definition client_session (seq : N) (d : option Do) (ss : gmap string Session) : gmap string Session :=
  <["client"%string := MkSession seq d]> ss.

Lemma option_check {A} (f : A → bool) (x : option A) : from_option f false x = true → ∃ a, x = Some a ∧ f a = true.
Proof. destruct x as [a|]; [|done]. by exists a. Qed.

Lemma two_shards_run : ∃ (W : ShWorld MemoryStorage),
  rtc (@shard_step _ _ _ _ bit_codec (λ _, cfg_among three) shard_addrs two_resolver)
    (fresh_shworld two_shards two_stores {["client"%string]} 0) W ∧
  Operations (sw_history W) = [x_record; k_record] ∧ shards_settled W.
Proof.
  set (run i := @store_run bit_codec (cfg_among three) (shard_addrs i)).
  assert (from_option (λ K2, from_option (λ Kp, server_is Kp "a" (returned 0 ReplicatedProperties.put_x put_reply)) false
      (run 2%Z put_at_a (ops_of two_shards 2 ops_1) K2)) false (run 2%Z elect_server ∅ (fresh_kworld three)) &&
    from_option (λ K1, from_option (λ Kg, server_is Kg "a" (returned 0 get_k put_reply)) false
      (run 1%Z get_at_a (ops_of two_shards 1 ops_2) K1)) false (run 1%Z elect_server ∅ (fresh_kworld three)) = true)
    as Hrun by (by vm_compute).
  apply andb_true_iff in Hrun as [H2 H1].
  apply option_check in H2 as (K2 & E2 & (Kp & Ep & H2)%option_check).
  apply option_check in H1 as (K1 & E1 & (Kg & Eg & H1)%option_check).
  destruct (server_is_running _ _ _ H2) as (Pp & HPp & Rp%bool_decide_eq_true).
  destruct (server_is_running _ _ _ H1) as (Pg & HPg & Rg%bool_decide_eq_true).
  assert (∀ i, ops_of two_shards i ∅ = ∅) as Eo by (intros i; apply map_filter_empty).
  rewrite <- (Eo 2%Z) in E2. rewrite <- (Eo 1%Z) in E1.
  set (gs0 := (λ K0, MkGroup K0 []) <$> two_stores).
  set (ss0 := gset_to_gmap (MkSession 0 None) {["client"%string]}).
  pose (st := λ i evs K0 K' ts gs t r ss ops h rs (Hr : run i evs (ops_of (r_shards r) i ops) K0 = Some K') Hi,
    @group_run bit_codec (λ _, cfg_among three) shard_addrs two_resolver i evs K0 K' ts gs t r ss ops h rs Hr Hi).
  destruct (st 2%Z elect_server _ K2 [] gs0 0%Z router_0 ss0 ∅ (NewHistory 0) [] E2 eq_refl) as [t1 S1].
  destruct (st 1%Z elect_server (fresh_kworld three) K1 [] (<[2%Z := MkGroup K2 t1]> gs0) 0%Z router_0 ss0 ∅ (NewHistory 0) [] E1 ltac:(by rewrite lookup_insert_ne)) as [t2 S2].
  set (gs2 := <[1%Z := MkGroup K1 t2]> (<[2%Z := MkGroup K2 t1]> gs0)) in *.
  set (ss1 := client_session 1 (Some put_do) ss0).
  set (ss2 := client_session 1 (Some (turn router_0 no_answer put_do)) ss1).
  destruct (st 2%Z put_at_a K2 Kp t1 gs2 0%Z router_0 ss2 ops_1 (NewHistory 0) [] Ep ltac:(by unfold gs2; rewrite lookup_insert_ne, lookup_insert_eq)) as [t3 S3].
  set (gs3 := <[2%Z := MkGroup Kp t3]> gs2) in *.
  set (ss3 := client_session 1 None ss2). set (h3 := MkHistory 0 [x_record]). set (rs3 := [(call_id ReplicatedProperties.put_x, x_record)]).
  set (ss4 := client_session 2 (Some get_do) ss3).
  set (ss5 := client_session 2 (Some (turn router_1 no_answer get_do)) ss4).
  destruct (st 1%Z get_at_a K1 Kg t2 gs3 5%Z router_1 ss5 ops_2 h3 rs3 Eg ltac:(by unfold gs3, gs2; rewrite lookup_insert_ne, lookup_insert_eq)) as [t4 S4].
  set (gs4 := <[1%Z := MkGroup Kg t4]> gs3) in *.
  eexists. split; [|split].
  - etrans; [exact S1|]. etrans; [exact S2|].
    eapply rtc_l; [apply (sh_begin _ _ _ "client" (MkSession 0 None) (KVStore.MkInput KVPut "x" "1") put_do (MkClient router_0 "client" 1) 1); by try vm_compute|].
    eapply rtc_l; [apply (sh_turn _ _ _ "client" (MkSession 1 (Some put_do)) put_do no_answer); by try apply lookup_insert_eq|].
    etrans; [exact S3|]. eapply rtc_l; [apply (sh_time _ _ _ 5); by vm_compute|].
    eapply rtc_l; [eapply (sh_return _ _ _ "client" (MkSession 1 (Some (turn router_0 no_answer put_do))) (turn router_0 no_answer put_do) put_answer put_reply x_op); [apply lookup_insert_eq|done| |done|apply lookup_insert_eq|reflexivity|reflexivity]|].
    { exists 2%Z, "a", (MkGroup Kp t3), Pp, 0. split; [done|]. split; [apply lookup_insert_eq|]. by split. }
    eapply rtc_l; [apply (sh_begin _ _ _ "client" (MkSession 1 None) (KVStore.MkInput KVGet "k" "") get_do (MkClient router_1 "client" 2) 1); by try apply lookup_insert_eq|].
    eapply rtc_l; [apply (sh_turn _ _ _ "client" (MkSession 2 (Some get_do)) get_do no_answer); by try apply lookup_insert_eq|].
    etrans; [exact S4|].
    eapply rtc_l; [eapply (sh_return _ _ _ "client" (MkSession 2 (Some (turn router_1 no_answer get_do))) (turn router_1 no_answer get_do) put_answer put_reply k_op); [apply lookup_insert_eq|done| |done|apply lookup_insert_eq|reflexivity|reflexivity]|].
    { exists 1%Z, "a", (MkGroup Kg t4), Pg, 0. split; [done|]. split; [apply lookup_insert_eq|]. by split. }
    apply rtc_refl.
  - by vm_compute.
  - intros id op Hid. cbn in Hid. apply lookup_insert_Some in Hid as [[<- <-]|[Hne Hid]]; [done|].
    apply lookup_insert_Some in Hid as [[<- <-]|[_ Hid]]; [by destruct Hne|].
    apply lookup_insert_Some in Hid as [[<- <-]|[Hne' Hid]]; [done|].
    apply lookup_insert_Some in Hid as [[<- <-]|[_ Hid]]; [by destruct Hne'|by rewrite lookup_empty in Hid].
Qed.

Lemma two_stores_initial : shards_initial two_shards (λ _, three) two_stores.
Proof.
  split.
  - intros s Hs. repeat (apply elem_of_cons in Hs as [->|Hs]; [by eexists|]). by apply not_elem_of_nil in Hs.
  - unfold two_stores. intros i K [[_ <-]|[_ [_ <-]%lookup_singleton_Some]]%lookup_insert_Some; apply fresh_kinitial.
Qed.

Lemma two_resolver_ok : resolver_ok two_shards (λ _, three) shard_addrs two_resolver.
Proof.
  assert (∀ s, s ∈ two_shards → Forall (λ name, belongs two_resolver (ID s) name) (address (ID s) <$> three)) as Hb.
  { intros s Hs. repeat (apply elem_of_cons in Hs as [->|Hs]; [repeat constructor; intros j p; by intros [= <- _]|]).
    by apply not_elem_of_nil in Hs. }
  split.
  - intros s name Hs Hn. apply (proj1 (Forall_forall _ _) (Hb s Hs)).
    repeat (apply elem_of_cons in Hs as [->|Hs]; [done|]). by apply not_elem_of_nil in Hs.
  - intros s p name Hs [?|(l & Hl & ->)] Hne; [done|]. apply (proj1 (Forall_forall _ _) (Hb s Hs)).
    apply list_elem_of_fmap. exists l. split; [|done].
    by repeat (apply elem_of_cons in Hl as [->|Hl]; [done|]); apply not_elem_of_nil in Hl.
Qed.

