(* ===== verification/GrpcTransport.v ===== *)
(** * internal/transport/grpctransport: Raft messages over gRPC

    The wire messages of proto/raft.proto, the conversions both ways, peer
    isolation, and a whole call: [Send] on one node, the network in between,
    the server side and [dispatch] on the other.  gRPC itself is the parameter
    [dial] and the function that carries a message; what the consensus code
    relies on is that what arrives is what was sent. *)
From S2P Require Import Prelude RaftTypes MemoryStorage RaftNode.

(** ** Wire messages *)
Record PbLogEntry : Type := MkPbEntry { pb_Term : N; pb_Index : N; pb_Command : bytes }.

Record PbRequestVoteRequest : Type := MkPbRV {
  pb_rv_Term : N; pb_rv_CandidateId : string; pb_rv_LastLogIndex : N; pb_rv_LastLogTerm : N;
}.

Record PbAppendEntriesRequest : Type := MkPbAE {
  pb_ae_Term : N; pb_ae_LeaderId : string; pb_ae_PrevLogIndex : N; pb_ae_PrevLogTerm : N;
  pb_ae_Entries : list PbLogEntry; pb_ae_LeaderCommit : N;
}.

Record PbInstallSnapshotRequest : Type := MkPbIS {
  pb_is_Term : N; pb_is_LeaderId : string; pb_is_LastIncludedIndex : N;
  pb_is_LastIncludedTerm : N; pb_is_Data : bytes;
}.

Record PbRequestVoteResponse : Type := MkPbRVR { pb_rvr_Term : N; pb_rvr_VoteGranted : bool }.

Record PbAppendEntriesResponse : Type := MkPbAER {
  pb_aer_Term : N; pb_aer_Success : bool; pb_aer_ConflictTerm : N; pb_aer_ConflictIndex : N;
}.

Record PbInstallSnapshotResponse : Type := MkPbISR { pb_isr_Term : N }.

Definition entriesToProto (es : list LogEntry) : list PbLogEntry :=
  (λ e, MkPbEntry (Term e) (Index e) (Command e)) <$> es.

Definition entriesFromProto (es : list PbLogEntry) : list LogEntry :=
  (λ e, MkEntry (pb_Term e) (pb_Index e) (pb_Command e)) <$> es.

(** The composite literals of [Send]. *)
Definition vote_to_pb (a : RequestVoteArgs) : PbRequestVoteRequest :=
  MkPbRV (rv_Term a) (rv_CandidateID a) (rv_LastLogIndex a) (rv_LastLogTerm a).

Definition append_to_pb (a : AppendEntriesArgs) : PbAppendEntriesRequest :=
  MkPbAE (ae_Term a) (ae_LeaderID a) (ae_PrevLogIndex a) (ae_PrevLogTerm a)
    (entriesToProto (ae_Entries a)) (ae_LeaderCommit a).

Definition snapshot_to_pb (a : InstallSnapshotArgs) : PbInstallSnapshotRequest :=
  MkPbIS (is_Term a) (is_LeaderID a) (is_LastIncludedIndex a) (is_LastIncludedTerm a) (is_Data a).

(** Those of the three server methods. *)
Definition vote_from_pb (r : PbRequestVoteRequest) : RequestVoteArgs :=
  MkRVArgs (pb_rv_Term r) (pb_rv_CandidateId r) (pb_rv_LastLogIndex r) (pb_rv_LastLogTerm r).

Definition append_from_pb (r : PbAppendEntriesRequest) : AppendEntriesArgs :=
  MkAEArgs (pb_ae_Term r) (pb_ae_LeaderId r) (pb_ae_PrevLogIndex r) (pb_ae_PrevLogTerm r)
    (entriesFromProto (pb_ae_Entries r)) (pb_ae_LeaderCommit r).

Definition snapshot_from_pb (r : PbInstallSnapshotRequest) : InstallSnapshotArgs :=
  MkISArgs (pb_is_Term r) (pb_is_LeaderId r) (pb_is_LastIncludedIndex r) (pb_is_LastIncludedTerm r)
    (pb_is_Data r).

Definition append_reply_to_pb (r : AppendEntriesReply) : PbAppendEntriesResponse :=
  MkPbAER (aer_Term r) (aer_Success r) (aer_ConflictTerm r) (aer_ConflictIndex r).

Definition append_reply_from_pb (r : PbAppendEntriesResponse) : AppendEntriesReply :=
  MkAEReply (pb_aer_Term r) (pb_aer_Success r) (pb_aer_ConflictTerm r) (pb_aer_ConflictIndex r).

(** The three RPCs, request and response. *)
Inductive PbRequest : Type :=
| PbVote (r : PbRequestVoteRequest)
| PbAppend (r : PbAppendEntriesRequest)
| PbSnapshot (r : PbInstallSnapshotRequest).

Inductive PbResponse : Type :=
| PbVoteR (r : PbRequestVoteResponse)
| PbAppendR (r : PbAppendEntriesResponse)
| PbSnapshotR (r : PbInstallSnapshotResponse).

(** ** The transport *)
Section Transport.
Context {St : Type}.

(** A registered [transport.Handler], over the state [St] of its node. *)
Definition Handler : Type := NodeID → Request → GoM St (Reply + error).

Record Transport : Type := MkTransport {
  t_id : NodeID;
  t_peers : gmap NodeID string;
  t_handler : option Handler;
  t_conns : gset NodeID;
  t_isolated : gset NodeID;
}.

Definition Transport_New (id : NodeID) (peers : gmap NodeID string) : Transport :=
  MkTransport id peers None ∅ ∅.

Definition RegisterHandler (h : option Handler) (t : Transport) : Transport :=
  MkTransport (t_id t) (t_peers t) h (t_conns t) (t_isolated t).

(** [SetIsolation]; the node itself is left out. *)
Definition SetIsolation (peers : list NodeID) (t : Transport) : Transport :=
  MkTransport (t_id t) (t_peers t) (t_handler t) (t_conns t)
    (list_to_set (filter (λ p, p ≠ t_id t) peers)).

(** [Isolation]: the keys of the map, sorted. *)
Definition Isolation (t : Transport) : list NodeID := merge_sort String.le (elements (t_isolated t)).

Definition isolatedFrom (t : Transport) (peer : NodeID) : bool := bool_decide (peer ∈ t_isolated t).

(** [Close]: the connections go; their own errors are not modelled. *)
Definition Transport_Close (t : Transport) : Transport :=
  MkTransport (t_id t) (t_peers t) (t_handler t) ∅ (t_isolated t).

Definition ErrUnreachable : error := Errorf "transport: destination unreachable".

(** [client]: an existing connection, or a new one to the configured address;
    [dial] is [grpc.NewClient], which may refuse an address. *)
Definition client (dial : string → option error) (peer : NodeID) (t : Transport) : option error * Transport :=
  if bool_decide (peer ∈ t_conns t) then (None, t)
  else match t_peers t !! peer with
       | None => (Some (Errorf "grpctransport: no address configured for peer"), t)
       | Some addr =>
           match dial addr with
           | Some err => (Some (Wrapf "grpctransport: dialing" err), t)
           | None =>
               (None, MkTransport (t_id t) (t_peers t) (t_handler t) ({[peer]} ∪ t_conns t) (t_isolated t))
           end
       end.

(** [Send]; [rpc] carries a request to the peer's server and its response
    back. *)
Definition Send (dial : string → option error) (to : NodeID) (req : Request)
    (rpc : PbRequest → GoM St (PbResponse + error)) (t : Transport)
    : GoM St ((Reply + error) * Transport) :=
  if isolatedFrom t to then mret (inr ErrUnreachable, t) else
  match client dial to t with
  | (Some err, t') => mret (inr err, t')
  | (None, t') =>
      resp ← rpc match req with
                 | ReqVote a => PbVote (vote_to_pb a)
                 | ReqAppend a => PbAppend (append_to_pb a)
                 | ReqSnapshot a => PbSnapshot (snapshot_to_pb a)
                 end;
      match resp with
      | inr err => mret (inr err, t')
      | inl (PbVoteR r) => mret (inl (RepVote (MkRVReply (pb_rvr_Term r) (pb_rvr_VoteGranted r))), t')
      | inl (PbAppendR r) => mret (inl (RepAppend (append_reply_from_pb r)), t')
      | inl (PbSnapshotR r) => mret (inl (RepSnapshot (MkISReply (pb_isr_Term r))), t')
      end
  end.

Definition dispatch (t : Transport) (from : NodeID) (req : Request) : GoM St (Reply + error) :=
  if isolatedFrom t from then mret (inr ErrUnreachable) else
  match t_handler t with
  | None => mret (inr (Errorf "grpctransport: no handler registered"))
  | Some h => h from req
  end.

(** The three server methods; a handler that answers with another type of reply
    fails the type assertion. *)
Definition RequestVote (t : Transport) (r : PbRequestVoteRequest) : GoM St (PbRequestVoteResponse + error) :=
  reply ← dispatch t (pb_rv_CandidateId r) (ReqVote (vote_from_pb r));
  match reply with
  | inr err => mret (inr err)
  | inl (RepVote r) => mret (inl (MkPbRVR (rvr_Term r) (rvr_VoteGranted r)))
  | inl _ => panic
  end.

Definition AppendEntries (t : Transport) (r : PbAppendEntriesRequest) : GoM St (PbAppendEntriesResponse + error) :=
  reply ← dispatch t (pb_ae_LeaderId r) (ReqAppend (append_from_pb r));
  match reply with
  | inr err => mret (inr err)
  | inl (RepAppend r) => mret (inl (append_reply_to_pb r))
  | inl _ => panic
  end.

Definition InstallSnapshot (t : Transport) (r : PbInstallSnapshotRequest)
    : GoM St (PbInstallSnapshotResponse + error) :=
  reply ← dispatch t (pb_is_LeaderId r) (ReqSnapshot (snapshot_from_pb r));
  match reply with
  | inr err => mret (inr err)
  | inl (RepSnapshot r) => mret (inl (MkPbISR (isr_Term r)))
  | inl _ => panic
  end.

(** The gRPC server of a node. *)
Definition serve (t : Transport) (req : PbRequest) : GoM St (PbResponse + error) :=
  match req with
  | PbVote r => x ← RequestVote t r; mret (match x with inl r => inl (PbVoteR r) | inr err => inr err end)
  | PbAppend r => x ← AppendEntries t r; mret (match x with inl r => inl (PbAppendR r) | inr err => inr err end)
  | PbSnapshot r => x ← InstallSnapshot t r; mret (match x with inl r => inl (PbSnapshotR r) | inr err => inr err end)
  end.

(** A call from [a] to [b] over a network that delivers: [serve] runs on [b]. *)
Definition call (dial : string → option error) (a b : Transport) (req : Request)
    : GoM St ((Reply + error) * Transport) :=
  Send dial (t_id b) req (serve b) a.

(** ** Lemmas *)

(** Who a request says it comes from. *)
Definition sender (req : Request) : NodeID :=
  match req with
  | ReqVote a => rv_CandidateID a
  | ReqAppend a => ae_LeaderID a
  | ReqSnapshot a => is_LeaderID a
  end.

(** The reply of a handler that answers each request with its own type. *)
Definition reply_matches (req : Request) (r : Reply + error) : Prop :=
  match req, r with
  | _, inr _ => True
  | ReqVote _, inl (RepVote _) | ReqAppend _, inl (RepAppend _) | ReqSnapshot _, inl (RepSnapshot _) => True
  | _, _ => False
  end.

Lemma entries_roundtrip es : entriesFromProto (entriesToProto es) = es.
Proof. induction es as [|[] es IH]; [done|]. cbn. by f_equal. Qed.

Lemma vote_roundtrip a : vote_from_pb (vote_to_pb a) = a.
Proof. by destruct a. Qed.

Lemma append_roundtrip a : append_from_pb (append_to_pb a) = a.
Proof. destruct a. unfold append_from_pb. cbn. by rewrite entries_roundtrip. Qed.

Lemma snapshot_roundtrip_pb a : snapshot_from_pb (snapshot_to_pb a) = a.
Proof. by destruct a. Qed.

Lemma isolated_spec peers t p :
  isolatedFrom (SetIsolation peers t) p = true ↔ p ∈ peers ∧ p ≠ t_id t.
Proof.
  unfold isolatedFrom. rewrite bool_decide_eq_true. cbn. rewrite elem_of_list_to_set, list_elem_of_filter.
  tauto.
Qed.
End Transport.

Arguments Transport : clear implicits.
Arguments Handler : clear implicits.

(** ** A node behind the transport *)

(** [transport.RegisterHandler(n.handle)]: the sender is not used. *)
Definition node_handler {S} `{!Storage S} (e : Env) : Handler (Node S) := λ _ req,
  r ← handle e req;
  mret match r with
       | inl reply => inl reply
       | inr err => inr (default (Errorf "") err)
       end.

Lemma wrap_reply_inl {S A} (k : A → Reply) (m : GoM (Node S) (A + option error)) n r n' :
  wrap_reply k m n = Val (inl r, n') → ∃ a, r = k a.
Proof.
  unfold wrap_reply, mbind, GoM_bind. destruct (m n) as [[[a|err] n1]|]; cbn; try done.
  intros [= <- <-]. by exists a.
Qed.

(** [Node.handle] answers every request with the reply type of its RPC, so the
    server methods' type assertions hold. *)
Lemma handle_matches {S} `{!Storage S} e req (n n' : Node S) r :
  handle e req n = Val (inl r, n') → reply_matches req (inl r).
Proof. destruct req; cbn [handle]; intros H; apply wrap_reply_inl in H as [a ->]; done. Qed.

(** C27: an RPC over gRPC is a call of the handler.  When neither node has
    isolated the other and the peer's address is configured, [Send] on one node
    has the very effect of [Node.handle] on the other, with the same request,
    entries included, and returns the very reply; no conversion loses a field
    and no type assertion fails. *)
Theorem grpc_call_is_handle {S} `{!Storage S} e dial (a a' b : Transport (Node S)) req n r n' :
  isolatedFrom a (t_id b) = false → isolatedFrom b (sender req) = false →
  client dial (t_id b) a = (None, a') → t_handler b = Some (node_handler e) →
  handle e req n = Val (inl r, n') →
  call dial a b req n = Val ((inl r, a'), n').
Proof.
  intros Ha Hb Hcl Hh Hrun. pose proof (handle_matches _ _ _ _ _ Hrun) as Hm.
  unfold call, Send. rewrite Ha, Hcl. unfold serve.
  destruct req as [args|args|args], r as [rep|rep|rep]; cbn in Hm; try done; cbn [sender] in Hb;
    unfold RequestVote, AppendEntries, InstallSnapshot, dispatch;
    rewrite ?vote_roundtrip, ?append_roundtrip, ?snapshot_roundtrip_pb;
    cbn [pb_rv_CandidateId vote_to_pb pb_ae_LeaderId append_to_pb pb_is_LeaderId snapshot_to_pb];
    rewrite Hb, Hh; unfold node_handler, mbind, GoM_bind; rewrite Hrun; cbn; by destruct rep.
Qed.

(** A partition cuts both directions.  As soon as one of two nodes isolates
    the other, no request passes from either to the other: the caller gets an
    error and the receiving node's state does not change. *)
Theorem isolation_cuts_both_ways {St} dial (a b : Transport St) req st :
  sender req = t_id a → (isolatedFrom a (t_id b) = true ∨ isolatedFrom b (t_id a) = true) →
  ∃ err a', call dial a b req st = Val ((inr err, a'), st).
Proof.
  intros Hs Hiso. unfold call, Send. destruct (isolatedFrom a (t_id b)) eqn:Ha; [by do 2 eexists|].
  destruct Hiso as [?|Hb]; [done|]. destruct (client dial (t_id b) a) as [[err|] a'] eqn:Hcl; [by do 2 eexists|].
  exists ErrUnreachable, a'. unfold serve.
  destruct req; unfold RequestVote, AppendEntries, InstallSnapshot, dispatch; cbn in Hs |- *;
    rewrite Hs, Hb; done.
Qed.

(** Two nodes that know each other's addresses. *)
Definition example_a : Transport (Node MemoryStorage) :=
  Transport_New "a" {[ "b" := "host-b:7000" ]}.

Definition example_b : Transport (Node MemoryStorage) :=
  RegisterHandler (Some (node_handler (MkEnv 1 0))) (Transport_New "b" {[ "a" := "host-a:7000" ]}).

Definition example_peer : Node MemoryStorage :=
  init_node (MkConfig "b" ["a"; "c"] 0 0 0 0 0 0) NewMemoryStorage (MkPersistent 0 "" [boundary 0 0] [])
    (boundary 0 0).

Definition example_request : Request := ReqVote (MkRVArgs 1 "a" 0 0).

Lemma grpc_call_is_handle_witness :
  ∃ n', call (λ _, None) example_a example_b example_request example_peer =
    Val ((inl (RepVote (MkRVReply 1 true)), MkTransport "a" {[ "b" := "host-b:7000" ]} None {["b"]} ∅), n').
Proof.
  eexists. eapply (grpc_call_is_handle (MkEnv 1 0) (λ _, None) example_a).
  - done.
  - done.
  - vm_compute. reflexivity.
  - done.
  - vm_compute. reflexivity.
Defined.

Lemma isolation_cuts_both_ways_witness :
  ∃ err a', call (λ _, None) example_a (SetIsolation ["a"] example_b) example_request example_peer =
    Val ((inr err, a'), example_peer).
Proof. apply isolation_cuts_both_ways; [done|right; by vm_compute]. Defined.
