(* ===== verification/FakeNetwork.v ===== *)
(** * internal/transport/fake.go: the fault-injecting network of the tests

    The network's state and operations, and [Send]: the critical section that
    decides what happens to a message, and what follows once the latency has
    passed.  Durations are nanoseconds, probabilities rationals.  [math/rand]
    is a parameter: a generator state with the draws the code makes, in the
    order the code makes them. *)
From S2P Require Import Prelude.
From Stdlib Require Import QArith.
#[local] Close Scope Q_scope.

(** [rand.New(rand.NewSource(seed))] and the two draws used. *)
Class Rand (G : Type) : Type := {
  newRand : Z → G;
  Float64 : G → Q * G;
  rand_Int63n : Z → G → Z * G;
}.

(** What [math/rand] documents: both draws fall in their half-open interval. *)
Class RandSpec (G : Type) `{Rand G} : Prop := {
  Float64_range g : (0 <= (Float64 g).1)%Q ∧ ((Float64 g).1 < 1)%Q;
  Int63n_range n g : (0 < n)%Z → (0 ≤ (rand_Int63n n g).1 < n)%Z;
}.

Definition ErrUnreachable : error := Errorf "transport: destination unreachable".
Definition ErrDropped : error := Errorf "transport: message dropped".
Definition ErrNoHandler : error := Errorf "transport: no handler registered".
Definition ErrCrashed : error := Errorf "transport: node crashed".

Definition Qltb (x y : Q) : bool := if Qlt_le_dec x y then true else false.

Lemma Qltb_spec x y : Qltb x y = true ↔ (x < y)%Q.
Proof.
  unfold Qltb. destruct (Qlt_le_dec x y) as [H|H]; [done|]. split; [done|].
  intros H'. by apply Qle_not_lt in H.
Qed.

Section Network.
Context {G H : Type} `{!Rand G}.

(** [H] is the type of handlers. *)
Record Network : Type := MkNetwork {
  nw_rng : G;
  nw_minLatency : Z;
  nw_maxLatency : Z;
  nw_dropRate : Q;
  nw_duplicateRate : Q;
  nw_disconnected : gset NodeID;
  nw_crashed : gset NodeID;
  nw_partitioned : bool;
  nw_group : gmap NodeID nat;
  nw_handlers : gmap NodeID H;
}.

Definition NewNetwork (seed : Z) : Network :=
  MkNetwork (newRand seed) 1000000 1000000 0 0 ∅ ∅ false ∅ ∅.

Definition Disconnect (p : NodeID) (n : Network) : Network :=
  MkNetwork (nw_rng n) (nw_minLatency n) (nw_maxLatency n) (nw_dropRate n) (nw_duplicateRate n)
    ({[p]} ∪ nw_disconnected n) (nw_crashed n) (nw_partitioned n) (nw_group n) (nw_handlers n).

Definition Reconnect (p : NodeID) (n : Network) : Network :=
  MkNetwork (nw_rng n) (nw_minLatency n) (nw_maxLatency n) (nw_dropRate n) (nw_duplicateRate n)
    (nw_disconnected n ∖ {[p]}) (nw_crashed n) (nw_partitioned n) (nw_group n) (nw_handlers n).

Definition Network_Crash (p : NodeID) (n : Network) : Network :=
  MkNetwork (nw_rng n) (nw_minLatency n) (nw_maxLatency n) (nw_dropRate n) (nw_duplicateRate n)
    (nw_disconnected n) ({[p]} ∪ nw_crashed n) (nw_partitioned n) (nw_group n) (nw_handlers n).

Definition Network_Restart (p : NodeID) (n : Network) : Network :=
  MkNetwork (nw_rng n) (nw_minLatency n) (nw_maxLatency n) (nw_dropRate n) (nw_duplicateRate n)
    (nw_disconnected n) (nw_crashed n ∖ {[p]}) (nw_partitioned n) (nw_group n) (nw_handlers n).

Definition SetLatency (min max : Z) (n : Network) : Network :=
  MkNetwork (nw_rng n) min max (nw_dropRate n) (nw_duplicateRate n)
    (nw_disconnected n) (nw_crashed n) (nw_partitioned n) (nw_group n) (nw_handlers n).

Definition SetDropRate (p : Q) (n : Network) : Network :=
  MkNetwork (nw_rng n) (nw_minLatency n) (nw_maxLatency n) p (nw_duplicateRate n)
    (nw_disconnected n) (nw_crashed n) (nw_partitioned n) (nw_group n) (nw_handlers n).

Definition SetDuplicateRate (p : Q) (n : Network) : Network :=
  MkNetwork (nw_rng n) (nw_minLatency n) (nw_maxLatency n) (nw_dropRate n) p
    (nw_disconnected n) (nw_crashed n) (nw_partitioned n) (nw_group n) (nw_handlers n).

Definition set_group (partitioned : bool) (g : gmap NodeID nat) (n : Network) : Network :=
  MkNetwork (nw_rng n) (nw_minLatency n) (nw_maxLatency n) (nw_dropRate n) (nw_duplicateRate n)
    (nw_disconnected n) (nw_crashed n) partitioned g (nw_handlers n).

Definition Network_Partition (groupA groupB : list NodeID) (n : Network) : Network :=
  set_group true (foldl (λ g p, <[p := 2]> g) (foldl (λ g p, <[p := 1]> g) ∅ groupA) groupB) n.

Definition Network_Heal (n : Network) : Network := set_group false ∅ n.

Definition set_handlers (h : gmap NodeID H) (n : Network) : Network :=
  MkNetwork (nw_rng n) (nw_minLatency n) (nw_maxLatency n) (nw_dropRate n) (nw_duplicateRate n)
    (nw_disconnected n) (nw_crashed n) (nw_partitioned n) (nw_group n) h.

(** [RegisterHandler] and [Close] of the transport of node [id]. *)
Definition fake_RegisterHandler (id : NodeID) (h : H) (n : Network) : Network :=
  set_handlers (<[id := h]> (nw_handlers n)) n.
Definition fake_Close (id : NodeID) (n : Network) : Network := set_handlers (delete id (nw_handlers n)) n.

(** A missing key of [group] reads as 0. *)
Definition group_of (n : Network) (p : NodeID) : nat := default 0 (nw_group n !! p).

Definition reachableLocked (n : Network) (a b : NodeID) : bool :=
  if bool_decide (a ∈ nw_disconnected n) || bool_decide (b ∈ nw_disconnected n) then false
  else if nw_partitioned n && negb (group_of n a =? group_of n b)%nat then false
  else true.

Definition set_rng (g : G) (n : Network) : Network :=
  MkNetwork g (nw_minLatency n) (nw_maxLatency n) (nw_dropRate n) (nw_duplicateRate n)
    (nw_disconnected n) (nw_crashed n) (nw_partitioned n) (nw_group n) (nw_handlers n).

Definition randomLatencyLocked (n : Network) : Z * Network :=
  if (nw_maxLatency n <=? nw_minLatency n)%Z then (nw_minLatency n, n)
  else let '(d, g) := rand_Int63n (nw_maxLatency n - nw_minLatency n) (nw_rng n) in
       ((nw_minLatency n + d)%Z, set_rng g n).

(** What the critical section of [Send] settles for one message. *)
Record Plan : Type := MkPlan {
  pl_dropped : bool;
  pl_duplicate : bool;
  pl_latency : Z;
  pl_handler : option H;
}.

(** The second draw is made only for a message that is not dropped. *)
Definition send_plan (from to : NodeID) (n : Network) : (Plan + error) * Network :=
  if bool_decide (from ∈ nw_crashed n) || bool_decide (to ∈ nw_crashed n) then (inr ErrCrashed, n)
  else if negb (reachableLocked n from to) then (inr ErrUnreachable, n)
  else
    let '(x, g1) := Float64 (nw_rng n) in
    let dropped := Qltb x (nw_dropRate n) in
    let '(duplicate, g2) :=
      if dropped then (false, g1)
      else let '(y, g) := Float64 g1 in (Qltb y (nw_duplicateRate n), g) in
    let '(latency, n') := randomLatencyLocked (set_rng g2 n) in
    (inl (MkPlan dropped duplicate latency (nw_handlers n !! to)), n').

(** After the wait, whose error is [ctxErr] when the context ended first: an
    error, or the handler to call and whether a second call is started. *)
Definition send_finish (ctxErr : option error) (p : Plan) : (H * bool) + error :=
  match ctxErr with
  | Some err => inr err
  | None =>
      if pl_dropped p then inr ErrDropped
      else match pl_handler p with
           | None => inr ErrNoHandler
           | Some h => inl (h, pl_duplicate p)
           end
  end.

Definition fake_Send (from to : NodeID) (ctxErr : option error) (n : Network) : ((H * bool) + error) * Network :=
  match send_plan from to n with
  | (inr err, n') => (inr err, n')
  | (inl p, n') => (send_finish ctxErr p, n')
  end.

(** ** Lemmas *)
Lemma reachable_sym n a b : reachableLocked n a b = reachableLocked n b a.
Proof.
  unfold reachableLocked. rewrite orb_comm. destruct (_ || _); [done|].
  by rewrite Nat.eqb_sym.
Qed.

Lemma group_fold (k : nat) (l : list NodeID) (g : gmap NodeID nat) p :
  foldl (λ g p, <[p := k]> g) g l !! p = if bool_decide (p ∈ l) then Some k else g !! p.
Proof.
  revert g. induction l as [|x l IH]; intros g; [done|]. cbn. rewrite IH.
  destruct (decide (p ∈ l)) as [Hp|Hp].
  - rewrite !bool_decide_true; [done|by right|done].
  - rewrite (bool_decide_false (p ∈ l)) by done. destruct (decide (p = x)) as [->|Hne].
    + rewrite bool_decide_true by (by left). apply lookup_insert_eq.
    + rewrite bool_decide_false; [by rewrite lookup_insert_ne|]. by intros [?|?]%elem_of_cons.
Qed.

(** The side of a partition a node is on: 2, 1, or neither. *)
Definition side (A B : list NodeID) (p : NodeID) : nat :=
  if bool_decide (p ∈ B) then 2 else if bool_decide (p ∈ A) then 1 else 0.

Lemma partition_side A B n p : group_of (Network_Partition A B n) p = side A B p.
Proof.
  unfold group_of, side. cbn. rewrite !group_fold.
  by repeat case_bool_decide.
Qed.

Lemma send_plan_frame from to n r n' :
  send_plan from to n = (r, n') → n' = set_rng (nw_rng n') n.
Proof.
  unfold send_plan. destruct (_ || _); [intros [= _ <-]; by destruct n|].
  destruct (negb _); [intros [= _ <-]; by destruct n|].
  destruct (Float64 (nw_rng n)) as [x g1]. destruct (Qltb x _).
  - unfold randomLatencyLocked. cbn. destruct (_ <=? _)%Z; [by intros [= _ <-]|].
    destruct (rand_Int63n _ _) as [d g]. by intros [= _ <-].
  - destruct (Float64 g1) as [y g]. unfold randomLatencyLocked. cbn.
    destruct (_ <=? _)%Z; [by intros [= _ <-]|]. destruct (rand_Int63n _ _) as [d g']. by intros [= _ <-].
Qed.

(** C28: what a partitioned network lets through.  After [Partition groupA
    groupB] a handler is called, once or twice, only for messages between two
    nodes of the same side that are neither crashed nor disconnected, and then
    it is the receiver's; every other message ends in an error and reaches
    nobody.  Without faults and with all rates at zero every message between
    reachable nodes with a handler is delivered, exactly once. *)
Theorem partition_isolates `{!RandSpec G} groupA groupB from to ctxErr (n : Network) :
  let n1 := Network_Partition groupA groupB n in
  (∀ h dup, (fake_Send from to ctxErr n1).1 = inl (h, dup) →
     side groupA groupB from = side groupA groupB to ∧ nw_handlers n !! to = Some h ∧
     (from ∉ nw_crashed n) ∧ (to ∉ nw_crashed n) ∧ (from ∉ nw_disconnected n) ∧ (to ∉ nw_disconnected n) ∧
     ctxErr = None) ∧
  (∀ h, side groupA groupB from = side groupA groupB to → nw_handlers n !! to = Some h →
     from ∉ nw_crashed n → to ∉ nw_crashed n → from ∉ nw_disconnected n → to ∉ nw_disconnected n →
     nw_dropRate n = 0%Q → nw_duplicateRate n = 0%Q → ctxErr = None →
     (fake_Send from to ctxErr n1).1 = inl (h, false)).
Proof.
  cbv zeta. assert (Hz : ∀ g, Qltb (Float64 g).1 0 = false).
  { intros g. apply not_true_is_false. rewrite Qltb_spec. intros Hx.
    by apply (Qle_not_lt _ _ (proj1 (Float64_range g))). }
  split.
  - intros h dup. unfold fake_Send, send_plan, reachableLocked. rewrite !partition_side. cbn.
    repeat case_bool_decide; cbn; try done.
    destruct (Nat.eqb_spec (side groupA groupB from) (side groupA groupB to)) as [Hs|]; cbn; [|done].
    destruct (Float64 (nw_rng n)) as [x g1].
    destruct (Qltb x (nw_dropRate n)); cbn.
    + destruct (randomLatencyLocked _) as [d n2]. destruct ctxErr; by cbn.
    + destruct (Float64 g1) as [y g2]. destruct (randomLatencyLocked _) as [d n2]. cbn.
      destruct ctxErr; [done|]. destruct (nw_handlers n !! to); [|done]. by intros [= -> <-].
  - intros h Hs Hh Hc1 Hc2 Hd1 Hd2 Hdr Hdu ->. unfold fake_Send, send_plan, reachableLocked.
    rewrite !partition_side. cbn. rewrite !bool_decide_false by done. cbn. rewrite Hs, Nat.eqb_refl. cbn.
    rewrite Hdr, Hdu. pose proof (Hz (nw_rng n)) as Hx. destruct (Float64 (nw_rng n)) as [x g1]. cbn in Hx.
    rewrite Hx. pose proof (Hz g1) as Hy. destruct (Float64 g1) as [y g2]. cbn in Hy. rewrite Hy.
    destruct (randomLatencyLocked _) as [d n2]. cbn. by rewrite Hh.
Qed.
End Network.

Arguments Network : clear implicits.
Arguments Plan : clear implicits.

(** ** A generator, for the examples: a fixed sequence of draws *)
#[export] Instance list_rand : Rand (list Z) := {
  newRand seed := [seed];
  Float64 g := match g with
               | x :: g => (Qmake (x mod 1000) 1000, g)
               | [] => (0%Q, [])
               end;
  rand_Int63n n g := match g with x :: g => ((x mod n)%Z, g) | [] => (0%Z, []) end;
}.

#[export] Instance list_rand_spec : RandSpec (list Z).
Proof.
  split.
  - intros [|x g]; cbn; [by split|]. pose proof (Z.mod_pos_bound x 1000).
    unfold Qle, Qlt. cbn. lia.
  - intros n [|x g] Hn; cbn; [lia|]. apply Z.mod_pos_bound. lia.
Qed.

(** Three nodes, "a" and "b" on one side, "c" on the other; handlers are
    numbered. *)
Definition example_network : Network (list Z) nat :=
  fake_RegisterHandler "a" 1 (fake_RegisterHandler "b" 2 (fake_RegisterHandler "c" 3 (NewNetwork 7))).

Lemma partition_isolates_witness :
  (fake_Send "a" "b" None (Network_Partition ["a"; "b"] ["c"] example_network)).1 = inl (2, false) ∧
  ∀ h dup, (fake_Send "a" "c" None (Network_Partition ["a"; "b"] ["c"] example_network)).1 ≠ inl (h, dup).
Proof.
  destruct (partition_isolates ["a"; "b"] ["c"] "a" "b" None example_network) as [_ H1].
  destruct (partition_isolates ["a"; "b"] ["c"] "a" "c" None example_network) as [H2 _].
  split.
  - by apply H1.
  - intros h dup E. destruct (H2 h dup E) as [Hs _]. by vm_compute in Hs.
Defined.
