(* ===== verification/Harness.v ===== *)
(** * internal/testutil/cluster.go and raft_cluster.go: the in-process clusters

    [NewCluster] and its operations over the network of FakeNetwork, and
    [NewRaftCluster]: which configurations and storages the tests' nodes are
    started with, [Restart], and the polls of [AwaitLeader].  The options a test
    passes are the arguments [opts] (on the configuration) and [given] (a storage
    of its own); without one a node gets a fresh [MemoryStorage].  [t.Fatalf] is
    [None].  Then: the clusters of the tests are clusters the Raft theorems speak
    about. *)
From stdpp Require Import pretty.
From S2P Require Import Prelude RaftTypes MemoryStorage RaftNode RaftVotes RaftCluster RaftElection RaftLog RaftService RaftReplication RaftAgreement FakeNetwork.

(** ** cluster.go *)
Section Cluster.
Context {G H : Type} `{!Rand G}.

(** [Trans] maps every id to its own transport, so it is the list of ids. *)
Record TestCluster : Type := MkTestCluster { tc_Network : Network G H; tc_IDs : list NodeID }.

(** [fmt.Sprintf("%s-%d", prefix, i)] *)
Definition node_name (prefix : string) (i : nat) : NodeID := prefix ++ "-" ++ pretty (N.of_nat i).

Definition NewClusterWithPrefix (prefix : string) (n : nat) (seed : Z) : TestCluster :=
  MkTestCluster (NewNetwork seed) (node_name prefix <$> seq 0 n).

Definition NewCluster (n : nat) (seed : Z) : TestCluster := NewClusterWithPrefix "node" n seed.

Definition set_network (x : Network G H) (c : TestCluster) : TestCluster := MkTestCluster x (tc_IDs c).

Definition tc_Partition (groupA groupB : list NodeID) (c : TestCluster) : TestCluster :=
  set_network (Network_Partition groupA groupB (tc_Network c)) c.
Definition tc_Heal (c : TestCluster) : TestCluster := set_network (Network_Heal (tc_Network c)) c.

(** A sender that is not in the cluster has a nil transport. *)
Definition tc_Send (from to : NodeID) (ctxErr : option error) (c : TestCluster) : go (((H * bool) + error) * TestCluster) :=
  if bool_decide (from ∈ tc_IDs c) then
    let '(r, n') := fake_Send from to ctxErr (tc_Network c) in Val (r, set_network n' c)
  else Panic.

Definition Split (size : Z) (c : TestCluster) : go (list NodeID * list NodeID) :=
  if (size <? 0)%Z || (Z.of_nat (length (tc_IDs c)) <? size)%Z then Panic
  else Val (take (Z.to_nat size) (tc_IDs c), drop (Z.to_nat size) (tc_IDs c)).
End Cluster.

Arguments TestCluster G H : clear implicits.

(** ** raft_cluster.go *)
Section RaftHarness.
Context {G H : Type} `{!Rand G} {S : Type} `{!Storage S}.
(** What a nil [Config.Storage] becomes. *)
Variable default_storage : S.

Record RaftTestCluster : Type := MkRaftCluster {
  rc_Cluster : TestCluster G H;
  rc_Nodes : gmap NodeID (Node S);
  rc_cfgs : gmap NodeID Config;
}.

Definition harness_config (ids : list NodeID) (id : NodeID) : Config :=
  MkConfig id (filter (λ other, other ≠ id) ids) 30000000 60000000 10000000 3000000 15000000 0.

(** One node after the other, up to the first error. *)
Fixpoint start_nodes (ids rest : list NodeID) (i : nat) (opts : list (nat → Config → Config)) (given : NodeID → option S)
    (env : NodeID → Env) (nodes : gmap NodeID (Node S)) (cfgs : gmap NodeID Config)
    : go (option (gmap NodeID (Node S) * gmap NodeID Config)) :=
  match rest with
  | [] => Val (Some (nodes, cfgs))
  | id :: rest =>
      let cfg := foldl (λ cfg opt, opt i cfg) (harness_config ids id) opts in
      match NewNode cfg (env id) (default default_storage (given id)) with
      | Panic => Panic
      | Val (inr _, _) => Val None
      | Val (inl node, _) => start_nodes ids rest (i + 1) opts given env (<[id := node]> nodes) (<[id := cfg]> cfgs)
      end
  end.

Definition NewRaftClusterWithPrefix (prefix : string) (n : nat) (seed : Z) opts given env : go (option RaftTestCluster) :=
  let c := NewClusterWithPrefix prefix n seed in
  match start_nodes (tc_IDs c) (tc_IDs c) 0 opts given env ∅ ∅ with
  | Panic => Panic
  | Val None => Val None
  | Val (Some (nodes, cfgs)) => Val (Some (MkRaftCluster c nodes cfgs))
  end.

Definition NewRaftCluster (n : nat) (seed : Z) opts given env : go (option RaftTestCluster) :=
  NewRaftClusterWithPrefix "node" n seed opts given env.

(** The stopped node's storage, if the test gave it one, is the new node's. *)
Definition rc_Restart (id : NodeID) (given : NodeID → option S) (e : Env) (rc : RaftTestCluster)
    : go (option (Node S * RaftTestCluster)) :=
  match rc_Nodes rc !! id, rc_cfgs rc !! id with
  | Some old, Some cfg =>
      let st := match given id with Some _ => n_storage old | None => default_storage end in
      match NewNode cfg e st with
      | Panic => Panic
      | Val (inr _, _) => Val None
      | Val (inl node, _) => Val (Some (node, MkRaftCluster (rc_Cluster rc) (<[id := node]> (rc_Nodes rc)) (rc_cfgs rc)))
      end
  | _, _ => Panic
  end.

Inductive PollResult : Type := PollLeader (id : NodeID) | PollNone | PollTooMany (k : nat).

(** One poll of [AwaitLeader]; the nodes in some order. *)
Definition poll_leader (nodes : list (NodeID * Node S)) : PollResult :=
  match filter (λ p, (State p.2).2 = Leader) nodes with
  | [] => PollNone
  | [p] => PollLeader p.1
  | ps => PollTooMany (length ps)
  end.

(** The polls made before the deadline. *)
Fixpoint AwaitLeader (polls : list (list (NodeID * Node S))) : option NodeID :=
  match polls with
  | [] => None
  | nodes :: polls =>
      match poll_leader nodes with
      | PollLeader id => Some id
      | PollTooMany _ => None
      | PollNone => AwaitLeader polls
      end
  end.
End RaftHarness.

Arguments RaftTestCluster G H S : clear implicits.

(** ** The tests' clusters *)
Lemma node_name_inj prefix : Inj (=) (=) (node_name prefix).
Proof. intros i j E. unfold node_name in E. simplify_eq. lia. Qed.

Lemma node_names_NoDup prefix n : NoDup (node_name prefix <$> seq 0 n).
Proof. apply NoDup_fmap_2; [apply node_name_inj|apply NoDup_seq]. Qed.

Section Reachable.
Context {G H : Type} `{!Rand G}.

Lemma harness_wf ids : NoDup ids → "" ∉ ids → cluster_wf (S := MemoryStorage) ids (harness_config ids).
Proof.
  intros Hnd Hne. split; [done| |].
  - intros p Hp. split; [done|]. split; [by intros ->|done].
  - intros p Hp. cbn. split; [by apply NoDup_filter|]. split; [by intros [? _]%list_elem_of_filter|]. split.
    + intros q Hq. by apply list_elem_of_filter in Hq as [_ ?].
    + revert Hp. clear Hne. induction Hnd as [|q l Hq Hnd IH]; intros Hp; [by apply not_elem_of_nil in Hp|].
      destruct (decide (q = p)) as [->|Hqp].
      * rewrite filter_cons_False by tauto. cbn. rewrite Nat.add_1_r. f_equal. clear IH Hp Hnd.
        induction l as [|x l IH]; [done|]. apply not_elem_of_cons in Hq as [? ?].
        rewrite filter_cons_True by congruence. cbn. f_equal. by apply IH.
      * rewrite filter_cons_True by done. apply elem_of_cons in Hp as [->|Hp]; [done|]. cbn. by rewrite IH.
Qed.

Lemma harness_start ids id e :
  id ≠ "" → ∃ n st', NewNode (harness_config ids id) e NewMemoryStorage = Val (inl n, st').
Proof.
  intros Hid.
  assert (config_ok (harness_config ids id)) as Hc by (by split).
  pose proof (NewNode_spec (harness_config ids id) e NewMemoryStorage Hc) as Hs.
  destruct (NewNode _ e NewMemoryStorage) as [[[n|err] st']|]; [by exists n, st'| |].
  - destruct Hs as [err' Hl]; try done; by repeat constructor.
  - destruct Hs; try done; by repeat constructor.
Qed.

(** The nodes started so far are those of a reachable world of the Raft model. *)
Lemma start_nodes_reachable ids env rest i nodes cfgs R :
  NoDup rest → (∀ p, p ∈ rest → p ≠ "") →
  rreachable ids (harness_config ids) R → (∀ p, up_node (rw_world R) p = nodes !! p) →
  (∀ p, p ∈ rest → w_procs (rw_world R) !! p = Some (Down NewMemoryStorage)) →
  ∃ nodes' cfgs' R', start_nodes NewMemoryStorage ids rest i [] (λ _, None) env nodes cfgs = Val (Some (nodes', cfgs')) ∧
    rreachable ids (harness_config ids) R' ∧ (∀ p, up_node (rw_world R') p = nodes' !! p) ∧
    (∀ p, cfgs' !! p = if decide (p ∈ rest) then Some (harness_config ids p) else cfgs !! p).
Proof.
  intros Hnd. revert i nodes cfgs R. induction Hnd as [|id rest Hid Hnd IH]; intros i nodes cfgs R Hne HR Hup Hdown.
  { exists nodes, cfgs, R. split_and!; try done. }
  pose proof (Hdown id ltac:(by left)) as Hst.
  destruct (harness_start ids id (env id) (Hne id ltac:(by left))) as (n & st' & Hn). cbn [start_nodes foldl default]. rewrite Hn.
  set (R1 := on_world (set_proc id n) R).
  assert (rreachable ids (harness_config ids) R1) as HR1.
  { eapply rreach_step; [exact HR|]. apply (rs_event _ R (EvRestart id (env id))).
    - intros st Hst'. rewrite Hst in Hst'. injection Hst' as <-. by exists n, st'.
    - cbn. unfold down_storage. rewrite Hst. cbn. by rewrite Hn. }
  destruct (IH (i + 1) (<[id := n]> nodes) (<[id := harness_config ids id]> cfgs) R1)
    as (nodes' & cfgs' & R' & Hrun & HR' & Hup' & Hcf); [by intros p Hp; apply Hne; right|done| | |].
  - intros p. unfold up_node, R1. cbn. destruct (decide (id = p)) as [<-|Hp]; [by rewrite !lookup_insert_eq|].
    rewrite !lookup_insert_ne by done. apply Hup.
  - intros p Hp. cbn. rewrite lookup_insert_ne by (by intros <-). apply Hdown. by right.
  - exists nodes', cfgs', R'. split_and!; try done. intros p. rewrite Hcf. destruct (decide (p ∈ rest)) as [Hp|Hp].
    + by rewrite decide_True by (by right).
    + destruct (decide (id = p)) as [<-|Hne']; [by rewrite lookup_insert_eq, decide_True by (by left)|].
      rewrite lookup_insert_ne by done. rewrite decide_False; [done|]. intros [?|?]%elem_of_cons; [by destruct Hne'|done].
Qed.

(** The tests' clusters are clusters of the Raft model: without options and over
    the default storage all nodes start, their configurations form a well-formed
    cluster whose members are the harness's ids, and the running nodes are those
    of a reachable world. *)
Theorem harness_reachable prefix n seed env :
  ∃ rc : RaftTestCluster G H MemoryStorage,
    NewRaftClusterWithPrefix NewMemoryStorage prefix n seed [] (λ _, None) env = Val (Some rc) ∧
    length (tc_IDs (rc_Cluster rc)) = n ∧
    cluster_wf (S := MemoryStorage) (tc_IDs (rc_Cluster rc)) (harness_config (tc_IDs (rc_Cluster rc))) ∧
    (∀ p, p ∈ tc_IDs (rc_Cluster rc) → rc_cfgs rc !! p = Some (harness_config (tc_IDs (rc_Cluster rc)) p)) ∧
    ∃ R, rreachable (tc_IDs (rc_Cluster rc)) (harness_config (tc_IDs (rc_Cluster rc))) R ∧
      ∀ p, up_node (rw_world R) p = rc_Nodes rc !! p.
Proof.
  set (ids := node_name prefix <$> seq 0 n).
  assert (∀ p, p ∈ ids → p ≠ "") as Hne.
  { intros p (i & -> & _)%list_elem_of_fmap. unfold node_name. by destruct prefix. }
  pose proof (node_names_NoDup prefix n) as Hnd. fold ids in Hnd.
  destruct (start_nodes_reachable ids env ids 0 ∅ ∅ (fresh_rworld ids)) as (nodes & cfgs & R & Hrun & HR & Hup & Hcf); try done.
  - apply rreach_init, fresh_rinitial.
  - intros p. unfold up_node. cbn. rewrite lookup_empty. destruct (list_to_map _ !! p) as [pr|] eqn:Hp; [|done].
    by apply elem_of_list_to_map_2, list_elem_of_fmap in Hp as (q & [= -> ->] & _).
  - intros p Hp. cbn. apply elem_of_list_to_map.
    + rewrite <- list_fmap_compose. cbn. by rewrite list_fmap_id.
    + apply list_elem_of_fmap. by exists p.
  - exists (MkRaftCluster (NewClusterWithPrefix prefix n seed) nodes cfgs). unfold NewRaftClusterWithPrefix.
    cbn [NewClusterWithPrefix tc_IDs]. fold ids. rewrite Hrun. cbn [rc_Cluster rc_Nodes rc_cfgs tc_IDs]. fold ids.
    split; [done|]. split; [cbn; by rewrite length_fmap, length_seq|].
    split; [apply harness_wf; [done|]; by intros ?%Hne|]. split; [|by exists R].
    intros p Hp. by rewrite Hcf, decide_True.
Qed.
End Reachable.

(** ** Two leaders at once

    "b" is elected in term 2 while "a", which has not heard of it, still leads
    term 1: nothing is wrong with the cluster, and election safety holds. *)
Definition b_elected_beside_a : list (REvent MemoryStorage) :=
  REvent_base <$> elect_a ++ [EvRestart "c" env0; EvCampaign "b" env0; EvVote 1 "c" env0; EvVoteReply 1 "c" (MkRVReply 2 true)].

Definition up_nodes (R : RWorld MemoryStorage) (ps : list NodeID) : list (NodeID * Node MemoryStorage) :=
  omap (λ p, (λ n, (p, n)) <$> up_node (rw_world R) p) ps.

(** [AwaitLeader] fails such a run: it gives up when it sees two nodes in the
    role, whatever their terms. *)
Theorem AwaitLeader_rejects_stale_leader : ∃ R : RWorld MemoryStorage,
  rreachable three (cfg_among three) R ∧ (λ x, ((State x.2).1, x.1)) <$> up_nodes R three = [(1%N, "a"); (2%N, "b"); (2%N, "c")] ∧
  poll_leader (up_nodes R three) = PollTooMany 2 ∧ AwaitLeader [up_nodes R three] = None.
Proof.
  destruct (run_result three (cfg_among three) b_elected_beside_a (fresh_rworld three)
    (λ R, bool_decide ((λ x, ((State x.2).1, x.1)) <$> up_nodes R three = [(1%N, "a"); (2%N, "b"); (2%N, "c")]) &&
      match poll_leader (up_nodes R three) with PollTooMany 2 => true | _ => false end)) as (R & _ & HR & HP).
  { apply rreach_init, fresh_rinitial. }
  { by vm_compute. }
  apply andb_true_iff in HP as [Ht%bool_decide_eq_true Hp].
  assert (poll_leader (up_nodes R three) = PollTooMany 2) as Hpoll.
  { destruct (poll_leader (up_nodes R three)) as [| |[|[|[|]]]]; done. }
  exists R. split_and!; try done. cbn [AwaitLeader]. by rewrite Hpoll.
Qed.
