(* ===== verification/Bench.v ===== *)
(** * bench/bench.go: the load generator and its statistics

    A client goroutine of [Run] as a step machine, one step being one turn of
    its loops; the input is what the turn finds out: the clock, whether the
    run's context is done, which node leads and how it answers.  A run is a list
    of inputs.  [math/rand] is the parameter of FakeNetwork; [rng.Intn] is
    [Intn].  Durations are nanoseconds.  A percentile [p] is a fraction: the
    code's float64 product is modelled by the exact number it stands for, and
    so is the throughput.  Printing is not modelled. *)
From stdpp Require Import pretty.
From Stdlib Require Import QArith.
From S2P Require Import Prelude KVStore FakeNetwork.
#[local] Close Scope Q_scope.
#[local] Set Warnings "-clear-no-such-hyp".
#[local] Open Scope string_scope.

(** ** Workloads and the configuration of a run *)
Record Workload : Type := MkWorkload { wl_Name : string; ReadFraction : Q }.

Definition ReadHeavy : Workload := MkWorkload "read-heavy" (95 # 100).
Definition WriteHeavy : Workload := MkWorkload "write-heavy" (5 # 100).
Definition Mixed : Workload := MkWorkload "mixed" (50 # 100).

Record BenchConfig : Type := MkBenchConfig {
  bc_Workload : Workload;
  bc_Nodes : Z;
  bc_Clients : Z;
  bc_Duration : Z;
  bc_Keys : Z;
  bc_ValueSize : Z;
  bc_OpTimeout : Z;
  bc_Seed : Z;
  bc_WarmupOps : Z;
  bc_MaxAttempts : Z;
}.

Definition default_to (d x : Z) : Z := if (x <=? 0)%Z then d else x.

(** The defaults at the start of [Run]. *)
Definition with_defaults (cfg : BenchConfig) : BenchConfig :=
  MkBenchConfig (bc_Workload cfg) (bc_Nodes cfg) (bc_Clients cfg) (bc_Duration cfg)
    (default_to 100 (bc_Keys cfg)) (default_to 64 (bc_ValueSize cfg))
    (default_to 2000000000 (bc_OpTimeout cfg)) (bc_Seed cfg) (bc_WarmupOps cfg)
    (default_to 20 (bc_MaxAttempts cfg)).

(** [string(value)] for the slice the loop fills. *)
Definition bench_payload (cfg : BenchConfig) : string :=
  String.string_of_list_byte (replicate (Z.to_nat (bc_ValueSize cfg)) Byte.x78).

Section Client.
Context {G : Type} `{!Rand G} (Intn : Z → G → Z * G).

(** Where a client is: at the head of its loop, in the loop over attempts of an
    operation, or past both. *)
Inductive BenchPc : Type :=
| BLoop
| BAttempt (isRead : bool) (cmd : KVCommand) (opStart : Z) (attempt : Z)
| BFinish (opStart : Z) (ok : bool)
| BDone.

(** [bl_sent] is the trace of requests: the node, whether it was a [Get], and
    the command. *)
Record BenchClient : Type := MkBenchClient {
  bl_rng : G;
  bl_clientID : string;
  bl_seq : N;
  bl_local : list Z;
  bl_localErrs : N;
  bl_pc : BenchPc;
  bl_sent : list (NodeID * bool * KVCommand);
}.

Definition bench_client (cfg : BenchConfig) (clientNum : Z) : BenchClient :=
  MkBenchClient (newRand (bc_Seed cfg + clientNum + 1)) ("bench-" ++ pretty clientNum) 0 [] 0 BLoop [].

(** What a turn finds out: [time.Now()], [runCtx.Err() != nil], [leader()] and
    the outcome of the request. *)
Record BenchInput : Type := MkBenchInput {
  bi_now : Z;
  bi_done : bool;
  bi_leader : option NodeID;
  bi_answer : CommandReply + error;
}.

Definition bl_at (pc : BenchPc) (x : BenchClient) : BenchClient :=
  MkBenchClient (bl_rng x) (bl_clientID x) (bl_seq x) (bl_local x) (bl_localErrs x) pc (bl_sent x).

(** The next operation: its sequence number, and the draws for key and kind. *)
Definition next_operation (cfg : BenchConfig) (now : Z) (x : BenchClient) : BenchClient :=
  let seq := u64_add (bl_seq x) 1 in
  let '(k, g) := Intn (bc_Keys cfg) (bl_rng x) in
  let key := "key-" ++ pretty k in
  let '(f, g) := Float64 g in
  let isRead := Qltb f (ReadFraction (bc_Workload cfg)) in
  let cmd := MkCommand (bl_clientID x) seq OP_UNSPECIFIED key (if isRead then "" else bench_payload cfg) in
  MkBenchClient g (bl_clientID x) seq (bl_local x) (bl_localErrs x) (BAttempt isRead cmd now 0) (bl_sent x).

(** One turn of the loop over attempts. *)
Definition attempt_turn (cfg : BenchConfig) (inp : BenchInput) (isRead : bool) (cmd : KVCommand)
    (opStart attempt : Z) (x : BenchClient) : BenchClient :=
  if negb ((attempt <? bc_MaxAttempts cfg)%Z && negb (bi_done inp)) then bl_at (BFinish opStart false) x else
  match bi_leader inp with
  | None => bl_at (BAttempt isRead cmd opStart (attempt + 1)) x
  | Some node =>
      let ok := match bi_answer inp with inl reply => Success reply | inr _ => false end in
      MkBenchClient (bl_rng x) (bl_clientID x) (bl_seq x) (bl_local x) (bl_localErrs x)
        (if ok then BFinish opStart true else BAttempt isRead cmd opStart (attempt + 1))
        (bl_sent x ++ [(node, isRead, cmd)])%list
  end.

(** [elapsed] and the books at the end of an operation. *)
Definition finish_operation (inp : BenchInput) (opStart : Z) (ok : bool) (x : BenchClient) : BenchClient :=
  if ok then MkBenchClient (bl_rng x) (bl_clientID x) (bl_seq x) (bl_local x ++ [bi_now inp - opStart]%Z)%list
               (bl_localErrs x) BLoop (bl_sent x)
  else if negb (bi_done inp) then
    MkBenchClient (bl_rng x) (bl_clientID x) (bl_seq x) (bl_local x) (bl_localErrs x + 1) BLoop (bl_sent x)
  else bl_at BLoop x.

Definition bench_step (cfg : BenchConfig) (inp : BenchInput) (x : BenchClient) : BenchClient :=
  match bl_pc x with
  | BLoop => if bi_done inp then bl_at BDone x else next_operation cfg (bi_now inp) x
  | BAttempt isRead cmd opStart attempt => attempt_turn cfg inp isRead cmd opStart attempt x
  | BFinish opStart ok => finish_operation inp opStart ok x
  | BDone => x
  end.

Definition bench_run (cfg : BenchConfig) (clientNum : Z) (inputs : list BenchInput) : BenchClient :=
  foldl (λ x inp, bench_step cfg inp x) (bench_client cfg clientNum) inputs.

(** ** Statistics *)

(** [sort.Slice] by [<]: the sorted list is the same whatever the algorithm. *)
Definition sort_durations (l : list Z) : list Z := merge_sort Z.le l.

(** [percentile sorted p] for the fraction [p]; [Z.quot] is the conversion
    to [int]. *)
Definition percentile (sorted : list Z) (p : Q) : Z :=
  if bool_decide (length sorted = 0%nat) then 0%Z else
  let n := Z.of_nat (length sorted) in
  let idx := Z.quot (Qnum p * n) (Zpos (Qden p)) in
  let idx := if (n <=? idx)%Z then (n - 1)%Z else idx in
  default 0%Z (sorted !! Z.to_nat idx).

Record BenchResult : Type := MkBenchResult {
  br_Workload : string;
  br_Nodes : Z;
  br_Clients : Z;
  br_Duration : Z;
  br_Ops : nat;
  br_Errors : N;
  br_Throughput : Q;
  br_P50 : Z;
  br_P95 : Z;
  br_P99 : Z;
  br_Max : Z;
}.

(** The end of [Run]: [clients] in the order in which they added what they
    measured. *)
Definition bench_result (cfg : BenchConfig) (elapsed : Z) (clients : list BenchClient) : BenchResult :=
  let samples := sort_durations (clients ≫= bl_local) in
  let errors := foldr (λ x acc, (bl_localErrs x + acc)%N) 0%N clients in
  let throughput :=
    if (0 <? elapsed)%Z then (inject_Z (Z.of_nat (length samples) * 1000000000) / inject_Z elapsed)%Q else 0%Q in
  MkBenchResult (wl_Name (bc_Workload cfg)) (bc_Nodes cfg) (bc_Clients cfg) elapsed (length samples) errors
    throughput (percentile samples (50 # 100)) (percentile samples (95 # 100)) (percentile samples (99 # 100))
    (default 0%Z (last samples)).
End Client.

(** [int64]'s wrap-around. *)
Definition wrap64 (x : Z) : Z := ((x + 2 ^ 63) mod 2 ^ 64 - 2 ^ 63)%Z.

Record Distribution : Type := MkDistribution {
  di_Samples : list Z;
  di_Min : Z;
  di_P50 : Z;
  di_P95 : Z;
  di_P99 : Z;
  di_Max : Z;
  di_Mean : Z;
}.

Definition Summarize (samples : list Z) : Distribution :=
  if bool_decide (length samples = 0%nat) then MkDistribution [] 0 0 0 0 0 0 else
  let sorted := sort_durations samples in
  let total := foldl (λ total s, wrap64 (total + s)) 0%Z sorted in
  MkDistribution sorted (default 0%Z (head sorted)) (percentile sorted (50 # 100)) (percentile sorted (95 # 100))
    (percentile sorted (99 # 100)) (default 0%Z (last sorted)) (Z.quot total (Z.of_nat (length sorted))).

(** [d.Round(m)]: to the nearest multiple of [m > 0], halves away from zero.
    The standard library saturates at the ends of [int64]. *)
Definition max64 : Z := (2 ^ 63 - 1)%Z.
Definition min64 : Z := (- 2 ^ 63)%Z.
Definition Round (d m : Z) : Z :=
  let r := Z.rem d m in
  if (d <? 0)%Z then
    let r := (- r)%Z in
    if (r + r <? m)%Z then (d + r)%Z
    else let d1 := (d - m + r)%Z in if (min64 <=? d1)%Z then d1 else min64
  else
    if (r + r <? m)%Z then (d - r)%Z
    else let d1 := (d + m - r)%Z in if (d1 <=? max64)%Z then d1 else max64.

Definition round (d : Z) : Z :=
  if (1000000 <=? d)%Z then Round d 10000 else Round d 1000.

Lemma filter_none {A} (P : A → Prop) `{∀ x, Decision (P x)} (l : list A) : (∀ x, x ∈ l → ¬ P x) → filter P l = [].
Proof.
  induction l as [|x l IH]; intros Hl; [done|]. rewrite filter_cons, decide_False by (apply Hl; left).
  apply IH. intros y Hy. apply Hl. by right.
Qed.

Lemma filter_every {A} (P : A → Prop) `{∀ x, Decision (P x)} (l : list A) : (∀ x, x ∈ l → P x) → filter P l = l.
Proof.
  induction l as [|x l IH]; intros Hl; [done|]. rewrite filter_cons, decide_True by (apply Hl; left).
  f_equal. apply IH. intros y Hy. apply Hl. by right.
Qed.

(** ** One client *)
Section ClientProperties.
Context {G : Type} `{!Rand G} (Intn : Z → G → Z * G) (cfg : BenchConfig).
Abbreviation run := (bench_run Intn cfg).
Abbreviation step := (bench_step Intn cfg).

Definition sent_with (x : BenchClient (G := G)) (s : N) : list (NodeID * bool * KVCommand) :=
  filter (λ r, SeqNo r.2 = s) (bl_sent x).

(** What holds at every turn: requests carry the session's numbers in order,
    those of the operation under way are its attempts, and the books balance. *)
Record client_inv (id : string) (x : BenchClient (G := G)) : Prop := {
  ci_id : bl_clientID x = id;
  ci_sent r : r ∈ bl_sent x → ClientId r.2 = id ∧ (SeqNo r.2 ≤ bl_seq x)%N;
  ci_same r r' : r ∈ bl_sent x → r' ∈ bl_sent x → SeqNo r.2 = SeqNo r'.2 → r.1.2 = r'.1.2 ∧ r.2 = r'.2;
  ci_few s : (Z.of_nat (length (sent_with x s)) ≤ Z.max 0 (bc_MaxAttempts cfg))%Z;
  ci_books : (N.of_nat (length (bl_local x)) + bl_localErrs x
              + match bl_pc x with BAttempt _ _ _ _ | BFinish _ _ => 1 | _ => 0 end ≤ bl_seq x)%N;
  ci_current : match bl_pc x with
    | BAttempt isRead cmd _ attempt =>
        ClientId cmd = id ∧ SeqNo cmd = bl_seq x ∧
        (∀ r, r ∈ bl_sent x → SeqNo r.2 = bl_seq x → r.1.2 = isRead ∧ r.2 = cmd) ∧
        (Z.of_nat (length (sent_with x (bl_seq x))) ≤ attempt)%Z
    | _ => True
    end;
}.

Lemma client_inv_start k : client_inv ("bench-" ++ pretty k) (bench_client cfg k).
Proof. split; cbn; try done; try lia; intros; set_solver. Qed.

Lemma attempt_turn_inv id inp isRead cmd opStart attempt x :
  bl_pc x = BAttempt isRead cmd opStart attempt → client_inv id x →
  client_inv id (attempt_turn cfg inp isRead cmd opStart attempt x).
Proof.
  intros Hpc [Hid Hsent Hsame Hfew Hbooks Hcur]. rewrite Hpc in Hbooks, Hcur.
  destruct Hcur as (Hc & Hs & Hall & Hatt). unfold attempt_turn.
  destruct (_ && _) eqn:Hgo; cbn [negb]; [|split; cbn; auto].
  apply andb_true_iff in Hgo as [Hlt%Z.ltb_lt _].
  destruct (bi_leader inp) as [node|].
  2:{ split; cbn; auto. repeat split; auto; [set_solver..|]. unfold sent_with in *. cbn. lia. }
  assert (∀ s, length (filter (λ r, SeqNo r.2 = s) (bl_sent x ++ [(node, isRead, cmd)])%list)
     = length (sent_with x s) + if decide (s = bl_seq x) then 1 else 0) as Hlen.
  { intros s. unfold sent_with. rewrite filter_app, length_app. f_equal. rewrite filter_cons, filter_nil. cbn.
    rewrite Hs. destruct (decide (bl_seq x = s)), (decide (s = bl_seq x)); congruence || done. }
  assert (∀ r, r ∈ (bl_sent x ++ [(node, isRead, cmd)])%list → SeqNo r.2 = bl_seq x → r.1.2 = isRead ∧ r.2 = cmd) as Hall'.
  { intros r [?| ->%list_elem_of_singleton]%elem_of_app; auto. }
  split; unfold sent_with; cbn; auto.
  - intros r [?| ->%list_elem_of_singleton]%elem_of_app; [auto|]. cbn. rewrite Hs. split; [done|lia].
  - intros r r' Hr Hr' Heq. destruct (decide (SeqNo r.2 = bl_seq x)) as [E|E].
    + destruct (Hall' r Hr E) as [-> ->]. by destruct (Hall' r' Hr' ltac:(congruence)) as [-> ->].
    + apply elem_of_app in Hr as [Hr| ->%list_elem_of_singleton]; [|done].
      apply elem_of_app in Hr' as [Hr'| ->%list_elem_of_singleton]; [auto|cbn in *; congruence].
  - intros s. rewrite Hlen. destruct (decide (s = bl_seq x)) as [->|]; [lia|]. specialize (Hfew s). lia.
  - destruct (bi_answer inp) as [reply|]; [destruct (Success reply)|]; lia.
  - assert (Z.of_nat (length (filter (λ r, SeqNo r.2 = bl_seq x) (bl_sent x ++ [(node, isRead, cmd)])%list)) ≤ attempt + 1)%Z.
    { rewrite Hlen, decide_True by done. lia. }
    destruct (bi_answer inp) as [reply|]; [destruct (Success reply)|]; auto.
Qed.

Lemma next_operation_inv id now x :
  bl_pc x = BLoop → (bl_seq x + 1 < two64)%N → client_inv id x → client_inv id (next_operation Intn cfg now x).
Proof.
  intros Hpc Hb [Hid Hsent Hsame Hfew Hbooks Hcur]. rewrite Hpc in Hbooks. unfold next_operation.
  destruct (Intn _ _) as [k g]. destruct (Float64 g) as [f g']. rewrite u64_add_small by done.
  assert (∀ r, r ∈ bl_sent x → SeqNo r.2 ≠ (bl_seq x + 1)%N) as Hnew by (intros r Hr; specialize (Hsent r Hr); lia).
  split; unfold sent_with; cbn; auto; try lia.
  - intros r Hr. destruct (Hsent r Hr). split; [done|lia].
  - repeat split; auto; try (intros; exfalso; by eapply Hnew).
    assert (filter (λ r : NodeID * bool * KVCommand, SeqNo r.2 = (bl_seq x + 1)%N) (bl_sent x) = []) as ->; [|done].
    by apply filter_none.
Qed.

Lemma finish_operation_inv id inp opStart ok x :
  bl_pc x = BFinish opStart ok → client_inv id x → client_inv id (finish_operation inp opStart ok x).
Proof.
  intros Hpc [Hid Hsent Hsame Hfew Hbooks Hcur]. rewrite Hpc in Hbooks. unfold finish_operation.
  destruct ok; [|destruct (bi_done inp)]; split; unfold sent_with; cbn; auto; rewrite ?length_app; cbn; lia.
Qed.

Lemma step_seq inp x : (bl_seq x + 1 < two64)%N → (bl_seq x ≤ bl_seq (step inp x) ≤ bl_seq x + 1)%N.
Proof.
  intros Hb. unfold bench_step. destruct (bl_pc x) as [|r c o a|o ok|]; cbn; [..|lia].
  - destruct (bi_done inp); cbn; [lia|]. unfold next_operation. destruct (Intn _ _) as [k g].
    destruct (Float64 g). cbn. rewrite u64_add_small by done. lia.
  - unfold attempt_turn. destruct (negb _); cbn; [lia|]. destruct (bi_leader inp); cbn; lia.
  - unfold finish_operation. destruct ok; [|destruct (bi_done inp)]; cbn; lia.
Qed.

Lemma bench_step_inv id inp x :
  (bl_seq x + 1 < two64)%N → client_inv id x → client_inv id (step inp x).
Proof.
  intros Hb Hinv. unfold bench_step. destruct (bl_pc x) as [|r c o a|o ok|] eqn:Hpc; [..|done].
  - destruct (bi_done inp); [|by apply next_operation_inv].
    destruct Hinv as [Hid Hsent Hsame Hfew Hbooks Hcur]. rewrite Hpc in Hbooks. by split; cbn.
  - by apply attempt_turn_inv.
  - by apply finish_operation_inv.
Qed.

Lemma bench_run_inv k inputs :
  (N.of_nat (length inputs) < two64)%N →
  client_inv ("bench-" ++ pretty k) (run k inputs) ∧ (bl_seq (run k inputs) ≤ N.of_nat (length inputs))%N.
Proof.
  induction inputs as [|inp inputs IH] using rev_ind; intros Hb.
  - split; [apply client_inv_start|done].
  - rewrite length_app in Hb. cbn in Hb. destruct IH as [Hinv Hle]; [lia|].
    unfold bench_run in *. rewrite foldl_app. cbn. rewrite length_app. cbn.
    pose proof (step_seq inp (foldl (λ x inp, step inp x) (bench_client cfg k) inputs)) as Hs.
    split; [apply bench_step_inv; [lia|done]|]. destruct Hs; lia.
Qed.

(** A load generator's client keeps the discipline the servers' sessions
    need: its requests carry one client id, the attempts of an operation carry
    one command, at most [MaxAttempts] of them, and no two operations share a
    sequence number.  Every operation is counted at most once, as a success or
    as an error. *)
Theorem bench_client_session k inputs :
  (N.of_nat (length inputs) < two64)%N →
  let x := run k inputs in
  (∀ r, r ∈ bl_sent x → ClientId r.2 = "bench-" ++ pretty k) ∧
  (∀ r r', r ∈ bl_sent x → r' ∈ bl_sent x → SeqNo r.2 = SeqNo r'.2 → r.1.2 = r'.1.2 ∧ r.2 = r'.2) ∧
  (∀ s, (Z.of_nat (length (sent_with x s)) ≤ Z.max 0 (bc_MaxAttempts cfg))%Z) ∧
  (N.of_nat (length (bl_local x)) + bl_localErrs x ≤ bl_seq x)%N.
Proof.
  intros Hb x. destruct (bench_run_inv k inputs Hb) as [[Hid Hsent Hsame Hfew Hbooks _] _].
  repeat split; [apply Hsent|apply Hsame|apply Hsame|exact Hfew|subst x; lia]; done.
Qed.
End ClientProperties.

(** ** What the numbers mean *)
#[local] Close Scope string_scope.

Lemma sort_durations_perm l : sort_durations l ≡ₚ l.
Proof. apply merge_sort_Permutation. Qed.

Lemma sort_durations_sorted l : Sorted Z.le (sort_durations l).
Proof. apply Sorted_merge_sort; [intros x y; lia]. Qed.

Lemma sort_durations_unique l l' : l ≡ₚ l' → sort_durations l = sort_durations l'.
Proof.
  intros H. eapply (StronglySorted_unique Z.le); try (apply Sorted_StronglySorted; [intros ???; lia|apply sort_durations_sorted]).
  by rewrite !sort_durations_perm.
Qed.

Lemma sorted_split (l : list Z) i v :
  Sorted Z.le l → l !! i = Some v →
  length (filter (λ y, (y < v)%Z) l) ≤ i ∧ i < length (filter (λ y, (y ≤ v)%Z) l).
Proof.
  intros Hs Hv. apply Sorted_StronglySorted in Hs; [|intros ???; lia].
  apply list_elem_of_split_length in Hv as (l1 & l2 & -> & ->).
  apply StronglySorted_app in Hs as (Hcross & _ & Hs). apply StronglySorted_cons in Hs as [Htail _].
  rewrite Forall_forall in Htail.
  rewrite !filter_app, !filter_cons, !length_app, (decide_False (P := (v < v)%Z)), (decide_True (P := (v ≤ v)%Z)) by lia. split.
  - rewrite (filter_none _ l2); [|intros y Hy; specialize (Htail y Hy); lia].
    pose proof (length_filter (λ y, (y < v)%Z) l1). cbn. lia.
  - rewrite (filter_every _ l1); [cbn; lia|]. intros y Hy. apply Hcross; [done|left].
Qed.

(** Of sorted measurements, the [p]-th percentile is one of them, at most the
    share [p] of them is smaller, and more than that share is no larger. *)
Theorem percentile_rank (l : list Z) (p : Q) :
  Sorted Z.le l → l ≠ [] → (0 ≤ Qnum p < Zpos (Qden p))%Z →
  percentile l p ∈ l ∧
  (Z.of_nat (length (filter (λ y, (y < percentile l p)%Z) l)) * Zpos (Qden p) ≤ Qnum p * Z.of_nat (length l))%Z ∧
  (Qnum p * Z.of_nat (length l) < Z.of_nat (length (filter (λ y, (y ≤ percentile l p)%Z) l)) * Zpos (Qden p))%Z.
Proof.
  intros Hs Hne Hp. assert (0 < length l)%nat as Hn by (destruct l; [done|cbn; lia]).
  set (n := Z.of_nat (length l)). set (i := (Qnum p * n / Zpos (Qden p))%Z).
  assert (0 ≤ i < n)%Z as Hi.
  { subst i n. split; [apply Z.div_pos; lia|]. apply Z.div_lt_upper_bound; [lia|nia]. }
  destruct (lookup_lt_is_Some_2 l (Z.to_nat i)) as [v Hv]; [lia|].
  assert (percentile l p = v) as ->.
  { unfold percentile. rewrite bool_decide_false by lia. fold n.
    rewrite Z.quot_div_nonneg by nia. fold i. destruct (Z.leb_spec n i); [lia|]. by rewrite Hv. }
  destruct (sorted_split l (Z.to_nat i) v Hs Hv) as [Hlo Hhi].
  pose proof (Z.div_mod (Qnum p * n) (Zpos (Qden p))) as Hdm. pose proof (Z.mod_pos_bound (Qnum p * n) (Zpos (Qden p))).
  fold i in Hdm. subst n. split; [by eapply list_elem_of_lookup_2|]. split; nia.
Qed.

(** The median of two measurements is the larger one; by nearest rank it would
    be the smaller. *)
Example percentile_not_nearest_rank : percentile [1; 2]%Z (50 # 100) = 2%Z.
Proof. vm_compute. reflexivity. Qed.

Lemma percentile_lookup l p :
  l ≠ [] → (0 ≤ Qnum p)%Z → ∃ i, l !! i = Some (percentile l p) ∧
    Z.of_nat i = Z.min (Qnum p * Z.of_nat (length l) / Zpos (Qden p)) (Z.of_nat (length l) - 1).
Proof.
  intros Hne Hp. assert (0 < length l)%nat as Hn by (destruct l; [done|cbn; lia]).
  unfold percentile. rewrite bool_decide_false, Z.quot_div_nonneg by nia.
  set (q := (_ / _)%Z). assert (0 ≤ q)%Z by (subst q; apply Z.div_pos; nia).
  set (j := if (_ <=? _)%Z then _ else _).
  assert (j = Z.min q (Z.of_nat (length l) - 1)) as Hj by (subst j; destruct (Z.leb_spec (Z.of_nat (length l)) q); lia).
  destruct (lookup_lt_is_Some_2 l (Z.to_nat j)) as [v Hv]; [lia|].
  exists (Z.to_nat j). rewrite Hv. split; [done|lia].
Qed.

Lemma sorted_lookup_le (l : list Z) i j x y :
  Sorted Z.le l → l !! i = Some x → l !! j = Some y → (i ≤ j)%nat → (x ≤ y)%Z.
Proof.
  intros Hs Hx Hy Hij. destruct (decide (i = j)) as [->|]; [simplify_eq; lia|].
  apply Sorted_StronglySorted in Hs; [|intros ???; lia].
  apply list_elem_of_split_length in Hx as (l1 & l2 & -> & ->).
  apply StronglySorted_app in Hs as (_ & _ & Hs). apply StronglySorted_cons in Hs as [Htail _].
  rewrite lookup_app_r, lookup_cons in Hy by lia. destruct (j - length l1)%nat eqn:Hj; [lia|].
  rewrite Forall_forall in Htail. apply Htail. by eapply list_elem_of_lookup_2.
Qed.

Lemma percentile_mono l p q :
  Sorted Z.le l → l ≠ [] → (0 ≤ Qnum p)%Z → (p <= q)%Q → (percentile l p ≤ percentile l q)%Z.
Proof.
  intros Hs Hne Hp Hpq. unfold Qle in Hpq.
  destruct (percentile_lookup l p) as (i & Hi & Hi'); [done..|].
  destruct (percentile_lookup l q) as (j & Hj & Hj'); [done|nia|].
  eapply sorted_lookup_le; [done..|].
  assert (Qnum p * Z.of_nat (length l) / Zpos (Qden p) ≤ Qnum q * Z.of_nat (length l) / Zpos (Qden q))%Z; [|lia].
  apply Z.div_le_lower_bound; [lia|].
  pose proof (Z.mul_div_le (Qnum p * Z.of_nat (length l)) (Zpos (Qden p)) ltac:(lia)).
  set (a := (_ / _)%Z) in *. nia.
Qed.

Lemma percentile_bounds l p x y :
  Sorted Z.le l → l ≠ [] → (0 ≤ Qnum p)%Z → head l = Some x → last l = Some y →
  (x ≤ percentile l p ≤ y)%Z.
Proof.
  intros Hs Hne Hp Hx Hy. destruct (percentile_lookup l p) as (i & Hi & _); [done..|].
  rewrite head_lookup in Hx. rewrite last_lookup in Hy. pose proof (lookup_lt_Some _ _ _ Hi).
  split; eapply sorted_lookup_le; eauto; lia.
Qed.

Lemma wrap64_small x : (- 2 ^ 63 ≤ x < 2 ^ 63)%Z → wrap64 x = x.
Proof. intros H. unfold wrap64. rewrite Z.mod_small; lia. Qed.

Lemma total_exact (l : list Z) acc :
  Forall (λ x, (0 ≤ x)%Z) l → (0 ≤ acc)%Z → (acc + foldr Z.add 0 l < 2 ^ 63)%Z →
  foldl (λ total s, wrap64 (total + s)) acc l = (acc + foldr Z.add 0 l)%Z.
Proof.
  revert acc. induction l as [|x l IH]; intros acc Hl Ha Hb; cbn in *; [lia|].
  apply Forall_cons in Hl as [Hx Hl].
  assert (0 ≤ foldr Z.add 0 l)%Z by (clear -Hl; induction Hl; cbn; lia).
  rewrite wrap64_small, IH by (done || lia). lia.
Qed.

Lemma sum_bounds (l : list Z) x y :
  Forall (λ z, (x ≤ z ≤ y)%Z) l → (x * Z.of_nat (length l) ≤ foldr Z.add 0 l ≤ y * Z.of_nat (length l))%Z.
Proof. induction 1; cbn [foldr length]; lia. Qed.

#[local] Instance plus_perm : Proper ((≡ₚ) ==> (=)) (foldr Z.add 0%Z).
Proof. apply (foldr_permutation_proper (=) Z.add); [solve_proper|intros; lia]. Qed.

(** [Summarize], the sorted samples aside. *)
Lemma Summarize_unfold samples x y :
  samples ≠ [] → Forall (λ x, (0 ≤ x)%Z) samples → (foldr Z.add 0 samples < 2 ^ 63)%Z →
  let l := sort_durations samples in
  head l = Some x → last l = Some y →
  Summarize samples = MkDistribution l x (percentile l (50 # 100)) (percentile l (95 # 100)) (percentile l (99 # 100)) y
                        (foldr Z.add 0 samples / Z.of_nat (length samples))%Z.
Proof.
  intros Hne Hpos Hsum l Hx Hy. pose proof (sort_durations_perm samples) as Hp. fold l in Hp.
  assert (0 ≤ foldr Z.add 0 samples)%Z by (clear -Hpos; induction Hpos; cbn; lia).
  unfold Summarize. rewrite bool_decide_false by (by destruct samples). cbn. fold l.
  assert (Forall (λ x, (0 ≤ x)%Z) l) as Hpos' by (by rewrite Hp).
  assert (foldr Z.add 0 l = foldr Z.add 0 samples)%Z as Hsum' by (by rewrite Hp).
  assert (length l = length samples) as Hlen by (by rewrite Hp).
  rewrite Hx, Hy, total_exact, Hsum', Hlen by (done || lia).
  cbn. rewrite Z.quot_div_nonneg; [done|lia|destruct samples; cbn; [done|lia]].
Qed.

(** The summary of a non-empty set of durations: it depends on the durations
    alone and not on the order in which they came, the percentiles are in order
    between the extremes, and the mean is the sum divided by the number, rounded
    down, as long as the sum fits in an [int64]. *)
Theorem Summarize_ordered samples :
  samples ≠ [] → Forall (λ x, (0 ≤ x)%Z) samples → (foldr Z.add 0 samples < 2 ^ 63)%Z →
  let d := Summarize samples in
  (∀ samples', samples ≡ₚ samples' → Summarize samples' = d) ∧
  di_Min d ∈ samples ∧ di_Max d ∈ samples ∧ Forall (λ z, (di_Min d ≤ z ≤ di_Max d)%Z) samples ∧
  (di_Min d ≤ di_P50 d ≤ di_P95 d)%Z ∧ (di_P95 d ≤ di_P99 d ≤ di_Max d)%Z ∧
  di_Mean d = (foldr Z.add 0 samples / Z.of_nat (length samples))%Z.
Proof.
  intros Hne Hpos Hsum d. pose proof (sort_durations_perm samples) as Hp. pose proof (sort_durations_sorted samples) as Hs.
  assert (sort_durations samples ≠ []) as Hl by (intros E; rewrite E in Hp; by apply Permutation_nil in Hp).
  destruct (head (sort_durations samples)) as [x|] eqn:Hx; [|by destruct (sort_durations samples)].
  destruct (last (sort_durations samples)) as [y|] eqn:Hy; [|by apply last_None in Hy].
  pose proof (Summarize_unfold samples x y Hne Hpos Hsum Hx Hy) as Hd.
  split.
  { intros samples' H. rewrite (sort_durations_unique samples samples' H) in Hx, Hy, Hd. subst d. rewrite Hd.
    rewrite H in Hpos, Hsum |- *. apply Summarize_unfold; try done. intros ->. by apply Permutation_nil_r in H. }
  subst d. rewrite Hd. cbn. rewrite head_lookup in Hx. rewrite last_lookup in Hy. split_and!.
  - rewrite <-Hp. by eapply list_elem_of_lookup_2.
  - rewrite <-Hp. by eapply list_elem_of_lookup_2.
  - rewrite <-Hp. apply Forall_lookup. intros i z Hz. pose proof (lookup_lt_Some _ _ _ Hz).
    split; eapply sorted_lookup_le; eauto; lia.
  - rewrite <-head_lookup in Hx. rewrite <-last_lookup in Hy. by eapply percentile_bounds.
  - apply percentile_mono; done || lia.
  - apply percentile_mono; done || lia.
  - rewrite <-head_lookup in Hx. rewrite <-last_lookup in Hy. by eapply percentile_bounds.
  - done.
Qed.

(** What [Run] reports does not depend on the order in which its clients finish. *)
Theorem bench_result_order {G} (cfg : BenchConfig) elapsed (clients clients' : list (BenchClient (G := G))) :
  clients ≡ₚ clients' → bench_result cfg elapsed clients = bench_result cfg elapsed clients'.
Proof.
  intros H. unfold bench_result. rewrite (sort_durations_unique (clients ≫= bl_local) (clients' ≫= bl_local)) by (by rewrite H).
  f_equal. apply (foldr_permutation (=) (λ x acc, (bl_localErrs x + acc)%N)); [solve_proper|intros; lia|done].
Qed.
