(* ===== verification/Supervisor.v ===== *)
(** * internal/supervisor: the lifecycle of one node

    A [Supervisor] owns a data directory, a transport and at most one running
    incarnation: [node], [store], [kvServer] and [storage] are set and cleared
    together, so they are one option, the storage being that of the node.
    [su_disk] is the data directory while nobody has it open.  Operations are
    critical sections under [mu]; [Config.Logger] is not modelled. *)
From S2P Require Import Prelude RaftTypes RaftNode KVStore DiskStorage KVServer GrpcTransport.

Record SupConfig : Type := MkSupConfig {
  sc_ID : NodeID;
  sc_Peers : list NodeID;
  sc_Addrs : gmap NodeID string;
  sc_DataDir : string;
  sc_ElectionTimeoutMin : Z;
  sc_ElectionTimeoutMax : Z;
  sc_HeartbeatInterval : Z;
  sc_SnapshotThreshold : Z;
}.

Inductive Lifecycle : Type := LIFECYCLE_RUNNING | LIFECYCLE_CRASHED.

Definition DiskNode : Type := Node DiskStorage.

Record Supervisor : Type := MkSup {
  su_cfg : SupConfig;
  su_kvServer : option (Server (S := DiskStorage));
  su_startedAt : Z;
  su_crashed : bool;
  su_disk : DiskStorage;
  su_transport : Transport DiskNode;
}.

Definition su_set_server (x : option (Server (S := DiskStorage))) (s : Supervisor) : Supervisor :=
  MkSup (su_cfg s) x (su_startedAt s) (su_crashed s) (su_disk s) (su_transport s).
Definition su_set_startedAt (x : Z) (s : Supervisor) : Supervisor :=
  MkSup (su_cfg s) (su_kvServer s) x (su_crashed s) (su_disk s) (su_transport s).
Definition su_set_crashed (x : bool) (s : Supervisor) : Supervisor :=
  MkSup (su_cfg s) (su_kvServer s) (su_startedAt s) x (su_disk s) (su_transport s).
Definition su_set_disk (x : DiskStorage) (s : Supervisor) : Supervisor :=
  MkSup (su_cfg s) (su_kvServer s) (su_startedAt s) (su_crashed s) x (su_transport s).
Definition su_set_transport (x : Transport DiskNode) (s : Supervisor) : Supervisor :=
  MkSup (su_cfg s) (su_kvServer s) (su_startedAt s) (su_crashed s) (su_disk s) x.

(** The [raft.Config] of [startLocked]. *)
Definition raft_config (c : SupConfig) : Config :=
  MkConfig (sc_ID c) (sc_Peers c) (sc_ElectionTimeoutMin c) (sc_ElectionTimeoutMax c)
    (sc_HeartbeatInterval c) 0 0 (sc_SnapshotThreshold c).

Definition on_disk {A} (m : GoM DiskStorage A) : GoM Supervisor A := on_field su_disk su_set_disk m.

(** [NewNode] over the data directory; it registers the node's handler. *)
Definition start_node (e : Env) : GoM Supervisor (DiskNode + error) := λ s,
  match NewNode (raft_config (su_cfg s)) e (su_disk s) with
  | Panic => Panic
  | Val (inr err, d) => Val (inr err, su_set_disk d s)
  | Val (inl n, d) =>
      Val (inl n, su_set_transport (RegisterHandler (Some (node_handler e)) (su_transport s)) (su_set_disk d s))
  end.

Definition startLocked (e : Env) : GoM Supervisor (option error) :=
  err ← on_disk NewDiskStorage;
  if err is Some err then mret (Some (Wrapf "supervisor: opening storage" err)) else
  r ← start_node e;
  match r with
  | inr err =>
      on_disk ds_Close ;;
      mret (Some (Wrapf "supervisor: starting raft node" err))
  | inl n =>
      s ← get;
      modify (su_set_server (Some (NewServer n NewStore (sc_Addrs (su_cfg s))))) ;;
      modify (su_set_startedAt (now e)) ;;
      modify (su_set_crashed false) ;;
      mret None
  end.

(** [stopLocked]: the handler goes first, the storage is closed last; both
    [Stop]s only end goroutines. *)
Definition stopLocked : GoM Supervisor () :=
  s ← get;
  match su_kvServer s with
  | None => mret ()
  | Some server =>
      modify (su_set_transport (RegisterHandler None (su_transport s))) ;;
      modify (su_set_disk (n_storage (sv_node server))) ;;
      on_disk ds_Close ;;
      modify (su_set_server None)
  end.

(** [New]; the data directory and the transport are part of the environment. *)
Definition Supervisor_New (cfg : SupConfig) (transport : option (Transport DiskNode)) (dir : DiskStorage) (e : Env)
    : go (Supervisor + error) :=
  if bool_decide (sc_ID cfg = "") then Val (inr (Errorf "supervisor: Config.ID is required")) else
  match transport with
  | None => Val (inr (Errorf "supervisor: Config.Transport is required"))
  | Some t =>
      if bool_decide (sc_DataDir cfg = "") then Val (inr (Errorf "supervisor: Config.DataDir is required"))
      else match startLocked e (MkSup cfg None 0 false dir t) with
           | Panic => Panic
           | Val (Some err, _) => Val (inr err)
           | Val (None, s) => Val (inl s)
           end
  end.

Definition Supervisor_Close : GoM Supervisor () := stopLocked ;; modify (su_set_crashed true).

Definition crash_node : GoM Supervisor () :=
  s ← get;
  if su_crashed s then mret () else
  stopLocked ;;
  modify (su_set_crashed true).

Definition restart_node (e : Env) : GoM Supervisor (option error) :=
  s ← get;
  if negb (su_crashed s) then mret None else startLocked e.

Definition current (s : Supervisor) : option (Server (S := DiskStorage)) := su_kvServer s.

(** [Node()] *)
Definition running_node (s : Supervisor) : option DiskNode := sv_node <$> su_kvServer s.

Definition errCrashed : error := Errorf "distkv: node is down".

(** [Get], [Put], [Append] and [Delete]: the call the current incarnation
    starts, or the refusal. *)
Definition forward (endpoint : KVCommand → Call) (cmd : KVCommand) (s : Supervisor) : Call + error :=
  match current s with
  | None => inr errCrashed
  | Some _ => inl (endpoint cmd)
  end.

(** [Crash] and [Restart] of the Admin service: the lifecycle they report. *)
Definition Admin_Crash : GoM Supervisor (Lifecycle * option error) :=
  crash_node ;; mret (LIFECYCLE_CRASHED, None).

Definition Admin_Restart (e : Env) : GoM Supervisor (Lifecycle * option error) :=
  err ← restart_node e;
  mret (if err is Some err then (LIFECYCLE_CRASHED, Some err) else (LIFECYCLE_RUNNING, None)).

Record NodeStatus : Type := MkNodeStatus {
  ns_Id : string;
  ns_Lifecycle : Lifecycle;
  ns_IsolatedFrom : list string;
  ns_Role : string;
  ns_Term : N;
  ns_LeaderId : string;
  ns_CommitIndex : N;
  ns_LastApplied : N;
  ns_LastLogIndex : N;
  ns_LogLen : Z;
  ns_LastIncludedIndex : N;
  ns_LastIncludedTerm : N;
  ns_Followers : gmap string FollowerProgress;
  ns_KeyCount : nat;
  ns_UptimeMs : Z;
}.

(** [status], at time [t]; [uint64(st.LogLen)] is of a length. *)
Definition status (t : Z) (s : Supervisor) : go NodeStatus :=
  let isolated := Isolation (su_transport s) in
  match su_kvServer s with
  | None => Val (MkNodeStatus (sc_ID (su_cfg s)) LIFECYCLE_CRASHED isolated "" 0 "" 0 0 0 0 0 0 ∅ 0 0)
  | Some server =>
      match Node_Status (sv_node server) with
      | Panic => Panic
      | Val st => Val (MkNodeStatus (sc_ID (su_cfg s)) LIFECYCLE_RUNNING isolated
          (Role_String (st_Role st)) (st_Term st) (st_LeaderID st) (st_CommitIndex st) (st_LastApplied st)
          (st_LastLogIndex st) (st_LogLen st) (st_LastIncludedIndex st) (st_LastIncludedTerm st)
          (default ∅ (st_Followers st)) (Len (sv_store server)) ((t - su_startedAt s) / 1000000)%Z)
      end
  end.

(** [SetPartition] of the Admin service. *)
Definition SetPartition (peers : list NodeID) (t : Z) : GoM Supervisor NodeStatus :=
  s ← get;
  modify (su_set_transport (SetIsolation peers (su_transport s))) ;;
  s ← get;
  lift_go (status t s).
