(* ===== verification/SupervisorProperties.v ===== *)
(** * Correctness of internal/supervisor

    A crash and a restart of a running node end to end: the supervisor, the
    write-ahead log and the consensus node together. *)
From S2P Require Import Prelude RaftTypes RaftNode RaftLog RaftService KVStore Codec DiskStorage DiskRecovery DiskContract DiskCrash DiskFaults KVServer GrpcTransport Supervisor.

(** A closed, fault-free storage reopens as after a process restart. *)
Lemma reopen_closed d :
  d_faults d = [] → d_readErr d = None →
  NewDiskStorage (set_handle Closed d) = NewDiskStorage (crash d).
Proof. destruct d. cbn. by intros -> ->. Qed.

Lemma recover_split d r d' :
  d_faults d = [] → recover (crash d) = Val (r, d') →
  ∃ d2, NewDiskStorage (crash d) = Val (None, d2) ∧ ds_Load d2 = Val (r, d').
Proof.
  intros Hf. unfold recover. unfold mbind at 1, GoM_bind at 1.
  assert (∃ d2, NewDiskStorage (crash d) = Val (None, d2)) as [d2 Hd2] by (eexists; reflexivity).
  rewrite Hd2. intros Hr. by exists d2.
Qed.

Lemma close_open d :
  d_handle d = Linked → d_faults d = [] → ds_Close d = Val (None, set_handle Closed d).
Proof. destruct d. cbn. by intros -> ->. Qed.

(** What a crash leaves behind. *)
Lemma crash_running s server :
  su_kvServer s = Some server → su_crashed s = false →
  d_handle (n_storage (sv_node server)) = Linked → d_faults (n_storage (sv_node server)) = [] →
  crash_node s = Val ((), MkSup (su_cfg s) None (su_startedAt s) true
    (set_handle Closed (n_storage (sv_node server))) (RegisterHandler None (su_transport s))).
Proof.
  intros Hs Hc Hl Hf. unfold crash_node, stopLocked, on_disk, on_field, mbind, GoM_bind, get, modify.
  rewrite Hc, Hs. cbn. by rewrite close_open.
Qed.

(** Starting on files that hold a readable state. *)
Lemma start_recovers e s d ps d' es :
  su_disk s = set_handle Closed d → d_faults d = [] → d_readErr d = None →
  recover (crash d) = Val (inl ps, d') → disk_ok es d' → disk_view d' = ps →
  config_ok (raft_config (su_cfg s)) → (next_index (Log ps) ≤ two63)%N → (CurrentTerm ps < two64)%N →
  Forall (λ e, Term e < two64)%N (Log ps) →
  ∃ n t, startLocked e s = Val (None, MkSup (su_cfg s)
      (Some (NewServer n NewStore (sc_Addrs (su_cfg s)))) (now e) false d' t) ∧
    service n ∧ recovered (raft_config (su_cfg s)) ps n ∧ n_storage n = d'.
Proof.
  intros Hd Hf Hr Hrec Hok Hv Hcfg Hb Ht Hts.
  destruct (recover_split d _ _ Hf Hrec) as (d2 & Hopen & Hload).
  assert (sto_ok d') as Hsto by (by exists es).
  pose proof (NewNode_loads (S := DiskStorage) _ e d2 ps d' Hcfg Hload Hsto Hv Hb Ht Hts) as Hnode.
  destruct Hnode as (n & Hnew & Hserv & Hrecov & Hst).
  exists n, (RegisterHandler (Some (node_handler e)) (su_transport s)). split; [|done].
  unfold startLocked, on_disk, on_field, mbind, GoM_bind, get, modify. rewrite Hd, reopen_closed by done.
  rewrite Hopen. cbn. unfold start_node. cbn. by rewrite Hnew.
Qed.

(** C26: a crash and a restart keep everything durable.  A node that runs on its
    write-ahead log, in service, is destroyed by [Crash]: no incarnation is left
    and requests are refused.  [Restart] then builds a node from the files
    alone: it is in service, follows in the same term with the same vote, and
    has the same log and snapshot, over an empty store that it will refill. *)
Theorem crash_restart_recovers e s server :
  su_kvServer s = Some server → su_crashed s = false →
  node_ok (sv_node server) → d_faults (n_storage (sv_node server)) = [] →
  config_ok (raft_config (su_cfg s)) →
  let n := sv_node server in
  ∃ s1 s2 n' addrs, Admin_Crash s = Val ((LIFECYCLE_CRASHED, None), s1) ∧
    (∀ endpoint cmd, forward endpoint cmd s1 = inr errCrashed) ∧
    Admin_Restart e s1 = Val ((LIFECYCLE_RUNNING, None), s2) ∧
    su_kvServer s2 = Some (NewServer n' NewStore addrs) ∧ service n' ∧ n_role n' = Follower ∧
    n_currentTerm n' = n_currentTerm n ∧ n_votedFor n' = n_votedFor n ∧
    same_log (n_log n') (n_log n) ∧ n_snapshotData n' = n_snapshotData n ∧
    n_lastIncludedIndex n' = n_lastIncludedIndex n ∧ n_commitIndex n' = n_lastIncludedIndex n.
Proof.
  intros Hs Hc Hok Hf Hcfg n. destruct (node_ok_storage _ Hok) as (Hsto & Hb & Ht & Hts).
  pose proof Hok as (Hnf & Hw & Hdisk). destruct (Hdisk Hnf) as (_ & Ht' & Hv' & Hsd & Hsame).
  destruct Hsto as [es Hdok]. destruct (disk_ok_left _ _ Hdok) as (hv & data & Hleft & Hview).
  destruct (recover_left_view _ _ _ _ _ _ Hleft) as (d' & Hrec & Hok' & Hv'').
  cbn [view DiskStorage_Spec] in *. rewrite <- Hview in Hrec, Hv''.
  pose proof (crash_running s server Hs Hc (dk_handle _ _ Hdok) Hf) as Hcrash.
  match type of Hcrash with _ = Val (_, ?x) => set (s1 := x) in * end.
  destruct (start_recovers e s1 (n_storage (sv_node server)) _ d' es eq_refl Hf (dk_read _ _ Hdok) Hrec Hok' Hv''
    Hcfg Hb Ht Hts) as (n' & t & Hstart & Hserv & Hrecov & _).
  pose proof Hsame as (Hfi & _). rewrite (wf_first _ Hw) in Hfi.
  eexists s1, _, n', _. split; [unfold Admin_Crash, mbind, GoM_bind; by rewrite Hcrash|].
  split; [done|]. split.
  { unfold Admin_Restart, restart_node, mbind, GoM_bind, get. cbn. by rewrite Hstart. }
  cbn [su_kvServer]. split; [done|]. split; [done|]. unfold n.
  rewrite (rec_role _ _ _ Hrecov), (rec_term _ _ _ Hrecov), (rec_vote _ _ _ Hrecov), (rec_log _ _ _ Hrecov),
    (rec_data _ _ _ Hrecov), (rec_lii _ _ _ Hrecov), (rec_commit _ _ _ Hrecov), Hfi, Ht', Hv', Hsd.
  auto 10.
Qed.

(** A supervisor whose data directory holds three entries. *)
Definition example_cfg : SupConfig := MkSupConfig "a" ["b"; "c"] ∅ "/data" 0 0 0 0.

Definition three_entries : list LogEntry :=
  [MkEntry 1 1 []; MkEntry 1 2 [Byte.x61]; MkEntry 2 3 []].

Definition example_dir : DiskStorage :=
  MkDisk {[ walFileName := records three_entries; hardStateFileName := encodeHardState 2 "b" ]}
    Closed 0 [] None [] 0 0.

Definition example_env : Env := MkEnv 1 0.

Lemma crash_restart_recovers_witness :
  ∃ s server, Supervisor_New example_cfg (Some (Transport_New "a" ∅)) example_dir example_env = Val (inl s) ∧
    su_kvServer s = Some server ∧
    ∃ s1 s2 n' addrs, Admin_Crash s = Val ((LIFECYCLE_CRASHED, None), s1) ∧
      (∀ endpoint cmd, forward endpoint cmd s1 = inr errCrashed) ∧
      Admin_Restart example_env s1 = Val ((LIFECYCLE_RUNNING, None), s2) ∧
      su_kvServer s2 = Some (NewServer n' NewStore addrs) ∧ service n' ∧ n_role n' = Follower ∧
      n_currentTerm n' = n_currentTerm (sv_node server) ∧ n_votedFor n' = n_votedFor (sv_node server) ∧
      same_log (n_log n') (n_log (sv_node server)) ∧
      n_snapshotData n' = n_snapshotData (sv_node server) ∧
      n_lastIncludedIndex n' = n_lastIncludedIndex (sv_node server) ∧
      n_commitIndex n' = n_lastIncludedIndex (sv_node server).
Proof.
  assert (config_ok (raft_config example_cfg)) as Hcfg by (split; [done|by vm_compute]).
  assert (left_on_disk (2%N, "b") 0 0 [] three_entries example_dir) as Hleft.
  { split; try done.
    - exists []. split; [by rewrite app_nil_r|by left].
    - repeat constructor; cbn; lia || done. }
  destruct (recover_left_view _ _ _ _ _ _ Hleft) as (d' & Hrec & Hok & Hv).
  assert (d_faults d' = []) as Hf.
  { clear Hok Hv. vm_compute in Hrec. by injection Hrec as <-. }
  destruct (start_recovers example_env (MkSup example_cfg None 0 false example_dir (Transport_New "a" ∅))
    example_dir _ d' three_entries eq_refl eq_refl eq_refl Hrec Hok Hv Hcfg) as (n & t & Hst & Hserv & Hn & Hsn);
    [done|done|by repeat constructor|].
  match type of Hst with _ = Val (_, ?x) => set (s1 := x) in * end.
  exists s1, (NewServer n NewStore ∅). split.
  { unfold Supervisor_New. rewrite !bool_decide_false by done. by rewrite Hst. }
  split; [done|].
  exact (crash_restart_recovers example_env s1 (NewServer n NewStore ∅) eq_refl eq_refl (proj1 Hserv)
    (eq_trans (f_equal d_faults Hsn) Hf) Hcfg).
Defined.
