(* ===== verification/GatewayCluster.v ===== *)
(** * internal/gateway/cluster.go: the cluster view of the console

    Polling results, the summary derived from them, connectivity, the event
    ring and what is recorded from one poll to the next.  A Go map range is an
    argument: the enumeration of the map's pairs, in any order.  Times are
    milliseconds and arguments.  A subscriber's channel holds at most one value:
    it is the flag kept under its name in [cl_subs].  The goroutine that polls
    is [run_tick], a turn of its loop; connections and [Close] are not modelled. *)
From stdpp Require Import pretty.
From S2P Require Import Prelude.

Record Member : Type := MkMember { m_ID : NodeID; m_Addr : string }.

#[export] Instance Member_eq_dec : EqDecision Member.
Proof. solve_decision. Defined.

Record ViewProgress : Type := MkViewProgress { vp_NextIndex : N; vp_MatchIndex : N }.

#[export] Instance ViewProgress_eq_dec : EqDecision ViewProgress.
Proof. solve_decision. Defined.

Record NodeView : Type := MkView {
  v_ID : string;
  v_Addr : string;
  v_Reachable : bool;
  v_Lifecycle : string;
  v_Error : string;
  v_Role : string;
  v_Term : N;
  v_LeaderID : string;
  v_CommitIndex : N;
  v_LastApplied : N;
  v_LastLogIndex : N;
  v_LogLen : N;
  v_LastIncludedIndex : N;
  v_LastIncludedTerm : N;
  v_KeyCount : N;
  v_UptimeMs : N;
  v_IsolatedFrom : list string;
  v_Followers : gmap string ViewProgress;
}.

Record ClusterView : Type := MkClusterView {
  cv_Size : nat;
  cv_Quorum : nat;
  cv_Running : nat;
  cv_Leader : string;
  cv_Term : N;
  cv_HighestTerm : N;
  cv_Groups : nat;
  cv_LargestGroup : nat;
  cv_HasQuorum : bool;
  cv_CommitIndex : N;
  cv_KeyCount : N;
}.

#[export] Instance ClusterView_eq_dec : EqDecision ClusterView.
Proof. solve_decision. Defined.

Record GwSnapshot : Type := MkGwSnapshot { gs_TS : N; gs_Cluster : ClusterView; gs_Nodes : list NodeView }.

Record GwEvent : Type := MkGwEvent {
  ev_Seq : N; ev_TS : N; ev_Kind : string; ev_Node : string; ev_Text : string;
}.

Definition eventRing : nat := 200.
Definition termEventInterval : N := 4000.
Definition idleBroadcastInterval : N := 3000.

Record Cluster : Type := MkCluster {
  cl_members : list Member;
  cl_byID : gmap NodeID Member;
  cl_byAddr : gmap string NodeID;
  cl_snapshot : GwSnapshot;
  cl_events : list GwEvent;
  cl_nextSeq : N;
  cl_lastTermEvent : gmap string N;
  cl_subs : gmap N bool;      (* the value waiting in each subscriber's channel *)
}.

(** [Quorum()] *)
Definition Quorum (members : list Member) : nat := length members / 2 + 1.

(** ** Connectivity *)
Definition is_running (v : NodeView) : bool := bool_decide (v_Lifecycle v = "running").

(** [cutOff]: the isolation each node reports. *)
Definition cut_off (running : list NodeView) : gmap string (gset string) :=
  foldl (λ m v, <[v_ID v := list_to_set (v_IsolatedFrom v)]> m) ∅ running.

Definition cuts (m : gmap string (gset string)) (a b : string) : bool :=
  bool_decide (b ∈ default ∅ (m !! a)).

Definition connected (m : gmap string (gset string)) (a b : string) : bool :=
  negb (cuts m a b) && negb (cuts m b a).

(** The inner loop over [running]: unseen neighbours of [id] join the queue. *)
Fixpoint expand (m : gmap string (gset string)) (id : string) (running : list NodeView)
    (seen : gset string) (queue : list string) : gset string * list string :=
  match running with
  | [] => (seen, queue)
  | other :: rest =>
      if negb (bool_decide (v_ID other ∈ seen)) && connected m id (v_ID other)
      then expand m id rest ({[v_ID other]} ∪ seen) (queue ++ [v_ID other])
      else expand m id rest seen queue
  end.

(** The queue loop; [fuel] bounds its turns, one per node of the group. *)
Fixpoint bfs (fuel : nat) (m : gmap string (gset string)) (running : list NodeView)
    (seen : gset string) (queue : list string) (size : nat) : gset string * nat :=
  match fuel with
  | O => (seen, size)
  | S fuel =>
      match queue with
      | [] => (seen, size)
      | id :: queue =>
          let '(seen, queue) := expand m id running seen queue in
          bfs fuel m running seen queue (S size)
      end
  end.

(** The outer loop over [running]; [all] is the whole list. *)
Fixpoint group_loop (m : gmap string (gset string)) (all starts : list NodeView)
    (seen : gset string) (groups largest : nat) : nat * nat :=
  match starts with
  | [] => (groups, largest)
  | start :: rest =>
      if bool_decide (v_ID start ∈ seen) then group_loop m all rest seen groups largest
      else
        let '(seen, size) := bfs (S (length all)) m all ({[v_ID start]} ∪ seen) [v_ID start] 0 in
        group_loop m all rest seen (S groups) (if (largest <? size)%nat then size else largest)
  end.

Definition connectivity (running : list NodeView) : nat * nat :=
  group_loop (cut_off running) running running ∅ 0 0.

(** ** The summary *)

(** [agreement], keyed by leader and term; the code's key renders the term in
    decimal and [terms] maps it back. *)
Definition agreement (running : list NodeView) : gmap (string * N) nat :=
  foldl (λ m v,
    if bool_decide (v_LeaderID v = "") then m
    else let key := (v_LeaderID v, v_Term v) in <[key := S (default 0 (m !! key))]> m) ∅ running.

(** The loop over [agreement] in the order [pairs]. *)
Definition pick_leader (quorum : nat) (pairs : list ((string * N) * nat)) : string * N :=
  foldl (λ out p,
    if (quorum <=? p.2)%nat && (out.2 <=? p.1.2)%N then p.1 else out) ("", 0%N) pairs.

Definition max_by (f : NodeView → N) (l : list NodeView) : N :=
  foldl (λ m v, if (m <? f v)%N then f v else m) 0%N l.

Definition summarize (members : list Member) (enum : gmap (string * N) nat → list ((string * N) * nat))
    (views : list NodeView) : ClusterView :=
  let quorum := Quorum members in
  let running := filter (λ v, is_running v) views in
  let '(leader, term) := pick_leader quorum (enum (agreement running)) in
  let '(groups, largest) := connectivity running in
  MkClusterView (length views) quorum (length running) leader term (max_by v_Term running)
    groups largest (quorum <=? largest)%nat (max_by v_CommitIndex running) (max_by v_KeyCount running).

(** ** Polling one node *)
Record PollStatus : Type := MkPoll {
  po_Running : bool;
  po_Role : string; po_Term : N; po_LeaderId : string; po_CommitIndex : N; po_LastApplied : N;
  po_LastLogIndex : N; po_LogLen : N; po_LastIncludedIndex : N; po_LastIncludedTerm : N;
  po_KeyCount : N; po_UptimeMs : N; po_IsolatedFrom : list string; po_Followers : gmap string ViewProgress;
}.

(** [answer] is the outcome of the Status call, its error already rendered by
    [grpcMessage]. *)
Definition pollNode (m : Member) (answer : PollStatus + string) : NodeView :=
  match answer with
  | inr err => MkView (m_ID m) (m_Addr m) false "unreachable" err "" 0 "" 0 0 0 0 0 0 0 0 [] ∅
  | inl st => MkView (m_ID m) (m_Addr m) true (if po_Running st then "running" else "crashed") ""
      (po_Role st) (po_Term st) (po_LeaderId st) (po_CommitIndex st) (po_LastApplied st)
      (po_LastLogIndex st) (po_LogLen st) (po_LastIncludedIndex st) (po_LastIncludedTerm st)
      (po_KeyCount st) (po_UptimeMs st) (po_IsolatedFrom st) (po_Followers st)
  end.

(** [poll]: every member's answer, in the members' order. *)
Definition poll (members : list Member) (enum : gmap (string * N) nat → list ((string * N) * nat))
    (t : N) (answers : list (PollStatus + string)) : GwSnapshot :=
  let views := zip_with pollNode members answers in
  MkGwSnapshot t (summarize members enum views) views.

(** ** Comparing polls *)
Definition sameStrings (a b : list string) : bool := bool_decide (a = b).

Definition nodeViewEqual (a b : NodeView) : bool :=
  bool_decide (v_ID a = v_ID b) && bool_decide (v_Addr a = v_Addr b) &&
  Bool.eqb (v_Reachable a) (v_Reachable b) && bool_decide (v_Lifecycle a = v_Lifecycle b) &&
  bool_decide (v_Error a = v_Error b) && bool_decide (v_Role a = v_Role b) &&
  (v_Term a =? v_Term b)%N && bool_decide (v_LeaderID a = v_LeaderID b) &&
  (v_CommitIndex a =? v_CommitIndex b)%N && (v_LastApplied a =? v_LastApplied b)%N &&
  (v_LastLogIndex a =? v_LastLogIndex b)%N && (v_LogLen a =? v_LogLen b)%N &&
  (v_LastIncludedIndex a =? v_LastIncludedIndex b)%N &&
  (v_LastIncludedTerm a =? v_LastIncludedTerm b)%N && (v_KeyCount a =? v_KeyCount b)%N &&
  sameStrings (v_IsolatedFrom a) (v_IsolatedFrom b) &&
  (size (v_Followers a) =? size (v_Followers b))%nat &&
  forallb (λ p, bool_decide (v_Followers b !! p.1 = Some p.2)) (map_to_list (v_Followers a)).

Definition materiallyEqual (a b : GwSnapshot) : bool :=
  bool_decide (gs_Cluster a = gs_Cluster b) &&
  (length (gs_Nodes a) =? length (gs_Nodes b))%nat &&
  forallb (λ p, nodeViewEqual p.1 p.2) (zip (gs_Nodes a) (gs_Nodes b)).

(** ** Events *)
Abbreviation C := (GoM Cluster).

Definition set_events (es : list GwEvent) (seq : N) (c : Cluster) : Cluster :=
  MkCluster (cl_members c) (cl_byID c) (cl_byAddr c) (cl_snapshot c) es seq (cl_lastTermEvent c) (cl_subs c).
Definition set_snapshot (s : GwSnapshot) (c : Cluster) : Cluster :=
  MkCluster (cl_members c) (cl_byID c) (cl_byAddr c) s (cl_events c) (cl_nextSeq c) (cl_lastTermEvent c) (cl_subs c).
Definition set_lastTermEvent (m : gmap string N) (c : Cluster) : Cluster :=
  MkCluster (cl_members c) (cl_byID c) (cl_byAddr c) (cl_snapshot c) (cl_events c) (cl_nextSeq c) m (cl_subs c).
Definition set_subs (m : gmap N bool) (c : Cluster) : Cluster :=
  MkCluster (cl_members c) (cl_byID c) (cl_byAddr c) (cl_snapshot c) (cl_events c) (cl_nextSeq c)
    (cl_lastTermEvent c) m.

(** ** Subscribers *)

(** [Subscribe]: a new, empty channel. *)
Definition Subscribe : C N := λ c,
  let ch := fresh (dom (cl_subs c)) in Val (ch, set_subs (<[ch := false]> (cl_subs c)) c).

Definition Unsubscribe (ch : N) : C () := modify (λ c, set_subs (delete ch (cl_subs c)) c).

(** A send that does not block: a full channel stays full. *)
Definition notify : C () := modify (λ c, set_subs ((λ _ : bool, true) <$> cl_subs c) c).

(** A receive by the subscriber, which is possible when a value waits. *)
Definition receive_update (ch : N) : C bool := λ c,
  match cl_subs c !! ch with
  | Some true => Val (true, set_subs (<[ch := false]> (cl_subs c)) c)
  | _ => Val (false, c)
  end.

(** ** The event ring *)

(** The first critical section of [Record], at time [t]; [notify] is the other. *)
Definition record_event (t : N) (kind node text : string) : C () :=
  modify (λ c,
    let seq := u64_add (cl_nextSeq c) 1 in
    let es := cl_events c ++ [MkGwEvent seq t kind node text] in
    set_events (if (eventRing <? length es)%nat then drop (length es - eventRing) es else es) seq c).

Definition Record_ (t : N) (kind node text : string) : C () :=
  record_event t kind node text ;; notify.

Definition EventsSince (seq : N) (c : Cluster) : list GwEvent :=
  filter (λ e, (seq < ev_Seq e)%N) (cl_events c).

Definition IDForAddr (addr : string) (c : Cluster) : option NodeID := cl_byAddr c !! addr.
Definition Known (id : NodeID) (c : Cluster) : bool := bool_decide (is_Some (cl_byID c !! id)).

(** [%v] of a string slice. *)
Definition show_strings (l : list string) : string :=
  ("[" ++ String.concat " " l ++ "]")%string.

Definition recordTermAdvance (t : N) (node : NodeView) (jump : N) : C () :=
  if negb (bool_decide (v_Role node = "candidate")) && (jump <=? 1)%N then mret () else
  c ← get;
  let throttled := match cl_lastTermEvent c !! v_ID node with
                   | Some last => (t - last <? termEventInterval)%N
                   | None => false
                   end in
  if throttled : bool then mret () else
  modify (set_lastTermEvent (<[v_ID node := t]> (cl_lastTermEvent c))) ;;
  if bool_decide (v_Role node = "candidate")
  then Record_ t "term" (v_ID node) (v_ID node ++ " is standing for election and losing — now at term "
         ++ pretty (v_Term node) ++ ", with no majority to elect it")
  else Record_ t "term" (v_ID node) (v_ID node ++ " jumped to term " ++ pretty (v_Term node)
         ++ " — it has met a node that has been electing without it").

(** The body of the loop of [recordTransitions]. *)
Definition record_node (t : N) (was now : NodeView) : C () :=
  let id := v_ID now in
  when (negb (bool_decide (v_Lifecycle was = v_Lifecycle now)))
    (if bool_decide (v_Lifecycle now = "crashed")
     then Record_ t "lifecycle" id (id ++ " crashed — process state gone, disk intact")
     else if bool_decide (v_Lifecycle now = "unreachable")
     then Record_ t "lifecycle" id (id ++ " stopped answering")
     else when (is_running now) (Record_ t "lifecycle" id (id ++ " recovered from its write-ahead log"))) ;;
  when (is_running now)
    (when (negb (bool_decide (v_Role was = v_Role now)) && bool_decide (v_Role now = "leader"))
       (Record_ t "election" id (id ++ " won the election for term " ++ pretty (v_Term now))) ;;
     when (bool_decide (v_Role was = "leader") && negb (bool_decide (v_Role now = "leader")) && is_running was)
       (Record_ t "election" id (id ++ " stepped down to " ++ v_Role now)) ;;
     when ((v_Term was <? v_Term now)%N && is_running was)
       (recordTermAdvance t now (u64_sub (v_Term now) (v_Term was)))) ;;
  when (negb (sameStrings (v_IsolatedFrom was) (v_IsolatedFrom now)))
    (if bool_decide (v_IsolatedFrom now = [])
     then Record_ t "network" id (id ++ " rejoined the network")
     else Record_ t "network" id (id ++ " partitioned away from " ++ show_strings (v_IsolatedFrom now))).

(** [before]: the previous views by id. *)
Definition views_by_id (views : list NodeView) : gmap string NodeView :=
  foldl (λ m v, <[v_ID v := v]> m) ∅ views.

Fixpoint record_nodes (t : N) (before : gmap string NodeView) (views : list NodeView) : C () :=
  match views with
  | [] => mret ()
  | now :: rest =>
      match before !! v_ID now with
      | None => mret ()
      | Some was => record_node t was now
      end ;;
      record_nodes t before rest
  end.

Definition recordTransitions (t : N) (prev next : GwSnapshot) : C () :=
  record_nodes t (views_by_id (gs_Nodes prev)) (gs_Nodes next) ;;
  let p := gs_Cluster prev in
  let n := gs_Cluster next in
  when (negb (Bool.eqb (cv_HasQuorum p) (cv_HasQuorum n)))
    (if cv_HasQuorum n
     then Record_ t "quorum" "" ("quorum restored — " ++ pretty (N.of_nat (cv_Running n)) ++ " of "
            ++ pretty (N.of_nat (cv_Size n)) ++ " nodes up")
     else Record_ t "quorum" "" ("quorum lost — " ++ pretty (N.of_nat (cv_Running n)) ++ " of "
            ++ pretty (N.of_nat (cv_Size n)) ++ " nodes up, " ++ pretty (N.of_nat (cv_Quorum n))
            ++ " needed; writes now correctly refused")).

(** [NewCluster]: the members sorted by identifier; [dial] is [grpc.NewClient],
    whose first refusal ends the construction, and [first] the view the initial
    [poll] returns. *)
Definition by_id (a b : Member) : Prop := String.le (m_ID a) (m_ID b).

#[export] Instance by_id_dec a b : Decision (by_id a b).
Proof. unfold by_id. exact _. Defined.

Fixpoint dial_all (dial : string → option error) (members : list Member) : option error :=
  match members with
  | [] => None
  | m :: rest =>
      match dial (m_Addr m) with
      | Some err => Some (Wrapf "gateway: dialing" err)
      | None => dial_all dial rest
      end
  end.

Definition NewCluster (dial : string → option error) (first : list Member → GwSnapshot) (members : list Member)
    : Cluster + error :=
  if bool_decide (members = []) then inr (Errorf "gateway: at least one node is required") else
  let ms := merge_sort by_id members in
  match dial_all dial ms with
  | Some err => inr err
  | None => inl (MkCluster ms (foldl (λ t m, <[m_ID m := m]> t) ∅ ms)
      (foldl (λ t m, <[m_Addr m := m_ID m]> t) ∅ ms) (first ms) [] 0 ∅ ∅)
  end.

(** The turn of [run] a tick starts: the new view goes in, the transitions are
    recorded, and subscribers are woken when the view changed or after a quiet
    while.  The result is the new [lastBroadcast]. *)
Definition run_tick (t : N) (next : GwSnapshot) (lastBroadcast : N) : C N :=
  c ← get;
  let prev := cl_snapshot c in
  modify (set_snapshot next) ;;
  recordTransitions t prev next ;;
  if negb (materiallyEqual prev next) || (idleBroadcastInterval <=? t - lastBroadcast)%N
  then notify ;; mret t
  else mret lastBroadcast.
