(* ===== verification/GatewayProperties.v ===== *)
(** * Correctness of the console's cluster view

    [connectivity] counts the connected components of the reachability graph,
    and [summarize] reports a leader exactly when a quorum agrees on one,
    whatever order Go's map iteration takes. *)
From S2P Require Import Prelude GatewayCluster.
#[local] Set Warnings "-clear-no-such-hyp".

(** ** Connectivity *)
Section Connectivity.
Context (m : gmap string (gset string)) (all : list NodeView).

Definition ids : list string := v_ID <$> all.

(** Two nodes of the view that can reach each other. *)
Definition linked (x y : string) : Prop := x ∈ ids ∧ y ∈ ids ∧ connected m x y = true.

Lemma connected_sym x y : connected m x y = connected m y x.
Proof. unfold connected. by rewrite andb_comm. Qed.

Lemma linked_sym x y : linked x y → linked y x.
Proof. intros (? & ? & ?). split; [done|]. split; [done|]. by rewrite connected_sym. Qed.

Lemma rtc_linked_sym x y : rtc linked x y → rtc linked y x.
Proof.
  induction 1 as [|x y z Hxy _ IH]; [constructor|]. eapply rtc_r; [exact IH|by apply linked_sym].
Qed.

(** A set no link leads out of. *)
Definition closed (X : gset string) : Prop := ∀ x y, x ∈ X → linked x y → y ∈ X.

Lemma expand_spec id l seen queue :
  ∃ new, expand m id l seen queue = (list_to_set new ∪ seen, queue ++ new) ∧ NoDup new ∧
    ∀ y, y ∈ new ↔ (y ∈ v_ID <$> l) ∧ (y ∉ seen) ∧ connected m id y = true.
Proof.
  revert seen queue. induction l as [|v l IH]; intros seen queue; cbn [expand].
  { exists []. rewrite app_nil_r. split; [f_equal; set_solver|]. split; [constructor|]. set_solver. }
  destruct (negb (bool_decide (v_ID v ∈ seen)) && connected m id (v_ID v)) eqn:E.
  - apply andb_true_iff in E as [Hs%negb_true_iff%bool_decide_eq_false Hc].
    destruct (IH ({[v_ID v]} ∪ seen) (queue ++ [v_ID v])) as (new & -> & Hnd & Hnew).
    exists (v_ID v :: new). rewrite <- app_assoc. split; [f_equal; set_solver|]. split.
    + constructor; [|done]. rewrite Hnew. set_solver.
    + intros y. rewrite elem_of_cons, Hnew, fmap_cons, elem_of_cons. destruct (decide (y = v_ID v)) as [->|]; set_solver.
  - destruct (IH seen queue) as (new & -> & Hnd & Hnew). exists new. split; [done|]. split; [done|].
    intros y. rewrite Hnew, fmap_cons, elem_of_cons. split; [set_solver|]. intros ([->|Hy] & Hs & Hc); [|done].
    rewrite bool_decide_false, Hc in E by done. done.
Qed.

Record bfs_inv (S0 : gset string) (s : string) (V queue : list string) (seen : gset string) : Prop := {
  bi_seen : seen = list_to_set (V ++ queue) ∪ S0;
  bi_nodup : NoDup (V ++ queue);
  bi_ids : ∀ x, x ∈ V ++ queue → x ∈ ids ∧ (x ∉ S0) ∧ rtc linked s x;
  bi_done : ∀ x y, x ∈ V → linked x y → y ∈ seen;
  bi_start : s ∈ V ++ queue;
}.

(** One group: everything reachable from its first node. *)
Record is_class (S0 : gset string) (s : string) (cls : list string) : Prop := {
  ic_nodup : NoDup cls;
  ic_ids : ∀ x, x ∈ cls → x ∈ ids ∧ x ∉ S0;
  ic_reach : ∀ y, y ∈ cls ↔ rtc linked s y;
}.

Lemma rtc_stays (P : string → Prop) s y :
  (∀ x z, P x → linked x z → P z) → P s → rtc linked s y → P y.
Proof. intros HP Hs Hr. induction Hr as [|x z y Hxz _ IH]; [done|]. apply IH. by eapply HP. Qed.

Lemma bfs_next S0 s V id queue seen :
  bfs_inv S0 s V (id :: queue) seen →
  ∃ new, expand m id all seen queue = (list_to_set new ∪ seen, queue ++ new) ∧
    bfs_inv S0 s (V ++ [id]) (queue ++ new) (list_to_set new ∪ seen).
Proof.
  intros []. destruct (expand_spec id all seen queue) as (new & Hx & Hnd & Hnew). exists new. split; [done|].
  assert ((V ++ [id]) ++ queue ++ new = (V ++ id :: queue) ++ new) as E by (by rewrite <- !app_assoc).
  assert (∀ y, y ∈ new → y ∈ ids ∧ (y ∉ seen) ∧ linked id y) as Hn.
  { intros y (Hy & Hs & Hc)%Hnew. split; [done|]. split; [done|]. split; [|done].
    apply (bi_ids0 id). set_solver. }
  split; rewrite ?E.
  - subst seen. rewrite (list_to_set_app_L _ new). set_solver.
  - apply NoDup_app. split; [done|]. split; [|done]. intros y Hy Hyn. destruct (Hn y Hyn) as (_ & Hs & _).
    apply Hs. subst seen. set_solver.
  - intros x [Hx'|Hx']%elem_of_app; [by apply bi_ids0|]. destruct (Hn x Hx') as (Hi & Hs & Hl).
    split; [done|]. split; [subst seen; set_solver|]. eapply rtc_r; [|exact Hl]. apply (bi_ids0 id). set_solver.
  - intros x y [Hx'| ->%list_elem_of_singleton]%elem_of_app Hl.
    + apply elem_of_union_r. by eapply bi_done0.
    + destruct (decide (y ∈ seen)) as [|Hs]; [by apply elem_of_union_r|]. apply elem_of_union_l, elem_of_list_to_set, Hnew.
      destruct Hl as (_ & ? & ?). done.
  - apply elem_of_app. by left.
Qed.

Lemma bfs_spec S0 s fuel V queue seen :
  NoDup ids → closed S0 → bfs_inv S0 s V queue seen → length ids < fuel + length V →
  ∃ cls, bfs fuel m all seen queue (length V) = (list_to_set cls ∪ S0, length cls) ∧ is_class S0 s cls.
Proof.
  intros Hids Hcl. revert V queue seen. induction fuel as [|fuel IH]; intros V queue seen Hi Hf.
  { exfalso. assert (length (V ++ queue) ≤ length ids) as Hle.
    { apply submseteq_length, NoDup_submseteq; [apply Hi|]. intros x Hx. by apply Hi. }
    rewrite length_app in Hle. lia. }
  cbn [bfs]. destruct queue as [|id queue].
  - destruct Hi. rewrite app_nil_r in *. exists V. split; [by rewrite bi_seen0|]. split; [done| |].
    + intros x Hx. destruct (bi_ids0 x Hx) as (? & ? & _). done.
    + intros y. split; [intros Hy; by apply bi_ids0|].
      apply (rtc_stays (λ x, x ∈ V)); [|done]. intros x z Hx Hxz.
      pose proof (bi_done0 x z Hx Hxz) as Hz. rewrite bi_seen0 in Hz.
      apply elem_of_union in Hz as [Hz|Hz]; [by apply elem_of_list_to_set in Hz|].
      destruct (bi_ids0 x Hx) as (_ & Hns & _). destruct Hns. eapply Hcl; [exact Hz|by apply linked_sym].
  - destruct (bfs_next _ _ _ _ _ _ Hi) as (new & -> & Hi').
    destruct (IH _ _ _ Hi') as (cls & Hb & Hc); [rewrite length_app; cbn; lia|].
    exists cls. split; [|done]. rewrite <- Hb, length_app. cbn. by rewrite Nat.add_1_r.
Qed.

(** The groups found so far. *)
Record groups_inv (classes : list (list string)) (seen : gset string) : Prop := {
  gi_seen : seen = list_to_set (concat classes);
  gi_nodup : NoDup (concat classes);
  gi_ids : ∀ x, x ∈ concat classes → x ∈ ids;
  gi_class : ∀ c, c ∈ classes → c ≠ [] ∧ ∀ x, x ∈ c → ∀ y, y ∈ c ↔ rtc linked x y;
}.

Lemma groups_closed classes seen : groups_inv classes seen → closed seen.
Proof.
  intros [-> _ _ Hc] x y Hx Hl. apply elem_of_list_to_set in Hx. apply elem_of_list_to_set.
  apply list_elem_of_In, in_concat in Hx as (c & Hin & Hx). apply list_elem_of_In in Hin, Hx.
  apply list_elem_of_In, in_concat. exists c. split; [by apply list_elem_of_In|]. apply list_elem_of_In.
  apply (proj2 (Hc c Hin) x Hx y). by apply rtc_once.
Qed.

Lemma groups_next classes seen s cls :
  groups_inv classes seen → s ∈ ids → is_class seen s cls →
  groups_inv (classes ++ [cls]) (list_to_set cls ∪ seen).
Proof.
  intros [Hs Hnd Hi Hc] Hsi [Hnd' Hi' Hr]. split.
  - rewrite Hs, concat_app. cbn. rewrite app_nil_r, list_to_set_app_L. set_solver.
  - rewrite concat_app. cbn. rewrite app_nil_r. apply NoDup_app. split; [done|]. split; [|done].
    intros x Hx Hxc. destruct (Hi' x Hxc) as [_ Hns]. apply Hns. rewrite Hs. by apply elem_of_list_to_set.
  - intros x. rewrite concat_app. cbn. rewrite app_nil_r. intros [?|?]%elem_of_app; [by apply Hi|by apply Hi'].
  - intros c [Hin| ->%list_elem_of_singleton]%elem_of_app; [by apply Hc|]. split.
    + intros ->. apply (not_elem_of_nil s). apply Hr. constructor.
    + intros x Hx y. rewrite Hr. apply Hr in Hx. split; intros H.
      * etransitivity; [by apply rtc_linked_sym|done].
      * by etransitivity.
Qed.

Definition largest_of (classes : list (list string)) : nat := foldr (λ c n, Nat.max (length c) n) 0 classes.

Lemma largest_snoc classes c : largest_of (classes ++ [c]) = Nat.max (largest_of classes) (length c).
Proof. unfold largest_of. induction classes as [|d l IH]; cbn; [lia|]. rewrite IH. lia. Qed.

Lemma group_loop_spec starts classes seen :
  NoDup ids → groups_inv classes seen → (∀ v, v ∈ starts → v_ID v ∈ ids) →
  ∃ classes', group_loop m all starts seen (length classes) (largest_of classes) =
      (length classes', largest_of classes') ∧
    (∃ seen', groups_inv classes' seen' ∧ seen ⊆ seen' ∧ ∀ v, v ∈ starts → v_ID v ∈ seen').
Proof.
  intros Hids. revert classes seen. induction starts as [|v starts IH]; intros classes seen Hg Hst; cbn [group_loop].
  { exists classes. split; [done|]. exists seen. split; [done|]. split; [done|]. intros v Hv. by apply not_elem_of_nil in Hv. }
  case_bool_decide as Hv.
  - destruct (IH classes seen Hg) as (cs & Hx & seen' & Hg' & Hsub & Hall); [set_solver|].
    exists cs. split; [done|]. exists seen'. split; [done|]. split; [done|].
    intros w [->|Hw]%elem_of_cons; [by apply Hsub|by apply Hall].
  - assert (v_ID v ∈ ids) as Hvi by (apply Hst; by left).
    destruct (bfs_spec seen (v_ID v) (S (length all)) [] [v_ID v] ({[v_ID v]} ∪ seen) Hids) as (cls & Hb & Hc).
    { by eapply groups_closed. }
    { split.
      - cbn. set_solver.
      - apply NoDup_singleton.
      - intros x ->%list_elem_of_singleton. split; [done|]. split; [done|constructor].
      - intros x y Hx. by apply not_elem_of_nil in Hx.
      - by left. }
    { unfold ids. rewrite length_fmap. cbn. lia. }
    cbn [length] in Hb. rewrite Hb. pose proof (groups_next _ _ _ _ Hg Hvi Hc) as Hg2.
    destruct (IH _ _ Hg2) as (cs & Hx & seen' & Hg' & Hsub & Hall); [intros w Hw; apply Hst; by right|].
    rewrite length_app, largest_snoc in Hx. cbn [length] in Hx. rewrite Nat.add_1_r in Hx.
    replace (if (largest_of classes <? length cls)%nat then length cls else largest_of classes)
      with (Nat.max (largest_of classes) (length cls)) by (destruct (Nat.ltb_spec (largest_of classes) (length cls)); lia).
    exists cs. split; [done|]. exists seen'. split; [done|]. split; [set_solver|].
    intros w [->|Hw]%elem_of_cons; [|by apply Hall]. apply Hsub. apply elem_of_union_l, elem_of_list_to_set, Hc. constructor.
Qed.
End Connectivity.

(** C29: the console counts connected groups.  For nodes with distinct names,
    [connectivity] returns the number of connected components of the graph in
    which two running nodes are linked when neither reports itself cut off from
    the other, and the size of the largest one. *)
Theorem connectivity_components running :
  NoDup (v_ID <$> running) →
  ∃ classes : list (list string),
    concat classes ≡ₚ v_ID <$> running ∧
    (∀ c, c ∈ classes → c ≠ [] ∧ ∀ x, x ∈ c → ∀ y, y ∈ c ↔ rtc (linked (cut_off running) running) x y) ∧
    connectivity running = (length classes, largest_of classes).
Proof.
  intros Hids. unfold connectivity.
  destruct (group_loop_spec (cut_off running) running running [] ∅ Hids) as (cs & Hx & seen & Hg & _ & Hall).
  - split; [done|constructor|by intros x Hx%not_elem_of_nil|by intros c Hc%not_elem_of_nil].
  - intros v Hv. by apply list_elem_of_fmap_2.
  - exists cs. destruct Hg. split; [|split; [done|exact Hx]].
    apply NoDup_Permutation; [done|done|]. intros x. split; [apply gi_ids0|].
    intros (v & -> & Hv)%list_elem_of_fmap. specialize (Hall v Hv). rewrite gi_seen0 in Hall.
    by apply elem_of_list_to_set in Hall.
Qed.

(** Five nodes, "a" and "b" cut off from "c", "d" and "e". *)
Definition view_of (id leader : string) (term : N) (cut : list string) : NodeView :=
  MkView id "" true "running" "" "follower" term leader 0 0 0 0 0 0 0 0 cut ∅.

Definition example_views : list NodeView :=
  [view_of "a" "a" 3 ["c"; "d"; "e"]; view_of "b" "a" 3 ["c"; "d"; "e"];
   view_of "c" "d" 4 ["a"; "b"]; view_of "d" "d" 4 ["a"; "b"]; view_of "e" "d" 4 ["a"; "b"]].

Lemma connectivity_components_witness :
  connectivity example_views = (2, 3) ∧
  ∃ classes : list (list string),
    concat classes ≡ₚ v_ID <$> example_views ∧
    (∀ c, c ∈ classes → c ≠ [] ∧
       ∀ x, x ∈ c → ∀ y, y ∈ c ↔ rtc (linked (cut_off example_views) example_views) x y) ∧
    connectivity example_views = (length classes, largest_of classes).
Proof.
  split; [by vm_compute|]. apply connectivity_components. by apply (bool_decide_unpack (NoDup _)).
Defined.

(** ** The reported leader *)
Definition votes_for (l : string) (t : N) (views : list NodeView) : nat :=
  length (filter (λ v, v_LeaderID v = l ∧ v_Term v = t) views).

Lemma agreement_spec running l t :
  l ≠ "" → agreement running !! (l, t) =
    match votes_for l t running with 0 => None | S n => Some (S n) end.
Proof.
  intros Hl. unfold agreement.
  assert (∀ m : gmap (string * N) nat, foldl (λ m v, if bool_decide (v_LeaderID v = "") then m
      else let key := (v_LeaderID v, v_Term v) in <[key := S (default 0 (m !! key))]> m) m running !! (l, t) =
    match votes_for l t running with 0 => m !! (l, t) | S n => Some (S n + default 0 (m !! (l, t))) end) as H.
  { induction running as [|v running IH]; intros m; [done|]. cbn [foldl]. rewrite IH. clear IH.
    unfold votes_for. rewrite filter_cons. fold (votes_for l t running).
    destruct (decide (v_LeaderID v = l ∧ v_Term v = t)) as [[-> ->]|Hne].
    - rewrite bool_decide_false by done. cbn zeta. rewrite lookup_insert_eq. cbn [length default].
      fold (votes_for l t running). unfold votes_for. destruct (length _); cbn; f_equal; lia.
    - case_bool_decide; [done|]. rewrite lookup_insert_ne; [done|]. intros [= ? ?]. by destruct Hne. }
  rewrite H, lookup_empty. destruct (votes_for l t running); [done|]. cbn. by rewrite Nat.add_0_r.
Qed.

Lemma agreement_empty running t : agreement running !! ("", t) = None.
Proof.
  unfold agreement. assert (∀ m : gmap (string * N) nat, m !! ("", t) = None → foldl (λ m v,
      if bool_decide (v_LeaderID v = "") then m
      else let key := (v_LeaderID v, v_Term v) in <[key := S (default 0 (m !! key))]> m) m running !! ("", t) = None) as H;
    [|apply H, lookup_empty].
  induction running as [|v running IH]; intros m Hm; [done|]. cbn [foldl]. apply IH.
  case_bool_decide as Hv; [done|]. cbn zeta. rewrite lookup_insert_ne; [done|]. intros [= ? ?]. done.
Qed.

Lemma votes_disjoint l1 t1 l2 t2 views :
  (l1, t1) ≠ (l2, t2) → votes_for l1 t1 views + votes_for l2 t2 views ≤ length views.
Proof.
  intros Hne. unfold votes_for. induction views as [|v views IH]; [done|]. rewrite !filter_cons. cbn [length].
  destruct (decide _) as [[<- <-]|], (decide _) as [[<- <-]|]; cbn [length]; try done; lia.
Qed.

Lemma pick_leader_from quorum pairs :
  let out := pick_leader quorum pairs in
  out = ("", 0%N) ∨ ∃ n, (out, n) ∈ pairs ∧ quorum ≤ n.
Proof.
  cbv zeta. unfold pick_leader. assert (∀ out : string * N, let r := foldl (λ out p,
      if (quorum <=? p.2)%nat && (out.2 <=? p.1.2)%N then p.1 else out) out pairs in
    r = out ∨ ∃ n, (r, n) ∈ pairs ∧ quorum ≤ n) as H; [|apply H].
  induction pairs as [|[k n] pairs IH]; intros out; cbn [foldl]; [by left|].
  destruct (IH (if (quorum <=? (k, n).2)%nat && (out.2 <=? (k, n).1.2)%N then (k, n).1 else out)) as [->|(n' & Hn & Hq)].
  - cbn. destruct (Nat.leb_spec quorum n); cbn; [|by left]. destruct (_ <=? _)%N; [|by left].
    right. exists n. split; [by left|done].
  - right. exists n'. split; [by right|done].
Qed.

Lemma pick_leader_unique quorum pairs k n :
  (k, n) ∈ pairs → quorum ≤ n → (∀ k' n', (k', n') ∈ pairs → quorum ≤ n' → k' = k) →
  pick_leader quorum pairs = k.
Proof.
  intros Hin Hq Huniq. unfold pick_leader.
  assert (∀ ps (out : string * N), (∀ k' n', (k', n') ∈ ps → quorum ≤ n' → k' = k) →
    (out = ("", 0%N) ∨ out = k) → ((k, n) ∈ ps ∨ out = k) → foldl (λ out p,
      if (quorum <=? p.2)%nat && (out.2 <=? p.1.2)%N then p.1 else out) out ps = k) as H.
  2:{ apply H; auto. }
  clear Hin Huniq pairs. induction ps as [|[k' n'] ps IH]; intros out Hu Ho Hk; cbn [foldl].
  { destruct Hk as [Hk| ->]; [by apply not_elem_of_nil in Hk|done]. }
  apply IH.
  - intros k2 n2 H2. apply Hu. by right.
  - cbn. destruct (Nat.leb_spec quorum n'); cbn; [|done]. rewrite (Hu k' n') by (by left || done).
    destruct (_ <=? _)%N; [by right|done].
  - destruct Hk as [[Hk|Hk]%elem_of_cons| ->]; [|by left|].
    + injection Hk as -> ->. right. cbn. rewrite (proj2 (Nat.leb_le _ _) Hq). cbn.
      destruct Ho as [->| ->]; cbn; [by rewrite (proj2 (N.leb_le _ _)) by lia|].
      destruct (_ <=? _)%N; done.
    + right. cbn. destruct (Nat.leb_spec quorum n'); cbn; [|done]. rewrite (Hu k' n') by (by left || done).
      by destruct (_ <=? _)%N.
Qed.

(** C30: the console never shows two leaders.  Whatever order Go iterates the
    agreement map in, the summary of a poll of all members names a leader and
    term exactly when a quorum of the members run and name that leader in that
    term, and no leader otherwise. *)
Theorem summarize_leader members enum views l t :
  (∀ a, enum a ≡ₚ map_to_list a) → length views = length members → l ≠ "" →
  let out := summarize members enum views in
  (cv_Leader out = l ∧ cv_Term out = t) ↔
  Quorum members ≤ votes_for l t (filter (λ v, is_running v) views).
Proof.
  intros Henum Hlen Hl. cbv zeta. unfold summarize. set (running := filter (λ v, is_running v) views).
  assert (length running ≤ length members) as Hrun by (rewrite <- Hlen; apply length_filter).
  assert (Hq : length members < 2 * Quorum members).
  { unfold Quorum. pose proof (Nat.div_mod (length members) 2). pose proof (Nat.mod_upper_bound (length members) 2). lia. }
  assert (Hpairs : ∀ k n, (k, n) ∈ enum (agreement running) ↔ agreement running !! k = Some n).
  { intros k n. by rewrite (Henum _), elem_of_map_to_list. }
  assert (Hvotes : ∀ l' t' n, agreement running !! (l', t') = Some n → l' ≠ "" ∧ votes_for l' t' running = n).
  { intros l' t' n Ha. destruct (decide (l' = "")) as [->|Hl']; [by rewrite agreement_empty in Ha|].
    rewrite agreement_spec in Ha by done. split; [done|]. destruct (votes_for l' t' running); congruence. }
  destruct (pick_leader (Quorum members) (enum (agreement running))) as [l0 t0] eqn:Hp.
  destruct (connectivity running) as [g la]. cbn [cv_Leader cv_Term]. split.
  - intros [-> ->]. destruct (pick_leader_from (Quorum members) (enum (agreement running))) as [E|(n & Hn & Hqn)];
      rewrite Hp in *; [congruence|]. apply Hpairs, Hvotes in Hn as [_ ->]. done.
  - intros Hv. assert (agreement running !! (l, t) = Some (votes_for l t running)) as Ha.
    { rewrite agreement_spec by done. destruct (votes_for l t running); [|done]. unfold Quorum in Hv. lia. }
    rewrite (pick_leader_unique _ _ (l, t) (votes_for l t running)) in Hp; [by injection Hp|by apply Hpairs|done|].
    intros [l' t'] n' Hin Hq'. apply Hpairs, Hvotes in Hin as [Hl' <-].
    destruct (decide ((l', t') = (l, t))) as [|Hne]; [done|].
    pose proof (votes_disjoint l' t' l t running Hne). lia.
Qed.

Definition example_members : list Member :=
  (λ id, MkMember id (id ++ ":7000")) <$> ["a"; "b"; "c"; "d"; "e"].

Lemma summarize_leader_witness :
  let out := summarize example_members (λ a, rev (map_to_list a)) example_views in
  cv_Leader out = "d" ∧ cv_Term out = 4%N.
Proof.
  cbv zeta. apply summarize_leader.
  - intros a. symmetry. apply Permutation_rev.
  - done.
  - done.
  - by vm_compute; lia.
Defined.
