(* ===== verification/GatewayChaos.v ===== *)
(** * internal/gateway/chaos.go: fault injection from the console

    [Chaos] drives the nodes' Admin services.  A call to one is [admin], over
    the cluster view (the poller keeps running while a call is under way) and
    the state [W] of the nodes.  [AdminSpec] says what [SetPartition] promises;
    [fleet_spec] discharges it with the supervisors of internal/supervisor. *)
From S2P Require Import Prelude RaftTypes RaftNode KVServer GrpcTransport Supervisor GatewayCluster.
#[local] Set Warnings "-clear-no-such-hyp".

Inductive AdminReq : Type :=
| AdmSetPartition (peers : list string)
| AdmCrash
| AdmRestart.

(** A call ends with a reply, whose [Error] is [inl], or fails with an error,
    rendered by [grpcMessage], which is [inr]. *)
Class AdminNet (W : Type) : Type :=
  admin : NodeID → AdminReq → Cluster * W → (string + string) * (Cluster * W).

Record Chaos : Type := MkChaos { ch_lastFaultAt : Z; ch_healthy : bool }.

(** [NewChaos]; the watchdog is [watchdog_tick]. *)
Definition NewChaos : Chaos := MkChaos 0 true.

(** [err.Error()] *)
Fixpoint error_string (err : error) : string :=
  match err with
  | Errorf msg => msg
  | Wrapf msg cause => msg ++ ": " ++ error_string cause
  end.

Section Chaos.
Context {W : Type} `{!AdminNet W}.

Record Console : Type := MkConsole { co_cluster : Cluster; co_chaos : Chaos; co_net : W }.

Definition set_chaos (x : Chaos) (c : Console) : Console := MkConsole (co_cluster c) x (co_net c).
Definition set_cluster (x : Cluster) (c : Console) : Console := MkConsole x (co_chaos c) (co_net c).

Definition call_admin (id : NodeID) (req : AdminReq) : GoM Console (string + string) := λ c,
  let '(r, (cl, w)) := admin id req (co_cluster c, co_net c) in Val (r, MkConsole cl (co_chaos c) w).

Definition noteFault (t : Z) : GoM Console () := modify (set_chaos (MkChaos t false)).

Definition noteHealed : GoM Console () :=
  modify (λ c, set_chaos (MkChaos (ch_lastFaultAt (co_chaos c)) true) c).

Definition nodeIsRunning (id : NodeID) (c : Console) : bool :=
  match list_find (λ v, v_ID v = id) (gs_Nodes (cl_snapshot (co_cluster c))) with
  | Some (_, v) => is_running v
  | None => false
  end.

Definition clusterIsWhole (c : Console) : bool :=
  forallb (λ v, is_running v && (length (v_IsolatedFrom v) =? 0)%nat) (gs_Nodes (cl_snapshot (co_cluster c))).

(** The shared shape of [Crash] and [Restart]. *)
Definition lifecycle_call (verb : string) (req : AdminReq) (id : NodeID) : GoM Console (option error) :=
  c ← get;
  if negb (Known id (co_cluster c)) then mret (Some (Errorf ("unknown node " ++ id))) else
  reply ← call_admin id req;
  mret match reply with
       | inr err => Some (Errorf (verb ++ " " ++ id ++ ": " ++ err))
       | inl e => if bool_decide (e = "") then None else Some (Errorf (verb ++ " " ++ id ++ ": " ++ e))
       end.

Definition Chaos_Crash (t : Z) (id : NodeID) : GoM Console (option error) :=
  err ← lifecycle_call "crashing" AdmCrash id;
  if err is Some _ then mret err else noteFault t ;; mret None.

Definition CrashLeader (t : Z) : GoM Console (NodeID * option error) :=
  c ← get;
  let leader := cv_Leader (gs_Cluster (cl_snapshot (co_cluster c))) in
  if bool_decide (leader = "")
  then mret ("", Some (Errorf "there is no leader right now — the cluster is mid-election"))
  else err ← Chaos_Crash t leader; mret (leader, err).

Definition Chaos_Restart (id : NodeID) : GoM Console (option error) := lifecycle_call "restarting" AdmRestart id.

(** ** Partitions *)

(** [inGroup], or the first node of [group] that is unknown. *)
Fixpoint in_group (cl : Cluster) (group : list NodeID) (acc : gset NodeID) : gset NodeID + NodeID :=
  match group with
  | [] => inl acc
  | id :: rest => if Known id cl then in_group cl rest ({[id]} ∪ acc) else inr id
  end.

Definition across (inGroup : gset NodeID) (a b : NodeID) : Prop :=
  bool_decide (a ∈ inGroup) ≠ bool_decide (b ∈ inGroup).

#[export] Instance across_dec inGroup a b : Decision (across inGroup a b).
Proof. unfold across. exact _. Defined.

(** [cutOff] for the member [m]. *)
Definition cut_list (members : list Member) (inGroup : gset NodeID) (m : Member) : list NodeID :=
  m_ID <$> filter (λ other, m_ID other ≠ m_ID m ∧ across inGroup (m_ID other) (m_ID m)) members.

(** The loop over the members still to tell, with [firstErr]. *)
Fixpoint partition_loop (members : list Member) (inGroup : gset NodeID) (ms : list Member)
    (firstErr : option error) : GoM Console (option error) :=
  match ms with
  | [] => mret firstErr
  | m :: rest =>
      reply ← call_admin (m_ID m) (AdmSetPartition (cut_list members inGroup m));
      c ← get;
      let firstErr' := match reply with
        | inl _ => firstErr
        | inr err =>
            match firstErr with
            | None => if nodeIsRunning (m_ID m) c
                      then Some (Errorf ("partitioning " ++ m_ID m ++ ": " ++ err)) else None
            | Some _ => firstErr
            end
        end in
      partition_loop members inGroup rest firstErr'
  end.

Definition Partition (t : Z) (group : list NodeID) : GoM Console (option error) :=
  c ← get;
  let members := cl_members (co_cluster c) in
  match in_group (co_cluster c) group ∅ with
  | inr id => mret (Some (Errorf ("unknown node " ++ id)))
  | inl inGroup =>
      if (size inGroup =? length members)%nat
      then mret (Some (Errorf "a partition with every node on one side is not a partition"))
      else
        firstErr ← partition_loop members inGroup members None;
        if firstErr is Some _ then mret firstErr else
        when (0 <? length group)%nat (noteFault t) ;;
        mret None
  end.

Definition Heal (t : Z) : GoM Console (option error) := Partition t [].

(** ** Recovery *)
Fixpoint recover_loop (nodes : list NodeView) (firstErr : option error) : GoM Console (option error) :=
  match nodes with
  | [] => mret firstErr
  | node :: rest =>
      if is_running node then recover_loop rest firstErr
      else err ← Chaos_Restart (v_ID node);
           recover_loop rest (if firstErr is Some _ then firstErr else err)
  end.

Definition Recover (t : Z) : GoM Console (option error) :=
  firstErr ← Heal t;
  c ← get;
  firstErr ← recover_loop (gs_Nodes (cl_snapshot (co_cluster c))) firstErr;
  if firstErr is Some _ then mret firstErr else noteHealed ;; mret None.

(** The watchdog's turn at time [t]; [shown] is [after] as [%s] shows it and
    [ms] the wall clock in milliseconds. *)
Definition watchdog_tick (t after : Z) (ms : N) (shown : string) : GoM Console () :=
  c ← get;
  let idle := negb (ch_healthy (co_chaos c)) && (after <? t - ch_lastFaultAt (co_chaos c))%Z in
  if negb idle then mret () else
  if clusterIsWhole c then noteHealed else
  on_field co_cluster set_cluster (Record_ ms "network" ""
    ("no activity for " ++ shown ++ " — restoring every node and healing the network")) ;;
  err ← Recover t;
  if err is Some err
  then on_field co_cluster set_cluster (Record_ ms "network" "" ("automatic recovery failed: " ++ error_string err))
  else mret ().
End Chaos.

Arguments Console : clear implicits.

(** ** What a [SetPartition] call promises *)
Class AdminSpec (W : Type) `{AdminNet W} : Type := {
  (** the peers a node refuses to talk to *)
  cut_from : W → NodeID → gset NodeID;
  (** the Admin service of this node answers *)
  serving : W → NodeID → bool;
  admin_members id req cl w r cl' w' : admin id req (cl, w) = (r, (cl', w')) →
    cl_members cl' = cl_members cl ∧ cl_byID cl' = cl_byID cl;
  partition_frame id peers cl w r cl' w' : admin id (AdmSetPartition peers) (cl, w) = (r, (cl', w')) →
    (∀ a, a ≠ id → cut_from w' a = cut_from w a) ∧ ∀ a, serving w' a = serving w a;
  partition_serving id peers cl w r cl' w' :
    serving w id = true → admin id (AdmSetPartition peers) (cl, w) = (r, (cl', w')) →
    r = inl "" ∧ ∀ b, b ≠ id → b ∈ cut_from w' id ↔ b ∈ peers;
}.

(** The members have distinct identifiers and the table by identifier is theirs. *)
Record cluster_ok (cl : Cluster) : Prop := {
  co_nodup : NoDup (m_ID <$> cl_members cl);
  co_known id : Known id cl = true ↔ id ∈ m_ID <$> cl_members cl;
}.

Lemma by_id_fold (ms : list Member) (t : gmap NodeID Member) id :
  is_Some (foldl (λ t m, <[m_ID m := m]> t) t ms !! id) ↔ (id ∈ m_ID <$> ms) ∨ is_Some (t !! id).
Proof.
  revert t. induction ms as [|m ms IH]; intros t; cbn [foldl].
  - rewrite fmap_nil, elem_of_nil. tauto.
  - rewrite IH, fmap_cons, elem_of_cons, lookup_insert_is_Some. destruct (decide (m_ID m = id)); naive_solver.
Qed.

(** Every console starts with such a cluster. *)
Lemma NewCluster_ok dial first members cl :
  NoDup (m_ID <$> members) → NewCluster dial first members = inl cl → cluster_ok cl.
Proof.
  intros Hnd. unfold NewCluster. case_bool_decide; [done|]. destruct (dial_all _ _); [done|]. intros [= <-].
  assert (m_ID <$> merge_sort by_id members ≡ₚ m_ID <$> members) as Hp by (by rewrite merge_sort_Permutation).
  split; cbn; [by rewrite Hp|]. intros id. unfold Known. rewrite bool_decide_eq_true. cbn. rewrite by_id_fold.
  rewrite lookup_empty. split; [intros [?|[? ?]]; done|by left].
Qed.

Section Partition.
Context {W : Type} `{AdminSpec W}.
Implicit Types (c : Console W) (ms members : list Member).

Lemma call_admin_members id req c r c' :
  call_admin id req c = Val (r, c') →
  co_chaos c' = co_chaos c ∧ cl_members (co_cluster c') = cl_members (co_cluster c).
Proof.
  unfold call_admin. destruct (admin id req _) as [r0 [cl w]] eqn:E. intros [= <- <-].
  apply admin_members in E as [Hm _]. done.
Qed.

Lemma in_group_spec cl group acc g :
  in_group cl group acc = inl g → g = list_to_set group ∪ acc.
Proof.
  revert acc. induction group as [|id group IH]; intros acc; cbn; [intros [= <-]; set_solver|].
  destruct (Known id cl); [|done]. intros ->%IH. set_solver.
Qed.

Lemma in_group_known cl group acc :
  Forall (λ id, Known id cl = true) group → ∃ g, in_group cl group acc = inl g.
Proof.
  revert acc. induction group as [|id group IH]; intros acc Hg; cbn; [by eexists|].
  inversion Hg as [|? ? Hid Hg']; subst. rewrite Hid. by apply IH.
Qed.

Lemma cut_list_spec members g m b :
  b ∈ m_ID <$> members → b ≠ m_ID m → b ∈ cut_list members g m ↔ across g b (m_ID m).
Proof.
  intros Hb Hne. unfold cut_list. rewrite list_elem_of_fmap. split.
  - intros (o & -> & [[_ Ho] _]%list_elem_of_filter). done.
  - intros Ha. apply list_elem_of_fmap in Hb as (o & -> & Ho). exists o. by rewrite list_elem_of_filter.
Qed.

(** What the loop does to the nodes. *)
Lemma partition_loop_spec members g ms firstErr c :
  NoDup (m_ID <$> ms) →
  ∃ err c', partition_loop members g ms firstErr c = Val (err, c') ∧ co_chaos c' = co_chaos c ∧
    (∀ a, serving (co_net c') a = serving (co_net c) a) ∧
    (∀ a, a ∉ m_ID <$> ms → cut_from (co_net c') a = cut_from (co_net c) a) ∧
    (∀ a b, a ∈ m_ID <$> ms → serving (co_net c) a = true → b ∈ m_ID <$> members → b ≠ a →
       b ∈ cut_from (co_net c') a ↔ across g b a) ∧
    ((∀ a, a ∈ m_ID <$> ms → serving (co_net c) a = true) → err = firstErr).
Proof.
  revert firstErr c. induction ms as [|m ms IH]; intros firstErr c Hnd; cbn [partition_loop].
  { eexists _, _. split; [reflexivity|]. split_and!; try done. intros a b Ha. by apply elem_of_nil in Ha. }
  rewrite fmap_cons in Hnd |- *. apply NoDup_cons in Hnd as [Hm Hnd].
  unfold mbind at 1, GoM_bind at 1, call_admin at 1.
  destruct (admin (m_ID m) (AdmSetPartition (cut_list members g m)) (co_cluster c, co_net c)) as [r [cl w]] eqn:E.
  destruct (partition_frame _ _ _ _ _ _ _ E) as [Hcut Hserv].
  unfold mbind at 1, GoM_bind at 1. cbn [get]. set (c1 := MkConsole cl (co_chaos c) w).
  match goal with |- context [partition_loop members g ms ?f c1] => set (f1 := f) end.
  destruct (IH f1 c1 Hnd) as (err & c' & Hrun & Hch & Hs' & Hfr & Hcuts & Herr).
  exists err, c'. split; [exact Hrun|]. split; [done|]. cbn [co_net c1] in *.
  split; [intros a; by rewrite Hs', Hserv|]. split; [|split].
  - intros a [Hne Ha]%not_elem_of_cons. by rewrite Hfr, Hcut.
  - intros a b [->|Ha]%elem_of_cons Hsa Hb Hne.
    + rewrite Hfr by done. destruct (partition_serving _ _ _ _ _ _ _ Hsa E) as [_ Hp].
      by rewrite Hp, cut_list_spec.
    + apply Hcuts; [done| |done|done]. by rewrite Hserv.
  - intros Hall. rewrite Herr.
    + assert (serving (co_net c) (m_ID m) = true) as Hsm by (apply Hall; by left).
      destruct (partition_serving _ _ _ _ _ _ _ Hsm E) as [-> _]. done.
    + intros a Ha. rewrite Hserv. apply Hall. by right.
Qed.

(** C31: a partition splits the nodes in two.  [Partition group] tells every
    node whose Admin service answers exactly who is on the other side, whatever
    the others do: afterwards two members that answer refuse each other, in both
    directions, if and only if just one of them is in [group].  When all of them
    answer the call succeeds and the fault is noted for the watchdog. *)
Theorem Partition_splits t group c :
  cluster_ok (co_cluster c) → Forall (λ id, Known id (co_cluster c) = true) group →
  (∃ m, m ∈ cl_members (co_cluster c) ∧ (m_ID m ∉ group)) → group ≠ [] →
  let ids := m_ID <$> cl_members (co_cluster c) in
  ∃ err c', Partition t group c = Val (err, c') ∧
    (∀ a b, a ∈ ids → b ∈ ids → serving (co_net c) a = true → serving (co_net c) b = true → a ≠ b →
       (b ∈ cut_from (co_net c') a ↔ ¬ (a ∈ group ↔ b ∈ group)) ∧
       (b ∈ cut_from (co_net c') a ↔ a ∈ cut_from (co_net c') b)) ∧
    ((∀ a, a ∈ ids → serving (co_net c) a = true) → err = None ∧ co_chaos c' = MkChaos t false).
Proof.
  intros [Hnd Hkn] Hg (m & Hm & Hout) Hne ids. unfold Partition. unfold mbind at 1, GoM_bind at 1. cbn [get].
  destruct (in_group_known (co_cluster c) group ∅ Hg) as [g Hgr]. rewrite Hgr.
  pose proof (in_group_spec _ _ _ _ Hgr) as ->. rewrite union_empty_r_L in *.
  assert (∀ a b, across (list_to_set group) b a ↔ ¬ (a ∈ group ↔ b ∈ group)) as Hacross.
  { intros a b. unfold across. rewrite <- !(elem_of_list_to_set (C := gset NodeID) _ group).
    repeat case_bool_decide; intuition congruence. }
  assert ((size (list_to_set group : gset NodeID) =? length (cl_members (co_cluster c)))%nat = false) as ->.
  { apply Nat.eqb_neq. apply Nat.lt_neq.
    assert ((list_to_set group : gset NodeID) ⊂ list_to_set ids) as Hsub.
    { split.
      - intros x Hx%elem_of_list_to_set. apply elem_of_list_to_set, Hkn. by apply (proj1 (Forall_forall _ _) Hg).
      - intros Hs. apply Hout. apply (elem_of_list_to_set (C := gset NodeID)), Hs, elem_of_list_to_set. by apply list_elem_of_fmap_2. }
    apply subset_size in Hsub. rewrite (size_list_to_set ids) in Hsub by done. unfold ids in Hsub.
    by rewrite length_fmap in Hsub. }
  unfold mbind at 1, GoM_bind at 1.
  destruct (partition_loop_spec (cl_members (co_cluster c)) (list_to_set group) (cl_members (co_cluster c)) None c Hnd)
    as (err & c' & -> & _ & _ & _ & Hcuts & Herr).
  assert (∀ c'', co_net c'' = co_net c' → ∀ a b, a ∈ ids → b ∈ ids → serving (co_net c) a = true →
    serving (co_net c) b = true → a ≠ b →
    (b ∈ cut_from (co_net c'') a ↔ ¬ (a ∈ group ↔ b ∈ group)) ∧
    (b ∈ cut_from (co_net c'') a ↔ a ∈ cut_from (co_net c'') b)) as Hgoal.
  { intros c'' -> a b Ha Hb Hsa Hsb Hab. rewrite !Hcuts, !Hacross by done. tauto. }
  destruct err as [err|].
  - exists (Some err), c'. split; [done|]. split; [by apply Hgoal|]. intros Hall. by specialize (Herr Hall).
  - destruct group as [|x group]; [done|]. cbn [length Nat.ltb Nat.leb when].
    exists None, (set_chaos (MkChaos t false) c'). split; [done|]. split; [by apply Hgoal|]. done.
Qed.
End Partition.

(** ** The nodes as supervisors

    A call runs the Admin service of that node's supervisor; one that is not
    there cannot be reached, and one that panics is gone. *)
Record Fleet : Type := MkFleet { fl_nodes : gmap NodeID Supervisor; fl_env : Env }.

Definition serve_admin (e : Env) (req : AdminReq) (s : Supervisor) : go (string * Supervisor) :=
  match req with
  | AdmSetPartition peers =>
      match SetPartition peers (now e) s with Val (_, s') => Val ("", s') | Panic => Panic end
  | AdmCrash =>
      match Admin_Crash s with
      | Val ((_, err), s') => Val (from_option error_string "" err, s')
      | Panic => Panic
      end
  | AdmRestart =>
      match Admin_Restart e s with
      | Val ((_, err), s') => Val (from_option error_string "" err, s')
      | Panic => Panic
      end
  end.

#[export] Instance fleet_net : AdminNet Fleet := λ id req '(cl, w),
  match fl_nodes w !! id with
  | None => (inr "connection refused", (cl, w))
  | Some s =>
      match serve_admin (fl_env w) req s with
      | Val (msg, s') => (inl msg, (cl, MkFleet (<[id := s']> (fl_nodes w)) (fl_env w)))
      | Panic => (inr "transport is closing", (cl, MkFleet (delete id (fl_nodes w)) (fl_env w)))
      end
  end.

(** The node is there, is the one its address stands for, and can report its
    status. *)
Definition supervised (id : NodeID) (s : Supervisor) : bool :=
  bool_decide (t_id (su_transport s) = id) && match status 0 s with Val _ => true | Panic => false end.

Lemma status_set_transport t0 t x s :
  match status t (su_set_transport x s) with Val _ => true | Panic => false end =
  match status t0 s with Val _ => true | Panic => false end.
Proof. unfold status. cbn. destruct (su_kvServer s) as [sv|]; [|done]. by destruct (Node_Status _). Qed.

Lemma serve_SetPartition e peers s :
  match status 0 s with Val _ => true | Panic => false end = true →
  serve_admin e (AdmSetPartition peers) s = Val ("", su_set_transport (SetIsolation peers (su_transport s)) s).
Proof.
  intros Hs. unfold serve_admin, SetPartition, mbind, GoM_bind, get, modify, lift_go.
  pose proof (status_set_transport 0 (now e) (SetIsolation peers (su_transport s)) s) as Hst. rewrite Hs in Hst.
  by destruct (status (now e) _).
Qed.

Lemma supervised_isolation id peers s :
  supervised id (su_set_transport (SetIsolation peers (su_transport s)) s) = supervised id s.
Proof. unfold supervised. by rewrite (status_set_transport 0). Qed.

Definition fleet_cut (w : Fleet) (id : NodeID) : gset NodeID :=
  match fl_nodes w !! id with Some s => t_isolated (su_transport s) | None => ∅ end.

Definition fleet_serving (w : Fleet) (id : NodeID) : bool :=
  match fl_nodes w !! id with Some s => supervised id s | None => false end.

Lemma fleet_insert_frame w id s s' :
  fl_nodes w !! id = Some s → supervised id s' = supervised id s →
  let w' := MkFleet (<[id := s']> (fl_nodes w)) (fl_env w) in
  (∀ a, a ≠ id → fleet_cut w' a = fleet_cut w a) ∧ ∀ a, fleet_serving w' a = fleet_serving w a.
Proof.
  intros Hs Heq w'. unfold fleet_cut, fleet_serving, w'. cbn. split; intros a.
  - intros Hne. by rewrite lookup_insert_ne.
  - destruct (decide (a = id)) as [->|Hne]; [|by rewrite lookup_insert_ne]. by rewrite lookup_insert_eq, Hs.
Qed.

Lemma fleet_delete_frame w id s :
  fl_nodes w !! id = Some s → supervised id s = false →
  let w' := MkFleet (delete id (fl_nodes w)) (fl_env w) in
  (∀ a, a ≠ id → fleet_cut w' a = fleet_cut w a) ∧ ∀ a, fleet_serving w' a = fleet_serving w a.
Proof.
  intros Hs Heq w'. unfold fleet_cut, fleet_serving, w'. cbn. split; intros a.
  - intros Hne. by rewrite lookup_delete_ne.
  - destruct (decide (a = id)) as [->|Hne]; [|by rewrite lookup_delete_ne]. by rewrite lookup_delete_eq, Hs.
Qed.

(** A [SetPartition] call to a supervisor that is there. *)
Lemma serve_SetPartition_inv e peers s :
  match serve_admin e (AdmSetPartition peers) s with
  | Val (msg, s') => msg = "" ∧ s' = su_set_transport (SetIsolation peers (su_transport s)) s
  | Panic => match status 0 s with Val _ => true | Panic => false end = false
  end.
Proof.
  destruct (status 0 s) as [st|] eqn:Hst.
  - rewrite serve_SetPartition by (by rewrite Hst). done.
  - unfold serve_admin, SetPartition, mbind, GoM_bind, get, modify, lift_go.
    pose proof (status_set_transport 0 (now e) (SetIsolation peers (su_transport s)) s) as Heq.
    rewrite Hst in Heq. by destruct (status (now e) _).
Qed.

(** The supervisors keep the promise. *)
#[export] Instance fleet_spec : AdminSpec Fleet.
Proof.
  refine {| cut_from := fleet_cut; serving := fleet_serving |}.
  - intros id req cl w r cl' w'. unfold admin, fleet_net.
    destruct (fl_nodes w !! id) as [s|]; [destruct (serve_admin _ req s) as [[msg s']|]|]; by intros [= _ <- _].
  - intros id peers cl w r cl' w'. unfold admin, fleet_net. destruct (fl_nodes w !! id) as [s|] eqn:Hs.
    + pose proof (serve_SetPartition_inv (fl_env w) peers s) as Hinv.
      destruct (serve_admin _ _ s) as [[msg s']|]; intros [= _ _ <-].
      * destruct Hinv as [_ ->]. apply (fleet_insert_frame w id s); [done|apply supervised_isolation].
      * apply (fleet_delete_frame w id s); [done|]. unfold supervised. by rewrite Hinv, andb_false_r.
    + by intros [= _ _ <-].
  - intros id peers cl w r cl' w'. unfold admin, fleet_net, fleet_serving, fleet_cut.
    destruct (fl_nodes w !! id) as [s|] eqn:Hs; [|done].
    unfold supervised. intros [Hid%bool_decide_eq_true Hst]%andb_true_iff.
    rewrite serve_SetPartition by done. intros [= <- _ <-]. split; [done|]. intros b Hb. cbn.
    rewrite lookup_insert_eq. cbn. rewrite elem_of_list_to_set, list_elem_of_filter, Hid. tauto.
Defined.

(** ** Examples *)

(** Three members, known by their identifiers and polled for the first time
    while nobody answers. *)
Definition example_members : list Member :=
  [MkMember "c" "c:7000"; MkMember "b" "b:7000"; MkMember "a" "a:7000"].

Definition example_cluster : Cluster + error :=
  NewCluster (λ _, None) (λ ms, poll ms map_to_list 0 (replicate (length ms) (inr "connection refused")))
    example_members.

(** A node whose process runs but whose Raft node is stopped. *)
Definition example_supervisor (id : NodeID) : Supervisor :=
  MkSup (MkSupConfig id [] ∅ "/data" 0 0 0 0) None 0 true
    (DiskStorage.MkDisk ∅ DiskStorage.Closed 0 [] None [] 0 0) (Transport_New id ∅).

Definition example_fleet : Fleet :=
  MkFleet (list_to_map ((λ id, (id, example_supervisor id)) <$> ["a"; "b"; "c"])) (MkEnv 1 0).

Lemma Partition_splits_witness :
  ∃ cl, example_cluster = inl cl ∧ m_ID <$> cl_members cl = ["a"; "b"; "c"] ∧
    ∃ c', Partition 7 ["b"] (MkConsole cl NewChaos example_fleet) = Val (None, c') ∧
      co_chaos c' = MkChaos 7 false ∧ "b" ∈ cut_from (co_net c') "a" ∧ "a" ∈ cut_from (co_net c') "b".
Proof.
  destruct example_cluster as [cl|err] eqn:E; [|by vm_compute in E]. exists cl.
  assert (cluster_ok cl) as Hok.
  { eapply NewCluster_ok; [|exact E]. apply (bool_decide_unpack (NoDup (m_ID <$> example_members))). by vm_compute. }
  assert (m_ID <$> cl_members cl = ["a"; "b"; "c"]) as Hids.
  { clear Hok. vm_compute in E. injection E as <-. by vm_compute. }
  split; [done|]. split; [done|].
  assert (∀ id, id ∈ m_ID <$> cl_members cl → Known id cl = true) as Hkn by (intros id; apply (co_known _ Hok)).
  assert (∃ m, m ∈ cl_members cl ∧ (m_ID m ∉ ["b"])) as Hm.
  { assert ("a" ∈ m_ID <$> cl_members cl) as (m & Hid & Hm)%list_elem_of_fmap by (rewrite Hids; by left).
    exists m. split; [done|]. rewrite <- Hid. by apply (bool_decide_unpack ("a" ∉ ["b"])). }
  destruct (Partition_splits (W := Fleet) 7 ["b"] (MkConsole cl NewChaos example_fleet) Hok)
    as (err & c' & Hrun & Hcut & Hall).
  - repeat constructor. apply Hkn. rewrite Hids. right. by left.
  - exact Hm.
  - done.
  - destruct Hall as [-> Hch].
    { intros a Ha. cbn [co_cluster co_net] in *. rewrite Hids in Ha.
      repeat (apply elem_of_cons in Ha as [->|Ha]; [by vm_compute|]). by apply elem_of_nil in Ha. }
    exists c'. split; [exact Hrun|]. split; [done|].
    destruct (Hcut "a" "b") as [H1 H2]; [cbn [co_cluster]; rewrite Hids; by left
      |cbn [co_cluster]; rewrite Hids; right; by left|by vm_compute|by vm_compute|done|].
    assert ("b" ∈ cut_from (co_net c') "a") as Hb; [|split; [done|by apply H2]].
    apply H1. intros [_ H3]. assert ("a" ∈ ["b"]) as H4 by (apply H3; by left). by apply list_elem_of_singleton in H4.
Defined.

(** A partition that fails half-way is not watched: two nodes answer and are
    told, the third has just died but was running at the last poll, so [Partition]
    reports an error and notes no fault.  The first two stay cut off, and the
    watchdog, however long it waits, never heals them. *)
Definition half_dead : Console Fleet :=
  MkConsole (MkCluster example_members
      (list_to_map ((λ m, (m_ID m, m)) <$> example_members)) ∅
      (MkGwSnapshot 0 (MkClusterView 3 2 3 "" 0 0 1 3 true 0 0)
         ((λ m, MkView (m_ID m) (m_Addr m) true "running" "" "follower" 1 "" 0 0 0 0 0 0 0 0 [] ∅) <$> example_members))
      [] 0 ∅ ∅)
    NewChaos (MkFleet (delete "c" (fl_nodes example_fleet)) (MkEnv 1 0)).

Theorem partial_partition_unwatched :
  ∃ err c', Partition 7 ["a"] half_dead = Val (Some err, c') ∧
    "b" ∈ cut_from (co_net c') "a" ∧ co_chaos c' = NewChaos ∧
    ∀ t after ms shown, watchdog_tick t after ms shown c' = Val ((), c').
Proof.
  eexists _, _. split; [vm_compute; reflexivity|].
  split; [apply (bool_decide_unpack (_ ∈ _)); by vm_compute|]. split; [done|]. done.
Qed.
