(* ===== verification/GatewayClient.v ===== *)
(** * internal/gateway/kvclient.go: the console's client and its route

    [Do] is a step machine, one step being one turn of its loops.  Its input is
    what the turn finds out: whether the request's context is done, how the node
    answers, what the last poll showed, and what concurrent requests have done
    to the remembered leader.  A run is a list of inputs, so every environment
    is one.  Latencies are not modelled. *)
From stdpp Require Import pretty.
From Stdlib Require Import Ascii.
From S2P Require Import Prelude KVStore GatewayCluster GatewayChaos.

Record Attempt : Type := MkAttempt { at_Node : NodeID; at_Outcome : string; at_Detail : string }.

Record Result : Type := MkResult {
  re_OK : bool;
  re_Op : string;
  re_Key : string;
  re_Value : string;
  re_Found : bool;
  re_ServedBy : NodeID;
  re_Index : N;
  re_Attempts : list Attempt;
  re_Error : string;
}.

(** [c.leader] and [c.seq]; the cluster is an argument. *)
Record GwClient : Type := MkGwClient { gc_clientID : string; gc_seq : N; gc_leader : NodeID }.

Definition NewGwClient (clientID : string) : GwClient := MkGwClient clientID 0 "".

(** [candidates], [cached] being the remembered leader. *)
Definition candidates (cl : Cluster) (cached : NodeID) : list NodeID :=
  (if negb (bool_decide (cached = "")) && Known cached cl then [cached] else []) ++
  filter (λ id, id ≠ cached) (m_ID <$> cl_members cl).

(** ** Leader hints *)

(** [strings.Cut(s, ":")]: what follows the first colon. *)
Fixpoint after_colon (s : string) : option string :=
  match s with
  | EmptyString => None
  | String c s => if Ascii.eqb c ":"%char then Some s else after_colon s
  end.

(** [strings.HasSuffix(s, suffix)] *)
Definition has_suffix (s suffix : string) : bool :=
  (String.length suffix <=? String.length s)%nat &&
  bool_decide (String.substring (String.length s - String.length suffix) (String.length suffix) s = suffix).

Definition resolveHint (cl : Cluster) (hint : string) : NodeID :=
  match IDForAddr hint cl with
  | Some id => id
  | None =>
      match after_colon hint with
      | None => hint
      | Some port =>
          match list_find (λ m, has_suffix (m_Addr m) (":" ++ port)) (cl_members cl) with
          | Some (_, m) => m_ID m
          | None => hint
          end
      end
  end.

Definition explainFailure (snap : GwSnapshot) : string :=
  let c := gs_Cluster snap in
  if negb (cv_HasQuorum c) then
    "no quorum: " ++ pretty (N.of_nat (cv_Running c)) ++ " of " ++ pretty (N.of_nat (cv_Size c))
      ++ " nodes are up, " ++ pretty (N.of_nat (cv_Quorum c)) ++ " are needed to commit anything. "
      ++ "The store is refusing the write rather than accepting one it could lose."
  else if bool_decide (cv_Leader c = "")
  then "no leader right now: the cluster is mid-election. Retrying would normally succeed within a second."
  else "timed out before any node could commit the request".

(** ** One request *)

(** The endpoint [call] picks; [None] is an unknown operation. *)
Definition endpoint_of (op : string) : option Op :=
  if bool_decide (op = "get") then Some OP_GET
  else if bool_decide (op = "put") then Some OP_PUT
  else if bool_decide (op = "append") then Some OP_APPEND
  else if bool_decide (op = "delete") then Some OP_DELETE
  else None.

(** [%q], for a string without characters to escape. *)
Definition quoted (s : string) : string := String "034" (s ++ String "034" "").

Record GwInput : Type := MkGwInput {
  gi_ctxDone : bool;
  gi_answer : CommandReply + string;
  gi_snapshot : GwSnapshot;
  gi_leader : option NodeID;     (* set by another request since the last turn *)
}.

Inductive GwPc : Type :=
| GwPassTop
| GwSweep (nodes : list NodeID)
| GwPassEnd
| GwReturned (r : Result).

Record GwDo : Type := MkGwDo {
  gd_op : string;
  gd_cmd : KVCommand;
  gd_leader : NodeID;
  gd_attempts : list Attempt;
  gd_pc : GwPc;
  gd_sent : list (NodeID * Op * KVCommand);
}.

Definition gw_start (c : GwClient) (op key value : string) : GwDo * GwClient :=
  let seq := u64_add (gc_seq c) 1 in
  (MkGwDo op (MkCommand (gc_clientID c) seq OP_UNSPECIFIED key value) (gc_leader c) [] GwPassTop [],
   MkGwClient (gc_clientID c) seq (gc_leader c)).

(** [call]: the outcome, and the message that went out if there was one. *)
Definition gw_call (cl : Cluster) (id : NodeID) (op : string) (cmd : KVCommand) (answer : CommandReply + string)
    : (CommandReply + string) * list (NodeID * Op * KVCommand) :=
  if negb (Known id cl) then (inr ("unknown node " ++ id)%string, [])
  else match endpoint_of op with
       | None => (inr ("unknown operation " ++ quoted op)%string, [])
       | Some ep => (answer, [(id, ep, cmd)])
       end.

(** [c.leader], as the request sees it. *)
Definition cachedLeader (d : GwDo) : NodeID := gd_leader d.

Definition setLeader (id : NodeID) (d : GwDo) : GwDo :=
  MkGwDo (gd_op d) (gd_cmd d) id (gd_attempts d) (gd_pc d) (gd_sent d).

Definition invalidateLeader (d : GwDo) : GwDo := setLeader "" d.

Definition gw_next (d : GwDo) (a : Attempt) (pc : GwPc) (sent : list (NodeID * Op * KVCommand)) : GwDo :=
  MkGwDo (gd_op d) (gd_cmd d) (gd_leader d) (gd_attempts d ++ [a]) pc (gd_sent d ++ sent).

(** One hop: the contact with [id], the others of the pass being [rest]. *)
Definition gw_attempt (cl : Cluster) (id : NodeID) (rest : list NodeID) (i : GwInput) (d : GwDo) : GwDo :=
  let '(reply, sent) := gw_call cl id (gd_op d) (gd_cmd d) (gi_answer i) in
  match reply with
  | inr msg => gw_next (invalidateLeader d) (MkAttempt id "unreachable" msg) (GwSweep rest) sent
  | inl r =>
      if Success r then
        let a := MkAttempt id "ok" "" in
        gw_next (setLeader id d) a (GwReturned (MkResult true (gd_op d) (Key (gd_cmd d)) (r_Value r) (Found r) id (r_Index r)
          (gd_attempts d ++ [a]) "")) sent
      else if negb (bool_decide (LeaderHint r = "")) then
        let target := resolveHint cl (LeaderHint r) in
        gw_next (setLeader target d) (MkAttempt id "redirected" ("not leader; sent us to " ++ target)) GwPassEnd sent
      else gw_next (invalidateLeader d) (MkAttempt id "refused" (Error r)) (GwSweep rest) sent
  end.

Definition gw_at (pc : GwPc) (d : GwDo) : GwDo :=
  MkGwDo (gd_op d) (gd_cmd d) (gd_leader d) (gd_attempts d) pc (gd_sent d).

(** What other requests of the same client did to [c.leader]. *)
Definition gw_interfere (i : GwInput) (d : GwDo) : GwDo :=
  setLeader (default (cachedLeader d) (gi_leader i)) d.

Definition gw_turn (cl : Cluster) (i : GwInput) (d : GwDo) : GwDo :=
  match gd_pc d with
  | GwPassTop => gw_at (GwSweep (candidates cl (cachedLeader d))) d
  | GwSweep [] => gw_at GwPassEnd d
  | GwSweep (id :: rest) => if gi_ctxDone i then gw_at GwPassEnd d else gw_attempt cl id rest i d
  | GwPassEnd =>
      if gi_ctxDone i
      then gw_at (GwReturned (MkResult false (gd_op d) (Key (gd_cmd d)) "" false "" 0 (gd_attempts d)
             (explainFailure (gi_snapshot i)))) d
      else gw_at GwPassTop d
  | GwReturned _ => d
  end.

Definition gw_step (cl : Cluster) (i : GwInput) (d : GwDo) : GwDo := gw_turn cl i (gw_interfere i d).

Definition gw_run (cl : Cluster) (inputs : list GwInput) (d : GwDo) : GwDo :=
  foldl (λ d i, gw_step cl i d) d inputs.

(** ** Lemmas *)

(** Every member once, the remembered leader first. *)
Lemma candidates_complete cl cached :
  cluster_ok cl → "" ∉ m_ID <$> cl_members cl → candidates cl cached ≡ₚ m_ID <$> cl_members cl.
Proof.
  intros [Hnd Hkn] Hempty. unfold candidates. set (ids := m_ID <$> cl_members cl) in *.
  assert (∀ l : list NodeID, cached ∉ l → filter (λ id, id ≠ cached) l = l) as Hfilter.
  { induction l as [|x l IH]; [done|]. intros [Hx Hl]%not_elem_of_cons. rewrite filter_cons_True by congruence.
    by rewrite IH. }
  assert (NoDup (filter (λ id, id ≠ cached) ids)) as Hf by (by apply NoDup_filter).
  destruct (Known cached cl) eqn:Hk.
  - assert (cached ∈ ids) as Hin by (by apply Hkn). rewrite bool_decide_false by (by intros ->). cbn.
    apply NoDup_Permutation; [|done|].
    + constructor; [|done]. by intros [? _]%list_elem_of_filter.
    + intros x. rewrite elem_of_cons, list_elem_of_filter. destruct (decide (x = cached)) as [->|]; tauto.
  - rewrite andb_false_r. cbn. rewrite Hfilter; [done|]. intros Hin%Hkn. congruence.
Qed.

Lemma candidates_known cl cached :
  cluster_ok cl → Forall (λ id, Known id cl = true) (candidates cl cached).
Proof.
  intros [Hnd Hkn]. apply Forall_forall. unfold candidates. intros x [Hx|Hx]%elem_of_app.
  - destruct (negb _ && Known cached cl) eqn:E; [|by apply elem_of_nil in Hx].
    apply list_elem_of_singleton in Hx as ->. by apply andb_true_iff in E as [_ E].
  - apply list_elem_of_filter in Hx as [_ Hx]. by apply Hkn.
Qed.

(** A redirect decides who is asked next. *)
Lemma redirect_first cl target :
  Known target cl = true → target ≠ "" → head (candidates cl target) = Some target.
Proof. intros Hk Hne. unfold candidates. by rewrite (bool_decide_false (target = "")), Hk by done. Qed.

(** How a request that has come back was answered. *)
Definition result_from (cl : Cluster) (inputs : list GwInput) (d : GwDo) (r : Result) : Prop :=
  re_Attempts r = gd_attempts d ∧ ∃ i, i ∈ inputs ∧
    if re_OK r then
      ∃ reply, gi_answer i = inl reply ∧ Success reply = true ∧
        re_Value r = r_Value reply ∧ re_Found r = Found reply ∧ re_Index r = r_Index reply ∧
        last (gd_attempts d) = Some (MkAttempt (re_ServedBy r) "ok" "")
    else gi_ctxDone i = true ∧ re_Error r = explainFailure (gi_snapshot i).

(** What holds of a request that began as [d0], after [inputs]. *)
Record gw_inv (cl : Cluster) (ep : Op) (d0 : GwDo) (inputs : list GwInput) (d : GwDo) : Prop := {
  gw_op : gd_op d = gd_op d0;
  gw_cmd : gd_cmd d = gd_cmd d0;
  gw_sent : Forall (λ x, x.1.2 = ep ∧ x.2 = gd_cmd d0) (gd_sent d);
  gw_route : (λ x, x.1.1) <$> gd_sent d = at_Node <$> gd_attempts d;
  gw_members : Forall (λ a, Known (at_Node a) cl = true) (gd_attempts d);
  gw_pc : match gd_pc d with
          | GwSweep nodes => Forall (λ id, Known id cl = true) nodes
          | GwReturned r => result_from cl inputs d r
          | _ => True
          end;
}.

Lemma result_from_more cl inputs i d r : result_from cl inputs d r → result_from cl (inputs ++ [i]) d r.
Proof.
  intros (Ha & j & Hj & H). split; [done|]. exists j. split; [|done]. apply elem_of_app. by left.
Qed.

Lemma gw_attempt_inv cl ep d0 inputs i id rest d :
  endpoint_of (gd_op d0) = Some ep → gw_inv cl ep d0 inputs d → Known id cl = true →
  Forall (λ id, Known id cl = true) rest → gw_inv cl ep d0 (inputs ++ [i]) (gw_attempt cl id rest i d).
Proof.
  intros Hep [Hop Hcmd Hs Hr Hm _] Hid Hrest. unfold gw_attempt, gw_call. rewrite Hid, Hop, Hep. cbn [negb].
  assert (∀ leader o det pc, match pc with
      | GwSweep nodes => Forall (λ id, Known id cl = true) nodes
      | GwReturned r => result_from cl (inputs ++ [i]) (gw_next (setLeader leader d) (MkAttempt id o det) pc [(id, ep, gd_cmd d)]) r
      | _ => True end →
    gw_inv cl ep d0 (inputs ++ [i]) (gw_next (setLeader leader d) (MkAttempt id o det) pc [(id, ep, gd_cmd d)])) as Hnext.
  { intros leader o det pc Hpc. split; cbn; try done.
    - apply Forall_app. split; [done|]. by repeat constructor.
    - by rewrite !fmap_app, Hr.
    - apply Forall_app. split; [done|]. by repeat constructor. }
  destruct (gi_answer i) as [reply|msg] eqn:Ha; [|by apply Hnext].
  destruct (Success reply) eqn:Hok; [|destruct (negb _); by apply Hnext].
  apply Hnext. split; [done|]. exists i. split; [apply elem_of_app; right; by left|]. cbn.
  exists reply. split_and!; try done. by rewrite last_snoc.
Qed.

Lemma gw_step_inv cl ep d0 inputs i d :
  cluster_ok cl → endpoint_of (gd_op d0) = Some ep → gw_inv cl ep d0 inputs d →
  gw_inv cl ep d0 (inputs ++ [i]) (gw_step cl i d).
Proof.
  intros Hok Hep Hi. unfold gw_step. assert (gw_inv cl ep d0 inputs (gw_interfere i d)) as [Hop Hcmd Hs Hr Hm Hpc].
  { destruct Hi. by split. }
  clear Hi. revert Hop Hcmd Hs Hr Hm Hpc. generalize (gw_interfere i d) as x. intros x Hop Hcmd Hs Hr Hm Hpc.
  unfold gw_turn. destruct (gd_pc x) as [|[|id rest]| |r] eqn:E.
  - split; try done. cbn. by apply candidates_known.
  - by split.
  - destruct (gi_ctxDone i); [by split|]. inversion Hpc as [|? ? Hid Hrest]; subst.
    apply gw_attempt_inv; [done| |done|done]. split; try done. by rewrite E.
  - destruct (gi_ctxDone i) eqn:Hc; split; try done. cbn. split; [done|].
    exists i. split; [apply elem_of_app; right; by left|]. by cbn.
  - split; try done. rewrite E. by apply result_from_more.
Qed.

Lemma gw_run_snoc cl inputs i d : gw_run cl (inputs ++ [i]) d = gw_step cl i (gw_run cl inputs d).
Proof. unfold gw_run. by rewrite foldl_app. Qed.

Lemma gw_run_inv cl ep d inputs :
  cluster_ok cl → endpoint_of (gd_op d) = Some ep → gw_inv cl ep d [] d →
  gw_inv cl ep d inputs (gw_run cl inputs d).
Proof.
  intros Hok Hep Hi. induction inputs as [|i inputs IH] using rev_ind; [done|].
  rewrite gw_run_snoc. by apply gw_step_inv.
Qed.

(** Once the context is done a request comes back within three turns. *)
Lemma gw_run_ends cl inputs d :
  Forall (λ i, gi_ctxDone i = true) inputs → 3 ≤ length inputs →
  ∃ r, gd_pc (gw_run cl inputs d) = GwReturned r.
Proof.
  intros Hdone Hlen. destruct inputs as [|i [|j [|k rest]]]; cbn in Hlen; try lia.
  inversion Hdone as [|? ? Hi Hd1]; subst. inversion Hd1 as [|? ? Hj Hd2]; subst.
  inversion Hd2 as [|? ? Hk Hd3]; subst.
  assert (∀ l x r, gd_pc x = GwReturned r → gd_pc (gw_run cl l x) = GwReturned r) as Hstay.
  { clear. induction l as [|i l IH]; intros x r Hx; [done|]. apply IH. unfold gw_step, gw_turn. cbn.
    by rewrite Hx. }
  assert (∃ r, gd_pc (gw_run cl [i; j; k] d) = GwReturned r) as [r Hr].
  { cbn [gw_run foldl]. unfold gw_step, gw_turn. destruct (gd_pc d) as [|[|id l]| |r] eqn:E;
      repeat (cbn; rewrite ?E, ?Hi, ?Hj, ?Hk).
    all: try (by eexists).
    destruct (candidates _ _); cbn; rewrite ?Hj; cbn; rewrite ?Hk; by eexists. }
  exists r. change (i :: j :: k :: rest) with ([i; j; k] ++ rest). unfold gw_run. rewrite foldl_app.
  by apply Hstay.
Qed.

(** C32: a request of the console, however the nodes answer and whatever other
    requests do.  Every message sent carries the same client identifier and the
    one sequence number drawn for it; the recorded route names exactly the nodes
    contacted, in order, all of them members.  A result marked [OK] is the
    successful reply of the last node of the route; any other result comes after
    the context ended, with the reason the last poll gives, and within three
    turns of that the request has come back. *)
Theorem Do_route cl c op ep key value inputs :
  cluster_ok cl → endpoint_of op = Some ep →
  let '(d, c') := gw_start c op key value in
  let d' := gw_run cl inputs d in
  gc_seq c' = u64_add (gc_seq c) 1 ∧
  Forall (λ x, x.1.2 = ep ∧ x.2 = MkCommand (gc_clientID c) (gc_seq c') OP_UNSPECIFIED key value) (gd_sent d') ∧
  (λ x, x.1.1) <$> gd_sent d' = at_Node <$> gd_attempts d' ∧
  Forall (λ a, Known (at_Node a) cl = true) (gd_attempts d') ∧
  (∀ r, gd_pc d' = GwReturned r → result_from cl inputs d' r) ∧
  (∀ ended, Forall (λ i, gi_ctxDone i = true) ended → 3 ≤ length ended →
     ∃ r, gd_pc (gw_run cl ended d') = GwReturned r).
Proof.
  intros Hok Hep. unfold gw_start. set (d := MkGwDo _ _ _ _ _ _). cbv zeta.
  assert (gw_inv cl ep d [] d) as Hi by (split; try done; by constructor).
  apply (gw_run_inv cl ep d inputs Hok Hep) in Hi. destruct Hi as [_ _ Hs Hr Hm Hpc].
  split_and!; try done.
  - intros r E. by rewrite E in Hpc.
  - intros ended. apply gw_run_ends.
Qed.

Definition empty_poll : GwSnapshot := MkGwSnapshot 0 (MkClusterView 3 2 1 "" 0 0 1 1 false 0 0) [].

(** Node "a" redirects to the address of "c", which serves the request. *)
Definition example_inputs : list GwInput :=
  let i a := MkGwInput false a empty_poll None in
  let redirect := inl (MkReply false "" false "kv: not leader" "c:7000" 0) in
  [i redirect; i redirect; i redirect; i redirect; i (inl success_reply); i (inl success_reply); i (inl success_reply)].

Lemma Do_route_witness :
  ∃ cl, example_cluster = inl cl ∧
    let d' := gw_run cl example_inputs (gw_start (NewGwClient "gw") "put" "k" "v").1 in
    at_Node <$> gd_attempts d' = ["a"; "c"] ∧
    ∃ r, gd_pc d' = GwReturned r ∧ result_from cl example_inputs d' r ∧ re_ServedBy r = "c".
Proof.
  destruct example_cluster as [cl|err] eqn:E; [|by vm_compute in E]. exists cl. split; [done|].
  assert (cluster_ok cl) as Hok.
  { eapply NewCluster_ok; [|exact E]. apply (bool_decide_unpack (NoDup (m_ID <$> example_members))). by vm_compute. }
  pose proof (Do_route cl (NewGwClient "gw") "put" OP_PUT "k" "v" example_inputs Hok eq_refl) as H.
  cbn [gw_start] in H. destruct H as (_ & _ & _ & _ & Hr & _).
  set (d' := gw_run _ _ _) in *. cbv zeta.
  assert (at_Node <$> gd_attempts d' = ["a"; "c"] ∧ ∃ r, gd_pc d' = GwReturned r ∧ re_ServedBy r = "c") as (H1 & r & H2 & H3).
  { clear Hr Hok. subst d'. vm_compute in E. injection E as <-.
    split; [by vm_compute|]. eexists. split; vm_compute; reflexivity. }
  split; [exact H1|]. exists r. split; [exact H2|]. split; [by apply Hr|exact H3].
Defined.

(** What the endpoint makes of a message (kv/server.go sets the operation). *)
Definition received (x : NodeID * Op * KVCommand) : KVCommand :=
  MkCommand (ClientId x.2) (SeqNo x.2) x.1.2 (Key x.2) (Value x.2).

(** Concurrent requests of the console can lose a write.  All its visitors
    share one [Client], so two requests may run at once; if the entry of the one
    that drew the later number commits first, the store takes the other for an
    old duplicate: it answers success, [Do] reports [OK], and the value is not
    there. *)
Theorem console_write_lost {codec : KVCodec} :
  ∃ cl d1 d2 c1 c2 m1 m2 reply r,
    example_cluster = inl cl ∧
    gw_start (NewGwClient "gw") "put" "k1" "a" = (d1, c1) ∧ gw_start c1 "put" "k2" "b" = (d2, c2) ∧
    let i a := MkGwInput false a empty_poll None in
    let d1' := gw_run cl [i (inl reply); i (inl reply)] d1 in
    let d2' := gw_run cl [i (inl success_reply); i (inl success_reply)] d2 in
    gd_sent d1' = [m1] ∧ gd_sent d2' = [m2] ∧
    let s2 := (apply_cmd (received m2) NewStore).2 in
    let s1 := (apply_cmd (received m1) s2).2 in
    (apply_cmd (received m1) s2).1 = Some reply ∧
    gd_pc d1' = GwReturned r ∧ re_OK r = true ∧ data s1 !! "k1" = None.
Proof.
  destruct example_cluster as [cl|err] eqn:E; [|by vm_compute in E]. vm_compute in E. injection E as <-.
  eexists _, _, _, _, _, _, _, success_reply, _. split; [reflexivity|]. split; [vm_compute; reflexivity|]. split; [vm_compute; reflexivity|]. cbv zeta.
  split; [vm_compute; reflexivity|]. split; [vm_compute; reflexivity|]. split; [vm_compute; reflexivity|].
  split; [vm_compute; reflexivity|]. by vm_compute.
Qed.
