(* ===== verification/GoStrings.v ===== *)
(** * The string functions of Go's standard library the programs use

    A Go string is a sequence of bytes: a [string] of 8-bit characters.
    strings.TrimSpace, strings.Cut and strings.Split at one byte,
    strings.ContainsAny and strings.Contains for single bytes, and
    net.SplitHostPort, with the laws that make command-line lists parse. *)
From Stdlib Require Import Ascii.
From S2P Require Import Prelude.
#[local] Set Warnings "-clear-no-such-hyp".
#[local] Open Scope string_scope.

(** ** White space

    [unicode.IsSpace]: the ASCII blanks, and the UTF-8 encodings of U+0085,
    U+00A0, U+1680, U+2000 to U+200A, U+2028, U+2029, U+202F, U+205F and U+3000. *)
Definition byte_in (c : ascii) (l : list N) : bool := bool_decide (N_of_ascii c ∈ l).

Definition space1 (a : ascii) : bool := byte_in a [9; 10; 11; 12; 13; 32]%N.

Definition space2 (a b : ascii) : bool := byte_in a [194]%N && byte_in b [133; 160]%N.

Definition space3 (a b c : ascii) : bool :=
  let x := N_of_ascii c in
  (byte_in a [225]%N && byte_in b [154]%N && (x =? 128)%N) ||
  (byte_in a [226]%N && byte_in b [128]%N &&
     (((128 <=? x)%N && (x <=? 138)%N) || byte_in c [168; 169; 175]%N)) ||
  (byte_in a [226]%N && byte_in b [129]%N && (x =? 159)%N) ||
  (byte_in a [227]%N && byte_in b [128]%N && (x =? 128)%N).

(** The white-space runes at the front of [l] go; [two] and [three] recognise
    the encodings of more than one byte. *)
Fixpoint drop_space (two : ascii → ascii → bool) (three : ascii → ascii → ascii → bool) (l : list ascii)
    : list ascii :=
  match l with
  | [] => []
  | a :: l1 =>
      if space1 a then drop_space two three l1 else
      match l1 with
      | b :: l2 =>
          if two a b then drop_space two three l2 else
          match l2 with
          | c :: l3 => if three a b c then drop_space two three l3 else l
          | [] => l
          end
      | [] => l
      end
  end.

(** [strings.TrimSpace]: at the end of the string the encodings are met
    backwards. *)
Definition TrimSpace (s : string) : string :=
  String.string_of_list_ascii (rev
    (drop_space (λ a b, space2 b a) (λ a b c, space3 c b a)
       (rev (drop_space space2 space3 (String.list_ascii_of_string s))))).

(** ** Cutting and splitting *)

(** [strings.Cut(s, sep)] for a separator of one byte: the parts before and
    after the first one, and whether there is one. *)
Fixpoint Cut (sep : ascii) (s : string) : string * string * bool :=
  match s with
  | EmptyString => ("", "", false)
  | String a s' =>
      if Ascii.eqb a sep then ("", s', true)
      else let '(before, after, found) := Cut sep s' in (String a before, after, found)
  end.

(** [strings.Split(s, sep)] for a separator of one byte. *)
Fixpoint Split (sep : ascii) (s : string) : list string :=
  match s with
  | EmptyString => [""]
  | String a s' =>
      if Ascii.eqb a sep then "" :: Split sep s'
      else match Split sep s' with
           | part :: rest => String a part :: rest
           | [] => [String a ""]
           end
  end.

(** [strings.Join] *)
Abbreviation Join sep parts := (String.concat sep parts).

(** [strings.IndexByte], [strings.LastIndexByte] *)
Fixpoint IndexByte (c : ascii) (s : string) : option nat :=
  match s with
  | EmptyString => None
  | String a s' => if Ascii.eqb a c then Some 0 else S <$> IndexByte c s'
  end.

Fixpoint LastIndexByte (c : ascii) (s : string) : option nat :=
  match s with
  | EmptyString => None
  | String a s' =>
      match LastIndexByte c s' with
      | Some i => Some (S i)
      | None => if Ascii.eqb a c then Some 0 else None
      end
  end.

Definition has_byte (c : ascii) (s : string) : bool := bool_decide (is_Some (IndexByte c s)).

(** [strings.ContainsAny] *)
Definition ContainsAny (s : string) (chars : list ascii) : bool := existsb (λ c, has_byte c s) chars.

(** ** Addresses

    [net.SplitHostPort]: the host, or [None] for the error. *)
Definition slice (i j : nat) (s : string) : string := String.substring i (j - i) s.

Definition SplitHost (hostport : string) : option string :=
  let len := String.length hostport in
  match LastIndexByte ":" hostport with
  | None => None
  | Some i =>
      let finish (host : string) (j k : nat) :=
        if has_byte "[" (slice j len hostport) then None
        else if has_byte "]" (slice k len hostport) then None
        else Some host in
      if bool_decide (String.get 0 hostport = Some "["%char) then
        match IndexByte "]" hostport with
        | None => None
        | Some close =>
            if (S close =? i)%nat then finish (slice 1 close hostport) 1 (S close) else None
        end
      else
        let host := slice 0 i hostport in
        if has_byte ":" host then None else finish host 0 0
  end.

(** ** Laws *)

(** Every character of [s] satisfies [P]. *)
Fixpoint all_bytes (P : ascii → bool) (s : string) : bool :=
  match s with
  | EmptyString => true
  | String a s => P a && all_bytes P s
  end.

(** A printing ASCII character other than a blank. *)
Definition plain (a : ascii) : bool := let x := N_of_ascii a in (33 <=? x)%N && (x <=? 126)%N.

Lemma plain_space1 a : plain a = true → space1 a = false.
Proof.
  unfold plain, space1, byte_in. intros [H1%N.leb_le H2%N.leb_le]%andb_true_iff.
  apply bool_decide_eq_false. set_solver by lia.
Qed.

Lemma plain_space2 a b : (plain a = true ∨ plain b = true) → space2 a b = false.
Proof.
  unfold plain, space2, byte_in. intros H. apply andb_false_iff.
  destruct H as [[_ H%N.leb_le]%andb_true_iff|[_ H%N.leb_le]%andb_true_iff]; [left|right];
    apply bool_decide_eq_false; set_solver by lia.
Qed.

Lemma plain_space3 a b c : (plain a = true ∨ plain b = true ∨ plain c = true) → space3 a b c = false.
Proof.
  unfold plain, space3, byte_in. intros H.
  destruct (_ : bool) eqn:E in |- *; [|done]. exfalso.
  repeat (rewrite ?orb_true_iff, ?andb_true_iff, ?bool_decide_eq_true, ?N.leb_le, ?N.eqb_eq in *).
  rewrite !elem_of_cons, !elem_of_nil in E.
  destruct H; intuition lia.
Qed.

Lemma app_cons a s t : String a s ++ t = String a (s ++ t).
Proof. reflexivity. Qed.

Lemma app_nil s : "" ++ s = s.
Proof. reflexivity. Qed.

Lemma app_empty s : s ++ "" = s.
Proof. induction s as [|a s IH]; [done|]. by rewrite app_cons, IH. Qed.

Lemma app_assoc_str r s t : (r ++ s) ++ t = r ++ (s ++ t).
Proof. induction r as [|a r IH]; [done|]. by rewrite !app_cons, IH. Qed.

Lemma all_bytes_app P s t : all_bytes P (s ++ t) = all_bytes P s && all_bytes P t.
Proof. induction s as [|a s IH]; [done|]. rewrite app_cons. cbn. by rewrite IH, andb_assoc. Qed.

Lemma all_bytes_impl (P Q : ascii → bool) s :
  (∀ a, P a = true → Q a = true) → all_bytes P s = true → all_bytes Q s = true.
Proof.
  intros HPQ. induction s as [|a s IH]; cbn; [done|]. intros [H1 H2]%andb_true_iff. by rewrite HPQ, IH.
Qed.

Lemma all_bytes_Forall P s : all_bytes P s = true ↔ Forall (λ a, P a = true) (String.list_ascii_of_string s).
Proof. induction s as [|a s IH]; cbn; [done|]. by rewrite andb_true_iff, Forall_cons, IH. Qed.

Lemma bytes_app s t :
  String.list_ascii_of_string (s ++ t) = (String.list_ascii_of_string s ++ String.list_ascii_of_string t)%list.
Proof. induction s as [|a s IH]; [done|]. rewrite app_cons. cbn. by rewrite IH. Qed.

(** *** Trimming *)

Lemma drop_space_pad two three pad l :
  Forall (λ a, space1 a = true) pad → drop_space two three (pad ++ l)%list = drop_space two three l.
Proof. induction 1 as [|a pad Ha _ IH]; [done|]. cbn. by rewrite Ha. Qed.

(** A plain character at the front stops the trimming. *)
Lemma drop_space_stop two three a l :
  plain a = true → (∀ b, two a b = false) → (∀ b c, three a b c = false) →
  drop_space two three (a :: l) = a :: l.
Proof.
  intros Ha H2 H3. cbn. rewrite plain_space1 by done. destruct l as [|b l]; [done|]. rewrite H2.
  destruct l as [|c l]; [done|]. by rewrite H3.
Qed.

(** A plain character is never trimmed. *)
Lemma drop_space_keeps two three x l :
  plain x = true → (∀ a b, plain a = true ∨ plain b = true → two a b = false) →
  (∀ a b c, plain a = true ∨ plain b = true ∨ plain c = true → three a b c = false) →
  x ∈ l → x ∈ drop_space two three l.
Proof.
  intros Hx H2 H3. induction l as [[|a l] IH] using (induction_ltof1 _ length); intros Hin; [done|].
  unfold ltof in IH. cbn. destruct (space1 a) eqn:Ha.
  { apply IH; [cbn; lia|]. apply elem_of_cons in Hin as [->|?]; [|done]. by rewrite plain_space1 in Ha. }
  destruct l as [|b l]; [done|]. destruct (two a b) eqn:Hab.
  { apply IH; [cbn; lia|]. apply elem_of_cons in Hin as [->|[->|?]%elem_of_cons]; [| |done];
      rewrite H2 in Hab by tauto; done. }
  destruct l as [|c l]; [done|]. destruct (three a b c) eqn:Habc; [|done].
  apply IH; [cbn; lia|]. apply elem_of_cons in Hin as [->|[->|[->|?]%elem_of_cons]%elem_of_cons]; [| | |done];
    rewrite H3 in Habc by tauto; done.
Qed.

Lemma TrimSpace_not_empty s x :
  plain x = true → x ∈ String.list_ascii_of_string s → TrimSpace s ≠ "".
Proof.
  intros Hx Hin Ht. apply (f_equal String.list_ascii_of_string) in Ht. unfold TrimSpace in Ht.
  rewrite String.list_ascii_of_string_of_list_ascii in Ht. cbn in Ht.
  apply (drop_space_keeps space2 space3 x) in Hin; [|done|intros; by apply plain_space2|intros; by apply plain_space3].
  assert (x ∈ rev (drop_space space2 space3 (String.list_ascii_of_string s))) as Hrev
    by (by rewrite list_elem_of_In, <- in_rev, <- list_elem_of_In).
  apply (drop_space_keeps (λ a b, space2 b a) (λ a b c, space3 c b a) x) in Hrev;
    [|done|intros; apply plain_space2; tauto|intros; apply plain_space3; tauto].
  apply (f_equal (rev (A := ascii))) in Ht. rewrite rev_involutive in Ht. cbn in Ht. rewrite Ht in Hrev.
  by apply elem_of_nil in Hrev.
Qed.

Definition blank (s : string) : bool := all_bytes space1 s.
Definition plain_string (s : string) : bool := all_bytes plain s.

Lemma drop_space_all two three l : Forall (λ a, space1 a = true) l → drop_space two three l = [].
Proof. intros H. rewrite <- (app_nil_r l). by rewrite drop_space_pad. Qed.

Lemma TrimSpace_blank s : blank s = true → TrimSpace s = "".
Proof. intros Hs%all_bytes_Forall. unfold TrimSpace. by rewrite (drop_space_all space2 space3). Qed.

(** What begins and ends with a plain character stays; blanks around it go. *)
Lemma TrimSpace_middle pad1 s pad2 (a z : ascii) (m : list ascii) :
  blank pad1 = true → blank pad2 = true → plain a = true → plain z = true →
  String.list_ascii_of_string s = a :: m → last (a :: m) = Some z →
  TrimSpace (pad1 ++ s ++ pad2) = s.
Proof.
  intros H1%all_bytes_Forall H2%all_bytes_Forall Ha Hz Hs Hl. unfold TrimSpace.
  rewrite !bytes_app, drop_space_pad by done. rewrite Hs. cbn [app].
  rewrite drop_space_stop by (done || intros; (apply plain_space2 || apply plain_space3); tauto).
  rewrite app_comm_cons, rev_app_distr, drop_space_pad by (by apply List.Forall_rev).
  apply last_Some in Hl as [l' Hl]. rewrite Hl, rev_app_distr. cbn [rev app].
  rewrite drop_space_stop by (done || intros; (apply plain_space2 || apply plain_space3); tauto).
  cbn [rev]. rewrite rev_involutive, <- Hl, <- Hs. apply String.string_of_list_ascii_of_string.
Qed.

Lemma TrimSpace_plain pad1 s pad2 :
  blank pad1 = true → blank pad2 = true → plain_string s = true → TrimSpace (pad1 ++ s ++ pad2) = s.
Proof.
  intros H1 H2 Hs. destruct s as [|a s'] eqn:E.
  { change ("" ++ pad2) with pad2. apply TrimSpace_blank. unfold blank in *. by rewrite all_bytes_app, H1, H2. }
  rewrite <- E in *. apply all_bytes_Forall in Hs.
  destruct (last (String.list_ascii_of_string s)) as [z|] eqn:Hz.
  - eapply TrimSpace_middle; try done; subst s; cbn in *.
    + inversion Hs; subst; done.
    + rewrite Forall_forall in Hs. apply Hs. by apply last_Some_elem_of.
    + reflexivity.
    + exact Hz.
  - apply last_None in Hz. by subst s.
Qed.

(** *** Cutting and splitting *)

Definition free (sep : ascii) (s : string) : bool := all_bytes (λ a, negb (Ascii.eqb a sep)) s.

Lemma Cut_free sep s t : free sep s = true → Cut sep (s ++ String sep t) = (s, t, true).
Proof.
  unfold free. induction s as [|a s IH]; [intros _; rewrite app_nil; cbn; by rewrite Ascii.eqb_refl|].
  rewrite app_cons. cbn. intros [Ha%negb_true_iff Hs]%andb_true_iff. by rewrite Ha, IH.
Qed.

Lemma Split_free sep s : free sep s = true → Split sep s = [s].
Proof.
  unfold free. induction s as [|a s IH]; cbn; [done|].
  intros [Ha%negb_true_iff Hs]%andb_true_iff. by rewrite Ha, IH.
Qed.

Lemma Split_cons sep s t : free sep s = true → Split sep (s ++ String sep t) = s :: Split sep t.
Proof.
  unfold free. induction s as [|a s IH]; [intros _; rewrite app_nil; cbn; by rewrite Ascii.eqb_refl|].
  rewrite app_cons. cbn. intros [Ha%negb_true_iff Hs]%andb_true_iff. by rewrite Ha, IH.
Qed.

(** Splitting undoes joining. *)
Lemma Split_Join sep parts :
  parts ≠ [] → Forall (λ s, free sep s = true) parts → Split sep (Join (String sep "") parts) = parts.
Proof.
  intros Hne Hall. induction parts as [|s [|s' parts] IH]; [done|by inversion Hall; apply Split_free|].
  inversion Hall as [|? ? Hs Hrest]; subst.
  change (Join (String sep "") (s :: s' :: parts)) with (s ++ String sep "" ++ Join (String sep "") (s' :: parts)).
  rewrite app_cons, app_nil,  Split_cons by done. by rewrite IH.
Qed.

Lemma free_app sep s t : free sep (s ++ t) = free sep s && free sep t.
Proof. apply all_bytes_app. Qed.

(** Blanks contain no separator. *)
Lemma blank_free sep s : plain sep = true → blank s = true → free sep s = true.
Proof.
  intros Hp. apply all_bytes_impl. intros a Ha. apply negb_true_iff, Ascii.eqb_neq. intros ->.
  by rewrite plain_space1 in Ha.
Qed.
