(* ===== verification/RateLimit.v ===== *)
(** * internal/gateway/http.go: the per-visitor rate limiter

    A token bucket per client address.  Times are nanoseconds.  Tokens are
    counted in units of 1 / (60 * 10^9), in which the refill of one nanosecond
    is [perMinute] units and every amount is an integer: the float64 the code
    uses is modelled by the exact number it stands for, rounding is not.
    The theorems take the calls in the order in which they hold the lock, their
    clock readings being in that order too. *)
From S2P Require Import Prelude.
#[local] Open Scope Z_scope.

(** [time.Minute], and the units one token is made of. *)
Definition minute : Z := 60000000000.
Definition token : Z := minute.

Record bucket : Type := MkBucket { bk_tokens : Z; bk_last : Z }.

Record limiter : Type := MkLimiter { perMinute : Z; buckets : gmap string bucket }.

Definition newLimiter (perMinute : Z) : limiter := MkLimiter perMinute ∅.

Definition capacity (l : limiter) : Z := perMinute l * token.

(** The loop over [l.buckets] once there are many: idle ones go. *)
Definition evict (now : Z) (bs : gmap string bucket) : gmap string bucket :=
  if (4096 <? Z.of_nat (size bs)) then filter (λ kb, ¬ minute < now - bk_last kb.2) bs else bs.

(** The refill up to the capacity. *)
Definition refill (l : limiter) (now : Z) (b : bucket) : Z :=
  let t := bk_tokens b + (now - bk_last b) * perMinute l in
  if capacity l <? t then capacity l else t.

Definition allow (now : Z) (key : string) : GoM limiter bool := λ l,
  if perMinute l <=? 0 then Val (true, l) else
  let bs := evict now (buckets l) in
  let b := match bs !! key with
           | Some b => b
           | None => MkBucket (capacity l) now
           end in
  let t := refill l now b in
  if t <? token
  then Val (false, MkLimiter (perMinute l) (<[key := MkBucket t now]> bs))
  else Val (true, MkLimiter (perMinute l) (<[key := MkBucket (t - token) now]> bs)).

(** A sequence of calls, each with the time it reads and its key, and what they
    are told. *)
Fixpoint calls (l : limiter) (cs : list (Z * string)) : list bool * limiter :=
  match cs with
  | [] => ([], l)
  | (now, key) :: rest =>
      match allow now key l with
      | Val (ok, l') => let '(oks, l'') := calls l' rest in (ok :: oks, l'')
      | Panic => ([], l)
      end
  end.

(** How many calls under [key] were let through. *)
Definition allowed (key : string) (cs : list (Z * string)) (oks : list bool) : nat :=
  length (filter (λ p, p.1.2 = key ∧ p.2 = true) (zip cs oks)).

(** The clock readings, starting at [t0], in the order of the lock. *)
Fixpoint timed (t0 : Z) (cs : list (Z * string)) : Prop :=
  match cs with
  | [] => True
  | (now, _) :: rest => t0 ≤ now ∧ timed now rest
  end.

Fixpoint last_time (t0 : Z) (cs : list (Z * string)) : Z :=
  match cs with
  | [] => t0
  | (now, _) :: rest => last_time now rest
  end.

(** ** The buckets stay within their bounds *)
Record limiter_ok (t0 : Z) (l : limiter) : Prop := {
  lo_rate : 0 < perMinute l;
  lo_bucket key b : buckets l !! key = Some b → 0 ≤ bk_tokens b ≤ capacity l ∧ bk_last b ≤ t0;
}.

Lemma newLimiter_ok t0 n : 0 < n → limiter_ok t0 (newLimiter n).
Proof. by split. Qed.

(** What the account of [key] holds at time [t]: the reference the limiter is
    compared with.  A key that has no bucket has a full one. *)
Definition credit (l : limiter) (key : string) (t : Z) : Z :=
  match buckets l !! key with
  | Some b => refill l t b
  | None => capacity l
  end.

Section Bounds.
Implicit Types (l : limiter).

Lemma capacity_token l t0 : limiter_ok t0 l → token ≤ capacity l.
Proof. intros [Hr _]. unfold capacity, token, minute. lia. Qed.

Lemma refill_min l now b :
  refill l now b = Z.min (capacity l) (bk_tokens b + (now - bk_last b) * perMinute l).
Proof. unfold refill. destruct (Z.ltb_spec (capacity l) (bk_tokens b + (now - bk_last b) * perMinute l)); lia. Qed.

Lemma refill_bounds l t0 now b :
  limiter_ok t0 l → t0 ≤ now → 0 ≤ bk_tokens b ≤ capacity l → bk_last b ≤ t0 →
  0 ≤ refill l now b ≤ capacity l ∧ bk_tokens b ≤ refill l now b.
Proof.
  intros [Hr _] Hn Hb Hl. unfold refill. pose proof (Z.mul_nonneg_nonneg (now - bk_last b) (perMinute l)).
  destruct (Z.ltb_spec (capacity l) (bk_tokens b + (now - bk_last b) * perMinute l)); lia.
Qed.

Lemma credit_bounds l t0 key now :
  limiter_ok t0 l → t0 ≤ now → 0 ≤ credit l key now ≤ capacity l.
Proof.
  intros Hok Hn. pose proof (capacity_token _ _ Hok). unfold credit.
  destruct (buckets l !! key) as [b|] eqn:E; [|unfold token, minute in *; lia].
  destruct (lo_bucket _ _ Hok _ _ E). by apply (refill_bounds l t0).
Qed.

Lemma capacity_with l bs : capacity (MkLimiter (perMinute l) bs) = capacity l.
Proof. done. Qed.

(** A bucket idle for more than a minute is full. *)
Lemma refill_idle l t0 now b :
  limiter_ok t0 l → 0 ≤ bk_tokens b → minute < now - bk_last b → refill l now b = capacity l.
Proof.
  intros [Hr _] Hb Hi. unfold refill.
  assert (capacity l < bk_tokens b + (now - bk_last b) * perMinute l) as H by (unfold capacity, token; nia).
  by apply Z.ltb_lt in H as ->.
Qed.

(** What is found under [key] after the eviction is worth the same. *)
Lemma evict_credit l t0 key now t :
  limiter_ok t0 l → t0 ≤ now → now ≤ t →
  match evict now (buckets l) !! key with
  | Some b => refill l t b
  | None => capacity l
  end = credit l key t.
Proof.
  intros Hok H0 Ht. unfold credit, evict. destruct (4096 <? _); [|done].
  rewrite map_lookup_filter. destruct (buckets l !! key) as [b|] eqn:E; cbn; [|done].
  case_guard as Hi; cbn; [done|].
  destruct (lo_bucket _ _ Hok _ _ E) as [[Hb _] _]. symmetry. apply (refill_idle l t0); [done|done|].
  cbn in Hi. lia.
Qed.

Lemma evict_bucket l t0 now key b :
  limiter_ok t0 l → evict now (buckets l) !! key = Some b → 0 ≤ bk_tokens b ≤ capacity l ∧ bk_last b ≤ t0.
Proof.
  intros Hok. unfold evict. destruct (4096 <? _); [|apply (lo_bucket _ _ Hok)].
  intros [H _]%map_lookup_filter_Some. by apply (lo_bucket _ _ Hok _ _ H).
Qed.

(** The whole behaviour of a call, in terms of the accounts: it is let through
    when the account holds a token, which it then costs, and no other account
    changes. *)
Lemma allow_spec l t0 now key :
  limiter_ok t0 l → t0 ≤ now →
  ∃ l', allow now key l = Val (bool_decide (token ≤ credit l key now), l') ∧
    limiter_ok now l' ∧ perMinute l' = perMinute l ∧
    (∀ t, now ≤ t → credit l' key t = Z.min (capacity l)
       (credit l key now - (if bool_decide (token ≤ credit l key now) then token else 0) + (t - now) * perMinute l)) ∧
    (∀ k t, k ≠ key → now ≤ t → credit l' k t = credit l k t).
Proof.
  intros Hok Hn. unfold allow. pose proof (lo_rate _ _ Hok) as Hr.
  destruct (Z.leb_spec (perMinute l) 0); [lia|].
  pose proof (credit_bounds l t0 key now Hok Hn) as Hc. pose proof (capacity_token _ _ Hok) as Hcap.
  pose proof (evict_credit l t0 key now now Hok Hn (Z.le_refl _)) as He.
  set (bs := evict now (buckets l)) in *.
  assert (refill l now (match bs !! key with Some b => b | None => MkBucket (capacity l) now end)
          = credit l key now) as ->.
  { rewrite <- He. destruct (bs !! key); [done|]. unfold refill. cbn [bk_tokens bk_last].
    rewrite Z.sub_diag. destruct (Z.ltb_spec (capacity l) (capacity l + 0 * perMinute l)); lia. }
  set (c := credit l key now) in *.
  set (left := if bool_decide (token ≤ c) then c - token else c).
  set (l' := MkLimiter (perMinute l) (<[key := MkBucket left now]> bs)).
  assert (0 ≤ left ≤ capacity l) as Hleft by (unfold left; case_bool_decide; unfold token, minute in *; lia).
  exists l'. split.
  { unfold l', left. destruct (Z.ltb_spec c token).
    - by rewrite (bool_decide_false (token ≤ c)) by lia.
    - by rewrite (bool_decide_true (token ≤ c)) by lia. }
  split.
  { split; [done|]. intros k b. unfold l'. cbn. destruct (decide (k = key)) as [->|Hk].
    - rewrite lookup_insert_eq. intros [= <-]. rewrite capacity_with. cbn. lia.
    - rewrite lookup_insert_ne by done. intros Hb%(evict_bucket l t0 now k b Hok).
      rewrite capacity_with. lia. }
  split; [done|]. split.
  - intros t Ht. unfold credit, l'. cbn. rewrite lookup_insert_eq, refill_min, capacity_with.
    cbn [bk_tokens bk_last perMinute]. unfold left. case_bool_decide; lia.
  - intros k t Hk Ht. rewrite <- (evict_credit l t0 k now t) by done. unfold credit, l'. cbn.
    by rewrite lookup_insert_ne by done.
Qed.

(** Time adds to an account at most what it refills. *)
Lemma credit_later l t0 key t t' :
  limiter_ok t0 l → t0 ≤ t → t ≤ t' → credit l key t ≤ credit l key t' ≤ credit l key t + (t' - t) * perMinute l.
Proof.
  intros Hok H0 Ht. pose proof (lo_rate _ _ Hok) as Hr. unfold credit. destruct (buckets l !! key) as [b|].
  - rewrite !refill_min. nia.
  - nia.
Qed.

Lemma allowed_cons key now k cs ok oks :
  allowed key ((now, k) :: cs) (ok :: oks) =
  ((if bool_decide (k = key ∧ ok = true) then 1 else 0) + allowed key cs oks)%nat.
Proof. unfold allowed. cbn [zip zip_with]. rewrite filter_cons. cbn. repeat case_decide; repeat case_bool_decide; try done; tauto. Qed.

Lemma allowed_credit key cs l t0 :
  limiter_ok t0 l → timed t0 cs →
  Z.of_nat (allowed key cs (calls l cs).1) * token ≤ credit l key t0 + (last_time t0 cs - t0) * perMinute l.
Proof.
  revert l t0. induction cs as [|[now k] cs IH]; intros l t0 Hok Ht.
  { cbn. pose proof (credit_bounds l t0 key t0 Hok). unfold allowed. cbn. lia. }
  destruct Ht as [Hn Ht]. cbn [calls last_time].
  destruct (allow_spec l t0 now k Hok Hn) as (l' & -> & Hok' & Hr & Hown & Hother).
  specialize (IH l' now Hok' Ht). destruct (calls l' cs) as [oks l''] eqn:E. cbn [fst] in *.
  rewrite allowed_cons, Hr in *. pose proof (credit_later l t0 key t0 now Hok (Z.le_refl _) Hn) as Hlater.
  destruct (decide (k = key)) as [->|Hk].
  - rewrite Hown in IH by lia. case_bool_decide as Hc; case_bool_decide as Hd; try tauto; lia.
  - rewrite Hother in IH by (done || lia). rewrite bool_decide_false by tauto. lia.
Qed.

(** ** Visitors do not see each other *)

(** The limiter with the bucket of [key] alone. *)
Definition alone (key : string) l : limiter :=
  MkLimiter (perMinute l) (match buckets l !! key with Some b => {[key := b]} | None => ∅ end).

Lemma alone_credit key l t : credit (alone key l) key t = credit l key t.
Proof.
  unfold credit, alone. cbn. destruct (buckets l !! key) as [b|] eqn:E; cbn.
  - by rewrite lookup_singleton_eq.
  - by rewrite lookup_empty.
Qed.

Lemma alone_ok key l t0 : limiter_ok t0 l → limiter_ok t0 (alone key l).
Proof.
  intros Hok. split; [apply (lo_rate _ _ Hok)|]. intros k b. unfold alone. cbn.
  destruct (buckets l !! key) as [b0|] eqn:E; [|by rewrite lookup_empty].
  intros [<- <-]%lookup_singleton_Some. apply (lo_bucket _ _ Hok _ _ E).
Qed.

Lemma own_calls key cs l l2 t0 :
  limiter_ok t0 l → limiter_ok t0 l2 → perMinute l2 = perMinute l →
  (∀ t, t0 ≤ t → credit l2 key t = credit l key t) → timed t0 cs →
  filter (λ p, p.1.2 = key) (zip cs (calls l cs).1) =
  zip (filter (λ c, c.2 = key) cs) (calls l2 (filter (λ c, c.2 = key) cs)).1.
Proof.
  revert l l2 t0. induction cs as [|[now k] cs IH]; intros l l2 t0 Hok Hok2 Hr Hcr Ht; [done|].
  destruct Ht as [Hn Ht]. cbn [calls].
  destruct (allow_spec l t0 now k Hok Hn) as (l' & -> & Hok' & Hr' & Hown & Hother).
  rewrite (filter_cons _ (now, k) cs). destruct (decide ((now, k).2 = key)) as [Hk|Hk]; cbn in Hk.
  - subst k. cbn [calls].
    destruct (allow_spec l2 t0 now key Hok2 Hn) as (l2' & -> & Hok2' & Hr2' & Hown2 & _).
    specialize (IH l' l2' now Hok' Hok2' ltac:(congruence)).
    destruct (calls l' cs) as [oks l''], (calls l2' _) as [oks2 l2'']. cbn [fst zip zip_with] in *.
    rewrite filter_cons_True by done. rewrite Hcr by lia. f_equal. apply IH; [|done].
    intros t Htt. rewrite Hown, Hown2, Hcr by lia. unfold capacity. by rewrite Hr.
  - specialize (IH l' l2 now Hok').
    destruct (calls l' cs) as [oks l'']. cbn [fst zip zip_with] in *. rewrite filter_cons_False by done.
    apply IH; [|congruence| |done].
    + destruct Hok2 as [? Hb]. split; [done|]. intros k' b' Hb'. destruct (Hb _ _ Hb'). lia.
    + intros t Htt. rewrite Hother by (done || lia). apply Hcr. lia.
Qed.
End Bounds.

(** ** Theorems *)

(** C37: the rate is bounded.  From any state of the limiter, and whatever other
    visitors do, the calls let through for one key between [t0] and the last of
    them number at most [perMinute] for each minute that passed, plus one
    minute's worth. *)
Theorem rate_bound key l cs t0 :
  limiter_ok t0 l → timed t0 cs →
  Z.of_nat (allowed key cs (calls l cs).1) * minute ≤ perMinute l * (minute + (last_time t0 cs - t0)).
Proof.
  intros Hok Ht. pose proof (allowed_credit key cs l t0 Hok Ht) as H.
  pose proof (credit_bounds l t0 key t0 Hok (Z.le_refl _)) as Hc. unfold capacity, token in *. lia.
Qed.

(** Three calls a second with a budget of two a minute: the third is refused,
    and one more is let through half a minute later. *)
Definition example_calls : list (Z * string) :=
  [(0, "v"); (1000000000, "v"); (2000000000, "w"); (2000000000, "v"); (32000000000, "v")].

Lemma rate_bound_witness :
  (calls (newLimiter 2) example_calls).1 = [true; true; true; false; true] ∧
  Z.of_nat (allowed "v" example_calls (calls (newLimiter 2) example_calls).1) * minute ≤ 2 * (minute + 32000000000).
Proof.
  split; [by vm_compute|].
  apply (rate_bound "v" (newLimiter 2) example_calls 0); [by apply newLimiter_ok|by cbn].
Defined.

(** Visitors are independent and dropping idle buckets is not observable.
    What the calls under one key are told is what a limiter would tell them that
    only ever heard of this key, and so never drops a bucket. *)
Theorem visitors_independent key l cs t0 :
  limiter_ok t0 l → timed t0 cs →
  filter (λ p, p.1.2 = key) (zip cs (calls l cs).1) =
  zip (filter (λ c, c.2 = key) cs) (calls (alone key l) (filter (λ c, c.2 = key) cs)).1.
Proof.
  intros Hok Ht. apply (own_calls key cs l (alone key l) t0); [done|by apply alone_ok|done| |done].
  intros t _. apply alone_credit.
Qed.

Lemma visitors_independent_witness :
  filter (λ p, p.1.2 = "v") (zip example_calls (calls (newLimiter 2) example_calls).1) =
  zip (filter (λ c, c.2 = "v") example_calls) [true; true; false; true].
Proof.
  rewrite (visitors_independent "v" (newLimiter 2) example_calls 0); [by vm_compute|by apply newLimiter_ok|by cbn].
Defined.
