(* ===== verification/GatewayHttp.v ===== *)
(** * internal/gateway/http.go: the console's HTTP surface

    The server's state is the console of GatewayChaos (cluster view, fault
    injection and the nodes), the client of GatewayClient, the two rate limiters
    and the keys stored through it.  A request that calls the client is two
    steps, before and after [Client.Do], since requests are served concurrently
    and [Do] takes seconds; [handleKV] is their composition.  encoding/json is a
    parameter: what decoding a body yields.  A response is its status, whether
    the CORS headers are set, and the value its body encodes.  Static files
    (spaHandler) are not modelled. *)
From stdpp Require Import pretty.
From Stdlib Require Import Ascii.
From S2P Require Import Prelude RaftTypes KVStore GatewayCluster GatewayChaos GatewayClient GoStrings RateLimit.
#[local] Set Warnings "-clear-no-such-hyp".
#[local] Open Scope string_scope.

Record Options : Type := MkOptions {
  WebDir : string;
  AllowChaos : bool;
  MaxKeyLen : Z;
  MaxValueLen : Z;
  MaxKeys : Z;
  WritesPerMinute : Z;
  FaultsPerMinute : Z;
  TrustProxyHeaders : bool;
}.

Definition DefaultOptions : Options := MkOptions "" true 64 512 200 60 30 false.

(** [path]: the segments of the cleaned URL path; [forwarded]: the
    X-Forwarded-For header, empty when there is none. *)
Record HttpRequest : Type := MkHttpRequest {
  hr_method : string;
  hr_path : list string;
  hr_forwarded : string;
  hr_RemoteAddr : string;
  hr_Body : string;
}.

Record kvRequest : Type := MkKvRequest { kv_Key : string; kv_Value : string }.
Record chaosRequest : Type := MkChaosRequest { cr_Node : string; cr_Group : list string }.

(** The values bodies encode. *)
Inductive Payload : Type :=
| PText (s : string)
| PError (msg : string)
| PResult (r : Result)
| PKeys (keys : list string) (max : Z)
| PConfig (o : Options) (quorum size : nat)
| PCluster (snapshot : GwSnapshot) (events : list GwEvent)
| PFault (action node : string)
| PFile
| PEmpty.

Record Response : Type := MkResponse { rs_code : N; rs_payload : Payload }.

Definition writeJSON (code : N) (p : Payload) : Response := MkResponse code p.
Definition writeError (code : N) (msg : string) : Response := writeJSON code (PError msg).

(** ** Routes

    The patterns of [Handler] as http.ServeMux matches them: GET patterns match
    HEAD as well, a wildcard matches one segment that is not empty, and a path
    that only other methods have is answered with 405. *)
Inductive Route : Type :=
| RtCluster | RtStream | RtConfig | RtKeys | RtHealth
| RtKV (op : string)
| RtChaos (action : string)
| RtFiles
| RtNotFound
| RtMethodNotAllowed.

Definition is_get (method : string) : bool := bool_decide (method = "GET") || bool_decide (method = "HEAD").

Definition route (o : Options) (method : string) (path : list string) : Route :=
  let files := if bool_decide (WebDir o = "") then None
               else Some (if is_get method then RtFiles else RtMethodNotAllowed) in
  let on_get r := if is_get method then r else RtMethodNotAllowed in
  let on_post r := if bool_decide (method = "POST") then r else default RtMethodNotAllowed files in
  match path with
  | ["api"; "cluster"] => on_get RtCluster
  | ["api"; "stream"] => on_get RtStream
  | ["api"; "config"] => on_get RtConfig
  | ["api"; "keys"] => on_get RtKeys
  | ["healthz"] => on_get RtHealth
  | ["api"; "kv"; op] => if bool_decide (op = "") then default RtNotFound files else on_post (RtKV op)
  | ["api"; "chaos"; action] =>
      if bool_decide (action = "") then default RtNotFound files else on_post (RtChaos action)
  | _ => default RtNotFound files
  end.

(** ** Helpers *)
Definition clientIP (trustProxy : bool) (r : HttpRequest) : string :=
  if trustProxy && negb (bool_decide (hr_forwarded r = "")) then
    let '(first, _, ok) := Cut ","%char (hr_forwarded r) in
    if ok : bool then TrimSpace first else TrimSpace (hr_forwarded r)
  else match SplitHost (hr_RemoteAddr r) with
       | Some host => host
       | None => hr_RemoteAddr r
       end.

(** [out] is what [dec.Decode] did: the value, or its error's text, in which
    case the zero value is left alone. *)
Definition decodeJSON {A} (zero : A) (out : A + string) : A + error :=
  match out with
  | inl a => inl a
  | inr msg => if bool_decide (msg = "EOF") then inl zero
               else inr (Wrapf "malformed request body" (Errorf msg))
  end.

Definition show_Z (z : Z) : string := pretty z.

(** ** The event stream *)

(** What goes out on a stream: [writeSSE] under "snapshot" or "events", or the
    comment of the heartbeat. *)
Inductive SSE : Type :=
| SseSnapshot (s : GwSnapshot)
| SseEvents (es : list GwEvent)
| SseKeepAlive.

(** [handleStream] between two critical sections: in its [select], or in [send]
    before reading the snapshot or before reading the events. *)
Inductive StreamPc : Type := StSelect | StSnapshot | StEvents.

Record Stream : Type := MkStream {
  st_updates : N;
  st_lastEvent : N;
  st_pc : StreamPc;
  st_out : list SSE;
}.

(** [handleStream] up to its first [send]. *)
Definition stream_open : GoM Cluster Stream := ch ← Subscribe; mret (MkStream ch 0 StSnapshot []).

(** [send]: the snapshot goes out, then the events recorded since the last one
    sent, if there are any. *)
Definition stream_snapshot (st : Stream) : GoM Cluster Stream :=
  c ← get;
  mret (MkStream (st_updates st) (st_lastEvent st) StEvents (st_out st ++ [SseSnapshot (cl_snapshot c)])%list).

Definition stream_events (st : Stream) : GoM Cluster Stream :=
  c ← get;
  let events := EventsSince (st_lastEvent st) c in
  mret match last events with
       | Some e => MkStream (st_updates st) (ev_Seq e) StSelect (st_out st ++ [SseEvents events])%list
       | None => MkStream (st_updates st) (st_lastEvent st) StSelect (st_out st)
       end.

(** The cases of the [select]: a value from the channel, the heartbeat, the end
    of the request, which is also how a failed write ends. *)
Definition stream_receive (st : Stream) : GoM Cluster Stream :=
  got ← receive_update (st_updates st);
  mret (if got : bool then MkStream (st_updates st) (st_lastEvent st) StSnapshot (st_out st) else st).

Definition stream_heartbeat (st : Stream) : Stream :=
  MkStream (st_updates st) (st_lastEvent st) (st_pc st) (st_out st ++ [SseKeepAlive])%list.

Definition stream_close (st : Stream) : GoM Cluster () := Unsubscribe (st_updates st).

(** The events that went out. *)
Definition events_of (out : list SSE) : list GwEvent :=
  flat_map (λ m, match m with SseEvents es => es | _ => [] end) out.

Section Server.
Context {W : Type} `{!AdminNet W}.
(** Encoding/json *)
Variable json_kv : string → kvRequest + string.
Variable json_chaos : string → chaosRequest + string.

Record HttpServer : Type := MkHttpServer {
  hs_console : Console W;
  hs_client : GwClient;
  hs_opts : Options;
  hs_writeLimit : limiter;
  hs_faultLimit : limiter;
  hs_keys : gset string;
}.

Definition NewServer (c : Console W) (client : GwClient) (o : Options) : HttpServer :=
  MkHttpServer c client o (newLimiter (WritesPerMinute o)) (newLimiter (FaultsPerMinute o)) ∅.

Definition hs_cluster (s : HttpServer) : Cluster := co_cluster (hs_console s).

Definition set_console (c : Console W) (s : HttpServer) : HttpServer :=
  MkHttpServer c (hs_client s) (hs_opts s) (hs_writeLimit s) (hs_faultLimit s) (hs_keys s).
Definition set_client (c : GwClient) (s : HttpServer) : HttpServer :=
  MkHttpServer (hs_console s) c (hs_opts s) (hs_writeLimit s) (hs_faultLimit s) (hs_keys s).
Definition set_writeLimit (l : limiter) (s : HttpServer) : HttpServer :=
  MkHttpServer (hs_console s) (hs_client s) (hs_opts s) l (hs_faultLimit s) (hs_keys s).
Definition set_faultLimit (l : limiter) (s : HttpServer) : HttpServer :=
  MkHttpServer (hs_console s) (hs_client s) (hs_opts s) (hs_writeLimit s) l (hs_keys s).
Definition set_keys (k : gset string) (s : HttpServer) : HttpServer :=
  MkHttpServer (hs_console s) (hs_client s) (hs_opts s) (hs_writeLimit s) (hs_faultLimit s) k.

Abbreviation H := (GoM HttpServer).

Definition on_cluster {A} (m : GoM Cluster A) : H A :=
  on_field hs_console set_console (on_field co_cluster set_cluster m).

(** ** The cluster view *)
Definition handleCluster : H Response :=
  s ← get; mret (writeJSON 200 (PCluster (cl_snapshot (hs_cluster s)) (EventsSince 0 (hs_cluster s)))).

Definition handleConfig : H Response :=
  s ← get; let ms := cl_members (hs_cluster s) in
  mret (writeJSON 200 (PConfig (hs_opts s) (Quorum ms) (length ms))).

(** [enum] is the order in which the map of keys is ranged over. *)
Definition handleKeys (enum : gset string → list string) : H Response :=
  s ← get; mret (writeJSON 200 (PKeys (enum (hs_keys s)) (MaxKeys (hs_opts s)))).

(** ** Key-value operations *)
Definition validate (op : string) (req : kvRequest) (s : HttpServer) : option error :=
  let o := hs_opts s in
  if bool_decide (kv_Key req = "") then Some (Errorf "a key is required")
  else if (MaxKeyLen o <? Z.of_nat (String.length (kv_Key req)))%Z
  then Some (Errorf ("keys are limited to " ++ show_Z (MaxKeyLen o) ++ " characters here"))
  else if ContainsAny (kv_Key req) ["010"%char; "013"%char] then Some (Errorf "keys may not contain newlines")
  else if bool_decide (op = "get") || bool_decide (op = "delete") then None
  else if (MaxValueLen o <? Z.of_nat (String.length (kv_Value req)))%Z
  then Some (Errorf ("values are limited to " ++ show_Z (MaxValueLen o) ++ " characters here"))
  else if negb (bool_decide (kv_Key req ∈ hs_keys s)) && (MaxKeys o <=? Z.of_nat (size (hs_keys s)))%Z
  then Some (Errorf ("this demo holds at most " ++ show_Z (MaxKeys o) ++ " keys; delete one to store another"))
  else None.

Definition trackKey (op key : string) (ok : bool) : H () :=
  if negb ok then mret ()
  else if bool_decide (op = "put") || bool_decide (op = "append") then modify (λ s, set_keys ({[key]} ∪ hs_keys s) s)
  else if bool_decide (op = "delete") then modify (λ s, set_keys (hs_keys s ∖ {[key]}) s)
  else mret ().

Definition recordOperation (ms : N) (op key : string) (result : Result) : H () :=
  if re_OK result && bool_decide (op = "get") then mret ()
  else if re_OK result then
    let n := length (re_Attempts result) in
    let detail := if (1 <? n)%nat then " after " ++ pretty (N.of_nat n) ++ " hops" else "" in
    on_cluster (Record_ ms "write" (re_ServedBy result)
      (op ++ " " ++ quoted key ++ " committed at log index " ++ pretty (re_Index result) ++ " by "
         ++ re_ServedBy result ++ detail))
  else on_cluster (Record_ ms "write" "" (op ++ " " ++ quoted key ++ " failed: " ++ re_Error result)).

Definition known_op (op : string) : bool := bool_decide (op ∈ ["get"; "put"; "append"; "delete"]).

(** [handleKV] up to the call of [Do], at time [t]: a refusal, or the request. *)
Definition handleKV_begin (t : Z) (op : string) (r : HttpRequest) : H (Response + kvRequest) :=
  if negb (known_op op) then mret (inl (writeError 404 ("unknown operation " ++ quoted op))) else
  match decodeJSON (MkKvRequest "" "") (json_kv (hr_Body r)) with
  | inr err => mret (inl (writeError 400 (error_string err)))
  | inl req =>
      s ← get;
      match validate op req s with
      | Some err => mret (inl (writeError 400 (error_string err)))
      | None =>
          if bool_decide (op = "get") then mret (inr req) else
          ok ← on_field hs_writeLimit set_writeLimit (allow t (clientIP (TrustProxyHeaders (hs_opts s)) r));
          if negb ok
          then mret (inl (writeError 429 ("this demo allows " ++ show_Z (WritesPerMinute (hs_opts s))
                 ++ " writes per minute per visitor; reads are unlimited")))
          else mret (inr req)
      end
  end.

(** [handleKV] after [Do] has returned [result]. *)
Definition handleKV_end (ms : N) (op key : string) (result : Result) : H Response :=
  trackKey op key (re_OK result) ;;
  recordOperation ms op key result ;;
  mret (writeJSON 200 (PResult result)).

(** A whole request with nothing else going on, [Do] taking the turns [inputs];
    [None] when it has not returned by then. *)
Definition handleKV (t : Z) (ms : N) (inputs : list GwInput) (op : string) (r : HttpRequest) : H (option Response) :=
  b ← handleKV_begin t op r;
  match b with
  | inl resp => mret (Some resp)
  | inr req =>
      s ← get;
      let '(d, client) := gw_start (hs_client s) op (kv_Key req) (kv_Value req) in
      let d' := gw_run (hs_cluster s) inputs d in
      modify (set_client (MkGwClient (gc_clientID client) (gc_seq client) (gd_leader d'))) ;;
      match gd_pc d' with
      | GwReturned result => resp ← handleKV_end ms op (kv_Key req) result; mret (Some resp)
      | _ => mret None
      end
  end.

(** ** Fault injection *)

(** The [switch] over the actions: the affected node and the error, or [None]
    for an unknown action. *)
Definition chaos_action (t : Z) (action : string) (req : chaosRequest)
    : option (GoM (Console W) (string * option error)) :=
  if bool_decide (action = "crash") then Some (err ← Chaos_Crash t (cr_Node req); mret (cr_Node req, err))
  else if bool_decide (action = "crash-leader") then Some (CrashLeader t)
  else if bool_decide (action = "restart") then Some (err ← Chaos_Restart (cr_Node req); mret (cr_Node req, err))
  else if bool_decide (action = "isolate") then Some (err ← Partition t [cr_Node req]; mret (cr_Node req, err))
  else if bool_decide (action = "partition") then
    Some (err ← Partition t (cr_Group req); mret (Join ", " (cr_Group req), err))
  else if bool_decide (action = "heal") then Some (err ← Heal t; mret ("", err))
  else if bool_decide (action = "recover") then Some (err ← Recover t; mret ("", err))
  else None.

Definition handleChaos (t : Z) (action : string) (r : HttpRequest) : H Response :=
  s ← get;
  if negb (AllowChaos (hs_opts s)) then mret (writeError 403 "fault injection is disabled on this deployment") else
  ok ← on_field hs_faultLimit set_faultLimit (allow t (clientIP (TrustProxyHeaders (hs_opts s)) r));
  if negb ok
  then mret (writeError 429 ("this demo allows " ++ show_Z (FaultsPerMinute (hs_opts s)) ++ " faults per minute per visitor"))
  else match decodeJSON (MkChaosRequest "" []) (json_chaos (hr_Body r)) with
  | inr err => mret (writeError 400 (error_string err))
  | inl req =>
      match chaos_action t action req with
      | None => mret (writeError 404 ("unknown fault " ++ quoted action))
      | Some act =>
          '(affected, err) ← on_field hs_console set_console act;
          mret match err with
               | Some err => writeError 400 (error_string err)
               | None => writeJSON 200 (PFault action affected)
               end
      end
  end.

(** ** The routed handler *)

(** What serving a request leads to: a response, a key-value request that goes
    on to [Do], or a stream of server-sent events. *)
Inductive Served : Type :=
| SrResponse (r : Response)
| SrOperation (op : string) (req : kvRequest)
| SrStream (st : Stream).

Definition answered (m : H Response) : H Served := r ← m; mret (SrResponse r).

(** [withCORS] around the routes; every response carries the CORS headers. *)
Definition Handler (t : Z) (enum : gset string → list string) (r : HttpRequest) : H Served :=
  if bool_decide (hr_method r = "OPTIONS") then mret (SrResponse (MkResponse 204 PEmpty)) else
  s ← get;
  match route (hs_opts s) (hr_method r) (hr_path r) with
  | RtCluster => answered handleCluster
  | RtConfig => answered handleConfig
  | RtKeys => answered (handleKeys enum)
  | RtHealth => mret (SrResponse (MkResponse 200 (PText ("ok" ++ String "010"%char ""))))
  | RtStream => st ← on_cluster stream_open; mret (SrStream st)
  | RtKV op => b ← handleKV_begin t op r;
               mret match b with inl resp => SrResponse resp | inr req => SrOperation op req end
  | RtChaos action => answered (handleChaos t action r)
  | RtFiles => mret (SrResponse (MkResponse 200 PFile))
  | RtNotFound => mret (SrResponse (MkResponse 404 (PText "404 page not found")))
  | RtMethodNotAllowed => mret (SrResponse (MkResponse 405 (PText "Method Not Allowed")))
  end.
End Server.

Arguments HttpServer : clear implicits.
