(* ===== verification/GatewayStream.v ===== *)
(** * Server-sent events: nothing recorded is lost on the way to the browser

    A stream of [handleStream] beside everything that can happen to the cluster
    view: events recorded by other requests and by the poller ([Record] appends
    under the lock and wakes the subscribers in a second critical section, so a
    stream may run in between), polls, and other subscribers. *)
From S2P Require Import Prelude GatewayCluster GatewayChaos GatewayHttp.
#[local] Set Warnings "-clear-no-such-hyp".

(** The [due] records have appended their event and not yet woken the
    subscribers; [history] is every event ever recorded, for the statements. *)
Record StreamWorld : Type := MkStreamWorld {
  sw_cluster : Cluster;
  sw_stream : Stream;
  sw_due : nat;
  sw_history : list GwEvent;
}.

(** In a [timely] run the stream never sends with more than a ring of events
    behind it. *)
Inductive stream_step (timely : Prop) : StreamWorld → StreamWorld → Prop :=
| ss_record t kind node text c c' st due hist e :
    record_event t kind node text c = Val ((), c') →
    last (cl_events c') = Some e → (N.of_nat (S (length hist)) < two64)%N →
    stream_step timely (MkStreamWorld c st due hist) (MkStreamWorld c' st (S due) (hist ++ [e]))
| ss_notify c c' st due hist :
    notify c = Val ((), c') →
    stream_step timely (MkStreamWorld c st due hist) (MkStreamWorld c' st (pred due) hist)
| ss_poll next c st due hist :
    stream_step timely (MkStreamWorld c st due hist) (MkStreamWorld (set_snapshot next c) st due hist)
| ss_subscribe c c' ch st due hist :
    Subscribe c = Val (ch, c') →
    stream_step timely (MkStreamWorld c st due hist) (MkStreamWorld c' st due hist)
| ss_unsubscribe c c' ch st due hist :
    ch ≠ st_updates st → Unsubscribe ch c = Val ((), c') →
    stream_step timely (MkStreamWorld c st due hist) (MkStreamWorld c' st due hist)
| ss_receive c c' st st' due hist :
    st_pc st = StSelect → stream_receive st c = Val (st', c') →
    stream_step timely (MkStreamWorld c st due hist) (MkStreamWorld c' st' due hist)
| ss_snapshot c c' st st' due hist :
    st_pc st = StSnapshot → stream_snapshot st c = Val (st', c') →
    stream_step timely (MkStreamWorld c st due hist) (MkStreamWorld c' st' due hist)
| ss_send c c' st st' due hist :
    st_pc st = StEvents → stream_events st c = Val (st', c') →
    (timely → st_lastEvent st = 0%N ∨ (N.of_nat (length hist) ≤ st_lastEvent st + N.of_nat eventRing)%N) →
    stream_step timely (MkStreamWorld c st due hist) (MkStreamWorld c' st' due hist)
| ss_heartbeat c st due hist :
    st_pc st = StSelect →
    stream_step timely (MkStreamWorld c st due hist) (MkStreamWorld c (stream_heartbeat st) due hist).

(** ** The ring *)

(** The ring holds the end of the history, numbered from 1. *)
Record ring_ok (c : Cluster) (hist : list GwEvent) : Prop := {
  ri_next : cl_nextSeq c = N.of_nat (length hist);
  ri_small : (N.of_nat (length hist) < two64)%N;
  ri_seq i e : hist !! i = Some e → ev_Seq e = N.of_nat (S i);
  ri_events : cl_events c = drop (length hist - eventRing) hist;
}.

Lemma NewCluster_ring dial first members c : NewCluster dial first members = inl c → ring_ok c [].
Proof.
  unfold NewCluster. case_bool_decide; [done|]. destruct (dial_all _ _); [done|]. intros [= <-]. by split.
Qed.

Lemma ring_sublist c hist : ring_ok c hist → ∀ e, e ∈ cl_events c → e ∈ hist.
Proof. intros Hr e. rewrite (ri_events _ _ Hr). intros He. eapply elem_of_sublist; [exact He|apply sublist_drop]. Qed.

(** A full ring loses its oldest event to a new one. *)
Lemma trim_snoc (l : list GwEvent) e :
  let es := drop (length l - eventRing) l ++ [e] in
  (if (eventRing <? length es)%nat then drop (length es - eventRing) es else es) =
  drop (length (l ++ [e]) - eventRing) (l ++ [e]).
Proof.
  cbv zeta. rewrite !length_app, length_drop. cbn [length].
  rewrite (drop_app_le l [e] (length l + 1 - eventRing)) by (unfold eventRing; lia).
  destruct (Nat.ltb_spec eventRing (length l - (length l - eventRing) + 1)).
  - rewrite drop_app_le by (rewrite length_drop; unfold eventRing in *; lia). rewrite drop_drop.
    do 2 f_equal. unfold eventRing in *. lia.
  - do 2 f_equal. unfold eventRing in *. lia.
Qed.

Lemma record_ring t kind node text c c' hist e :
  ring_ok c hist → record_event t kind node text c = Val ((), c') →
  last (cl_events c') = Some e → (N.of_nat (S (length hist)) < two64)%N →
  ring_ok c' (hist ++ [e]) ∧ cl_subs c' = cl_subs c ∧ e = MkGwEvent (N.of_nat (S (length hist))) t kind node text.
Proof.
  intros Hr Hrec Hlast Hsmall. unfold record_event, modify in Hrec. injection Hrec as <-.
  rewrite (ri_next _ _ Hr), u64_add_small in * by lia.
  replace (N.of_nat (length hist) + 1)%N with (N.of_nat (S (length hist))) in * by lia.
  set (e0 := MkGwEvent _ t kind node text) in *. cbn [cl_events set_events] in Hlast.
  rewrite (ri_events _ _ Hr) in *. rewrite trim_snoc in *.
  assert (e = e0) as ->.
  { rewrite drop_app_le in Hlast by (rewrite length_app; cbn; unfold eventRing; lia). rewrite last_snoc in Hlast. congruence. }
  split; [|done]. split; cbn [cl_nextSeq cl_events set_events].
  - rewrite length_app. cbn. f_equal. lia.
  - rewrite length_app. cbn. by replace (length hist + 1) with (S (length hist)) by lia.
  - intros i e. rewrite lookup_app_Some. intros [Hi|[Hi [Hj He]%list_lookup_singleton_Some]].
    + by apply (ri_seq _ _ Hr).
    + subst e e0. cbn. do 2 f_equal. lia.
  - done.
Qed.

(** The events after [seq] are a suffix of the history. *)
Lemma filter_after (hist : list GwEvent) k seq :
  (∀ i e, hist !! i = Some e → ev_Seq e = N.of_nat (S (k + i))) →
  filter (λ e, (seq < ev_Seq e)%N) hist = drop (N.to_nat seq - k) hist.
Proof.
  revert k. induction hist as [|e hist IH]; intros k Hs; [by rewrite drop_nil|].
  pose proof (Hs 0 e eq_refl) as He. specialize (IH (S k)).
  assert (∀ i e0, hist !! i = Some e0 → ev_Seq e0 = N.of_nat (S (S k + i))) as Hs'.
  { intros i e0 Hi. rewrite (Hs (S i) e0 Hi). f_equal. lia. }
  rewrite filter_cons. case_decide as Hd; rewrite (IH Hs').
  - replace (N.to_nat seq - k) with 0 by lia. replace (N.to_nat seq - S k) with 0 by lia. done.
  - replace (N.to_nat seq - k) with (S (N.to_nat seq - S k)) by lia. done.
Qed.

Lemma EventsSince_drop c hist seq :
  ring_ok c hist → EventsSince seq c = drop (Nat.max (length hist - eventRing) (N.to_nat seq)) hist.
Proof.
  intros Hr. unfold EventsSince. rewrite (ri_events _ _ Hr).
  rewrite (filter_after _ (length hist - eventRing)).
  - rewrite drop_drop. f_equal. lia.
  - intros i e. rewrite lookup_drop. apply (ri_seq _ _ Hr).
Qed.

(** ** The invariant of a stream *)
Definition delivered (w : StreamWorld) : list GwEvent := events_of (st_out (sw_stream w)).

Record stream_inv (timely : Prop) (w : StreamWorld) : Prop := {
  si_ring : ring_ok (sw_cluster w) (sw_history w);
  si_channel : is_Some (cl_subs (sw_cluster w) !! st_updates (sw_stream w));
  si_last : (N.to_nat (st_lastEvent (sw_stream w)) ≤ length (sw_history w))%nat;
  si_order : delivered w `sublist_of` take (N.to_nat (st_lastEvent (sw_stream w))) (sw_history w);
  si_behind e : e ∈ cl_events (sw_cluster w) → (ev_Seq e ≤ st_lastEvent (sw_stream w))%N → e ∈ delivered w;
  si_awake : st_pc (sw_stream w) = StSelect → sw_due w = 0 →
    cl_subs (sw_cluster w) !! st_updates (sw_stream w) = Some false →
    N.to_nat (st_lastEvent (sw_stream w)) = length (sw_history w);
  si_timely : timely → ∃ k, delivered w = drop k (take (N.to_nat (st_lastEvent (sw_stream w))) (sw_history w));
}.

Lemma events_of_app o1 o2 : events_of (o1 ++ o2) = events_of o1 ++ events_of o2.
Proof. apply flat_map_app. Qed.

(** A stream that has just been opened. *)
Lemma stream_open_inv timely c hist st c' :
  ring_ok c hist → stream_open c = Val (st, c') → stream_inv timely (MkStreamWorld c' st 0 hist).
Proof.
  intros Hr [= <- <-]. split; cbn; try done.
  - by destruct Hr.
  - rewrite lookup_insert_eq. by eexists.
  - lia.
  - intros e He Hle. exfalso. apply (ring_sublist _ _ Hr) in He. apply list_elem_of_lookup in He as [i Hi].
    rewrite (ri_seq _ _ Hr _ _ Hi) in Hle. lia.
  - intros _. by exists 0.
Qed.

(** Changes of the view that leave ring and channel alone. *)
Lemma stream_inv_cluster timely c c' st due due' hist :
  cl_events c' = cl_events c → cl_nextSeq c' = cl_nextSeq c →
  is_Some (cl_subs c' !! st_updates st) →
  (cl_subs c' !! st_updates st = Some false → due' = 0 → cl_subs c !! st_updates st = Some false ∧ due = 0) →
  stream_inv timely (MkStreamWorld c st due hist) → stream_inv timely (MkStreamWorld c' st due' hist).
Proof.
  intros He Hn Hch Hwake [Hr _ Hl Ho Hb Ha Ht]. split; cbn in *; try done.
  - destruct Hr. split; [congruence|done|done|congruence].
  - rewrite He. done.
  - intros Hs Hd Hc. destruct (Hwake Hc Hd). by apply Ha.
Qed.

Lemma stream_inv_record timely t kind node text c c' st due hist e :
  record_event t kind node text c = Val ((), c') → last (cl_events c') = Some e →
  (N.of_nat (S (length hist)) < two64)%N →
  stream_inv timely (MkStreamWorld c st due hist) → stream_inv timely (MkStreamWorld c' st (S due) (hist ++ [e])).
Proof.
  intros Hrec Hlast Hsmall [Hr Hch Hl Ho Hb Ha Ht]. cbn in *.
  destruct (record_ring _ _ _ _ _ _ _ _ Hr Hrec Hlast Hsmall) as (Hr' & Hsubs & ->).
  split; cbn; try done.
  - by rewrite Hsubs.
  - rewrite length_app. cbn. lia.
  - by rewrite take_app_le.
  - intros e He Hle. apply (ring_sublist _ _ Hr') in He as Hin.
    apply elem_of_app in Hin as [Hin|Hin%list_elem_of_singleton]; [|rewrite Hin in Hle; cbn in Hle; lia].
    apply Hb; [|done]. apply list_elem_of_lookup in Hin as [i Hi]. pose proof (ri_seq _ _ Hr _ _ Hi) as Hsq.
    rewrite (ri_events _ _ Hr'), length_app in He. cbn in He. rewrite (ri_events _ _ Hr).
    apply list_elem_of_lookup in He as [j Hj]. rewrite lookup_drop in Hj.
    pose proof (ri_seq _ _ Hr' _ _ Hj) as Hsq'. apply list_elem_of_lookup.
    exists (i - (length hist - eventRing)). rewrite lookup_drop.
    replace (length hist - eventRing + (i - (length hist - eventRing))) with i by (unfold eventRing in *; lia). done.
  - intros Hti. destruct (Ht Hti) as [k Hk]. exists k. by rewrite take_app_le.
Qed.

Lemma stream_events_inv timely c c' st st' due hist :
  stream_events st c = Val (st', c') →
  (timely → st_lastEvent st = 0%N ∨ (N.of_nat (length hist) ≤ st_lastEvent st + N.of_nat eventRing)%N) →
  stream_inv timely (MkStreamWorld c st due hist) → stream_inv timely (MkStreamWorld c' st' due hist).
Proof.
  intros Hf Htime [Hr Hch Hl Ho Hb Ha Ht]. cbn in *. unfold delivered in *. cbn in *.
  set (lst := N.to_nat (st_lastEvent st)) in *.
  pose proof (EventsSince_drop _ _ (st_lastEvent st) Hr) as Hev. fold lst in Hev.
  set (m := Nat.max (length hist - eventRing) lst) in *.
  assert (∃ out, st' = MkStream (st_updates st) (N.of_nat (length hist)) StSelect (st_out st ++ out) ∧ c' = c ∧
    events_of out = drop m hist) as (out & -> & -> & Hout).
  { unfold stream_events, mbind, GoM_bind, get in Hf.
    destruct (last (EventsSince (st_lastEvent st) c)) as [e|] eqn:E; injection Hf as <- <-.
    - exists [SseEvents (EventsSince (st_lastEvent st) c)].
      split; [|split; [done|unfold events_of; cbn [flat_map]; by rewrite app_nil_r]]. f_equal.
      rewrite Hev in E. rewrite last_lookup, lookup_drop in E. rewrite (ri_seq _ _ Hr _ _ E).
      apply lookup_lt_Some in E. rewrite length_drop in *. f_equal. lia.
    - apply last_None in E. rewrite Hev in E. apply (f_equal length) in E. rewrite length_drop in E. cbn in E.
      exists []. rewrite app_nil_r. split; [f_equal; unfold lst, eventRing in *; lia|]. split; [done|].
      symmetry. apply nil_length_inv. rewrite length_drop. cbn. lia. }
  assert (take (length hist) hist = hist) as Hall by (by apply take_ge).
  split; cbn; rewrite ?Nat2N.id; unfold delivered; cbn; rewrite ?events_of_app, ?Hout, ?Hall; try done.
  - transitivity (take lst hist ++ drop lst hist); [|by rewrite take_drop]. apply sublist_app; [done|].
    replace m with (lst + (m - lst)) by lia. rewrite <- drop_drop. apply sublist_drop.
  - intros e He _. apply elem_of_app. destruct (decide (ev_Seq e ≤ st_lastEvent st)%N) as [Hle|Hgt]; [left; by apply Hb|right].
    rewrite <- Hev. apply list_elem_of_filter. split; [lia|done].
  - intros Hti. destruct (Ht Hti) as [k Hk]. destruct (Htime Hti) as [H0|Hn].
    + exists m. rewrite Hk. assert (lst = 0) as -> by (unfold lst; by rewrite H0). by rewrite take_0, drop_nil.
    + assert (m = lst) as -> by (unfold m, lst, eventRing in *; lia). exists (k `min` lst).
      rewrite Hk. transitivity (drop (k `min` lst) (take lst hist ++ drop lst hist)); [|by rewrite take_drop]. rewrite drop_app_le by (rewrite length_take; lia).
      f_equal. destruct (decide (k ≤ lst)); [by rewrite Nat.min_l by lia|].
      rewrite Nat.min_r by lia. rewrite !drop_ge; [done| |]; rewrite length_take; lia.
Qed.

(** Output that carries no events. *)
Lemma stream_inv_output timely c st due hist m pc :
  events_of [m] = [] → (pc = StSelect → st_pc st = StSelect) →
  stream_inv timely (MkStreamWorld c st due hist) →
  stream_inv timely (MkStreamWorld c (MkStream (st_updates st) (st_lastEvent st) pc (st_out st ++ [m])) due hist).
Proof.
  intros Hm Hpc [Hr Hch Hl Ho Hbe Ha Hti]. unfold delivered in *. cbn [sw_cluster sw_stream sw_due sw_history] in *.
  split; unfold delivered; cbn [sw_cluster sw_stream sw_due sw_history st_out st_lastEvent st_updates st_pc];
    rewrite ?events_of_app, ?Hm, ?app_nil_r; try done.
  intros Hp. by apply Ha, Hpc.
Qed.

Lemma stream_step_inv timely w w' : stream_step timely w w' → stream_inv timely w → stream_inv timely w'.
Proof.
  intros Hs Hi. pose proof (si_channel _ _ Hi) as [b Hb].
  destruct Hs as [t kind node text c c' st due hist e Hrec Hlast Hsmall|c c' st due hist [= <-]|next c st due hist
    |c c' ch st due hist [= <- <-]|c c' ch st due hist Hne [= <-]|c c' st st' due hist Hw Hrc|c c' st st' due hist Hw [= <- <-]|c c' st st' due hist Hw Hf Ht
    |c st due hist Hw]; cbn in Hb.
  - by eapply stream_inv_record.
  - eapply stream_inv_cluster; [..|exact Hi]; try done; cbn; rewrite lookup_fmap, Hb; [by eexists|done].
  - eapply stream_inv_cluster; [..|exact Hi]; try done; by eexists.
  - assert (fresh (dom (cl_subs c)) ≠ st_updates st) as Hne.
    { intros Heq. apply (is_fresh (dom (cl_subs c))). rewrite Heq. apply elem_of_dom. by eexists. }
    eapply stream_inv_cluster; [..|exact Hi]; try done; cbn; rewrite lookup_insert_ne by done; [by eexists|done].
  - eapply stream_inv_cluster; [..|exact Hi]; try done; cbn; rewrite lookup_delete_ne by done; [by eexists|done].
  - unfold stream_receive, mbind, GoM_bind, receive_update in Hrc. rewrite Hb in Hrc.
    destruct b; injection Hrc as <- <-; [|done]. destruct Hi as [Hr _ Hl Ho Hbe Ha Hti]. split; cbn in *; try done.
    + by destruct Hr.
    + rewrite lookup_insert_eq. by eexists.
  - by apply (stream_inv_output timely c st due hist (SseSnapshot (cl_snapshot c)) StEvents).
  - by eapply stream_events_inv.
  - apply (stream_inv_output timely c st due hist SseKeepAlive (st_pc st)); [done|by intros ->|done].
Qed.

(** C36: the event stream.  However records, polls and other subscribers
    interleave with a stream, what it sends is events of the history in their
    order, none twice.  When it waits with an empty channel and no waking is
    outstanding, it has sent every event the ring holds, so no wake-up is ever
    lost.  And a stream that is never more than a ring behind when it sends
    leaves nothing out between the first event it sends and the last. *)
Theorem stream_delivers timely c0 hist0 st0 c1 w :
  ring_ok c0 hist0 → stream_open c0 = Val (st0, c1) →
  rtc (stream_step timely) (MkStreamWorld c1 st0 0 hist0) w →
  delivered w `sublist_of` sw_history w ∧
  (st_pc (sw_stream w) = StSelect → sw_due w = 0 →
   cl_subs (sw_cluster w) !! st_updates (sw_stream w) = Some false →
   ∀ e, e ∈ cl_events (sw_cluster w) → e ∈ delivered w) ∧
  (timely → ∃ k, delivered w = drop k (take (N.to_nat (st_lastEvent (sw_stream w))) (sw_history w))).
Proof.
  intros Hr Hopen Hrun.
  assert (stream_inv timely w) as [Hr' _ Hl Ho Hb Ha Ht].
  { apply (stream_open_inv timely c0 hist0 st0 c1 Hr) in Hopen. revert Hopen. induction Hrun as [|w1 w2 w3 Hs _ IH]; [done|].
    intros Hi. apply IH. by eapply stream_step_inv. }
  split; [|split; [|done]].
  - etrans; [exact Ho|apply sublist_take].
  - intros Hs Hd Hc e He. apply Hb; [done|]. apply (ring_sublist _ _ Hr') in He.
    apply list_elem_of_lookup in He as [i Hi]. rewrite (ri_seq _ _ Hr' _ _ Hi). apply lookup_lt_Some in Hi.
    rewrite (Ha Hs Hd Hc) in *. specialize (Ha Hs Hd Hc). lia.
Qed.

(** A stream opens and sends; a write is recorded and its subscribers woken; the
    stream takes the value and sends the event. *)
Definition quiet_cluster : Cluster := co_cluster half_dead.

Lemma stream_delivers_witness : ∃ st0 c1 w,
  stream_open quiet_cluster = Val (st0, c1) ∧ rtc (stream_step True) (MkStreamWorld c1 st0 0 []) w ∧
  ev_Text <$> delivered w = ["put"] ∧ ∀ e, e ∈ cl_events (sw_cluster w) → e ∈ delivered w.
Proof.
  assert (ring_ok quiet_cluster []) as Hr by (by split).
  destruct (stream_open quiet_cluster) as [[st0 c1]|] eqn:Hopen; [|by vm_compute in Hopen].
  assert (∃ w, rtc (stream_step True) (MkStreamWorld c1 st0 0 []) w ∧ ev_Text <$> delivered w = ["put"] ∧
    st_pc (sw_stream w) = StSelect ∧ sw_due w = 0 ∧
    cl_subs (sw_cluster w) !! st_updates (sw_stream w) = Some false) as (w & Hrun & Hout & Hs & Hd & Hc).
  { vm_compute in Hopen. injection Hopen as <- <-. eexists. split; [|shelve].
    eapply rtc_l; [eapply ss_snapshot; [done|vm_compute; reflexivity]|].
    eapply rtc_l; [eapply ss_send; [done|vm_compute; reflexivity|by left]|].
    eapply rtc_l; [eapply (ss_record _ 7 "write" "a" "put"); [vm_compute; reflexivity|vm_compute; reflexivity|done]|].
    eapply rtc_l; [eapply ss_notify; vm_compute; reflexivity|].
    eapply rtc_l; [eapply ss_receive; [done|vm_compute; reflexivity]|].
    eapply rtc_l; [eapply ss_snapshot; [done|vm_compute; reflexivity]|].
    eapply rtc_l; [eapply ss_send; [done|vm_compute; reflexivity|by left]|].
    apply rtc_refl.
    Unshelve. by vm_compute. }
  exists st0, c1, w. split; [done|]. split; [exact Hrun|]. split; [exact Hout|].
  by apply (stream_delivers True quiet_cluster [] st0 c1 w Hr Hopen Hrun).
Defined.
