(* ===== verification/GatewayHttpProperties.v ===== *)
(** * What the console's HTTP surface promises

    Which key-value requests are let through, what a request does to nodes, key
    set and event log, how many keys can be stored through the gateway, and what
    the fault-injection endpoint changes. *)
From Stdlib Require Import Ascii.
From S2P Require Import Prelude RaftTypes KVStore GatewayCluster GatewayChaos GatewayClient GoStrings RateLimit GatewayHttp.
#[local] Set Warnings "-clear-no-such-hyp".

Section Ops.
Context {W : Type} `{!AdminNet W}.
Implicit Types (s : HttpServer W).

(** ** Steps of a request *)

Definition stores (op : string) : Prop := op = "put" ∨ op = "append".

#[export] Instance stores_dec op : Decision (stores op).
Proof. unfold stores. exact _. Defined.

(** What a visitor may ask for. *)
Record admissible (op : string) (req : kvRequest) s : Prop := {
  ad_op : known_op op = true;
  ad_key : kv_Key req ≠ "";
  ad_len : (Z.of_nat (String.length (kv_Key req)) ≤ MaxKeyLen (hs_opts s))%Z;
  ad_lines : has_byte "010" (kv_Key req) = false ∧ has_byte "013" (kv_Key req) = false;
  ad_store : stores op →
    (Z.of_nat (String.length (kv_Value req)) ≤ MaxValueLen (hs_opts s))%Z ∧
    (kv_Key req ∈ hs_keys s ∨ (Z.of_nat (size (hs_keys s)) < MaxKeys (hs_opts s))%Z);
}.

Lemma known_op_stores op : known_op op = true → stores op ∨ op = "get" ∨ op = "delete".
Proof. unfold known_op, stores. intros H%bool_decide_eq_true. set_solver. Qed.

Lemma endpoint_known op : known_op op = true → ∃ ep, endpoint_of op = Some ep.
Proof. intros [[-> | ->]|[-> | ->]]%known_op_stores; by eexists. Qed.

Lemma validate_admissible op req s : known_op op = true → validate op req s = None ↔ admissible op req s.
Proof.
  intros Hop. unfold validate, ContainsAny. cbn [existsb].
  assert (stores op → bool_decide (op = "get") || bool_decide (op = "delete") = false) as Hst.
  { intros [-> | ->]; done. }
  assert (¬ stores op → bool_decide (op = "get") || bool_decide (op = "delete") = true) as Hns.
  { intros Hn. destruct (known_op_stores op Hop) as [?|[-> | ->]]; done. }
  destruct (bool_decide_reflect (kv_Key req = "")) as [Hk|Hk]; [split; [done|intros [_ Hne _ _ _]; congruence]|].
  destruct (Z.ltb_spec (MaxKeyLen (hs_opts s)) (Z.of_nat (String.length (kv_Key req)))) as [Hl|Hl].
  { split; [done|]. intros []. lia. }
  destruct (has_byte "010" (kv_Key req)) eqn:H10; [split; [done|]; by intros [? ? ? [? ?] ?]; congruence|].
  destruct (has_byte "013" (kv_Key req)) eqn:H13; [split; [done|]; by intros [? ? ? [? ?] ?]; congruence|].
  cbn [orb]. destruct (decide (stores op)) as [Hs|Hs]; [rewrite (Hst Hs)|by rewrite (Hns Hs)].
  destruct (Z.ltb_spec (MaxValueLen (hs_opts s)) (Z.of_nat (String.length (kv_Value req)))) as [Hv|Hv].
  { split; [done|]. intros [_ _ _ _ H]. specialize (H Hs). lia. }
  destruct (bool_decide_reflect (kv_Key req ∈ hs_keys s)) as [Hin|Hin]; cbn [negb andb].
  - split; [intros _; split; auto|done].
  - destruct (Z.leb_spec (MaxKeys (hs_opts s)) (Z.of_nat (size (hs_keys s)))).
    + split; [done|]. intros [_ _ _ _ H']. destruct (H' Hs) as [_ [?|?]]; [done|lia].
    + split; [intros _; split; auto|done].
Qed.

Lemma allow_total now key l : ∃ ok l', allow now key l = Val (ok, l').
Proof. unfold allow. repeat case_match; by eexists _, _. Qed.

(** The budget of a request's visitor. *)
Definition visitor (r : HttpRequest) s : string := clientIP (TrustProxyHeaders (hs_opts s)) r.

Lemma bind_Val {St A B} (m : GoM St A) (f : A → GoM St B) x y :
  (m ≫= f) x = Val y → ∃ a x1, m x = Val (a, x1) ∧ f a x1 = Val y.
Proof. unfold mbind, GoM_bind. destruct (m x) as [[a x1]|]; [|done]. by eexists _, _. Qed.

Lemma on_console_frame {A} (m : GoM (Console W) A) s a s' :
  on_field hs_console set_console m s = Val (a, s') → ∃ c, m (hs_console s) = Val (a, c) ∧ s' = set_console c s.
Proof. unfold on_field. destruct (m (hs_console s)) as [[a' c]|]; [|done]. intros [= <- <-]. by eexists. Qed.

Lemma on_cluster_frame {A} (m : GoM Cluster A) s a s' :
  on_cluster m s = Val (a, s') → ∃ c, m (hs_cluster s) = Val (a, c) ∧ s' = set_console (set_cluster c (hs_console s)) s.
Proof.
  intros (c & Hm & ->)%on_console_frame. unfold on_field in Hm.
  destruct (m (co_cluster (hs_console s))) as [[a' cl]|] eqn:E; [|done]. injection Hm as <- <-. by eexists.
Qed.

(** The key set after an operation that came back. *)
Definition keys_after (op key : string) (ok : bool) (keys : gset string) : gset string :=
  if negb ok then keys else if bool_decide (stores op) then {[key]} ∪ keys
  else if bool_decide (op = "delete") then keys ∖ {[key]} else keys.

Lemma trackKey_spec op key ok s : trackKey op key ok s = Val ((), set_keys (keys_after op key ok (hs_keys s)) s).
Proof.
  assert (s = set_keys (hs_keys s) s) as Hself by (by destruct s).
  assert (bool_decide (op = "put") || bool_decide (op = "append") = bool_decide (stores op)) as Hst.
  { destruct (bool_decide_reflect (stores op)) as [Hst|Hst]; unfold stores in Hst;
      destruct (bool_decide_reflect (op = "put")), (bool_decide_reflect (op = "append")); tauto. }
  unfold trackKey, keys_after. destruct ok; cbn [negb]; [|by rewrite <- Hself].
  rewrite Hst. destruct (bool_decide (stores op)); [done|].
  destruct (bool_decide_reflect (op = "delete")); [done|by rewrite <- Hself].
Qed.

Lemma end_spec ms op key result s :
  ∃ c, handleKV_end ms op key result s =
    Val (MkResponse 200 (PResult result), set_console c (set_keys (keys_after op key (re_OK result) (hs_keys s)) s)).
Proof.
  unfold handleKV_end, mbind, GoM_bind. rewrite trackKey_spec. cbn.
  set (s1 := set_keys _ s). unfold recordOperation.
  destruct (re_OK result && _); [exists (hs_console s1); by destruct s1|].
  destruct (re_OK result); by eexists.
Qed.

(** The entry the event log gains, if the outcome is worth one. *)
Definition logged (op : string) (result : Result) : bool := negb (re_OK result && bool_decide (op = "get")).

Lemma end_cluster ms op key result s resp s' :
  handleKV_end ms op key result s = Val (resp, s') →
  hs_client s' = hs_client s ∧ hs_keys s' = keys_after op key (re_OK result) (hs_keys s) ∧
  resp = MkResponse 200 (PResult result) ∧
  cl_nextSeq (hs_cluster s') =
    (if logged op result then u64_add (cl_nextSeq (hs_cluster s)) 1 else cl_nextSeq (hs_cluster s)) ∧
  (logged op result = true → ∀ ch b, cl_subs (hs_cluster s) !! ch = Some b → cl_subs (hs_cluster s') !! ch = Some true).
Proof.
  unfold handleKV_end, mbind, GoM_bind. rewrite trackKey_spec. cbn. unfold recordOperation, logged.
  destruct (re_OK result); cbn [andb]; [destruct (bool_decide (op = "get"))|]; intros [= <- <-]; split_and!; try done;
    intros _ ch b Hb; unfold hs_cluster in *; cbn in *; by rewrite lookup_fmap, Hb.
Qed.

Lemma size_union_le (X Y : gset string) : (size (X ∪ Y) ≤ size X + size Y)%nat.
Proof. rewrite size_union_alt. pose proof (subseteq_size (Y ∖ X) Y ltac:(set_solver)). lia. Qed.

Lemma size_list_le (l : list string) : (size (list_to_set l : gset string) ≤ length l)%nat.
Proof.
  induction l as [|x l IH]; cbn; [by rewrite size_empty|].
  etrans; [apply size_union_le|]. rewrite size_singleton. lia.
Qed.

(** ** Steps of a fault *)

(** Computations that never panic. *)
Definition runs {St A} (m : GoM St A) : Prop := ∀ x, ∃ a x', m x = Val (a, x').

Lemma runs_ret {St A} (a : A) : runs (St := St) (mret a).
Proof. intros x. by eexists _, _. Qed.

Lemma runs_bind {St A B} (m : GoM St A) (f : A → GoM St B) : runs m → (∀ a, runs (f a)) → runs (m ≫= f).
Proof.
  intros Hm Hf x. destruct (Hm x) as (a & x1 & E). destruct (Hf a x1) as (b & x2 & E').
  exists b, x2. unfold mbind, GoM_bind. by rewrite E.
Qed.

Lemma runs_get {St} : runs (get (St := St)).
Proof. intros x. by eexists _, _. Qed.

Lemma runs_modify {St} (f : St → St) : runs (modify f).
Proof. intros x. by eexists _, _. Qed.

Lemma runs_when {St} b (m : GoM St ()) : runs m → runs (when b m).
Proof. intros Hm. destruct b; [done|apply runs_ret]. Qed.

Lemma runs_call_admin id req : runs (call_admin (W := W) id req).
Proof. intros x. unfold call_admin. destruct (admin id req _) as [r [cl w]]. by eexists _, _. Qed.

Ltac runs_tac := repeat (intros; first
  [ apply runs_ret | apply runs_get | apply runs_modify | apply runs_when | apply runs_call_admin
  | apply runs_bind | case_match | progress case_decide ]).

Lemma runs_lifecycle verb req id : runs (lifecycle_call (W := W) verb req id).
Proof. unfold lifecycle_call. runs_tac. Qed.

Lemma runs_Crash t id : runs (Chaos_Crash (W := W) t id).
Proof. unfold Chaos_Crash, noteFault. apply runs_bind; [apply runs_lifecycle|]. runs_tac. Qed.

Lemma runs_Partition t group : runs (Partition (W := W) t group).
Proof.
  assert (∀ members g ms e, runs (partition_loop (W := W) members g ms e)) as Hloop.
  { intros members g ms. induction ms as [|m ms IH]; intros e; cbn [partition_loop]; [apply runs_ret|].
    apply runs_bind; [apply runs_call_admin|]. intros reply. apply runs_bind; [apply runs_get|]. intros c. apply IH. }
  unfold Partition, noteFault. apply runs_bind; [apply runs_get|]. intros c.
  destruct (in_group _ group ∅); [|apply runs_ret]. destruct (_ =? _)%nat; [apply runs_ret|].
  apply runs_bind; [apply Hloop|]. runs_tac.
Qed.

Lemma runs_Recover t : runs (Recover (W := W) t).
Proof.
  assert (∀ nodes e, runs (recover_loop (W := W) nodes e)) as Hloop.
  { intros nodes. induction nodes as [|v nodes IH]; intros e; cbn [recover_loop]; [apply runs_ret|].
    destruct (is_running v); [apply IH|]. apply runs_bind; [apply runs_lifecycle|]. intros; apply IH. }
  unfold Recover, Heal, noteHealed. apply runs_bind; [apply runs_Partition|]. intros e.
  apply runs_bind; [apply runs_get|]. intros c. apply runs_bind; [apply Hloop|]. runs_tac.
Qed.

Lemma runs_action t action req act : chaos_action (W := W) t action req = Some act → runs act.
Proof.
  unfold chaos_action, CrashLeader, Chaos_Restart, Heal.
  repeat (destruct (bool_decide _); [intros [= <-]|]); [..|done].
  all: repeat (apply runs_bind; [first [apply runs_Crash|apply runs_lifecycle|apply runs_Partition|apply runs_Recover|apply runs_get]|intros]).
  all: try apply runs_ret. destruct (bool_decide _); [apply runs_ret|].
  apply runs_bind; [apply runs_Crash|intros; apply runs_ret].
Qed.

(** Computations that leave the watchdog's notes alone. *)
Definition quiet {A} (m : GoM (Console W) A) : Prop := ∀ c a c', m c = Val (a, c') → co_chaos c' = co_chaos c.

Lemma quiet_ret {A} (a : A) : quiet (mret a).
Proof. by intros c a' c' [= _ <-]. Qed.

Lemma quiet_bind {A B} (m : GoM (Console W) A) (f : A → GoM (Console W) B) :
  quiet m → (∀ a, quiet (f a)) → quiet (m ≫= f).
Proof. intros Hm Hf c b c' (a & c1 & H1 & H2)%bind_Val. rewrite (Hf _ _ _ _ H2). by eapply Hm. Qed.

Lemma quiet_get : quiet get.
Proof. by intros c a c' [= _ <-]. Qed.

Lemma quiet_call_admin id req : quiet (call_admin id req).
Proof. intros c a c'. unfold call_admin. destruct (admin id req _) as [r [cl w]]. by intros [= _ <-]. Qed.

Lemma quiet_lifecycle verb req id : quiet (lifecycle_call verb req id).
Proof.
  unfold lifecycle_call. apply quiet_bind; [apply quiet_get|]. intros c. destruct (negb _); [apply quiet_ret|].
  apply quiet_bind; [apply quiet_call_admin|]. intros; apply quiet_ret.
Qed.

Lemma quiet_partition_loop members g ms e : quiet (partition_loop members g ms e).
Proof.
  revert e. induction ms as [|m ms IH]; intros e; cbn [partition_loop]; [apply quiet_ret|].
  apply quiet_bind; [apply quiet_call_admin|]. intros reply. apply quiet_bind; [apply quiet_get|]. intros c. apply IH.
Qed.

Lemma quiet_recover_loop nodes e : quiet (recover_loop nodes e).
Proof.
  revert e. induction nodes as [|v nodes IH]; intros e; cbn [recover_loop]; [apply quiet_ret|].
  destruct (is_running v); [apply IH|]. apply quiet_bind; [apply quiet_lifecycle|]. intros; apply IH.
Qed.

Lemma Crash_notes t id c c' : Chaos_Crash t id c = Val (None, c') → co_chaos c' = MkChaos t false.
Proof. intros (err & c1 & H1 & H2)%bind_Val. destruct err; [done|]. by injection H2 as <-. Qed.

Lemma Partition_notes t group c c' :
  Partition t group c = Val (None, c') →
  co_chaos c' = if bool_decide (group = []) then co_chaos c else MkChaos t false.
Proof.
  intros (c0 & c1 & [= <- <-] & H)%bind_Val. destruct (in_group _ group ∅) as [g|]; [|done].
  cbv zeta in H. destruct (_ =? _)%nat; [done|]. apply bind_Val in H as (err & c2 & H1 & H2).
  apply quiet_partition_loop in H1. destruct err; [done|]. destruct group; injection H2 as <-; by rewrite <- ?H1.
Qed.

Lemma Recover_notes t c c' : Recover t c = Val (None, c') → co_chaos c' = MkChaos (ch_lastFaultAt (co_chaos c)) true.
Proof.
  intros (e1 & c1 & H1 & (c0 & c2 & [= <- <-] & (e2 & c3 & H3 & H4)%bind_Val)%bind_Val)%bind_Val.
  assert (co_chaos c1 = co_chaos c) as Hc1.
  { revert H1. unfold Heal, Partition. cbn [in_group]. intros (c0 & c2 & [= <- <-] & H)%bind_Val.
    cbv zeta in H. destruct (_ =? _)%nat; [by injection H as _ <-|]. apply bind_Val in H as (err & c2 & H1 & H2).
    apply quiet_partition_loop in H1. destruct err; injection H2 as _ <-; done. }
  apply quiet_recover_loop in H3. destruct e2; [done|]. injection H4 as <-. cbn. by rewrite H3, Hc1.
Qed.

(** The watchdog's notes after a fault that succeeded. *)
Definition chaos_after (t : Z) (action : string) (req : chaosRequest) (ch : Chaos) : Chaos :=
  if bool_decide (action ∈ ["crash"; "crash-leader"; "isolate"]) then MkChaos t false
  else if bool_decide (action = "partition" ∧ cr_Group req ≠ []) then MkChaos t false
  else if bool_decide (action = "recover") then MkChaos (ch_lastFaultAt ch) true
  else ch.

Lemma action_notes t action req act c aff c' :
  chaos_action t action req = Some act → act c = Val ((aff, None), c') →
  co_chaos c' = chaos_after t action req (co_chaos c).
Proof.
  unfold chaos_action.
  destruct (bool_decide_reflect (action = "crash")) as [->|_].
  { intros [= <-] (err & c1 & H1 & [= _ -> <-])%bind_Val. by apply Crash_notes in H1. }
  destruct (bool_decide_reflect (action = "crash-leader")) as [->|_].
  { intros [= <-] (c0 & c1 & [= <- <-] & H)%bind_Val. cbv zeta in H. destruct (bool_decide (_ = "")); [done|].
    apply bind_Val in H as (err & c1 & H1 & [= _ -> <-]). by apply Crash_notes in H1. }
  destruct (bool_decide_reflect (action = "restart")) as [->|_].
  { intros [= <-] (err & c1 & H1 & [= _ -> <-])%bind_Val. by apply quiet_lifecycle in H1. }
  destruct (bool_decide_reflect (action = "isolate")) as [->|_].
  { intros [= <-] (err & c1 & H1 & [= _ -> <-])%bind_Val. by apply Partition_notes in H1. }
  destruct (bool_decide_reflect (action = "partition")) as [->|_].
  { intros [= <-] (err & c1 & H1 & [= _ -> <-])%bind_Val. apply Partition_notes in H1. rewrite H1.
    unfold chaos_after. destruct (bool_decide_reflect (cr_Group req = [])) as [->|Hg]; [done|].
    rewrite (bool_decide_true ("partition" = "partition" ∧ _)) by done. done. }
  destruct (bool_decide_reflect (action = "heal")) as [->|_].
  { intros [= <-] (err & c1 & H1 & [= _ -> <-])%bind_Val. by apply Partition_notes in H1. }
  destruct (bool_decide_reflect (action = "recover")) as [->|_]; [|done].
  intros [= <-] (err & c1 & H1 & [= _ -> <-])%bind_Val. by apply Recover_notes in H1.
Qed.

End Ops.

Section Http.
Context {W : Type} `{!AdminNet W}.
Variable json_kv : string → kvRequest + string.
Implicit Types (s : HttpServer W).

(** ** Key-value requests *)

(** What a request leaves alone until it has been answered. *)
Lemma begin_inv t op r s b s' :
  handleKV_begin json_kv t op r s = Val (b, s') →
  (∃ l, s' = set_writeLimit l s) ∧ ∀ req, b = inr req → admissible op req s.
Proof.
  assert (s = set_writeLimit (hs_writeLimit s) s) as Hself by (by destruct s).
  unfold handleKV_begin. destruct (known_op op) eqn:Hop; cbn [negb].
  2: { intros [= <- <-]. split; [by eexists|done]. }
  destruct (decodeJSON _ _) as [req|err]; [|intros [= <- <-]; split; [by eexists|done]].
  unfold mbind at 1, GoM_bind at 1. cbn [get].
  destruct (validate op req s) as [err|] eqn:Hv; [intros [= <- <-]; split; [by eexists|done]|].
  apply validate_admissible in Hv; [|done].
  destruct (bool_decide_reflect (op = "get")) as [Hg|Hg].
  { intros [= <- <-]. split; [by eexists|]. by intros req' [= <-]. }
  unfold mbind, GoM_bind, on_field. destruct (allow t _ (hs_writeLimit s)) as [[ok l]|]; [|done].
  destruct ok; cbn [negb]; intros [= <- <-]; (split; [by eexists|]); [by intros req' [= <-]|done].
Qed.

Lemma begin_body t op r s req s' :
  handleKV_begin json_kv t op r s = Val (inr req, s') → json_kv (hr_Body r) = inl req.
Proof.
  intros Hb. pose proof (begin_inv _ _ _ _ _ _ Hb) as [_ Ha]. specialize (Ha req eq_refl). revert Hb.
  unfold handleKV_begin. destruct (negb _); [done|]. unfold decodeJSON.
  destruct (json_kv (hr_Body r)) as [req'|msg]; [|destruct (bool_decide (msg = "EOF")); [|done]].
  all: unfold mbind at 1, GoM_bind at 1; cbn [get]; destruct (validate op _ s); [done|].
  all: destruct (bool_decide _); [intros [= <- _]; (done || by destruct (ad_key _ _ _ Ha))|].
  all: unfold mbind, GoM_bind, on_field; destruct (allow t _ (hs_writeLimit s)) as [[ok l]|]; [|done].
  all: destruct ok; cbn [negb]; intros [= <- _]; (done || by destruct (ad_key _ _ _ Ha)).
Qed.

Lemma begin_refusal t op r s resp s' :
  handleKV_begin json_kv t op r s = Val (inl resp, s') → rs_code resp ≠ 200%N.
Proof.
  unfold handleKV_begin. destruct (negb _); [by intros [= <- _]|].
  destruct (decodeJSON _ _) as [req|err]; [|by intros [= <- _]].
  unfold mbind at 1, GoM_bind at 1. cbn [get]. destruct (validate op req s); [by intros [= <- _]|].
  destruct (bool_decide _); [done|]. unfold mbind, GoM_bind, on_field.
  destruct (allow t _ (hs_writeLimit s)) as [[ok l]|]; [|done]. destruct ok; cbn [negb]; by intros [= <- _].
Qed.

(** Which key-value requests reach the cluster.  A request goes on to the
    client exactly when its body decodes to a request the limits admit and, for
    anything but a read, the visitor's budget has a token; a read changes
    nothing at all.  Every other request is answered with an error: 404 for an
    unknown operation, 400 for a body or a request that is not admissible, 429
    when the budget is spent, and only the last costs anything. *)
Theorem operation_admitted t op r s :
  ∃ b s', handleKV_begin json_kv t op r s = Val (b, s') ∧
    match b with
    | inr req => json_kv (hr_Body r) = inl req ∧ admissible op req s ∧
        if bool_decide (op = "get") then s' = s
        else ∃ l, allow t (visitor r s) (hs_writeLimit s) = Val (true, l) ∧ s' = set_writeLimit l s
    | inl resp => (∃ msg, rs_payload resp = PError msg) ∧
        (rs_code resp = 404%N ∧ known_op op = false ∧ s' = s ∨
         rs_code resp = 400%N ∧ known_op op = true ∧ s' = s ∧
           (∀ req, json_kv (hr_Body r) = inl req → ¬ admissible op req s) ∨
         rs_code resp = 429%N ∧ op ≠ "get" ∧ (∃ req, json_kv (hr_Body r) = inl req ∧ admissible op req s) ∧
           ∃ l, allow t (visitor r s) (hs_writeLimit s) = Val (false, l) ∧ s' = set_writeLimit l s)
    end.
Proof.
  unfold handleKV_begin. destruct (known_op op) eqn:Hop; cbn [negb].
  2: { eexists _, _. split; [done|]. split; [by eexists|]. by left. }
  destruct (json_kv (hr_Body r)) as [req|msg] eqn:Hj; cbn [decodeJSON].
  - unfold mbind at 1, GoM_bind at 1. cbn [get]. destruct (validate op req s) as [err|] eqn:Hv.
    { eexists _, _. split; [done|]. split; [by eexists|]. right. left. split_and!; try done.
      intros req' [= <-] Ha%validate_admissible; [congruence|done]. }
    apply validate_admissible in Hv; [|done]. destruct (bool_decide_reflect (op = "get")) as [Hg|Hg]; [by eexists _, _|].
    unfold mbind, GoM_bind, on_field. destruct (allow_total t (visitor r s) (hs_writeLimit s)) as ([|] & l & Ha);
      unfold visitor in *; rewrite Ha; cbn [negb]; eexists _, _; (split; [done|]).
    + split; [done|]. split; [done|]. by exists l.
    + split; [by eexists|]. right. right. split_and!; [done|done|by exists req|by exists l].
  - destruct (bool_decide_reflect (msg = "EOF")) as [He|He].
    2: { eexists _, _. split; [done|]. split; [by eexists|]. right. left. by split_and!. }
    unfold mbind at 1, GoM_bind at 1. cbn [get]. unfold validate. cbn.
    eexists _, _. split; [done|]. split; [by eexists|]. right. left. by split_and!.
Qed.

(** C33: a key-value request from the visitor to the cluster and back.  When it
    is answered with 200, its body held an admissible request; every message
    sent on its behalf went to a member and carried the operation, key and value
    asked for under a fresh sequence number, so retries cannot apply it twice;
    the result names the route and, if it is a success, what the last node
    contacted replied; the key set follows the outcome; and everything but a
    successful read is recorded as one event, of which every open stream is told. *)
Theorem served_operation t ms inputs op r s resp s' :
  cluster_ok (hs_cluster s) → handleKV json_kv t ms inputs op r s = Val (Some resp, s') → rs_code resp = 200%N →
  ∃ req ep d result,
    json_kv (hr_Body r) = inl req ∧ admissible op req s ∧ endpoint_of op = Some ep ∧
    resp = MkResponse 200 (PResult result) ∧
    Forall (λ x, x.1.2 = ep ∧ x.2 = MkCommand (gc_clientID (hs_client s)) (u64_add (gc_seq (hs_client s)) 1)
      OP_UNSPECIFIED (kv_Key req) (kv_Value req)) (gd_sent d) ∧
    (λ x, x.1.1) <$> gd_sent d = at_Node <$> re_Attempts result ∧
    Forall (λ a, Known (at_Node a) (hs_cluster s) = true) (re_Attempts result) ∧
    result_from (hs_cluster s) inputs d result ∧
    gc_seq (hs_client s') = u64_add (gc_seq (hs_client s)) 1 ∧
    hs_keys s' = keys_after op (kv_Key req) (re_OK result) (hs_keys s) ∧
    cl_nextSeq (hs_cluster s') =
      (if logged op result then u64_add (cl_nextSeq (hs_cluster s)) 1 else cl_nextSeq (hs_cluster s)) ∧
    (logged op result = true → ∀ ch b, cl_subs (hs_cluster s) !! ch = Some b → cl_subs (hs_cluster s') !! ch = Some true).
Proof.
  intros Hok Hrun Hcode. unfold handleKV in Hrun. apply bind_Val in Hrun as (b & s1 & Hb & Hrun).
  destruct b as [resp'|req]; [exfalso; injection Hrun as -> <-; by eapply begin_refusal|].
  pose proof (begin_inv _ _ _ _ _ _ Hb) as [[l ->] Ha]. specialize (Ha req eq_refl).
  pose proof (begin_body _ _ _ _ _ _ Hb) as Hbody.
  destruct (endpoint_known op (ad_op _ _ _ Ha)) as [ep Hep].
  apply bind_Val in Hrun as (s2 & s3 & [= <- <-] & Hrun). cbn [hs_client set_writeLimit] in Hrun.
  unfold gw_start in Hrun. set (d := MkGwDo op _ _ _ _ _) in *. cbv zeta in Hrun.
  change (hs_cluster (set_writeLimit l s)) with (hs_cluster s) in Hrun.
  set (d' := gw_run (hs_cluster s) inputs d) in *.
  apply bind_Val in Hrun as ([] & s4 & [= <-] & Hrun).
  assert (gw_inv (hs_cluster s) ep d [] d) as Hi by (split; try done; by constructor).
  apply (gw_run_inv _ ep d inputs Hok Hep) in Hi. fold d' in Hi. destruct Hi as [_ _ Hs Hr Hm Hpc].
  destruct (gd_pc d') as [| | |result]; try done.
  apply bind_Val in Hrun as (resp2 & s5 & Hend & [= <- <-]).
  apply end_cluster in Hend as (Hc & Hk & -> & Hn & Hsub).
  pose proof (proj1 Hpc) as Hroute.
  exists req, ep, d', result. rewrite Hroute. split_and!; try done. by rewrite Hc.
Qed.

Variable json_chaos : string → chaosRequest + string.

(** ** Fault injection *)

Lemma handleChaos_frame t action r s resp s' :
  handleChaos json_chaos t action r s = Val (resp, s') →
  ∃ c l, s' = set_console c (set_faultLimit l s).
Proof.
  assert (s = set_console (hs_console s) (set_faultLimit (hs_faultLimit s) s)) as Hself by (by destruct s).
  unfold handleChaos. unfold mbind at 1, GoM_bind at 1. cbn [get].
  destruct (AllowChaos (hs_opts s)); cbn [negb]; [|intros [= _ <-]; by eexists _, _].
  unfold mbind at 1, GoM_bind at 1. unfold on_field at 1.
  destruct (allow t _ (hs_faultLimit s)) as [[ok l]|]; [|done]. set (s1 := set_faultLimit l s).
  assert (s1 = set_console (hs_console s) (set_faultLimit l s)) as Hself1 by (by destruct s).
  destruct ok; cbn [negb]; [|intros [= _ <-]; by eexists _, _].
  destruct (decodeJSON _ _) as [req|err]; [|intros [= _ <-]; by eexists _, _].
  destruct (chaos_action t action req) as [act|]; [|intros [= _ <-]; by eexists _, _].
  unfold mbind at 1, GoM_bind at 1. destruct (on_field _ _ act s1) as [[[aff err] s2]|] eqn:E; [|done].
  apply on_console_frame in E as (c & _ & ->). intros [= _ <-]. by eexists _, _.
Qed.

(** C34: the fault-injection endpoint.  It always answers.  Nothing about the
    nodes, the cluster view or the watchdog changes unless faults are allowed,
    the visitor's budget has a token, the body decodes and the action is known;
    what then happens is that action, and it is answered with 200 exactly when
    the action succeeded.  A successful fault is noted, so the watchdog will heal
    the cluster once it is left alone, and a successful recovery is noted too. *)
Theorem fault_endpoint t action r s :
  ∃ resp s', handleChaos json_chaos t action r s = Val (resp, s') ∧
  ((∃ msg, rs_payload resp = PError msg) ∧ hs_console s' = hs_console s ∧
     (rs_code resp = 403%N ∧ AllowChaos (hs_opts s) = false ∨
      rs_code resp = 429%N ∧ (∃ l, allow t (visitor r s) (hs_faultLimit s) = Val (false, l)) ∨
      rs_code resp = 400%N ∧ (∃ msg, json_chaos (hr_Body r) = inr msg ∧ msg ≠ "EOF") ∨
      rs_code resp = 404%N ∧ ∀ req, chaos_action (W := W) t action req = None) ∨
   AllowChaos (hs_opts s) = true ∧ (∃ l, allow t (visitor r s) (hs_faultLimit s) = Val (true, l)) ∧
   ∃ req act aff err, decodeJSON (MkChaosRequest "" []) (json_chaos (hr_Body r)) = inl req ∧
     chaos_action t action req = Some act ∧ act (hs_console s) = Val ((aff, err), hs_console s') ∧
     match err with
     | Some e => resp = MkResponse 400 (PError (error_string e))
     | None => resp = MkResponse 200 (PFault action aff) ∧
         co_chaos (hs_console s') = chaos_after t action req (co_chaos (hs_console s))
     end).
Proof.
  unfold handleChaos. unfold mbind at 1, GoM_bind at 1. cbn [get].
  destruct (AllowChaos (hs_opts s)) eqn:Hallow; cbn [negb].
  2: { eexists _, _. split; [done|]. left. split; [by eexists|]. split; [done|]. by left. }
  unfold mbind at 1, GoM_bind at 1. unfold on_field at 1. fold (visitor r s).
  destruct (allow_total t (visitor r s) (hs_faultLimit s)) as ([|] & l & Ha); rewrite Ha; cbn [negb].
  2: { eexists _, _. split; [done|]. left. split; [by eexists|]. split; [done|]. right; left. split; [done|by eexists]. }
  destruct (decodeJSON _ (json_chaos (hr_Body r))) as [req|err] eqn:Hj.
  2: { eexists _, _. split; [done|]. left. split; [by eexists|]. split; [done|]. right; right; left. split; [done|].
       unfold decodeJSON in Hj. destruct (json_chaos (hr_Body r)) as [|msg]; [done|].
       destruct (bool_decide_reflect (msg = "EOF")); [done|]. by exists msg. }
  destruct (chaos_action t action req) as [act|] eqn:Hact.
  2: { eexists _, _. split; [done|]. left. split; [by eexists|]. split; [done|]. right; right; right. split; [done|].
       intros req'. revert Hact. unfold chaos_action. by repeat (destruct (bool_decide _); [done|]). }
  unfold mbind at 1, GoM_bind at 1. unfold on_field at 1. cbn [hs_console set_faultLimit].
  destruct (runs_action _ _ _ _ Hact (hs_console s)) as ([aff err] & c' & Hrun). rewrite Hrun.
  eexists _, _. split; [done|]. right. split; [done|]. split; [by eexists|].
  exists req, act, aff, err. split; [done|]. split; [done|]. split; [exact Hrun|].
  destruct err as [e|]; [done|]. split; [done|]. by eapply action_notes.
Qed.

(** ** The cap on the number of keys *)

(** The gateway and the key-value requests that wait for the cluster: those have
    passed the checks and not come back. *)
Record KvWorld : Type := MkKvWorld { kw_server : HttpServer W; kw_inflight : gmap N (string * string) }.

Definition storing (fl : gmap N (string * string)) : gmap N (string * string) := filter (λ p, stores p.2.1) fl.

(** Requests in any order, at most [K] that store something at a time, and
    everything else that happens to the server. *)
Inductive kv_step (K : nat) : KvWorld → KvWorld → Prop :=
| kv_begin t op r id req s s' fl :
    handleKV_begin json_kv t op r s = Val (inr req, s') → fl !! id = None →
    (size (storing (<[id := (op, kv_Key req)]> fl)) ≤ K)%nat →
    kv_step K (MkKvWorld s fl) (MkKvWorld s' (<[id := (op, kv_Key req)]> fl))
| kv_refuse t op r resp s s' fl :
    handleKV_begin json_kv t op r s = Val (inl resp, s') → kv_step K (MkKvWorld s fl) (MkKvWorld s' fl)
| kv_end ms id op key result resp s s' fl :
    fl !! id = Some (op, key) → handleKV_end ms op key result s = Val (resp, s') →
    kv_step K (MkKvWorld s fl) (MkKvWorld s' (delete id fl))
| kv_fault t action r resp s s' fl :
    handleChaos json_chaos t action r s = Val (resp, s') → kv_step K (MkKvWorld s fl) (MkKvWorld s' fl)
| kv_cluster {A} (m : GoM Cluster A) a s s' fl :
    on_cluster m s = Val (a, s') → kv_step K (MkKvWorld s fl) (MkKvWorld s' fl)
| kv_client c s fl : kv_step K (MkKvWorld s fl) (MkKvWorld (set_client c s) fl).

(** Room for every key that is stored or may still be stored by a request on
    its way. *)
Definition kv_inv (K : nat) (w : KvWorld) : Prop :=
  ∃ X : gset string, hs_keys (kw_server w) ⊆ X ∧
    (∀ id op key, kw_inflight w !! id = Some (op, key) → stores op → key ∈ X) ∧
    (Z.of_nat (size X) < MaxKeys (hs_opts (kw_server w)) + Z.of_nat K)%Z.

Lemma kv_inv_frame K s s' fl fl' :
  hs_keys s' = hs_keys s → hs_opts s' = hs_opts s →
  (∀ id op key, fl' !! id = Some (op, key) → stores op → ∃ id', fl !! id' = Some (op, key)) →
  kv_inv K (MkKvWorld s fl) → kv_inv K (MkKvWorld s' fl').
Proof.
  intros Hk Ho Hfl (X & HX & Hin & Hs). exists X. cbn in *. rewrite Hk, Ho. split_and!; try done.
  intros id op key Hid Hst. destruct (Hfl _ _ _ Hid Hst) as [id' Hid']. by eapply Hin.
Qed.

Lemma kv_step_inv K w w' : kv_step K w w' → kv_inv K w → kv_inv K w'.
Proof.
  intros Hstep. destruct Hstep as [t op r id req s s' fl Hb Hid HK|t op r resp s s' fl Hb|ms id op key result resp s s' fl Hid He
    |t action r resp s s' fl Hc|A m a s s' fl Hc|c s fl].
  - apply begin_inv in Hb as [[l ->] Ha]. specialize (Ha req eq_refl).
    intros (X & HX & Hin & Hs). cbn in *. destruct (decide (stores op)) as [Hst|Hst].
    + destruct (ad_store _ _ _ Ha Hst) as [_ [Hk|Hk]].
      * exists X. cbn. split_and!; try done. intros id' op' key' [[_ [= <- <-]]|[_ Hi]]%lookup_insert_Some Hst'; [by apply HX|].
        by eapply Hin.
      * exists (hs_keys s ∪ list_to_set ((λ p, p.2.2) <$> map_to_list (storing (<[id := (op, kv_Key req)]> fl)))). cbn.
        split_and!; [set_solver| |].
        -- intros id' op' key' Hi Hst'. apply elem_of_union_r, elem_of_list_to_set, list_elem_of_fmap.
           exists (id', (op', key')). split; [done|]. apply elem_of_map_to_list. by apply map_lookup_filter_Some.
        -- assert (size (list_to_set ((λ p, p.2.2) <$> map_to_list (storing (<[id := (op, kv_Key req)]> fl))) : gset string) ≤ K)%nat as Hn.
           { etrans; [apply size_list_le|]. by rewrite length_fmap, length_map_to_list. }
           pose proof (size_union_le (hs_keys s) (list_to_set ((λ p, p.2.2) <$> map_to_list (storing (<[id := (op, kv_Key req)]> fl))))).
           lia.
    + exists X. cbn. split_and!; try done. intros id' op' key' [[_ [= <- <-]]|[_ Hi]]%lookup_insert_Some Hst'; [done|]. by eapply Hin.
  - apply begin_inv in Hb as [[l ->] _]. apply kv_inv_frame; [done|done|]. intros id op' key' ? _. by exists id.
  - destruct (end_spec ms op key result s) as [c Hend]. rewrite Hend in He. injection He as <- <-.
    intros (X & HX & Hin & Hs). exists X. cbn in *. split_and!; try done.
    + unfold keys_after. destruct (re_OK result); cbn [negb]; [|done].
      destruct (bool_decide_reflect (stores op)); [|destruct (bool_decide (op = "delete")); set_solver].
      pose proof (Hin _ _ _ Hid). set_solver.
    + intros id' op' key' [_ Hi]%lookup_delete_Some Hst. by eapply Hin.
  - apply handleChaos_frame in Hc as (c & l & ->). apply kv_inv_frame; [done|done|]. intros id op' key' ? _. by exists id.
  - apply on_cluster_frame in Hc as (c & _ & ->). apply kv_inv_frame; [done|done|]. intros id op' key' ? _. by exists id.
  - apply kv_inv_frame; [done|done|]. intros id op' key' ? _. by exists id.
Qed.

(** C35: the cap on stored keys.  While at most [K] requests that store something
    are on their way at a time, the gateway never holds more than
    [MaxKeys + K - 1] keys: [MaxKeys] when they come one by one.  The check and
    the insertion are two critical sections with the whole request in between,
    so the excess of concurrent requests is real, as the witness shows. *)
Theorem key_cap K c client o w :
  (0 < MaxKeys o)%Z → (0 < K)%nat →
  rtc (kv_step K) (MkKvWorld (NewServer c client o) ∅) w →
  (Z.of_nat (size (hs_keys (kw_server w))) ≤ MaxKeys (hs_opts (kw_server w)) + Z.of_nat K - 1)%Z.
Proof.
  intros Hm HK Hrun. assert (kv_inv K w) as (X & HX & _ & Hs).
  { assert (kv_inv K (MkKvWorld (NewServer c client o) ∅)) as Hi.
    { exists ∅. cbn. split_and!; [done|intros ? ? ? Hl; by rewrite lookup_empty in Hl|rewrite size_empty; lia]. }
    revert Hi. induction Hrun as [|w1 w2 w3 Hstep _ IH]; [done|]. intros Hi. apply IH. by eapply kv_step_inv. }
  pose proof (subseteq_size _ _ HX). lia.
Qed.

End Http.


(** ** Examples *)

(** A decoder for bodies that are just a key, the value being "v". *)
Definition demo_json (body : string) : kvRequest + string :=
  if bool_decide (body = "") then inr "EOF" else inl (MkKvRequest body "v").

Definition demo_request (body : string) : HttpRequest :=
  MkHttpRequest "POST" ["api"; "kv"; "put"] "" "10.0.0.1:4711" body.

Definition demo_result (key : string) : Result := MkResult true "put" key "" false "a" 7 [] "".

(** A gateway with room for one key. *)
Definition demo_options : Options := MkOptions "" true 64 512 1 60 30 false.
Definition demo_server : HttpServer Fleet := NewServer half_dead (NewGwClient "gw") demo_options.

(** Two requests that pass the check together store two keys where one is allowed. *)
Lemma key_cap_witness : ∃ w,
  rtc (kv_step demo_json (λ _, inr "EOF") 2) (MkKvWorld demo_server ∅) w ∧
  size (hs_keys (kw_server w)) = 2 ∧
  (Z.of_nat (size (hs_keys (kw_server w))) ≤ MaxKeys (hs_opts (kw_server w)) + 2 - 1)%Z.
Proof.
  assert (∃ w, rtc (kv_step demo_json (λ _, inr "EOF") 2) (MkKvWorld demo_server ∅) w ∧ size (hs_keys (kw_server w)) = 2)
    as (w & Hrun & Hsize).
  { eexists. split.
    - eapply rtc_l; [eapply (kv_begin _ _ _ 0 "put" (demo_request "x") 1); [vm_compute; reflexivity|done|by vm_compute; lia]|].
      eapply rtc_l; [eapply (kv_begin _ _ _ 0 "put" (demo_request "y") 2); [vm_compute; reflexivity|by vm_compute|by vm_compute; lia]|].
      eapply rtc_l; [eapply (kv_end _ _ _ 5 1 "put" "x" (demo_result "x")); [by vm_compute|vm_compute; reflexivity]|].
      eapply rtc_l; [eapply (kv_end _ _ _ 5 2 "put" "y" (demo_result "y")); [by vm_compute|vm_compute; reflexivity]|].
      apply rtc_refl.
    - by vm_compute. }
  exists w. split; [exact Hrun|]. split; [exact Hsize|].
  apply (key_cap demo_json (λ _, inr "EOF") 2 half_dead (NewGwClient "gw") demo_options w); [done|lia|exact Hrun].
Defined.

(** A put that node "a" redirects to "c". *)
Lemma served_operation_witness : ∃ cl s' result,
  example_cluster = inl cl ∧
  let s := NewServer (MkConsole cl NewChaos example_fleet) (NewGwClient "gw") demo_options in
  handleKV demo_json 0 5 example_inputs "put" (demo_request "x") s = Val (Some (MkResponse 200 (PResult result)), s') ∧
  re_OK result = true ∧ at_Node <$> re_Attempts result = ["a"; "c"] ∧ hs_keys s' = {["x"]} ∧
  gc_seq (hs_client s') = 1%N ∧ cl_nextSeq (hs_cluster s') = 1%N.
Proof.
  destruct example_cluster as [cl|err] eqn:E; [|by vm_compute in E].
  assert (cluster_ok cl) as Hok.
  { eapply NewCluster_ok; [|exact E]. apply (bool_decide_unpack (NoDup (m_ID <$> example_members))). by vm_compute. }
  set (s := NewServer (MkConsole cl NewChaos example_fleet) (NewGwClient "gw") demo_options).
  assert (∃ s' result, handleKV demo_json 0 5 example_inputs "put" (demo_request "x") s =
      Val (Some (MkResponse 200 (PResult result)), s') ∧ re_OK result = true ∧
      at_Node <$> re_Attempts result = ["a"; "c"]) as (s' & result & Hrun & Hres & Hroute).
  { clear Hok. subst s. vm_compute in E. injection E as <-. eexists _, _. split; [vm_compute; reflexivity|]. by vm_compute. }
  exists cl, s', result. split; [done|]. cbv zeta. fold s. split; [exact Hrun|]. split; [done|]. split; [done|].
  destruct (served_operation demo_json 0 5 example_inputs "put" (demo_request "x") s _ s' Hok Hrun eq_refl)
    as (req & ep & d & result' & [= <-] & _ & _ & [= <-] & _ & _ & _ & _ & Hseq & Hkeys & Hn & _).
  rewrite Hseq, Hkeys, Hn. unfold keys_after, logged. rewrite Hres. cbn. split_and!; [|done|].
  - by vm_compute.
  - clear -E. vm_compute in E. injection E as <-. by vm_compute.
Defined.

(** Behind a proxy the visitor is the first entry of X-Forwarded-For: where the
    proxy appends to the header, that entry is whatever the client wrote. *)
Theorem clientIP_first first rest r :
  plain_string first = true → free ","%char first = true →
  hr_forwarded r = (first ++ String ","%char rest)%string → clientIP true r = first.
Proof.
  intros Hp Hf Hr. unfold clientIP. rewrite Hr. rewrite bool_decide_false by (by destruct first).
  cbn [andb negb]. rewrite Cut_free by done.
  pose proof (TrimSpace_plain "" first "" eq_refl eq_refl Hp) as H. by rewrite app_nil, app_empty in H.
Qed.
