(* ===== verification/CommandLine.v ===== *)
(** * cmd: the programs, from the command line to the end of the process

    distkv-gateway's and distkv-server's member lists, what they start from
    them and how they end, and distkv-cli: its arguments, and [execute] as a step
    machine whose inputs are what each turn finds out.  Package flag, the
    listeners and what they serve are parameters; printing of usage and of
    progress is not modelled; error texts omit [%v] of a slice. *)
From Stdlib Require Import Ascii.
From S2P Require Import Prelude RaftTypes RaftNode KVStore ShardMap DiskStorage GrpcTransport Supervisor GatewayCluster GatewayChaos GatewayClient GoStrings RateLimit GatewayHttp.
#[local] Open Scope string_scope.

(** ** distkv-gateway *)

(** The loop of [parseNodes] over the parts. *)
Fixpoint nodes_loop (parts : list string) (seen : gset NodeID) (members : list Member) : list Member + error :=
  match parts with
  | [] => inl members
  | part :: rest =>
      let part := TrimSpace part in
      if bool_decide (part = "") then nodes_loop rest seen members else
      let '(name, addr, ok) := Cut "="%char part in
      let name := TrimSpace name in
      let addr := TrimSpace addr in
      if negb ok || bool_decide (name = "") || bool_decide (addr = "")
      then inr (Errorf ("malformed node " ++ quoted part ++ ", want id=host:port"))
      else if bool_decide (name ∈ seen) then inr (Errorf ("node " ++ name ++ " listed twice"))
      else nodes_loop rest ({[name]} ∪ seen) (members ++ [MkMember name addr])%list
  end.

Definition parseNodes (s : string) : list Member + error :=
  if bool_decide (TrimSpace s = "")
  then inr (Errorf "-nodes is required, as a comma-separated list of id=host:port")
  else match nodes_loop (Split ","%char s) ∅ [] with
       | inr err => inr err
       | inl [] => inr (Errorf "-nodes listed no usable entries")
       | inl members => inl members
       end.

(** [run] of distkv-gateway up to the moment it serves: [dial] and [first] as in
    [NewCluster], [net] the nodes it talks to, [clientID] its session. *)
Definition gateway_run {W} (dial : string → option error) (first : list Member → GwSnapshot) (net : W)
    (clientID nodesFlag : string) (opts : Options) : HttpServer W + error :=
  match parseNodes nodesFlag with
  | inr err => inr err
  | inl members =>
      match NewCluster dial first members with
      | inr err => inr err
      | inl cluster => inl (NewServer (MkConsole cluster NewChaos net) (NewGwClient clientID) opts)
      end
  end.

(** ** distkv-server *)
Fixpoint peers_loop (parts : list string) (addrs : gmap NodeID string) : gmap NodeID string + error :=
  match parts with
  | [] => inl addrs
  | part :: rest =>
      let part := TrimSpace part in
      if bool_decide (part = "") then peers_loop rest addrs else
      let '(name, addr, ok) := Cut "="%char part in
      if negb ok || bool_decide (TrimSpace name = "") || bool_decide (TrimSpace addr = "")
      then inr (Errorf ("malformed peer " ++ quoted part ++ ", want id=host:port"))
      else peers_loop rest (<[TrimSpace name := TrimSpace addr]> addrs)
  end.

Definition parsePeers (s : string) : gmap NodeID string + error :=
  if bool_decide (TrimSpace s = "")
  then inr (Errorf "-peers is required, as a comma-separated list of id=host:port")
  else match peers_loop (Split ","%char s) ∅ with
       | inr err => inr err
       | inl addrs => if bool_decide (addrs = ∅) then inr (Errorf "-peers listed no usable entries") else inl addrs
       end.

(** [loaded] is the outcome of [shard.LoadMap]. *)
Definition shardGroupFor (loaded : list Shard + error) (id : NodeID) : list NodeID + error :=
  match loaded with
  | inr err => inr err
  | inl shards =>
      match List.find (λ s, bool_decide (id ∈ Replicas s)) shards with
      | Some s => inl (Replicas s)
      | None => inr (Errorf ("node " ++ id ++ " does not appear in any shard"))
      end
  end.

(** The loop that turns the group into the peer set. *)
Fixpoint peer_set (nodeID : NodeID) (addrs : gmap NodeID string) (group : list NodeID) (peers : list NodeID)
    : list NodeID + error :=
  match group with
  | [] => inl peers
  | peer :: rest =>
      if bool_decide (peer = nodeID) then peer_set nodeID addrs rest peers
      else if negb (bool_decide (is_Some (addrs !! peer)))
      then inr (Errorf ("shard replica " ++ peer ++ " has no address in -peers"))
      else peer_set nodeID addrs rest (peers ++ [peer])%list
  end.

(** The settings that pass through unchanged. *)
Record ServerFlags : Type := MkServerFlags {
  sf_electionMin : Z; sf_electionMax : Z; sf_heartbeat : Z; sf_snapshotThreshold : Z;
}.

(** [run] of distkv-server up to the configuration of its supervisor;
    [keysOf] is the order in which the map of addresses is ranged over, and
    [shards] the loaded shard map when -shard-config is given. *)
Definition server_run (keysOf : gmap NodeID string → list NodeID) (id peersFlag dataDir : string)
    (shards : option (list Shard + error)) (f : ServerFlags) : SupConfig + error :=
  if bool_decide (id = "") then inr (Errorf "-id is required")
  else if bool_decide (dataDir = "") then inr (Errorf "-data-dir is required")
  else match parsePeers peersFlag with
  | inr err => inr err
  | inl addrs =>
      if negb (bool_decide (is_Some (addrs !! id)))
      then inr (Errorf ("-peers must include this node (" ++ id ++ ")"))
      else
        match match shards with
              | None => inl (keysOf addrs)
              | Some loaded => shardGroupFor loaded id
              end with
        | inr err => inr err
        | inl group =>
            match peer_set id addrs group [] with
            | inr err => inr err
            | inl peers => inl (MkSupConfig id peers addrs dataDir (sf_electionMin f) (sf_electionMax f)
                (sf_heartbeat f) (sf_snapshotThreshold f))
            end
        end
  end.

(** ** distkv-cli *)

Definition splitEndpoints (s : string) : list string :=
  filter (λ part, part ≠ "") (TrimSpace <$> Split ","%char s).

Definition contains (haystack : list string) (needle : string) : bool := bool_decide (needle ∈ haystack).

(** [strings.ToLower] of a string of ASCII letters; no other character has one
    of the commands' letters as its lower case. *)
Definition lower (a : ascii) : ascii :=
  let x := N_of_ascii a in if (65 <=? x)%N && (x <=? 90)%N then ascii_of_N (x + 32) else a.

Fixpoint ToLower (s : string) : string :=
  match s with
  | EmptyString => ""
  | String a s => String (lower a) (ToLower s)
  end.

(** The command line, after the flags: the operation and its command.
    [clientID] is the flag or the generated name. *)
Definition cli_command (clientID : string) (args : list string) : (string * KVCommand) + error :=
  let cmd key value := MkCommand clientID 1 OP_UNSPECIFIED key value in
  match args with
  | [] => inr (Errorf "no command given")
  | word :: rest =>
      let op := ToLower word in
      if bool_decide (op = "get") then
        match rest with
        | [key] => inl (op, cmd key "")
        | _ => inr (Errorf "get takes exactly one argument: get <key>")
        end
      else if bool_decide (op = "put") then
        match rest with
        | [key; value] => inl (op, cmd key value)
        | _ => inr (Errorf "put takes exactly two arguments: put <key> <value>")
        end
      else if bool_decide (op = "append") then
        match rest with
        | [key; value] => inl (op, cmd key value)
        | _ => inr (Errorf "append takes exactly two arguments: append <key> <value>")
        end
      else if bool_decide (op = "delete") then
        match rest with
        | [key] => inl (op, cmd key "")
        | _ => inr (Errorf "delete takes exactly one argument: delete <key>")
        end
      else inr (Errorf ("unknown command " ++ quoted word))
  end.

(** What is printed for a reply. *)
Definition cli_output (op : string) (reply : CommandReply) : string :=
  if bool_decide (op = "get") then (if Found reply then r_Value reply else "(not found)") else "OK".

(** The state of [execute]: it is at the top of a pass, at index [i] of
    [addrs], in the wait between passes, or has returned. *)
Inductive CliPc : Type :=
| CliTop
| CliAt (i : nat)
| CliWait
| CliReturned (r : CommandReply + error).

Record Cli : Type := MkCli {
  cli_addrs : list string;
  cli_lastErr : option error;
  cli_pc : CliPc;
  cli_sent : list (string * Op * KVCommand);
}.

(** What a turn finds out: whether the context is done, whether the address
    cannot be dialled, and how the call ends. *)
Record CliInput : Type := MkCliInput {
  ci_ctxDone : bool;
  ci_dial : option error;
  ci_answer : CommandReply + error;
}.

Definition cli_start (addrs : list string) : Cli := MkCli addrs None CliTop [].

Definition cli_at (pc : CliPc) (x : Cli) : Cli := MkCli (cli_addrs x) (cli_lastErr x) pc (cli_sent x).

(** [strings.Contains(hint, ":")] *)
Definition dialable (hint : string) : bool := has_byte ":"%char hint.

(** The body of the inner loop at index [i] for [addr]; [S i] is [i++]. *)
Definition cli_attempt (op : string) (cmd : KVCommand) (i : nat) (addr : string) (inp : CliInput) (x : Cli) : Cli :=
  match ci_dial inp with
  | Some err => MkCli (cli_addrs x) (Some err) (CliAt (S i)) (cli_sent x)
  | None =>
      let sent := (cli_sent x ++ match endpoint_of op with Some ep => [(addr, ep, cmd)] | None => [] end)%list in
      match ci_answer inp with
      | inr err => MkCli (cli_addrs x) (Some err) (CliAt (S i)) sent
      | inl reply =>
          if Success reply then MkCli (cli_addrs x) (cli_lastErr x) (CliReturned (inl reply)) sent
          else
            let err := Errorf (Error reply ++ " (leader hint: " ++ quoted (LeaderHint reply) ++ ")") in
            let hint := LeaderHint reply in
            if dialable hint && negb (contains (cli_addrs x) hint)
            then let i := 0%nat in MkCli (hint :: cli_addrs x) (Some err) (CliAt (S i)) sent
            else MkCli (cli_addrs x) (Some err) (CliAt (S i)) sent
      end
  end.

Definition cli_step (op : string) (cmd : KVCommand) (inp : CliInput) (x : Cli) : Cli :=
  match cli_pc x with
  | CliTop =>
      if ci_ctxDone inp
      then cli_at (CliReturned (inr match cli_lastErr x with
             | Some err => Wrapf "no endpoint accepted the request" err
             | None => Errorf "context done"
             end)) x
      else cli_at (CliAt 0) x
  | CliAt i =>
      match cli_addrs x !! i with
      | None => cli_at CliWait x
      | Some addr => if ci_ctxDone inp then cli_at CliWait x else cli_attempt op cmd i addr inp x
      end
  | CliWait => cli_at CliTop x
  | CliReturned _ => x
  end.

Definition execute (op : string) (cmd : KVCommand) (addrs : list string) (inputs : list CliInput) : Cli :=
  foldl (λ x inp, cli_step op cmd inp x) (cli_start addrs) inputs.

(** ** The programs as a whole *)

(** How the [select] at the end of a server's [run] is left. *)
Inductive ServeEnd : Type :=
| Signalled
| ServeErr (err : error).

(** The flags' defaults; durations are nanoseconds. *)
Definition server_defaults : ServerFlags := MkServerFlags 150000000 300000000 50000000 10000.

(** [run] of distkv-server: what it returns, and the supervisor it leaves
    behind if it got as far as starting one.  [lis] is the outcome of
    [net.Listen]; [serve] is everything the listener's services do with the
    supervisor until the server stops.  The deferred [sup.Close] runs on every
    path, [tr.Close] after it. *)
Definition server_main (keysOf : gmap NodeID string → list NodeID) (id listen peersFlag dataDir : string)
    (shards : option (list Shard + error)) (f : ServerFlags) (dir : DiskStorage) (e : Env)
    (lis : option error) (serve : GoM Supervisor ServeEnd) : go (option error * option Supervisor) :=
  match server_run keysOf id peersFlag dataDir shards f with
  | inr err => Val (Some err, None)
  | inl cfg =>
      let tr := Transport_New (sc_ID cfg) (sc_Addrs cfg) in
      match Supervisor_New cfg (Some tr) dir e with
      | Panic => Panic
      | Val (inr err) => Val (Some err, None)
      | Val (inl sup) =>
          let served : GoM Supervisor (option error) :=
            match lis with
            | Some err => mret (Some (Wrapf ("listening on " ++ listen) err))
            | None =>
                how ← serve;
                mret match how with Signalled => None | ServeErr err => Some err end
            end in
          match (r ← served;
                 Supervisor_Close ;;
                 modify (λ s, su_set_transport (Transport_Close (su_transport s)) s) ;;
                 mret r) sup with
          | Panic => Panic
          | Val (r, s) => Val (r, Some s)
          end
      end
  end.

(** [run] of distkv-gateway: [served] is how serving ends, [shutdown] what
    [server.Shutdown] returns after a signal. *)
Definition gateway_main {W} (dial : string → option error) (first : list Member → GwSnapshot) (net : W)
    (clientID nodesFlag : string) (opts : Options) (served : ServeEnd) (shutdown : option error) : option error :=
  match gateway_run dial first net clientID nodesFlag opts with
  | inr err => Some err
  | inl _ => match served with Signalled => shutdown | ServeErr err => Some err end
  end.

(** [run] of distkv-cli: the line it prints, or its error; [None] while it is
    still trying.  [generated] is the session id made up when the flag is empty. *)
Definition cli_main (args : list string) (endpoints clientID generated : string) (inputs : list CliInput)
    : option (string + error) :=
  if bool_decide (args = []) then Some (inr (Errorf "no command given")) else
  let addrs := splitEndpoints endpoints in
  if bool_decide (addrs = []) then Some (inr (Errorf "-endpoints listed no usable addresses")) else
  let clientID := if bool_decide (clientID = "") then generated else clientID in
  match cli_command clientID args with
  | inr err => Some (inr err)
  | inl (op, cmd) =>
      match cli_pc (execute op cmd addrs inputs) with
      | CliReturned (inl reply) => Some (inl (cli_output op reply))
      | CliReturned (inr err) => Some (inr err)
      | _ => None
      end
  end.

(** The exit status of each program's [main]. *)
Definition exit_code (result : option error) : Z :=
  match result with Some _ => 1 | None => 0 end.
