(* ===== verification/CommandLineProperties.v ===== *)
(** * What the programs make of their command lines

    Member lists parse back from any rendering, a deployment whose servers share
    one -peers list meets the assumptions of the Raft theorems, a gateway starts
    in a well-formed state, and distkv-cli's loop. *)
From Stdlib Require Import Ascii.
From S2P Require Import Prelude RaftTypes MemoryStorage RaftNode RaftElection KVStore ShardMap Supervisor GatewayCluster GatewayChaos GatewayClient GoStrings RateLimit GatewayHttp GatewayStream DiskStorage GrpcTransport CommandLine.
#[local] Set Warnings "-clear-no-such-hyp".
#[local] Open Scope string_scope.

(** ** Member lists *)

(** One entry with blanks around its parts. *)
Record NodeEntry : Type := MkNodeEntry {
  ne_name : string; ne_addr : string;
  ne_pad1 : string; ne_pad2 : string; ne_pad3 : string; ne_pad4 : string;
}.

(** What is left of it without the blanks outside. *)
Definition entry_core (e : NodeEntry) : string :=
  ne_name e ++ ne_pad2 e ++ String "="%char (ne_pad3 e ++ ne_addr e).

Definition render_entry (e : NodeEntry) : string := ne_pad1 e ++ entry_core e ++ ne_pad4 e.

Definition render (es : list NodeEntry) : string := Join "," (render_entry <$> es).

Record entry_ok (e : NodeEntry) : Prop := {
  eo_name : ne_name e ≠ "" ∧ plain_string (ne_name e) = true ∧ free ","%char (ne_name e) = true ∧
    free "="%char (ne_name e) = true;
  eo_addr : ne_addr e ≠ "" ∧ plain_string (ne_addr e) = true ∧ free ","%char (ne_addr e) = true;
  eo_pads : blank (ne_pad1 e) = true ∧ blank (ne_pad2 e) = true ∧ blank (ne_pad3 e) = true ∧ blank (ne_pad4 e) = true;
}.

Lemma bytes_cons s : s ≠ "" → ∃ a m, String.list_ascii_of_string s = a :: m.
Proof. destruct s as [|a s]; [done|]. by eexists _, _. Qed.

Lemma bytes_last s : s ≠ "" → ∃ z, last (String.list_ascii_of_string s) = Some z.
Proof.
  intros Hs. destruct (last (String.list_ascii_of_string s)) eqn:E; [by eexists|]. apply last_None in E. by destruct s.
Qed.

Lemma plain_in s x : plain_string s = true → x ∈ String.list_ascii_of_string s → plain x = true.
Proof. intros Hs%all_bytes_Forall. rewrite Forall_forall in Hs. apply Hs. Qed.

Lemma entry_core_ends e :
  entry_ok e → ∃ a m z, String.list_ascii_of_string (entry_core e) = a :: m ∧ last (a :: m) = Some z ∧
    plain a = true ∧ plain z = true.
Proof.
  intros [(Hn & Hpn & _ & _) (Ha & Hpa & _) _]. unfold entry_core.
  destruct (bytes_cons _ Hn) as (a & m & Ea). destruct (bytes_last _ Ha) as (z & Ez).
  rewrite !bytes_app, Ea. cbn [app]. eexists a, _, z. split; [done|]. split_and!.
  - rewrite app_comm_cons, last_app. cbn [String.list_ascii_of_string].
    rewrite last_app, last_cons, bytes_app, last_app, Ez. done.
  - apply (plain_in _ _ Hpn). rewrite Ea. by left.
  - apply (plain_in _ _ Hpa). by apply last_Some_elem_of.
Qed.

Lemma trim_entry e : entry_ok e → TrimSpace (render_entry e) = entry_core e.
Proof.
  intros He. destruct (entry_core_ends e He) as (a & m & z & Em & Ez & Ha & Hz).
  destruct (eo_pads _ He) as (H1 & _ & _ & H4). by apply (TrimSpace_middle _ _ _ a z m).
Qed.

Lemma core_not_empty e : entry_ok e → entry_core e ≠ "".
Proof. intros He. destruct (entry_core_ends e He) as (a & m & z & Em & _). intros E. by rewrite E in Em. Qed.

Lemma cut_entry e :
  entry_ok e → Cut "="%char (entry_core e) = (ne_name e ++ ne_pad2 e, ne_pad3 e ++ ne_addr e, true).
Proof.
  intros [(_ & _ & _ & Hn) _ (_ & H2 & _ & _)]. unfold entry_core. rewrite <- app_assoc_str. apply Cut_free.
  rewrite free_app, Hn. by apply blank_free.
Qed.

Lemma trim_name e : entry_ok e → TrimSpace (ne_name e ++ ne_pad2 e) = ne_name e.
Proof.
  intros [(_ & Hn & _) _ (_ & H2 & _)]. pose proof (TrimSpace_plain "" (ne_name e) (ne_pad2 e) eq_refl H2 Hn) as H.
  by rewrite app_nil in H.
Qed.

Lemma trim_addr e : entry_ok e → TrimSpace (ne_pad3 e ++ ne_addr e) = ne_addr e.
Proof.
  intros [_ (_ & Ha & _) (_ & _ & H3 & _)]. pose proof (TrimSpace_plain (ne_pad3 e) (ne_addr e) "" H3 eq_refl Ha) as H.
  by rewrite app_empty in H.
Qed.

Lemma render_free e : entry_ok e → free ","%char (render_entry e) = true.
Proof.
  intros [(_ & _ & Hn & _) (_ & _ & Ha) (H1 & H2 & H3 & H4)]. unfold render_entry, entry_core.
  rewrite !free_app. change (free ","%char (String "="%char ?x)) with (free ","%char x). rewrite free_app.
  by rewrite Hn, Ha, !blank_free.
Qed.

Lemma split_render es : es ≠ [] → Forall entry_ok es → Split ","%char (render es) = render_entry <$> es.
Proof.
  intros Hne Hes. apply Split_Join; [by destruct es|]. apply Forall_fmap. eapply Forall_impl; [exact Hes|].
  apply render_free.
Qed.

Lemma render_not_blank es : es ≠ [] → Forall entry_ok es → TrimSpace (render es) ≠ "".
Proof.
  intros Hne Hes. destruct es as [|e es]; [done|]. inversion Hes as [|? ? He _]; subst.
  destruct (entry_core_ends e He) as (a & m & z & Em & _ & Ha & _). apply (TrimSpace_not_empty _ a); [done|].
  assert (∃ t, render (e :: es) = ne_pad1 e ++ entry_core e ++ t) as [t ->].
  { unfold render. rewrite fmap_cons. unfold render_entry at 1. destruct (render_entry <$> es) as [|p ps].
    - by eexists.
    - eexists. cbn [String.concat]. by rewrite !app_assoc_str. }
  rewrite !bytes_app, Em. apply elem_of_app. right. by left.
Qed.

Definition entry_member (e : NodeEntry) : Member := MkMember (ne_name e) (ne_addr e).

Lemma nodes_loop_render es seen members :
  Forall entry_ok es → NoDup (ne_name <$> es) → (∀ e, e ∈ es → ne_name e ∉ seen) →
  nodes_loop (render_entry <$> es) seen members = inl (members ++ (entry_member <$> es))%list.
Proof.
  revert seen members. induction es as [|e es IH]; intros seen members Hes Hnd Hseen; [by rewrite app_nil_r|].
  inversion Hes as [|? ? He Hes']; subst. rewrite fmap_cons in Hnd. apply NoDup_cons in Hnd as [Hne Hnd].
  rewrite !fmap_cons. cbn [nodes_loop]. rewrite trim_entry, cut_entry, trim_name, trim_addr by done.
  rewrite (bool_decide_false (entry_core e = "")) by (by apply core_not_empty).
  destruct He as [(Hn & _) (Ha & _) _]. rewrite (bool_decide_false (ne_name e = "")), (bool_decide_false (ne_addr e = "")) by done.
  rewrite (bool_decide_false (ne_name e ∈ seen)) by (apply Hseen; by left). cbn [negb orb].
  rewrite IH; [by rewrite <- app_assoc|done|done|].
  intros e' He'. apply not_elem_of_union. split; [|apply Hseen; by right].
  apply not_elem_of_singleton. intros Heq. apply Hne. rewrite <- Heq. by apply list_elem_of_fmap_2.
Qed.

Lemma peers_loop_render es addrs :
  Forall entry_ok es →
  peers_loop (render_entry <$> es) addrs = inl (foldl (λ m e, <[ne_name e := ne_addr e]> m) addrs es).
Proof.
  revert addrs. induction es as [|e es IH]; intros addrs Hes; [done|].
  inversion Hes as [|? ? He Hes']; subst. rewrite fmap_cons. cbn [peers_loop foldl].
  rewrite trim_entry, cut_entry, trim_name, trim_addr by done.
  rewrite (bool_decide_false (entry_core e = "")) by (by apply core_not_empty).
  destruct He as [(Hn & _) (Ha & _) _]. rewrite (bool_decide_false (ne_name e = "")), (bool_decide_false (ne_addr e = "")) by done.
  cbn [negb orb]. by apply IH.
Qed.

Lemma fold_names (es : list NodeEntry) (m : gmap NodeID string) id :
  NoDup (ne_name <$> es) →
  foldl (λ m e, <[ne_name e := ne_addr e]> m) m es !! id =
  match list_find (λ e, ne_name e = id) es with Some (_, e) => Some (ne_addr e) | None => m !! id end.
Proof.
  revert m. induction es as [|e es IH]; intros m Hnd; [done|]. rewrite fmap_cons in Hnd.
  apply NoDup_cons in Hnd as [Hne Hnd]. cbn [foldl]. rewrite IH by done. cbn [list_find]. case_decide as Hid.
  - rewrite Hid, lookup_insert_eq. destruct (list_find _ es) as [[i e']|] eqn:E; [|done].
    apply list_find_Some in E as (Hi & He' & _). exfalso. apply Hne. rewrite Hid, <- He'.
    apply list_elem_of_fmap_2. by eapply list_elem_of_lookup_2.
  - rewrite lookup_insert_ne by done. by destruct (list_find _ es) as [[i e']|].
Qed.

(** C39: both programs read a member list alike and exactly.  A list of distinct
    names with their addresses, written as "id=host:port" entries with any blanks
    around the parts, is read back by distkv-gateway as those members in that
    order, and by distkv-server as the map from each name to its address. *)
Theorem parse_roundtrip es :
  es ≠ [] → Forall entry_ok es → NoDup (ne_name <$> es) →
  parseNodes (render es) = inl (entry_member <$> es) ∧
  ∃ addrs, parsePeers (render es) = inl addrs ∧
    ∀ id a, addrs !! id = Some a ↔ ∃ e, e ∈ es ∧ ne_name e = id ∧ ne_addr e = a.
Proof.
  intros Hne Hes Hnd. unfold parseNodes, parsePeers.
  rewrite (bool_decide_false (TrimSpace (render es) = "")) by (by apply render_not_blank).
  rewrite split_render, nodes_loop_render, peers_loop_render by (done || set_solver). cbn [app]. split; [by destruct es|].
  set (addrs := foldl _ _ _).
  assert (∀ id a, addrs !! id = Some a ↔ ∃ e, e ∈ es ∧ ne_name e = id ∧ ne_addr e = a) as Hspec.
  { intros id a. unfold addrs. rewrite fold_names by done. destruct (list_find _ es) as [[i e]|] eqn:E.
    - apply list_find_Some in E as (Hi & He & _). split.
      + intros [= <-]. exists e. split; [by eapply list_elem_of_lookup_2|done].
      + intros (e' & He' & Hid & <-). do 2 f_equal. apply list_elem_of_lookup in He' as [j Hj].
        assert (i = j) as <-; [|congruence]. eapply (NoDup_lookup (ne_name <$> es)); [done|..];
          rewrite list_lookup_fmap; [by rewrite Hi|rewrite Hj; cbn; congruence].
    - rewrite lookup_empty. split; [done|]. intros (e & He & Hid & _). apply list_find_None in E.
      rewrite Forall_forall in E. by destruct (E e He). }
  exists addrs. split; [|done]. rewrite bool_decide_false; [done|]. intros Hempty.
  destruct es as [|e es']; [done|]. assert (addrs !! ne_name e = Some (ne_addr e)) as Hl by (apply Hspec; exists e; by split; [left|]).
  by rewrite Hempty, lookup_empty in Hl.
Qed.

Definition example_entries : list NodeEntry :=
  [MkNodeEntry "n1" "10.0.0.1:7070" "" "" "" ""; MkNodeEntry "n2" "10.0.0.2:7070" " " " " "  " "";
   MkNodeEntry "n3" "[::1]:7070" (String "009" "") "" "" " "].

Lemma example_entries_ok : Forall entry_ok example_entries.
Proof. repeat constructor; by vm_compute. Qed.

Lemma parse_roundtrip_witness :
  render example_entries = "n1=10.0.0.1:7070, n2 =  10.0.0.2:7070," ++ String "009" "n3=[::1]:7070 " ∧
  parseNodes (render example_entries) =
    inl [MkMember "n1" "10.0.0.1:7070"; MkMember "n2" "10.0.0.2:7070"; MkMember "n3" "[::1]:7070"].
Proof.
  split; [by vm_compute|].
  apply (parse_roundtrip example_entries); [done|apply example_entries_ok|].
  by apply (bool_decide_unpack (NoDup _)); vm_compute.
Defined.

(** ** A deployment *)

Lemma peers_loop_names parts addrs addrs' :
  peers_loop parts addrs = inl addrs' → addrs !! "" = None → addrs' !! "" = None.
Proof.
  revert addrs. induction parts as [|part parts IH]; intros addrs; cbn [peers_loop]; [by intros [= <-]|].
  destruct (bool_decide (TrimSpace part = "")); [by apply IH|].
  destruct (Cut "="%char (TrimSpace part)) as [[name addr] ok].
  destruct (bool_decide_reflect (TrimSpace name = "")) as [|Hn]; [by rewrite orb_true_r|].
  rewrite orb_false_r. destruct (negb ok || _); [done|]. intros Hrun Hempty. eapply IH; [exact Hrun|].
  by rewrite lookup_insert_ne.
Qed.

Lemma parsePeers_spec s addrs : parsePeers s = inl addrs → addrs ≠ ∅ ∧ addrs !! "" = None.
Proof.
  unfold parsePeers. destruct (bool_decide (TrimSpace s = "")); [done|].
  destruct (peers_loop _ ∅) as [addrs'|] eqn:E; [|done]. destruct (bool_decide_reflect (addrs' = ∅)); [done|].
  intros [= <-]. split; [done|]. eapply peers_loop_names; [exact E|apply lookup_empty].
Qed.

Lemma peer_set_spec id addrs group acc peers :
  peer_set id addrs group acc = inl peers → peers = (acc ++ filter (λ p, p ≠ id) group)%list.
Proof.
  revert acc. induction group as [|p group IH]; intros acc; cbn [peer_set]; [intros [= <-]; by rewrite app_nil_r|].
  destruct (bool_decide_reflect (p = id)) as [->|Hp].
  - intros ->%IH. by rewrite filter_cons_False by tauto.
  - destruct (negb _); [done|]. intros ->%IH. by rewrite filter_cons_True, <- app_assoc.
Qed.

Lemma peer_set_total id addrs group acc :
  Forall (λ p, is_Some (addrs !! p)) group → ∃ peers, peer_set id addrs group acc = inl peers.
Proof.
  intros Hg. revert acc. induction Hg as [|p group Hp _ IH]; intros acc; cbn [peer_set]; [by eexists|].
  destruct (bool_decide (p = id)); [apply IH|]. rewrite bool_decide_true by done. apply IH.
Qed.

Lemma length_filter_ne (l : list NodeID) x : NoDup l → x ∈ l → length (filter (λ p, p ≠ x) l) + 1 = length l.
Proof.
  induction 1 as [|y l Hy Hnd IH]; intros Hx; [by apply elem_of_nil in Hx|].
  destruct (decide (y = x)) as [->|Hne].
  - rewrite filter_cons_False by tauto. cbn. assert (filter (λ p, p ≠ x) l = l) as ->; [|lia].
    clear IH Hnd Hx. induction l as [|z l IH]; [done|]. apply not_elem_of_cons in Hy as [? ?].
    by rewrite filter_cons_True, IH.
  - rewrite filter_cons_True by done. apply elem_of_cons in Hx as [->|Hx]; [done|]. cbn. rewrite <- IH by done. lia.
Qed.

(** C38: a deployment meets the assumptions of the Raft theorems.  When every
    server is started with its name from one -peers list, a data directory and no
    shard map, each of them gets a configuration, whatever order Go's maps are
    ranged over in, and together these configurations are a well-formed cluster:
    every node's peers are exactly the others, each once. *)
Theorem deployment_wf {S} `{HardStateSpec S} peersFlag addrs (keysOf : NodeID → gmap NodeID string → list NodeID)
    (dataDir : NodeID → string) (flags : NodeID → ServerFlags) :
  parsePeers peersFlag = inl addrs →
  (∀ p, keysOf p addrs ≡ₚ (map_to_list addrs).*1) → (∀ p, dataDir p ≠ "") →
  (∀ p, is_Some (addrs !! p) → vote_fits p) →
  ∃ sc : NodeID → SupConfig,
    (∀ p, is_Some (addrs !! p) → server_run (keysOf p) p peersFlag (dataDir p) None (flags p) = inl (sc p)) ∧
    cluster_wf (S := S) (map_to_list addrs).*1 (λ p, raft_config (sc p)).
Proof.
  intros Hparse Hkeys Hdir Hfits. destruct (parsePeers_spec _ _ Hparse) as [Hne Hempty].
  assert (NoDup (map_to_list addrs).*1) as Hnd by apply NoDup_fst_map_to_list.
  assert (∀ p, p ∈ (map_to_list addrs).*1 ↔ is_Some (addrs !! p)) as Hin.
  { intros p. rewrite list_elem_of_fmap. split.
    - intros ([q a] & -> & Ha%elem_of_map_to_list). by eexists.
    - intros [a Ha%elem_of_map_to_list]. by exists (p, a). }
  set (peers p := filter (λ q, q ≠ p) (keysOf p addrs)).
  exists (λ p, MkSupConfig p (peers p) addrs (dataDir p) (sf_electionMin (flags p)) (sf_electionMax (flags p))
    (sf_heartbeat (flags p)) (sf_snapshotThreshold (flags p))). split.
  - intros p Hp. unfold server_run. rewrite (bool_decide_false (p = "")) by (intros ->; rewrite Hempty in Hp; by destruct Hp).
    rewrite (bool_decide_false (dataDir p = "")), Hparse, bool_decide_true by done. cbn [negb].
    destruct (peer_set_total p addrs (keysOf p addrs) []) as [ps Hps].
    { rewrite (Hkeys p). apply Forall_forall. intros q. apply Hin. }
    rewrite Hps. apply peer_set_spec in Hps. by subst ps.
  - split; [done| |].
    + intros p Hp%Hin. cbn. split; [done|]. split; [|by apply Hfits]. intros ->. rewrite Hempty in Hp. by destruct Hp.
    + intros p Hp. cbn. unfold peers. split_and!.
      * apply NoDup_filter. by rewrite (Hkeys p).
      * by intros [? _]%list_elem_of_filter.
      * intros q [_ Hq]%list_elem_of_filter. by rewrite (Hkeys p) in Hq.
      * rewrite length_filter_ne; [by rewrite (Hkeys p)|by rewrite (Hkeys p)|by rewrite (Hkeys p)].
Qed.

Lemma deployment_wf_witness :
  ∃ sc : NodeID → SupConfig,
    server_run (λ m, (map_to_list m).*1) "n2" (render example_entries) "/data" None (MkServerFlags 150 300 50 10000) = inl (sc "n2") ∧
    cluster_wf (S := MemoryStorage) (map_to_list (foldl (λ m e, <[ne_name e := ne_addr e]> m) ∅ example_entries)).*1
      (λ p, raft_config (sc p)).
Proof.
  destruct (deployment_wf (S := MemoryStorage) (render example_entries)
    (foldl (λ m e, <[ne_name e := ne_addr e]> m) ∅ example_entries)
    (λ _ m, (map_to_list m).*1) (λ _, "/data") (λ _, MkServerFlags 150 300 50 10000)) as (sc & Hrun & Hwf).
  - by vm_compute.
  - done.
  - done.
  - done.
  - exists sc. split; [|exact Hwf]. apply Hrun. by vm_compute; eexists.
Defined.

(** ** The gateway *)

Lemma nodes_loop_spec parts seen members ms :
  nodes_loop parts seen members = inl ms →
  NoDup (m_ID <$> members) → (∀ id, id ∈ m_ID <$> members → id ∈ seen ∧ id ≠ "") →
  NoDup (m_ID <$> ms) ∧ ("" ∉ m_ID <$> ms).
Proof.
  revert seen members. induction parts as [|part parts IH]; intros seen members; cbn [nodes_loop].
  { intros [= <-] Hnd Hseen. split; [done|]. intros Hin. by destruct (Hseen _ Hin). }
  destruct (bool_decide (TrimSpace part = "")); [by apply IH|].
  destruct (Cut "="%char (TrimSpace part)) as [[name addr] ok].
  destruct (bool_decide_reflect (TrimSpace name = "")) as [|Hn]; [by rewrite orb_true_r|].
  rewrite orb_false_r. destruct (negb ok || _); [done|].
  destruct (bool_decide_reflect (TrimSpace name ∈ seen)) as [|Hnew]; [done|].
  intros Hrun Hnd Hseen. eapply IH; [exact Hrun|..]; rewrite fmap_app.
  - apply NoDup_app. split; [done|]. split; [|by apply NoDup_singleton].
    intros id Hid Heq%list_elem_of_singleton. subst id. by destruct (Hseen _ Hid).
  - intros id [Hid|Heq%list_elem_of_singleton]%elem_of_app; [|subst id; set_solver]. destruct (Hseen _ Hid). set_solver.
Qed.

(** A gateway starts well-formed.  Whatever node list it accepts, it serves
    with members of distinct, non-empty names whose tables agree, an empty event
    ring, full budgets and no keys: the assumptions of the theorems on its
    requests, streams, partitions and limits. *)
Theorem gateway_starts {W} dial first (net : W) clientID nodesFlag opts srv t0 :
  (0 < WritesPerMinute opts)%Z → (0 < FaultsPerMinute opts)%Z →
  gateway_run dial first net clientID nodesFlag opts = inl srv →
  cluster_ok (hs_cluster srv) ∧ ("" ∉ m_ID <$> cl_members (hs_cluster srv)) ∧
  cl_members (hs_cluster srv) ≠ [] ∧ ring_ok (hs_cluster srv) [] ∧
  limiter_ok t0 (hs_writeLimit srv) ∧ limiter_ok t0 (hs_faultLimit srv) ∧ hs_keys srv = ∅.
Proof.
  intros Hw Hf. unfold gateway_run. destruct (parseNodes nodesFlag) as [ms|] eqn:Hp; [|done].
  destruct (NewCluster dial first ms) as [cl|] eqn:Hc; [|done]. intros [= <-]. cbn.
  assert (NoDup (m_ID <$> ms) ∧ ("" ∉ m_ID <$> ms) ∧ ms ≠ []) as (Hnd & Hempty & Hne).
  { unfold parseNodes in Hp. destruct (bool_decide (TrimSpace nodesFlag = "")); [done|].
    destruct (nodes_loop _ ∅ []) as [[|m ms']|] eqn:E; try done. injection Hp as <-.
    apply nodes_loop_spec in E as [? ?]; [done|by apply NoDup_nil|]. intros id Hid. by apply elem_of_nil in Hid. }
  assert (cl_members cl ≡ₚ ms) as Hperm.
  { unfold NewCluster in Hc. rewrite bool_decide_false in Hc by done. destruct (dial_all _ _); [done|].
    injection Hc as <-. cbn. apply merge_sort_Permutation. }
  split_and!; try done.
  - by eapply NewCluster_ok.
  - by rewrite Hperm.
  - intros E. rewrite E in Hperm. by apply Permutation_nil_l in Hperm.
  - by eapply NewCluster_ring.
Qed.

Lemma gateway_starts_witness : ∃ srv,
  gateway_run (λ _, None) (λ ms, poll ms map_to_list 0 (replicate (length ms) (inr "connection refused")))
    example_fleet "gw" (render example_entries) DefaultOptions = inl srv ∧
  m_ID <$> cl_members (hs_cluster srv) = ["n1"; "n2"; "n3"] ∧ cluster_ok (hs_cluster srv).
Proof.
  destruct (gateway_run (λ _, None) (λ ms, poll ms map_to_list 0 (replicate (length ms) (inr "connection refused")))
    example_fleet "gw" (render example_entries) DefaultOptions) as [srv|] eqn:E; [|by vm_compute in E].
  exists srv. split; [done|]. split.
  - clear -E. vm_compute in E. injection E as <-. by vm_compute.
  - by apply (gateway_starts _ _ _ _ _ DefaultOptions srv 0 eq_refl eq_refl E).
Defined.

(** ** distkv-cli *)
#[local] Open Scope list_scope.

(** The words a command line is made of. *)
Lemma cli_command_op clientID args op cmd :
  cli_command clientID args = inl (op, cmd) →
  (∃ ep, endpoint_of op = Some ep) ∧ ClientId cmd = clientID ∧ SeqNo cmd = 1%N.
Proof.
  destruct args as [|word rest]; [done|]. unfold cli_command. cbv zeta. generalize (ToLower word) as o. intros o.
  destruct (bool_decide_reflect (o = "get")) as [->|_];
    [|destruct (bool_decide_reflect (o = "put")) as [->|_];
    [|destruct (bool_decide_reflect (o = "append")) as [->|_];
    [|destruct (bool_decide_reflect (o = "delete")) as [->|_]; [|done]]]].
  all: destruct rest as [|k [|v [|]]]; try done; intros [= <- <-]; (split; [by eexists|done]).
Qed.

(** Every address on the list was given or is a hint of a reply. *)
Definition known_addr (addrs0 : list string) (inputs : list CliInput) (a : string) : Prop :=
  a ∈ addrs0 ∨ ∃ i reply, i ∈ inputs ∧ ci_answer i = inl reply ∧ LeaderHint reply = a ∧ dialable a = true.

Record cli_inv (ep : Op) (cmd : KVCommand) (addrs0 : list string) (inputs : list CliInput) (x : Cli) : Prop := {
  cv_addrs : ∃ hints, cli_addrs x = (hints ++ addrs0)%list ∧ NoDup hints ∧ Forall (λ h, h ∉ addrs0) hints;
  cv_known : Forall (known_addr addrs0 inputs) (cli_addrs x);
  cv_sent : Forall (λ m, m.1.2 = ep ∧ m.2 = cmd ∧ m.1.1 ∈ cli_addrs x) (cli_sent x);
  cv_result : match cli_pc x with
    | CliReturned (inl reply) => Success reply = true ∧ ∃ i, i ∈ inputs ∧ ci_answer i = inl reply
    | CliReturned (inr _) => ∃ i, i ∈ inputs ∧ ci_ctxDone i = true
    | _ => True
    end;
}.

Lemma known_more addrs0 inputs i a : known_addr addrs0 inputs a → known_addr addrs0 (inputs ++ [i]) a.
Proof.
  intros [H|(j & r & Hj & H)]; [by left|]. right. exists j, r. split; [|done]. apply elem_of_app. by left.
Qed.

(** Changes of a turn that contacts nobody new. *)
Lemma cli_inv_at ep cmd addrs0 inputs i x pc :
  cli_inv ep cmd addrs0 inputs x →
  match pc with
  | CliReturned (inl reply) => Success reply = true ∧ ∃ i', i' ∈ inputs ++ [i] ∧ ci_answer i' = inl reply
  | CliReturned (inr _) => ∃ i', i' ∈ inputs ++ [i] ∧ ci_ctxDone i' = true
  | _ => True
  end → ∀ err sent, Forall (λ m, m.1.2 = ep ∧ m.2 = cmd ∧ m.1.1 ∈ cli_addrs x) sent →
  cli_inv ep cmd addrs0 (inputs ++ [i]) (MkCli (cli_addrs x) err pc sent).
Proof.
  intros [Ha Hk Hs _] Hpc err sent Hsent. split; cbn; try done.
  eapply Forall_impl; [exact Hk|]. intros a. apply known_more.
Qed.

Lemma cli_attempt_inv op ep cmd addrs0 inputs i k addr x :
  endpoint_of op = Some ep → cli_inv ep cmd addrs0 inputs x → cli_addrs x !! k = Some addr →
  cli_inv ep cmd addrs0 (inputs ++ [i]) (cli_attempt op cmd k addr i x).
Proof.
  intros Hep Hi Haddr. pose proof (cv_sent _ _ _ _ _ Hi) as Hs.
  assert (i ∈ inputs ++ [i]) as Hin by (apply elem_of_app; right; by left).
  unfold cli_attempt. destruct (ci_dial i) as [err|]; [by apply cli_inv_at|]. rewrite Hep.
  assert (Forall (λ m, m.1.2 = ep ∧ m.2 = cmd ∧ m.1.1 ∈ cli_addrs x) (cli_sent x ++ [(addr, ep, cmd)])) as Hs'.
  { apply Forall_app. split; [done|]. repeat constructor. cbn. by eapply list_elem_of_lookup_2. }
  destruct (ci_answer i) as [reply|err] eqn:Hans; [|by apply cli_inv_at].
  destruct (Success reply) eqn:Hok; [apply cli_inv_at; [done| |done]; split; [done|by exists i]|].
  destruct (dialable (LeaderHint reply)) eqn:Hd; cbn [andb]; [|by apply cli_inv_at].
  unfold contains. destruct (bool_decide_reflect (LeaderHint reply ∈ cli_addrs x)) as [Hc|Hc]; cbn [negb]; [by apply cli_inv_at|].
  destruct Hi as [(hints & Ha & Hnd & Hout) Hk _ _]. split; cbn.
  - exists (LeaderHint reply :: hints). rewrite Ha in *. split; [done|].
    apply not_elem_of_app in Hc as [? ?]. split; by constructor.
  - constructor; [right; exists i, reply; done|]. eapply Forall_impl; [exact Hk|]. intros a. apply known_more.
  - eapply Forall_impl; [exact Hs'|]. intros m (? & ? & ?). split_and!; try done. by right.
  - done.
Qed.

Lemma cli_step_inv op ep cmd addrs0 inputs i x :
  endpoint_of op = Some ep → cli_inv ep cmd addrs0 inputs x →
  cli_inv ep cmd addrs0 (inputs ++ [i]) (cli_step op cmd i x).
Proof.
  intros Hep Hi. pose proof (cv_sent _ _ _ _ _ Hi) as Hs. unfold cli_step, cli_at.
  assert (i ∈ inputs ++ [i]) as Hin by (apply elem_of_app; right; by left).
  destruct (cli_pc x) as [|k| |r] eqn:Hpc.
  - destruct (ci_ctxDone i) eqn:Hd; apply cli_inv_at; try done. by exists i.
  - destruct (cli_addrs x !! k) as [addr|] eqn:Haddr; [|by apply cli_inv_at].
    destruct (ci_ctxDone i); [by apply cli_inv_at|by apply cli_attempt_inv].
  - by apply cli_inv_at.
  - pose proof (cv_result _ _ _ _ _ Hi) as Hr. rewrite Hpc in Hr. destruct x as [xa xe xp xs]. cbn in *. subst xp.
    apply (cli_inv_at ep cmd addrs0 inputs i (MkCli xa xe (CliReturned r) xs) (CliReturned r) Hi); [|done].
    destruct r as [reply|err]; [destruct Hr as (? & j & Hj & ?); split; [done|]|destruct Hr as (j & Hj & ?)];
      exists j; (split; [apply elem_of_app; by left|done]).
Qed.

Lemma execute_snoc op cmd addrs inputs i :
  execute op cmd addrs (inputs ++ [i]) = cli_step op cmd i (execute op cmd addrs inputs).
Proof. unfold execute. by rewrite foldl_app. Qed.

Lemma execute_inv op ep cmd addrs inputs :
  endpoint_of op = Some ep → cli_inv ep cmd addrs inputs (execute op cmd addrs inputs).
Proof.
  intros Hep. induction inputs as [|i inputs IH] using rev_ind.
  - split; cbn; try done.
    + exists []. split; [done|]. split; by constructor.
    + apply Forall_forall. by left.
  - rewrite execute_snoc. by apply cli_step_inv.
Qed.

(** Once the context is done, three turns are enough. *)
Lemma execute_ends op cmd addrs inputs i j k :
  ci_ctxDone i = true → ci_ctxDone j = true → ci_ctxDone k = true →
  ∃ r, cli_pc (execute op cmd addrs (inputs ++ [i; j; k])) = CliReturned r.
Proof.
  intros Hi Hj Hk. change [i; j; k] with ([i] ++ [j] ++ [k]). rewrite !app_assoc, !execute_snoc.
  generalize (execute op cmd addrs inputs) as x. intros [a e pc s]. unfold cli_step, cli_at.
  destruct pc as [|n| |r]; cbn; rewrite ?Hi, ?Hj, ?Hk; cbn; rewrite ?Hj, ?Hk; cbn; [by eexists| |by eexists|by eexists].
  destruct (a !! n); cbn; rewrite ?Hi; cbn; rewrite ?Hj; cbn; rewrite ?Hk; by eexists.
Qed.

(** One command of distkv-cli.  However dialling, nodes and clock behave,
    all messages sent are the one command under the session's sequence number 1
    to the operation's endpoint, so retries cannot apply it twice, and they go to
    addresses that were given or that a node named as the leader's, none adopted
    twice.  A reply that is returned is a success some node sent; an error is
    returned only after the context ended, and three turns after that the program
    has an outcome. *)
Theorem cli_retries clientID args op cmd addrs inputs :
  cli_command clientID args = inl (op, cmd) →
  let x := execute op cmd addrs inputs in
  ClientId cmd = clientID ∧ SeqNo cmd = 1%N ∧
  (∃ ep, endpoint_of op = Some ep ∧ Forall (λ m, m.1.2 = ep ∧ m.2 = cmd ∧ known_addr addrs inputs m.1.1) (cli_sent x)) ∧
  (∃ hints, cli_addrs x = (hints ++ addrs)%list ∧ NoDup hints ∧ Forall (λ h, h ∉ addrs) hints) ∧
  (∀ reply, cli_pc x = CliReturned (inl reply) →
     Success reply = true ∧ ∃ i, i ∈ inputs ∧ ci_answer i = inl reply) ∧
  (∀ err, cli_pc x = CliReturned (inr err) → ∃ i, i ∈ inputs ∧ ci_ctxDone i = true) ∧
  (∀ i j k, ci_ctxDone i = true → ci_ctxDone j = true → ci_ctxDone k = true →
     ∃ r, cli_pc (execute op cmd addrs (inputs ++ [i; j; k])) = CliReturned r).
Proof.
  intros Hcmd x. destruct (cli_command_op _ _ _ _ Hcmd) as ([ep Hep] & Hid & Hseq).
  destruct (execute_inv op ep cmd addrs inputs Hep) as [Ha Hk Hs Hr]. fold x in Ha, Hk, Hs, Hr.
  split_and!; try done.
  - exists ep. split; [done|]. eapply Forall_impl; [exact Hs|]. intros m (? & ? & Hm). split_and!; try done.
    rewrite Forall_forall in Hk. by apply Hk.
  - intros reply E. by rewrite E in Hr.
  - intros err E. by rewrite E in Hr.
  - apply execute_ends.
Qed.

(** A run against one endpoint that sends the client on to another. *)
Definition hint_reply : CommandReply := MkReply false "" false "kv: not leader" "b:7070" 0.
Definition hint_inputs (n : nat) : list CliInput :=
  replicate n (MkCliInput false None (inl hint_reply)).

Lemma cli_retries_witness :
  let x := execute "put" (MkCommand "me" 1 OP_UNSPECIFIED "k" "v") ["a:7070"]
    (hint_inputs 6 ++ [MkCliInput false None (inl success_reply)]) in
  (λ m, m.1.1) <$> cli_sent x = ["a:7070"; "a:7070"; "b:7070"] ∧
  cli_addrs x = ["b:7070"; "a:7070"] ∧ cli_pc x = CliReturned (inl success_reply) ∧
  Forall (λ m, m.1.2 = OP_PUT ∧ m.2 = MkCommand "me" 1 OP_UNSPECIFIED "k" "v") (cli_sent x).
Proof.
  cbv zeta. split; [by vm_compute|]. split; [by vm_compute|]. split; [by vm_compute|].
  destruct (cli_retries "me" ["PUT"; "k"; "v"] "put" (MkCommand "me" 1 OP_UNSPECIFIED "k" "v") ["a:7070"]
    (hint_inputs 6 ++ [MkCliInput false None (inl success_reply)]) eq_refl) as (_ & _ & (ep & [= <-] & Hs) & _).
  eapply Forall_impl; [exact Hs|]. intros m (? & ? & _). done.
Defined.

(** The adopted hint is not asked next, as the comment says it is: the loop's
    [i++] follows [i = 0], so the turn after the redirect goes to the address that
    was first before, and the hint waits for the next pass. *)
Theorem cli_hint_skipped op ep cmd k a rest err sent reply inp inp' :
  endpoint_of op = Some ep → (a :: rest) !! k = Some a →
  ci_ctxDone inp = false → ci_dial inp = None → ci_answer inp = inl reply →
  Success reply = false → dialable (LeaderHint reply) = true → LeaderHint reply ∉ a :: rest →
  ci_ctxDone inp' = false → ci_dial inp' = None →
  let x1 := cli_step op cmd inp (MkCli (a :: rest) err (CliAt k) sent) in
  cli_addrs x1 = LeaderHint reply :: a :: rest ∧
  cli_sent (cli_step op cmd inp' x1) = (sent ++ [(a, ep, cmd)] ++ [(a, ep, cmd)])%list.
Proof.
  intros Hep Ha Hc Hdl Hans Hok Hd Hn Hc' Hdl'. unfold cli_step. cbn [cli_pc cli_addrs]. rewrite Ha, Hc.
  unfold cli_attempt at 1. rewrite Hdl, Hans, Hok, Hd, Hep. unfold contains. rewrite bool_decide_false by done. cbn [negb andb].
  cbv zeta. cbn [cli_addrs]. split; [done|]. unfold cli_attempt. rewrite Hdl, Hans, Hok, Hd, Hep.
  unfold contains. cbn [cli_addrs]. rewrite bool_decide_false by done. cbn [negb andb cli_pc cli_addrs lookup list_lookup].
  rewrite Hc', Hdl'. cbn [cli_sent].
  destruct (ci_answer inp') as [r|]; [|by rewrite <- app_assoc]. destruct (Success r); [by rewrite <- app_assoc|].
  destruct (_ && _); by rewrite <- app_assoc.
Qed.

(** A node listed in two shards is accepted, and joins the group of the first. *)
Definition two_shards : list Shard :=
  [MkShard 1 "" "m" ["a"; "b"; "c"]; MkShard 2 "m" "" ["a"; "d"; "e"]].

Theorem two_shards_accepted :
  (Validate two_shards).1 = None ∧ shardGroupFor (inl two_shards) "a" = inl ["a"; "b"; "c"].
Proof. by vm_compute. Qed.

(** ** The programs as a whole *)

Lemma Supervisor_Close_stops s u s' :
  Supervisor_Close s = Val (u, s') → su_kvServer s' = None ∧ su_crashed s' = true.
Proof.
  unfold Supervisor_Close, stopLocked, on_disk, on_field, mbind, GoM_bind, get, modify.
  destruct (su_kvServer s) as [server|] eqn:Hs; cbn.
  - destruct (ds_Close _) as [[??]|]; [|done]. cbn. by intros [= _ <-].
  - intros [= _ <-]. by cbn.
Qed.

(** However distkv-server ends after it started its node - it could not
    listen, it stopped serving with an error, it was told to stop - the node is
    gone, its connections are closed and requests are refused; it exits with
    status 0 only after a signal. *)
Theorem server_main_closes keysOf id listen peersFlag dataDir shards f dir e lis serve r s :
  server_main keysOf id listen peersFlag dataDir shards f dir e lis serve = Val (r, Some s) →
  su_kvServer s = None ∧ t_conns (su_transport s) = ∅ ∧
  (∀ endpoint cmd, forward endpoint cmd s = inr errCrashed) ∧
  (exit_code r = 0%Z → lis = None ∧ ∃ s0 s1, serve s0 = Val (Signalled, s1)).
Proof.
  unfold server_main. destruct (server_run _ _ _ _ _ _) as [cfg|]; [|done].
  destruct (Supervisor_New _ _ _ _) as [[sup|]|]; [|done..]. unfold mbind at 1, GoM_bind at 1.
  set (served := match lis with Some _ => _ | None => _ end). destruct (served sup) as [[r0 s0]|] eqn:Hserved; [|done].
  unfold mbind, GoM_bind, modify. destruct (Supervisor_Close s0) as [[u s1]|] eqn:Hc; [|done].
  apply Supervisor_Close_stops in Hc as [Hs Hcr]. cbn. intros [= <- <-]. cbn. split_and!; try done.
  - intros endpoint cmd. unfold forward, current. cbn. by rewrite Hs.
  - intros Hr. subst served. destruct lis as [err|]; [by injection Hserved as <- <-|]. split; [done|].
    unfold mbind, GoM_bind in Hserved. destruct (serve sup) as [[[|err] s2]|] eqn:E; [by eauto| |done].
    by injection Hserved as <- <-.
Qed.

(** With the default flags a leader sends several heartbeats within the
    shortest election timeout, and the timeouts are random. *)
Example default_timing :
  (0 < 2 * sf_heartbeat server_defaults < sf_electionMin server_defaults)%Z ∧
  (sf_electionMin server_defaults < sf_electionMax server_defaults)%Z.
Proof. done. Qed.

(** distkv-cli prints a result only if some node accepted its command. *)
Theorem cli_main_prints args endpoints clientID generated inputs out :
  cli_main args endpoints clientID generated inputs = Some (inl out) →
  ∃ op cmd reply i, cli_command (if bool_decide (clientID = "") then generated else clientID) args = inl (op, cmd) ∧
    out = cli_output op reply ∧ Success reply = true ∧ i ∈ inputs ∧ ci_answer i = inl reply.
Proof.
  unfold cli_main. case_bool_decide; [done|]. case_bool_decide; [done|].
  destruct (cli_command _ args) as [[op cmd]|] eqn:Hcmd; [|done].
  destruct (cli_command_op _ _ _ _ Hcmd) as ([ep Hep] & _ & _).
  destruct (execute_inv op ep cmd (splitEndpoints endpoints) inputs Hep) as [_ _ _ Hr].
  destruct (cli_pc _) as [| | |[reply|err]] eqn:Hpc; try done. intros [= <-].
  destruct Hr as (Hok & i & Hi & Ha). by exists op, cmd, reply, i.
Qed.

(** Two commands given the same -client-id are one session, in which both have
    sequence number 1: the second one is answered as a success and does
    nothing. *)
Theorem cli_second_write_suppressed {codec : KVCodec} :
  let cmd v := match cli_command "me" ["put"; "k"; v] with
               | inl (_, c) => MkCommand (ClientId c) (SeqNo c) OP_PUT (Key c) (Value c)
               | inr _ => MkCommand "" 0 OP_UNSPECIFIED "" ""
               end in
  let '(r1, s1) := apply_cmd (cmd "1") NewStore in
  let '(r2, s2) := apply_cmd (cmd "2") s1 in
  (r1, r2) = (Some success_reply, Some success_reply) ∧ str_get (data s2) "k" = "1".
Proof. by vm_compute. Qed.
